(* ===== verification/_CoqProject ===== *)
-Q . S2P
Prelude.v
Bytes.v
Codec.v
Records.v
RaftTypes.v
RaftLog.v
Raft.v
RaftSafety.v
RaftReplication.v
RaftElections.v
RaftCluster.v
RaftLogs.v
RaftMatching.v
RaftPositions.v
RaftCommitment.v
RawNode.v
MultiLevelKey.v
Engine.v
Storage.v
Latches.v
Proto.v
MvccTxn.v
Scanner.v
Server.v
RawApi.v
TransactionApi.v
Isolation.v
Grpc.v
Wal.v
Ingest.v
Shell.v
Cluster.v
Operator.v
OperatorController.v
Schedulers.v
StoreBalancer.v
StoreMeta.v
Locks.v
PdState.v
Views.v
FailureDetector.v
PeerStorage.v
RegionTasks.v
Config.v
Peers.v
PdService.v
SchedulerTask.v
Programs.v
MockScheduler.v
RawNodeTests.v
UnitTests.v
