(* ===== verification/Prelude.v ===== *)
(** * A verification development for AegisDB

    AegisDB is a distributed key-value store in Rust: a Raft library, a raft
    store and a scheduler, and on top of a storage engine (RocksDB) a
    transactional key-value service with multi-version concurrency control
    and two-phase commit.  This development models its parts, from bytes to
    the programs that put them together, and proves what makes them correct.

    ** The parts, and the files that model them

    - [Prelude] (this file), [Bytes]: outcomes of Rust calls, the
      state-passing monad, machine integers, slices; bytes, big-endian
      numbers, the lexicographic order.
    - [Codec]: src/transaction/mvcc/codec.rs, the memcomparable encoding of
      keys with a timestamp.
    - [Records]: src/transaction/mvcc/write.rs and lock.rs,
      src/storage/modify.rs, the stored records and their byte formats.
    - [RaftTypes]: src/raft/types.rs, progress.rs, storage.rs.
    - [RaftLog]: src/raft/log.rs.
    - [Raft]: src/raft/raft.rs, the state machine.  A method with [&mut self]
      is a function in the monad [M Raft].  The source has most handlers
      twice, a synchronous and an asynchronous one that differ in how a term
      is looked up; the definition [f_in] takes the lookup as its argument
      and [f], [f_async] are its instances.
    - [RaftSafety], [RaftReplication]: theorems about one step of the state
      machine.  [RaftElections], [RaftLogs]: what any step may do to the term,
      the vote, the role and the log of a node, as relations that [step]
      refines; [RaftPositions]: the same for the last entry of a log, which
      votes compare and followers acknowledge.  [RaftCluster], [RaftMatching],
      [RaftCommitment]: several nodes and a network that loses, delays, repeats
      and reorders messages.
    - [RawNode]: src/raft/rawnode.rs, the Ready / Advance interface.
      [RawNodeTests]: the programs of tests/rawnode_test.rs, run on it.
    - [UnitTests]: the unit tests inside the files of src/, run on the models
      of what they test.
    - [MultiLevelKey]: src/util/multi_level_key.rs.
    - [Engine]: src/engine_util, column families as key prefixes over
      RocksDB, the prefix iterator, the write batch.
    - [Storage]: src/storage, the interface the transactions use, the cached
      standalone storage and the tiered storage.
    - [Latches]: src/transaction/latches/latches.rs.
    - [Proto]: proto/metapb.proto, proto/errorpb.proto, the messages of
      src/proto/kvrpcpb.rs, src/server/epoch.rs.
    - [MvccTxn], [Scanner]: src/transaction/mvcc/transaction.rs, scanner.rs.
    - [Server]: src/server/mod.rs, the storage and the latches that the
      handlers share.
    - [RawApi]: src/server/raw_api.rs and multi_level_api.rs.
    - [TransactionApi]: src/server/transaction_api.rs, the seven handlers of
      two-phase commit.  [Isolation]: what sequences of calls leave of the
      snapshot a reader looks at.
    - [Grpc]: src/server/grpc.rs, the service on messages of the protocol, and
      its client as an interface.
    - [Wal]: src/engine_util/wal.rs.
    - [Ingest]: src/bin/ingest_http.rs, a client of the service with an HTTP
      interface, and its copy of the tiers to Redis.
    - [Shell]: the command lines of src/bin/aegisdb.rs and aegisdb_cli.rs.
    - [Cluster]: src/scheduler/cluster and src/scheduler/filter, the
      scheduler's stores and regions, their indices, the store filters.
    - [Operator], [OperatorController]: src/scheduler/operator,
      operator_controller.rs, heartbeat_streams.rs.
    - [Schedulers]: src/scheduler/schedulers, the balancing of leaders and of
      regions, the scaling of replicas.
    - [StoreBalancer]: src/raftstore/store_balancer.rs and
      region_allocator.rs, where the peers of a new region go.
    - [StoreMeta]: src/raftstore/store_meta.rs, util.rs, admin.rs, the regions
      of a store by id and by key, and the split of a region.
    - [Locks]: the locks that the methods of [Cluster], [OperatorController],
      of the heartbeat streams and of [StoreMeta] take, and threads that
      interleave them, where a writer that waits keeps readers out.
    - [PdState]: src/pd/state.rs, id_allocator.rs,
      src/scheduler/coordinator.rs, the placement driver that puts the
      scheduler's parts together.
    - [PdService]: src/pd/service.rs and config.rs, the driver as a service, and
      src/raftstore/scheduler_client/client.rs, its client.
    - [Views]: src/pd/http.rs and src/server/admin_http.rs, the views of the
      state that are served as JSON.
    - [FailureDetector]: src/raftstore/failure_detector.rs.
    - [PeerStorage]: src/raftstore/meta, peer_storage.rs and
      src/engine_util/engines.rs, what a region keeps on disk.
    - [RegionTasks]: src/raftstore/region_task.rs, recovery.rs and
      split_checker.rs, the work on the data of a whole region.
    - [Config]: src/config.rs.
    - [Peers]: src/raftstore/peer.rs, router.rs, message.rs and
      peer_msg_handler.rs, the peers of a store around [RawNode].
    - [SchedulerTask]: src/raftstore/runner/scheduler_task.rs, what a store
      reports to the driver and asks of it.
    - [Programs]: run_server of src/bin/aegisdb.rs, src/bin/pd_server.rs,
      launch_10stores.rs and launch_local_store.rs.
    - [MockScheduler]: the stand-in for the driver in src/main.rs.

    A request comes in through [Shell], [Ingest] or a client of [Grpc], runs
    in a handler of [RawApi] or [TransactionApi] under [Latches], on a
    [MvccTxn] over [Storage] over [Engine].  A message of Raft goes through
    [Peers] to [RawNode], [Raft] and [RaftLog], whose entries are in
    [PeerStorage].  A report goes from [SchedulerTask] or [Programs] through
    [PdService] to [PdState], where it updates [Cluster] and is answered from
    [OperatorController], which [Schedulers] fill.

    ** Conventions

    A Rust value of a fixed width is a [Z]; [is_u64] and [is_u32] say that it
    fits.  Arithmetic that the source does not check panics in a debug build
    and wraps around in a release build: definitions that add, subtract or
    multiply take the [BuildProfile], and theorems hold for both.  Fields
    carry a prefix of their record ([r_term] for [Raft::term], [lock_ts] for
    [Lock::ts]).  [Ok], [Err] and [Panic] are the ways a call ends; [Diverge]
    stands for a loop whose fuel ran out and for a call that waits.

    ** What is assumed

    Code outside the repository is a parameter with laws: RocksDB
    ([Engine.RocksDB], [Engine.RocksDBLaws], and [PeerStorage.RocksDBReliable]
    where the device does not fail), the LRU cache ([Storage.LruCache]), the
    serialisation of bincode and prost ([PeerStorage.Serde], with the law that
    a value read back is the one written), Redis ([Ingest.Redis]), the
    iteration order of hash maps and the random numbers of [rand]
    ([RaftTypes.HashOrder], [RaftTypes.RandomSource]).  What a clock or sysinfo
    answers is an argument.  Each has a concrete instance ([map_db],
    [map_cache], [countable_serde], [map_order], [low_rng] and others) on
    which the theorems are evaluated.

    Parts of the program meet in interfaces.  The transactions are proved
    against [Storage.Storage], whose laws [map_storage] satisfies;
    [Storage.ReliableStorage] adds that the device does not fail.  The tasks of
    a store work with any [SchedulerTask.SchedulerClient] (the client of the
    placement driver and the stand-in are two instances), the client with any
    [PdService.Pd] (the service is one), and [Ingest] and [Shell] with any
    [Grpc.TinyKvClient] (the service of [Grpc] is one).

    ** What the theorems show

    - [Codec], [Records], [MultiLevelKey]: round trips, the order of encoded
      keys, exactly which inputs the parsers accept.
    - [RaftLog]: each operation on a well-formed log, by the entries found at
      each index afterwards.
    - [RaftSafety]: what one message can do to term, vote, role and commit
      index.  [RaftReplication]: the handlers one by one.  [RaftCluster]: one
      leader in a term; [RaftMatching]: logs with entries of one term at an
      index agree up to it; [RaftCommitment]: what a leader has committed is in
      the logs of all later leaders.  These hold in every reachable state of a
      cluster whose nodes do not follow a message older than themselves and,
      for the last, whose appends come in order; the code has no such guards,
      and without them two nodes lead one term and a committed entry is lost.
      [RawNode]: the Ready protocol: when [ready] panics, and that one [ready]
      and [advance], or two where entries stand behind a pending snapshot,
      leave nothing to do.
    - [PeerStorage]: the log on disk is a map from indices to entries, and a
      peer made again comes up with what was stored ([Peers]).  [RegionTasks]:
      which regions a store finds at its start, what a snapshot contains, where
      a region is split.  [FailureDetector]: the status of a node by the time
      of its last heartbeat, whatever is interleaved.
    - [Engine], [Storage]: the iterator refines a cursor, batches and caches
      agree with the database, moving keys between tiers changes no read.
    - [Latches]: mutual exclusion, and one owner of every latch, by rule
      induction over every interleaving.
    - [MvccTxn], [Scanner], [TransactionApi]: reads see the newest record at
      their timestamp, a scan agrees with point reads, each handler's answer
      and batch on every branch, and a whole transaction.  [RawApi]: the raw
      and the multi-level service are maps, a raw scan is a key range.
    - [Isolation]: a read of a snapshot answers the same after any calls of
      transactions that keep to the rules of a timestamp oracle.
    - [Grpc], [Shell]: a call over the protocol, and a transaction typed into
      the command line, does what the handler does with the request it stands
      for, and what is shown is its answer.  [Wal]: which entries wait and what
      a flush makes of them.  [Ingest]: the events in the window, what an
      operation answers, and which value Redis has of every key after a
      migration.
    - [Cluster], [OperatorController], [PdState]: the indices agree with the
      regions whatever is put, what one report does with an operator, and an
      invariant of the placement driver over runs of all its requests, served
      one after the other.  What is served at the same time is treated where
      it matters: the ids given out stay distinct however the calls of the
      allocator interleave, and reports of different regions keep the indices,
      which two reports of one region can corrupt.
    - [PdService]: the client and the service together refine the driver, and
      a stream answers its messages one by one.  [SchedulerTask]: a split from
      the store's request to the driver and back.  [Programs]: what the
      programs register comes to be shown by the driver.  [Views]: each view by
      the state it is of.
    - [Schedulers]: each scheduler returns and its operators are sound;
      balancing terminates.  [StoreBalancer], [StoreMeta]: which stores are
      chosen, lookups find the region that holds the key, a split divides it.
    - [Locks]: threads that take locks in one order finish although readers
      wait for waiting writers, and which calls do not keep to it.

    Some theorems state that the code does not do what it means to; their
    comments say so (for example [prewrite_ignores_newer_commits],
    [check_txn_status_misjudges], [lost_update], [small_cluster_never_commits],
    [two_leaders_one_term], [committed_entry_lost], [lost_wakeup], [cache_confuses_versions],
    [lock_order_deadlocks], [move_peer_cancelled], [new_leader_forgotten],
    [snapshot_term_wrong], [split_key_unusable], [reconnect_loses_commands],
    [rollback_becomes_put], [local_store_not_registered],
    [split_over_mock]); the last three theorems of [RawNodeTests] name tests
    of the repository that cannot pass.  The unit tests inside src/ all pass
    ([UnitTests]): on any database that obeys the laws of RocksDB for the
    engine utilities, with a storage cache that keeps everything or nothing,
    and for any order of the hash maps and any sleep that is long enough.

    ** Fuel and bounds

    Loops that are not structural take fuel.  The codec's fuel is the length
    of its input plus one.  Loops over an iterator take the [LoopBound] of
    [MvccTxn]; the theorems ask that it exceeds the number of entries of the
    column family ([write_ready]), and prove that the loops then end.

    ** What is not modelled

    The generated messages as far as no modelled part uses them, and the wire
    format; opening, closing and locating databases; the parsing of command
    lines; sockets, JSON and the routing of HTTP requests; the generation of
    sample data in src/bin/ingest_http.rs; the lines of the log; the
    demonstrations of src/main.rs, which print what modelled calls answer, and
    the main function of src/bin/aegisdb_server.rs, which opens a database and
    serves it.  The sleeping loops of tokio tasks are left out: the model has
    their bodies, and [Programs] runs of them.  The integration tests in
    tests/ are not modelled but for [RawNodeTests].

    ** This file

    This file holds the shared vocabulary: outcomes of fallible Rust code, the
    state-passing monad of the handlers, machine integers, bytes, big-endian
    encodings, the lexicographic order of byte strings, list lemmas and the
    automation the component files use. *)

From Stdlib Require Export ZArith Lia.
From Stdlib Require Strings.Byte.
From stdpp Require Export base gmap sets strings numbers option list sorting.

#[export] Set Default Goal Selector "!".
Open Scope Z_scope.

Declare Scope aegis_scope.
Delimit Scope aegis_scope with aegis.
Create HintDb aegis.
Create Rewrite HintDb aegis.

(** * Outcomes *)

(** A Rust call returns a value, returns an error through [Result], or
    panics.  [Diverge] is the outcome of a loop whose fuel ran out; the
    theorems show that the fuel in use is never exhausted.  An error is named
    by the constant part of its message. *)
Inductive outcome (A : Type) : Type :=
| Ok (a : A)
| Err (e : string)
| Panic
| Diverge.
Arguments Ok {A} a.
Arguments Err {A} e.
Arguments Panic {A}.
Arguments Diverge {A}.

#[export] Instance outcome_ret : MRet outcome := fun A a => Ok a.
#[export] Instance outcome_bind : MBind outcome := fun A B f m =>
  match m with Ok a => f a | Err e => Err e | Panic => Panic | Diverge => Diverge end.
#[export] Instance outcome_fmap : FMap outcome := fun A B f m =>
  match m with Ok a => Ok (f a) | Err e => Err e | Panic => Panic | Diverge => Diverge end.

#[export] Instance outcome_eq_dec `{EqDecision A} : EqDecision (outcome A).
Proof. solve_decision. Defined.

(** [opt.ok_or_else(|| e)] and [opt.unwrap()]. *)
Definition ok_or {A} (e : string) (o : option A) : outcome A :=
  match o with Some a => Ok a | None => Err e end.
Definition unwrap {A} (o : option A) : outcome A :=
  match o with Some a => Ok a | None => Panic end.

(** [r.unwrap_or(d)] and [r.ok()] on a [Result]. *)
Definition unwrap_or {A} (d : A) (r : outcome A) : outcome A :=
  match r with Err _ => Ok d | _ => r end.

(** [r.map_err(|e| anyhow!("prefix{}", e))] on a [Result]. *)
Definition map_err {A} (prefix : string) (r : outcome A) : outcome A :=
  match r with Err e => Err (String.append prefix e) | _ => r end.

Lemma map_err_ok {A} prefix (r : outcome A) a : r = Ok a → map_err prefix r = Ok a.
Proof. by intros ->. Qed.

Lemma outcome_bind_ok {A B} (m : outcome A) (f : A → outcome B) b :
  m ≫= f = Ok b ↔ ∃ a, m = Ok a ∧ f a = Ok b.
Proof. destruct m; cbn; naive_solver. Qed.

Lemma outcome_bind_assoc {A B C} (m : outcome A) (f : A → outcome B) (g : B → outcome C) :
  (m ≫= f) ≫= g = m ≫= (λ a, f a ≫= g).
Proof. by destruct m. Qed.

(** * State-passing handlers *)

(** A method with [&mut self] (or interior mutability) on a state [S] that
    returns [Result<A>]: the state reached is kept also when the method
    returns early with an error. *)
Definition M (S A : Type) : Type := S → outcome A * S.

#[export] Instance M_ret {S} : MRet (M S) := λ A a s, (Ok a, s).
#[export] Instance M_bind {S} : MBind (M S) := λ A B f m s,
  match m s with
  | (Ok a, s') => f a s'
  | (Err e, s') => (Err e, s')
  | (Panic, s') => (Panic, s')
  | (Diverge, s') => (Diverge, s')
  end.

Definition get {S} : M S S := λ s, (Ok s, s).
Definition gets {S A} (f : S → A) : M S A := λ s, (Ok (f s), s).
Definition modify {S} (f : S → S) : M S unit := λ s, (Ok tt, f s).
Definition lift {S A} (m : outcome A) : M S A := λ s, (m, s).
Definition raise {S A} (e : string) : M S A := λ s, (Err e, s).

(** [call.ok()]: the error of the call is dropped, its effects stay. *)
Definition ignore_err {S A} (m : M S A) : M S unit := λ s,
  match m s with
  | (Ok _, s') | (Err _, s') => (Ok tt, s')
  | (Panic, s') => (Panic, s')
  | (Diverge, s') => (Diverge, s')
  end.

(** [if let Ok(a) = call]: an error is a value, a panic is not. *)
Definition try_ok {S A} (m : M S A) : M S (option A) := λ s,
  match m s with
  | (Ok a, s') => (Ok (Some a), s')
  | (Err _, s') => (Ok None, s')
  | (Panic, s') => (Panic, s')
  | (Diverge, s') => (Diverge, s')
  end.

Lemma M_bind_ok {S A B} (m : M S A) (f : A → M S B) s b s' :
  (m ≫= f) s = (Ok b, s') ↔ ∃ a s1, m s = (Ok a, s1) ∧ f a s1 = (Ok b, s').
Proof. unfold mbind, M_bind. destruct (m s) as [[] ?]; naive_solver. Qed.

Lemma M_bind_run {S A B} (m : M S A) (f : A → M S B) s a s1 :
  m s = (Ok a, s1) → (m ≫= f) s = f a s1.
Proof. intros H. unfold mbind, M_bind. by rewrite H. Qed.

Lemma M_bind_lift {S A B} (o : outcome A) (f : A → M S B) s a : o = Ok a → (lift o ≫= f) s = f a s.
Proof. by intros ->. Qed.

Lemma run_ok {S A} (m : M S A) s a : (m s).1 = Ok a → m s = (Ok a, (m s).2).
Proof. destruct (m s). cbn. by intros ->. Qed.

(** [for x in l { f(x)?; }] *)
Fixpoint for_each {S A} (l : list A) (f : A → M S unit) : M S unit :=
  match l with
  | [] => mret tt
  | x :: l' => f x ≫= λ _, for_each l' f
  end.

(** An invariant of every step of a loop is an invariant of the loop,
    whatever the outcome. *)
Lemma for_each_inv {S A} (P : S → Prop) (l : list A) (f : A → M S unit) s :
  (∀ x s0, x ∈ l → P s0 → P (f x s0).2) → P s → P (for_each l f s).2.
Proof.
  revert s. induction l as [|x l IH]; intros s Hf HP; [done|].
  cbn. unfold mbind, M_bind. assert (P (f x s).2) as H1 by (apply Hf; set_solver).
  destruct (f x s) as [[] s1]; cbn in *; try done.
  apply IH; [|done]. intros y s0 Hy. apply Hf. set_solver.
Qed.

Lemma M_bind_inv {S A B} (P : S → Prop) (m : M S A) (f : A → M S B) s :
  P (m s).2 → (∀ a s1, m s = (Ok a, s1) → P s1 → P (f a s1).2) → P ((m ≫= f) s).2.
Proof.
  intros Hm Hf. unfold mbind, M_bind. destruct (m s) as [[] s1] eqn:E; cbn in *; eauto.
Qed.

(** * Weakest preconditions of handlers

    [wp m Q E s]: run on [s], [m] ends in a value and state that satisfy [Q],
    or it fails (error, panic) in a state that satisfies [E]. *)
Definition wp {S A} (m : M S A) (Q : A → S → Prop) (E : S → Prop) (s : S) : Prop :=
  match m s with (Ok a, s') => Q a s' | (_, s') => E s' end.

Section wp.
Context {S : Type}.
Implicit Types (E : S → Prop) (s : S).

Lemma wp_ret {A} (a : A) Q E s : Q a s → wp (mret a) Q E s.
Proof. done. Qed.
Lemma wp_get Q E s : Q s s → wp get Q E s.
Proof. done. Qed.
Lemma wp_modify f Q E s : Q tt (f s) → wp (modify f) Q E s.
Proof. done. Qed.
Lemma wp_lift {A} (o : outcome A) Q E s :
  (∀ a, o = Ok a → Q a s) → (E s) → wp (lift o) Q E s.
Proof. unfold wp, lift. destruct o; auto. Qed.
Lemma wp_lift_ok {A} (a : A) Q E s : Q a s → wp (lift (Ok a)) Q E s.
Proof. done. Qed.
Lemma wp_bind {A B} (m : M S A) (f : A → M S B) Q E s :
  wp m (λ a, wp (f a) Q E) E s → wp (m ≫= f) Q E s.
Proof. unfold wp, mbind, M_bind. destruct (m s) as [[] ?]; done. Qed.
Lemma wp_ignore_err {A} (m : M S A) Q E s :
  wp m (λ _, Q tt) (λ s', Q tt s' ∧ E s') s → wp (ignore_err m) Q E s.
Proof. unfold wp, ignore_err. destruct (m s) as [[] ?]; tauto. Qed.
Lemma wp_mono {A} (m : M S A) (Q Q' : A → S → Prop) E E' s :
  wp m Q E s → (∀ a s', Q a s' → Q' a s') → (∀ s', E s' → E' s') → wp m Q' E' s.
Proof. unfold wp. destruct (m s) as [[] ?]; auto. Qed.

(** The state reached satisfies [P], whatever the outcome. *)
Definition ends {A} (m : M S A) (P : S → Prop) (s : S) : Prop := P (m s).2.
Lemma ends_wp {A} (m : M S A) P s : ends m P s ↔ wp m (λ _, P) P s.
Proof. unfold ends, wp. destruct (m s) as [[] ?]; done. Qed.

Lemma wp_for_each {A} (P : S → Prop) E (l : list A) (f : A → M S unit) s :
  P s → (∀ x s0, x ∈ l → P s0 → wp (f x) (λ _, P) E s0) → wp (for_each l f) (λ _, P) E s.
Proof.
  revert s. induction l as [|x l IH]; intros s HP Hf; cbn; [done|].
  apply wp_bind. eapply wp_mono; [apply Hf; [set_solver|done]| |done].
  intros a s' HP'. apply IH; [done|]. intros y s0 Hy. apply Hf. set_solver.
Qed.
End wp.

(** Symbolic execution of a handler. *)
Ltac wp_step :=
  lazymatch goal with
  | |- wp (mbind _ _) _ _ _ => apply wp_bind
  | |- wp (mret _) _ _ _ => apply wp_ret
  | |- wp get _ _ _ => apply wp_get
  | |- wp (modify _) _ _ _ => apply wp_modify
  | |- wp (lift (Ok _)) _ _ _ => apply wp_lift_ok
  | |- wp (lift _) _ _ _ => apply wp_lift; [intros ? ?|]
  | |- wp (ignore_err _) _ _ _ => apply wp_ignore_err
  end; cbv beta.

(** * Machine integers *)

Definition u8_max : Z := 2 ^ 8 - 1.
Definition u32_max : Z := 2 ^ 32 - 1.
Definition u64_max : Z := 2 ^ 64 - 1.
Definition is_u32 (z : Z) : Prop := 0 ≤ z ≤ u32_max.
Definition is_u64 (z : Z) : Prop := 0 ≤ z ≤ u64_max.

#[export] Instance is_u32_dec z : Decision (is_u32 z).
Proof. unfold is_u32. apply _. Defined.
#[export] Instance is_u64_dec z : Decision (is_u64 z).
Proof. unfold is_u64. apply _. Defined.

(** Rust's [+], [-], [*] on [u64] and [usize]: with overflow checks (a debug
    build) an overflow panics, without (a release build) it wraps around.
    [Cargo.toml] sets no profile, so the code runs in both ways and every
    definition is parameterised by the profile. *)
Class BuildProfile := overflow_checks : bool.

Definition u64_norm `{BuildProfile} (z : Z) : outcome Z :=
  if decide (is_u64 z) then Ok z
  else if overflow_checks then Panic else Ok (z mod 2 ^ 64).
Definition u64_add `{BuildProfile} (a b : Z) : outcome Z := u64_norm (a + b).
Definition u64_sub `{BuildProfile} (a b : Z) : outcome Z := u64_norm (a - b).
Definition u64_mul `{BuildProfile} (a b : Z) : outcome Z := u64_norm (a * b).

Lemma u64_norm_ok `{BuildProfile} z : is_u64 z → u64_norm z = Ok z.
Proof. intros Hz. unfold u64_norm. by rewrite decide_True. Qed.
Lemma u64_add_ok `{BuildProfile} a b : is_u64 (a + b) → u64_add a b = Ok (a + b).
Proof. apply u64_norm_ok. Qed.
Lemma u64_sub_ok `{BuildProfile} a b : is_u64 a → 0 ≤ b ≤ a → u64_sub a b = Ok (a - b).
Proof. intros Ha Hb. apply u64_norm_ok. unfold is_u64 in *. lia. Qed.

(** Whatever the profile, a result that is produced is a [u64]. *)
Lemma u64_norm_is_u64 `{BuildProfile} z r : u64_norm z = Ok r → is_u64 r.
Proof.
  unfold u64_norm. case_decide; [naive_solver|]. destruct overflow_checks; [done|].
  intros [= <-]. pose proof (Z.mod_pos_bound z (2 ^ 64)). unfold is_u64, u64_max. lia.
Qed.

(** [!x] on a [u64]. *)
Definition u64_not (x : Z) : Z := u64_max - x.

(** * Lists *)

(** [v[lo..hi]]: Rust panics when [lo > hi] or [hi > v.len()]. *)
Definition slice {A} (lo hi : nat) (l : list A) : outcome (list A) :=
  if decide (lo ≤ hi ≤ length l)%nat then Ok (take (hi - lo) (drop lo l)) else Panic.

(** The same with [usize] bounds, and with an inclusive upper bound
    ([v[lo..=hi]]). *)
Definition zslice {A} (lo hi : Z) (l : list A) : outcome (list A) :=
  if decide (0 ≤ lo ≤ hi ∧ hi ≤ Z.of_nat (length l))
  then Ok (take (Z.to_nat (hi - lo)) (drop (Z.to_nat lo) l)) else Panic.
Definition zslice_incl {A} (lo hi : Z) (l : list A) : outcome (list A) := zslice lo (hi + 1) l.

(** [v[i]] with a [usize] index. *)
Definition zindex {A} (l : list A) (i : Z) : outcome A :=
  if decide (0 ≤ i < Z.of_nat (length l)) then unwrap (l !! Z.to_nat i) else Panic.

(** [v[i]]. *)
Definition index {A} (l : list A) (i : nat) : outcome A := unwrap (l !! i).

Fixpoint drop_while {A} (p : A → bool) (l : list A) : list A :=
  match l with
  | [] => []
  | x :: l' => if p x then drop_while p l' else l
  end.

Fixpoint take_while {A} (p : A → bool) (l : list A) : list A :=
  match l with
  | [] => []
  | x :: l' => if p x then x :: take_while p l' else []
  end.

Lemma take_drop_while {A} (p : A → bool) l : take_while p l ++ drop_while p l = l.
Proof. induction l as [|x l IH]; cbn; [done|]. destruct (p x); cbn; by rewrite ?IH. Qed.

Lemma drop_while_suffix {A} (p : A → bool) l : drop_while p l `suffix_of` l.
Proof. exists (take_while p l). by rewrite take_drop_while. Qed.

Lemma length_drop_while {A} (p : A → bool) l : (length (drop_while p l) ≤ length l)%nat.
Proof. induction l as [|x l IH]; cbn; [lia|]. destruct (p x); cbn; lia. Qed.

Lemma slice_middle {A} lo hi (a b c : list A) :
  lo = length a → hi = (length a + length b)%nat → slice lo hi (a ++ b ++ c) = Ok b.
Proof.
  intros -> ->. unfold slice. rewrite decide_True by (rewrite !length_app; lia).
  rewrite drop_app_length. f_equal. apply take_app_length'. lia.
Qed.

Lemma slice_to_end {A} lo hi (a b : list A) :
  lo = length a → hi = length (a ++ b) → slice lo hi (a ++ b) = Ok b.
Proof.
  intros -> ->. unfold slice. rewrite decide_True by (rewrite length_app; lia).
  rewrite drop_app_length, length_app, take_ge by lia. done.
Qed.

Lemma slice_run {A} lo hi (l : list A) :
  (lo ≤ hi ≤ length l)%nat → slice lo hi l = Ok (take (hi - lo) (drop lo l)).
Proof. intros. unfold slice. by rewrite decide_True. Qed.

Lemma filter_none {A} (P : A → Prop) `{∀ x, Decision (P x)} (l : list A) :
  (∀ x, x ∈ l → ¬ P x) → filter P l = [].
Proof.
  induction l as [|x l IH]; intros Hl; [done|]. rewrite filter_cons, decide_False.
  - apply IH. intros y Hy. apply Hl. by right.
  - apply Hl. by left.
Qed.

(** [l.iter().map(f).sum()], without a bound on the result. *)
Fixpoint zsum {A} (f : A → Z) (l : list A) : Z :=
  match l with [] => 0 | x :: l' => f x + zsum f l' end.

#[export] Instance zsum_Permutation {A} (f : A → Z) : Proper ((≡ₚ) ==> (=)) (zsum f).
Proof. induction 1; cbn; lia. Qed.

Lemma zsum_nonneg {A} (f : A → Z) l : (∀ x, x ∈ l → 0 ≤ f x) → 0 ≤ zsum f l.
Proof.
  induction l as [|x l IH]; intros Hf; cbn; [lia|].
  assert (0 ≤ f x) by (apply Hf; left). assert (0 ≤ zsum f l) by (apply IH; intros; apply Hf; by right).
  lia.
Qed.

Lemma zsum_ext {A} (f g : A → Z) l : (∀ x, x ∈ l → f x = g x) → zsum f l = zsum g l.
Proof.
  induction l as [|x l IH]; intros Hf; cbn; [done|].
  rewrite (Hf x) by left. by rewrite IH by (intros; apply Hf; by right).
Qed.

(** [v.sort_by(cmp)], given by [is_less]: each element in turn is moved left
    past the larger ones before it, so equal elements keep their order. *)
Fixpoint insert_left {A} (is_less : A → A → bool) (x : A) (rev_sorted : list A) : list A :=
  match rev_sorted with
  | [] => [x]
  | y :: l => if is_less x y then y :: insert_left is_less x l else x :: y :: l
  end.
Definition sort_by {A} (is_less : A → A → bool) (l : list A) : list A :=
  reverse (foldl (λ acc x, insert_left is_less x acc) [] l).

Lemma insert_left_perm {A} (is_less : A → A → bool) x l : insert_left is_less x l ≡ₚ x :: l.
Proof.
  induction l as [|y l IH]; cbn; [done|]. destruct (is_less x y); [|done]. rewrite IH. constructor.
Qed.

Lemma sort_by_perm {A} (is_less : A → A → bool) l : sort_by is_less l ≡ₚ l.
Proof.
  unfold sort_by. rewrite reverse_Permutation.
  assert (∀ acc, foldl (λ acc x, insert_left is_less x acc) acc l ≡ₚ acc ++ l) as ->; [|done].
  induction l as [|x l IH]; intros acc; cbn; [by rewrite app_nil_r|].
  rewrite IH, insert_left_perm. cbn. by rewrite Permutation_middle.
Qed.

Lemma StronglySorted_reverse {A} (R : A → A → Prop) l :
  StronglySorted R l → StronglySorted (flip R) (reverse l).
Proof.
  induction 1 as [|x l Hl IH Hx]; [constructor|]. rewrite reverse_cons.
  apply StronglySorted_app. split_and!; [|done|repeat constructor].
  intros a b Ha ->%list_elem_of_singleton. rewrite elem_of_reverse in Ha. rewrite Forall_forall in Hx. by apply Hx.
Qed.

Section sorting.
Context {A : Type} (is_less : A → A → bool) (P : A → Prop).
Context (asym : ∀ x y, P x → P y → is_less x y = true → is_less y x = false).
Context (ge_trans : ∀ x y z, P x → P y → P z →
  is_less x y = false → is_less y z = false → is_less x z = false).

Lemma insert_left_sorted x l :
  P x → Forall P l → StronglySorted (λ x y, is_less x y = false) l →
  StronglySorted (λ x y, is_less x y = false) (insert_left is_less x l).
Proof.
  intros Hx Hl Hs. revert Hl. induction Hs as [|y l Hs IH Hy]; cbn; [by repeat constructor|].
  intros [Py Pl]%Forall_cons. destruct (is_less x y) eqn:E; constructor; try done.
  - by apply IH.
  - rewrite insert_left_perm. constructor; [by apply asym|done].
  - by constructor.
  - constructor; [done|]. rewrite Forall_forall in *. intros z Hz. apply (ge_trans x y z); auto.
Qed.

(** A later element of the result is never less than an earlier one. *)
Lemma sort_by_sorted l : Forall P l → StronglySorted (λ x y, is_less y x = false) (sort_by is_less l).
Proof.
  intros Hl. unfold sort_by.
  assert (∀ acc, Forall P acc → StronglySorted (λ x y, is_less x y = false) acc →
    StronglySorted (λ x y, is_less x y = false) (foldl (λ acc x, insert_left is_less x acc) acc l)) as H.
  { induction Hl as [|x l Px Hl IH]; intros acc Pacc Hacc; cbn; [done|]. apply IH.
    - rewrite insert_left_perm. by constructor.
    - by apply insert_left_sorted. }
  apply (StronglySorted_reverse (λ x y, is_less x y = false)). apply H; constructor.
Qed.
End sorting.

(** * Automation *)

(** Run a monadic definition symbolically: unfold the binds and compute. *)
Ltac unfold_M :=
  unfold mbind, M_bind, mret, M_ret, get, gets, modify, lift, raise, outcome_bind, outcome_ret in *.
