(* ===== verification/Bytes.v ===== *)
(** Bytes, big-endian integers ([to_be_bytes]/[from_be_bytes]) and the
    lexicographic order of byte strings, which is the order of Rust's
    [Vec<u8>] and of the keys of RocksDB. *)

From S2P Require Import Prelude.
From Stdlib Require Import Strings.Byte.

Abbreviation byte := Byte.byte.
Abbreviation bytes := (list Byte.byte).

#[export] Instance byte_eq_dec : EqDecision byte := Byte.byte_eq_dec.
#[export] Instance byte_countable : Countable byte.
Proof.
  refine (inj_countable Byte.to_N Byte.of_N _). intros b. apply Byte.of_to_N.
Defined.

(** ** [u8] values *)

Definition b2z (b : byte) : Z := Z.of_N (Byte.to_N b).
(** [z as u8] *)
Definition z2b (z : Z) : byte := default Byte.x00 (Byte.of_N (Z.to_N (z mod 256))).

Lemma b2z_bound b : 0 ≤ b2z b < 256.
Proof. unfold b2z. pose proof (Byte.to_N_bounded b). lia. Qed.

Lemma b2z_z2b z : b2z (z2b z) = z mod 256.
Proof.
  unfold z2b, b2z. pose proof (Z.mod_pos_bound z 256 ltac:(lia)).
  destruct (Byte.of_N (Z.to_N (z mod 256))) as [b|] eqn:E; cbn.
  - apply Byte.to_of_N in E. rewrite E. lia.
  - exfalso. apply Byte.of_N_None_iff in E. lia.
Qed.

Lemma z2b_b2z b : z2b (b2z b) = b.
Proof.
  unfold z2b. rewrite Z.mod_small by apply b2z_bound. unfold b2z.
  by rewrite N2Z.id, Byte.of_to_N.
Qed.

#[export] Instance b2z_inj : Inj (=) (=) b2z.
Proof. intros a b H. by rewrite <- (z2b_b2z a), H, z2b_b2z. Qed.

Lemma b2z_z2b_small z : 0 ≤ z < 256 → b2z (z2b z) = z.
Proof. intros. by rewrite b2z_z2b, Z.mod_small. Qed.

#[export] Hint Rewrite b2z_z2b z2b_b2z : aegis.

(** ** Big-endian integers *)

(** The [n]-byte big-endian encoding of [z mod 256^n]. *)
Fixpoint be_bytes (n : nat) (z : Z) : bytes :=
  match n with
  | O => []
  | S n' => z2b (z / 256 ^ Z.of_nat n') :: be_bytes n' z
  end.

Fixpoint from_be (bs : bytes) : Z :=
  match bs with
  | [] => 0
  | b :: bs' => b2z b * 256 ^ Z.of_nat (length bs') + from_be bs'
  end.

(** [x.to_be_bytes()] for [u32] and [u64]. *)
Definition u32_to_be_bytes (x : Z) : bytes := be_bytes 4 x.
Definition u64_to_be_bytes (x : Z) : bytes := be_bytes 8 x.

Lemma length_be_bytes n z : length (be_bytes n z) = n.
Proof. induction n; cbn; by f_equal. Qed.

Lemma from_be_bound bs : 0 ≤ from_be bs < 256 ^ Z.of_nat (length bs).
Proof.
  induction bs as [|b bs IH]; cbn -[Z.of_nat]; [lia|].
  rewrite Nat2Z.inj_succ, Z.pow_succ_r by lia. pose proof (b2z_bound b). nia.
Qed.

Lemma from_be_bytes n z : from_be (be_bytes n z) = z mod 256 ^ Z.of_nat n.
Proof.
  induction n as [|n IH]; cbn -[Z.of_nat]; [by rewrite Z.mod_1_r|].
  rewrite length_be_bytes, IH, b2z_z2b, Nat2Z.inj_succ, Z.pow_succ_r by lia.
  rewrite (Z.mul_comm 256), Z.rem_mul_r by lia. lia.
Qed.

Lemma be_bytes_from n bs : length bs = n → be_bytes n (from_be bs) = bs.
Proof.
  enough (∀ m, be_bytes (length bs) (m * 256 ^ Z.of_nat (length bs) + from_be bs) = bs) as H.
  { intros <-. exact (H 0). }
  clear n. induction bs as [|b bs IH]; intros m; cbn -[Z.of_nat]; [done|].
  rewrite Nat2Z.inj_succ, Z.pow_succ_r by lia.
  pose proof (from_be_bound bs). pose proof (b2z_bound b). set (p := 256 ^ _) in *.
  replace (m * (256 * p) + (b2z b * p + from_be bs))
    with ((m * 256 + b2z b) * p + from_be bs) by lia.
  f_equal; [|apply IH].
  apply (inj b2z). rewrite b2z_z2b, Z.div_add_l, (Z.div_small (from_be bs)) by lia.
  rewrite Z.add_0_r, Z.add_comm, Z.mod_add, Z.mod_small by lia. done.
Qed.

Lemma from_be_u64 x : is_u64 x → from_be (u64_to_be_bytes x) = x.
Proof.
  intros Hx. unfold u64_to_be_bytes. rewrite from_be_bytes. apply Z.mod_small.
  unfold is_u64, u64_max in Hx. change (256 ^ Z.of_nat 8) with (2 ^ 64). lia.
Qed.

Lemma from_be_u32 x : is_u32 x → from_be (u32_to_be_bytes x) = x.
Proof.
  intros Hx. unfold u32_to_be_bytes. rewrite from_be_bytes. apply Z.mod_small.
  unfold is_u32, u32_max in Hx. change (256 ^ Z.of_nat 4) with (2 ^ 32). lia.
Qed.

Lemma from_be_is_u64 bs : length bs = 8%nat → is_u64 (from_be bs).
Proof.
  intros H. pose proof (from_be_bound bs) as Hb. rewrite H in Hb.
  change (256 ^ Z.of_nat 8) with (2 ^ 64) in Hb. unfold is_u64, u64_max. lia.
Qed.

Lemma u64_not_is_u64 x : is_u64 x → is_u64 (u64_not x).
Proof. unfold is_u64, u64_not. lia. Qed.
Lemma u64_not_involutive x : u64_not (u64_not x) = x.
Proof. unfold u64_not. lia. Qed.

#[export] Hint Resolve from_be_is_u64 u64_not_is_u64 : aegis.

(** ** The lexicographic order *)

Fixpoint bytes_cmp (a b : bytes) : comparison :=
  match a, b with
  | [], [] => Eq
  | [], _ :: _ => Lt
  | _ :: _, [] => Gt
  | x :: a', y :: b' =>
      match b2z x ?= b2z y with Eq => bytes_cmp a' b' | c => c end
  end.

(** [a < b] and [a <= b] on [&[u8]]. *)
Definition bytes_ltb (a b : bytes) : bool :=
  match bytes_cmp a b with Lt => true | _ => false end.
Definition bytes_leb (a b : bytes) : bool :=
  match bytes_cmp a b with Gt => false | _ => true end.
Definition bytes_lt (a b : bytes) : Prop := bytes_cmp a b = Lt.

Lemma bytes_cmp_refl a : bytes_cmp a a = Eq.
Proof. induction a as [|x a IH]; cbn; [done|]. by rewrite Z.compare_refl. Qed.

Lemma bytes_cmp_eq a b : bytes_cmp a b = Eq ↔ a = b.
Proof.
  split; [|intros ->; apply bytes_cmp_refl].
  revert b. induction a as [|x a IH]; intros [|y b]; cbn; try done.
  destruct (Z.compare_spec (b2z x) (b2z y)) as [E| |]; try done.
  apply (inj b2z) in E. intros H. f_equal; auto.
Qed.

Lemma bytes_cmp_antisym a b : bytes_cmp b a = CompOpp (bytes_cmp a b).
Proof.
  revert b. induction a as [|x a IH]; intros [|y b]; cbn; try done.
  rewrite (Z.compare_antisym (b2z x)). destruct (b2z x ?= b2z y); cbn; auto.
Qed.

Lemma bytes_lt_trans a b c : bytes_lt a b → bytes_lt b c → bytes_lt a c.
Proof.
  unfold bytes_lt. revert b c. induction a as [|x a IH]; intros [|y b] [|z c]; cbn; try done.
  destruct (Z.compare_spec (b2z x) (b2z y)), (Z.compare_spec (b2z y) (b2z z)),
    (Z.compare_spec (b2z x) (b2z z)); try done; try lia. apply IH.
Qed.

Lemma bytes_lt_irrefl a : ¬ bytes_lt a a.
Proof. unfold bytes_lt. by rewrite bytes_cmp_refl. Qed.

Lemma bytes_ltb_lt a b : bytes_ltb a b = true ↔ bytes_lt a b.
Proof. unfold bytes_ltb, bytes_lt. by destruct (bytes_cmp a b). Qed.

Lemma bytes_ltb_ge a b : bytes_ltb a b = false ↔ bytes_leb b a = true.
Proof.
  unfold bytes_ltb, bytes_leb. rewrite (bytes_cmp_antisym a b). by destruct (bytes_cmp a b).
Qed.

Lemma bytes_leb_lt_or_eq a b : bytes_leb a b = true ↔ bytes_lt a b ∨ a = b.
Proof.
  unfold bytes_leb, bytes_lt. rewrite <- (bytes_cmp_eq a b).
  destruct (bytes_cmp a b); naive_solver.
Qed.

Lemma bytes_lt_asym a b : bytes_lt a b → bytes_lt b a → False.
Proof. unfold bytes_lt. rewrite (bytes_cmp_antisym a b). by intros ->. Qed.

Lemma bytes_lt_total a b : bytes_lt a b ∨ a = b ∨ bytes_lt b a.
Proof.
  unfold bytes_lt. rewrite (bytes_cmp_antisym a b), <- (bytes_cmp_eq a b).
  destruct (bytes_cmp a b); naive_solver.
Qed.

Lemma bytes_cmp_app_same p a b : bytes_cmp (p ++ a) (p ++ b) = bytes_cmp a b.
Proof. induction p as [|x p IH]; cbn; [done|]. by rewrite Z.compare_refl. Qed.

Lemma bytes_cmp_app_ne a b x y :
  length a = length b → a ≠ b → bytes_cmp (a ++ x) (b ++ y) = bytes_cmp a b.
Proof.
  revert b. induction a as [|c a IH]; intros [|d b]; cbn; try done.
  intros [= Hl] Hne. destruct (Z.compare_spec (b2z c) (b2z d)) as [E| |]; try done.
  apply (inj b2z) in E as ->. apply IH; congruence.
Qed.

(** The order of equal-length big-endian encodings is the order of the
    integers. *)
Lemma from_be_cmp a b : length a = length b → bytes_cmp a b = (from_be a ?= from_be b).
Proof.
  revert b. induction a as [|x a IH]; intros [|y b]; cbn -[Z.of_nat]; try done.
  intros [= Hl]. rewrite Hl. pose proof (from_be_bound a) as Ha. rewrite Hl in Ha.
  pose proof (from_be_bound b). set (p := 256 ^ _) in *.
  destruct (Z.compare_spec (b2z x) (b2z y)) as [E|E|E]; symmetry.
  - rewrite E, IH by done. set (q := b2z y * p).
    destruct (Z.compare_spec (from_be a) (from_be b)).
    + apply Z.compare_eq_iff. lia.
    + apply Z.compare_lt_iff. lia.
    + apply Z.compare_gt_iff. lia.
  - apply Z.compare_lt_iff. nia.
  - apply Z.compare_gt_iff. nia.
Qed.

#[global] Arguments be_bytes : simpl never.
#[global] Arguments from_be : simpl never.

(** ** Numbers in decimal *)

(** [parse::<u64>()] and [parse::<u32>()]: digits, perhaps after a plus sign. *)
Definition digit (b : byte) : option Z :=
  let n := Z.of_N (Byte.to_N b) in if (48 <=? n) && (n <=? 57) then Some (n - 48) else None.
Fixpoint parse_digits (limit acc : Z) (s : bytes) : option Z :=
  match s with
  | [] => Some acc
  | b :: s =>
      d ← digit b;
      let acc := acc * 10 + d in
      if acc <=? limit then parse_digits limit acc s else None
  end.
Definition parse_uint (limit : Z) (s : bytes) : option Z :=
  match s with
  | [] => None
  | Byte.x2b :: [] => None
  | Byte.x2b :: s => parse_digits limit 0 s
  | _ => parse_digits limit 0 s
  end.
Definition parse_u64 : bytes → option Z := parse_uint u64_max.
Definition parse_u32 : bytes → option Z := parse_uint u32_max.
