(* ===== verification/Codec.v ===== *)
(** The MVCC key codec, src/transaction/mvcc/codec.rs: the memcomparable
    encoding of user keys, the inverted timestamp suffix, and their decoders.

    [encode_bytes] and [decode_bytes] are the two loops of the file;
    [encode_key], [decode_user_key] and [decode_timestamp] compose them. *)

From S2P Require Import Prelude Bytes.

Definition ENC_GROUP_SIZE : nat := 8.
Definition ENC_MARKER : Z := 255.
Definition ENC_PAD : byte := Byte.x00.

(** One turn of the loop of [encode_bytes] at [idx]: the group and its
    marker. *)
Definition encode_group (data : bytes) (idx : nat) : bytes :=
  let remain := (length data - idx)%nat in
  let '(group, pad_count) :=
    if (ENC_GROUP_SIZE <=? remain)%nat then
      (take ENC_GROUP_SIZE (drop idx data), 0%nat)
    else
      let pad := (ENC_GROUP_SIZE - remain)%nat in
      (drop idx data ++ replicate pad ENC_PAD, pad) in
  let marker := z2b (ENC_MARKER - Z.of_nat pad_count) in
  group ++ [marker].

(** The [while idx <= d_len] loop.  The fuel bounds the number of turns;
    [encode_loop_fuel] shows that [S d_len] of it is never used up. *)
Fixpoint encode_loop (fuel : nat) (data : bytes) (idx : nat) (result : bytes) : bytes :=
  match fuel with
  | O => result
  | S fuel' =>
      if (idx <=? length data)%nat then
        encode_loop fuel' data (idx + ENC_GROUP_SIZE) (result ++ encode_group data idx)
      else result
  end.

Definition encode_bytes (data : bytes) : bytes :=
  encode_loop (S (length data)) data 0 [].

(** The [loop] of [decode_bytes] at [offset], with the bytes decoded so
    far. *)
Fixpoint decode_loop (fuel : nat) (b : bytes) (offset : nat) (data : bytes)
  : outcome (bytes * nat) :=
  match fuel with
  | O => Diverge
  | S fuel' =>
      if (length b - offset <? ENC_GROUP_SIZE + 1)%nat then
        Err "insufficient bytes to decode value"
      else
        group_bytes ← slice offset (offset + ENC_GROUP_SIZE + 1) b;
        let group := take ENC_GROUP_SIZE group_bytes in
        marker ← index group_bytes ENC_GROUP_SIZE;
        let pad_count := Z.to_nat (ENC_MARKER - b2z marker) in
        if (ENC_GROUP_SIZE <? pad_count)%nat then Err "invalid marker byte"
        else
          let real_group_size := (ENC_GROUP_SIZE - pad_count)%nat in
          let data := data ++ take real_group_size group in
          let offset := (offset + ENC_GROUP_SIZE + 1)%nat in
          if decide (pad_count ≠ 0%nat) then
            if forallb (λ v, bool_decide (v = ENC_PAD)) (drop real_group_size group)
            then Ok (data, offset)
            else Err "invalid padding byte"
          else decode_loop fuel' b offset data
  end.

Definition decode_bytes (b : bytes) : outcome (bytes * nat) :=
  decode_loop (S (length b)) b 0 [].

Definition encode_key (user_key : bytes) (ts : Z) : bytes :=
  encode_bytes user_key ++ u64_to_be_bytes (u64_not ts).

Definition decode_user_key (encoded_key : bytes) : outcome bytes :=
  '(user_key, _) ← decode_bytes encoded_key; Ok user_key.

Definition decode_timestamp (encoded_key : bytes) : outcome Z :=
  '(_, offset) ← decode_bytes encoded_key;
  if (length encoded_key <? offset + 8)%nat then
    Err "insufficient bytes for timestamp"
  else
    ts_bytes ← slice offset (offset + 8) encoded_key;
    Ok (u64_not (from_be ts_bytes)).

Definition physical_time (ts : Z) : Z := Z.shiftr ts 16.

#[global] Arguments encode_bytes : simpl never.
#[global] Arguments encode_key : simpl never.

(** ** The encoder, group by group *)

Lemma encode_group_drop data idx :
  (idx ≤ length data)%nat → encode_group data idx = encode_group (drop idx data) 0.
Proof.
  intros H. unfold encode_group. rewrite length_drop, drop_0, Nat.sub_0_r. done.
Qed.

Lemma encode_loop_acc fuel data idx r :
  encode_loop fuel data idx r = r ++ encode_loop fuel data idx [].
Proof.
  revert idx r. induction fuel as [|fuel IH]; intros idx r; cbn; [by rewrite app_nil_r|].
  destruct (idx <=? length data)%nat; [|by rewrite app_nil_r].
  rewrite IH, (IH _ (encode_group _ _)). by rewrite app_assoc.
Qed.

Lemma encode_loop_shift fuel data i :
  (i ≤ length data)%nat → ∀ idx,
  encode_loop fuel data (i + idx) [] = encode_loop fuel (drop i data) idx [].
Proof.
  intros Hi. induction fuel as [|fuel IH]; intros idx; cbn; [done|].
  rewrite length_drop.
  destruct (Nat.leb_spec (i + idx) (length data)), (Nat.leb_spec idx (length data - i));
    try lia; [|done].
  rewrite encode_loop_acc, (encode_loop_acc _ _ _ (encode_group _ _)).
  rewrite <- Nat.add_assoc, IH. f_equal.
  rewrite encode_group_drop, (encode_group_drop (drop i data)) by (rewrite ?length_drop; lia).
  by rewrite drop_drop.
Qed.

Lemma encode_loop_stop fuel data idx r :
  (length data < idx)%nat → encode_loop fuel data idx r = r.
Proof.
  intros H. destruct fuel; cbn; [done|]. destruct (Nat.leb_spec idx (length data)); [lia|done].
Qed.

(** With more fuel than bytes left the loop ends by its own test. *)
Lemma encode_loop_fuel f1 f2 data idx r :
  (length data - idx < f1)%nat → (length data - idx < f2)%nat →
  encode_loop f1 data idx r = encode_loop f2 data idx r.
Proof.
  revert f2 idx r. induction f1 as [|f1 IH]; intros [|f2] idx r H1 H2; [lia..|]. cbn.
  destruct (Nat.leb_spec idx (length data)); [|done].
  destruct (decide (idx + ENC_GROUP_SIZE ≤ length data)%nat) as [Hle|Hgt].
  - unfold ENC_GROUP_SIZE in *. apply IH; lia.
  - by rewrite !encode_loop_stop by lia.
Qed.

Lemma encode_bytes_short d :
  (length d < 8)%nat →
  encode_bytes d = d ++ replicate (8 - length d) ENC_PAD
                     ++ [z2b (255 - Z.of_nat (8 - length d))].
Proof.
  intros Hd. unfold encode_bytes. cbn [encode_loop Nat.leb app].
  rewrite encode_loop_stop by (unfold ENC_GROUP_SIZE; lia).
  unfold encode_group. rewrite Nat.sub_0_r, drop_0.
  destruct (Nat.leb_spec ENC_GROUP_SIZE (length d)); [unfold ENC_GROUP_SIZE in *; lia|].
  by rewrite <- app_assoc.
Qed.

Lemma encode_bytes_group g d :
  length g = 8%nat → encode_bytes (g ++ d) = g ++ [z2b 255] ++ encode_bytes d.
Proof.
  intros Hg. unfold encode_bytes at 1. cbn [encode_loop]. rewrite length_app.
  cbn [Nat.leb app].
  rewrite encode_loop_acc. unfold encode_group. rewrite length_app, drop_0, Nat.sub_0_r.
  destruct (Nat.leb_spec ENC_GROUP_SIZE (length g + length d));
    [|unfold ENC_GROUP_SIZE in *; lia].
  rewrite take_app_length' by (rewrite Hg; done).
  rewrite <- app_assoc. f_equal. f_equal.
  rewrite (encode_loop_shift _ (g ++ d) 8) with (idx := 0%nat)
    by (rewrite length_app; lia).
  rewrite drop_app_length' by done. unfold encode_bytes. apply encode_loop_fuel; lia.
Qed.

(** Induction along the groups of eight bytes. *)
Lemma bytes_group_ind (P : bytes → Prop) :
  (∀ d, (length d < 8)%nat → P d) →
  (∀ g d, length g = 8%nat → P d → P (g ++ d)) → ∀ d, P d.
Proof.
  intros Hshort Hgroup d. remember (length d) as n eqn:Hn. revert d Hn.
  induction n as [n IH] using lt_wf_ind. intros d ->.
  destruct (decide (length d < 8)%nat) as [|Hge]; [by apply Hshort|].
  rewrite <- (take_drop 8 d). apply Hgroup; [rewrite length_take; lia|].
  eapply IH; [|done]. rewrite length_drop. lia.
Qed.

Lemma length_encode_bytes d : length (encode_bytes d) = (9 * (length d / 8 + 1))%nat.
Proof.
  induction d as [d Hd|g d Hg IH] using bytes_group_ind.
  - rewrite encode_bytes_short by done. rewrite !length_app, length_replicate. cbn [length].
    rewrite Nat.div_small by done. lia.
  - rewrite encode_bytes_group by done. rewrite !length_app, IH, Hg.
    replace (8 + length d)%nat with (length d + 1 * 8)%nat by lia.
    rewrite Nat.div_add by lia. cbn [length]. lia.
Qed.

(** ** The decoder *)

(** One turn of the loop, at a whole group followed by its marker. *)
Definition decode_turn (fuel : nat) (pre blk : bytes) (m : byte) (s data : bytes)
  : outcome (bytes * nat) :=
  let pad := Z.to_nat (255 - b2z m) in
  if (8 <? pad)%nat then Err "invalid marker byte"
  else if decide (pad ≠ 0%nat) then
    if forallb (λ v, bool_decide (v = ENC_PAD)) (drop (8 - pad) blk)
    then Ok (data ++ take (8 - pad) blk, (length pre + 9)%nat)
    else Err "invalid padding byte"
  else decode_loop fuel (pre ++ blk ++ m :: s) (length pre + 9) (data ++ take (8 - pad) blk).

Lemma decode_loop_step fuel pre blk m s data :
  length blk = 8%nat →
  decode_loop (S fuel) (pre ++ blk ++ m :: s) (length pre) data
  = decode_turn fuel pre blk m s data.
Proof.
  intros Hb. cbn [decode_loop]. rewrite !length_app. cbn [length]. unfold ENC_GROUP_SIZE in *.
  destruct (Nat.ltb_spec (length pre + (length blk + S (length s)) - length pre) (8 + 1)); [lia|].
  assert (slice (length pre) (length pre + 8 + 1) (pre ++ blk ++ m :: s) = Ok (blk ++ [m])) as ->.
  { unfold slice. rewrite !length_app. cbn [length]. rewrite decide_True by lia.
    rewrite drop_app_length. replace (length pre + 8 + 1 - length pre)%nat with 9%nat by lia.
    f_equal. change (m :: s) with ([m] ++ s). rewrite app_assoc.
    apply take_app_length'. rewrite length_app. cbn [length]. lia. }
  unfold index. cbn [mbind outcome_bind].
  rewrite lookup_app_r, Hb by lia. cbn [Nat.sub lookup list_lookup unwrap].
  rewrite take_app_length' by done. unfold decode_turn, ENC_MARKER.
  replace (length pre + 8 + 1)%nat with (length pre + 9)%nat by lia. done.
Qed.

Lemma decode_loop_encode fuel pre d s data :
  (length d / 8 < fuel)%nat →
  decode_loop fuel (pre ++ encode_bytes d ++ s) (length pre) data
  = Ok (data ++ d, (length pre + length (encode_bytes d))%nat).
Proof.
  revert fuel pre data. induction d as [d Hd|g d Hg IH] using bytes_group_ind;
    intros [|fuel] pre data Hf; try lia.
  - rewrite length_encode_bytes, (encode_bytes_short d Hd), Nat.div_small by done.
    rewrite <- !app_assoc, (app_assoc d). cbn [app].
    rewrite decode_loop_step by (rewrite length_app, length_replicate; lia).
    unfold decode_turn. rewrite b2z_z2b_small by lia.
    replace (Z.to_nat (255 - (255 - Z.of_nat (8 - length d)))) with (8 - length d)%nat by lia.
    destruct (Nat.ltb_spec 8 (8 - length d)); [lia|].
    rewrite decide_True by lia.
    replace (8 - (8 - length d))%nat with (length d) by lia.
    rewrite take_app_length, drop_app_length.
    assert (forallb (λ v, bool_decide (v = ENC_PAD)) (replicate (8 - length d) ENC_PAD) = true) as ->.
    { apply forallb_forall. intros x Hx. apply list_elem_of_In, elem_of_replicate in Hx as [-> _].
      by apply bool_decide_eq_true. }
    done.
  - rewrite encode_bytes_group by done. rewrite <- app_assoc. cbn [app].
    rewrite decode_loop_step by done.
    unfold decode_turn. rewrite b2z_z2b_small by lia. change (Z.to_nat (255 - 255)) with 0%nat.
    cbn [Nat.ltb Nat.leb]. rewrite decide_False by lia.
    change (8 - 0)%nat with 8%nat. rewrite take_ge by lia.
    change (z2b 255 :: encode_bytes d ++ s) with ([z2b 255] ++ encode_bytes d ++ s).
    rewrite (app_assoc g), (app_assoc pre).
    replace (length pre + 9)%nat with (length (pre ++ g ++ [z2b 255]))
      by (rewrite !length_app, Hg; done).
    rewrite IH.
    + rewrite <- app_assoc. f_equal. f_equal. rewrite !length_app. cbn [length]. lia.
    + rewrite length_app, Hg in Hf.
      replace (8 + length d)%nat with (length d + 1 * 8)%nat in Hf by lia.
      rewrite Nat.div_add in Hf by lia. lia.
Qed.

Lemma decode_encode_bytes d s :
  decode_bytes (encode_bytes d ++ s) = Ok (d, length (encode_bytes d)).
Proof.
  unfold decode_bytes. rewrite (decode_loop_encode _ [] d s []); [done|].
  rewrite length_app, length_encode_bytes. lia.
Qed.

(** A list that is long enough splits into a group, its marker and the
    rest. *)
Lemma split_group (l : bytes) :
  (9 ≤ length l)%nat → ∃ blk m s, l = blk ++ m :: s ∧ length blk = 8%nat.
Proof.
  intros H. rewrite <- (take_drop 8 l).
  destruct (drop 8 l) as [|m s] eqn:E.
  - apply (f_equal length) in E. rewrite length_drop in E. cbn in E. lia.
  - exists (take 8 l), m, s. split; [done|]. rewrite length_take. lia.
Qed.

Lemma forallb_pad l :
  forallb (λ v, bool_decide (v = ENC_PAD)) l = true → l = replicate (length l) ENC_PAD.
Proof.
  induction l as [|x l IH]; cbn; [done|]. intros [H1 H2]%andb_prop.
  apply bool_decide_eq_true in H1 as ->. f_equal. auto.
Qed.

Lemma decode_loop_short fuel pre l data :
  (length l < 9)%nat →
  decode_loop (S fuel) (pre ++ l) (length pre) data = Err "insufficient bytes to decode value".
Proof.
  intros Hl. cbn [decode_loop]. rewrite length_app. unfold ENC_GROUP_SIZE.
  destruct (Nat.ltb_spec (length pre + length l - length pre) (8 + 1)); [done|lia].
Qed.

Lemma decode_loop_sound fuel pre l data d n :
  decode_loop fuel (pre ++ l) (length pre) data = Ok (d, n) →
  ∃ d' s, d = data ++ d' ∧ l = encode_bytes d' ++ s ∧
          n = (length pre + length (encode_bytes d'))%nat.
Proof.
  revert pre l data. induction fuel as [|fuel IH]; intros pre l data; [done|].
  destruct (decide (9 ≤ length l)%nat) as [Hl|Hl].
  2:{ by rewrite decode_loop_short by lia. }
  destruct (split_group l Hl) as (blk & m & s & -> & Hb).
  rewrite decode_loop_step by done. unfold decode_turn.
  pose proof (b2z_bound m) as Hm. set (pad := Z.to_nat (255 - b2z m)).
  destruct (Nat.ltb_spec 8 pad) as [|Hp]; [done|]. case_decide as Hz.
  - destruct (forallb _ _) eqn:Hpad; [|done]. intros [= <- <-].
    apply forallb_pad in Hpad. rewrite length_drop, Hb in Hpad.
    assert (length (take (8 - pad) blk) = 8 - pad)%nat as Hlt by (rewrite length_take; lia).
    exists (take (8 - pad) blk), s. split_and!; [done| |].
    + rewrite encode_bytes_short by lia. rewrite Hlt. rewrite <- !app_assoc.
      replace (8 - (8 - pad))%nat with pad by lia.
      assert (drop (8 - pad) blk = replicate pad ENC_PAD) as Hd.
      { rewrite Hpad. f_equal. lia. }
      rewrite <- Hd. rewrite (app_assoc (take _ _)), take_drop. cbn [app].
      do 2 f_equal. apply (inj b2z). rewrite b2z_z2b_small; lia.
    + rewrite length_encode_bytes, Hlt, Nat.div_small; lia.
  - change (pre ++ blk ++ m :: s) with (pre ++ blk ++ [m] ++ s).
    rewrite (app_assoc blk), (app_assoc pre).
    replace (length pre + 9)%nat with (length (pre ++ blk ++ [m]))
      by (rewrite !length_app, Hb; done).
    intros (d' & s' & -> & -> & ->)%IH.
    replace (8 - pad)%nat with 8%nat by lia. rewrite take_ge by lia.
    exists (blk ++ d'), s'. rewrite encode_bytes_group by done.
    assert (m = z2b 255) as ->.
    { apply (inj b2z). rewrite b2z_z2b_small; lia. }
    split_and!; [by rewrite app_assoc|by rewrite <- app_assoc|].
    rewrite !length_app. lia.
Qed.

Lemma decode_bytes_sound b d n :
  decode_bytes b = Ok (d, n) →
  n = length (encode_bytes d) ∧ ∃ s, b = encode_bytes d ++ s.
Proof.
  intros H. destruct (decode_loop_sound _ [] b [] d n H) as (d' & s & -> & -> & ->).
  split; [done|]. by exists s.
Qed.

Lemma decode_loop_total fuel pre l data :
  (length l < fuel)%nat →
  (∃ r, decode_loop fuel (pre ++ l) (length pre) data = Ok r) ∨
  (∃ e, decode_loop fuel (pre ++ l) (length pre) data = Err e).
Proof.
  revert pre l data. induction fuel as [|fuel IH]; intros pre l data Hf; [lia|].
  destruct (decide (9 ≤ length l)%nat) as [Hl|Hl].
  2:{ right. eexists. by rewrite decode_loop_short by lia. }
  destruct (split_group l Hl) as (blk & m & s & -> & Hb).
  rewrite decode_loop_step by done. unfold decode_turn.
  destruct (8 <? _)%nat; [eauto|]. case_decide; [destruct (forallb _ _); eauto|].
  change (pre ++ blk ++ m :: s) with (pre ++ blk ++ [m] ++ s).
  rewrite (app_assoc blk), (app_assoc pre).
  replace (length pre + 9)%nat with (length (pre ++ blk ++ [m]))
    by (rewrite !length_app, Hb; done).
  apply IH. rewrite length_app, Hb in Hf. cbn in Hf. lia.
Qed.

(** ** The order of encoded keys *)

Lemma pad_cmp n a b ma mb :
  (length a ≤ n)%nat → (length b ≤ n)%nat → a ≠ b →
  ((length a < length b)%nat → b2z ma < b2z mb) →
  ((length b < length a)%nat → b2z mb < b2z ma) →
  bytes_cmp (a ++ replicate (n - length a) ENC_PAD ++ [ma])
            (b ++ replicate (n - length b) ENC_PAD ++ [mb]) = bytes_cmp a b.
Proof.
  revert a b. induction n as [|n IH]; intros [|x a] [|y b] Ha Hb Hne Hlt Hgt;
    cbn [length] in *; try lia; try done.
  - cbn -[b2z]. pose proof (b2z_bound y) as Hy.
    destruct (Z.compare_spec (b2z ENC_PAD) (b2z y)) as [E|E|E]; [|done|].
    + specialize (IH [] b ltac:(cbn; lia) ltac:(lia)). cbn [length app] in IH.
      destruct b as [|z b].
      * cbn [length]. rewrite Nat.sub_0_r. cbn [app].
        rewrite bytes_cmp_app_same. cbn.
        rewrite (proj2 (Z.compare_lt_iff _ _)); [done|]. apply Hlt. cbn. lia.
      * cbn [length] in *. rewrite Nat.sub_0_r in IH.
        rewrite IH; [done|done|intros; apply Hlt; lia|lia].
    + change (b2z ENC_PAD) with 0 in E. lia.
  - cbn -[b2z]. pose proof (b2z_bound x) as Hx.
    destruct (Z.compare_spec (b2z x) (b2z ENC_PAD)) as [E|E|E]; [|change (b2z ENC_PAD) with 0 in E; lia|done].
    + specialize (IH a [] ltac:(lia) ltac:(cbn; lia)). cbn [length app] in IH.
      destruct a as [|z a].
      * cbn [length]. rewrite Nat.sub_0_r. cbn [app].
        rewrite bytes_cmp_app_same. cbn.
        rewrite (proj2 (Z.compare_gt_iff _ _)); [done|]. apply Hgt. cbn. lia.
      * cbn [length] in *. rewrite Nat.sub_0_r in IH.
        rewrite IH; [done|done|lia|intros; apply Hgt; lia].
  - cbn -[b2z]. destruct (Z.compare_spec (b2z x) (b2z y)) as [E|E|E]; [|done..].
    apply (inj b2z) in E as ->. apply IH; try lia. congruence.
Qed.

Lemma bytes_cmp_app_short a g r :
  (length a < length g)%nat → bytes_cmp a (g ++ r) = bytes_cmp a g.
Proof.
  revert g. induction a as [|x a IH]; intros [|y g]; cbn; try lia; try done.
  intros H. destruct (b2z x ?= b2z y); [|done..]. apply IH. lia.
Qed.

Lemma short_group_cmp a g x y r :
  (length a < 8)%nat → length g = 8%nat →
  bytes_cmp (encode_bytes a ++ x) (encode_bytes (g ++ r) ++ y) = bytes_cmp a (g ++ r).
Proof.
  intros Ha Hg. rewrite encode_bytes_short, encode_bytes_group by done.
  rewrite (bytes_cmp_app_short a g r) by lia.
  assert (a ≠ g) as Hne by (intros ->; lia).
  assert (bytes_cmp (a ++ replicate (8 - length a) ENC_PAD ++ [z2b (255 - Z.of_nat (8 - length a))])
                    (g ++ [z2b 255]) = bytes_cmp a g) as Hc.
  { rewrite <- (pad_cmp 8 a g (z2b (255 - Z.of_nat (8 - length a))) (z2b 255)) by
      (first [lia|done|intros; rewrite ?b2z_z2b_small; lia]).
    by rewrite Hg. }
  rewrite <- Hc, (app_assoc g), <- (app_assoc (g ++ _)). apply bytes_cmp_app_ne.
  - rewrite !length_app, length_replicate. cbn [length]. lia.
  - intros E. rewrite E, bytes_cmp_refl in Hc. symmetry in Hc. by apply bytes_cmp_eq in Hc.
Qed.

(** The memcomparable encoding keeps the order: two encodings followed
    by any suffixes compare like the data, and by the suffixes when the data
    are equal.  In particular no encoding is a prefix of another one. *)
Theorem encode_bytes_order a b x y :
  bytes_cmp (encode_bytes a ++ x) (encode_bytes b ++ y)
  = match bytes_cmp a b with Eq => bytes_cmp x y | c => c end.
Proof.
  revert b. induction a as [a Ha|g a Hg IH] using bytes_group_ind; intros b.
  - destruct (decide (a = b)) as [<-|Hne].
    { by rewrite bytes_cmp_refl, bytes_cmp_app_same. }
    assert (bytes_cmp (encode_bytes a ++ x) (encode_bytes b ++ y) = bytes_cmp a b) as ->.
    2:{ destruct (bytes_cmp a b) eqn:E; [|done..]. by apply bytes_cmp_eq in E. }
    destruct (decide (length b < 8)%nat) as [Hb|Hb].
    + rewrite !encode_bytes_short by done.
      assert (∀ la lb, (la < 8)%nat → (lb < 8)%nat → (la < lb)%nat →
        b2z (z2b (255 - Z.of_nat (8 - la))) < b2z (z2b (255 - Z.of_nat (8 - lb)))) as Hm.
      { intros la lb ???. rewrite !b2z_z2b_small by lia. lia. }
      rewrite bytes_cmp_app_ne; [apply pad_cmp; auto; lia| |].
      * rewrite !length_app, !length_replicate. cbn [length]. lia.
      * intros E. apply Hne. apply bytes_cmp_eq.
        erewrite <- pad_cmp with (n := 8%nat), E; [apply bytes_cmp_refl|..]; auto; lia.
    + rewrite <- (take_drop 8 b). apply short_group_cmp; [done|]. rewrite length_take. lia.
  - destruct (decide (length b < 8)%nat) as [Hb|Hb].
    + rewrite bytes_cmp_antisym, (short_group_cmp b g y x a) by done.
      rewrite (bytes_cmp_antisym b (g ++ a)). 
      destruct (bytes_cmp b (g ++ a)) eqn:E; cbn; [|done..].
      apply bytes_cmp_eq in E as ->. rewrite length_app in Hb. lia.
    + rewrite <- (take_drop 8 b). set (h := take 8 b). set (c := drop 8 b).
      assert (length h = 8%nat) as Hh by (unfold h; rewrite length_take; lia).
      rewrite !encode_bytes_group, <- !app_assoc by done.
      destruct (decide (g = h)) as [->|Hne].
      * rewrite !bytes_cmp_app_same. apply IH.
      * rewrite !bytes_cmp_app_ne by (done || lia).
        destruct (bytes_cmp g h) eqn:E; [|done..]. by apply bytes_cmp_eq in E.
Qed.

#[export] Instance encode_bytes_inj : Inj (=) (=) encode_bytes.
Proof.
  intros a b H. apply bytes_cmp_eq. pose proof (decode_encode_bytes a []) as Ha.
  rewrite H, decode_encode_bytes in Ha. injection Ha as ->. apply bytes_cmp_refl.
Qed.

Lemma u64_not_cmp t1 t2 :
  is_u64 t1 → is_u64 t2 →
  bytes_cmp (u64_to_be_bytes (u64_not t1)) (u64_to_be_bytes (u64_not t2)) = (t2 ?= t1).
Proof.
  intros H1 H2. rewrite from_be_cmp by (unfold u64_to_be_bytes; by rewrite !length_be_bytes).
  rewrite !from_be_u64 by auto with aegis. unfold u64_not.
  destruct (Z.compare_spec t2 t1) as [E|E|E].
  - subst. apply Z.compare_refl.
  - apply Z.compare_lt_iff. lia.
  - apply Z.compare_gt_iff. lia.
Qed.

Lemma encode_key_order_aux a t1 b t2 :
  is_u64 t1 → is_u64 t2 →
  bytes_cmp (encode_key a t1) (encode_key b t2)
  = match bytes_cmp a b with Eq => t2 ?= t1 | c => c end.
Proof. intros. unfold encode_key. by rewrite encode_bytes_order, u64_not_cmp. Qed.

Lemma decode_user_key_encode_key k ts : decode_user_key (encode_key k ts) = Ok k.
Proof. unfold decode_user_key, encode_key. by rewrite decode_encode_bytes. Qed.

Lemma decode_timestamp_encode_key k ts :
  is_u64 ts → decode_timestamp (encode_key k ts) = Ok ts.
Proof.
  intros Hts. unfold decode_timestamp, encode_key. rewrite decode_encode_bytes.
  cbn [mbind outcome_bind]. rewrite length_app. unfold u64_to_be_bytes.
  rewrite length_be_bytes. destruct (Nat.ltb_spec (length (encode_bytes k) + 8)
    (length (encode_bytes k) + 8)); [lia|].
  unfold slice. rewrite length_app, length_be_bytes, decide_True by lia.
  rewrite drop_app_length, take_ge by (rewrite length_be_bytes; lia).
  cbn [mbind outcome_bind]. rewrite from_be_u64 by auto with aegis.
  by rewrite u64_not_involutive.
Qed.

Lemma encode_key_inj a t1 b t2 :
  is_u64 t1 → is_u64 t2 → encode_key a t1 = encode_key b t2 → a = b ∧ t1 = t2.
Proof.
  intros H1 H2 E. pose proof (decode_user_key_encode_key a t1) as Ha.
  pose proof (decode_timestamp_encode_key a t1 H1) as Ht.
  rewrite E, decode_user_key_encode_key in Ha.
  rewrite E, decode_timestamp_encode_key in Ht by done. naive_solver.
Qed.

#[export] Hint Resolve decode_user_key_encode_key decode_timestamp_encode_key : aegis.
#[export] Hint Rewrite decode_user_key_encode_key : aegis.

(** ** The properties of the codec *)

(** An MVCC key decodes to the user key and the timestamp it was built
    from. *)
Theorem encode_key_roundtrip k ts :
  is_u64 ts →
  decode_user_key (encode_key k ts) = Ok k ∧ decode_timestamp (encode_key k ts) = Ok ts.
Proof. eauto with aegis. Qed.

Lemma encode_key_roundtrip_witness :
  decode_user_key (encode_key [Byte.x6b; Byte.x31] 1234567890) = Ok [Byte.x6b; Byte.x31] ∧
  decode_timestamp (encode_key [Byte.x6b; Byte.x31] 1234567890) = Ok 1234567890.
Proof. apply (encode_key_roundtrip [Byte.x6b; Byte.x31] 1234567890). by vm_compute. Defined.

(** C19: MVCC keys sort by user key in ascending order and, for one user key,
    by timestamp in descending order: the newest version comes first. *)
Theorem encode_key_order a t1 b t2 :
  is_u64 t1 → is_u64 t2 →
  bytes_cmp (encode_key a t1) (encode_key b t2)
  = match bytes_cmp a b with Eq => t2 ?= t1 | c => c end.
Proof. apply encode_key_order_aux. Qed.

Lemma encode_key_order_witness :
  bytes_cmp (encode_key [Byte.x6b] 100) (encode_key [Byte.x6b] 200) = Gt.
Proof. rewrite (encode_key_order [Byte.x6b] 100 [Byte.x6b] 200); by vm_compute. Defined.

(** C20: [decode_bytes] accepts exactly the byte strings that begin with an
    encoding, returns the encoded data and the length it consumed, and
    otherwise fails with an error; it never panics and its loop ends. *)
Theorem decode_bytes_exact b :
  match decode_bytes b with
  | Ok (d, n) => b = encode_bytes d ++ drop n b ∧ n = length (encode_bytes d)
  | Err _ => ∀ d s, b ≠ encode_bytes d ++ s
  | Panic | Diverge => False
  end.
Proof.
  destruct (decode_bytes b) as [[d n]|e| |] eqn:E.
  - apply decode_bytes_sound in E as [-> [s ->]]. by rewrite drop_app_length.
  - intros d s ->. by rewrite decode_encode_bytes in E.
  - unfold decode_bytes in E.
    destruct (decode_loop_total (S (length b)) [] b [] ltac:(lia)) as [[? H]|[? H]];
      cbn [app length] in H; congruence.
  - unfold decode_bytes in E.
    destruct (decode_loop_total (S (length b)) [] b [] ltac:(lia)) as [[? H]|[? H]];
      cbn [app length] in H; congruence.
Qed.
