(* ===== verification/Records.v ===== *)
(** The records the transaction layer stores: [WriteKind] and [Write]
    (src/transaction/mvcc/write.rs, the values of the write column family),
    [Lock] (src/transaction/mvcc/lock.rs, the values of the lock column
    family) and the storage modifications (src/storage/modify.rs), with their
    byte formats. *)

From S2P Require Import Prelude Bytes.

(** The operation of a mutation, [kvrpcpb::Op]. *)
Inductive Op := OpPut | OpDel | OpRollback.

Inductive WriteKind := WkPut | WkDelete | WkRollback.

#[export] Instance WriteKind_eq_dec : EqDecision WriteKind.
Proof. solve_decision. Defined.

Definition WriteKind_to_proto (k : WriteKind) : Op :=
  match k with WkPut => OpPut | WkDelete => OpDel | WkRollback => OpRollback end.

Definition WriteKind_from_proto (op : Op) : WriteKind :=
  match op with OpPut => WkPut | OpDel => WkDelete | OpRollback => WkRollback end.

(** [kind as u8] *)
Definition WriteKind_as_u8 (k : WriteKind) : byte :=
  match k with WkPut => Byte.x01 | WkDelete => Byte.x02 | WkRollback => Byte.x03 end.

(** [WriteKind::from(byte)] panics on any other byte. *)
Definition WriteKind_from_u8 (b : byte) : outcome WriteKind :=
  match b with
  | Byte.x01 => Ok WkPut
  | Byte.x02 => Ok WkDelete
  | Byte.x03 => Ok WkRollback
  | _ => Panic
  end.

Record Write := mkWrite { write_start_ts : Z; write_kind : WriteKind }.

#[export] Instance Write_eq_dec : EqDecision Write.
Proof. solve_decision. Defined.

Definition Write_to_bytes (w : Write) : bytes :=
  WriteKind_as_u8 (write_kind w) :: u64_to_be_bytes (write_start_ts w).

Definition Write_parse (value : bytes) : outcome (option Write) :=
  match value with
  | [] => Ok None
  | b :: rest =>
      if decide (length value ≠ 9%nat) then
        Err "mvcc/write/ParseWrite: value is incorrect length"
      else
        kind ← WriteKind_from_u8 b;
        Ok (Some {| write_start_ts := from_be rest; write_kind := kind |})
  end.

Record Lock := mkLock {
  lock_primary : bytes;
  lock_ts : Z;
  lock_ttl : Z;
  lock_kind : WriteKind;
}.

#[export] Instance Lock_eq_dec : EqDecision Lock.
Proof. solve_decision. Defined.

Definition Lock_to_bytes (l : Lock) : bytes :=
  lock_primary l ++ [WriteKind_as_u8 (lock_kind l)]
    ++ u64_to_be_bytes (lock_ts l) ++ u64_to_be_bytes (lock_ttl l).

Definition Lock_parse (input : bytes) : outcome Lock :=
  if (length input <=? 17)%nat then
    Err "mvcc: error parsing lock, not enough input"
  else
    let primary_len := (length input - 17)%nat in
    let primary := take primary_len input in
    b ← index input primary_len;
    kind ← WriteKind_from_u8 b;
    let ts := from_be (take 8 (drop (primary_len + 1) input)) in
    let ttl := from_be (take 8 (drop (primary_len + 9) input)) in
    Ok {| lock_primary := primary; lock_ts := ts; lock_ttl := ttl; lock_kind := kind |}.

Definition is_locked_for (l : Lock) (key : bytes) (txn_start_ts : Z) : bool :=
  if lock_ts l <=? txn_start_ts then true else false.

(** The modifications of a storage batch. *)
Inductive Modify :=
| MPut (key value : bytes) (cf : string)
| MDelete (key : bytes) (cf : string).

#[export] Instance Modify_eq_dec : EqDecision Modify.
Proof. solve_decision. Defined.

Definition Modify_key (m : Modify) : bytes :=
  match m with MPut k _ _ => k | MDelete k _ => k end.
Definition Modify_value (m : Modify) : option bytes :=
  match m with MPut _ v _ => Some v | MDelete _ _ => None end.
Definition Modify_cf (m : Modify) : string :=
  match m with MPut _ _ cf => cf | MDelete _ cf => cf end.

(** ** Well-formedness and round trips *)

Definition Write_ok (w : Write) : Prop := is_u64 (write_start_ts w).
Definition Lock_ok (l : Lock) : Prop := is_u64 (lock_ts l) ∧ is_u64 (lock_ttl l).

Lemma WriteKind_u8_roundtrip k : WriteKind_from_u8 (WriteKind_as_u8 k) = Ok k.
Proof. by destruct k. Qed.

Lemma WriteKind_from_u8_inv b k : WriteKind_from_u8 b = Ok k → b = WriteKind_as_u8 k.
Proof. destruct b; cbn; intros H; try done; by injection H as <-. Qed.

Lemma length_u64_bytes x : length (u64_to_be_bytes x) = 8%nat.
Proof. apply length_be_bytes. Qed.
#[export] Hint Rewrite length_u64_bytes : aegis.

Lemma Write_parse_to_bytes w : Write_ok w → Write_parse (Write_to_bytes w) = Ok (Some w).
Proof.
  intros Hw. unfold Write_parse, Write_to_bytes. cbn [length].
  rewrite length_u64_bytes. rewrite decide_False by lia.
  rewrite WriteKind_u8_roundtrip. cbn [mbind outcome_bind].
  rewrite from_be_u64 by done. by destruct w.
Qed.

Lemma Write_parse_inv v w :
  Write_parse v = Ok (Some w) → v = Write_to_bytes w ∧ Write_ok w.
Proof.
  destruct v as [|b rest]; cbn [Write_parse]; [done|]. case_decide as Hl; [done|].
  cbn [length] in Hl. injection Hl as Hl.
  destruct (WriteKind_from_u8 b) as [k| | |] eqn:Hk; cbn [mbind outcome_bind]; try done.
  intros [= <-]. apply WriteKind_from_u8_inv in Hk as ->. unfold Write_to_bytes, Write_ok. cbn.
  split; [|by apply from_be_is_u64]. unfold u64_to_be_bytes. by rewrite be_bytes_from.
Qed.

Lemma Lock_parse_split p b x y :
  p ≠ [] → length x = 8%nat → length y = 8%nat →
  Lock_parse (p ++ [b] ++ x ++ y)
  = kind ← WriteKind_from_u8 b;
    Ok {| lock_primary := p; lock_ts := from_be x; lock_ttl := from_be y; lock_kind := kind |}.
Proof.
  intros Hp Hx Hy. unfold Lock_parse. rewrite !length_app, Hx, Hy. cbn [length].
  assert (length p ≠ 0%nat) by (by destruct p).
  destruct (Nat.leb_spec (length p + (1 + (8 + 8))) 17); [lia|].
  replace (length p + (1 + (8 + 8)) - 17)%nat with (length p) by lia.
  unfold index. rewrite lookup_app_r, Nat.sub_diag by lia. cbn [app lookup list_lookup unwrap].
  cbn [mbind outcome_bind]. rewrite take_app_length.
  replace (drop (length p + 1) (p ++ b :: x ++ y)) with (x ++ y).
  2:{ by rewrite <- drop_drop, drop_app_length. }
  replace (drop (length p + 9) (p ++ b :: x ++ y)) with y.
  2:{ change (p ++ b :: x ++ y) with (p ++ [b] ++ x ++ y). rewrite !app_assoc.
      rewrite drop_app_length'; [done|]. rewrite !length_app, Hx. cbn [length]. lia. }
  rewrite take_app_length' by done. by rewrite (take_ge y) by lia.
Qed.

Lemma Lock_parse_to_bytes l :
  Lock_ok l → lock_primary l ≠ [] → Lock_parse (Lock_to_bytes l) = Ok l.
Proof.
  intros [H1 H2] Hp. unfold Lock_to_bytes.
  rewrite Lock_parse_split by (done || apply length_u64_bytes).
  rewrite WriteKind_u8_roundtrip. cbn [mbind outcome_bind].
  rewrite !from_be_u64 by done. by destruct l.
Qed.

#[export] Hint Resolve Write_parse_to_bytes Lock_parse_to_bytes : aegis.

(** ** Properties *)

(** The value format of the write column family is exact: whatever parses
    as a write record is the serialisation of that record, and every record
    with a 64-bit timestamp parses back; any other length is an error, the
    empty value is "no record", and the one panic is an unknown kind byte in
    a value of the right length. *)
Theorem Write_format v :
  match Write_parse v with
  | Ok (Some w) => v = Write_to_bytes w ∧ Write_ok w
  | Ok None => v = []
  | Err _ => length v ≠ 9%nat
  | Panic => length v = 9%nat ∧ ∀ w, v ≠ Write_to_bytes w
  | Diverge => False
  end.
Proof.
  destruct (Write_parse v) as [[w|]|e| |] eqn:E.
  - by apply Write_parse_inv.
  - destruct v as [|b r]; [done|]. revert E. cbn [Write_parse].
    case_decide; [done|]. by destruct (WriteKind_from_u8 b).
  - destruct v as [|b r]; [done|]. revert E. cbn [Write_parse]. case_decide; [done|].
    by destruct b.
  - destruct v as [|b r]; [done|]. revert E. cbn [Write_parse].
    case_decide as Hl; [done|]. intros E. split; [done|]. intros w [= -> _].
    rewrite WriteKind_u8_roundtrip in E. done.
  - destruct v as [|b r]; [done|]. revert E. cbn [Write_parse]. case_decide; [done|].
    by destruct b.
Qed.

(** A lock with 64-bit timestamp and ttl is read back exactly when its
    primary key is not empty; with an empty primary key the serialised lock
    is 17 bytes long and [Lock::parse] refuses it. *)
Theorem Lock_roundtrip l :
  Lock_ok l →
  Lock_parse (Lock_to_bytes l)
  = if decide (lock_primary l = [])
    then Err "mvcc: error parsing lock, not enough input" else Ok l.
Proof.
  intros Hl. case_decide as Hp; [|by apply Lock_parse_to_bytes].
  unfold Lock_parse, Lock_to_bytes. rewrite Hp, !length_app, !length_u64_bytes. done.
Qed.

Lemma Lock_roundtrip_witness :
  Lock_parse (Lock_to_bytes (mkLock [Byte.x70] 1234567890 3000 WkPut))
  = Ok (mkLock [Byte.x70] 1234567890 3000 WkPut).
Proof. apply (Lock_roundtrip (mkLock [Byte.x70] 1234567890 3000 WkPut)). by vm_compute. Defined.

#[global] Arguments Write_parse : simpl never.
#[global] Arguments Write_to_bytes : simpl never.
#[global] Arguments Lock_parse : simpl never.
#[global] Arguments Lock_to_bytes : simpl never.
