(* ===== verification/RaftTypes.v ===== *)
(** The data of the Raft component: src/raft/types.rs, src/raft/progress.rs
    and the [Storage] trait of src/raft/storage.rs, and the sources of
    nondeterminism the component uses (iteration order of [HashMap], the
    thread's random generator). *)

From S2P Require Import Prelude Bytes.

(** ** Types *)

(** Node id 0 stands for "no leader". *)
Definition NONE : Z := 0.

Inductive StateType := Follower | Candidate | Leader.
#[export] Instance StateType_eq_dec : EqDecision StateType.
Proof. solve_decision. Defined.

Inductive EntryType := Normal | EntryConfChange.
#[export] Instance EntryType_eq_dec : EqDecision EntryType.
Proof. solve_decision. Defined.

Record Entry := mkEntry {
  e_type : EntryType;
  e_term : Z;
  e_index : Z;
  e_data : bytes;
}.
#[export] Instance Entry_eq_dec : EqDecision Entry.
Proof. solve_decision. Defined.

Definition Entry_new_normal (term index : Z) (data : bytes) : Entry :=
  {| e_type := Normal; e_term := term; e_index := index; e_data := data |}.
Definition Entry_new_conf_change (term index : Z) (data : bytes) : Entry :=
  {| e_type := EntryConfChange; e_term := term; e_index := index; e_data := data |}.

Inductive MessageType :=
| MsgHup | MsgBeat | MsgPropose
| MsgAppend | MsgAppendResponse | MsgRequestVote | MsgRequestVoteResponse
| MsgSnapshot | MsgHeartbeat | MsgHeartbeatResponse | MsgTransferLeader | MsgTimeoutNow.
#[export] Instance MessageType_eq_dec : EqDecision MessageType.
Proof. solve_decision. Defined.

Definition is_local (t : MessageType) : bool :=
  match t with MsgHup | MsgBeat | MsgPropose => true | _ => false end.
Definition is_response (t : MessageType) : bool :=
  match t with
  | MsgAppendResponse | MsgRequestVoteResponse | MsgHeartbeatResponse => true
  | _ => false
  end.

Record ConfState := mkConfState { cs_nodes : list Z }.
#[export] Instance ConfState_eq_dec : EqDecision ConfState.
Proof. solve_decision. Defined.

Record SnapshotMetadata := mkSnapshotMetadata {
  sm_conf_state : ConfState; sm_index : Z; sm_term : Z }.
#[export] Instance SnapshotMetadata_eq_dec : EqDecision SnapshotMetadata.
Proof. solve_decision. Defined.

Record Snapshot := mkSnapshot { snap_data : bytes; snap_metadata : SnapshotMetadata }.
#[export] Instance Snapshot_eq_dec : EqDecision Snapshot.
Proof. solve_decision. Defined.

Definition snap_index (s : Snapshot) : Z := sm_index (snap_metadata s).
Definition snap_term (s : Snapshot) : Z := sm_term (snap_metadata s).
Definition Snapshot_is_empty (s : Snapshot) : bool := snap_index s =? 0.

Record Message := mkMessage {
  msg_type : MessageType;
  msg_to : Z;
  msg_from : Z;
  msg_term : Z;
  msg_log_term : Z;
  msg_index : Z;
  msg_entries : list Entry;
  msg_commit : Z;
  msg_snapshot : option Snapshot;
  msg_reject : bool;
}.
#[export] Instance Message_eq_dec : EqDecision Message.
Proof. solve_decision. Defined.

Definition Message_new : Message :=
  {| msg_type := MsgHup; msg_to := NONE; msg_from := NONE; msg_term := 0;
     msg_log_term := 0; msg_index := 0; msg_entries := []; msg_commit := 0;
     msg_snapshot := None; msg_reject := false |}.

(** The struct updates [Message { .., ..Message::new() }] the code uses. *)
Definition local_message (t : MessageType) (from : Z) (entries : list Entry) : Message :=
  {| msg_type := t; msg_to := NONE; msg_from := from; msg_term := 0;
     msg_log_term := 0; msg_index := 0; msg_entries := entries; msg_commit := 0;
     msg_snapshot := None; msg_reject := false |}.
Definition reply_message (t : MessageType) (to from term : Z) (reject : bool) (index : Z)
  : Message :=
  {| msg_type := t; msg_to := to; msg_from := from; msg_term := term;
     msg_log_term := 0; msg_index := index; msg_entries := []; msg_commit := 0;
     msg_snapshot := None; msg_reject := reject |}.
Definition log_message (t : MessageType) (to from term log_term index : Z)
  (entries : list Entry) (commit : Z) : Message :=
  {| msg_type := t; msg_to := to; msg_from := from; msg_term := term;
     msg_log_term := log_term; msg_index := index; msg_entries := entries;
     msg_commit := commit; msg_snapshot := None; msg_reject := false |}.
Definition set_msg_to (to : Z) (m : Message) : Message :=
  {| msg_type := msg_type m; msg_to := to; msg_from := msg_from m; msg_term := msg_term m;
     msg_log_term := msg_log_term m; msg_index := msg_index m; msg_entries := msg_entries m;
     msg_commit := msg_commit m; msg_snapshot := msg_snapshot m; msg_reject := msg_reject m |}.

Record HardState := mkHardState { hs_term : Z; hs_vote : Z; hs_commit : Z }.
#[export] Instance HardState_eq_dec : EqDecision HardState.
Proof. solve_decision. Defined.

Definition HardState_is_empty (h : HardState) : bool :=
  (hs_term h =? 0) && (hs_vote h =? 0) && (hs_commit h =? 0).

Inductive ConfChangeType := AddNode | RemoveNode.
Record ConfChange := mkConfChange {
  cc_type : ConfChangeType; cc_node_id : Z; cc_context : bytes }.

(** ** The storage trait

    A [Box<dyn Storage>] is a record of the answers of its methods. *)
Record RStorage := mkRStorage {
  st_initial_state : outcome (HardState * ConfState);
  st_entries : Z → Z → outcome (list Entry);
  st_term : Z → outcome Z;
  st_last_index : outcome Z;
  st_first_index : outcome Z;
  st_snapshot : outcome Snapshot;
}.

Record RaftConfig := mkRaftConfig {
  cfg_id : Z;
  cfg_peers : list Z;
  cfg_election_tick : Z;
  cfg_heartbeat_tick : Z;
  cfg_storage : RStorage;
  cfg_applied : Z;
}.

Definition RaftConfig_validate (c : RaftConfig) : outcome unit :=
  if cfg_id c =? NONE then Err "cannot use none as id"
  else if cfg_heartbeat_tick c <=? 0 then Err "heartbeat tick must be greater than 0"
  else if cfg_election_tick c <=? cfg_heartbeat_tick c
       then Err "election tick must be greater than heartbeat tick"
  else Ok tt.

(** ** Progress of a follower *)

Record Progress := mkProgress { match_index : Z; next_index : Z }.
#[export] Instance Progress_eq_dec : EqDecision Progress.
Proof. solve_decision. Defined.

Definition Progress_new (next : Z) : Progress := {| match_index := 0; next_index := next |}.

Definition update_match `{BuildProfile} (p : Progress) (m : Z) : outcome Progress :=
  n ← u64_add m 1; Ok {| match_index := m; next_index := n |}.

Definition decrease_next `{BuildProfile} (p : Progress) (rejected : Z) : outcome Progress :=
  if 1 <? next_index p then
    n ← u64_add rejected 1;
    if n <? next_index p then Ok {| match_index := match_index p; next_index := n |}
    else n ← u64_sub (next_index p) 1;
         Ok {| match_index := match_index p; next_index := n |}
  else
    n ← u64_sub (next_index p) 1;
    Ok {| match_index := match_index p; next_index := n |}.

(** ** Nondeterminism *)

(** [std::collections::HashMap] iterates in an unspecified order: some
    permutation of its entries. *)
Class HashOrder := {
  hash_iter : ∀ `{Countable K} {V : Type}, gmap K V → list (K * V);
  hash_iter_perm : ∀ `{Countable K} {V : Type} (m : gmap K V), hash_iter m ≡ₚ map_to_list m;
}.

(** [rand::thread_rng().gen_range(lo..=hi)]: a value of the range. *)
Class RandomSource := {
  rng : Type;
  gen_range : rng → Z → Z → Z * rng;
  gen_range_bounds : ∀ r lo hi, lo ≤ hi → lo ≤ (gen_range r lo hi).1 ≤ hi;
}.

(** Instances to run the model with: the order of the map itself, and a
    generator that always draws the lower bound. *)
Definition map_order : HashOrder :=
  {| hash_iter := λ K _ _ V m, map_to_list m; hash_iter_perm := λ K _ _ V m, Permutation_refl _ |}.
Definition low_rng : RandomSource.
Proof. refine {| rng := unit; gen_range := λ r lo hi, (lo, r) |}. intros. cbn. lia. Defined.

Section hash_order.
Context `{order : HashOrder} `{Countable K}.

Lemma elem_of_hash_iter {V} (m : gmap K V) k v : (k, v) ∈ hash_iter m ↔ m !! k = Some v.
Proof. rewrite hash_iter_perm. apply elem_of_map_to_list. Qed.

Lemma length_hash_iter {V} (m : gmap K V) : length (hash_iter m) = size m.
Proof. rewrite hash_iter_perm. apply length_map_to_list. Qed.

(** [map.keys()] and [map.values()] *)
Definition hash_keys {V} (m : gmap K V) : list K := (hash_iter m).*1.
Definition hash_values {V} (m : gmap K V) : list V := (hash_iter m).*2.

Lemma elem_of_hash_keys {V} (m : gmap K V) k : k ∈ hash_keys m ↔ is_Some (m !! k).
Proof.
  unfold hash_keys. rewrite list_elem_of_fmap. split.
  - intros ([k' v] & -> & Hin%elem_of_hash_iter). cbn. eauto.
  - intros [v Hv]. exists (k, v). by rewrite elem_of_hash_iter.
Qed.

Lemma NoDup_hash_keys {V} (m : gmap K V) : NoDup (hash_keys m).
Proof. unfold hash_keys. rewrite hash_iter_perm. apply NoDup_fst_map_to_list. Qed.
End hash_order.
