(* ===== verification/RaftLog.v ===== *)
(** The replicated log in memory, [RaftLog] of src/raft/log.rs: its
    construction from storage, the indices, the term lookups, appending,
    compaction and snapshots, with the layout invariant of the log and what
    each operation does to it. *)

From S2P Require Import Prelude Bytes RaftTypes.

Record RaftLog := mkRaftLog {
  log_storage : RStorage;
  committed : Z;
  applied : Z;
  stabled : Z;
  entries : list Entry;
  pending_snapshot : option Snapshot;
}.

Definition set_committed (c : Z) (l : RaftLog) : RaftLog :=
  mkRaftLog (log_storage l) c (applied l) (stabled l) (entries l) (pending_snapshot l).
Definition set_applied (a : Z) (l : RaftLog) : RaftLog :=
  mkRaftLog (log_storage l) (committed l) a (stabled l) (entries l) (pending_snapshot l).
Definition set_stabled (s : Z) (l : RaftLog) : RaftLog :=
  mkRaftLog (log_storage l) (committed l) (applied l) s (entries l) (pending_snapshot l).
Definition set_entries (es : list Entry) (l : RaftLog) : RaftLog :=
  mkRaftLog (log_storage l) (committed l) (applied l) (stabled l) es (pending_snapshot l).

(** The snapshot that is waiting to be applied, when it is not empty. *)
Definition active_snapshot (l : RaftLog) : option Snapshot :=
  match pending_snapshot l with
  | Some s => if Snapshot_is_empty s then None else Some s
  | None => None
  end.

Section ops.
Context `{prof : BuildProfile}.

Definition RaftLog_new (storage : RStorage) : outcome RaftLog :=
  '(hard_state, _) ← st_initial_state storage;
  last_index ← st_last_index storage;
  first_index ← st_first_index storage;
  es ← (if first_index <=? last_index then
          hi ← u64_add last_index 1; st_entries storage first_index hi
        else Ok []);
  Ok {| log_storage := storage; committed := hs_commit hard_state; applied := 0;
        stabled := last_index; entries := es; pending_snapshot := None |}.

Definition all_entries (l : RaftLog) : list Entry := entries l.

Definition last_index (l : RaftLog) : Z :=
  match active_snapshot l with
  | Some s => snap_index s
  | None => match last (entries l) with Some e => e_index e | None => stabled l end
  end.

Definition first_index (l : RaftLog) : outcome Z :=
  match active_snapshot l with
  | Some s => u64_add (snap_index s) 1
  | None => match entries l with e :: _ => Ok (e_index e) | [] => u64_add (stabled l) 1 end
  end.

(** The number of entries up to index [i], as both slices compute it. *)
Definition offset_after (i : Z) (l : RaftLog) : outcome Z :=
  first ← first_index l;
  if first <=? i then d ← u64_sub i first; u64_add d 1 else Ok 0.

Definition unstable_entries (l : RaftLog) : outcome (list Entry) :=
  start ← offset_after (stabled l) l;
  zslice start (Z.of_nat (length (entries l))) (entries l).

Definition next_entries (l : RaftLog) : outcome (list Entry) :=
  applied_offset ← offset_after (applied l) l;
  committed_offset ← offset_after (committed l) l;
  zslice_incl applied_offset (Z.min committed_offset (Z.of_nat (length (entries l)))) (entries l).

Definition term (l : RaftLog) (index : Z) : outcome Z :=
  first ← first_index l;
  let last := last_index l in
  if index <? first then Err "index < first"
  else
    prev ← u64_sub first 1;
    match active_snapshot l with
    | Some s =>
        if (index =? prev) && (snap_index s =? prev) then Ok (snap_term s)
        else if index <=? last then
          match entries l !! Z.to_nat (index - first) with
          | Some e => Ok (e_term e)
          | None => st_term (log_storage l) index
          end
        else st_term (log_storage l) index
    | None =>
        if index <=? last then
          match entries l !! Z.to_nat (index - first) with
          | Some e => Ok (e_term e)
          | None => st_term (log_storage l) index
          end
        else st_term (log_storage l) index
    end.

Definition term_sync (l : RaftLog) (index : Z) : outcome (option Z) :=
  if index =? 0 then Ok (Some 0)
  else
    first ← first_index l;
    let last := last_index l in
    if index <? first then Ok None
    else
      prev ← u64_sub first 1;
      if index =? prev then
        match active_snapshot l with
        | Some s => if snap_index s =? prev then Ok (Some (snap_term s)) else Ok None
        | None => Ok None
        end
      else if index <=? last then
        Ok (e_term <$> entries l !! Z.to_nat (index - first))
      else Ok None.

Definition append (l : RaftLog) (es : list Entry) : outcome RaftLog :=
  match es with
  | [] => Ok l
  | e0 :: _ =>
      let after := e_index e0 in
      if after <=? committed l then Panic
      else
        first ← first_index l;
        let kept :=
          if first <? after then take (Z.to_nat (Z.min (after - first)
                                                (Z.of_nat (length (entries l))))) (entries l)
          else entries l in
        Ok (set_entries (kept ++ es) l)
  end.

Definition maybe_compact (l : RaftLog) (compact_index : Z) : outcome RaftLog :=
  first ← first_index l;
  if compact_index <=? first then Ok l
  else if last_index l <? compact_index then Err "compact_index > last_index"
  else
    d ← u64_sub compact_index first;
    offset ← u64_add d 1;
    if offset <? Z.of_nat (length (entries l))
    then Ok (set_entries (drop (Z.to_nat offset) (entries l)) l)
    else Ok l.

Definition apply_snapshot (l : RaftLog) (s : Snapshot) : outcome RaftLog :=
  if Snapshot_is_empty s then Ok l
  else
    let i := snap_index s in
    if i <=? committed l then Err "snapshot index <= committed"
    else Ok {| log_storage := log_storage l; committed := i; applied := i; stabled := i;
               entries := []; pending_snapshot := Some s |}.

Definition take_pending_snapshot (l : RaftLog) : option Snapshot * RaftLog :=
  (pending_snapshot l,
   mkRaftLog (log_storage l) (committed l) (applied l) (stabled l) (entries l) None).

End ops.

(** ** The layout invariant *)

(** [es] are the entries of indices [f], [f+1], ... *)
Definition contiguous (f : Z) (es : list Entry) : Prop :=
  ∀ (i : nat) e, es !! i = Some e → e_index e = f + Z.of_nat i.

(** The first index, computed without machine arithmetic. *)
Definition first_of (l : RaftLog) : Z :=
  match active_snapshot l with
  | Some s => snap_index s + 1
  | None => match entries l with e :: _ => e_index e | [] => stabled l + 1 end
  end.

(** The entry the log holds at an index. *)
Definition entry_at (l : RaftLog) (i : Z) : option Entry :=
  if decide (first_of l ≤ i) then entries l !! Z.to_nat (i - first_of l) else None.

(** The layout of src/raft/log.rs when no snapshot is pending:
    applied <= committed <= last, the entries are contiguous, everything up
    to the first index is applied, and all indices fit in a [u64]. *)
Record log_wf (l : RaftLog) : Prop := {
  wf_no_snapshot : active_snapshot l = None;
  wf_contiguous : contiguous (first_of l) (entries l);
  wf_first : 1 ≤ first_of l ≤ applied l + 1;
  wf_applied : applied l ≤ committed l;
  wf_committed : committed l ≤ last_index l;
  wf_bound : last_index l < u64_max;
}.

Section facts.
Context `{prof : BuildProfile}.

Lemma contiguous_app f a b :
  contiguous f a → contiguous (f + Z.of_nat (length a)) b → contiguous f (a ++ b).
Proof.
  intros Ha Hb i e. destruct (decide (i < length a)%nat).
  - rewrite lookup_app_l by done. apply Ha.
  - rewrite lookup_app_r by lia. intros ?%Hb. lia.
Qed.

Lemma contiguous_take f n es : contiguous f es → contiguous f (take n es).
Proof. intros H i e [? _]%lookup_take_Some. by apply H. Qed.

Lemma contiguous_drop f n es :
  (n ≤ length es)%nat → contiguous f es → contiguous (f + Z.of_nat n) (drop n es).
Proof. intros Hn Hc i e. rewrite lookup_drop. intros ?%Hc. lia. Qed.

Lemma contiguous_cons f e es : contiguous f (e :: es) → e_index e = f.
Proof. intros Hc. specialize (Hc 0%nat e eq_refl). lia. Qed.

Lemma contiguous_last f es e :
  contiguous f es → last es = Some e → e_index e = f + Z.of_nat (length es) - 1.
Proof.
  intros Hc. rewrite last_lookup. intros Hl. rewrite (Hc _ _ Hl).
  apply lookup_lt_Some in Hl. lia.
Qed.

Lemma last_index_wf l :
  active_snapshot l = None → contiguous (first_of l) (entries l) →
  last_index l = first_of l + Z.of_nat (length (entries l)) - 1.
Proof.
  intros Hs Hc. unfold last_index. rewrite Hs. destruct (last (entries l)) as [e|] eqn:E.
  - by eapply contiguous_last.
  - apply last_None in E. unfold first_of. rewrite Hs, E. cbn. lia.
Qed.

Lemma first_index_wf l : log_wf l → first_index l = Ok (first_of l).
Proof.
  intros Hw. pose proof (last_index_wf l (wf_no_snapshot l Hw) (wf_contiguous l Hw)) as Hl.
  pose proof (wf_bound l Hw). pose proof (wf_first l Hw).
  unfold first_index, first_of in *. rewrite (wf_no_snapshot l Hw) in *.
  destruct (entries l) as [|e es]; [|done].
  cbn in Hl. apply u64_add_ok. unfold is_u64. lia.
Qed.

Lemma entry_at_index l i e : contiguous (first_of l) (entries l) →
  entry_at l i = Some e → e_index e = i.
Proof. unfold entry_at. case_decide; [|done]. intros Hc ->%Hc. lia. Qed.

Lemma entry_at_range l i :
  log_wf l → first_of l ≤ i ≤ last_index l → is_Some (entry_at l i).
Proof.
  intros Hw Hi. unfold entry_at. rewrite decide_True by lia. apply lookup_lt_is_Some.
  rewrite (last_index_wf l) in Hi by apply Hw. lia.
Qed.

(** The synchronous term lookup answers from memory exactly where the log
    has an entry, and 0 at index 0. *)
Lemma term_sync_wf l i :
  log_wf l → 0 ≤ i →
  term_sync l i = Ok (if decide (i = 0) then Some 0 else e_term <$> entry_at l i).
Proof.
  intros Hw Hi. unfold term_sync. case_decide as H0; [by subst|].
  destruct (Z.eqb_spec i 0); [done|]. rewrite (first_index_wf l Hw). cbn [mbind outcome_bind].
  pose proof (wf_first l Hw). unfold entry_at.
  destruct (Z.ltb_spec i (first_of l)); [by rewrite decide_False by lia|].
  rewrite decide_True by lia. pose proof (last_index_wf l (wf_no_snapshot l Hw) (wf_contiguous l Hw)).
  pose proof (wf_bound l Hw).
  rewrite u64_sub_ok by (unfold is_u64; lia). cbn [mbind outcome_bind].
  destruct (Z.eqb_spec i (first_of l - 1)); [lia|].
  destruct (Z.leb_spec i (last_index l)); [done|].
  rewrite lookup_ge_None_2 by lia. done.
Qed.

Lemma offset_after_wf l i :
  log_wf l → first_of l - 1 ≤ i ≤ last_index l → offset_after i l = Ok (i - first_of l + 1).
Proof.
  intros Hw Hi. unfold offset_after. rewrite (first_index_wf l Hw). cbn [mbind outcome_bind].
  pose proof (wf_first l Hw). pose proof (wf_bound l Hw).
  destruct (Z.leb_spec (first_of l) i).
  - rewrite u64_sub_ok by (unfold is_u64; lia). cbn [mbind outcome_bind].
    rewrite u64_add_ok by (unfold is_u64; lia). done.
  - f_equal. lia.
Qed.
End facts.

(** ** The operations on a well-formed log *)
Section spec.
Context `{prof : BuildProfile}.

Lemma take_min_length {A} (n : Z) (l : list A) :
  0 ≤ n → take (Z.to_nat (Z.min n (Z.of_nat (length l)))) l = take (Z.to_nat n) l.
Proof.
  intros Hn. destruct (Z.min_spec n (Z.of_nat (length l))) as [[? ->]|[? ->]]; [done|].
  rewrite !take_ge; [done|lia..].
Qed.

Lemma append_run l e0 es :
  log_wf l → committed l < e_index e0 → first_of l < e_index e0 ∨ entries l = [] →
  append l (e0 :: es)
  = Ok (set_entries (take (Z.to_nat (e_index e0 - first_of l)) (entries l) ++ e0 :: es) l).
Proof.
  intros Hw Hc Ha. unfold append.
  destruct (Z.leb_spec (e_index e0) (committed l)); [lia|].
  rewrite (first_index_wf l Hw). cbn [mbind outcome_bind].
  destruct (Z.ltb_spec (first_of l) (e_index e0)).
  - by rewrite take_min_length by lia.
  - destruct Ha as [?| ->]; [lia|]. by rewrite take_nil.
Qed.

Lemma first_of_set_entries l es e0 :
  active_snapshot l = None → head es = Some e0 → first_of (set_entries es l) = e_index e0.
Proof. unfold first_of, active_snapshot. cbn. intros -> ?. by destruct es; simplify_eq/=. Qed.

Lemma entry_at_set_entries l es i :
  first_of (set_entries es l) = first_of l →
  entry_at (set_entries es l) i
  = if decide (first_of l ≤ i) then es !! Z.to_nat (i - first_of l) else None.
Proof. unfold entry_at. by intros ->. Qed.

Lemma append_head l e0 es :
  log_wf l → e_index e0 ≤ last_index l + 1 → first_of l < e_index e0 ∨ entries l = [] →
  committed l < e_index e0 →
  first_of (set_entries (take (Z.to_nat (e_index e0 - first_of l)) (entries l) ++ e0 :: es) l)
  = first_of l.
Proof.
  intros Hw Hl Ha Hc. pose proof (last_index_wf l (wf_no_snapshot l Hw) (wf_contiguous l Hw)) as E.
  pose proof (wf_contiguous l Hw) as Hcont.
  destruct (entries l) as [|x xs] eqn:Hes.
  - rewrite take_nil. cbn [app]. erewrite first_of_set_entries by (apply Hw || done).
    cbn in E. destruct Ha as [?|_]; [lia|].
    unfold first_of. rewrite (wf_no_snapshot l Hw), Hes.
    unfold last_index in *. rewrite (wf_no_snapshot l Hw), Hes in *. cbn in *.
    pose proof (wf_committed l Hw). pose proof (wf_applied l Hw). pose proof (wf_first l Hw).
    unfold last_index in *. rewrite (wf_no_snapshot l Hw), Hes in *. cbn in *. lia.
  - destruct Ha as [Ha|?]; [|done].
    assert (∃ n, Z.to_nat (e_index e0 - first_of l) = S n) as [n ->].
    { exists (Z.to_nat (e_index e0 - first_of l - 1)). lia. }
    cbn [take app]. erewrite first_of_set_entries by (apply Hw || done).
    by eapply contiguous_cons.
Qed.

(** Appending a contiguous run of entries behind the committed prefix. *)
Lemma append_wf l e0 es :
  log_wf l → contiguous (e_index e0) (e0 :: es) →
  committed l < e_index e0 ≤ last_index l + 1 →
  first_of l < e_index e0 ∨ entries l = [] →
  e_index e0 + Z.of_nat (length es) < u64_max →
  ∃ l', append l (e0 :: es) = Ok l' ∧ log_wf l' ∧ first_of l' = first_of l ∧
    committed l' = committed l ∧ applied l' = applied l ∧
    last_index l' = e_index e0 + Z.of_nat (length es) ∧
    (∀ i, i < e_index e0 → entry_at l' i = entry_at l i) ∧
    (∀ k e, (e0 :: es) !! k = Some e → entry_at l' (e_index e0 + Z.of_nat k) = Some e).
Proof.
  intros Hw Hes Hc Ha Hb. rewrite append_run by (done || lia).
  pose proof (append_head l e0 es Hw (proj2 Hc) Ha (proj1 Hc)) as Hfirst.
  pose proof (last_index_wf l (wf_no_snapshot l Hw) (wf_contiguous l Hw)) as Hlast.
  pose proof (wf_first l Hw) as Hf. pose proof (wf_applied l Hw). pose proof (wf_committed l Hw).
  set (n := Z.to_nat (e_index e0 - first_of l)) in *.
  assert (length (take n (entries l)) = n) as Hn by (rewrite length_take; lia).
  set (l' := set_entries _ l) in *.
  assert (contiguous (first_of l') (entries l')) as Hcont.
  { rewrite Hfirst. cbn. apply contiguous_app; [apply contiguous_take, Hw|].
    rewrite Hn. unfold n. rewrite Z2Nat.id by lia.
    by replace (first_of l + (e_index e0 - first_of l)) with (e_index e0) by lia. }
  assert (active_snapshot l' = None) as Hs by (apply Hw).
  assert (last_index l' = e_index e0 + Z.of_nat (length es)) as Hl'.
  { rewrite last_index_wf by done. rewrite Hfirst. cbn. rewrite length_app, Hn. cbn. lia. }
  exists l'. split_and!; try done.
  - split; rewrite ?Hfirst, ?Hl'; cbn; try done; try lia. by rewrite Hfirst in Hcont.
  - intros i Hi. unfold l'. rewrite entry_at_set_entries by done. unfold entry_at.
    case_decide; [|done]. rewrite lookup_app_l by lia. apply lookup_take_lt. lia.
  - intros k e Hk. unfold l'. rewrite entry_at_set_entries, decide_True by (done || lia).
    rewrite lookup_app_r, Hn by lia. rewrite <- Hk. f_equal. lia.
Qed.

Lemma set_committed_wf l c :
  log_wf l → applied l ≤ c ≤ last_index l → log_wf (set_committed c l).
Proof.
  intros [] ?. change (first_of l) with (first_of (set_committed c l)) in *.
  change (last_index l) with (last_index (set_committed c l)) in *. by split; cbn; try lia.
Qed.

(** The entries handed out for application. *)
Lemma next_entries_wf l :
  log_wf l →
  next_entries l =
    if decide (committed l < last_index l)
    then Ok (take (Z.to_nat (committed l - applied l + 1))
                  (drop (Z.to_nat (applied l - first_of l + 1)) (entries l)))
    else Panic.
Proof.
  intros Hw. pose proof (wf_first l Hw). pose proof (wf_applied l Hw). pose proof (wf_committed l Hw).
  pose proof (last_index_wf l (wf_no_snapshot l Hw) (wf_contiguous l Hw)) as Hlast.
  unfold next_entries. rewrite !offset_after_wf by (done || lia). cbn [mbind outcome_bind].
  unfold zslice_incl, zslice. rewrite Z.min_l by lia. case_decide as Hd.
  - rewrite decide_True by lia. repeat f_equal. lia.
  - rewrite decide_False by lia. done.
Qed.

(** [RaftLog::append] on a well-formed log.  A contiguous batch that
    starts behind the committed prefix, not past the end and after the first
    entry (or on an empty log) is accepted: the log stays well formed, what
    lies before the batch is untouched, the batch is readable at its indices
    and nothing lies behind it. *)
Theorem append_correct l e0 es :
  log_wf l → contiguous (e_index e0) (e0 :: es) →
  committed l < e_index e0 ≤ last_index l + 1 →
  first_of l < e_index e0 ∨ entries l = [] →
  e_index e0 + Z.of_nat (length es) < u64_max →
  ∃ l', append l (e0 :: es) = Ok l' ∧ log_wf l' ∧ committed l' = committed l ∧
    last_index l' = e_index e0 + Z.of_nat (length es) ∧
    (∀ i, i < e_index e0 → entry_at l' i = entry_at l i) ∧
    (∀ k e, (e0 :: es) !! k = Some e → entry_at l' (e_index e0 + Z.of_nat k) = Some e).
Proof.
  intros Hw H1 H2 H3 H4. destruct (append_wf l e0 es Hw H1 H2 H3 H4) as (l' & ?).
  exists l'. tauto.
Qed.

(** A batch that replaces the log from its first index is not truncated
    against: the old entries stay in front of the new ones, so two entries
    carry the first index and the log is no longer well formed. *)
Theorem append_at_first_duplicates l e0 es :
  log_wf l → entries l ≠ [] → committed l < e_index e0 → e_index e0 = first_of l →
  ∃ l', append l (e0 :: es) = Ok l' ∧ entries l' = entries l ++ e0 :: es ∧ ¬ log_wf l'.
Proof.
  intros Hw Hne Hc Hf. unfold append. destruct (Z.leb_spec (e_index e0) (committed l)); [lia|].
  rewrite (first_index_wf l Hw). cbn [mbind outcome_bind].
  destruct (Z.ltb_spec (first_of l) (e_index e0)); [lia|].
  eexists. split_and!; [done|done|]. intros Hw'.
  destruct (entries l) as [|x xs] eqn:Hes; [done|]. cbn [app] in *.
  assert ((x :: xs ++ e0 :: es) !! length (x :: xs) = Some e0) as Hat.
  { by apply (list_lookup_middle (x :: xs)). }
  pose proof (wf_contiguous _ Hw' _ _ Hat) as Hi.
  erewrite first_of_set_entries in Hi by (apply Hw || done).
  pose proof (wf_contiguous l Hw) as Hx. rewrite Hes in Hx. apply contiguous_cons in Hx.
  cbn [length] in Hi. lia.
Qed.

(** [next_entries] hands out one entry too many.  On a well-formed log
    it returns the entries [applied+1 .. committed+1], the last of which is
    not committed; when the whole log is committed its slice is out of range
    and it panics. *)
Theorem next_entries_off_by_one l :
  log_wf l →
  match next_entries l with
  | Ok es => Z.of_nat (length es) = committed l - applied l + 1 ∧
             ∀ k, (k < length es)%nat → es !! k = entry_at l (applied l + 1 + Z.of_nat k)
  | Panic => committed l = last_index l
  | _ => False
  end.
Proof.
  intros Hw. rewrite next_entries_wf by done.
  pose proof (wf_first l Hw). pose proof (wf_applied l Hw). pose proof (wf_committed l Hw).
  pose proof (last_index_wf l (wf_no_snapshot l Hw) (wf_contiguous l Hw)) as Hlast.
  case_decide; [|lia]. rewrite length_take, length_drop. split; [lia|].
  intros k Hk. rewrite lookup_take_lt, lookup_drop by lia. unfold entry_at.
  rewrite decide_True by lia. f_equal. lia.
Qed.

(** [unstable_entries] returns exactly the entries behind the stable
    index. *)
Theorem unstable_entries_exact l :
  log_wf l → first_of l - 1 ≤ stabled l ≤ last_index l →
  ∃ es, unstable_entries l = Ok es ∧
    Z.of_nat (length es) = last_index l - stabled l ∧
    ∀ k, (k < length es)%nat → es !! k = entry_at l (stabled l + 1 + Z.of_nat k).
Proof.
  intros Hw Hs. unfold unstable_entries. rewrite offset_after_wf by done. cbn [mbind outcome_bind].
  pose proof (last_index_wf l (wf_no_snapshot l Hw) (wf_contiguous l Hw)) as Hlast.
  unfold zslice. rewrite decide_True by lia. eexists. split_and!; [done| |].
  - rewrite length_take, length_drop. lia.
  - intros k. rewrite length_take, length_drop. intros Hk.
    rewrite lookup_take_lt, lookup_drop by lia. unfold entry_at. rewrite decide_True by lia.
    f_equal. lia.
Qed.

(** Compaction keeps the log well formed and drops exactly the entries
    up to the compaction index, unless that index is the last one (then, or
    at or below the first index, the log is unchanged); an index past the end
    is an error. *)
Theorem maybe_compact_correct l c :
  log_wf l → c ≤ applied l ∨ last_index l < c →
  match maybe_compact l c with
  | Ok l' => log_wf l' ∧
      if decide (first_of l < c < last_index l)
      then first_of l' = c + 1 ∧ ∀ i, c < i → entry_at l' i = entry_at l i
      else l' = l
  | Err _ => last_index l < c
  | _ => False
  end.
Proof.
  intros Hw Hc. unfold maybe_compact. rewrite (first_index_wf l Hw). cbn [mbind outcome_bind].
  pose proof (wf_first l Hw). pose proof (wf_applied l Hw). pose proof (wf_committed l Hw).
  pose proof (wf_bound l Hw).
  pose proof (last_index_wf l (wf_no_snapshot l Hw) (wf_contiguous l Hw)) as Hlast.
  destruct (Z.leb_spec c (first_of l)); [rewrite decide_False by lia; done|].
  destruct (Z.ltb_spec (last_index l) c); [done|].
  rewrite u64_sub_ok by (unfold is_u64; lia). cbn [mbind outcome_bind].
  rewrite u64_add_ok by (unfold is_u64; lia). cbn [mbind outcome_bind].
  destruct (Z.ltb_spec (c - first_of l + 1) (Z.of_nat (length (entries l))));
    [rewrite decide_True by lia|rewrite decide_False by lia; done].
  set (n := Z.to_nat (c - first_of l + 1)).
  pose proof (contiguous_drop (first_of l) n (entries l) ltac:(lia) (wf_contiguous l Hw)) as Hd.
  destruct (drop n (entries l)) as [|e es] eqn:He.
  { apply (f_equal length) in He. rewrite length_drop in He. cbn in He. lia. }
  assert (first_of (set_entries (e :: es) l) = c + 1) as Hf.
  { erewrite first_of_set_entries by (apply Hw || done). apply contiguous_cons in Hd. lia. }
  replace (first_of l + Z.of_nat n) with (c + 1) in Hd by lia.
  assert (last_index (set_entries (e :: es) l) = last_index l) as Hl'.
  { rewrite last_index_wf; [|apply Hw|by rewrite Hf]. rewrite Hf. cbn [entries set_entries].
    apply (f_equal length) in He. rewrite length_drop in He. lia. }
  split_and!; [|done|].
  - split; rewrite ?Hf, ?Hl'; cbn; try done; try lia. apply Hw.
  - intros i Hi. unfold entry_at. rewrite Hf, !decide_True by lia. cbn [entries set_entries].
    rewrite <- He, lookup_drop. f_equal. lia.
Qed.

(** Installing a snapshot.  A snapshot at or below the commit index is
    refused and an empty one ignored; any other one moves the commit, applied
    and stable indices to its index, empties the log, and once the pending
    snapshot is taken the log is well formed and starts behind it. *)
Theorem apply_snapshot_correct l s :
  0 ≤ snap_index s < u64_max → 0 ≤ committed l →
  match apply_snapshot l s with
  | Ok l' =>
      if Snapshot_is_empty s then l' = l
      else committed l < snap_index s ∧ committed l' = snap_index s ∧
           last_index l' = snap_index s ∧ first_index l' = Ok (snap_index s + 1) ∧
           let l'' := (take_pending_snapshot l').2 in
           log_wf l'' ∧ first_of l'' = snap_index s + 1 ∧ entries l'' = []
  | Err _ => 0 < snap_index s ≤ committed l
  | _ => False
  end.
Proof.
  intros Hs Hc. unfold apply_snapshot.
  destruct (Snapshot_is_empty s) eqn:He; [done|].
  pose proof He as Hne. unfold Snapshot_is_empty in Hne. apply Z.eqb_neq in Hne.
  destruct (Z.leb_spec (snap_index s) (committed l)); [lia|].
  unfold last_index, first_index, active_snapshot. cbn. rewrite He.
  split_and!; try done.
  - apply u64_add_ok. unfold is_u64. lia.
  - split; unfold first_of, last_index, active_snapshot; cbn; try done; lia.
Qed.
End spec.

(** ** A log to evaluate on: entries 1 to 3, two of them committed, one
    applied. *)

Definition no_storage : RStorage :=
  {| st_initial_state := Err "unavailable"; st_entries := λ _ _, Err "unavailable";
     st_term := λ _, Err "unavailable"; st_last_index := Err "unavailable";
     st_first_index := Err "unavailable"; st_snapshot := Err "unavailable" |}.

Definition sample_log : RaftLog :=
  {| log_storage := no_storage; committed := 2; applied := 1; stabled := 2;
     entries := [Entry_new_normal 1 1 []; Entry_new_normal 1 2 []; Entry_new_normal 2 3 []];
     pending_snapshot := None |}.

(** The same log before anything was committed. *)
Definition fresh_log : RaftLog := set_applied 0 (set_committed 0 sample_log).

Fixpoint contiguousb (f : Z) (es : list Entry) : bool :=
  match es with [] => true | e :: es' => (e_index e =? f) && contiguousb (f + 1) es' end.

Lemma contiguousb_sound f es : contiguousb f es = true → contiguous f es.
Proof.
  revert f. induction es as [|e es IH]; intros f; [done|].
  cbn [contiguousb]. intros [H1%Z.eqb_eq H2%IH]%andb_prop [|i] x Hx; cbn in Hx.
  - injection Hx as ->. lia.
  - apply H2 in Hx. lia.
Qed.

Ltac solve_contiguous := apply contiguousb_sound; vm_compute; reflexivity.

Ltac solve_log_wf :=
  split; first [apply contiguousb_sound; by vm_compute | by vm_compute | by split; vm_compute].

Lemma sample_log_wf : log_wf sample_log.
Proof. solve_log_wf. Qed.
Lemma fresh_log_wf : log_wf fresh_log.
Proof. solve_log_wf. Qed.
#[export] Hint Resolve sample_log_wf fresh_log_wf : aegis.

Lemma append_correct_witness :
  ∃ l', append (prof := true) sample_log [Entry_new_normal 3 3 []; Entry_new_normal 3 4 []] = Ok l' ∧
    log_wf l' ∧ committed l' = 2 ∧ last_index l' = 4.
Proof.
  edestruct (append_correct (prof := true) sample_log (Entry_new_normal 3 3 [])
    [Entry_new_normal 3 4 []]) as (l' & H1 & H2 & H3 & H4 & _);
    [exact sample_log_wf|solve_contiguous|by vm_compute|left; by vm_compute|by vm_compute|].
  exists l'. split; [exact H1|]. split; [exact H2|]. split; [exact H3|exact H4].
Defined.

Lemma append_at_first_duplicates_witness :
  ∃ l', append (prof := true) fresh_log [Entry_new_normal 2 1 []] = Ok l' ∧ ¬ log_wf l'.
Proof.
  edestruct (append_at_first_duplicates (prof := true) fresh_log (Entry_new_normal 2 1 []) [])
    as (l' & H1 & H2 & H3); [exact fresh_log_wf|discriminate|by vm_compute|reflexivity|].
  exists l'. split; [exact H1|exact H3].
Defined.

Lemma next_entries_off_by_one_witness :
  next_entries (prof := true) sample_log
  = Ok [Entry_new_normal 1 2 []; Entry_new_normal 2 3 []] ∧
  match next_entries (prof := true) sample_log with
  | Ok es => Z.of_nat (length es) = committed sample_log - applied sample_log + 1
  | _ => True
  end.
Proof.
  split; [by vm_compute|].
  pose proof (next_entries_off_by_one (prof := true) sample_log sample_log_wf) as H.
  destruct (next_entries (prof := true) sample_log); [exact (proj1 H)|exact I..].
Defined.

Lemma unstable_entries_exact_witness :
  ∃ es, unstable_entries (prof := true) sample_log = Ok es ∧ Z.of_nat (length es) = 1.
Proof.
  edestruct (unstable_entries_exact (prof := true) sample_log) as (es & H1 & H2 & _);
    [exact sample_log_wf|by split; vm_compute|].
  exists es. split; [exact H1|exact H2].
Defined.

Lemma maybe_compact_correct_witness :
  match maybe_compact (prof := true) (set_applied 2 sample_log) 2 with
  | Ok l' => log_wf l' ∧ first_of l' = 3
  | _ => False
  end.
Proof.
  assert (log_wf (set_applied 2 sample_log)) as Hw by solve_log_wf.
  assert (2 ≤ applied (set_applied 2 sample_log)) as Ha by (by vm_compute).
  pose proof (maybe_compact_correct (prof := true) (set_applied 2 sample_log) 2 Hw
    (or_introl Ha)) as H.
  revert H. cbn. intros H. split; [exact (proj1 H)|reflexivity].
Defined.

Lemma apply_snapshot_correct_witness :
  match apply_snapshot sample_log (mkSnapshot [] (mkSnapshotMetadata (mkConfState [1]) 7 2)) with
  | Ok l' => last_index l' = 7 ∧ log_wf (take_pending_snapshot l').2
  | _ => False
  end.
Proof.
  pose proof (apply_snapshot_correct (prof := true) sample_log
    (mkSnapshot [] (mkSnapshotMetadata (mkConfState [1]) 7 2))
    ltac:(by split; vm_compute) ltac:(by vm_compute)) as H.
  revert H. cbn. intros H. split; [reflexivity|tauto].
Defined.

#[global] Arguments append : simpl never.
#[global] Arguments term_sync : simpl never.
#[global] Arguments term : simpl never.
