(* ===== verification/Raft.v ===== *)
(** The Raft state machine, [Raft] of src/raft/raft.rs: ticking, stepping a
    message in each role, elections, log replication, the commit rule and
    membership.

    The file has every message handler twice, once synchronous (terms are
    looked up in memory) and once asynchronous (terms may come from storage).
    The two bodies differ in those lookups only; each pair is one definition
    over a [lookup] and two instances of it. *)

From stdpp Require Import sorting.
From S2P Require Import Prelude Bytes RaftTypes RaftLog.

Section raft.
Context `{prof : BuildProfile} `{order : HashOrder} `{rand : RandomSource}.

Record Raft := mkRaft {
  r_id : Z;
  r_term : Z;
  r_vote : Z;
  r_log : RaftLog;
  r_prs : gmap Z Progress;
  r_state : StateType;
  r_votes : gmap Z bool;
  r_msgs : list Message;
  r_lead : Z;
  r_heartbeat_timeout : Z;
  r_election_timeout : Z;
  r_heartbeat_elapsed : Z;
  r_election_elapsed : Z;
  r_random_election_timeout : Z;
  r_rng : rng;
}.

Definition set_term (x : Z) (r : Raft) : Raft :=
  mkRaft (r_id r) x (r_vote r) (r_log r) (r_prs r) (r_state r) (r_votes r) (r_msgs r) (r_lead r) (r_heartbeat_timeout r) (r_election_timeout r) (r_heartbeat_elapsed r) (r_election_elapsed r) (r_random_election_timeout r) (r_rng r).
Definition set_vote (x : Z) (r : Raft) : Raft :=
  mkRaft (r_id r) (r_term r) x (r_log r) (r_prs r) (r_state r) (r_votes r) (r_msgs r) (r_lead r) (r_heartbeat_timeout r) (r_election_timeout r) (r_heartbeat_elapsed r) (r_election_elapsed r) (r_random_election_timeout r) (r_rng r).
Definition set_log (x : RaftLog) (r : Raft) : Raft :=
  mkRaft (r_id r) (r_term r) (r_vote r) x (r_prs r) (r_state r) (r_votes r) (r_msgs r) (r_lead r) (r_heartbeat_timeout r) (r_election_timeout r) (r_heartbeat_elapsed r) (r_election_elapsed r) (r_random_election_timeout r) (r_rng r).
Definition set_prs (x : gmap Z Progress) (r : Raft) : Raft :=
  mkRaft (r_id r) (r_term r) (r_vote r) (r_log r) x (r_state r) (r_votes r) (r_msgs r) (r_lead r) (r_heartbeat_timeout r) (r_election_timeout r) (r_heartbeat_elapsed r) (r_election_elapsed r) (r_random_election_timeout r) (r_rng r).
Definition set_state (x : StateType) (r : Raft) : Raft :=
  mkRaft (r_id r) (r_term r) (r_vote r) (r_log r) (r_prs r) x (r_votes r) (r_msgs r) (r_lead r) (r_heartbeat_timeout r) (r_election_timeout r) (r_heartbeat_elapsed r) (r_election_elapsed r) (r_random_election_timeout r) (r_rng r).
Definition set_votes (x : gmap Z bool) (r : Raft) : Raft :=
  mkRaft (r_id r) (r_term r) (r_vote r) (r_log r) (r_prs r) (r_state r) x (r_msgs r) (r_lead r) (r_heartbeat_timeout r) (r_election_timeout r) (r_heartbeat_elapsed r) (r_election_elapsed r) (r_random_election_timeout r) (r_rng r).
Definition set_msgs (x : list Message) (r : Raft) : Raft :=
  mkRaft (r_id r) (r_term r) (r_vote r) (r_log r) (r_prs r) (r_state r) (r_votes r) x (r_lead r) (r_heartbeat_timeout r) (r_election_timeout r) (r_heartbeat_elapsed r) (r_election_elapsed r) (r_random_election_timeout r) (r_rng r).
Definition set_lead (x : Z) (r : Raft) : Raft :=
  mkRaft (r_id r) (r_term r) (r_vote r) (r_log r) (r_prs r) (r_state r) (r_votes r) (r_msgs r) x (r_heartbeat_timeout r) (r_election_timeout r) (r_heartbeat_elapsed r) (r_election_elapsed r) (r_random_election_timeout r) (r_rng r).
Definition set_heartbeat_elapsed (x : Z) (r : Raft) : Raft :=
  mkRaft (r_id r) (r_term r) (r_vote r) (r_log r) (r_prs r) (r_state r) (r_votes r) (r_msgs r) (r_lead r) (r_heartbeat_timeout r) (r_election_timeout r) x (r_election_elapsed r) (r_random_election_timeout r) (r_rng r).
Definition set_election_elapsed (x : Z) (r : Raft) : Raft :=
  mkRaft (r_id r) (r_term r) (r_vote r) (r_log r) (r_prs r) (r_state r) (r_votes r) (r_msgs r) (r_lead r) (r_heartbeat_timeout r) (r_election_timeout r) (r_heartbeat_elapsed r) x (r_random_election_timeout r) (r_rng r).
Definition set_random_election_timeout (x : Z) (r : Raft) : Raft :=
  mkRaft (r_id r) (r_term r) (r_vote r) (r_log r) (r_prs r) (r_state r) (r_votes r) (r_msgs r) (r_lead r) (r_heartbeat_timeout r) (r_election_timeout r) (r_heartbeat_elapsed r) (r_election_elapsed r) x (r_rng r).
Definition set_rng (x : rng) (r : Raft) : Raft :=
  mkRaft (r_id r) (r_term r) (r_vote r) (r_log r) (r_prs r) (r_state r) (r_votes r) (r_msgs r) (r_lead r) (r_heartbeat_timeout r) (r_election_timeout r) (r_heartbeat_elapsed r) (r_election_elapsed r) (r_random_election_timeout r) x.

(** [self.msgs.push(m)] *)
Definition send (m : Message) : M Raft unit :=
  modify (λ r, set_msgs (r_msgs r ++ [m]) r).

(** A call of a method of [self.raft_log]. *)
Definition log_read {A} (f : RaftLog → outcome A) : M Raft A :=
  r ← get; lift (f (r_log r)).
Definition log_update (f : RaftLog → outcome RaftLog) : M Raft unit :=
  r ← get; l ← lift (f (r_log r)); modify (set_log l).

(** [rng.gen_range(self.election_timeout..=self.election_timeout * 2)] *)
Definition reset_random_timeout : M Raft unit :=
  r ← get;
  hi ← lift (u64_mul (r_election_timeout r) 2);
  let '(t, g) := gen_range (r_rng r) (r_election_timeout r) hi in
  modify (λ r, set_rng g (set_random_election_timeout t r)).

(** ** Roles *)

Definition become_follower (term lead : Z) : M Raft unit :=
  modify (λ r, set_election_elapsed 0 (set_votes ∅ (set_vote NONE (set_state Follower
                 (set_lead lead (set_term term r))))));;
  reset_random_timeout.

Definition become_candidate : M Raft unit :=
  r ← get;
  t ← lift (u64_add (r_term r) 1);
  modify (λ r, set_election_elapsed 0 (set_lead NONE (set_votes {[ r_id r := true ]}
                 (set_vote (r_id r) (set_state Candidate (set_term t r))))));;
  reset_random_timeout.

(** [(self.prs.len() + 1) / 2 + 1] *)
Definition quorum (r : Raft) : nat := ((size (r_prs r) + 1) / 2 + 1)%nat.

(** ** Term lookups of the two flavours *)

Inductive lookup := Sync | Async.

(** [term_sync(i).ok_or_else(..)?] / [term(i).await?] *)
Definition term_or_fail (k : lookup) (i : Z) (l : RaftLog) : outcome Z :=
  match k with
  | Sync => o ← RaftLog.term_sync l i; ok_or "cannot get term for index" o
  | Async => RaftLog.term l i
  end.

(** [term_sync(i).unwrap_or(0)] / [term(i).await.unwrap_or(0)] *)
Definition term_or_0 (k : lookup) (i : Z) (l : RaftLog) : outcome Z :=
  match k with
  | Sync => o ← RaftLog.term_sync l i; Ok (default 0 o)
  | Async => unwrap_or 0 (RaftLog.term l i)
  end.

(** [term_sync(i).unwrap_or(0)] / [term(i).await?] *)
Definition term_0_or_fail (k : lookup) (i : Z) (l : RaftLog) : outcome Z :=
  match k with
  | Sync => o ← RaftLog.term_sync l i; Ok (default 0 o)
  | Async => RaftLog.term l i
  end.

(** ** Sending *)

Definition send_append_in (k : lookup) (to : Z) : M Raft unit :=
  r ← get;
  match r_prs r !! to with
  | None => mret tt
  | Some progress =>
      let next := next_index progress in
      let last := last_index (r_log r) in
      last1 ← lift (u64_add last 1);
      if last1 <? next then mret tt
      else
        es ← (if next <=? last then
                first ← log_read first_index;
                start ← lift (u64_sub next first);
                n ← lift (u64_sub last first);
                fin ← lift (u64_add n 1);
                let all := all_entries (r_log r) in
                lift (zslice start (Z.min fin (Z.of_nat (length all))) all)
              else mret []);
        prev_log_term ← (if 0 <? next then
                           prev ← lift (u64_sub next 1); log_read (term_or_0 k prev)
                         else mret 0);
        prev ← lift (u64_sub next 1);
        send (log_message MsgAppend to (r_id r) (r_term r) prev_log_term prev es
                          (committed (r_log r)))
  end.
Definition send_append : Z → M Raft unit := send_append_in Sync.
Definition send_append_async : Z → M Raft unit := send_append_in Async.

Definition send_heartbeat (to : Z) : M Raft unit :=
  r ← get;
  send (log_message MsgHeartbeat to (r_id r) (r_term r) 0 0 [] (committed (r_log r))).

(** [for peer_id in peer_ids { if peer_id != self.id { f(peer_id)?; } }] *)
Definition for_each_peer (f : Z → M Raft unit) : M Raft unit :=
  r ← get;
  for_each (hash_keys (r_prs r)) (λ p, if decide (p ≠ r_id r) then f p else mret tt).

Definition bcast_append : M Raft unit := for_each_peer send_append.
Definition bcast_append_async : M Raft unit := for_each_peer send_append_async.
Definition bcast_heartbeat : M Raft unit := for_each_peer send_heartbeat.

(** ** Committing *)

(** The match indices of the peers, greatest first. *)
Definition sorted_matches (r : Raft) : list Z :=
  reverse (merge_sort Z.le (match_index <$> hash_values (r_prs r))).

Definition maybe_commit_in (k : lookup) : M Raft unit :=
  r ← get;
  if decide (r_state r ≠ Leader) then mret tt
  else
    let matches := sorted_matches r in
    let q := quorum r in
    if (q <=? length matches)%nat then
      commit_index ← lift (index matches (q - 1));
      if committed (r_log r) <? commit_index then
        t ← log_read (term_0_or_fail k commit_index);
        if t =? r_term r then log_update (λ l, Ok (set_committed commit_index l)) else mret tt
      else mret tt
    else mret tt.
Definition maybe_commit : M Raft unit := maybe_commit_in Sync.
Definition maybe_commit_async : M Raft unit := maybe_commit_in Async.

(** ** Elections *)

Definition become_leader : M Raft unit :=
  modify (λ r, set_heartbeat_elapsed 0 (set_lead (r_id r) (set_state Leader r)));;
  r ← get;
  let last := last_index (r_log r) in
  next ← (if decide (r_prs r = ∅) then mret last else lift (u64_add last 1));
  modify (set_prs ((λ _, {| match_index := 0; next_index := next |}) <$> r_prs r));;
  next ← lift (u64_add last 1);
  log_update (λ l, append l [Entry_new_normal (r_term r) next []]);;
  ignore_err bcast_append.

Definition campaign_in (k : lookup) : M Raft unit :=
  become_candidate;;
  r ← get;
  if decide (quorum r = 1%nat) then become_leader
  else
    let last := last_index (r_log r) in
    last_term ← log_read (term_or_fail k last);
    for_each_peer (λ p,
      send (log_message MsgRequestVote p (r_id r) (r_term r) last_term last [] 0)).
Definition campaign : M Raft unit := campaign_in Sync.
Definition campaign_async : M Raft unit := campaign_in Async.

Definition handle_request_vote_in (k : lookup) (m : Message) : M Raft unit :=
  r ← get;
  if msg_term m <? r_term r then
    send (reply_message MsgRequestVoteResponse (msg_from m) (r_id r) (r_term r) true 0)
  else
    (if r_term r <? msg_term m then become_follower (msg_term m) NONE else mret tt);;
    r ← get;
    let can_vote := (r_vote r =? NONE) || (r_vote r =? msg_from m) in
    let last := last_index (r_log r) in
    last_term ← log_read (term_0_or_fail k last);
    let log_ok := (last_term <? msg_log_term m)
                  || ((msg_log_term m =? last_term) && (last <=? msg_index m)) in
    if can_vote && log_ok then
      modify (λ r, set_election_elapsed 0 (set_vote (msg_from m) r));;
      send (reply_message MsgRequestVoteResponse (msg_from m) (r_id r) (r_term r) false 0)
    else
      send (reply_message MsgRequestVoteResponse (msg_from m) (r_id r) (r_term r) true 0).
Definition handle_request_vote : Message → M Raft unit := handle_request_vote_in Sync.
Definition handle_request_vote_async : Message → M Raft unit := handle_request_vote_in Async.

(** How many recorded votes have the value [v]. *)
Definition count_votes (v : bool) (r : Raft) : nat :=
  length (filter (λ x, x = v) (hash_values (r_votes r))).

Definition handle_request_vote_response (m : Message) : M Raft unit :=
  r ← get;
  if decide (msg_term m ≠ r_term r ∨ r_state r ≠ Candidate) then mret tt
  else
    modify (λ r, set_votes (<[msg_from m := negb (msg_reject m)]> (r_votes r)) r);;
    r ← get;
    let granted := count_votes true r in
    let rejected := count_votes false r in
    let q := quorum r in
    if (q <=? granted)%nat then become_leader
    else if (q <=? rejected)%nat then become_follower (r_term r) NONE
    else mret tt.

(** ** Replication *)

Definition handle_append_entries_in (k : lookup) (m : Message) : M Raft unit :=
  r ← get;
  if msg_term m <? r_term r then
    send (reply_message MsgAppendResponse (msg_from m) (r_id r) (r_term r) true 0)
  else
    (if r_term r <? msg_term m then modify (set_term (msg_term m)) else mret tt);;
    modify (set_lead (msg_from m));;
    r ← get;
    let last := last_index (r_log r) in
    if last <? msg_index m then
      send (reply_message MsgAppendResponse (msg_from m) (r_id r) (r_term r) true last)
    else
      mismatch ← (if 0 <? msg_index m then
                    t ← log_read (term_or_fail k (msg_index m));
                    mret (bool_decide (t ≠ msg_log_term m))
                  else mret false);
      if mismatch : bool then
        prev ← lift (u64_sub (msg_index m) 1);
        send (reply_message MsgAppendResponse (msg_from m) (r_id r) (r_term r) true prev)
      else
        log_update (λ l, append l (msg_entries m));;
        log_update (λ l, Ok (if committed l <? msg_commit m
                             then set_committed (Z.min (msg_commit m) (last_index l)) l else l));;
        r ← get;
        send (reply_message MsgAppendResponse (msg_from m) (r_id r) (r_term r) false
                            (last_index (r_log r))).
Definition handle_append_entries : Message → M Raft unit := handle_append_entries_in Sync.
Definition handle_append_entries_async : Message → M Raft unit := handle_append_entries_in Async.

Definition handle_heartbeat (m : Message) : M Raft unit :=
  r ← get;
  if msg_term m <? r_term r then mret tt
  else
    (if r_term r <? msg_term m then modify (set_term (msg_term m)) else mret tt);;
    modify (set_lead (msg_from m));;
    log_update (λ l, Ok (if committed l <? msg_commit m
                         then set_committed (Z.min (msg_commit m) (last_index l)) l else l));;
    r ← get;
    send (reply_message MsgHeartbeatResponse (msg_from m) (r_id r) (r_term r) false 0).

Definition handle_snapshot (m : Message) : M Raft unit :=
  match msg_snapshot m with
  | None => mret tt
  | Some s =>
      r ← get;
      if snap_index s <=? committed (r_log r) then mret tt
      else
        log_update (λ l, RaftLog.apply_snapshot l s);;
        r ← get;
        send (reply_message MsgAppendResponse (msg_from m) (r_id r) (r_term r) false
                            (last_index (r_log r)))
  end.

Definition handle_append_response_in (k : lookup) (m : Message) : M Raft unit :=
  r ← get;
  if msg_term m <? r_term r then mret tt
  else
    match r_prs r !! msg_from m with
    | None => mret tt
    | Some p =>
        p' ← lift (if msg_reject m then decrease_next p (msg_index m)
                   else update_match p (msg_index m));
        modify (λ r, set_prs (<[msg_from m := p']> (r_prs r)) r)
    end;;
    (if msg_reject m then mret tt else maybe_commit_in k);;
    r ← get;
    match r_prs r !! msg_from m with
    | None => mret tt
    | Some p =>
        if msg_reject m then send_append_in k (msg_from m)
        else if next_index p <=? last_index (r_log r) then send_append_in k (msg_from m)
        else mret tt
    end.
Definition handle_append_response : Message → M Raft unit := handle_append_response_in Sync.
Definition handle_append_response_async : Message → M Raft unit := handle_append_response_in Async.

Definition handle_heartbeat_response_in (k : lookup) (m : Message) : M Raft unit :=
  r ← get;
  if msg_term m <? r_term r then mret tt
  else
    match r_prs r !! msg_from m with
    | None => mret tt
    | Some p =>
        if next_index p <=? last_index (r_log r) then send_append_in k (msg_from m) else mret tt
    end.
Definition handle_heartbeat_response : Message → M Raft unit := handle_heartbeat_response_in Sync.
Definition handle_heartbeat_response_async : Message → M Raft unit :=
  handle_heartbeat_response_in Async.

(** The entries of a proposal, renumbered behind the log and stamped with
    the leader's term. *)
Fixpoint renumber (term last : Z) (i : Z) (es : list Entry) : outcome (list Entry) :=
  match es with
  | [] => Ok []
  | e :: es' =>
      b ← u64_add last 1;
      idx ← u64_add b i;
      rest ← renumber term last (i + 1) es';
      Ok ((if decide (e_type e = EntryConfChange) then Entry_new_conf_change term idx (e_data e)
           else Entry_new_normal term idx (e_data e)) :: rest)
  end.

(** ** Stepping *)

Definition step_follower_in (k : lookup) (m : Message) : M Raft unit :=
  match msg_type m with
  | MsgHup => campaign_in k
  | MsgBeat | MsgPropose =>
      r ← get;
      if decide (r_lead r ≠ NONE) then send (set_msg_to (r_lead r) m) else mret tt
  | MsgAppend => modify (set_election_elapsed 0);; handle_append_entries_in k m
  | MsgHeartbeat => modify (set_election_elapsed 0);; handle_heartbeat m
  | MsgSnapshot => modify (set_election_elapsed 0);; handle_snapshot m
  | MsgRequestVote => handle_request_vote_in k m
  | _ => mret tt
  end.
Definition step_follower : Message → M Raft unit := step_follower_in Sync.
Definition step_follower_async : Message → M Raft unit := step_follower_in Async.

Definition step_candidate_in (k : lookup) (m : Message) : M Raft unit :=
  match msg_type m with
  | MsgHup => campaign_in k
  | MsgPropose => mret tt
  | MsgAppend => become_follower (msg_term m) (msg_from m);; handle_append_entries_in k m
  | MsgHeartbeat => become_follower (msg_term m) (msg_from m);; handle_heartbeat m
  | MsgSnapshot => become_follower (msg_term m) (msg_from m);; handle_snapshot m
  | MsgRequestVote => handle_request_vote_in k m
  | MsgRequestVoteResponse => handle_request_vote_response m
  | _ => mret tt
  end.
Definition step_candidate : Message → M Raft unit := step_candidate_in Sync.
Definition step_candidate_async : Message → M Raft unit := step_candidate_in Async.

Definition step_leader_in (k : lookup) (m : Message) : M Raft unit :=
  match msg_type m with
  | MsgBeat => bcast_heartbeat
  | MsgPropose =>
      r ← get;
      es ← lift (renumber (r_term r) (last_index (r_log r)) 0 (msg_entries m));
      log_update (λ l, append l es);;
      maybe_commit_in k;;
      for_each_peer (send_append_in k)
  | MsgAppendResponse => handle_append_response_in k m
  | MsgHeartbeatResponse => handle_heartbeat_response_in k m
  | MsgRequestVote => handle_request_vote_in k m
  | MsgSnapshot => become_follower (msg_term m) (msg_from m);; handle_snapshot m
  | _ => mret tt
  end.
Definition step_leader : Message → M Raft unit := step_leader_in Sync.
Definition step_leader_async : Message → M Raft unit := step_leader_in Async.

Definition step_in (k : lookup) (m : Message) : M Raft unit :=
  r ← get;
  (if r_term r <? msg_term m then
     if decide (msg_type m = MsgRequestVote ∨ msg_type m = MsgAppend)
     then become_follower (msg_term m) NONE
     else become_follower (msg_term m) (msg_from m)
   else mret tt);;
  r ← get;
  match r_state r with
  | Follower => step_follower_in k m
  | Candidate => step_candidate_in k m
  | Leader => step_leader_in k m
  end.
Definition step : Message → M Raft unit := step_in Sync.
Definition step_async : Message → M Raft unit := step_in Async.

Definition tick : M Raft unit :=
  r ← get;
  match r_state r with
  | Leader =>
      e ← lift (u64_add (r_heartbeat_elapsed r) 1);
      modify (set_heartbeat_elapsed e);;
      if r_heartbeat_timeout r <=? e then
        modify (set_heartbeat_elapsed 0);; ignore_err (step (local_message MsgBeat (r_id r) []))
      else mret tt
  | Follower | Candidate =>
      e ← lift (u64_add (r_election_elapsed r) 1);
      modify (set_election_elapsed e);;
      if r_random_election_timeout r <=? e then
        modify (set_election_elapsed 0);; ignore_err (step (local_message MsgHup (r_id r) []))
      else mret tt
  end.

(** ** Membership *)

Definition add_node (id : Z) : M Raft unit :=
  r ← get;
  if decide (id = r_id r) then mret tt
  else if decide (is_Some (r_prs r !! id)) then mret tt
  else
    next ← lift (u64_add (last_index (r_log r)) 1);
    modify (λ r, set_prs (<[id := Progress_new next]> (r_prs r)) r).

Definition remove_node (id : Z) : M Raft unit :=
  r ← get;
  if decide (id = r_id r) then mret tt
  else
    modify (λ r, set_prs (delete id (r_prs r)) r);;
    r ← get;
    if decide (r_state r = Leader) then ignore_err maybe_commit else mret tt.

(** ** Construction *)

(** [for &peer_id in peers { if peer_id != id { prs.insert(..) } }] *)
Fixpoint insert_peers (id last : Z) (peers : list Z) (prs : gmap Z Progress)
  : outcome (gmap Z Progress) :=
  match peers with
  | [] => Ok prs
  | p :: peers' =>
      if decide (p ≠ id) then
        next ← u64_add last 1; insert_peers id last peers' (<[p := Progress_new next]> prs)
      else insert_peers id last peers' prs
  end.

Definition Raft_new (config : RaftConfig) (g : rng) : outcome Raft :=
  _ ← RaftConfig_validate config;
  let storage := cfg_storage config in
  '(hard_state, conf_state) ← st_initial_state storage;
  l0 ← RaftLog_new storage;
  let l := set_applied (cfg_applied config) l0 in
  let last := last_index l in
  prs ← insert_peers (cfg_id config) last (cfg_peers config) ∅;
  prs ← (if decide (prs = ∅ ∧ cs_nodes conf_state ≠ [])
         then insert_peers (cfg_id config) last (cs_nodes conf_state) prs else Ok prs);
  hi ← u64_mul (cfg_election_tick config) 2;
  let '(t, g) := gen_range g (cfg_election_tick config) hi in
  Ok {| r_id := cfg_id config; r_term := hs_term hard_state; r_vote := hs_vote hard_state;
        r_log := l; r_prs := prs; r_state := Follower; r_votes := ∅; r_msgs := [];
        r_lead := NONE; r_heartbeat_timeout := cfg_heartbeat_tick config;
        r_election_timeout := cfg_election_tick config; r_heartbeat_elapsed := 0;
        r_election_elapsed := 0; r_random_election_timeout := t; r_rng := g |}.

(** ** Renumbering *)

(** Renumbered entries are contiguous behind the log; each keeps its type and
    payload and carries the leader's term. *)
Lemma renumber_spec t last i es :
  0 ≤ last → 0 ≤ i → last + 1 + i + Z.of_nat (length es) ≤ u64_max →
  ∃ es', renumber t last i es = Ok es' ∧ contiguous (last + 1 + i) es' ∧
    length es' = length es ∧
    ∀ n e, es !! n = Some e →
      es' !! n = Some {| e_type := e_type e; e_term := t;
                         e_index := last + 1 + i + Z.of_nat n; e_data := e_data e |}.
Proof.
  intros H0. revert i. induction es as [|e es IH]; intros i Hi Hb; cbn [renumber length] in *.
  { by exists []. }
  rewrite u64_add_ok by (unfold is_u64; lia). cbn [mbind outcome_bind].
  rewrite u64_add_ok by (unfold is_u64; lia). cbn [mbind outcome_bind].
  destruct (IH (i + 1)) as (rest & -> & Hc & Hl & Hnth); [lia..|]. cbn [mbind outcome_bind].
  eexists. split; [done|]. split_and!.
  - intros [|n] x Hx; cbn in Hx; [|apply Hc in Hx; lia]. case_decide; simplify_eq/=; lia.
  - cbn. lia.
  - intros [|n] x Hx; cbn in Hx.
    + injection Hx as ->. cbn. rewrite Z.add_0_r.
      case_decide as Ht; [by rewrite Ht|by destruct (e_type x)].
    + etrans; [exact (Hnth _ _ Hx)|].
      by replace (last + 1 + (i + 1) + Z.of_nat n) with (last + 1 + i + Z.of_nat (S n)) by lia.
Qed.

End raft.
