(* ===== verification/RaftSafety.v ===== *)
(** What the Raft component guarantees: how the term, the vote, the role and
    the commit index evolve over one step, that leadership takes a majority,
    when the commit index moves, and that committed entries are never
    overwritten; with the places where the code departs from Raft. *)

From stdpp Require Import sorting.
From S2P Require Import Prelude Bytes RaftTypes RaftLog Raft.

Section safety.
Context `{prof : BuildProfile} `{order : HashOrder} `{rand : RandomSource}.
Implicit Types (r : Raft) (m : Message) (k : lookup).

(** ** Frames: which part of the state a call can touch *)

(** The protocol state: everything but clocks, outgoing messages and the
    random generator. *)
Definition core r :=
  (r_id r, r_term r, r_vote r, r_log r, r_prs r, r_state r, r_votes r, r_lead r).

(** Solve the pure side conditions of a frame lemma. *)
Ltac frame := repeat first [progress wp_step | case_match | case_decide | done].

Lemma core_send m r : ends (send m) (λ r', core r' = core r) r.
Proof. done. Qed.

Lemma core_log_read {A} (f : RaftLog → outcome A) r : (log_read f r).2 = r.
Proof. done. Qed.

Lemma wp_log_read {A} (f : RaftLog → outcome A) Q E r :
  (∀ a, f (r_log r) = Ok a → Q a r) → E r → wp (log_read f) Q E r.
Proof. intros HQ HE. unfold log_read. do 2 wp_step. by apply wp_lift. Qed.

Lemma wp_log_update f Q E r :
  (∀ l, f (r_log r) = Ok l → Q tt (set_log l r)) → E r → wp (log_update f) Q E r.
Proof. intros HQ HE. unfold log_update. do 3 wp_step. apply wp_lift; [|done].
  intros l Hl. wp_step. auto. Qed.

Lemma wp_send_append k to r :
  wp (send_append_in k to) (λ _ r', core r' = core r) (λ r', core r' = core r) r.
Proof.
  unfold send_append_in. wp_step. wp_step. case_match; [|done].
  wp_step. wp_step; [|done]. case_match; [done|].
  wp_step. eapply (wp_mono _ (λ _ r', r' = r) _ (λ r', r' = r)); [| |naive_solver].
  { case_match; [|done]. wp_step. apply wp_log_read; [|done]. intros ??. frame. }
  intros es ? ->. wp_step.
  eapply (wp_mono _ (λ _ r', r' = r) _ (λ r', r' = r)); [| |naive_solver].
  { case_match; [|done]. wp_step. wp_step; [|done]. by apply wp_log_read. }
  intros t ? ->. wp_step. by wp_step.
Qed.

Lemma wp_for_each_peer (f : Z → M Raft unit) r :
  (∀ p r0, wp (f p) (λ _ r', core r' = core r0) (λ r', core r' = core r0) r0) →
  wp (for_each_peer f) (λ _ r', core r' = core r) (λ r', core r' = core r) r.
Proof.
  intros Hf. unfold for_each_peer. wp_step. wp_step.
  apply (wp_for_each (λ r', core r' = core r)); [done|]. intros p r0 _ Hr.
  case_decide; [|done]. eapply wp_mono; [apply Hf|cbn; congruence..].
Qed.

Lemma wp_become_follower term lead r :
  let post r' := core r' = (r_id r, term, NONE, r_log r, r_prs r, Follower, ∅, lead) in
  wp (become_follower term lead) (λ _, post) post r.
Proof.
  cbn. unfold become_follower, reset_random_timeout. frame.
Qed.

Lemma wp_become_candidate r :
  is_u64 (r_term r + 1) →
  let post r' := core r' = (r_id r, r_term r + 1, r_id r, r_log r, r_prs r, Candidate,
                            {[ r_id r := true ]}, NONE) in
  wp become_candidate (λ _, post) post r.
Proof.
  intros Ht. unfold become_candidate, reset_random_timeout.
  wp_step. wp_step. rewrite u64_add_ok by done. frame.
Qed.

(** Committing moves the commit index forward and nothing else. *)
Lemma wp_maybe_commit k r :
  let post r' := ∃ c, committed (r_log r) ≤ c ∧
    core r' = (r_id r, r_term r, r_vote r, set_committed c (r_log r), r_prs r, r_state r,
               r_votes r, r_lead r) in
  wp (maybe_commit_in k) (λ _, post) post r.
Proof.
  assert (∀ r', r' = r → ∃ c, committed (r_log r) ≤ c ∧
    core r' = (r_id r, r_term r, r_vote r, set_committed c (r_log r), r_prs r, r_state r,
               r_votes r, r_lead r)) as Hsame.
  { intros r' ->. exists (committed (r_log r)). split; [lia|]. unfold core. by destruct r as [???[]]. }
  cbn. unfold maybe_commit_in. wp_step. wp_step. case_decide; [by apply Hsame|].
  case_match; [|by apply Hsame]. wp_step. wp_step; [|by apply Hsame].
  case_match eqn:Hc; [|by apply Hsame]. apply Z.ltb_lt in Hc.
  wp_step. apply wp_log_read; [|by apply Hsame]. intros t _.
  case_match; [|by apply Hsame]. apply wp_log_update; [|by apply Hsame].
  intros l [= <-]. eexists. split; [|done]. lia.
Qed.

Lemma append_committed l es l' : append l es = Ok l' → committed l' = committed l.
Proof.
  unfold append. destruct es as [|e0 es]; [naive_solver|]. case_match; [done|].
  destruct (first_index l); naive_solver.
Qed.

Lemma wp_become_leader r :
  let post r' := ∃ l ps, committed l = committed (r_log r) ∧ size ps = size (r_prs r) ∧
    core r' = (r_id r, r_term r, r_vote r, l, ps, Leader, r_votes r, r_id r) in
  wp become_leader (λ _, post) post r.
Proof.
  cbn. unfold become_leader. wp_step. wp_step. wp_step. wp_step. wp_step.
  set (r1 := set_heartbeat_elapsed 0 _).
  assert (∃ l ps, committed l = committed (r_log r) ∧ size ps = size (r_prs r) ∧
    core r1 = (r_id r, r_term r, r_vote r, l, ps, Leader, r_votes r, r_id r)) as H1.
  { by exists (r_log r), (r_prs r). }
  eapply (wp_mono _ (λ _ r', r' = r1) _ (λ r', r' = r1)); [|intros next ? ->|by intros ? ->].
  { case_decide; [done|]. apply wp_lift; naive_solver. }
  wp_step. wp_step.
  assert (∃ l ps, committed l = committed (r_log r) ∧ size ps = size (r_prs r) ∧
    core (set_prs ((λ _, {| match_index := 0; next_index := next |}) <$> r_prs r1) r1)
    = (r_id r, r_term r, r_vote r, l, ps, Leader, r_votes r, r_id r)) as H2.
  { eexists _, _. split_and!; [|by apply map_size_fmap|]; done. }
  wp_step. wp_step; [|exact H2]. wp_step. apply wp_log_update; [|exact H2].
  intros l Hl%append_committed. wp_step.
  set (r2 := set_log _ _) in *.
  assert (∀ r', core r' = core r2 → ∃ l ps, committed l = committed (r_log r) ∧
    size ps = size (r_prs r) ∧
    core r' = (r_id r, r_term r, r_vote r, l, ps, Leader, r_votes r, r_id r)) as Hall.
  { intros r' ->. eexists _, _. split_and!; [exact Hl|by apply map_size_fmap|done]. }
  eapply wp_mono; [apply (wp_for_each_peer _ _ (wp_send_append Sync))|eauto|eauto].
Qed.

(** ** Calls that leave the election state alone *)

(** Term, vote, role and votes are untouched and the commit index does not
    move back. *)
Record quiet r r' : Prop := {
  q_id : r_id r' = r_id r;
  q_term : r_term r' = r_term r;
  q_vote : r_vote r' = r_vote r;
  q_state : r_state r' = r_state r;
  q_votes : r_votes r' = r_votes r;
  q_committed : committed (r_log r) ≤ committed (r_log r');
}.

#[export] Instance quiet_preorder : PreOrder quiet.
Proof.
  split; [intros r; split; done || lia|].
  intros r1 r2 r3 [] []. split; try congruence. lia.
Qed.

Lemma quiet_update r r' l ps lead :
  committed (r_log r) ≤ committed l →
  core r' = (r_id r, r_term r, r_vote r, l, ps, r_state r, r_votes r, lead) → quiet r r'.
Proof.
  unfold core. intros Hc [= H1 H2 H3 H4 H5 H6 H7 H8]. split; try done. by rewrite H4.
Qed.

Lemma quiet_core r r' : core r' = core r → quiet r r'.
Proof. apply quiet_update. done. Qed.

Definition is_quiet {A} (f : M Raft A) r := wp f (λ _, quiet r) (quiet r) r.

Lemma is_quiet_core {A} (f : M Raft A) r :
  wp f (λ _ r', core r' = core r) (λ r', core r' = core r) r → is_quiet f r.
Proof. intros H. eapply wp_mono; [exact H|intros; by apply quiet_core..]. Qed.

Lemma is_quiet_ret {A} (a : A) r : is_quiet (mret a) r.
Proof. apply wp_ret. reflexivity. Qed.

Lemma is_quiet_bind {A B} (f : M Raft A) (g : A → M Raft B) r :
  is_quiet f r → (∀ a r', quiet r r' → is_quiet (g a) r') → is_quiet (f ≫= g) r.
Proof.
  intros Hf Hg. apply wp_bind. eapply wp_mono; [exact Hf| |done]. cbn.
  intros a r' Hr. eapply wp_mono; [apply Hg, Hr|cbn; intros; by transitivity r'..].
Qed.

Lemma is_quiet_modify (f : Raft → Raft) r : quiet r (f r) → is_quiet (modify f) r.
Proof. done. Qed.
Lemma is_quiet_get r : is_quiet get r.
Proof. apply wp_get. reflexivity. Qed.
Lemma is_quiet_lift {A} (o : outcome A) r : is_quiet (lift o) r.
Proof. apply wp_lift; reflexivity. Qed.
Lemma is_quiet_send m r : is_quiet (send m) r.
Proof. by apply is_quiet_core. Qed.
Lemma is_quiet_log_read {A} (f : RaftLog → outcome A) r : is_quiet (log_read f) r.
Proof. apply wp_log_read; reflexivity. Qed.
Lemma is_quiet_send_append k to r : is_quiet (send_append_in k to) r.
Proof. apply is_quiet_core, wp_send_append. Qed.
Lemma is_quiet_for_each_peer f r : (∀ p r0, is_quiet (f p) r0) → is_quiet (for_each_peer f) r.
Proof.
  intros Hf. unfold for_each_peer. apply is_quiet_bind; [apply is_quiet_get|]. intros a r' _.
  apply (wp_for_each (quiet r')); [reflexivity|]. intros p r0 _ Hr. case_decide.
  - eapply wp_mono; [apply Hf|cbn; intros; by transitivity r0..].
  - by apply wp_ret.
Qed.

Lemma is_quiet_maybe_commit k r : is_quiet (maybe_commit_in k) r.
Proof.
  eapply wp_mono; [apply wp_maybe_commit|cbn..].
  - intros _ r' (c & Hc & H). by eapply quiet_update, H.
  - intros r' (c & Hc & H). by eapply quiet_update, H.
Qed.

Lemma append_last l es l' f :
  committed l ≤ last_index l → contiguous f es → append l es = Ok l' →
  committed l' = committed l ∧ committed l ≤ last_index l'.
Proof.
  intros Hl Hes Ha. split; [by eapply append_committed|].
  unfold append in Ha. destruct es as [|e0 es]; [naive_solver|].
  destruct (Z.leb_spec (e_index e0) (committed l)); [done|].
  destruct (first_index l); simplify_eq/=.
  unfold last_index, active_snapshot in *; cbn in *.
  destruct (pending_snapshot l) as [s|]; [destruct (Snapshot_is_empty s); [|done]|].
  all: rewrite last_app; destruct (last (e0 :: es)) as [e|] eqn:E; [|by apply last_None in E].
  all: apply (contiguous_last f) in E; [|done]; apply contiguous_cons in Hes; cbn in E; lia.
Qed.

(** [if m.commit > committed { committed = m.commit.min(last_index) }] *)
Lemma commit_forward l c :
  committed l ≤ last_index l →
  committed l ≤ committed (if committed l <? c then set_committed (Z.min c (last_index l)) l else l).
Proof. intros. destruct (Z.ltb_spec (committed l) c); cbn; lia. Qed.

Lemma is_quiet_get_bind {B} (g : Raft → M Raft B) r : is_quiet (g r) r → is_quiet (get ≫= g) r.
Proof. done. Qed.

Lemma is_quiet_modify_bind {B} (f : Raft → Raft) (g : unit → M Raft B) r :
  quiet r (f r) → is_quiet (g tt) (f r) → is_quiet (modify f ≫= g) r.
Proof.
  intros Hf Hg. apply wp_bind, wp_modify. eapply wp_mono; [exact Hg|cbn; intros; by etrans..].
Qed.

Lemma is_quiet_log_update (f : RaftLog → outcome RaftLog) r :
  (∀ l, f (r_log r) = Ok l → committed (r_log r) ≤ committed l) → is_quiet (log_update f) r.
Proof. intros Hf. apply wp_log_update; [|reflexivity]. intros l Hl%Hf. by split. Qed.

Lemma is_quiet_log_update_bind {B} (f : RaftLog → outcome RaftLog) (g : unit → M Raft B) r :
  (∀ l, f (r_log r) = Ok l →
     committed (r_log r) ≤ committed l ∧ is_quiet (g tt) (set_log l r)) →
  is_quiet (log_update f ≫= g) r.
Proof.
  intros Hf. apply wp_bind, wp_log_update; [|reflexivity]. intros l [Hc Hg]%Hf.
  eapply wp_mono; [exact Hg|cbn..].
  - intros _ r' Hr. transitivity (set_log l r); [by split|done].
  - intros r' Hr. transitivity (set_log l r); [by split|done].
Qed.

Lemma is_quiet_skip {B} (f : M Raft unit) (g : unit → M Raft B) r :
  f r = (Ok tt, r) → is_quiet (g tt) r → is_quiet (f ≫= g) r.
Proof. intros Hf Hg. unfold is_quiet, wp, mbind, M_bind. rewrite Hf. exact Hg. Qed.

(** A term bump of the handlers is dead when the message is not newer. *)
Lemma is_quiet_no_bump {B} (f : M Raft unit) t (g : unit → M Raft B) r :
  t ≤ r_term r → is_quiet (g tt) r →
  is_quiet ((if r_term r <? t then f else mret tt) ≫= g) r.
Proof. intros Ht Hg. apply is_quiet_skip; [|done]. by destruct (Z.ltb_spec (r_term r) t); [lia|]. Qed.

Lemma is_quiet_handle_append_entries k m f r :
  msg_term m ≤ r_term r → committed (r_log r) ≤ last_index (r_log r) →
  contiguous f (msg_entries m) → is_quiet (handle_append_entries_in k m) r.
Proof.
  intros Ht Hc Hes. unfold handle_append_entries_in. apply is_quiet_get_bind.
  case_match; [apply is_quiet_send|]. apply is_quiet_no_bump; [done|].
  apply is_quiet_modify_bind; [by split|]. apply is_quiet_get_bind. cbv zeta.
  case_match; [apply is_quiet_send|]. cbn [r_log set_lead].
  apply wp_bind. eapply (wp_mono _ (λ _ r', r' = set_lead (msg_from m) r)
    _ (λ r', r' = set_lead (msg_from m) r)); [| |by intros ? ->].
  { case_match; [|done]. wp_step. by apply wp_log_read. }
  intros b r' ->. fold (is_quiet (A:=unit)). case_match.
  { apply is_quiet_bind; [apply is_quiet_lift|]. intros. apply is_quiet_send. }
  apply is_quiet_log_update_bind. intros l [Hl1 Hl2]%(append_last _ _ _ _ Hc Hes).
  split; [cbn; lia|]. apply is_quiet_bind; [|intros; apply is_quiet_get_bind, is_quiet_send].
  apply is_quiet_log_update. intros l' [= <-]. cbn. apply commit_forward. lia.
Qed.

Lemma is_quiet_handle_heartbeat m r :
  msg_term m ≤ r_term r → committed (r_log r) ≤ last_index (r_log r) →
  is_quiet (handle_heartbeat m) r.
Proof.
  intros Ht Hc. unfold handle_heartbeat. apply is_quiet_get_bind.
  case_match; [apply is_quiet_ret|]. apply is_quiet_no_bump; [done|].
  apply is_quiet_modify_bind; [by split|].
  apply is_quiet_bind; [|intros; apply is_quiet_get_bind, is_quiet_send].
  apply is_quiet_log_update. intros l' [= <-]. by apply commit_forward.
Qed.

Lemma is_quiet_handle_snapshot m r : is_quiet (handle_snapshot m) r.
Proof.
  unfold handle_snapshot. case_match; [|apply is_quiet_ret]. apply is_quiet_get_bind.
  destruct (Z.leb_spec (snap_index s) (committed (r_log r))); [apply is_quiet_ret|].
  apply is_quiet_bind; [|intros; apply is_quiet_get_bind, is_quiet_send].
  apply is_quiet_log_update. unfold apply_snapshot. intros l.
  do 2 (case_match; [naive_solver lia|]). intros [= <-]. cbn. lia.
Qed.

Lemma is_quiet_handle_append_response k m r : is_quiet (handle_append_response_in k m) r.
Proof.
  unfold handle_append_response_in. apply is_quiet_get_bind.
  case_match; [apply is_quiet_ret|]. apply is_quiet_bind.
  { case_match; [|apply is_quiet_ret]. apply is_quiet_bind; [apply is_quiet_lift|].
    intros. apply is_quiet_modify. by split. }
  intros _ r1 _. apply is_quiet_bind.
  { case_match; [apply is_quiet_ret|apply is_quiet_maybe_commit]. }
  intros _ r2 _. apply is_quiet_get_bind. repeat case_match.
  all: apply is_quiet_send_append || apply is_quiet_ret.
Qed.

Lemma is_quiet_handle_heartbeat_response k m r : is_quiet (handle_heartbeat_response_in k m) r.
Proof.
  unfold handle_heartbeat_response_in. apply is_quiet_get_bind. repeat case_match.
  all: apply is_quiet_send_append || apply is_quiet_ret.
Qed.

(** ** How one step evolves the state *)

(** The relation between the states before and after a step on [m]. *)
Record evolves m r r' : Prop := {
  ev_id : r_id r' = r_id r;
  ev_term : r_term r ≤ r_term r';
  ev_committed : committed (r_log r) ≤ committed (r_log r');
  ev_vote : r_term r' = r_term r → r_vote r ≠ NONE →
    r_vote r' = r_vote r ∨ (r_state r ≠ Follower ∧ r_state r' = Follower ∧ r_vote r' = NONE);
  ev_votes : ∀ p, r_votes r' !! p = Some true →
    (r_term r' = r_term r ∧ r_votes r !! p = Some true) ∨ p = r_id r ∨
    (p = msg_from m ∧ msg_type m = MsgRequestVoteResponse ∧ msg_reject m = false ∧
     msg_term m = r_term r');
  ev_leader : r_state r' = Leader →
    (r_state r = Leader ∧ r_term r' = r_term r ∧ r_votes r' = r_votes r) ∨
    (quorum r' ≤ count_votes true r')%nat;
}.

Lemma evolves_quiet m r r' : quiet r r' → evolves m r r'.
Proof.
  intros []. split; try lia; try congruence; auto; try (left; congruence).
  - intros p. rewrite q_votes0. auto.
  - intros ?. left. split_and!; congruence.
Qed.

Lemma evolves_then_quiet m r r1 r2 :
  evolves m r r1 → quiet r1 r2 → r_state r1 ≠ Leader → evolves m r r2.
Proof.
  intros [] [] Hs. split; try lia; try congruence.
  - rewrite q_term0, q_vote0, q_state0. auto.
  - intros p. rewrite q_votes0, q_term0. auto.
Qed.

(** A step in a term that is new to the node. *)
Lemma evolves_bump m r r1 r2 :
  r_id r1 = r_id r → r_term r < r_term r1 → r_votes r1 = ∅ → r_state r1 = Follower →
  committed (r_log r) ≤ committed (r_log r1) → evolves m r1 r2 → evolves m r r2.
Proof.
  intros Hid Ht Hv Hs Hc []. split; try lia; try congruence.
  - intros p [[_ Hp]|[Hp|Hp]]%ev_votes0; [by rewrite Hv in Hp|right; left; congruence|tauto].
  - intros Hl. destruct (ev_leader0 Hl) as [[? _]|?]; [congruence|tauto].
Qed.

Lemma evolves_demoted m lead r r' :
  core r' = (r_id r, r_term r, NONE, r_log r, r_prs r, Follower, ∅, lead) →
  r_state r ≠ Follower → evolves m r r'.
Proof.
  unfold core. intros [= H1 H2 H3 H4 H5 H6 H7 H8] Hs. split; try congruence.
  - lia.
  - rewrite H4. lia.
  - auto.
  - intros p. rewrite H7. done.
Qed.

Lemma count_votes_singleton r p : r_votes r = {[ p := true ]} → count_votes true r = 1%nat.
Proof.
  intros E. unfold count_votes, hash_values. rewrite E.
  rewrite (hash_iter_perm ({[p := true]} : gmap Z bool)), map_to_list_singleton. done.
Qed.

(** ** The roles *)

Lemma wp_campaign m k r :
  r_term r < u64_max → 0 ≤ r_term r →
  wp (campaign_in k) (λ _, evolves m r) (evolves m r) r.
Proof.
  intros Ht H0. unfold campaign_in. apply wp_bind.
  assert (∀ r', core r' = (r_id r, r_term r + 1, r_id r, r_log r, r_prs r, Candidate,
    {[ r_id r := true ]}, NONE) → evolves m r r') as Hcand.
  { unfold core. intros r' [= H1 H2 H3 H4 H5 H6 H7 H8]. split; try congruence; try lia.
    - rewrite H4. lia.
    - intros p. rewrite H7. intros [<- _]%lookup_singleton_Some. auto. }
  eapply wp_mono; [apply wp_become_candidate; unfold is_u64; lia| |exact Hcand].
  cbn. intros _ r1 H1. wp_step. wp_step. case_decide as Hq.
  - eapply wp_mono; [apply wp_become_leader|cbn..].
    all: assert (∀ r', (∃ l ps, committed l = committed (r_log r1) ∧ size ps = size (r_prs r1) ∧
      core r' = (r_id r1, r_term r1, r_vote r1, l, ps, Leader, r_votes r1, r_id r1)) →
      evolves m r r') as Hlead; [|auto].
    all: intros r' (l & ps & Hc & Hps & Hr); pose proof (Hcand r1 H1) as [].
    all: unfold core in Hr; injection Hr as E1 E2 E3 E4 E5 E6 E7 E8.
    all: unfold core in H1; injection H1 as F1 F2 F3 F4 F5 F6 F7 F8.
    all: split; try congruence; try lia.
    all: try (rewrite E4; lia).
    all: try (intros p; rewrite E7, F7; intros [<- _]%lookup_singleton_Some; auto).
    all: intros _; right; unfold quorum in *; rewrite E5, Hps.
    all: rewrite (count_votes_singleton _ (r_id r)) by congruence; apply Nat.eq_le_incl, Hq.
  - wp_step. apply wp_log_read; [|by apply Hcand]. intros t _.
    eapply wp_mono; [apply (is_quiet_for_each_peer _ r1); intros; apply is_quiet_send|cbn..].
    all: intros; eapply evolves_then_quiet; [by apply Hcand|done|].
    all: unfold core in H1; simplify_eq; congruence.
Qed.
Lemma wp_request_vote m k r :
  msg_term m ≤ r_term r →
  wp (handle_request_vote_in k m) (λ _, evolves m r) (evolves m r) r.
Proof.
  intros Ht. unfold handle_request_vote_in. wp_step. wp_step.
  assert (evolves m r r) as Hr by (apply evolves_quiet; reflexivity).
  case_match; [apply wp_modify, evolves_quiet; by split|].
  wp_step. destruct (Z.ltb_spec (r_term r) (msg_term m)); [lia|]. do 4 wp_step.
  apply wp_log_read; [|done]. intros t _.
  case_match eqn:Hv; [|apply wp_modify, evolves_quiet; by split].
  wp_step. wp_step. apply wp_modify.
  split; cbn; try done; try lia; auto.
Qed.

Lemma wp_vote_response m r :
  msg_type m = MsgRequestVoteResponse →
  wp (handle_request_vote_response m) (λ _, evolves m r) (evolves m r) r.
Proof.
  intros Htype. unfold handle_request_vote_response. wp_step. wp_step.
  case_decide as Hc; [apply wp_ret, evolves_quiet; reflexivity|].
  assert (msg_term m = r_term r) as Hterm by lia.
  assert (r_state r = Candidate) as Hstate by (destruct (r_state r); naive_solver).
  do 4 wp_step. set (r1 := set_votes _ r).
  assert (∀ r', r_term r' = r_term r → r_id r' = r_id r →
    (∀ p, r_votes r' !! p = Some true → r_votes r1 !! p = Some true) →
    committed (r_log r) ≤ committed (r_log r') →
    (r_vote r' = r_vote r ∨ (r_state r' = Follower ∧ r_vote r' = NONE)) →
    (r_state r' = Leader → (quorum r' ≤ count_votes true r')%nat) → evolves m r r') as Hev.
  { intros r' Et Ei Hv Ecom Hvote Hl. split; try done; try lia; auto.
    - intros _ _. destruct Hvote as [?|?]; [by left|right]. by rewrite Hstate.
    - intros p Hp%Hv. cbn in Hp. apply lookup_insert_Some in Hp as [[-> Hrej]|[_ ?]]; [|by left].
      right; right. split_and!; try done; [by destruct (msg_reject m)|congruence]. }
  cbv zeta. destruct (Nat.leb_spec (quorum r1) (count_votes true r1)) as [Hq|_].
  - eapply wp_mono; [apply wp_become_leader|cbn [r_id r_term r_vote r_log r_prs r_votes r1 set_votes]..].
    all: assert (∀ r', (∃ l ps, committed l = committed (r_log r1) ∧ size ps = size (r_prs r1) ∧
      core r' = (r_id r1, r_term r1, r_vote r1, l, ps, Leader, r_votes r1, r_id r1)) →
      evolves m r r') as Hlead; [|by eauto].
    all: intros r' (l & ps & Ecom & Hps & Hr); unfold core in Hr; injection Hr as E1 E2 E3 E4 E5 E6 E7 E8.
    all: apply Hev; [by rewrite E2|by rewrite E1|by rewrite E7|rewrite E4, Ecom; cbn; lia|by left; rewrite E3|].
    all: intros _; unfold quorum, count_votes in *; by rewrite E5, Hps, E7.
  - case_match.
    + eapply wp_mono; [apply wp_become_follower|cbn..].
      all: unfold core; intros; destruct_and?.
      all: match goal with H : _ = _ |- evolves _ _ _ =>
             injection H as E1 E2 E3 E4 E5 E6 E7 E8 end.
      all: apply Hev; [by rewrite E2|by rewrite E1|by rewrite E7|by rewrite E4|by right|].
      all: by rewrite E6.
    + apply wp_ret, Hev; [done|done|done|cbn; lia|by left|].
      intros Hl. change (r_state r = Leader) in Hl. congruence.
Qed.

(** The messages that make a node in a role follow their sender without a
    look at the term. *)
Definition demotes (s : StateType) (t : MessageType) : bool :=
  match s, t with
  | Candidate, (MsgAppend | MsgHeartbeat | MsgSnapshot) | Leader, MsgSnapshot => true
  | _, _ => false
  end.

Lemma evolves_demoting m f r (g : M Raft unit) :
  r_state r ≠ Follower → msg_term m = r_term r →
  committed (r_log r) ≤ last_index (r_log r) → contiguous f (msg_entries m) →
  (∀ r1, r_term r1 = r_term r → r_log r1 = r_log r → is_quiet g r1) →
  wp (become_follower (msg_term m) (msg_from m);; g) (λ _, evolves m r) (evolves m r) r.
Proof.
  intros Hs Ht Hc Hes Hg. apply wp_bind. rewrite Ht.
  eapply wp_mono; [apply wp_become_follower|cbn..].
  - intros _ r1 H1. pose proof (evolves_demoted m _ _ _ H1 Hs) as He.
    unfold core in H1. injection H1 as E1 E2 E3 E4 E5 E6 E7 E8.
    eapply wp_mono; [by apply Hg|cbn..].
    all: intros; eapply evolves_then_quiet; [done..|congruence].
  - intros r1 H1. by eapply evolves_demoted.
Qed.
Lemma wp_is_quiet m (g : M Raft unit) r : is_quiet g r → wp g (λ _, evolves m r) (evolves m r) r.
Proof. intros H. eapply wp_mono; [exact H|intros; by apply evolves_quiet..]. Qed.

(** What a step needs of the log and of the message. *)
Record step_pre m r : Prop := {
  pre_term : 0 ≤ r_term r < u64_max;
  pre_msg : msg_term m < u64_max;
  pre_log : 0 ≤ committed (r_log r) ≤ last_index (r_log r);
  pre_room : last_index (r_log r) + Z.of_nat (length (msg_entries m)) < u64_max;
  pre_entries : ∃ f, contiguous f (msg_entries m);
}.

(** The dispatch on the role, for a message that is not newer. *)
Lemma wp_step_role m k r :
  step_pre m r → msg_term m ≤ r_term r →
  (demotes (r_state r) (msg_type m) = true → msg_term m = r_term r) →
  wp (match r_state r with
      | Follower => step_follower_in k m
      | Candidate => step_candidate_in k m
      | Leader => step_leader_in k m
      end) (λ _, evolves m r) (evolves m r) r.
Proof.
  intros [Ht Hm Hl Hroom [f Hes]] Hle Hd.
  destruct (r_state r) eqn:Hs; unfold step_follower_in, step_candidate_in, step_leader_in;
    destruct (msg_type m) eqn:Hty; cbn [demotes] in Hd.
  all: try (apply wp_campaign; lia).
  all: try by apply wp_request_vote.
  all: try by apply wp_vote_response.
  all: try by apply wp_is_quiet, is_quiet_ret.
  all: try apply wp_is_quiet, is_quiet_handle_append_response.
  all: try apply wp_is_quiet, is_quiet_handle_heartbeat_response.
  all: try specialize (Hd eq_refl).
  all: try (apply (evolves_demoting m f); [congruence|lia|lia|done|intros r1 E1 E2]).
  all: try (apply (is_quiet_handle_append_entries _ _ f); [lia|rewrite E2; lia|done]).
  all: try (apply is_quiet_handle_heartbeat; [lia|rewrite E2; lia]).
  all: try apply is_quiet_handle_snapshot.
  all: apply wp_is_quiet.
  all: try (apply is_quiet_get_bind; case_decide; apply is_quiet_send || apply is_quiet_ret).
  all: try (apply is_quiet_modify_bind; [by split|]).
  all: try (apply (is_quiet_handle_append_entries _ _ f); [done|cbn; lia|done]).
  all: try (apply is_quiet_handle_heartbeat; [done|cbn; lia]).
  all: try apply is_quiet_handle_snapshot.
  - apply is_quiet_for_each_peer. intros. unfold send_heartbeat.
    apply is_quiet_get_bind, is_quiet_send.
  - apply is_quiet_get_bind.
    destruct (renumber_spec (r_term r) (last_index (r_log r)) 0 (msg_entries m))
      as (es & -> & Hc & _); [lia..|]. rewrite Z.add_0_r in Hc.
    change (is_quiet (log_update (λ l, append l es);; maybe_commit_in k;;
                      for_each_peer (send_append_in k)) r).
    apply is_quiet_bind; [|intros _ r1 _; apply is_quiet_bind].
    + apply is_quiet_log_update. intros l [Hl1 _]%(append_last _ _ _ _ (proj2 Hl) Hc). lia.
    + apply is_quiet_maybe_commit.
    + intros _ r2 _. apply is_quiet_for_each_peer. intros. apply is_quiet_send_append.
Qed.

Lemma step_evolves k m r :
  step_pre m r → (demotes (r_state r) (msg_type m) = true → r_term r ≤ msg_term m) →
  evolves m r (step_in k m r).2.
Proof.
  intros Hpre Hd. apply (ends_wp _ (evolves m r)). unfold step_in. wp_step. wp_step. wp_step.
  destruct (Z.ltb_spec (r_term r) (msg_term m)) as [Hlt|Hle].
  - assert (∀ lead, wp (become_follower (msg_term m) lead)
      (λ _ r1, ∃ lead, core r1 = (r_id r, msg_term m, NONE, r_log r, r_prs r, Follower, ∅, lead))
      (λ r1, ∃ lead, core r1 = (r_id r, msg_term m, NONE, r_log r, r_prs r, Follower, ∅, lead)) r)
      as Hbump.
    { intros lead. eapply wp_mono; [apply wp_become_follower|cbn; eauto..]. }
    assert (∀ r1, (∃ lead, core r1
      = (r_id r, msg_term m, NONE, r_log r, r_prs r, Follower, ∅, lead)) →
      step_pre m r1 ∧ msg_term m = r_term r1 ∧ r_state r1 = Follower ∧
      ∀ r2, evolves m r1 r2 → evolves m r r2) as Hnew.
    { intros r1 [lead H1]. unfold core in H1. injection H1 as E1 E2 E3 E4 E5 E6 E7 E8.
      destruct Hpre as [].
      split_and!; [by split; rewrite ?E2, ?E4; [lia|..]|done|done|].
      intros r2. eapply evolves_bump; rewrite ?E2, ?E4; done || lia. }
    eapply (wp_mono _ _ _ _ _ r); [case_decide; apply Hbump| |].
    + intros _ r1 (Hpre1 & Et & Es & Hev)%Hnew. wp_step. wp_step.
      eapply wp_mono; [apply (wp_step_role m k r1)|auto..]; [done|lia|by rewrite Es].
    + intros r1 (_ & _ & _ & Hev)%Hnew. apply Hev, evolves_quiet. reflexivity.
  - do 3 wp_step. apply wp_step_role; [done|done|]. intros ?%Hd. lia.
Qed.
(** Terms and votes over one step, in both flavours and on every outcome,
    errors included.  Outside the stale demotion the term never decreases; a
    vote cast in a term is kept for the whole of that term, except that a
    candidate or leader demoted within its term forgets it. *)
Theorem step_term_and_vote k m r :
  step_pre m r → (demotes (r_state r) (msg_type m) = true → r_term r ≤ msg_term m) →
  let r' := (step_in k m r).2 in
  r_term r ≤ r_term r' ∧
  (r_term r' = r_term r → r_vote r ≠ NONE →
   r_vote r' = r_vote r ∨ (r_state r ≠ Follower ∧ r_state r' = Follower ∧ r_vote r' = NONE)).
Proof. intros Hp Hd. pose proof (step_evolves k m r Hp Hd) as []. auto. Qed.

(** Leadership takes a majority.  A node that is a leader after a step
    was one before, in the same term, or holds recorded votes of a majority
    of the cluster (the node and its peers); each recorded grant was recorded
    before in this term, is the node's own, or is the message just received, a
    grant of this very term. *)
Theorem step_leader_majority k m r :
  step_pre m r → (demotes (r_state r) (msg_type m) = true → r_term r ≤ msg_term m) →
  let r' := (step_in k m r).2 in
  (r_state r' = Leader → ¬ (r_state r = Leader ∧ r_term r' = r_term r) →
   (size (r_prs r') + 1 < 2 * count_votes true r')%nat) ∧
  (∀ p, r_votes r' !! p = Some true →
     (r_term r' = r_term r ∧ r_votes r !! p = Some true) ∨ p = r_id r ∨
     (p = msg_from m ∧ msg_type m = MsgRequestVoteResponse ∧ msg_reject m = false ∧
      msg_term m = r_term r')).
Proof.
  intros Hp Hd. pose proof (step_evolves k m r Hp Hd) as []. split; [|done].
  intros Hl Hn. destruct (ev_leader0 Hl) as [(?&?&?)|Hq]; [tauto|]. unfold quorum in Hq.
  pose proof (Nat.div_mod (size (r_prs (step_in k m r).2) + 1) 2).
  pose proof (Nat.mod_upper_bound (size (r_prs (step_in k m r).2) + 1) 2). cbn zeta. lia.
Qed.

(** The commit index never moves back in a step, whatever the message and
    the outcome. *)
Theorem step_committed_monotone k m r :
  step_pre m r → (demotes (r_state r) (msg_type m) = true → r_term r ≤ msg_term m) →
  committed (r_log r) ≤ committed (r_log (step_in k m r).2).
Proof. intros Hp Hd. by destruct (step_evolves k m r Hp Hd). Qed.

(** ** The stale demotion *)

(** A candidate that receives a heartbeat of an older term does not drop
    it: it becomes a follower in the older term and forgets its vote, so its
    term moves back. *)
Theorem stale_heartbeat_regresses k m r :
  r_state r = Candidate → msg_type m = MsgHeartbeat → msg_term m < r_term r →
  let r' := (step_in k m r).2 in
  r_term r' = msg_term m ∧ r_term r' < r_term r ∧ r_state r' = Follower ∧ r_vote r' = NONE.
Proof.
  intros Hs Ht Hm. cbn zeta.
  assert (wp (step_in k m) (λ _ r', r_term r' = msg_term m ∧ r_state r' = Follower ∧ r_vote r' = NONE)
    (λ r', r_term r' = msg_term m ∧ r_state r' = Follower ∧ r_vote r' = NONE) r) as Hwp.
  { unfold step_in. do 3 wp_step. destruct (Z.ltb_spec (r_term r) (msg_term m)); [lia|].
    do 3 wp_step. rewrite Hs. unfold step_candidate_in. rewrite Ht. wp_step.
    eapply wp_mono; [apply wp_become_follower|cbn..].
    - intros _ r1 H1. unfold core in H1. injection H1 as E1 E2 E3 E4 E5 E6 E7 E8.
      unfold handle_heartbeat. do 2 wp_step. rewrite E2, Z.ltb_irrefl. do 4 wp_step.
      done.
    - unfold core. intros. naive_solver. }
  apply (ends_wp _ (λ r', r_term r' = msg_term m ∧ r_state r' = Follower ∧ r_vote r' = NONE))
    in Hwp. unfold ends in Hwp. intuition lia.
Qed.
(** A call that ends in [Ok] with a post-condition. *)
Lemma wp_ok {S A} (f : M S A) Q s :
  wp f Q (λ _, False) s → ∃ a s', f s = (Ok a, s') ∧ Q a s'.
Proof. unfold wp. destruct (f s) as [[] ?]; naive_solver. Qed.

Lemma wp_become_follower_ok term lead r (Q : unit → Raft → Prop) E :
  is_u64 (r_election_timeout r * 2) →
  (∀ r', core r' = (r_id r, term, NONE, r_log r, r_prs r, Follower, ∅, lead) →
     r_msgs r' = r_msgs r → r_election_timeout r' = r_election_timeout r → Q tt r') →
  wp (become_follower term lead) Q E r.
Proof.
  intros Hu HQ. unfold become_follower, reset_random_timeout. do 4 wp_step.
  cbn [r_election_timeout set_term set_lead set_state set_vote set_votes set_election_elapsed].
  unfold u64_mul. rewrite u64_norm_ok by done. wp_step.
  wp_step. case_match. apply wp_modify. by apply HQ.
Qed.

(** One node, two votes in one term.  A candidate votes for itself when it
    campaigns; after a heartbeat of its own term it has forgotten that vote and
    grants the next vote request of the same term to another node. *)
Theorem candidate_votes_twice k m1 m2 r :
  r_state r = Candidate → r_vote r = r_id r →
  msg_type m1 = MsgHeartbeat → msg_term m1 = r_term r → msg_commit m1 ≤ committed (r_log r) →
  msg_type m2 = MsgRequestVote → msg_term m2 = r_term r → msg_from m2 ≠ r_id r →
  is_u64 (r_election_timeout r * 2) →
  (∃ t, term_0_or_fail k (last_index (r_log r)) (r_log r) = Ok t ∧ t < msg_log_term m2) →
  ∃ r1 r2, step_in k m1 r = (Ok tt, r1) ∧ step_in k m2 r1 = (Ok tt, r2) ∧
    r_term r2 = r_term r ∧ r_vote r2 = msg_from m2 ∧
    last (r_msgs r2) = Some (reply_message MsgRequestVoteResponse (msg_from m2) (r_id r)
                               (r_term r) false 0).
Proof.
  intros Hs Hv Ht1 Hm1 Hc Ht2 Hm2 Hne Hu (t & Hterm & Hlt).
  assert (wp (step_in k m1) (λ _ r1, ∃ lead, core r1
    = (r_id r, r_term r, NONE, r_log r, r_prs r, Follower, ∅, lead)) (λ _, False) r) as H1.
  { unfold step_in. do 3 wp_step. rewrite Hm1, Z.ltb_irrefl. do 3 wp_step. rewrite Hs.
    unfold step_candidate_in. rewrite Ht1. wp_step. rewrite Hm1.
    apply wp_become_follower_ok; [done|]. intros r1 H1 _ _. unfold core in H1.
    injection H1 as E1 E2 E3 E4 E5 E6 E7 E8. unfold handle_heartbeat. do 2 wp_step.
    rewrite Hm1, E2, Z.ltb_irrefl. do 4 wp_step.
    unfold log_update, send. repeat wp_step. cbn [r_log set_lead].
    rewrite E4. destruct (Z.ltb_spec (committed (r_log r)) (msg_commit m1)); [lia|].
    exists (msg_from m1). unfold core. cbn. congruence. }
  apply wp_ok in H1 as ([] & r1 & H1 & lead & E).
  unfold core in E. injection E as E1 E2 E3 E4 E5 E6 E7 E8.
  assert (wp (step_in k m2) (λ _ r2, r_term r2 = r_term r ∧ r_vote r2 = msg_from m2 ∧
    last (r_msgs r2) = Some (reply_message MsgRequestVoteResponse (msg_from m2) (r_id r)
                               (r_term r) false 0)) (λ _, False) r1) as H2.
  { unfold step_in. do 3 wp_step. rewrite Hm2, E2, Z.ltb_irrefl. do 3 wp_step. rewrite E6.
    unfold step_follower_in. rewrite Ht2. unfold handle_request_vote_in. do 2 wp_step.
    rewrite Hm2, E2, Z.ltb_irrefl. do 5 wp_step. rewrite E4. unfold log_read. do 2 wp_step.
    rewrite E4, Hterm. wp_step. rewrite E3. cbn [Z.eqb NONE orb andb].
    destruct (Z.ltb_spec t (msg_log_term m2)); [|lia]. cbn [orb andb].
    do 2 wp_step. apply wp_modify. cbn. rewrite last_snoc. rewrite E1, E2. done. }
  apply wp_ok in H2 as ([] & r2 & H2 & Hr2). exists r1, r2. tauto.
Qed.
End safety.

(** ** A three-node cluster to evaluate on *)

#[local] Existing Instance map_order.
#[local] Existing Instance low_rng.
#[local] Instance debug_build : BuildProfile := true.

Definition sample_raft (s : StateType) : Raft (rand := low_rng) :=
  {| r_id := 1; r_term := 3; r_vote := 1; r_log := sample_log;
     r_prs := {[ 2 := Progress_new 4; 3 := Progress_new 4 ]}; r_state := s;
     r_votes := {[ 1 := true ]}; r_msgs := []; r_lead := NONE; r_heartbeat_timeout := 1;
     r_election_timeout := 5; r_heartbeat_elapsed := 0; r_election_elapsed := 0;
     r_random_election_timeout := 5; r_rng := () |}.

(** A grant from node 2, a heartbeat of an old term, one of the current term
    and a competing candidate. *)
Definition vote_granted : Message := reply_message MsgRequestVoteResponse 1 2 3 false 0.
Definition heartbeat_of (t : Z) : Message := log_message MsgHeartbeat 1 2 t 0 0 [] 2.
Definition vote_request : Message := log_message MsgRequestVote 1 3 3 3 3 [] 0.

Lemma sample_step_pre m s :
  (msg_term m <? 10) = true → msg_entries m = [] → step_pre m (sample_raft s).
Proof.
  intros Hm%Z.ltb_lt He. split.
  - by split; vm_compute.
  - unfold u64_max. lia.
  - by split; vm_compute.
  - rewrite He. by vm_compute.
  - exists 0. rewrite He. by intros ?.
Qed.

Lemma step_term_and_vote_witness :
  let r' := (step_in Sync vote_granted (sample_raft Candidate)).2 in
  r_term (sample_raft Candidate) ≤ r_term r' ∧ r_state r' = Leader.
Proof.
  refine (conj (proj1 (step_term_and_vote Sync vote_granted (sample_raft Candidate)
    (sample_step_pre vote_granted Candidate eq_refl eq_refl) _)) _); [|by vm_compute].
  intros H. discriminate H.
Defined.

Lemma step_leader_majority_witness :
  let r' := (step_in Sync vote_granted (sample_raft Candidate)).2 in
  r_state r' = Leader ∧ (size (r_prs r') + 1 < 2 * count_votes true r')%nat.
Proof.
  refine (conj _ (proj1 (step_leader_majority Sync vote_granted (sample_raft Candidate)
    (sample_step_pre vote_granted Candidate eq_refl eq_refl) _) _ _)); [by vm_compute|..].
  - intros H. discriminate H.
  - by vm_compute.
  - intros [H _]. discriminate H.
Defined.

Lemma step_committed_monotone_witness :
  committed (r_log (sample_raft Follower))
  ≤ committed (r_log (step_in Sync (heartbeat_of 3) (sample_raft Follower)).2).
Proof.
  refine (step_committed_monotone Sync (heartbeat_of 3) (sample_raft Follower)
    (sample_step_pre (heartbeat_of 3) Follower eq_refl eq_refl) _).
  intros H. discriminate H.
Defined.

Lemma stale_heartbeat_regresses_witness :
  r_term (step (heartbeat_of 1) (sample_raft Candidate)).2 = 1.
Proof.
  refine (proj1 (stale_heartbeat_regresses Sync (heartbeat_of 1) (sample_raft Candidate) _ _ _));
    [reflexivity|reflexivity|by vm_compute].
Defined.

Lemma candidate_votes_twice_witness :
  ∃ r1 r2, step (heartbeat_of 3) (sample_raft Candidate) = (Ok tt, r1) ∧
    step vote_request r1 = (Ok tt, r2) ∧ r_term r2 = 3 ∧ r_vote r2 = 3.
Proof.
  edestruct (candidate_votes_twice Sync (heartbeat_of 3) vote_request (sample_raft Candidate))
    as (r1 & r2 & H1 & H2 & H3 & H4 & _);
    [reflexivity|reflexivity|reflexivity|reflexivity|by vm_compute|reflexivity|reflexivity|
     by vm_compute|by split; vm_compute|by exists 2; vm_compute|].
  exists r1, r2. split; [exact H1|]. split; [exact H2|]. split; [exact H3|exact H4].
Defined.
