(* ===== verification/RaftReplication.v ===== *)
(** Replication in the Raft component: what a vote request, an append, a
    heartbeat, a proposal and a tick do on a well-formed log, branch by
    branch, when the commit rule moves the commit index, and where the code
    departs from Raft. *)

From stdpp Require Import sorting.
From S2P Require Import Prelude Bytes RaftTypes RaftLog Raft.

Section replication.
Context `{prof : BuildProfile} `{order : HashOrder} `{rand : RandomSource}.
Implicit Types (r : Raft) (m : Message) (k : lookup) (l : RaftLog).

(** ** Lookups of the last term *)

(** The term of the last entry, 0 in a log that never had one. *)
Definition last_term l : Z := default 0 (e_term <$> entry_at l (last_index l)).

(** Running the three kinds of lookup on a log that holds the entry. *)
Lemma term_wf l i e : log_wf l → entry_at l i = Some e → RaftLog.term l i = Ok (e_term e).
Proof.
  intros Hw He. pose proof (wf_first l Hw). pose proof (wf_bound l Hw).
  pose proof (last_index_wf l (wf_no_snapshot l Hw) (wf_contiguous l Hw)).
  unfold entry_at in He. case_decide; [|done].
  pose proof (lookup_lt_Some _ _ _ He).
  unfold RaftLog.term. rewrite (first_index_wf l Hw). cbn [mbind outcome_bind].
  destruct (Z.ltb_spec i (first_of l)); [lia|].
  rewrite u64_sub_ok by (unfold is_u64; lia). cbn [mbind outcome_bind].
  rewrite (wf_no_snapshot l Hw). destruct (Z.leb_spec i (last_index l)); [|lia]. by rewrite He.
Qed.

Lemma lookup_wf k l i e :
  log_wf l → 0 < i → entry_at l i = Some e →
  term_or_fail k i l = Ok (e_term e) ∧ term_or_0 k i l = Ok (e_term e) ∧
  term_0_or_fail k i l = Ok (e_term e).
Proof.
  intros Hw Hi He. destruct k; cbn [term_or_fail term_or_0 term_0_or_fail].
  - rewrite term_sync_wf, decide_False, He by (done || lia). done.
  - by rewrite (term_wf l i e).
Qed.

Lemma last_index_nonneg l : log_wf l → 0 ≤ last_index l.
Proof. intros []. lia. Qed.

Lemma entry_at_last l :
  log_wf l → entries l ≠ [] → ∃ e, entry_at l (last_index l) = Some e ∧ 0 < last_index l.
Proof.
  intros Hw Hne. pose proof (last_index_wf l (wf_no_snapshot l Hw) (wf_contiguous l Hw)) as Hl.
  pose proof (wf_first l Hw). destruct (entries l) as [|x xs] eqn:E; [done|]. cbn in Hl.
  destruct (entry_at_range l (last_index l) Hw) as [e He]; [lia|]. exists e. split; [done|lia].
Qed.

(** ** Votes *)

(** Raft's up-to-date test on (term, index) of the last entries. *)
Definition up_to_date m l : bool :=
  bool_decide (last_term l < msg_log_term m ∨
               (last_term l = msg_log_term m ∧ last_index l ≤ msg_index m)).

Definition votes_for m r : bool :=
  ((r_vote r =? NONE) || (r_vote r =? msg_from m)) && up_to_date m (r_log r).

(** A vote request of the node's term, on a well-formed log with entries.
    The vote is granted exactly when the node has not voted for another node
    in this term and the candidate's log is at least as up to date as its own;
    a grant records the vote and restarts the election clock, and one reply
    with the verdict is sent in both cases. *)
Theorem request_vote_exact k m r :
  log_wf (r_log r) → entries (r_log r) ≠ [] → msg_term m = r_term r →
  handle_request_vote_in k m r =
    let r1 := if votes_for m r then set_election_elapsed 0 (set_vote (msg_from m) r) else r in
    (Ok tt, set_msgs (r_msgs r ++ [reply_message MsgRequestVoteResponse (msg_from m) (r_id r)
                                     (r_term r) (negb (votes_for m r)) 0]) r1).
Proof.
  intros Hw Hne Ht. destruct (entry_at_last _ Hw Hne) as (e & He & Hpos).
  destruct (lookup_wf k _ _ _ Hw Hpos He) as (_ & _ & Hterm).
  unfold handle_request_vote_in, send, log_read. unfold_M.
  rewrite Ht, Z.ltb_irrefl, Hterm. cbn [negb].
  assert (votes_for m r = ((r_vote r =? NONE) || (r_vote r =? msg_from m)) &&
    ((e_term e <? msg_log_term m) || (msg_log_term m =? e_term e) && (last_index (r_log r) <=? msg_index m)))
    as ->.
  { unfold votes_for, up_to_date, last_term. rewrite He. cbn. f_equal. case_bool_decide; lia. }
  by destruct (_ && _).
Qed.

(** ** The commit rule *)

(** How many peers are known to store the log up to [c]. *)
Definition acked (c : Z) r : nat :=
  length (filter (λ p, c ≤ match_index p) (map_to_list (r_prs r)).*2).

Lemma length_filter_perm {A} (P : A → Prop) `{∀ x, Decision (P x)} (l1 l2 : list A) :
  l1 ≡ₚ l2 → length (filter P l1) = length (filter P l2).
Proof. by intros ->. Qed.

Lemma filter_fmap_length {A B} (f : A → B) (P : B → Prop) `{∀ x, Decision (P x)} (l : list A) :
  length (filter P (f <$> l)) = length (filter (λ x, P (f x)) l).
Proof.
  induction l as [|x l IH]; [done|]. rewrite fmap_cons, !filter_cons. case_decide; cbn; auto.
Qed.

Lemma filter_all {A} (P : A → Prop) `{∀ x, Decision (P x)} (l : list A) :
  Forall P l → filter P l = l.
Proof. induction 1; [done|]. rewrite filter_cons, decide_True by done. by f_equal. Qed.

(** The [n]-th greatest of a list of numbers is reached by [n] of them. *)
Lemma nth_greatest (l : list Z) (n : nat) (c : Z) :
  reverse (merge_sort Z.le l) !! n = Some c → (n < length (filter (λ x : Z, (c ≤ x)%Z) l))%nat.
Proof.
  intros Hc. set (s := merge_sort Z.le l) in *.
  assert (StronglySorted Z.le s) as Hs by (apply StronglySorted_merge_sort; apply _).
  rewrite (length_filter_perm _ l s) by (symmetry; apply merge_sort_Permutation).
  pose proof (lookup_lt_Some _ _ _ Hc) as Hn. rewrite length_reverse in Hn.
  rewrite reverse_lookup in Hc by done.
  rewrite <- (take_drop (length s - S n) s), filter_app, length_app.
  rewrite (filter_all _ (drop _ s)), length_drop; [lia|].
  rewrite <- (take_drop (length s - S n) s) in Hs. rewrite (drop_S _ _ _ Hc) in *.
  apply StronglySorted_app_1_r, StronglySorted_cons in Hs as [Hs _]. by constructor.
Qed.

Lemma sorted_matches_acked r n c :
  sorted_matches r !! n = Some c → (n < acked c r)%nat.
Proof.
  intros H%nth_greatest. unfold acked. rewrite filter_fmap_length in H. unfold hash_values in H.
  by rewrite (hash_iter_perm (r_prs r)) in H.
Qed.

Lemma sorted_matches_in r n c :
  sorted_matches r !! n = Some c → ∃ p, c = match_index (p : Progress) ∧ ∃ i, r_prs r !! i = Some p.
Proof.
  intros Hc%list_elem_of_lookup_2. unfold sorted_matches in Hc.
  rewrite elem_of_reverse, merge_sort_Permutation, list_elem_of_fmap in Hc.
  destruct Hc as (p & -> & Hp). exists p. split; [done|].
  unfold hash_values in Hp. apply list_elem_of_fmap in Hp as ([i q] & -> & Hi).
  exists i. by apply elem_of_hash_iter.
Qed.

Lemma log_update_run f r l : f (r_log r) = Ok l → log_update f r = (Ok tt, set_log l r).
Proof. intros Hf. unfold log_update. unfold_M. by rewrite Hf. Qed.

Lemma log_read_run {A} (f : RaftLog → outcome A) r a :
  f (r_log r) = Ok a → log_read f r = (Ok a, r).
Proof. intros Hf. unfold log_read. unfold_M. by rewrite Hf. Qed.

Lemma set_log_same r : set_log (set_committed (committed (r_log r)) (r_log r)) r = r.
Proof. by destruct r as [???[]]. Qed.

Lemma maybe_commit_run k r :
  log_wf (r_log r) → 0 < r_term r → r_state r = Leader →
  (∀ i p, r_prs r !! i = Some p → match_index p ≤ last_index (r_log r)) →
  ∃ c, maybe_commit_in k r = (Ok tt, set_log (set_committed c (r_log r)) r) ∧
    log_wf (set_committed c (r_log r)) ∧
    (c = committed (r_log r) ∨
     (committed (r_log r) < c ≤ last_index (r_log r) ∧ (quorum r ≤ acked c r)%nat ∧
      ∃ e, entry_at (r_log r) c = Some e ∧ e_term e = r_term r)).
Proof.
  intros Hw Ht Hs Hmatch.
  pose proof (wf_first _ Hw). pose proof (wf_applied _ Hw). pose proof (wf_committed _ Hw).
  assert (∀ x, x = (Ok tt, r) → ∃ c, x = (Ok tt, set_log (set_committed c (r_log r)) r) ∧
    log_wf (set_committed c (r_log r)) ∧ (c = committed (r_log r) ∨
     (committed (r_log r) < c ≤ last_index (r_log r) ∧ (quorum r ≤ acked c r)%nat ∧
      ∃ e, entry_at (r_log r) c = Some e ∧ e_term e = r_term r))) as Hsame.
  { intros x ->. exists (committed (r_log r)). rewrite set_log_same. split_and!; auto.
    by apply set_committed_wf. }
  unfold maybe_commit_in. rewrite (M_bind_run _ _ _ r r) by done. rewrite decide_False by tauto.
  case_match eqn:Hq; [|by apply Hsame]. apply Nat.leb_le in Hq.
  assert (1 ≤ quorum r)%nat by (unfold quorum; lia).
  destruct (lookup_lt_is_Some_2 (sorted_matches r) (quorum r - 1)) as [c Hc]; [lia|].
  unfold index. rewrite Hc. cbn [unwrap]. rewrite (M_bind_run _ _ _ c r) by done.
  destruct (Z.ltb_spec (committed (r_log r)) c); [|by apply Hsame].
  destruct (sorted_matches_in _ _ _ Hc) as (p & Hp & i & Hi).
  pose proof (Hmatch i p Hi). destruct (entry_at_range _ c Hw) as [e He]; [lia|].
  destruct (lookup_wf k _ c e Hw ltac:(lia) He) as (_ & _ & Hterm).
  rewrite (M_bind_run _ _ _ (e_term e) r) by (unfold log_read; unfold_M; by rewrite Hterm).
  destruct (Z.eqb_spec (e_term e) (r_term r)); [|by apply Hsame].
  exists c. erewrite log_update_run by done. split; [done|].
  split; [apply set_committed_wf; [done|lia]|]. right. split_and!; [lia|lia| |eauto].
  apply sorted_matches_acked in Hc. lia.
Qed.

(** C12: The commit rule, in both flavours, for a leader whose log is well
    formed and whose peers have matched nothing past its end.  Nothing but the
    commit index changes, the log stays well formed, and when the commit index
    moves it moves forward, to an entry of the leader's own term that at least
    [quorum] other nodes are known to store. *)
Theorem maybe_commit_sound k r :
  log_wf (r_log r) → 0 < r_term r → r_state r = Leader →
  (∀ i p, r_prs r !! i = Some p → match_index p ≤ last_index (r_log r)) →
  ∃ c, maybe_commit_in k r = (Ok tt, set_log (set_committed c (r_log r)) r) ∧
    log_wf (set_committed c (r_log r)) ∧
    (c = committed (r_log r) ∨
     (committed (r_log r) < c ≤ last_index (r_log r) ∧ (quorum r ≤ acked c r)%nat ∧
      ∃ e, entry_at (r_log r) c = Some e ∧ e_term e = r_term r)).
Proof. apply maybe_commit_run. Qed.

(** The peers alone must form the majority.  The leader's own log is not
    among the counted ones, so the commit rule never moves the commit index
    of a cluster with fewer than two peers: a one-node leader proposes,
    appends and never commits. *)
Theorem small_cluster_never_commits k r :
  (size (r_prs r) ≤ 1)%nat → maybe_commit_in k r = (Ok tt, r).
Proof.
  intros Hn. unfold maybe_commit_in. rewrite (M_bind_run _ _ _ r r) by done.
  case_decide; [done|]. case_match eqn:Hq; [|done]. apply Nat.leb_le in Hq. exfalso.
  unfold sorted_matches in Hq. rewrite length_reverse, merge_sort_Permutation, length_fmap in Hq.
  unfold hash_values, quorum in Hq. rewrite length_fmap, length_hash_iter in Hq.
  destruct (size (r_prs r)) as [|[|]]; cbn in Hq; lia.
Qed.

(** ** Appending on a follower *)

(** The consistency check of AppendEntries. *)
Definition prev_matches m l : bool :=
  (msg_index m <=? last_index l) &&
  ((msg_index m =? 0) || bool_decide (e_term <$> entry_at l (msg_index m) = Some (msg_log_term m))).

(** What the leader may send: entries behind the commit index that follow the
    message's index and do not touch the first entry of the log, with an index
    the log still holds. *)
Record append_pre m l : Prop := {
  ap_wf : log_wf l;
  ap_index : msg_index m = 0 ∨ first_of l ≤ msg_index m;
  ap_entries : contiguous (msg_index m + 1) (msg_entries m);
  ap_fresh : msg_entries m ≠ [] →
    committed l ≤ msg_index m ∧ (first_of l ≤ msg_index m ∨ entries l = []);
  ap_room : msg_index m + Z.of_nat (length (msg_entries m)) < u64_max;
}.

(** The log after an accepted append. *)
Record appended m l l' : Prop := {
  ad_wf : log_wf l';
  ad_prefix : ∀ i, i ≤ msg_index m → entry_at l' i = entry_at l i;
  ad_new : ∀ n e, msg_entries m !! n = Some e →
    entry_at l' (msg_index m + 1 + Z.of_nat n) = Some e;
  ad_last : last_index l' = if decide (msg_entries m = []) then last_index l
                            else msg_index m + Z.of_nat (length (msg_entries m));
  ad_committed : committed l' = Z.max (committed l) (Z.min (msg_commit m) (last_index l'));
}.

Lemma index_nonneg m l :
  log_wf l → msg_index m = 0 ∨ first_of l ≤ msg_index m → 0 ≤ msg_index m.
Proof. intros Hw [->|?]; [lia|]. pose proof (wf_first l Hw). lia. Qed.

Lemma append_message m l :
  append_pre m l → msg_index m ≤ last_index l →
  ∃ l1, append l (msg_entries m) = Ok l1 ∧ log_wf l1 ∧ committed l1 = committed l ∧
    applied l1 = applied l ∧
    (∀ i, i ≤ msg_index m → entry_at l1 i = entry_at l i) ∧
    (∀ n e, msg_entries m !! n = Some e → entry_at l1 (msg_index m + 1 + Z.of_nat n) = Some e) ∧
    last_index l1 = (if decide (msg_entries m = []) then last_index l
                     else msg_index m + Z.of_nat (length (msg_entries m))).
Proof.
  intros [Hw Hi Hc Hf Hb] Hl. pose proof (index_nonneg m l Hw Hi).
  destruct (msg_entries m) as [|e0 es].
  { exists l. by rewrite decide_True. }
  destruct Hf as [Hf1 Hf2]; [done|]. pose proof (contiguous_cons _ _ _ Hc) as He0.
  rewrite <- He0 in Hc. cbn [length] in *.
  destruct (append_wf l e0 es Hw Hc) as (l1 & E & Hw1 & _ & Ec & Ea & El & Epre & Enew);
    [lia|destruct Hf2; [left; lia|by right]|lia|].
  exists l1. split_and!; auto.
  - intros i Hle. apply Epre. lia.
  - intros n e Hn. rewrite <- He0. by apply Enew.
  - rewrite decide_False by done. lia.
Qed.

Lemma commit_forward_wf l c :
  log_wf l →
  let l' := if committed l <? c then set_committed (Z.min c (last_index l)) l else l in
  log_wf l' ∧ (∀ i, entry_at l' i = entry_at l i) ∧ last_index l' = last_index l ∧
  committed l' = Z.max (committed l) (Z.min c (last_index l)).
Proof.
  intros Hw. pose proof (wf_committed l Hw). pose proof (wf_applied l Hw). cbn zeta.
  destruct (Z.ltb_spec (committed l) c).
  - split_and!; [apply set_committed_wf; [done|lia]|done|done|cbn; lia].
  - split_and!; [done|done|done|lia].
Qed.

Lemma mismatch_run k m r :
  log_wf (r_log r) → msg_index m = 0 ∨ first_of (r_log r) ≤ msg_index m →
  msg_index m ≤ last_index (r_log r) →
  (if 0 <? msg_index m then
     t ← log_read (term_or_fail k (msg_index m));
     mret (bool_decide (t ≠ msg_log_term m))
   else mret false) r = (Ok (negb (prev_matches m (r_log r))), r).
Proof.
  intros Hw Hi Hl. pose proof (index_nonneg m _ Hw Hi) as H0. unfold prev_matches.
  rewrite (proj2 (Z.leb_le _ _) Hl).
  destruct (Z.ltb_spec 0 (msg_index m)) as [Hpos|Hneg].
  - destruct (entry_at_range _ (msg_index m) Hw) as [e He]; [lia|].
    destruct (lookup_wf k _ _ _ Hw Hpos He) as (Hterm & _ & _).
    unfold log_read. unfold_M. rewrite Hterm, He. do 2 f_equal.
    destruct (Z.eqb_spec (msg_index m) 0); [lia|]. cbn.
    rewrite bool_decide_not. f_equal. apply bool_decide_ext. split; [by intros ->|by intros [= ->]].
  - by replace (msg_index m) with 0 by lia.
Qed.

(** C13: AppendEntries of the current term on a follower with a well-formed
    log, in both flavours.  When the entry at the message's index has the
    message's term, the new log is well formed, agrees with the old one up to
    that index, holds the entries behind it and nothing else behind them; the
    commit index moves to the leader's, capped at the last index, and the
    reply accepts with the last index.  Otherwise the log is untouched and the
    reply rejects. *)
Theorem append_entries_correct k m r :
  append_pre m (r_log r) → msg_term m = r_term r →
  ∃ r', handle_append_entries_in k m r = (Ok tt, r') ∧
    if prev_matches m (r_log r)
    then appended m (r_log r) (r_log r') ∧
         r_msgs r' = r_msgs r ++ [reply_message MsgAppendResponse (msg_from m) (r_id r) (r_term r)
                                    false (last_index (r_log r'))]
    else r_log r' = r_log r ∧ ∃ i,
         r_msgs r' = r_msgs r ++ [reply_message MsgAppendResponse (msg_from m) (r_id r) (r_term r)
                                    true i].
Proof.
  intros Hp Ht. pose proof (index_nonneg m _ (ap_wf _ _ Hp) (ap_index _ _ Hp)) as H0.
  unfold handle_append_entries_in. rewrite (M_bind_run _ _ _ r r) by done.
  rewrite Ht, Z.ltb_irrefl. rewrite (M_bind_run _ _ _ tt r) by done.
  set (r1 := set_lead (msg_from m) r).
  rewrite (M_bind_run _ _ _ tt r1), (M_bind_run _ _ _ r1 r1) by done. cbv zeta.
  change (r_log r1) with (r_log r).
  destruct (Z.ltb_spec (last_index (r_log r)) (msg_index m)) as [Hlt|Hle].
  { eexists. split; [done|]. unfold prev_matches. destruct (Z.leb_spec (msg_index m) (last_index (r_log r))); [lia|].
    cbn [andb]. split; [done|]. by eexists. }
  rewrite (M_bind_run _ _ _ _ _ (mismatch_run k m r1 (ap_wf _ _ Hp) (ap_index _ _ Hp) Hle)).
  change (r_log r1) with (r_log r). destruct (prev_matches m (r_log r)) eqn:Hprev; cbn [negb].
  - destruct (append_message m _ Hp Hle) as (l1 & Ha & Hw1 & Ec & Ea & Epre & Enew & El).
    rewrite (M_bind_run _ _ _ tt (set_log l1 r1)) by (by apply log_update_run).
    destruct (commit_forward_wf l1 (msg_commit m) Hw1) as (Hw2 & Eent & El2 & Ec2).
    erewrite M_bind_run by (by apply log_update_run).
    erewrite (M_bind_run get) by done. eexists. split; [done|]. split; [|done].
    cbn [r_log set_log set_msgs send modify]. split; [done| | | |].
    + intros i Hi. rewrite Eent. auto.
    + intros n e Hn. rewrite Eent. auto.
    + by rewrite El2.
    + by rewrite Ec2, El2, Ec.
  - unfold prev_matches in Hprev. rewrite (proj2 (Z.leb_le _ _) Hle) in Hprev. cbn [andb] in Hprev.
    apply orb_false_iff in Hprev as [Hi%Z.eqb_neq _].
    pose proof (wf_bound _ (ap_wf _ _ Hp)).
    rewrite u64_sub_ok by (unfold is_u64; lia). eexists. split; [done|]. split; [done|].
    by eexists.
Qed.

(** A retransmitted entry crashes the follower.  When the message passes
    the consistency check and starts at or below the commit index, which is
    what a leader sends again when an acknowledgement was lost, the handler
    panics instead of ignoring the entries it has. *)
Theorem append_retransmission_panics k m r e0 es :
  log_wf (r_log r) → msg_term m = r_term r →
  msg_index m = 0 ∨ first_of (r_log r) ≤ msg_index m →
  prev_matches m (r_log r) = true →
  msg_entries m = e0 :: es → e_index e0 ≤ committed (r_log r) →
  (handle_append_entries_in k m r).1 = Panic.
Proof.
  intros Hw Ht Hi Hprev Hes Hc.
  assert (msg_index m ≤ last_index (r_log r)) as Hle.
  { unfold prev_matches in Hprev. lia. }
  unfold handle_append_entries_in. rewrite (M_bind_run _ _ _ r r) by done.
  rewrite Ht, Z.ltb_irrefl. rewrite (M_bind_run _ _ _ tt r) by done.
  set (r1 := set_lead (msg_from m) r).
  rewrite (M_bind_run _ _ _ tt r1), (M_bind_run _ _ _ r1 r1) by done. cbv zeta.
  change (r_log r1) with (r_log r).
  destruct (Z.ltb_spec (last_index (r_log r)) (msg_index m)); [lia|].
  rewrite (M_bind_run _ _ _ _ _ (mismatch_run k m r1 Hw Hi Hle)).
  change (r_log r1) with (r_log r). rewrite Hprev, Hes. cbn [negb].
  unfold log_update, append. unfold_M. change (r_log r1) with (r_log r).
  by rewrite (proj2 (Z.leb_le _ _) Hc).
Qed.

(** A heartbeat commits without a check.  A heartbeat of the current term
    whose commit index reaches the end of the follower's log commits the whole
    log, whatever the terms of its entries: [send_heartbeat] announces the
    leader's own commit index, not what the follower is known to match. *)
Theorem heartbeat_commits_unchecked m r :
  log_wf (r_log r) → msg_term m = r_term r → last_index (r_log r) ≤ msg_commit m →
  ∃ r', handle_heartbeat m r = (Ok tt, r') ∧ committed (r_log r') = last_index (r_log r) ∧
    entries (r_log r') = entries (r_log r) ∧ log_wf (r_log r').
Proof.
  intros Hw Ht Hc. pose proof (wf_committed _ Hw).
  destruct (commit_forward_wf (r_log r) (msg_commit m) Hw) as (Hw2 & _ & _ & Ec).
  unfold handle_heartbeat. rewrite (M_bind_run _ _ _ r r) by done. rewrite Ht, Z.ltb_irrefl.
  rewrite (M_bind_run _ _ _ tt r), (M_bind_run _ _ _ tt (set_lead (msg_from m) r)) by done.
  erewrite M_bind_run by (by apply log_update_run). rewrite (M_bind_run get _ _ _ _ eq_refl).
  eexists. split; [done|]. cbn [r_log set_log set_lead set_msgs send modify].
  split_and!; [rewrite Ec; lia|by case_match|done].
Qed.

(** ** Elections *)

(** The peers a broadcast goes to, in the order of the map's iteration. *)
Definition other_peers r : list Z := filter (λ p, p ≠ r_id r) (hash_keys (r_prs r)).

Lemma for_each_peer_send (f : Z → M Raft unit) (g : Z → Message) r :
  (∀ p ms, p ∈ hash_keys (r_prs r) → f p (set_msgs ms r) = (Ok tt, set_msgs (ms ++ [g p]) r)) →
  for_each_peer f r = (Ok tt, set_msgs (r_msgs r ++ (g <$> other_peers r)) r).
Proof.
  unfold for_each_peer. rewrite (M_bind_run _ _ _ r r) by done. unfold other_peers. intros Hf.
  assert (∀ ms, for_each (hash_keys (r_prs r)) (λ p, if decide (p ≠ r_id r) then f p else mret tt)
    (set_msgs ms r) = (Ok tt, set_msgs (ms ++ (g <$> filter (λ p, p ≠ r_id r) (hash_keys (r_prs r)))) r))
    as H; [|specialize (H (r_msgs r)); by destruct r].
  induction (hash_keys (r_prs r)) as [|p ps IH]; intros ms; cbn [for_each].
  { by rewrite app_nil_r. }
  assert (∀ p ms, p ∈ ps → f p (set_msgs ms r) = (Ok tt, set_msgs (ms ++ [g p]) r)) as Hf'.
  { intros q ms' Hq. apply Hf. by right. }
  specialize (IH Hf'). rewrite filter_cons. case_decide.
  - rewrite (M_bind_run _ _ _ _ _ (Hf p ms ltac:(left))), IH. cbn. by rewrite <- app_assoc.
  - by rewrite (M_bind_run _ _ _ tt (set_msgs ms r)), IH by done.
Qed.

(** The message a campaign sends to a peer. *)
Definition vote_request_to r (p : Z) : Message :=
  log_message MsgRequestVote p (r_id r) (r_term r + 1) (last_term (r_log r))
    (last_index (r_log r)) [] 0.

(** The candidate a campaign makes of a node. *)
Definition candidate_of r (t : Z) (g : rng) : Raft :=
  set_rng g (set_random_election_timeout t
    (set_election_elapsed 0 (set_lead NONE (set_votes {[ r_id r := true ]}
      (set_vote (r_id r) (set_state Candidate (set_term (r_term r + 1) r))))))).

Record can_campaign r : Prop := {
  cc_log : log_wf (r_log r);
  cc_entries : entries (r_log r) ≠ [];
  cc_peers : r_prs r ≠ ∅;
  cc_term : is_u64 (r_term r + 1);
  cc_timeout : 0 ≤ r_election_timeout r ∧ is_u64 (r_election_timeout r * 2);
}.

Lemma quorum_peers r : r_prs r ≠ ∅ → quorum r ≠ 1%nat.
Proof.
  intros Hne. unfold quorum. pose proof (map_size_non_empty_iff (r_prs r)) as [_ H].
  specialize (H Hne). intros Hq.
  pose proof (Nat.Div0.div_le_mono 2 (size (r_prs r) + 1) 2). cbn in *. lia.
Qed.

(** The part of a campaign before the votes are asked for. *)
Lemma become_candidate_run r :
  is_u64 (r_term r + 1) → 0 ≤ r_election_timeout r → is_u64 (r_election_timeout r * 2) →
  ∃ t g, r_election_timeout r ≤ t ≤ r_election_timeout r * 2 ∧
    become_candidate r = (Ok tt, candidate_of r t g).
Proof.
  intros Ht Hpos Hto. unfold become_candidate, reset_random_timeout.
  destruct (gen_range (r_rng r) (r_election_timeout r) (r_election_timeout r * 2)) as [t g] eqn:Hg.
  exists t, g. split.
  { pose proof (gen_range_bounds (r_rng r) (r_election_timeout r) (r_election_timeout r * 2)) as Hb.
    rewrite Hg in Hb. apply Hb. lia. }
  unfold_M. rewrite u64_add_ok by done. cbn. unfold u64_mul. rewrite u64_norm_ok by done.
  by rewrite Hg.
Qed.

Lemma campaign_run k r :
  can_campaign r →
  ∃ t g, r_election_timeout r ≤ t ≤ r_election_timeout r * 2 ∧
    campaign_in k r = (Ok tt, set_msgs (r_msgs r ++ (vote_request_to r <$> other_peers r))
                                       (candidate_of r t g)).
Proof.
  intros [Hw Hne Hp Ht [Hpos Hto]]. unfold campaign_in.
  destruct (become_candidate_run r Ht Hpos Hto) as (t & g & Hb & Hrun).
  exists t, g. split; [done|]. rewrite (M_bind_run _ _ _ _ _ Hrun).
  rewrite (M_bind_run get _ _ _ _ eq_refl).
  assert (r_id (candidate_of r t g) = r_id r) as Eid by done.
  assert (r_term (candidate_of r t g) = r_term r + 1) as Eterm by done.
  assert (r_log (candidate_of r t g) = r_log r) as Elog by done.
  assert (r_msgs (candidate_of r t g) = r_msgs r) as Emsgs by done.
  assert (r_prs (candidate_of r t g) = r_prs r) as Eprs by done.
  clear Hrun. generalize dependent (candidate_of r t g). intros c Eid Eterm Elog Emsgs Eprs.
  rewrite decide_False by (unfold quorum; rewrite Eprs; by apply quorum_peers).
  destruct (entry_at_last _ Hw Hne) as (e & He & Hlast).
  destruct (lookup_wf k _ _ _ Hw Hlast He) as (Hterm & _ & _).
  rewrite (M_bind_run _ _ _ (e_term e) c) by (apply log_read_run; by rewrite Elog).
  rewrite (for_each_peer_send _ (vote_request_to r)).
  - unfold other_peers. by rewrite Eid, Eprs, Emsgs.
  - intros p ms _. unfold vote_request_to, last_term. by rewrite He, Eid, Eterm, Elog.
Qed.

(** One tick of a node that is not a leader. *)
Lemma tick_run r :
  can_campaign r → r_state r ≠ Leader → is_u64 (r_election_elapsed r + 1) → 0 ≤ r_term r →
  if r_election_elapsed r + 1 <? r_random_election_timeout r
  then tick r = (Ok tt, set_election_elapsed (r_election_elapsed r + 1) r)
  else ∃ t g, r_election_timeout r ≤ t ≤ r_election_timeout r * 2 ∧
    tick r = (Ok tt, set_msgs (r_msgs r ++ (vote_request_to r <$> other_peers r))
                              (candidate_of r t g)).
Proof.
  intros Hcc Hs Hu Ht. unfold tick. rewrite (M_bind_run get _ _ _ _ eq_refl).
  assert (∀ (x y : M Raft unit), match r_state r with Leader => x | _ => y end = y) as ->
    by (by intros; destruct (r_state r)).
  rewrite u64_add_ok by done. rewrite (M_bind_run (lift _) _ _ _ _ eq_refl).
  rewrite (M_bind_run (modify _) _ _ _ _ eq_refl).
  destruct (Z.ltb_spec (r_election_elapsed r + 1) (r_random_election_timeout r)).
  { by rewrite (proj2 (Z.leb_gt _ _)) by lia. }
  rewrite (proj2 (Z.leb_le _ _)) by lia. rewrite (M_bind_run (modify _) _ _ _ _ eq_refl).
  set (r0 := set_election_elapsed 0 _).
  assert (can_campaign r0) as Hcc0 by (by destruct Hcc).
  destruct (campaign_run Sync r0 Hcc0) as (t & g & Ht' & Hrun).
  exists t, g. split; [exact Ht'|].
  assert (step (local_message MsgHup (r_id r) []) r0 = campaign_in Sync r0) as Hstep.
  { unfold step, step_in. rewrite (M_bind_run get _ _ _ _ eq_refl). cbn [msg_term local_message].
    rewrite (proj2 (Z.ltb_ge _ _)) by exact Ht. rewrite (M_bind_run (mret _) _ _ _ _ eq_refl).
    rewrite (M_bind_run get _ _ _ _ eq_refl). change (r_state r0) with (r_state r).
    by destruct (r_state r). }
  unfold ignore_err. rewrite Hstep, Hrun. reflexivity.
Qed.

(** [n] ticks without a message in between. *)
Definition ticks (n : nat) r : Raft := Nat.iter n (λ r, (tick r).2) r.

Lemma ticks_S n r : ticks (S n) r = ticks n (tick r).2.
Proof. unfold ticks. by rewrite Nat.iter_succ_r. Qed.

(** Elections happen.  A node with peers that is not a leader and hears
    nothing stays as it is, but for its clock, until its random timeout is
    reached, and at that very tick becomes a candidate in the next term: it
    has voted for itself, drawn a new timeout between one and two election
    timeouts, and asked every peer for its vote exactly once. *)
Theorem election_fires r (n : nat) :
  can_campaign r → r_state r ≠ Leader → 0 ≤ r_term r → 0 ≤ r_election_elapsed r →
  r_random_election_timeout r ≤ u64_max →
  (r_election_elapsed r + Z.of_nat n < r_random_election_timeout r →
   ticks n r = set_election_elapsed (r_election_elapsed r + Z.of_nat n) r) ∧
  (r_election_elapsed r + Z.of_nat n = r_random_election_timeout r → n ≠ 0%nat →
   ∃ t g, r_election_timeout r ≤ t ≤ r_election_timeout r * 2 ∧
     ticks n r = set_msgs (r_msgs r ++ (vote_request_to r <$> other_peers r)) (candidate_of r t g)).
Proof.
  revert r. induction n as [|n IH]; intros r Hcc Hs Ht He Hto.
  { split; [|done]. intros _. rewrite Z.add_0_r. by destruct r. }
  destruct (Z.le_gt_cases (r_random_election_timeout r) (r_election_elapsed r)); [split; intros; lia|].
  rewrite ticks_S. pose proof (tick_run r Hcc Hs ltac:(unfold is_u64; lia) Ht) as Htick.
  destruct (Z.ltb_spec (r_election_elapsed r + 1) (r_random_election_timeout r)) as [Hlt|Hge].
  - rewrite Htick. cbn [snd]. set (r1 := set_election_elapsed _ r).
    destruct (IH r1) as [IH1 IH2]; [by destruct Hcc|done|done|cbn; lia|done|].
    cbn [r_election_elapsed r_random_election_timeout r1 set_election_elapsed] in IH1, IH2.
    split; [intros Hn|intros Hn _].
    + rewrite IH1 by lia.
      by replace (r_election_elapsed r + 1 + Z.of_nat n)
        with (r_election_elapsed r + Z.of_nat (S n)) by lia.
    + destruct IH2 as (t & g & Hb & Hr); [lia|lia|]. exists t, g. split; [done|]. exact Hr.
  - destruct n as [|n]; [|split; intros; lia]. split; [lia|intros _ _].
    destruct Htick as (t & g & Hb & Hr). exists t, g. split; [done|]. by rewrite Hr.
Qed.

(** A node whose log holds no entries cannot campaign.  After it installed
    a snapshot (or, in the asynchronous flavour, when it is fresh) the term of
    its last index is not found, the campaign ends in an error, and the node is
    left a candidate in the next term that has asked nobody for a vote. *)
Theorem campaign_without_entries_fails k r :
  log_wf (r_log r) → entries (r_log r) = [] → k = Async ∨ 0 < last_index (r_log r) →
  r_prs r ≠ ∅ → is_u64 (r_term r + 1) →
  0 ≤ r_election_timeout r → is_u64 (r_election_timeout r * 2) →
  ∃ e r', campaign_in k r = (Err e, r') ∧ r_state r' = Candidate ∧
    r_term r' = r_term r + 1 ∧ r_msgs r' = r_msgs r.
Proof.
  intros Hw He Hk Hp Ht Hpos Hto. unfold campaign_in.
  destruct (become_candidate_run r Ht Hpos Hto) as (t & g & _ & Hrun).
  rewrite (M_bind_run _ _ _ _ _ Hrun), (M_bind_run get _ _ _ _ eq_refl).
  rewrite decide_False by (by apply quorum_peers).
  assert (r_log (candidate_of r t g) = r_log r) as Elog by done. cbv zeta.
  pose proof (last_index_wf _ (wf_no_snapshot _ Hw) (wf_contiguous _ Hw)) as Hl.
  rewrite He in Hl. cbn [length] in Hl.
  assert (∃ e, term_or_fail k (last_index (r_log r)) (r_log r) = Err e) as [e Herr].
  { destruct k; cbn [term_or_fail].
    - destruct Hk as [?|?]; [done|]. rewrite term_sync_wf, decide_False by (done || lia).
      unfold entry_at. rewrite decide_False by lia. by eexists.
    - unfold RaftLog.term. rewrite (first_index_wf _ Hw). cbn [mbind outcome_bind].
      rewrite (proj2 (Z.ltb_lt _ _)) by lia. by eexists. }
  exists e, (candidate_of r t g). split; [|done].
  unfold log_read. unfold_M. rewrite Elog, Herr. done.
Qed.

(** ** Proposals *)

(** The append a leader sends to a peer. *)
Definition append_message_to r (to : Z) : Message :=
  let next := default 0 (next_index <$> r_prs r !! to) in
  log_message MsgAppend to (r_id r) (r_term r)
    (default 0 (e_term <$> entry_at (r_log r) (next - 1))) (next - 1)
    (drop (Z.to_nat (next - first_of (r_log r))) (entries (r_log r))) (committed (r_log r)).

Lemma send_append_run k to p r :
  log_wf (r_log r) → r_prs r !! to = Some p →
  first_of (r_log r) ≤ next_index p ≤ last_index (r_log r) + 1 →
  send_append_in k to r = (Ok tt, set_msgs (r_msgs r ++ [append_message_to r to]) r).
Proof.
  intros Hw Hp Hn. pose proof (wf_first _ Hw). pose proof (wf_bound _ Hw).
  pose proof (last_index_wf _ (wf_no_snapshot _ Hw) (wf_contiguous _ Hw)) as Hl.
  unfold send_append_in. rewrite (M_bind_run get _ _ _ _ eq_refl), Hp.
  rewrite u64_add_ok by (unfold is_u64; lia). rewrite (M_bind_run (lift _) _ _ _ _ eq_refl).
  rewrite (proj2 (Z.ltb_ge _ _)) by lia.
  unfold append_message_to. rewrite Hp. cbn [default from_option fmap option_fmap option_map id].
  set (es := drop _ _).
  erewrite (M_bind_run _ _ r es r).
  2: { destruct (Z.leb_spec (next_index p) (last_index (r_log r))) as [Hle|Hgt].
    - rewrite (M_bind_run _ _ _ _ _ (log_read_run _ _ _ (first_index_wf _ Hw))).
      rewrite !u64_sub_ok by (unfold is_u64; lia).
      rewrite (M_bind_run (lift _) _ _ _ _ eq_refl), (M_bind_run (lift _) _ _ _ _ eq_refl).
      rewrite u64_add_ok by (unfold is_u64; lia). rewrite (M_bind_run (lift _) _ _ _ _ eq_refl).
      cbv zeta. unfold lift, zslice, all_entries.
      rewrite decide_True by lia. do 2 f_equal. apply take_ge. unfold es. rewrite length_drop. lia.
    - unfold es. rewrite drop_ge by lia. done. }
  rewrite (proj2 (Z.ltb_lt _ _)) by lia. rewrite u64_sub_ok by (unfold is_u64; lia).
  assert (log_read (term_or_0 k (next_index p - 1)) r
    = (Ok (default 0 (e_term <$> entry_at (r_log r) (next_index p - 1))), r)) as Hterm.
  { apply log_read_run. destruct (Z.le_gt_cases (first_of (r_log r)) (next_index p - 1)).
    - destruct (entry_at_range _ (next_index p - 1) Hw) as [e He]; [lia|].
      assert (0 < next_index p - 1) as Hpos by lia.
      destruct (lookup_wf k _ _ _ Hw Hpos He) as (_ & -> & _). by rewrite He.
    - assert (entry_at (r_log r) (next_index p - 1) = None) as Hnone
        by (unfold entry_at; by rewrite decide_False by lia).
      rewrite Hnone. destruct k; cbn [term_or_0].
      + rewrite term_sync_wf, Hnone by (done || lia). by case_decide.
      + unfold RaftLog.term. rewrite (first_index_wf _ Hw). cbn [mbind outcome_bind].
        by rewrite (proj2 (Z.ltb_lt _ _)) by lia. }
  erewrite M_bind_run by (rewrite (M_bind_run (lift _) _ _ _ _ eq_refl); exact Hterm).
  by rewrite (M_bind_run (lift _) _ _ _ _ eq_refl).
Qed.

(** What replication sends.  To a peer whose next index lies in the log or
    just behind it goes one message, with the index and term of the preceding
    entry (term 0 when the log no longer holds it), the entries from the next
    index to the end of the log, all of them and in order, and the leader's
    commit index; to an unknown peer, or one beyond the log, goes nothing. *)
Theorem send_append_exact k to r :
  log_wf (r_log r) →
  match r_prs r !! to with
  | Some p =>
      (last_index (r_log r) + 1 < next_index p → send_append_in k to r = (Ok tt, r)) ∧
      (first_of (r_log r) ≤ next_index p ≤ last_index (r_log r) + 1 →
       let m := append_message_to r to in
       send_append_in k to r = (Ok tt, set_msgs (r_msgs r ++ [m]) r) ∧
       msg_type m = MsgAppend ∧ msg_to m = to ∧ msg_from m = r_id r ∧ msg_term m = r_term r ∧
       msg_index m = next_index p - 1 ∧
       msg_log_term m = default 0 (e_term <$> entry_at (r_log r) (next_index p - 1)) ∧
       msg_commit m = committed (r_log r) ∧
       ∀ i : nat, msg_entries m !! i = entry_at (r_log r) (next_index p + Z.of_nat i))
  | None => send_append_in k to r = (Ok tt, r)
  end.
Proof.
  intros Hw. destruct (r_prs r !! to) as [p|] eqn:Hp.
  - split.
    + intros Hn. pose proof (wf_bound _ Hw). pose proof (last_index_nonneg _ Hw).
      unfold send_append_in. rewrite (M_bind_run get _ _ _ _ eq_refl), Hp.
      rewrite u64_add_ok by (unfold is_u64; lia). rewrite (M_bind_run (lift _) _ _ _ _ eq_refl).
      by rewrite (proj2 (Z.ltb_lt _ _)) by lia.
    + intros Hn m. rewrite (send_append_run k to p r Hw Hp Hn).
      unfold m, append_message_to. rewrite Hp. split_and!; try done.
      intros i. cbn. rewrite lookup_drop. unfold entry_at. rewrite decide_True by lia. f_equal. lia.
  - unfold send_append_in. rewrite (M_bind_run get _ _ _ _ eq_refl). by rewrite Hp.
Qed.

(** A leader whose peers' progress lies within its log. *)
Record leader_wf r : Prop := {
  lw_log : log_wf (r_log r);
  lw_term : 0 < r_term r;
  lw_state : r_state r = Leader;
  lw_peers : ∀ i p, r_prs r !! i = Some p →
    match_index p ≤ last_index (r_log r) ∧
    first_of (r_log r) ≤ next_index p ≤ last_index (r_log r) + 1;
}.

Lemma contiguous_self_head e es f : contiguous f (e :: es) → contiguous (e_index e) (e :: es).
Proof. intros Hc. by rewrite (contiguous_cons _ _ _ Hc). Qed.

Lemma append_at_end l es :
  log_wf l → contiguous (last_index l + 1) es →
  last_index l + Z.of_nat (length es) < u64_max →
  ∃ l', append l es = Ok l' ∧ log_wf l' ∧ first_of l' = first_of l ∧
    committed l' = committed l ∧ last_index l' = last_index l + Z.of_nat (length es) ∧
    (∀ i, i ≤ last_index l → entry_at l' i = entry_at l i) ∧
    (∀ n e, es !! n = Some e → entry_at l' (last_index l + 1 + Z.of_nat n) = Some e).
Proof.
  intros Hw Hc Hb. destruct es as [|e0 es].
  { exists l. cbn. split_and!; done || lia. }
  pose proof (contiguous_cons _ _ _ Hc) as He0. pose proof (wf_committed l Hw).
  pose proof (last_index_wf l (wf_no_snapshot l Hw) (wf_contiguous l Hw)) as Hl.
  destruct (append_wf l e0 es Hw (contiguous_self_head _ _ _ Hc)) as
    (l' & E & Hw' & Hf & Ec & _ & El & Epre & Enew).
  - lia.
  - rewrite He0. destruct (entries l); [by right|left; cbn in Hl; lia].
  - cbn in Hb. lia.
  - exists l'. split_and!; auto.
    + rewrite El. cbn. lia.
    + intros i Hi. apply Epre. lia.
    + intros n e Hn. rewrite <- He0. by apply Enew.
Qed.

(** A proposal on a leader.  Its payloads are appended in order behind the
    log, with the leader's term and their types kept; the log stays well
    formed, nothing that was in it changes and the commit index does not move
    back; every peer is sent one append message built from the new log. *)
Theorem propose_correct k m r :
  leader_wf r → msg_type m = MsgPropose → msg_term m ≤ r_term r →
  last_index (r_log r) + Z.of_nat (length (msg_entries m)) < u64_max →
  ∃ r', step_in k m r = (Ok tt, r') ∧ log_wf (r_log r') ∧
    r_msgs r' = r_msgs r ++ (append_message_to r' <$> other_peers r) ∧
    committed (r_log r) ≤ committed (r_log r') ∧
    last_index (r_log r') = last_index (r_log r) + Z.of_nat (length (msg_entries m)) ∧
    (∀ i, i ≤ last_index (r_log r) → entry_at (r_log r') i = entry_at (r_log r) i) ∧
    (∀ n e, msg_entries m !! n = Some e →
       entry_at (r_log r') (last_index (r_log r) + 1 + Z.of_nat n)
       = Some {| e_type := e_type e; e_term := r_term r;
                 e_index := last_index (r_log r) + 1 + Z.of_nat n; e_data := e_data e |}).
Proof.
  intros [Hw Ht Hs Hp] Hty Hmt Hroom. pose proof (last_index_nonneg _ Hw) as H0.
  unfold step_in. rewrite (M_bind_run get _ _ _ _ eq_refl), (proj2 (Z.ltb_ge _ _)) by lia.
  rewrite (M_bind_run (mret _) _ _ _ _ eq_refl), (M_bind_run get _ _ _ _ eq_refl), Hs.
  unfold step_leader_in. rewrite Hty, (M_bind_run get _ _ _ _ eq_refl).
  destruct (renumber_spec (r_term r) (last_index (r_log r)) 0 (msg_entries m))
    as (es & -> & Hc & Hlen & Hnth); [lia..|]. rewrite Z.add_0_r in Hc.
  rewrite (M_bind_run (lift _) _ _ _ _ eq_refl).
  destruct (append_at_end _ es Hw Hc) as (l' & Ha & Hw' & Hf' & Ec & El & Epre & Enew); [lia|].
  rewrite (M_bind_run _ _ _ tt (set_log l' r)) by (by apply log_update_run).
  destruct (maybe_commit_run k (set_log l' r)) as (c & Hmc & Hwc & Hcc); [done|done|done| |].
  { cbn. intros i p [? _]%Hp. lia. }
  rewrite (M_bind_run _ _ _ _ _ Hmc). cbn [r_log set_log] in *.
  set (r2 := set_log _ (set_log l' r)).
  eexists. rewrite (for_each_peer_send _ (append_message_to r2)).
  2: { intros p ms [q Hq]%elem_of_hash_keys. change (r_prs r2) with (r_prs r) in Hq.
    destruct (Hp _ _ Hq) as [_ ?].
    rewrite (send_append_run k p q (set_msgs ms r2)); [done|done|done|].
    change (first_of l' ≤ next_index q ≤ last_index l' + 1). lia. }
  split; [done|]. cbn. split_and!; try done; try (rewrite <- Ec; naive_solver lia); try lia.
  - rewrite <- Hlen. exact El.
  - intros n e He%Hnth. rewrite Z.add_0_r in He. by apply Enew.
Qed.
End replication.

(** ** A cluster to evaluate on *)

#[local] Existing Instance map_order.
#[local] Existing Instance low_rng.
#[local] Instance debug_build : BuildProfile := true.

(** Node 1 of three, in term 3, with [sample_log]. *)
Definition node (s : StateType) (l : RaftLog) : Raft (rand := low_rng) :=
  {| r_id := 1; r_term := 3; r_vote := NONE; r_log := l;
     r_prs := {[ 2 := mkProgress 3 4; 3 := mkProgress 3 4 ]}; r_state := s;
     r_votes := ∅; r_msgs := []; r_lead := NONE; r_heartbeat_timeout := 1;
     r_election_timeout := 5; r_heartbeat_elapsed := 0; r_election_elapsed := 0;
     r_random_election_timeout := 5; r_rng := () |}.

(** [sample_log] with its last entry in term 3. *)
Definition current_log : RaftLog :=
  set_entries [Entry_new_normal 1 1 []; Entry_new_normal 1 2 []; Entry_new_normal 3 3 []] sample_log.

Lemma current_log_wf : log_wf current_log.
Proof. solve_log_wf. Qed.

Lemma node_peers (P : Z → Progress → Prop) s l :
  P 2 (mkProgress 3 4) → P 3 (mkProgress 3 4) → ∀ i p, r_prs (node s l) !! i = Some p → P i p.
Proof.
  intros H2 H3 i p. cbn. rewrite lookup_insert_Some, lookup_singleton_Some. naive_solver.
Qed.

Lemma request_vote_exact_witness :
  r_msgs (handle_request_vote_in Sync (log_message MsgRequestVote 1 2 3 2 3 [] 0)
            (node Follower sample_log)).2
  = [reply_message MsgRequestVoteResponse 2 1 3 false 0].
Proof.
  rewrite (request_vote_exact Sync (log_message MsgRequestVote 1 2 3 2 3 [] 0)
    (node Follower sample_log) sample_log_wf); [by vm_compute|discriminate|reflexivity].
Defined.

Lemma maybe_commit_sound_witness :
  ∃ c, maybe_commit (node Leader current_log)
    = (Ok tt, set_log (set_committed c current_log) (node Leader current_log)) ∧
    committed (r_log (maybe_commit (node Leader current_log)).2) = 3.
Proof.
  destruct (maybe_commit_sound Sync (node Leader current_log) current_log_wf eq_refl eq_refl)
    as (c & H & _).
  - apply node_peers; by vm_compute.
  - exists c. split; [exact H|by vm_compute].
Defined.

Lemma small_cluster_never_commits_witness :
  maybe_commit (set_prs ∅ (node Leader current_log)) = (Ok tt, set_prs ∅ (node Leader current_log)).
Proof. apply (small_cluster_never_commits Sync). vm_compute. auto. Defined.

Definition sample_append : Message :=
  log_message MsgAppend 1 2 3 2 3 [Entry_new_normal 3 4 []] 4.

Lemma append_entries_correct_witness :
  ∃ r', handle_append_entries_in Sync sample_append (node Follower sample_log) = (Ok tt, r') ∧
    appended sample_append sample_log (r_log r').
Proof.
  destruct (append_entries_correct Sync sample_append (node Follower sample_log))
    as (r' & H1 & H2); [|reflexivity|exists r'; split; [exact H1|exact (proj1 H2)]].
  split; [exact sample_log_wf|right; by vm_compute|solve_contiguous| |by vm_compute].
  intros _. split; [by vm_compute|left; by vm_compute].
Defined.

Definition old_append : Message :=
  log_message MsgAppend 1 2 3 1 1 [Entry_new_normal 1 2 []] 2.

Lemma append_retransmission_panics_witness :
  (handle_append_entries_in Sync old_append (node Follower sample_log)).1 = Panic.
Proof.
  apply (append_retransmission_panics Sync old_append (node Follower sample_log)
    (Entry_new_normal 1 2 []) []);
    [exact sample_log_wf|reflexivity|right; by vm_compute|by vm_compute|reflexivity|by vm_compute].
Defined.

Lemma heartbeat_commits_unchecked_witness :
  ∃ r', handle_heartbeat (log_message MsgHeartbeat 1 2 3 0 0 [] 9) (node Follower sample_log)
        = (Ok tt, r') ∧ committed (r_log r') = 3.
Proof.
  edestruct (heartbeat_commits_unchecked (log_message MsgHeartbeat 1 2 3 0 0 [] 9)
    (node Follower sample_log)) as (r' & H1 & H2 & _);
    [exact sample_log_wf|reflexivity|by vm_compute|].
  exists r'. split; [exact H1|exact H2].
Defined.

Lemma node_can_campaign s : can_campaign (node s sample_log).
Proof.
  split; [exact sample_log_wf|discriminate|by vm_compute|by split; vm_compute|].
  split; [by vm_compute|by split; vm_compute].
Qed.

Lemma election_fires_witness :
  ∃ t g, 5 ≤ t ≤ 10 ∧ ticks 5 (node Follower sample_log)
    = set_msgs (vote_request_to (node Follower sample_log)
                <$> other_peers (node Follower sample_log))
               (candidate_of (node Follower sample_log) t g).
Proof.
  refine (proj2 (election_fires (node Follower sample_log) 5 (node_can_campaign Follower)
    _ _ _ _) _ _); by vm_compute.
Defined.

(** A log that was just replaced by a snapshot at index 2. *)
Definition snapshot_log : RaftLog := set_applied 2 (set_entries [] sample_log).

Lemma campaign_without_entries_fails_witness :
  ∃ e r', campaign_in Sync (node Follower snapshot_log) = (Err e, r') ∧
    r_state r' = Candidate ∧ r_msgs r' = [].
Proof.
  assert (log_wf snapshot_log) as Hw by solve_log_wf.
  destruct (campaign_without_entries_fails Sync (node Follower snapshot_log) Hw eq_refl)
    as (e & r' & H1 & H2 & _ & H3);
    [right; by vm_compute|by vm_compute|by split; vm_compute|by vm_compute|by split; vm_compute|].
  exists e, r'. split; [exact H1|]. split; [exact H2|exact H3].
Defined.

Lemma node_leader_wf : leader_wf (node Leader sample_log).
Proof.
  split; [exact sample_log_wf|by vm_compute|reflexivity|].
  apply (node_peers (λ _ p, match_index p ≤ 3 ∧ 1 ≤ next_index p ≤ 4)); cbn; lia.
Qed.

(** The leader with a single peer that stores the first entry. *)
Definition behind : Raft (rand := low_rng) := set_prs {[ 2 := mkProgress 1 2 ]} (node Leader sample_log).

Lemma send_append_exact_witness :
  send_append_in Sync 2 behind = (Ok tt, set_msgs [append_message_to behind 2] behind) ∧
  msg_entries (append_message_to behind 2) !! 0%nat = Some (Entry_new_normal 1 2 []).
Proof.
  destruct (proj2 (send_append_exact Sync 2 behind sample_log_wf))
    as (H1 & _ & _ & _ & _ & _ & _ & _ & H2).
  - by split; vm_compute.
  - split; [exact H1|exact (H2 0%nat)].
Defined.

Lemma propose_correct_witness :
  ∃ r', step_in Sync (local_message MsgPropose 1 [Entry_new_normal 0 0 []])
                 (node Leader sample_log) = (Ok tt, r') ∧
    log_wf (r_log r') ∧ last_index (r_log r') = 4.
Proof.
  destruct (propose_correct Sync (local_message MsgPropose 1 [Entry_new_normal 0 0 []])
    (node Leader sample_log) node_leader_wf eq_refl) as (r' & H1 & H2 & _ & _ & H3 & _);
    [by vm_compute|by vm_compute|].
  exists r'. split; [exact H1|]. split; [exact H2|exact H3].
Defined.
