(* ===== verification/RaftElections.v ===== *)
(** Elections, as the handlers of src/raft/raft.rs hold them: what one step of a
    node may change.

    A call is calm when it leaves the term, the vote, the role and the votes
    received as they are and sends nothing that belongs to an election; every
    handler of replication is.  The relation [elects] says what a step on a
    message may do besides: the term only grows, a vote is cast once in a term,
    votes are counted only as they are granted, and a leader comes out only of
    a quorum.  [elects_step] proves it of [step] on any message, as long as a
    candidate or leader does not follow one that is older than itself.  RaftCluster.v
    puts the steps of several nodes together. *)

From S2P Require Import Prelude Bytes RaftTypes RaftLog Raft RaftReplication.

(** ** Calls that keep a relation *)

Section keeps.
Context {S : Type} (R : relation S) {pre : PreOrder R}.

(** However the call ends, the state is related to the one before. *)
Definition keeps {A} (f : M S A) (s : S) : Prop := wp f (λ _, R s) (R s) s.

Lemma keeps_ret {A} (a : A) s : keeps (mret a) s.
Proof. apply wp_ret. reflexivity. Qed.
Lemma keeps_lift {A} (o : outcome A) s : keeps (lift o) s.
Proof. apply wp_lift; reflexivity. Qed.
Lemma keeps_modify (f : S → S) s : R s (f s) → keeps (modify f) s.
Proof. done. Qed.
Lemma keeps_bind {A B} (f : M S A) (g : A → M S B) s :
  keeps f s → (∀ a s', keeps (g a) s') → keeps (f ≫= g) s.
Proof using pre.
  intros Hf Hg. apply wp_bind. eapply wp_mono; [exact Hf| |done]. cbn.
  intros a s' Hs. eapply wp_mono; [apply Hg|cbn; intros; by transitivity s'..].
Qed.
Lemma keeps_get_bind {B} (g : S → M S B) s : keeps (g s) s → keeps (get ≫= g) s.
Proof. done. Qed.
Lemma keeps_ret_bind {A B} (a : A) (g : A → M S B) s : keeps (g a) s → keeps (mret a ≫= g) s.
Proof. done. Qed.
Lemma keeps_modify_bind {B} (f : S → S) (g : unit → M S B) s :
  R s (f s) → keeps (g tt) (f s) → keeps (modify f ≫= g) s.
Proof using pre. intros Hf Hg. apply wp_bind, wp_modify. eapply wp_mono; [exact Hg|cbn; intros; by etrans..]. Qed.
Lemma keeps_lift_bind {A B} (o : outcome A) (g : A → M S B) s :
  (∀ a, o = Ok a → keeps (g a) s) → keeps (lift o ≫= g) s.
Proof using pre. intros Hg. apply wp_bind, wp_lift; [done|reflexivity]. Qed.
Lemma keeps_skip {B} (f : M S unit) (g : unit → M S B) s : f s = (Ok tt, s) → keeps (g tt) s → keeps (f ≫= g) s.
Proof. intros Hf Hg. unfold keeps, wp, mbind, M_bind. rewrite Hf. exact Hg. Qed.
Lemma keeps_for_each {A} (l : list A) (f : A → M S unit) s :
  (∀ x s0, keeps (f x) s0) → keeps (for_each l f) s.
Proof using pre.
  intros Hf. apply (wp_for_each (R s)); [reflexivity|]. intros x s0 _ Hs.
  eapply wp_mono; [apply Hf|cbn; intros; by transitivity s0..].
Qed.
Lemma keeps_ignore {A} (f : M S A) s : keeps f s → keeps (ignore_err f) s.
Proof. intros Hf. apply wp_ignore_err. eapply wp_mono; [exact Hf|done|done]. Qed.
End keeps.

(** ** Calls that do not take part in an election *)

Section elections.
Context `{prof : BuildProfile} `{order : HashOrder} `{rand : RandomSource}.
Implicit Types (r : Raft) (m g : Message) (k : lookup).

(** A vote granted, and a request for one. *)
Definition is_grant m : Prop := msg_type m = MsgRequestVoteResponse ∧ msg_reject m = false.
Definition is_request m : Prop := msg_type m = MsgRequestVote.
Definition harmless m : Prop := ¬ is_request m ∧ ¬ is_grant m.

Record calm r r' : Prop := {
  ca_id : r_id r' = r_id r;
  ca_term : r_term r' = r_term r;
  ca_vote : r_vote r' = r_vote r;
  ca_state : r_state r' = r_state r;
  ca_votes : r_votes r' = r_votes r;
  ca_members : dom (r_prs r') = dom (r_prs r);
  ca_msgs : ∃ ms, r_msgs r' = r_msgs r ++ ms ∧ Forall harmless ms;
}.
#[export] Instance calm_preorder : PreOrder calm.
Proof.
  split.
  - intros r. split; try done. exists []. by rewrite app_nil_r.
  - intros r1 r2 r3 [] []. split; try congruence. destruct ca_msgs0 as (ms & E & H), ca_msgs1 as (ms' & E' & H').
    exists (ms ++ ms'). rewrite E', E, app_assoc. by rewrite Forall_app.
Qed.

Lemma calm_update r r' l ps lead :
  dom ps = dom (r_prs r) → r_msgs r' = r_msgs r →
  (r_id r', r_term r', r_vote r', r_log r', r_prs r', r_state r', r_votes r', r_lead r') =
    (r_id r, r_term r, r_vote r, l, ps, r_state r, r_votes r, lead) → calm r r'.
Proof. intros Hd Hm [= ????????]. split; try congruence. exists []. by rewrite app_nil_r. Qed.

Lemma calm_send m r : harmless m → keeps calm (send m) r.
Proof. intros Hm. apply keeps_modify. split; try done. exists [m]. split; [done|]. by apply Forall_singleton. Qed.
Lemma calm_log_read {A} (f : RaftLog → outcome A) r : keeps calm (log_read f) r.
Proof. unfold log_read. apply keeps_get_bind, keeps_lift. apply _. Qed.
Lemma calm_log_update (f : RaftLog → outcome RaftLog) r : keeps calm (log_update f) r.
Proof.
  unfold log_update. apply keeps_get_bind, keeps_lift_bind; [apply _|]. intros l _. apply keeps_modify.
  by eapply calm_update.
Qed.

Ltac calm :=
  cbv beta zeta;
  lazymatch goal with
  | |- keeps _ (get ≫= _) _ => apply keeps_get_bind; calm
  | |- keeps _ (lift _ ≫= _) _ => apply keeps_lift_bind; [apply _|intros ? _; calm]
  | |- keeps _ (_ ≫= _) _ => apply keeps_bind; [apply _|calm|intros ? ?; calm]
  | |- keeps _ (mret _) _ => apply keeps_ret; apply _
  | |- keeps _ (lift _) _ => apply keeps_lift; apply _
  | |- keeps _ (log_read _) _ => apply calm_log_read
  | |- keeps _ (log_update _) _ => apply calm_log_update
  | |- keeps _ (send _) _ => apply calm_send; split; [by intros [=]|first [by intros [[=] _]|by intros [_ [=]]]]
  | |- keeps _ (match _ with _ => _ end) _ => case_match; calm
  | _ => idtac
  end.

Lemma calm_send_append k to r : keeps calm (send_append_in k to) r.
Proof. unfold send_append_in. calm. Qed.
Lemma calm_for_each_peer (f : Z → M Raft unit) r : (∀ p r0, keeps calm (f p) r0) → keeps calm (for_each_peer f) r.
Proof.
  intros Hf. unfold for_each_peer. apply keeps_get_bind, keeps_for_each; [apply _|]. intros p r0.
  case_decide; [apply Hf|]. apply keeps_ret. apply _.
Qed.
Lemma calm_maybe_commit k r : keeps calm (maybe_commit_in k) r.
Proof. unfold maybe_commit_in. calm. Qed.

Lemma calm_handle_append_entries k m r : msg_term m ≤ r_term r → keeps calm (handle_append_entries_in k m) r.
Proof.
  intros Ht. unfold handle_append_entries_in. apply keeps_get_bind. case_match; [calm|].
  apply keeps_skip. { by rewrite (proj2 (Z.ltb_ge _ _)) by lia. }
  apply keeps_modify_bind; [apply _|by eapply calm_update|]. cbv zeta. calm.
Qed.
Lemma calm_handle_heartbeat m r : msg_term m ≤ r_term r → keeps calm (handle_heartbeat m) r.
Proof.
  intros Ht. unfold handle_heartbeat. apply keeps_get_bind. case_match; [calm|].
  apply keeps_skip. { by rewrite (proj2 (Z.ltb_ge _ _)) by lia. }
  apply keeps_modify_bind; [apply _|by eapply calm_update|]. calm.
Qed.
Lemma calm_handle_snapshot m r : keeps calm (handle_snapshot m) r.
Proof. unfold handle_snapshot. calm. Qed.
Lemma calm_handle_append_response k m r : keeps calm (handle_append_response_in k m) r.
Proof.
  unfold handle_append_response_in. apply keeps_get_bind. case_match; [calm|].
  apply keeps_bind; [apply _| |].
  - destruct (r_prs r !! msg_from m) as [p|] eqn:Hp; [|calm]. apply keeps_lift_bind; [apply _|]. intros p' _.
    apply keeps_modify. eapply calm_update; [|done|done]. cbn. rewrite dom_insert_L.
    assert (msg_from m ∈ dom (r_prs r)) by (apply elem_of_dom; eauto). set_solver.
  - intros _ r1. apply keeps_bind; [apply _| |].
    + case_match; [calm|apply calm_maybe_commit].
    + intros _ r2. apply keeps_get_bind. repeat case_match; try apply calm_send_append; calm.
Qed.
Lemma calm_handle_heartbeat_response k m r : keeps calm (handle_heartbeat_response_in k m) r.
Proof. unfold handle_heartbeat_response_in. apply keeps_get_bind. repeat case_match; try apply calm_send_append; calm. Qed.

(** ** One step of an election *)

(** What holds of a node and of a message it gets: a candidate or leader has
    voted for itself, and no node asks itself for a vote. *)
Record el_pre m r : Prop := {
  ep_id : r_id r ≠ NONE;
  ep_self : r_state r ≠ Follower → r_vote r = r_id r;
  ep_request : is_request m → msg_from m ≠ r_id r;
}.

(** A message sent on the way from [r] to [r'] while [m] is handled. *)
Record sent_ok m r r' g : Prop := {
  so_request : is_request g → msg_from g = r_id r ∧ msg_to g ∈ dom (r_prs r);
  so_grant : is_grant g →
    msg_from g = r_id r ∧ msg_term g = r_term r' ∧ r_state r' = Follower ∧
    is_request m ∧ msg_to g = msg_from m ∧ r_vote r' = msg_from m ∧
    (r_term r' = r_term r → r_state r = Follower ∧ (r_vote r = NONE ∨ r_vote r = msg_from m));
}.

Record elects m r r' : Prop := {
  el_id : r_id r' = r_id r;
  el_members : dom (r_prs r') = dom (r_prs r);
  el_term : r_term r ≤ r_term r';
  el_follower : r_term r' = r_term r → r_state r = Follower →
    r_state r' = Follower ∧ (r_vote r ≠ NONE → r_vote r' = r_vote r);
  el_self : r_state r' ≠ Follower → r_vote r' = r_id r;
  el_votes : ∀ p, r_votes r' !! p = Some true →
    (r_term r' = r_term r ∧ r_votes r !! p = Some true) ∨ p = r_id r ∨
    (p = msg_from m ∧ is_grant m ∧ msg_term m = r_term r');
  el_leader : r_state r' = Leader →
    (r_state r = Leader ∧ r_term r' = r_term r ∧ r_votes r' = r_votes r) ∨
    ((quorum r' ≤ count_votes true r')%nat ∧ (r_term r' = r_term r ∨ quorum r' = 1%nat));
  el_stays : r_state r = Leader → r_term r' = r_term r → msg_type m ≠ MsgSnapshot → r_state r' = Leader;
  el_msgs : ∃ ms, r_msgs r' = r_msgs r ++ ms ∧ Forall (sent_ok m r r') ms;
}.

Lemma quorum_members r r' : dom (r_prs r') = dom (r_prs r) → quorum r' = quorum r.
Proof. intros H. unfold quorum. by rewrite <- !size_dom, H. Qed.

Lemma harmless_ok m r r' ms : Forall harmless ms → Forall (sent_ok m r r') ms.
Proof. intros H. eapply Forall_impl; [exact H|]. intros g [H1 H2]. by split. Qed.

Lemma elects_calm m r r' : el_pre m r → calm r r' → elects m r r'.
Proof.
  intros [Hid Hself _] []. split; try done.
  - lia.
  - rewrite ca_state0, ca_vote0. done.
  - rewrite ca_state0, ca_vote0. done.
  - intros p. rewrite ca_votes0. auto.
  - intros Hl. left. split_and!; congruence.
  - intros. congruence.
  - destruct ca_msgs0 as (ms & E & H). exists ms. split; [done|]. by apply harmless_ok.
Qed.

Lemma elects_then_calm m r r1 r2 : elects m r r1 → calm r1 r2 → elects m r r2.
Proof.
  intros [] []. split; try congruence.
  - rewrite ca_term0, ca_state0, ca_vote0. done.
  - rewrite ca_state0, ca_vote0. done.
  - intros p. rewrite ca_votes0, ca_term0. auto.
  - rewrite ca_state0, ca_term0, ca_votes0. intros [?|?]%el_leader0; [by left|right].
    unfold count_votes in *. by rewrite ca_votes0, (quorum_members r1).
  - rewrite ca_state0, ca_term0. done.
  - destruct el_msgs0 as (ms & E & H), ca_msgs0 as (ms' & E' & H'). exists (ms ++ ms').
    rewrite E', E, app_assoc. split; [done|]. apply Forall_app. split.
    + eapply Forall_impl; [exact H|]. intros g [H1 H2]. split; [done|]. by rewrite ca_term0, ca_state0, ca_vote0.
    + by apply harmless_ok.
Qed.

(** What becoming a follower leaves. *)
Record demoted (term : Z) r r1 : Prop := {
  de_id : r_id r1 = r_id r;
  de_members : r_prs r1 = r_prs r;
  de_term : r_term r1 = term;
  de_vote : r_vote r1 = NONE;
  de_state : r_state r1 = Follower;
  de_votes : r_votes r1 = ∅;
  de_msgs : r_msgs r1 = r_msgs r;
}.
Lemma demoted_run term lead r :
  wp (become_follower term lead) (λ _, demoted term r) (demoted term r) r.
Proof.
  unfold become_follower, reset_random_timeout. repeat first [progress wp_step|case_match|done].
Qed.
Lemma elects_demoted m r r1 :
  r_state r = Candidate ∨ (r_state r = Leader ∧ msg_type m = MsgSnapshot) → demoted (r_term r) r r1 → elects m r r1.
Proof.
  intros Hs []. split; try congruence.
  - lia.
  - intros _ ?. destruct Hs as [?|[? _]]; congruence.
  - intros p. rewrite de_votes0. done.
  - intros ??. destruct Hs as [?|[_ ?]]; congruence.
  - exists []. by rewrite app_nil_r.
Qed.
(** A term that is new to the node. *)
Lemma elects_bump m r r1 r2 : r_term r < r_term r1 → demoted (r_term r1) r r1 → elects m r1 r2 → elects m r r2.
Proof.
  intros Ht [] []. split; try congruence; try lia.
  - intros H. rewrite <- de_id0. by apply el_self0.
  - intros p [[_ H]|[H|H]]%el_votes0; [by rewrite de_votes0 in H|right; left; congruence|tauto].
  - intros H. destruct (el_leader0 H) as [[? _]|[? [E|?]]]; [congruence| |by auto].
    destruct el_follower0 as [? _]; congruence.
  - destruct el_msgs0 as (ms & E & H). exists ms. rewrite E, de_msgs0. split; [done|].
    eapply Forall_impl; [exact H|]. intros g [H1 H2]. split.
    + rewrite <- de_id0, <- de_members0. done.
    + intros (Ha & Hb & Hc & Hd & He & Hf & _)%H2. rewrite <- de_id0. split_and!; try done. lia.
Qed.

(** Becoming the leader changes the role and is calm otherwise. *)
Lemma leading_run r :
  let led r' := r_state r' = Leader ∧ r_id r' = r_id r ∧ r_term r' = r_term r ∧ r_vote r' = r_vote r ∧
    r_votes r' = r_votes r ∧ dom (r_prs r') = dom (r_prs r) ∧
    ∃ ms, r_msgs r' = r_msgs r ++ ms ∧ Forall harmless ms in
  wp become_leader (λ _, led) led r.
Proof.
  intros led. unfold become_leader. apply wp_bind, wp_modify. cbv beta.
  set (r0 := set_heartbeat_elapsed 0 (set_lead (r_id r) (set_state Leader r))).
  match goal with |- wp ?f _ _ r0 => assert (keeps calm f r0) as Hk end.
  { apply keeps_get_bind. cbv zeta.
    assert (∀ next, keeps calm (modify (set_prs ((λ _, {| match_index := 0; next_index := next |}) <$> r_prs r0));;
      next ← lift (u64_add (last_index (r_log r0)) 1);
      log_update (λ l, append l [Entry_new_normal (r_term r0) next []]);; ignore_err bcast_append) r0) as Hrest.
    { intros next. apply keeps_modify_bind; [apply _| |].
      - eapply calm_update; [|done|done]. cbn. apply dom_fmap_L.
      - apply keeps_lift_bind; [apply _|]. intros n _. apply keeps_bind; [apply _|apply calm_log_update|].
        intros _ r2. apply keeps_ignore, calm_for_each_peer. intros. apply calm_send_append. }
    case_decide; [apply keeps_ret_bind, Hrest|]. apply keeps_lift_bind; [apply _|]. intros next _. apply Hrest. }
  assert (∀ r', calm r0 r' → led r') as Hl; [|eapply wp_mono; [exact Hk|intros; by apply Hl..]].
  intros r' []. unfold led. done.
Qed.

Lemma elects_led m r r1 r' :
  elects m r r1 → (quorum r1 ≤ count_votes true r1)%nat → r_term r1 = r_term r ∨ quorum r1 = 1%nat →
  r_vote r1 = r_id r → r_state r1 ≠ Follower →
  r_state r' = Leader → r_id r' = r_id r1 → r_term r' = r_term r1 → r_vote r' = r_vote r1 →
  r_votes r' = r_votes r1 → dom (r_prs r') = dom (r_prs r1) →
  (∃ ms, r_msgs r' = r_msgs r1 ++ ms ∧ Forall harmless ms) → elects m r r'.
Proof.
  intros [] Hq Hq1 Hv Hs E1 E2 E3 E4 E5 E6 (ms' & E' & H'). split; try congruence.
  - intros Ht Hf. destruct (el_follower0 ltac:(congruence) Hf). done.
  - intros p. rewrite E5, E3. auto.
  - intros _. right. unfold count_votes in *. by rewrite E5, E3, (quorum_members r1).
  - destruct el_msgs0 as (ms & E & H). exists (ms ++ ms'). rewrite E', E, app_assoc. split; [done|].
    apply Forall_app. split; [|by apply harmless_ok]. eapply Forall_impl; [exact H|]. intros g [H1 H2]. split; [done|].
    intros (_ & _ & Hf & _)%H2. done.
Qed.

(** *** Campaigns *)

Lemma candidate_run m r :
  0 ≤ r_term r < u64_max →
  let cand r' := r_id r' = r_id r ∧ r_term r' = r_term r + 1 ∧ r_vote r' = r_id r ∧ r_state r' = Candidate ∧
    r_votes r' = {[ r_id r := true ]} ∧ r_prs r' = r_prs r ∧ r_msgs r' = r_msgs r in
  wp become_candidate (λ _, cand) cand r.
Proof.
  intros Ht cand. unfold become_candidate, reset_random_timeout. wp_step. wp_step.
  rewrite u64_add_ok by (unfold is_u64; lia). repeat first [progress wp_step|case_match|done].
Qed.
Lemma elects_candidate m r r' ms :
  r_id r' = r_id r → r_term r' = r_term r + 1 → r_vote r' = r_id r → r_state r' = Candidate →
  r_votes r' = {[ r_id r := true ]} → dom (r_prs r') = dom (r_prs r) → r_msgs r' = r_msgs r ++ ms →
  (∀ g, g ∈ ms → ¬ is_grant g ∧ msg_from g = r_id r ∧ msg_to g ∈ dom (r_prs r)) → elects m r r'.
Proof.
  intros E1 E2 E3 E4 E5 E6 E7 Hms. split; try done; try lia; try congruence.
  - intros p. rewrite E5. intros [<- _]%lookup_singleton_Some. auto.
  - exists ms. split; [done|]. apply Forall_forall. intros g (H1 & H2 & H3)%Hms. by split.
Qed.

Lemma count_votes_alone r p : r_votes r = {[ p := true ]} → count_votes true r = 1%nat.
Proof.
  intros E. unfold count_votes, hash_values. rewrite E.
  rewrite (hash_iter_perm ({[p := true]} : gmap Z bool)), map_to_list_singleton. done.
Qed.

Lemma elects_campaign m k r :
  0 ≤ r_term r < u64_max → wp (campaign_in k) (λ _, elects m r) (elects m r) r.
Proof.
  intros Ht. unfold campaign_in. apply wp_bind.
  eapply wp_mono; [apply (candidate_run m), Ht| |].
  2: { intros r1 (E1 & E2 & E3 & E4 & E5 & E6 & E7). eapply (elects_candidate _ _ _ []); try done; [congruence|by rewrite app_nil_r|].
       by intros g ?%not_elem_of_nil. }
  cbn. intros _ r1 (E1 & E2 & E3 & E4 & E5 & E6 & E7).
  assert (elects m r r1) as Hc.
  { eapply (elects_candidate _ _ _ []); try done; [congruence|by rewrite app_nil_r|]. by intros g ?%not_elem_of_nil. }
  wp_step. wp_step. case_decide as Hq.
  - assert (quorum r1 ≤ count_votes true r1)%nat as Hqc by (rewrite (count_votes_alone _ _ E5); apply Nat.eq_le_incl, Hq).
    eapply wp_mono; [apply leading_run|..]; cbn.
    + intros _ r' (F1 & F2 & F3 & F4 & F5 & F6 & F7). by eapply elects_led; [exact Hc|exact Hqc|right; exact Hq|..]; try congruence.
    + intros r' (F1 & F2 & F3 & F4 & F5 & F6 & F7). by eapply elects_led; [exact Hc|exact Hqc|right; exact Hq|..]; try congruence.
  - wp_step. eapply (wp_mono _ (λ _ r', r' = r1) _ (λ r', r' = r1)); [|intros last_term ? ->|by intros ? ->].
    { unfold log_read. wp_step. wp_step. by apply wp_lift. }
    unfold for_each_peer. wp_step. wp_step.
    set (P := λ r', r_id r' = r_id r ∧ r_term r' = r_term r + 1 ∧ r_vote r' = r_id r ∧ r_state r' = Candidate ∧
      r_votes r' = {[ r_id r := true ]} ∧ r_prs r' = r_prs r ∧
      ∃ ms, r_msgs r' = r_msgs r ++ ms ∧ ∀ g, g ∈ ms → ¬ is_grant g ∧ msg_from g = r_id r ∧ msg_to g ∈ dom (r_prs r)).
    assert (∀ r', P r' → elects m r r') as HP.
    { intros r' (F1 & F2 & F3 & F4 & F5 & F6 & ms & F7 & F8). eapply elects_candidate; try done. congruence. }
    eapply wp_mono; [apply (wp_for_each P P)|intros; by apply HP|intros; by apply HP].
    + unfold P. split_and!; try done. exists []. rewrite app_nil_r. split; [done|]. by intros g ?%not_elem_of_nil.
    + intros p r0 Hp (F1 & F2 & F3 & F4 & F5 & F6 & ms & F7 & F8). case_decide; [|by split_and!; try done; exists ms].
      apply wp_modify. unfold P. cbn. split_and!; try done. exists (ms ++ [log_message MsgRequestVote p (r_id r1) (r_term r1) last_term (last_index (r_log r1)) [] 0]).
      rewrite F7, app_assoc. split; [done|]. intros g [?|Hg%list_elem_of_singleton]%elem_of_app; [by apply F8|subst g].
      split; [by intros [? _]|]. cbn. split; [done|]. rewrite E6 in Hp. by apply elem_of_hash_keys, elem_of_dom in Hp.
Qed.

(** *** Votes *)

Lemma keeps_elects {A} m (f : M Raft A) r :
  el_pre m r → keeps calm f r → wp f (λ _, elects m r) (elects m r) r.
Proof. intros Hp H. eapply wp_mono; [exact H|intros; by apply elects_calm..]. Qed.

Lemma elects_request_vote m k r :
  el_pre m r → is_request m → msg_term m ≤ r_term r →
  wp (handle_request_vote_in k m) (λ _, elects m r) (elects m r) r.
Proof.
  intros Hp Hreq Ht. unfold handle_request_vote_in. wp_step. wp_step.
  case_match; [apply keeps_elects; [done|calm]|].
  apply wp_bind. rewrite (proj2 (Z.ltb_ge _ _)) by lia. wp_step. wp_step. wp_step. cbv zeta. wp_step.
  eapply (wp_mono _ (λ _ r', r' = r) _ (λ r', r' = r)); [|intros last_term ? ->|intros ? ->; apply elects_calm; [done|reflexivity]].
  { unfold log_read. wp_step. wp_step. by apply wp_lift. }
  destruct (_ || _) eqn:Hvote; cbn [andb]; [|apply keeps_elects; [done|calm]].
  destruct (_ || _) in |- *; [|apply keeps_elects; [done|calm]].
  assert (r_state r = Follower ∧ (r_vote r = NONE ∨ r_vote r = msg_from m)) as [Hs Hv].
  { apply orb_true_iff in Hvote as [Hv%Z.eqb_eq|Hv%Z.eqb_eq]; (split; [|by auto]); apply dec_stable; intros Hs;
      pose proof (ep_self _ _ Hp Hs) as Hself; pose proof (ep_id _ _ Hp); pose proof (ep_request _ _ Hp Hreq); congruence. }
  wp_step. wp_step. apply wp_modify. split; cbn; try done.
  - intros _ _. split; [done|]. intros Hn. by destruct Hv.
  - auto.
  - by rewrite Hs.
  - eexists. split; [done|]. apply Forall_singleton. split; [by intros [=]|]. intros _. cbn. by split_and!.
Qed.

Lemma elects_vote_response m r :
  el_pre m r → msg_type m = MsgRequestVoteResponse →
  wp (handle_request_vote_response m) (λ _, elects m r) (elects m r) r.
Proof.
  intros Hp Hty. unfold handle_request_vote_response. wp_step. wp_step.
  case_decide as Hc; [apply wp_ret, elects_calm; [done|reflexivity]|].
  assert (msg_term m = r_term r) as Hterm by lia.
  assert (r_state r = Candidate) as Hstate by (destruct (r_state r); naive_solver).
  do 4 wp_step. set (r1 := set_votes _ r). cbv zeta.
  assert (elects m r r1) as H1.
  { split; cbn; try done.
    - intros _. apply (ep_self _ _ Hp). by rewrite Hstate.
    - intros p [[<- Hr]|[_ H]]%lookup_insert_Some; [|by auto]. right. right. split; [done|]. split; [|done].
      split; [done|]. by destruct (msg_reject m).
    - by rewrite Hstate.
    - exists []. by rewrite app_nil_r. }
  destruct (Nat.leb_spec (quorum r1) (count_votes true r1)) as [Hq|_].
  - assert (r_vote r1 = r_id r) as Hv by (apply (ep_self _ _ Hp); by rewrite Hstate).
    assert (r_state r1 ≠ Follower) as Hs by (cbn; by rewrite Hstate).
    eapply wp_mono; [apply leading_run|..]; cbn [snd].
    + intros _ r' (F1 & F2 & F3 & F4 & F5 & F6 & F7). by eapply elects_led; [exact H1|exact Hq|by left|..].
    + intros r' (F1 & F2 & F3 & F4 & F5 & F6 & F7). by eapply elects_led; [exact H1|exact Hq|by left|..].
  - case_match; [|by apply wp_ret].
    assert (∀ r', demoted (r_term r) r1 r' → elects m r r') as Hd.
    { intros r' []. apply elects_demoted; [by left|]. by split. }
    eapply wp_mono; [apply demoted_run|intros; by apply Hd..].
Qed.

(** *** Any message *)

(** The messages that a node in a role follows without a look at its term. *)
Definition follows (s : StateType) (t : MessageType) : bool :=
  match s, t with
  | Candidate, (MsgAppend | MsgHeartbeat | MsgSnapshot) | Leader, MsgSnapshot => true
  | _, _ => false
  end.

Lemma elects_following m (g : M Raft unit) r :
  r_state r = Candidate ∨ (r_state r = Leader ∧ msg_type m = MsgSnapshot) → msg_term m = r_term r →
  (∀ r1, r_term r1 = r_term r → keeps calm g r1) →
  wp (become_follower (msg_term m) (msg_from m);; g) (λ _, elects m r) (elects m r) r.
Proof.
  intros Hs Ht Hg. rewrite Ht. apply wp_bind. eapply wp_mono; [apply demoted_run|cbn..].
  - intros _ r1 H1. pose proof (elects_demoted m _ _ Hs H1) as He.
    eapply wp_mono; [apply (Hg r1 (de_term _ _ _ H1))|intros; by eapply elects_then_calm..].
  - intros r1. by apply elects_demoted.
Qed.

Lemma elects_role m k r :
  el_pre m r → 0 ≤ r_term r < u64_max → msg_term m ≤ r_term r →
  (follows (r_state r) (msg_type m) = true → msg_term m = r_term r) →
  wp (match r_state r with
      | Follower => step_follower_in k m
      | Candidate => step_candidate_in k m
      | Leader => step_leader_in k m
      end) (λ _, elects m r) (elects m r) r.
Proof.
  intros Hp Ht Hle Hf.
  destruct (r_state r) eqn:Hs; unfold step_follower_in, step_candidate_in, step_leader_in;
    destruct (msg_type m) eqn:Hty; cbn [follows] in Hf.
  all: try by apply elects_campaign.
  all: try by apply elects_request_vote.
  all: try by apply elects_vote_response.
  all: try specialize (Hf eq_refl).
  all: try (apply elects_following; [by auto|lia|intros r1 E1]; first
    [apply calm_handle_append_entries; lia|apply calm_handle_heartbeat; lia|apply calm_handle_snapshot]).
  all: apply keeps_elects; [done|].
  all: try (apply keeps_ret; apply _).
  all: try apply calm_handle_append_response.
  all: try apply calm_handle_heartbeat_response.
  all: try (apply keeps_modify_bind; [apply _|by eapply calm_update|]).
  all: try (apply calm_handle_append_entries; cbn; lia).
  all: try (apply calm_handle_heartbeat; cbn; lia).
  all: try apply calm_handle_snapshot.
  all: try (apply keeps_get_bind; case_decide; [|apply keeps_ret; apply _];
    apply calm_send; unfold harmless, is_request, is_grant; cbn; rewrite Hty; split; [done|by intros [? _]]).
  - apply calm_for_each_peer. intros. unfold send_heartbeat. calm.
  - apply keeps_get_bind, keeps_lift_bind; [apply _|]. intros es _. apply keeps_bind; [apply _|apply calm_log_update|].
    intros _ r1. apply keeps_bind; [apply _|apply calm_maybe_commit|]. intros _ r2.
    apply calm_for_each_peer. intros. apply calm_send_append.
Qed.

(** A step on a message that, if the node follows it, is not older than it. *)
Lemma elects_step m k r :
  el_pre m r → 0 ≤ r_term r < u64_max → msg_term m < u64_max →
  (follows (r_state r) (msg_type m) = true → r_term r ≤ msg_term m) →
  elects m r (step_in k m r).2.
Proof.
  intros Hp Ht Hm Hf. apply (ends_wp _ (elects m r)). unfold step_in. wp_step. wp_step. wp_step.
  destruct (Z.ltb_spec (r_term r) (msg_term m)) as [Hlt|Hle].
  - assert (∀ lead, wp (become_follower (msg_term m) lead) (λ _, demoted (msg_term m) r) (demoted (msg_term m) r) r) as Hb
      by (intros; apply demoted_run).
    assert (∀ r1, demoted (msg_term m) r r1 → el_pre m r1 ∧ r_term r1 = msg_term m ∧ r_state r1 = Follower ∧
      ∀ r2, elects m r1 r2 → elects m r r2) as Hnew.
    { intros r1 Hd. pose proof Hd as []. destruct Hp. split; [|split; [done|split; [done|]]].
      - split; [by rewrite de_id0|by rewrite de_state0|by rewrite de_id0].
      - intros r2. apply elects_bump; [lia|]. by rewrite de_term0. }
    eapply (wp_mono _ _ _ _ _ r); [case_decide; apply Hb| |].
    + intros _ r1 (Hp1 & E1 & E2 & Hev)%Hnew. wp_step. wp_step.
      eapply wp_mono; [apply (elects_role m k r1)|intros; by apply Hev..]; [done|lia|lia|by rewrite E2].
    + intros r1 (Hp1 & _ & _ & Hev)%Hnew. apply Hev, elects_calm; [done|reflexivity].
  - do 3 wp_step. apply elects_role; [done|done|done|]. intros ?%Hf. lia.
Qed.

Lemma calm_then_elects m r r1 r2 : calm r r1 → elects m r1 r2 → elects m r r2.
Proof.
  intros [] []. split; try congruence.
  - rewrite <- ca_term0, <- ca_state0, <- ca_vote0. done.
  - rewrite <- ca_id0. done.
  - intros p. rewrite <- ca_term0, <- ca_votes0, <- ca_id0. auto.
  - rewrite <- ca_state0, <- ca_term0, <- ca_votes0. auto.
  - rewrite <- ca_state0, <- ca_term0. auto.
  - destruct ca_msgs0 as (ms & E & H), el_msgs0 as (ms' & E' & H'). exists (ms ++ ms'). rewrite E', E, app_assoc.
    split; [done|]. apply Forall_app. split; [by apply harmless_ok|]. eapply Forall_impl; [exact H'|].
    intros g [H1 H2]. split; [by rewrite <- ca_id0, <- ca_members0|]. by rewrite <- ca_id0, <- ca_term0, <- ca_state0, <- ca_vote0.
Qed.

(** A message that is no part of an election. *)
Lemma elects_relabel m m' r r' :
  harmless m → msg_type m ≠ MsgSnapshot → elects m r r' → elects m' r r'.
Proof.
  intros [Hreq Hgr] Hsn []. split; try done.
  - intros p [?|[?|(_ & ? & _)]]%el_votes0; [auto|auto|done].
  - auto.
  - destruct el_msgs0 as (ms & E & H). exists ms. split; [done|]. eapply Forall_impl; [exact H|].
    intros g [H1 H2]. split; [done|]. by intros (_ & _ & _ & ? & _)%H2.
Qed.

Lemma harmless_local t id es : t ≠ MsgRequestVote → t ≠ MsgRequestVoteResponse → harmless (local_message t id es).
Proof. intros H1 H2. by split; [|intros [? _]]. Qed.

(** The messages that a node sends itself. *)
Definition local_type (t : MessageType) : Prop :=
  (∀ s, follows s t = false) ∧ t ≠ MsgRequestVote ∧ t ≠ MsgRequestVoteResponse ∧ t ≠ MsgSnapshot.

Lemma elects_local m k t es r :
  el_pre m r → 0 ≤ r_term r < u64_max → local_type t →
  elects m r (step_in k (local_message t (r_id r) es) r).2.
Proof.
  intros [Hid Hself _] Ht (Hf & H1 & H2 & H3). eapply elects_relabel; [by apply (harmless_local t (r_id r) es)|done|].
  apply elects_step; [|done|done|]; [split; try done|cbn; by rewrite Hf].
Qed.

Lemma ignore_err_state' {A} (f : M Raft A) r : (ignore_err f r).2 = (f r).2.
Proof. unfold ignore_err. by destruct (f r) as [[] ?]. Qed.

Lemma elects_tick m r : el_pre m r → 0 ≤ r_term r < u64_max → elects m r (tick r).2.
Proof.
  intros Hp Ht. apply (ends_wp _ (elects m r)). unfold tick. wp_step. wp_step.
  assert (∀ r1 t, calm r r1 → local_type t →
    wp (ignore_err (step (local_message t (r_id r) []))) (λ _, elects m r) (elects m r) r1) as Hstep.
  { intros r1 t Hc Hl. apply (ends_wp _ (elects m r)). unfold ends. rewrite ignore_err_state'.
    eapply calm_then_elects; [exact Hc|]. pose proof Hc as []. destruct Hp. rewrite <- ca_id0. apply elects_local; try done; [|lia].
    split; [by rewrite ca_id0|by rewrite ca_state0, ca_vote0, ca_id0|by rewrite ca_id0]. }
  assert (elects m r r) as Hr by (apply elects_calm; [done|reflexivity]).
  destruct (r_state r); (wp_step; wp_step; [|done]; wp_step; wp_step; case_match;
    [wp_step; wp_step; apply Hstep; [by eapply calm_update|by split_and!; [intros []|..]]
    |apply wp_ret, elects_calm; [done|by eapply calm_update]]).
Qed.
End elections.
