(* ===== verification/RaftCluster.v ===== *)
(** Clusters of Raft nodes: src/raft/raft.rs under an asynchronous network that
    loses, delays, duplicates and reorders messages.

    A node takes a step of the state machine; what it sends is taken at once to
    the network, which may deliver any message it was ever given, any number of
    times.  Membership does not change, and nodes do not crash.  The theorems:
    at most one node leads a term, as long as no candidate or leader gets a
    message that it follows although it is older than itself; and without this
    proviso, two nodes can lead the same term. *)

From S2P Require Import Prelude Bytes RaftTypes RaftLog Raft RaftReplication RaftElections.

(** ** Clusters *)

Section clusters.
Context `{prof : BuildProfile} `{order : HashOrder} `{rand : RandomSource}.
Implicit Types (r : Raft) (m g : Message) (k : lookup).

(** The nodes, and every message that was sent. *)
Record cluster := mkCluster { nodes : gmap Z Raft; sent : list Message }.

(** A node has taken a step; its messages go to the network. *)
Definition after (id : Z) r (c : cluster) : cluster :=
  mkCluster (<[id := set_msgs [] r]> (nodes c)) (sent c ++ r_msgs r).

(** [deliverable r m]: whether the network, or for proposals the client, may
    hand [m] to the node [r].  The terms of a run stay below the largest
    [u64]. *)
Inductive net_step (deliverable : Raft → Message → Prop) (c : cluster) : cluster → Prop :=
| cs_deliver k m r :
    m ∈ sent c → nodes c !! msg_to m = Some r → r_term r < u64_max → msg_term m < u64_max → deliverable r m →
    net_step deliverable c (after (msg_to m) (step_in k m r).2 c)
| cs_tick id r :
    nodes c !! id = Some r → r_term r < u64_max → net_step deliverable c (after id (tick r).2 c)
| cs_campaign k id r :
    nodes c !! id = Some r → r_term r < u64_max →
    net_step deliverable c (after id (step_in k (local_message MsgHup (r_id r) []) r).2 c)
| cs_propose k id r es :
    nodes c !! id = Some r → r_term r < u64_max → deliverable r (local_message MsgPropose (r_id r) es) →
    net_step deliverable c (after id (step_in k (local_message MsgPropose (r_id r) es) r).2 c).

(** A node does not get a message that it would follow into an older term. *)
Definition not_stale r m : Prop := follows (r_state r) (msg_type m) = true → r_term r ≤ msg_term m.
Definition anything r m : Prop := True.

(** The nodes of a cluster that starts: followers without votes. *)
Definition starts (members : gset Z) (c : cluster) : Prop :=
  sent c = [] ∧ (NONE ∉ members) ∧
  ∀ id r, nodes c !! id = Some r → id ∈ members ∧ r_id r = id ∧ 0 ≤ r_term r ∧ dom (r_prs r) = members ∖ {[ id ]} ∧
    r_state r = Follower ∧ r_votes r = ∅ ∧ r_msgs r = [].

Record node_ok (members : gset Z) (c : cluster) (id : Z) r : Prop := {
  no_id : r_id r = id;
  no_member : id ∈ members;
  no_term : 0 ≤ r_term r;
  no_peers : dom (r_prs r) = members ∖ {[ id ]};
  no_self : r_state r ≠ Follower → r_vote r = id;
  no_leader : r_state r = Leader → (quorum r ≤ count_votes true r)%nat;
  no_votes : ∀ p, r_votes r !! p = Some true →
    p = id ∨ ∃ g, g ∈ sent c ∧ is_grant g ∧ msg_from g = p ∧ msg_to g = id ∧ msg_term g = r_term r;
  no_msgs : r_msgs r = [];
}.
Record cluster_ok (members : gset Z) (c : cluster) : Prop := {
  co_none : NONE ∉ members;
  co_node : ∀ id r, nodes c !! id = Some r → node_ok members c id r;
  co_request : ∀ g, g ∈ sent c → is_request g → msg_from g ≠ msg_to g ∧ msg_from g ≠ NONE;
  co_grant : ∀ g, g ∈ sent c → is_grant g →
    ∃ r, nodes c !! msg_from g = Some r ∧ msg_to g ≠ NONE ∧ msg_term g ≤ r_term r ∧
      (msg_term g = r_term r → r_state r = Follower ∧ r_vote r = msg_to g);
  co_unique : ∀ g g', g ∈ sent c → g' ∈ sent c → is_grant g → is_grant g' →
    msg_from g = msg_from g' → msg_term g = msg_term g' → msg_to g = msg_to g';
}.

Lemma starts_ok members c : starts members c → cluster_ok members c.
Proof.
  intros (Hs & Hnone & Hn). split; [done| |rewrite Hs..].
  2-3: by intros ? ?%not_elem_of_nil.
  2: by intros ? ? ?%not_elem_of_nil.
  intros id r (H1 & H2 & H3 & H4 & H5 & H6 & H7)%Hn. split; try done; [by rewrite H5|intros p; by rewrite H6].
Qed.

(** *** A step of a node is a step of the cluster *)

(** The message behind a step: one for the node that was sent, or none of an
    election. *)
Definition heard (c : cluster) (id : Z) m : Prop := (m ∈ sent c ∧ msg_to m = id) ∨ harmless m.

Section step.
Context (members : gset Z) (c : cluster) (id : Z) (r r' : Raft) (m : Message).
Context (Hok : cluster_ok members c) (Hr : nodes c !! id = Some r) (Hm : heard c id m) (Hel : elects m r r').

Lemma heard_pre : el_pre m r.
Proof using Hok Hr Hm.
  clear Hel. destruct (co_node _ _ Hok _ _ Hr). split.
  - intros E. apply (co_none _ _ Hok). congruence.
  - intros Hs. rewrite no_self0; congruence.
  - intros Hq. destruct Hm as [[Hin Hto]|[? _]]; [|done].
    destruct (co_request _ _ Hok m Hin Hq). congruence.
Qed.

Lemma after_sent g : g ∈ sent (after id r' c) → g ∈ sent c ∨ sent_ok m r r' g.
Proof using Hok Hr Hel.
  cbn. intros [?|Hg]%elem_of_app; [by left|right].
  destruct (el_msgs _ _ _ Hel) as (ms & E & H). rewrite E, (no_msgs _ _ _ _ (co_node _ _ Hok _ _ Hr)) in Hg.
  by eapply Forall_forall in H.
Qed.

Lemma after_request g : sent_ok m r r' g → is_request g → msg_from g ≠ msg_to g ∧ msg_from g ≠ NONE.
Proof using Hok Hr.
  intros [Hq _] [E1 E2]%Hq. destruct (co_node _ _ Hok _ _ Hr). rewrite no_peers0 in E2.
  apply elem_of_difference in E2 as [_ E2%not_elem_of_singleton]. split; [congruence|]. intros E. apply (co_none _ _ Hok). congruence.
Qed.

(** A vote just given is the only one of its term. *)
Lemma after_grant g g' :
  g ∈ sent c → is_grant g → sent_ok m r r' g' → is_grant g' →
  msg_from g = msg_from g' → msg_term g = msg_term g' → msg_to g = msg_to g'.
Proof using Hok Hr Hel.
  intros Hg Gg [_ Hs] (F1 & F2 & F3 & F4 & F5 & F6 & F7)%Hs Ef Et.
  destruct (co_node _ _ Hok _ _ Hr). destruct (co_grant _ _ Hok g Hg Gg) as (r0 & E0 & Hn & Hle & Hsame).
  assert (r0 = r) as -> by congruence. pose proof (el_term _ _ _ Hel).
  destruct F7 as [? [?|?]]; [lia|..]; destruct Hsame as [? ?]; [lia|congruence|lia|congruence].
Qed.

Lemma after_node_ok : node_ok members (after id r' c) id (set_msgs [] r').
Proof using Hok Hr Hm Hel.
  destruct (co_node _ _ Hok _ _ Hr), Hel. split; cbn; try done; try congruence; try lia.
  - intros H. rewrite el_self; congruence.
  - intros Hl. change (quorum r' ≤ count_votes true r')%nat.
    destruct (el_leader Hl) as [(H1 & _ & H2)|[? _]]; [|done].
    unfold count_votes. rewrite H2, (quorum_members r); [|done]. by apply no_leader0.
  - intros p [[Ht Hv]|[->|(-> & Hg & Ht)]]%el_votes; [| by left|].
    + destruct (no_votes0 p Hv) as [?|(g & ? & ? & ? & ? & ?)]; [by left|right]. exists g.
      split_and!; try done; [apply elem_of_app; by left|congruence].
    + right. destruct Hm as [[Hin Hto]|[_ ?]]; [|done]. exists m. split_and!; try done. apply elem_of_app. by left.
Qed.

Lemma after_ok : cluster_ok members (after id r' c).
Proof using Hok Hr Hm Hel.
  pose proof (co_node _ _ Hok _ _ Hr) as Hn. split.
  - apply (co_none _ _ Hok).
  - intros id' r0 H0'. cbn in H0'. apply lookup_insert_Some in H0' as [[<- <-]|[Hne H0]]; [apply after_node_ok|].
    destruct (co_node _ _ Hok _ _ H0). split; try done. intros p [?|(g & ? & ?)]%no_votes0; [by left|right].
    exists g. split; [apply elem_of_app; by left|done].
  - intros g [Hg|Hg]%after_sent Hq; [by apply (co_request _ _ Hok)|by apply after_request].
  - intros g [Hg|Hg]%after_sent Hgr.
    + destruct (co_grant _ _ Hok g Hg Hgr) as (r0 & H0 & Hne & Hle & Hsame).
      destruct (decide (msg_from g = id)) as [E|E].
      * assert (r0 = r) as -> by congruence. exists (set_msgs [] r'). cbn. rewrite E, lookup_insert_eq.
        pose proof (el_term _ _ _ Hel). split_and!; [done|done|lia|]. intros Ht.
        destruct Hsame as [Hs Hv]; [lia|]. destruct (el_follower _ _ _ Hel) as [? Hkeep]; [lia|done|].
        split; [done|]. rewrite Hkeep; congruence.
      * exists r0. cbn. by rewrite lookup_insert_ne by congruence.
    + destruct (so_grant _ _ _ _ Hg Hgr) as (F1 & F2 & F3 & F4 & F5 & F6 & _).
      exists (set_msgs [] r'). cbn. rewrite F1, (no_id _ _ _ _ Hn), lookup_insert_eq. split_and!; [done| |lia|by rewrite F5].
      destruct Hm as [[Hin _]|[? _]]; [|done]. rewrite F5. by apply (co_request _ _ Hok).
  - intros g g' [Hg|Hg]%after_sent [Hg'|Hg']%after_sent Gg Gg' Ef Et.
    + by apply (co_unique _ _ Hok).
    + by apply (after_grant g g').
    + symmetry. by apply (after_grant g' g).
    + destruct (so_grant _ _ _ _ Hg Gg) as (_ & _ & _ & _ & -> & _), (so_grant _ _ _ _ Hg' Gg') as (_ & _ & _ & _ & -> & _). done.
Qed.
End step.

Lemma net_step_ok members c c' : net_step not_stale c c' → cluster_ok members c → cluster_ok members c'.
Proof.
  intros [k m r Hin Hr Ht Hmt Hns|id r Hr Ht|k id r Hr Ht|k id r es Hr Ht _] Hok;
    pose proof (co_node _ _ Hok _ _ Hr) as Hn; pose proof (no_term _ _ _ _ Hn).
  - assert (heard c (msg_to m) m) as Hh by (by left). eapply after_ok; [done..|].
    apply elects_step; [|done|done|done]. by eapply heard_pre.
  - assert (heard c id (local_message MsgBeat id [])) as Hh by (right; by apply harmless_local).
    eapply after_ok; [done..|]. apply elects_tick; [by eapply heard_pre|done].
  - assert (heard c id (local_message MsgHup (r_id r) [])) as Hh by (right; by apply harmless_local).
    eapply after_ok; [done..|]. apply elects_local; try done; [by eapply heard_pre|by split_and!; [intros []|..]].
  - assert (heard c id (local_message MsgPropose (r_id r) es)) as Hh by (right; by apply harmless_local).
    eapply after_ok; [done..|]. apply elects_local; try done; [by eapply heard_pre|by split_and!; [intros []|..]].
Qed.

Lemma reachable_ok members c0 c :
  starts members c0 → rtc (net_step not_stale) c0 c → cluster_ok members c.
Proof. intros H0%starts_ok Hrun. induction Hrun; [done|]. eauto using net_step_ok. Qed.

(** *** Quorums *)

(** Those who voted for a node, as far as it knows. *)
Definition supporters r : gset Z := dom (filter (λ v, v.2 = true) (r_votes r)).

Lemma supporters_spec r p : p ∈ supporters r ↔ r_votes r !! p = Some true.
Proof.
  unfold supporters. rewrite elem_of_dom. split.
  - intros [v [H E]%map_lookup_filter_Some]. cbn in E. by subst.
  - intros H. exists true. by apply map_lookup_filter_Some.
Qed.
Lemma supporters_size r : size (supporters r) = count_votes true r.
Proof.
  unfold supporters, count_votes, hash_values. rewrite size_dom, filter_fmap_length, (hash_iter_perm (r_votes r)).
  rewrite <- length_map_to_list, map_filter_alt, map_to_list_to_map; [done|].
  eapply NoDup_fmap_fst; [|apply NoDup_filter, NoDup_map_to_list].
  intros p v v' [_ H]%list_elem_of_filter [_ H']%list_elem_of_filter.
  apply elem_of_map_to_list in H, H'. congruence.
Qed.

(** A leader is supported by a majority. *)
Lemma leader_majority members c id r :
  cluster_ok members c → nodes c !! id = Some r → r_state r = Leader →
  supporters r ⊆ members ∧ (size members < 2 * size (supporters r))%nat.
Proof.
  intros Hok Hr Hl. destruct (co_node _ _ Hok _ _ Hr). split.
  - intros p [->|(g & Hg & Gg & <- & _)]%supporters_spec%no_votes0; [done|].
    destruct (co_grant _ _ Hok g Hg Gg) as (r0 & H0 & _). by destruct (co_node _ _ Hok _ _ H0).
  - rewrite supporters_size. specialize (no_leader0 Hl).
    assert (size (r_prs r) = size members - 1)%nat as E.
    { rewrite <- size_dom, no_peers0, size_difference, size_singleton; [done|set_solver]. }
    unfold quorum in no_leader0. rewrite E in no_leader0.
    pose proof (Nat.div_mod_eq (size members - 1 + 1) 2). pose proof (Nat.mod_upper_bound (size members - 1 + 1) 2). lia.
Qed.

Lemma majorities_meet (members X Y : gset Z) :
  X ⊆ members → Y ⊆ members → (size members < 2 * size X)%nat → (size members < 2 * size Y)%nat → ∃ p, p ∈ X ∧ p ∈ Y.
Proof.
  intros HX HY H1 H2. destruct (decide (X ∩ Y = ∅)) as [E|(p & Hp)%set_choose_L]; [|set_solver].
  assert (X ∪ Y ⊆ members) as Hs%subseteq_size by set_solver. rewrite size_union in Hs by set_solver. lia.
Qed.

(** ** Election safety *)

(** C15: however the network loses, delays, duplicates and reorders messages,
    two leaders of one term are one node, as long as no candidate or leader is
    handed a message that it follows although the message is of an older
    term. *)
Theorem election_safety members c0 c id1 id2 r1 r2 :
  starts members c0 → rtc (net_step not_stale) c0 c →
  nodes c !! id1 = Some r1 → nodes c !! id2 = Some r2 →
  r_state r1 = Leader → r_state r2 = Leader → r_term r1 = r_term r2 → id1 = id2.
Proof.
  intros H0 Hrun N1 N2 L1 L2 Ht. pose proof (reachable_ok _ _ _ H0 Hrun) as Hok.
  destruct (leader_majority _ _ _ _ Hok N1 L1) as [S1 M1], (leader_majority _ _ _ _ Hok N2 L2) as [S2 M2].
  destruct (majorities_meet _ _ _ S1 S2 M1 M2) as (p & V1%supporters_spec & V2%supporters_spec).
  assert (∀ id id' r r', nodes c !! id = Some r → nodes c !! id' = Some r' → r_state r = Leader →
    r_term r = r_term r' → r_votes r' !! id = Some true → id = id') as Hself.
  { intros id id' r r' H1 H2 HL HT [?|(g & Hg & Gg & F & To & T)]%(no_votes _ _ _ _ (co_node _ _ Hok _ _ H2)); [done|].
    destruct (co_grant _ _ Hok g Hg Gg) as (r0 & E & _ & _ & Hs). destruct Hs; congruence. }
  destruct (no_votes _ _ _ _ (co_node _ _ Hok _ _ N1) p V1) as [->|(g1 & ? & ? & ? & ? & ?)]; [by eapply Hself|].
  destruct (no_votes _ _ _ _ (co_node _ _ Hok _ _ N2) p V2) as [->|(g2 & ? & ? & ? & ? & ?)]; [symmetry; by eapply Hself|].
  pose proof (co_unique _ _ Hok g1 g2). naive_solver congruence.
Qed.
End clusters.

(** ** Schedules *)

(** What the environment does next: deliver the [n]-th message that was sent,
    let a clock tick, let an election start, or submit entries. *)
Inductive action := Deliver (n : nat) | Tick (id : Z) | Campaign (id : Z) | Propose (id : Z) (es : list Entry).

Section schedules.
Context `{prof : BuildProfile} `{order : HashOrder} `{rand : RandomSource}.

#[export] Instance not_stale_dec r m : Decision (not_stale r m).
Proof. unfold not_stale. apply _. Defined.
#[export] Instance anything_dec r m : Decision (anything r m).
Proof. unfold anything. apply _. Defined.

Context (deliverable : Raft → Message → Prop) {dec : ∀ r m, Decision (deliverable r m)}.

Definition act (c : cluster) (a : action) : option cluster :=
  match a with
  | Deliver n =>
      m ← sent c !! n; r ← nodes c !! msg_to m;
      if decide (r_term r < u64_max ∧ msg_term m < u64_max ∧ deliverable r m)
      then Some (after (msg_to m) (step m r).2 c) else None
  | Tick id =>
      r ← nodes c !! id; if decide (r_term r < u64_max) then Some (after id (tick r).2 c) else None
  | Campaign id =>
      r ← nodes c !! id;
      if decide (r_term r < u64_max) then Some (after id (step (local_message MsgHup (r_id r) []) r).2 c) else None
  | Propose id es =>
      r ← nodes c !! id;
      if decide (r_term r < u64_max ∧ deliverable r (local_message MsgPropose (r_id r) es))
      then Some (after id (step (local_message MsgPropose (r_id r) es) r).2 c) else None
  end.
Fixpoint run (c : cluster) (l : list action) : option cluster :=
  match l with [] => Some c | a :: l => c' ← act c a; run c' l end.

Lemma act_step c a c' : act c a = Some c' → net_step deliverable c c'.
Proof.
  destruct a; cbn; intros H; simplify_option_eq;
    [eapply (cs_deliver _ _ Sync)|eapply cs_tick|eapply (cs_campaign _ _ Sync)|eapply (cs_propose _ _ Sync)]; try done; try tauto.
  by eapply list_elem_of_lookup_2.
Qed.
Lemma run_steps l c c' : run c l = Some c' → rtc (net_step deliverable) c c'.
Proof.
  revert c. induction l as [|a l IH]; intros c H; cbn in H; simplify_option_eq; [done|].
  eapply rtc_l; [by eapply act_step|by apply IH].
Qed.
End schedules.

(** ** Three nodes to evaluate on *)

#[local] Existing Instance map_order.
#[local] Existing Instance low_rng.
#[local] Instance debug_build : BuildProfile := true.

(** A node in term 2 with three entries in its log, and nothing committed. *)
Definition idle (id : Z) : Raft (rand := low_rng) :=
  {| r_id := id; r_term := 2; r_vote := NONE; r_log := fresh_log;
     r_prs := set_to_map (λ p, (p, Progress_new 4)) ({[ 1; 2; 3 ]} ∖ {[ id ]} : gset Z); r_state := Follower;
     r_votes := ∅; r_msgs := []; r_lead := NONE; r_heartbeat_timeout := 1;
     r_election_timeout := 5; r_heartbeat_elapsed := 0; r_election_elapsed := 0;
     r_random_election_timeout := 5; r_rng := () |}.
Definition three : cluster := mkCluster {[ 1 := idle 1; 2 := idle 2; 3 := idle 3 ]} [].

Lemma idle_starts id :
  (id =? 1) || (id =? 2) || (id =? 3) = true →
  id ∈ ({[ 1; 2; 3 ]} : gset Z) ∧ r_id (idle id) = id ∧ 0 ≤ r_term (idle id) ∧
  dom (r_prs (idle id)) = {[ 1; 2; 3 ]} ∖ {[ id ]} ∧ r_state (idle id) = Follower ∧ r_votes (idle id) = ∅ ∧
  r_msgs (idle id) = [].
Proof.
  intros Hid. rewrite !orb_true_iff, !Z.eqb_eq in Hid. destruct Hid as [[->| ->]| ->]; split_and!; by vm_compute.
Qed.
Lemma three_starts : starts {[ 1; 2; 3 ]} three.
Proof.
  split; [done|]. split; [by vm_compute|]. intros id r Hr. unfold three, nodes in Hr.
  repeat (apply lookup_insert_Some in Hr as [[<- <-]|[_ Hr]]; [by apply idle_starts|]).
  apply lookup_singleton_Some in Hr as [<- <-]. by apply idle_starts.
Qed.

Lemma election_safety_witness :
  ∃ c r1, rtc (net_step not_stale) three c ∧ nodes c !! 1 = Some r1 ∧ r_state r1 = Leader ∧
    ∀ id r, nodes c !! id = Some r → r_state r = Leader → r_term r = r_term r1 → id = 1.
Proof.
  destruct (run not_stale three [Campaign 1; Deliver 0; Deliver 1; Deliver 2]) as [c|] eqn:E; [|by vm_compute in E].
  assert (∃ r, nodes c !! 1 = Some r ∧ r_state r = Leader) as (r1 & H & L)
    by (vm_compute in E; simplify_eq; eexists; split; vm_compute; reflexivity).
  exists c, r1. split; [by eapply run_steps|]. split; [done|]. split; [done|]. intros id r Hr Hl Ht.
  by apply (election_safety {[ 1; 2; 3 ]} three c id 1 r r1); [apply three_starts|eapply run_steps|..].
Defined.

(** Node 1 leads term 3 and sends a heartbeat that stays in the network.  Node 3
    stands for term 4, so that node 1 steps down; node 1 stands for term 5 and
    node 2 elects it.  Node 2 stands for term 6 and is then handed the heartbeat
    of term 3, which takes it back to term 3 without a vote; node 3 stands for
    term 5 and node 2 elects it, too. *)
Definition delayed_heartbeat : list action :=
  [Campaign 1; Deliver 0; Deliver 1; Deliver 2; Tick 1; Campaign 3; Deliver 9; Campaign 1; Deliver 12; Deliver 13;
   Campaign 2; Deliver 7; Campaign 3; Deliver 19; Deliver 21].

(** A candidate obeys a heartbeat of any age ([step_candidate] does not
    compare terms), goes back to its term and forgets its vote; one delayed
    heartbeat is enough to make two nodes of three the leaders of one term. *)
Theorem two_leaders_one_term :
  starts {[ 1; 2; 3 ]} three ∧
  ∃ c r1 r3, rtc (net_step anything) three c ∧ nodes c !! 1 = Some r1 ∧ nodes c !! 3 = Some r3 ∧
    r_state r1 = Leader ∧ r_state r3 = Leader ∧ r_term r1 = r_term r3 ∧ r_id r1 ≠ r_id r3.
Proof.
  split; [apply three_starts|].
  destruct (run anything three delayed_heartbeat) as [c|] eqn:E; [|by vm_compute in E].
  assert (∃ r1 r3, nodes c !! 1 = Some r1 ∧ nodes c !! 3 = Some r3 ∧
    r_state r1 = Leader ∧ r_state r3 = Leader ∧ r_term r1 = r_term r3 ∧ r_id r1 ≠ r_id r3) as (r1 & r3 & H).
  { vm_compute in E. simplify_eq. do 2 eexists. split_and!; vm_compute; reflexivity || done. }
  exists c, r1, r3. split; [by eapply run_steps|exact H].
Qed.
