(* ===== verification/RaftLogs.v ===== *)
(** Replicated logs, as the handlers of src/raft/raft.rs change them: what one
    step of a node does to its log, and which entries it sends.

    A log is taken to start at one index, whose entry is committed; every
    entry is seen together with the term of the entry before it.  The relation
    [replicates] says what a step on a message may do: the log is left alone, or
    a leader adds entries of its term behind it, or a node takes the entries of
    an append behind an entry whose index and term the append names; and an
    append that is sent carries a part of the sender's log.  RaftMatching.v
    puts the steps of several nodes together. *)

From S2P Require Import Prelude Bytes RaftTypes RaftLog Raft RaftReplication RaftElections.

(** ** Chains of entries *)

(** Every entry with the term of the entry before it; [p] is the term before
    the first one. *)
Fixpoint links (p : Z) (es : list Entry) : list (Z * Entry) :=
  match es with [] => [] | e :: es => (p, e) :: links (e_term e) es end.
Definition end_term (p : Z) (es : list Entry) : Z := default p (e_term <$> last es).

Lemma end_term_cons p e es : end_term p (e :: es) = end_term (e_term e) es.
Proof. unfold end_term. rewrite last_cons. by destruct (last es). Qed.
Lemma links_app p a b : links p (a ++ b) = links p a ++ links (end_term p a) b.
Proof. revert p. induction a as [|e a IH]; intros p; cbn [links app]; [done|]. by rewrite IH, end_term_cons. Qed.
Lemma end_term_take p es n e : es !! n = Some e → end_term p (take (S n) es) = e_term e.
Proof. intros H. unfold end_term. rewrite (take_S_r _ _ _ H), last_snoc. done. Qed.

(** The links of a list of numbered entries: its position and its predecessor. *)
Lemma links_lookup p es n :
  links p es !! n = (λ e, (match n with O => p | S n' => end_term p (take (S n') es) end, e)) <$> es !! n.
Proof.
  revert p n. induction es as [|e es IH]; intros p n; [done|]. destruct n as [|n]; [done|]. cbn [links base.lookup list_lookup].
  rewrite IH. destruct n as [|n]; [done|]. cbn [take]. by rewrite !end_term_cons.
Qed.
Lemma elem_of_links p es q e :
  (q, e) ∈ links p es ↔ ∃ n, es !! n = Some e ∧ q = match n with O => p | S n' => end_term p (take (S n') es) end.
Proof.
  rewrite list_elem_of_lookup. split; intros [n H]; exists n.
  - rewrite links_lookup in H. destruct (es !! n); naive_solver.
  - rewrite links_lookup. destruct H as [-> ->]. done.
Qed.

Section logs.
Context `{prof : BuildProfile} `{order : HashOrder} `{rand : RandomSource}.
Context (f : Z).
Implicit Types (r : Raft) (m g : Message) (k : lookup) (l : RaftLog) (es : list Entry).

(** ** Parts of a log *)

(** The entries of [g] are a part of [es], whose first index is [f], and [g]
    names the entry before them. *)
Definition chunk es g : Prop :=
  ∃ n : nat, (n ≤ length es)%nat ∧ msg_index g = f - 1 + Z.of_nat n ∧
    msg_log_term g = end_term 0 (take n es) ∧ msg_entries g `prefix_of` drop n es.

Lemma chunk_links es g x : chunk es g → x ∈ links (msg_log_term g) (msg_entries g) → x ∈ links 0 es.
Proof.
  intros (n & _ & _ & -> & [es' E]) Hx. rewrite <- (take_drop n es), links_app, E, links_app. set_solver.
Qed.
Lemma chunk_contiguous es g : contiguous f es → chunk es g → contiguous (msg_index g + 1) (msg_entries g).
Proof.
  intros Hc (n & Hn & -> & _ & [es' E]) i e Hi.
  assert (drop n es !! i = Some e) as H by (rewrite E; by apply lookup_app_l_Some).
  rewrite lookup_drop in H. rewrite (Hc _ _ H). lia.
Qed.
Lemma chunk_grows es es' g : chunk es g → chunk (es ++ es') g.
Proof.
  intros (n & Hn & Hi & Ht & Hp). exists n. rewrite length_app, take_app_le, drop_app_le by done.
  split_and!; [lia|done|done|]. by apply prefix_app_r.
Qed.
Lemma chunk_bound es g : chunk es g → f ≤ msg_index g + 1 ∧ msg_index g + Z.of_nat (length (msg_entries g)) < f + Z.of_nat (length es).
Proof. intros (n & Hn & -> & _ & Hp%prefix_length). rewrite length_drop in Hp. lia. Qed.

(** ** Logs that start at [f] *)

Record based l : Prop := {
  bs_snapshot : active_snapshot l = None;
  bs_first : 1 ≤ f;
  bs_contiguous : contiguous f (entries l);
  bs_nonempty : entries l ≠ [];
  bs_committed : f ≤ committed l;
  bs_bound : f + Z.of_nat (length (entries l)) ≤ u64_max;
}.

Section based_facts.
Context (l : RaftLog) (Hl : based l).

Lemma based_length : (1 ≤ length (entries l))%nat.
Proof using Hl. pose proof (bs_nonempty _ Hl). destruct (entries l); [done|cbn; lia]. Qed.
Lemma based_first_of : first_of l = f.
Proof using Hl.
  destruct Hl. unfold first_of. rewrite bs_snapshot0. destruct (entries l); [done|]. by eapply contiguous_cons.
Qed.
Lemma based_first : first_index l = Ok f.
Proof using Hl.
  pose proof based_first_of as E. unfold first_of, first_index in *. rewrite (bs_snapshot _ Hl) in *.
  pose proof (bs_nonempty _ Hl). destruct (entries l); [done|]. by rewrite E.
Qed.
Lemma based_last : last_index l = f + Z.of_nat (length (entries l)) - 1.
Proof using Hl.
  pose proof based_first_of as E. rewrite last_index_wf, E; [done|apply Hl|]. rewrite E. apply Hl.
Qed.

Lemma based_term_in k i n e :
  i = f + Z.of_nat n → entries l !! n = Some e → term_or_fail k i l = Ok (e_term e) ∧ term_or_0 k i l = Ok (e_term e).
Proof using Hl.
  intros -> He. pose proof (lookup_lt_Some _ _ _ He). pose proof (bs_first _ Hl). pose proof (bs_bound _ Hl).
  pose proof based_last. pose proof (bs_snapshot _ Hl) as Hs.
  assert (RaftLog.term_sync l (f + Z.of_nat n) = Ok (Some (e_term e))) as E1.
  { unfold term_sync. destruct (Z.eqb_spec (f + Z.of_nat n) 0); [lia|]. rewrite based_first. cbn [mbind outcome_bind].
    rewrite (proj2 (Z.ltb_ge _ _)) by lia. rewrite u64_sub_ok by (unfold is_u64; lia). cbn [mbind outcome_bind].
    destruct (Z.eqb_spec (f + Z.of_nat n) (f - 1)); [lia|]. rewrite (proj2 (Z.leb_le _ _)) by lia.
    replace (Z.to_nat (f + Z.of_nat n - f)) with n by lia. by rewrite He. }
  assert (RaftLog.term l (f + Z.of_nat n) = Ok (e_term e)) as E2.
  { unfold RaftLog.term. rewrite based_first. cbn [mbind outcome_bind].
    rewrite (proj2 (Z.ltb_ge _ _)) by lia. rewrite u64_sub_ok by (unfold is_u64; lia). cbn [mbind outcome_bind]. rewrite Hs.
    rewrite (proj2 (Z.leb_le _ _)) by lia. replace (Z.to_nat (f + Z.of_nat n - f)) with n by lia. by rewrite He. }
  destruct k; cbn [term_or_fail term_or_0]; rewrite ?E1, ?E2; done.
Qed.
Lemma based_term_below k i : 0 < i < f → (∀ t, term_or_fail k i l ≠ Ok t) ∧ term_or_0 k i l = Ok 0.
Proof using Hl.
  intros Hi. destruct k; cbn [term_or_fail term_or_0]; [unfold term_sync|unfold RaftLog.term]; rewrite based_first; cbn [mbind outcome_bind];
    rewrite (proj2 (Z.ltb_lt _ _)) by lia; [|done]. destruct (Z.eqb_spec i 0); [lia|done].
Qed.
Lemma based_term_zero k : f = 1 → term_or_0 k 0 l = Ok 0.
Proof using Hl.
  intros E. destruct k; cbn [term_or_0]; [done|]. unfold RaftLog.term. rewrite based_first, E. done.
Qed.

Lemma based_committed c : f ≤ c → based (set_committed c l).
Proof using Hl. intros Hc. destruct Hl. by split. Qed.
Lemma based_entries es : contiguous f es → es ≠ [] → f + Z.of_nat (length es) ≤ u64_max → based (set_entries es l).
Proof using Hl. intros. destruct Hl. by split. Qed.

(** Entries numbered behind the log go behind it, unless its commit index has
    passed them. *)
Lemma append_behind es :
  contiguous (last_index l + 1) es → last_index l + Z.of_nat (length es) < u64_max →
  (append l es = Ok (set_entries (entries l ++ es) l) ∧ based (set_entries (entries l ++ es) l)) ∨ append l es = Panic.
Proof using Hl.
  intros Hc Hb. rewrite based_last in Hc, Hb.
  assert (based (set_entries (entries l ++ es) l)) as Hn.
  { apply based_entries.
    - apply contiguous_app; [apply Hl|]. by replace (f + _) with (f + Z.of_nat (length (entries l)) - 1 + 1) by lia.
    - intros [? _]%app_nil. by destruct Hl.
    - rewrite length_app. lia. }
  unfold append. destruct es as [|e es].
  { left. split; [|done]. rewrite app_nil_r. by destruct l. }
  cbv zeta. destruct (Z.leb_spec (e_index e) (committed l)); [by right|left]. split; [|done]. rewrite based_first. cbn [mbind outcome_bind].
  rewrite (contiguous_cons _ _ _ Hc). pose proof based_length.
  rewrite (proj2 (Z.ltb_lt _ _)) by lia. by rewrite take_ge by lia.
Qed.
End based_facts.

(** ** Calls that leave the log alone *)

(** As long as [I] holds it goes on to hold, and all messages sent meet [P]. *)
Definition within (I : Raft → Prop) (P : Message → Prop) r r' : Prop :=
  I r → I r' ∧ ∃ ms, r_msgs r' = r_msgs r ++ ms ∧ Forall P ms.
#[export] Instance within_preorder I P : PreOrder (within I P).
Proof.
  split.
  - intros r Hr. split; [done|]. exists []. by rewrite app_nil_r.
  - intros r1 r2 r3 H1 H2 (Hr2 & ms & E & F)%H1. destruct (H2 Hr2) as (Hr3 & ms' & E' & F').
    split; [done|]. exists (ms ++ ms'). by rewrite E', E, app_assoc, Forall_app.
Qed.

Section within_facts.
Context (I : Raft → Prop) (P : Message → Prop).

Lemma within_given {A} (h : M Raft A) r : (I r → keeps (within I P) h r) → keeps (within I P) h r.
Proof using order prof rand. unfold keeps, wp, within. destruct (h r) as [[] ?]; auto. Qed.
Lemma within_send m r : P m → (I r → I (set_msgs (r_msgs r ++ [m]) r)) → keeps (within I P) (send m) r.
Proof.
  intros Hm Hi. apply keeps_modify. intros Hr. split; [by apply Hi|]. exists [m]. split; [done|]. by apply Forall_singleton.
Qed.
Lemma within_modify (u : Raft → Raft) r :
  r_msgs (u r) = r_msgs r → (I r → I (u r)) → keeps (within I P) (modify u) r.
Proof. intros Hm Hi. apply keeps_modify. intros Hr. split; [by apply Hi|]. exists []. by rewrite app_nil_r. Qed.
Lemma within_log_read {A} (h : RaftLog → outcome A) r : keeps (within I P) (log_read h) r.
Proof using order prof rand. unfold log_read. apply keeps_get_bind, keeps_lift. apply _. Qed.
Lemma within_log_update (h : RaftLog → outcome RaftLog) r :
  (∀ l', h (r_log r) = Ok l' → I r → I (set_log l' r)) → keeps (within I P) (log_update h) r.
Proof using order prof rand.
  intros Hh. unfold log_update. apply keeps_get_bind, keeps_lift_bind; [apply _|]. intros l' E. apply within_modify; [done|by apply Hh].
Qed.
Lemma within_for_each_peer (h : Z → M Raft unit) r :
  (∀ p r0, keeps (within I P) (h p) r0) → keeps (within I P) (for_each_peer h) r.
Proof using order prof rand.
  intros Hf. unfold for_each_peer. apply keeps_get_bind, keeps_for_each; [apply _|]. intros p r0.
  case_decide; [apply Hf|]. apply keeps_ret. apply _.
Qed.
End within_facts.

(** What is known of the peers are numbers of 64 bits. *)
Definition peers_ok r : Prop := ∀ i p, r_prs r !! i = Some p → is_u64 (next_index p).

Lemma u64_norm_range z n : u64_norm z = Ok n → is_u64 n.
Proof.
  unfold u64_norm. case_decide; [by intros [= <-]|]. destruct overflow_checks; [done|]. intros [= <-].
  unfold is_u64, u64_max. pose proof (Z.mod_pos_bound z (2 ^ 64)). lia.
Qed.

(** A node that holds the entries [es]; one that leads [t] with them. *)
Definition holding es r : Prop := entries (r_log r) = es ∧ based (r_log r) ∧ peers_ok r.
Definition leading (t : Z) es r : Prop := r_state r = Leader ∧ r_term r = t ∧ holding es r.

Lemma holding_set_log es es' l r : holding es r → entries l = es' → based l → holding es' (set_log l r).
Proof. by intros (_ & _ & ?). Qed.
Lemma leading_set_log t es es' l r : leading t es r → entries l = es' → based l → leading t es' (set_log l r).
Proof. intros (? & ? & ?) ??. split; [done|]. split; [done|]. by eapply holding_set_log. Qed.

(** What is sent then. *)
Definition silent g : Prop := msg_type g ≠ MsgAppend ∧ msg_type g ≠ MsgSnapshot.
Definition carries (t : Z) es g : Prop :=
  msg_type g ≠ MsgSnapshot ∧ (msg_type g = MsgAppend → msg_term g = t ∧ chunk es g).

Lemma silent_carries t es g : silent g → carries t es g.
Proof. by intros [H1 H2]. Qed.

Lemma commit_forward_based c l :
  based l → based (if committed l <? c then set_committed (Z.min c (last_index l)) l else l).
Proof.
  intros Hl. destruct (Z.ltb_spec (committed l) c); [|done]. apply based_committed; [done|].
  pose proof (based_last _ Hl). pose proof (based_length _ Hl). pose proof (bs_committed _ Hl). lia.
Qed.

Ltac within :=
  cbv beta zeta;
  lazymatch goal with
  | |- keeps _ (get ≫= _) _ => apply keeps_get_bind; within
  | |- keeps _ (lift _ ≫= _) _ => apply keeps_lift_bind; [apply _|intros ? _; within]
  | |- keeps _ (_ ≫= _) _ => apply keeps_bind; [apply _|within|intros ? ?; within]
  | |- keeps _ (mret _) _ => apply keeps_ret; apply _
  | |- keeps _ (lift _) _ => apply keeps_lift; apply _
  | |- keeps _ (log_read _) _ => apply within_log_read
  | |- keeps _ (modify _) _ => apply within_modify; done
  | |- keeps _ (send _) _ => apply within_send; [first [done|apply silent_carries; done]|done]
  | |- keeps _ (match _ with _ => _ end) _ => case_match; within
  | _ => idtac
  end.

Section runs.
Context (R : relation Raft) {pre : PreOrder R}.

(** A call that returns and changes nothing, and one that does not return. *)
Lemma keeps_run {A B} (h : M Raft A) (h' : A → M Raft B) a r :
  h r = (Ok a, r) → keeps R (h' a) r → keeps R (h ≫= h') r.
Proof. intros E H. unfold keeps, wp, mbind, M_bind. rewrite E. exact H. Qed.
Lemma keeps_never {A B} (h : M Raft A) (h' : A → M Raft B) r : wp h (λ _ _, False) (R r) r → keeps R (h ≫= h') r.
Proof. intros H. apply wp_bind. eapply wp_mono; [exact H|done|done]. Qed.
End runs.

(** *** A leader *)

(** The entries from the next index on, if the log has them. *)
Lemma log_part l next :
  based l → 0 ≤ next ≤ last_index l + 1 →
  (f ≤ next ∧ (if next <=? last_index l then zslice (next - f) (Z.min (last_index l - f + 1) (Z.of_nat (length (entries l)))) (entries l)
               else Ok []) = Ok (drop (Z.to_nat (next - f)) (entries l))) ∨
  (next < f ∧ next ≤ last_index l ∧
   ∀ start hi, u64_sub next f = Ok start → zslice start (Z.min hi (Z.of_nat (length (entries l)))) (entries l) = Panic).
Proof.
  intros Hl Hn. pose proof (based_last _ Hl) as El. pose proof (bs_bound _ Hl). pose proof (bs_first _ Hl). pose proof (based_length _ Hl).
  destruct (Z.le_gt_cases f next); [left|right].
  - split; [done|]. destruct (Z.leb_spec next (last_index l)).
    + unfold zslice. rewrite decide_True by lia. f_equal. apply take_ge. rewrite length_drop. lia.
    + by rewrite drop_ge by lia.
  - split; [done|]. split; [lia|]. intros start hi. unfold u64_sub, u64_norm. rewrite decide_False by (unfold is_u64; lia).
    destruct overflow_checks; [done|]. intros [= <-]. unfold zslice. apply decide_False.
    assert ((next - f) mod 2 ^ 64 = next - f + 2 ^ 64) as ->.
    { rewrite <- (Z.mod_add _ 1) by done. apply Z.mod_small. unfold u64_max in *. lia. }
    unfold u64_max in *. lia.
Qed.
Lemma term_before k l next :
  based l → f ≤ next ≤ last_index l + 1 →
  (if 0 <? next then term_or_0 k (next - 1) l else Ok 0) = Ok (end_term 0 (take (Z.to_nat (next - f)) (entries l))).
Proof.
  intros Hl Hn. pose proof (based_last _ Hl). pose proof (bs_first _ Hl).
  rewrite (proj2 (Z.ltb_lt _ _)) by lia. destruct (Z.to_nat (next - f)) as [|n] eqn:En.
  - cbn. destruct (decide (f = 1)) as [->|Hf]; [|apply based_term_below; [done|lia]].
    replace (next - 1) with 0 by lia. by apply based_term_zero.
  - destruct (lookup_lt_is_Some_2 (entries l) n) as [e He]; [lia|].
    rewrite (end_term_take _ _ _ _ He). eapply based_term_in; [done| |exact He]. lia.
Qed.

(** The append that goes to a peer whose next index is [next]. *)
Definition append_from r (to next : Z) : Message :=
  let n := Z.to_nat (next - f) in
  log_message MsgAppend to (r_id r) (r_term r) (end_term 0 (take n (entries (r_log r)))) (next - 1)
    (drop n (entries (r_log r))) (committed (r_log r)).

(** It is sent, or nothing changes. *)
Lemma send_append_cases k to r :
  based (r_log r) → peers_ok r →
  (send_append_in k to r).2 = r ∨
  ∃ p, r_prs r !! to = Some p ∧ f ≤ next_index p ≤ last_index (r_log r) + 1 ∧
    send_append_in k to r = (Ok tt, set_msgs (r_msgs r ++ [append_from r to (next_index p)]) r).
Proof.
  intros Hl Hp. unfold send_append_in. rewrite (M_bind_run get _ _ _ _ eq_refl).
  destruct (r_prs r !! to) as [p|] eqn:Hto; [|by left]. cbv zeta. pose proof (Hp _ _ Hto) as Hnext.
  pose proof (based_last _ Hl) as El. pose proof (bs_bound _ Hl). pose proof (bs_first _ Hl). pose proof (based_length _ Hl).
  rewrite u64_add_ok by (unfold is_u64; lia). rewrite (M_bind_run (lift _) _ _ _ _ eq_refl).
  destruct (Z.ltb_spec (last_index (r_log r) + 1) (next_index p)) as [|Hn]; [by left|].
  pose proof (log_read_run first_index r f (based_first _ Hl)) as Hfirst.
  destruct (log_part (r_log r) (next_index p) Hl) as [[Hge Hpart]|(Hlt & Hle & Hpart)]; [unfold is_u64 in Hnext; lia|right|left].
  - exists p. split; [done|]. split; [done|].
    etrans; [apply (M_bind_run _ _ _ (drop (Z.to_nat (next_index p - f)) (entries (r_log r))) r)|
      etrans; [apply (M_bind_run _ _ _ (end_term 0 (take (Z.to_nat (next_index p - f)) (entries (r_log r)))) r)|]].
    + destruct (Z.leb_spec (next_index p) (last_index (r_log r))); [|by injection Hpart as <-].
      rewrite (M_bind_run _ _ _ _ _ Hfirst), !u64_sub_ok by (unfold is_u64; lia).
      rewrite !(M_bind_run (lift _) _ _ _ _ eq_refl), u64_add_ok by (unfold is_u64; lia).
      rewrite !(M_bind_run (lift _) _ _ _ _ eq_refl). unfold lift, all_entries. by rewrite Hpart.
    + pose proof (term_before k _ (next_index p) Hl) as Ht0. destruct (0 <? next_index p); [|].
      * rewrite u64_sub_ok by (unfold is_u64 in *; lia). rewrite (M_bind_run (lift _) _ _ _ _ eq_refl). apply log_read_run, Ht0. lia.
      * injection Ht0 as <-; [done|lia].
    + rewrite u64_sub_ok by (unfold is_u64 in *; lia). by rewrite (M_bind_run (lift _) _ _ _ _ eq_refl).
  - rewrite (proj2 (Z.leb_le _ _)) by done. apply (ends_wp _ (λ r', r' = r)). apply wp_bind.
    eapply (wp_mono _ (λ _ _, False)); [|done|intros ? H'; exact H'].
    apply wp_bind. unfold wp at 1. rewrite Hfirst.
    apply wp_bind, wp_lift; [|reflexivity]. intros start Hstart.
    apply wp_bind, wp_lift; [|reflexivity]. intros n _. apply wp_bind, wp_lift; [|reflexivity]. intros fin _.
    cbv zeta. unfold all_entries. rewrite (Hpart _ _ Hstart). by apply wp_lift.
Qed.
Lemma keeps_send_append (R : relation Raft) {pre : PreOrder R} k to r :
  based (r_log r) → peers_ok r →
  (∀ p, r_prs r !! to = Some p → f ≤ next_index p ≤ last_index (r_log r) + 1 →
    R r (set_msgs (r_msgs r ++ [append_from r to (next_index p)]) r)) →
  keeps R (send_append_in k to) r.
Proof.
  intros Hl Hp HR. apply (ends_wp _ (R r)). unfold ends.
  destruct (send_append_cases k to r Hl Hp) as [->|(p & Hto & Hn & ->)]; [reflexivity|]. by apply HR.
Qed.

Lemma append_from_chunk r to next :
  based (r_log r) → f ≤ next ≤ last_index (r_log r) + 1 → chunk (entries (r_log r)) (append_from r to next).
Proof.
  intros Hl Hn. pose proof (based_last _ Hl). exists (Z.to_nat (next - f)). cbn. split_and!; [lia|lia|done|done].
Qed.

Lemma within_send_append k to t es r : keeps (within (leading t es) (carries t es)) (send_append_in k to) r.
Proof.
  apply within_given. intros (_ & Ht & He & Hl & Hp). apply keeps_send_append; [apply _|done|done|].
  intros p Hto Hn Hr. split; [done|]. eexists. split; [done|]. apply Forall_singleton. split; [done|]. intros _. split; [done|].
  rewrite <- He. by apply append_from_chunk.
Qed.
Lemma within_maybe_commit k t es P r : keeps (within (leading t es) P) (maybe_commit_in k) r.
Proof.
  apply within_given. intros (Hs & Ht & He & Hl & Hp). unfold maybe_commit_in. apply keeps_get_bind.
  case_decide; [within|]. cbv zeta. case_match; [|within]. apply keeps_lift_bind; [apply _|]. intros c _.
  destruct (Z.ltb_spec (committed (r_log r)) c); [|within].
  apply keeps_bind; [apply _|apply within_log_read|]. intros tc r1. case_match; [|within].
  apply within_log_update. intros l' [= <-] Hr1. pose proof Hr1 as (_ & _ & E & Hl1 & _).
  eapply leading_set_log; [exact Hr1|exact E|]. apply based_committed; [done|]. pose proof (bs_committed _ Hl). lia.
Qed.
Lemma peers_insert (ps : gmap Z Progress) i p :
  (∀ i p, ps !! i = Some p → is_u64 (next_index p)) → is_u64 (next_index p) →
  ∀ i' p', <[i := p]> ps !! i' = Some p' → is_u64 (next_index p').
Proof. intros H1 H2 i' p' [[<- <-]|[_ H]]%lookup_insert_Some; [done|by eapply H1]. Qed.

Lemma progress_range (p p' : Progress) (rej : bool) i :
  (if rej then decrease_next p i else update_match p i) = Ok p' → is_u64 (next_index p').
Proof.
  unfold decrease_next, update_match, u64_add, u64_sub. intros H.
  destruct rej; [destruct (1 <? next_index p)|].
  - destruct (u64_norm (i + 1)) as [n| | |] eqn:E; [|done..]. cbn [mbind outcome_bind] in H. apply u64_norm_range in E.
    destruct (n <? next_index p); [by injection H as <-|].
    destruct (u64_norm (next_index p - 1)) eqn:E'; [|done..]. injection H as <-. by apply u64_norm_range in E'.
  - destruct (u64_norm (next_index p - 1)) eqn:E'; [|done..]. injection H as <-. by apply u64_norm_range in E'.
  - destruct (u64_norm (i + 1)) eqn:E; [|done..]. injection H as <-. by apply u64_norm_range in E.
Qed.

Lemma within_append_response k m t es r : keeps (within (leading t es) (carries t es)) (handle_append_response_in k m) r.
Proof.
  unfold handle_append_response_in. apply keeps_get_bind. case_match; [within|]. apply keeps_bind; [apply _| |].
  - destruct (r_prs r !! msg_from m) as [p|]; [|within]. apply keeps_lift_bind; [apply _|]. intros p' Hp'%progress_range.
    apply within_modify; [done|]. intros (? & ? & ? & ? & Hp). split; [done|]. split; [done|]. split; [done|]. split; [done|].
    unfold peers_ok. cbn. by apply peers_insert.
  - intros _ r1. apply keeps_bind; [apply _|case_match; [within|apply within_maybe_commit]|]. intros _ r2.
    apply keeps_get_bind. repeat case_match; try apply within_send_append; within.
Qed.
Lemma within_heartbeat_response k m t es r : keeps (within (leading t es) (carries t es)) (handle_heartbeat_response_in k m) r.
Proof. unfold handle_heartbeat_response_in. within; apply within_send_append. Qed.
Lemma within_bcast_heartbeat t es r : keeps (within (leading t es) (carries t es)) bcast_heartbeat r.
Proof. apply within_for_each_peer. intros. unfold send_heartbeat. within. Qed.

(** *** Any node *)

Lemma within_become_follower t lead es r : keeps (within (holding es) silent) (become_follower t lead) r.
Proof. unfold become_follower, reset_random_timeout. within. Qed.
Lemma within_become_candidate es r : keeps (within (holding es) silent) become_candidate r.
Proof. unfold become_candidate, reset_random_timeout. within. Qed.
Lemma within_request_vote k m es r : keeps (within (holding es) silent) (handle_request_vote_in k m) r.
Proof. unfold handle_request_vote_in. within. all: apply within_become_follower. Qed.
Lemma within_heartbeat m es r : keeps (within (holding es) silent) (handle_heartbeat m) r.
Proof.
  unfold handle_heartbeat. within. all: apply within_log_update; intros l' [= <-] Hr; pose proof Hr as (He & Hl & _).
  all: eapply holding_set_log; [done|by case_match|by apply commit_forward_based].
Qed.

(** ** One step of replication *)

(** A node has taken the entries of [m] behind the entry that [m] names. *)
Definition appended m es es' : Prop :=
  msg_type m = MsgAppend ∧ ∃ n : nat, msg_index m = f + Z.of_nat n ∧ e_term <$> es !! n = Some (msg_log_term m) ∧
    es' = take (S n) es ++ msg_entries m.
(** A leader has put entries of its term behind its log. *)
Definition extended r' es : Prop :=
  r_state r' = Leader ∧ ∃ new, entries (r_log r') = es ++ new ∧ Forall (λ e, e_term e = r_term r') new.

(** A message sent by a node that has come to [r']. *)
Definition sends r' g : Prop :=
  msg_type g ≠ MsgSnapshot ∧
  (msg_type g = MsgAppend → r_state r' = Leader ∧ msg_term g = r_term r' ∧ chunk (entries (r_log r')) g).

Record replicates m r r' : Prop := {
  rp_based : based (r_log r');
  rp_peers : peers_ok r';
  rp_log : entries (r_log r') = entries (r_log r) ∨ appended m (entries (r_log r)) (entries (r_log r')) ∨
    extended r' (entries (r_log r));
  rp_msgs : ∃ ms, r_msgs r' = r_msgs r ++ ms ∧ Forall (sends r') ms;
}.

Definition sound r : Prop := based (r_log r) ∧ peers_ok r.
Lemma sound_from r r1 : r_log r1 = r_log r → r_prs r1 = r_prs r → sound r → sound r1.
Proof. intros E1 E2 [Hl Hp]. split; [by rewrite E1|]. unfold peers_ok. by rewrite E2. Qed.
Lemma sound_holding r : sound r → holding (entries (r_log r)) r.
Proof. by intros [? ?]. Qed.

Lemma replicates_quiet m r r' : sound r → within (holding (entries (r_log r))) silent r r' → replicates m r r'.
Proof.
  intros Hr H. destruct (H (sound_holding _ Hr)) as ((E & Hb & Hp) & ms & Em & Hms). split; [done|done|by left|].
  exists ms. split; [done|]. eapply Forall_impl; [exact Hms|]. intros g [H1 H2]. by split.
Qed.
Lemma replicates_refl m r : sound r → replicates m r r.
Proof. intros Hr. apply replicates_quiet; [done|reflexivity]. Qed.

(** What a leader does after its log has been extended. *)
Lemma replicates_leading m r r1 r' new :
  sound r → entries (r_log r1) = entries (r_log r) ++ new → Forall (λ e, e_term e = r_term r1) new → r_msgs r1 = r_msgs r →
  leading (r_term r1) (entries (r_log r1)) r1 →
  within (leading (r_term r1) (entries (r_log r1))) (carries (r_term r1) (entries (r_log r1))) r1 r' → replicates m r r'.
Proof.
  intros Hr E Hn Em Hl H. destruct (H Hl) as ((Hs & Ht & E' & Hb & Hp) & ms & Em' & Hms). split; [done|done| |].
  - right; right. split; [done|]. exists new. rewrite E', E, Ht. done.
  - exists ms. rewrite Em', Em. split; [done|]. eapply Forall_impl; [exact Hms|]. intros g [H1 H2]. split; [done|].
    intros [? ?]%H2. rewrite E', Ht. done.
Qed.

(** Only the log and the messages of the state before count. *)
Lemma replicates_from m r r1 r' :
  r_log r1 = r_log r → r_msgs r1 = r_msgs r → replicates m r1 r' → replicates m r r'.
Proof. intros E1 E2 []. split; [done|done|by rewrite <- E1|by rewrite <- E2]. Qed.
Lemma replicates_relabel m m' r r' : msg_type m ≠ MsgAppend → replicates m r r' → replicates m' r r'.
Proof. intros Hm []. split; try done. destruct rp_log0 as [?|[[? _]|?]]; [by left|done|by right; right]. Qed.

(** Room for the entries of a proposal, or for the one of a new leader. *)
Definition room r m : Prop := last_index (r_log r) + Z.of_nat (length (msg_entries m)) + 1 < u64_max.

Lemma replicates_become_leader m r :
  sound r → last_index (r_log r) + 1 < u64_max → wp become_leader (λ _, replicates m r) (replicates m r) r.
Proof.
  intros Hr Hroom. pose proof Hr as [Hl Hp]. pose proof (based_last _ Hl) as El. pose proof (bs_first _ Hl). pose proof (based_length _ Hl).
  unfold become_leader. wp_step. wp_step. wp_step. wp_step. cbv zeta. cbn [r_log r_prs r_term set_heartbeat_elapsed set_lead set_state].
  set (r0 := set_heartbeat_elapsed 0 _).
  apply wp_bind. apply (wp_mono _ (λ n r1, r1 = r0 ∧ is_u64 n) _ (λ r1, r1 = r0)).
  { case_decide; [|rewrite u64_add_ok by (unfold is_u64; lia)]; [apply wp_ret|apply wp_lift_ok]; (split; [done|unfold is_u64; lia]). }
  2: { intros r1 ->. by apply (replicates_from m r r0), replicates_refl. }
  intros next r1 [-> Hnext]. wp_step. wp_step. set (r1 := set_prs _ r0).
  assert (sound r1) as Hr1.
  { split; [done|]. intros i p Hi. cbn in Hi. apply lookup_fmap_Some in Hi as (? & <- & _). done. }
  rewrite u64_add_ok by (unfold is_u64; lia). wp_step. wp_step.
  assert (∀ r', replicates m r1 r' → replicates m r r') as Hfrom by (intros r'; by apply replicates_from).
  destruct (append_behind _ Hl [Entry_new_normal (r_term r) (last_index (r_log r) + 1) []]) as [[Ha Hb]|Ha].
  - intros i e Hi. destruct i; [|done]. cbn in Hi. simplify_eq. cbn. lia.
  - cbn [length]. lia.
  - wp_step. unfold log_update. wp_step. wp_step. wp_step. change (r_log r1) with (r_log r). rewrite Ha. wp_step. wp_step.
    set (r2 := set_log _ r1). wp_step.
    assert (∀ r', within (leading (r_term r2) (entries (r_log r2))) (carries (r_term r2) (entries (r_log r2))) r2 r' → replicates m r r') as Hw.
    { intros r' Hr'. eapply (replicates_leading m r r2); [done|reflexivity|by apply Forall_singleton|done| |exact Hr'].
      split; [done|]. split; [done|]. split; [done|]. split; [exact Hb|apply Hr1]. }
    eapply wp_mono; [apply within_for_each_peer; intros; apply within_send_append| |]; cbn; intros; split_and?; by apply Hw.
  - wp_step. unfold log_update. wp_step. wp_step. wp_step. change (r_log r1) with (r_log r). rewrite Ha.
    apply wp_lift; [done|]. by apply Hfrom, replicates_refl.
Qed.

Lemma replicates_propose k m r :
  sound r → r_state r = Leader → room r m →
  wp (es ← lift (renumber (r_term r) (last_index (r_log r)) 0 (msg_entries m));
      log_update (λ l, append l es);; maybe_commit_in k;; for_each_peer (send_append_in k))
    (λ _, replicates m r) (replicates m r) r.
Proof.
  intros Hr Hs Hroom. pose proof Hr as [Hl Hp]. unfold room in Hroom. pose proof (based_last _ Hl) as El. pose proof (bs_first _ Hl). pose proof (based_length _ Hl).
  destruct (renumber_spec (r_term r) (last_index (r_log r)) 0 (msg_entries m)) as (es & -> & Hc & Hlen & Hnth); [lia..|].
  rewrite Z.add_0_r in Hc. wp_step. wp_step. wp_step. unfold log_update. wp_step. wp_step. wp_step.
  destruct (append_behind _ Hl es Hc) as [[Ha Hb]|Ha]; [lia| |].
  - rewrite Ha. wp_step. wp_step. set (r1 := set_log _ r).
    assert (∀ r', within (leading (r_term r1) (entries (r_log r1))) (carries (r_term r1) (entries (r_log r1))) r1 r' → replicates m r r') as Hw.
    { intros r' Hr'. eapply (replicates_leading m r r1); [done|reflexivity| |done| |exact Hr'].
      - apply Forall_lookup_2. intros i e Hi. destruct (lookup_lt_is_Some_2 (msg_entries m) i) as [e' He'].
        { rewrite <- Hlen. by eapply lookup_lt_Some. }
        rewrite (Hnth _ _ He') in Hi. by injection Hi as <-.
      - split; [done|]. split; [done|]. split; [done|]. split; [exact Hb|done]. }
    assert (keeps (within (leading (r_term r1) (entries (r_log r1))) (carries (r_term r1) (entries (r_log r1))))
      (maybe_commit_in k;; for_each_peer (send_append_in k)) r1) as Hk.
    { apply keeps_bind; [apply _|apply within_maybe_commit|]. intros _ r2. apply within_for_each_peer. intros. apply within_send_append. }
    eapply wp_mono; [exact Hk|intros; by apply Hw..].
  - rewrite Ha. apply wp_lift; [done|]. by apply replicates_refl.
Qed.

(** The entries of an append are numbered behind the entry it names. *)
Definition append_ok m : Prop :=
  msg_type m = MsgAppend → contiguous (msg_index m + 1) (msg_entries m) ∧ msg_index m + Z.of_nat (length (msg_entries m)) < u64_max.

(** What the test of an append says if it passes. *)
Lemma named_entry k l i t :
  based l → i ≤ last_index l → 0 < i → term_or_fail k i l = Ok t →
  ∃ n : nat, i = f + Z.of_nat n ∧ e_term <$> entries l !! n = Some t.
Proof.
  intros Hl Hi Hpos Ht. pose proof (based_last _ Hl). destruct (Z.lt_ge_cases i f) as [Hlt|Hge].
  { by destruct (proj1 (based_term_below _ Hl k i (conj Hpos Hlt)) t). }
  exists (Z.to_nat (i - f)). split; [lia|]. destruct (lookup_lt_is_Some_2 (entries l) (Z.to_nat (i - f))) as [e He]; [lia|].
  destruct (based_term_in _ Hl k i (Z.to_nat (i - f)) e) as [E _]; [lia|done|]. rewrite He. cbn. congruence.
Qed.

Lemma taken_based l m n :
  based l → contiguous (msg_index m + 1) (msg_entries m) → msg_index m + Z.of_nat (length (msg_entries m)) < u64_max →
  msg_index m = f + Z.of_nat n → (n < length (entries l))%nat →
  based (set_entries (take (S n) (entries l) ++ msg_entries m) l).
Proof.
  intros Hl Hc Hb Hi Hn. apply based_entries; [done| | |].
  - apply contiguous_app; [apply contiguous_take, Hl|]. rewrite length_take_le by lia.
    by replace (f + Z.of_nat (S n)) with (msg_index m + 1) by lia.
  - destruct (entries l); [cbn in Hn; lia|done].
  - rewrite length_app, length_take_le by lia. lia.
Qed.

(** Taking the entries of an append whose test has passed. *)
Lemma append_taken k m r :
  sound r → msg_type m = MsgAppend → append_ok m → msg_index m ≤ last_index (r_log r) →
  (0 < msg_index m → term_or_fail k (msg_index m) (r_log r) = Ok (msg_log_term m)) →
  append (r_log r) (msg_entries m) = Panic ∨
  ∃ l, append (r_log r) (msg_entries m) = Ok l ∧ based l ∧
    (entries l = entries (r_log r) ∧ msg_entries m = [] ∨ appended m (entries (r_log r)) (entries l)).
Proof.
  intros [Hl Hp] Hty Hok Hi Ht. destruct (Hok Hty) as [Hc Hb]. unfold append.
  destruct (msg_entries m) as [|e es] eqn:Em; [right; exists (r_log r); by auto|]. cbv zeta.
  pose proof (contiguous_cons _ _ _ Hc) as He. destruct (Z.leb_spec (e_index e) (committed (r_log r))) as [|Hlt]; [by left|right].
  pose proof (bs_committed _ Hl). pose proof (bs_first _ Hl).
  destruct (named_entry k _ _ _ Hl Hi ltac:(lia) (Ht ltac:(lia))) as (n & En & Hn).
  assert (n < length (entries (r_log r)))%nat as Hlen.
  { destruct (entries (r_log r) !! n) eqn:E; [by eapply lookup_lt_Some|done]. }
  rewrite based_first by done. cbn [mbind outcome_bind]. rewrite (proj2 (Z.ltb_lt _ _)) by lia.
  replace (Z.to_nat (Z.min (e_index e - f) (Z.of_nat (length (entries (r_log r)))))) with (S n) by lia.
  eexists. split; [done|]. rewrite <- Em in *. split; [by apply taken_based|]. right. split; [done|]. by exists n.
Qed.

Lemma replicates_append_entries k m r :
  sound r → msg_type m = MsgAppend → append_ok m →
  wp (handle_append_entries_in k m) (λ _, replicates m r) (replicates m r) r.
Proof.
  intros Hr Hty Hok. unfold handle_append_entries_in. wp_step. wp_step.
  assert (∀ r', within (holding (entries (r_log r))) silent r r' → replicates m r r') as Hq by (intros; by apply replicates_quiet).
  case_match. { eapply wp_mono; [apply (within_send (holding (entries (r_log r))) silent); [done|done]|intros; by apply Hq..]. }
  apply wp_bind. apply (wp_mono _ (λ _ r1, r_log r1 = r_log r ∧ r_prs r1 = r_prs r ∧ r_msgs r1 = r_msgs r) _ (λ _, False)).
  { case_match; [by apply wp_modify|by apply wp_ret]. }
  2: done.
  intros _ r1 (E1 & E2 & E3). wp_step. wp_step. wp_step. wp_step. cbv zeta. set (r2 := set_lead _ r1).
  assert (sound r2) as Hr2 by (by eapply sound_from).
  assert (∀ r', replicates m r2 r' → replicates m r r') as Hfrom by (intros r'; by apply replicates_from).
  assert (∀ g, silent g → wp (send g) (λ _, replicates m r) (replicates m r) r2) as Hsend.
  { intros g Hg. eapply wp_mono; [apply (within_send (holding (entries (r_log r2))) silent); [done|done]
      |intros; by apply Hfrom, replicates_quiet..]. }
  destruct (Z.ltb_spec (last_index (r_log r2)) (msg_index m)) as [|Hi]; [by apply Hsend|].
  apply wp_bind. apply (wp_mono _ (λ b r3, r3 = r2 ∧ (b = false → 0 < msg_index m → term_or_fail k (msg_index m) (r_log r2) = Ok (msg_log_term m)))
    _ (λ r3, r3 = r2)).
  { destruct (Z.ltb_spec 0 (msg_index m)); [|apply wp_ret; split; [done|lia]].
    wp_step. unfold log_read. wp_step. wp_step. apply wp_lift; [|done]. intros t Ht. wp_step. split; [done|].
    intros Hb _. apply bool_decide_eq_false, dec_stable in Hb. by rewrite Ht, Hb. }
  2: { intros r3 ->. by apply Hfrom, replicates_refl. }
  intros b r3 [-> Hb]. destruct b.
  { wp_step. apply wp_lift; [intros prev _; by apply Hsend|by apply Hfrom, replicates_refl]. }
  wp_step. unfold log_update. wp_step. wp_step. wp_step.
  destruct (append_taken k m r2 Hr2 Hty Hok Hi (Hb eq_refl)) as [->|(l & -> & Hl & Happ)].
  { apply wp_lift; [done|]. by apply Hfrom, replicates_refl. }
  do 9 wp_step. cbn [r_log set_log].
  set (l' := if _ <? _ then _ else _).
  assert (based l') as Hl' by (by apply commit_forward_based).
  assert (entries l' = entries l) as El' by (unfold l'; by case_match).
  apply wp_modify. apply Hfrom. split; [done|apply Hr2| |].
  - change (entries l' = entries (r_log r2) ∨ appended m (entries (r_log r2)) (entries l') ∨ extended (set_msgs (r_msgs r2 ++ [reply_message MsgAppendResponse (msg_from m) (r_id r2) (r_term r2) false (last_index l')]) (set_log l' (set_log l r2))) (entries (r_log r2))).
    rewrite El'. destruct Happ as [[? _]|?]; [by left|by right; left].
  - eexists. split; [reflexivity|]. by apply Forall_singleton.
Qed.

Lemma within_campaign k es r :
  keeps (within (λ r, holding es r ∧ r_prs r ≠ ∅) silent) (campaign_in k) r.
Proof.
  unfold campaign_in. apply keeps_bind; [apply _|unfold become_candidate, reset_random_timeout; within|].
  intros _ r1. apply within_given. intros [_ Hp]. apply keeps_get_bind. rewrite decide_False by (by apply quorum_peers). cbv zeta.
  apply keeps_bind; [apply _|apply within_log_read|]. intros t r2. apply within_for_each_peer. intros. within.
Qed.
Lemma replicates_campaign k m r :
  sound r → r_prs r ≠ ∅ → wp (campaign_in k) (λ _, replicates m r) (replicates m r) r.
Proof.
  intros Hr Hp.
  assert (∀ r', within (λ r0, holding (entries (r_log r)) r0 ∧ r_prs r0 ≠ ∅) silent r r' → replicates m r r') as Hw.
  { intros r' H. apply replicates_quiet; [done|]. intros Hh. by destruct (H (conj Hh Hp)) as [[? _] ?]. }
  eapply wp_mono; [apply (within_campaign k (entries (r_log r)))|intros; by apply Hw..].
Qed.
Lemma replicates_vote_response m r :
  sound r → last_index (r_log r) + 1 < u64_max → wp (handle_request_vote_response m) (λ _, replicates m r) (replicates m r) r.
Proof.
  intros Hr Hroom. unfold handle_request_vote_response. wp_step. wp_step.
  case_decide; [wp_step; by apply replicates_refl|]. do 4 wp_step. cbv zeta. set (r1 := set_votes _ r).
  assert (∀ r', replicates m r1 r' → replicates m r r') as Hfrom by (intros r'; by apply replicates_from).
  assert (sound r1) as Hr1 by exact Hr.
  assert (∀ r', within (holding (entries (r_log r1))) silent r1 r' → replicates m r r') as Hq by (intros; by apply Hfrom, replicates_quiet).
  case_match; [|case_match].
  - eapply wp_mono; [by apply (replicates_become_leader m r1)|intros; by apply Hfrom..].
  - eapply wp_mono; [apply (within_become_follower _ _ (entries (r_log r1)))|intros; by apply Hq..].
  - wp_step. by apply Hfrom, replicates_refl.
Qed.

(** What a message may be, and what it needs. *)
Record message_ok r m : Prop := {
  mo_snapshot : msg_type m ≠ MsgSnapshot;
  mo_append : append_ok m;
  mo_room : msg_type m = MsgPropose ∨ msg_type m = MsgRequestVoteResponse → room r m;
}.

Lemma replicates_role k m r :
  sound r → r_prs r ≠ ∅ → message_ok r m →
  wp (match r_state r with
      | Follower => step_follower_in k m
      | Candidate => step_candidate_in k m
      | Leader => step_leader_in k m
      end) (λ _, replicates m r) (replicates m r) r.
Proof.
  intros Hr Hp [Hsn Happ Hroom].
  assert (∀ (h : M Raft unit) r1, r_log r1 = r_log r → r_msgs r1 = r_msgs r → sound r1 →
    keeps (within (holding (entries (r_log r1))) silent) h r1 → wp h (λ _, replicates m r) (replicates m r) r1) as Hq.
  { intros h r1 E1 E2 H1 Hk. eapply wp_mono; [exact Hk|intros; by eapply replicates_from, replicates_quiet..]. }
  assert (r_state r = Leader → ∀ h : M Raft unit,
    keeps (within (leading (r_term r) (entries (r_log r))) (carries (r_term r) (entries (r_log r)))) h r →
    wp h (λ _, replicates m r) (replicates m r) r) as Hlead.
  { intros Hs h Hk. assert (∀ r', within (leading (r_term r) (entries (r_log r))) (carries (r_term r) (entries (r_log r))) r r' → replicates m r r') as Hw.
    { intros r' Hr'. eapply (replicates_leading m r r r' []); [done|by rewrite app_nil_r|by apply Forall_nil|done| |exact Hr'].
      split; [done|]. split; [done|]. by apply sound_holding. }
    eapply wp_mono; [exact Hk|intros; by apply Hw..]. }
  assert (∀ (h : M Raft unit) lead, (∀ r1, r_log r1 = r_log r → r_msgs r1 = r_msgs r → sound r1 → wp h (λ _, replicates m r1) (replicates m r1) r1) →
    wp (become_follower (msg_term m) lead;; h) (λ _, replicates m r) (replicates m r) r) as Hdemote.
  { intros h lead Hh. apply wp_bind. eapply (wp_mono _ (λ _ r1, r_log r1 = r_log r ∧ r_msgs r1 = r_msgs r ∧ r_prs r1 = r_prs r) _
      (λ r1, r_log r1 = r_log r ∧ r_msgs r1 = r_msgs r ∧ r_prs r1 = r_prs r)).
    - unfold become_follower, reset_random_timeout. repeat first [progress wp_step|case_match|done].
    - intros _ r1 (E1 & E2 & E3). assert (sound r1) as Hr1 by (by eapply sound_from).
      eapply wp_mono; [by apply Hh|intros; by eapply replicates_from..].
    - intros r1 (E1 & E2 & E3). eapply replicates_from; [done|done|]. apply replicates_refl.
      by eapply sound_from. }
  destruct (r_state r) eqn:Hs; unfold step_follower_in, step_candidate_in, step_leader_in; destruct (msg_type m) eqn:Hty; try done.
  all: try (by apply replicates_campaign).
  all: try (apply Hq; [done..|apply within_request_vote]).
  all: try (wp_step; by apply replicates_refl).
  all: try (apply Hdemote; intros r1 E1 E2 Hr1; first
    [by apply replicates_append_entries|eapply wp_mono; [apply within_heartbeat|intros; by apply replicates_quiet..]]).
  all: try (apply Hlead; [done|]; first [apply within_append_response|apply within_heartbeat_response|apply within_bcast_heartbeat]).
  all: try (apply replicates_vote_response; [done|]; unfold room in Hroom; specialize (Hroom (or_intror eq_refl)); lia).
  all: try (apply Hq; [done..|]; apply keeps_get_bind; case_decide; [apply within_send; [|done]|apply keeps_ret; apply _];
    unfold silent; cbn; rewrite Hty; done).
  - wp_step. wp_step. eapply wp_mono; [apply (replicates_append_entries k m (set_election_elapsed 0 r)); [by eapply sound_from|done..]
      |intros; by apply (replicates_from m r (set_election_elapsed 0 r))..].
  - wp_step. wp_step. apply Hq; [done|done|by eapply sound_from|apply within_heartbeat].
  - apply Hdemote. intros r1 E1 E2 Hr1.
    assert (∀ r', within (holding (entries (r_log r1))) silent r1 r' → replicates m r1 r') as Hw by (intros; by apply replicates_quiet).
    eapply wp_mono; [apply (within_heartbeat m (entries (r_log r1)))|intros; by apply Hw..].
  - wp_step. wp_step. apply replicates_propose; [done|done|]. apply Hroom. by left.
Qed.

(** A step on any message but a snapshot. *)
Lemma replicates_step k m r :
  sound r → r_prs r ≠ ∅ → message_ok r m → replicates m r (step_in k m r).2.
Proof.
  intros Hr Hp Hm. apply (ends_wp _ (replicates m r)). unfold step_in. wp_step. wp_step. apply wp_bind.
  set (same r1 := r_log r1 = r_log r ∧ r_msgs r1 = r_msgs r ∧ r_prs r1 = r_prs r).
  assert (∀ t lead, wp (become_follower t lead) (λ _, same) same r) as Hb.
  { intros. unfold become_follower, reset_random_timeout. repeat first [progress wp_step|case_match|done]. }
  assert (∀ r1, same r1 → sound r1) as Hsame.
  { intros r1 (E1 & E2 & E3). by eapply sound_from. }
  apply (wp_mono _ (λ _, same) _ same).
  - case_match; [|by apply wp_ret]. case_decide; apply Hb.
  - intros _ r1 H1. pose proof (Hsame _ H1). destruct H1 as (E1 & E2 & E3). wp_step. wp_step.
    eapply wp_mono; [apply (replicates_role k m r1)|intros; by eapply replicates_from..]; [done|by rewrite E3|].
    destruct Hm. split; [done|done|]. unfold room. by rewrite E1.
  - intros r1 H1. pose proof (Hsame _ H1). destruct H1 as (E1 & E2 & E3). by eapply replicates_from, replicates_refl.
Qed.

Lemma replicates_tick m r : sound r → r_prs r ≠ ∅ → replicates m r (tick r).2.
Proof.
  intros Hr Hp. apply (ends_wp _ (replicates m r)). unfold tick. wp_step. wp_step.
  assert (∀ r1 t, r_log r1 = r_log r → r_msgs r1 = r_msgs r → r_prs r1 = r_prs r → t = MsgBeat ∨ t = MsgHup →
    wp (ignore_err (step (local_message t (r_id r) []))) (λ _, replicates m r) (replicates m r) r1) as Hstep.
  { intros r1 t E1 E2 E3 Ht. apply (ends_wp _ (replicates m r)). unfold ends. rewrite ignore_err_state'.
    eapply replicates_from; [exact E1|exact E2|]. apply (replicates_relabel (local_message t (r_id r) [])); [by destruct Ht as [->| ->]|].
    apply replicates_step; [|by rewrite E3|].
    - by eapply sound_from.
    - split; [by destruct Ht as [->| ->]|intros E; cbn in E; by destruct Ht; congruence|].
      intros [E|E]; cbn in E; destruct Ht; congruence. }
  pose proof (replicates_refl m r Hr).
  destruct (r_state r); (wp_step; wp_step; [|done]; wp_step; wp_step; case_match;
    [wp_step; wp_step; apply Hstep; by auto|apply wp_ret; by eapply replicates_from, replicates_refl]).
Qed.

(** A leader does not take appends of its own term. *)
Lemma leader_keeps k m r :
  r_state r = Leader → msg_type m = MsgAppend → r_term (step_in k m r).2 = r_term r → (step_in k m r).2 = r.
Proof.
  intros Hs Hty. unfold step_in. rewrite (M_bind_run get _ _ _ _ eq_refl). destruct (Z.ltb_spec (r_term r) (msg_term m)) as [Hlt|Hle].
  2: { intros _. rewrite (M_bind_run (mret _) _ _ _ _ eq_refl), (M_bind_run get _ _ _ _ eq_refl), Hs. unfold step_leader_in. by rewrite Hty. }
  intros E. exfalso. revert E. apply Z.neq_sym, Z.lt_neq. eapply Z.lt_le_trans; [exact Hlt|].
  rewrite decide_True by auto. apply (ends_wp _ (λ r', msg_term m ≤ r_term r')). apply wp_bind.
  eapply wp_mono; [apply demoted_run|cbn|intros r1 Hd; by rewrite (de_term _ _ _ Hd)].
  intros _ r1 Hd. wp_step. wp_step. rewrite (de_state _ _ _ Hd). unfold step_follower_in. rewrite Hty.
  pose proof (de_term _ _ _ Hd) as Ht. wp_step. wp_step.
  eapply wp_mono; [apply calm_handle_append_entries; cbn; lia|cbn; intros|cbn; intros];
    match goal with H : calm _ ?r2 |- _ => rewrite (ca_term _ _ H); cbn; lia end.
Qed.
End logs.
