(* ===== verification/RaftMatching.v ===== *)
(** Log matching: the logs of the nodes of a cluster that runs
    src/raft/raft.rs under the network of RaftCluster.v.

    The logs start at one index, whose entry is committed everywhere, and match
    each other; no node follows a message that is older than itself, and no
    log outgrows the indices of 64 bits.  Then, whatever the network does, two
    logs with entries of the same term at one index agree up to it.  The
    invariant behind it speaks of every entry together with the term before it,
    in the logs and in all appends ever sent, and of the leaders that the
    terms have had. *)

From S2P Require Import Prelude Bytes RaftTypes RaftLog Raft RaftReplication RaftElections RaftCluster RaftLogs.

(** ** Links *)

Lemma links_in p es q e : (q, e) ∈ links p es → e ∈ es.
Proof. intros (n & H & _)%elem_of_links. by eapply list_elem_of_lookup_2. Qed.
Lemma links_unique f p es x y :
  contiguous f es → x ∈ links p es → y ∈ links p es → e_index x.2 = e_index y.2 → x = y.
Proof.
  destruct x as [q e], y as [q' e']. intros Hc (n & Hn & ->)%elem_of_links (n' & Hn' & ->)%elem_of_links. cbn.
  rewrite (Hc _ _ Hn), (Hc _ _ Hn'). intros E. assert (n = n') as -> by lia. by simplify_eq.
Qed.

(** Two logs match if entries of one term at one index mean that all entries up
    to it are the same. *)
Definition matching (l1 l2 : RaftLog) : Prop :=
  ∀ i e1 e2, entry_at l1 i = Some e1 → entry_at l2 i = Some e2 → e_term e1 = e_term e2 →
  ∀ j, j ≤ i → entry_at l1 j = entry_at l2 j.

(** Links that agree wherever index and term do. *)
Definition agree (X Y : Z * Entry → Prop) : Prop :=
  ∀ x y, X x → Y y → e_index x.2 = e_index y.2 → e_term x.2 = e_term y.2 → x = y.

Section matching.
Context `{prof : BuildProfile} `{order : HashOrder} `{rand : RandomSource}.
Context (f t0 : Z) (members : gset Z).
Implicit Types (r : Raft) (m g : Message) (k : lookup) (c : cluster).

Lemma entry_at_based l n : based f l → entry_at l (f + Z.of_nat n) = entries l !! n.
Proof. intros Hl. unfold entry_at. rewrite (based_first_of f l Hl), decide_True by lia. f_equal. lia. Qed.
Lemma entry_at_below l i : based f l → i < f → entry_at l i = None.
Proof. intros Hl Hi. unfold entry_at. by rewrite (based_first_of f l Hl), decide_False by lia. Qed.

Lemma agree_positions es1 es2 n e1 e2 :
  contiguous f es1 → contiguous f es2 → agree (.∈ links 0 es1) (.∈ links 0 es2) →
  es1 !! n = Some e1 → es2 !! n = Some e2 → e_term e1 = e_term e2 → ∀ j, (j ≤ n)%nat → es1 !! j = es2 !! j.
Proof.
  intros Hc1 Hc2 Ha. revert e1 e2. induction n as [|n IH]; intros e1 e2 H1 H2 Ht j Hj.
  all: match type of H1 with _ !! ?i = _ => pose (pos := i);
    assert ((match pos with O => 0 | S n' => end_term 0 (take (S n') es1) end, e1)
      = (match pos with O => 0 | S n' => end_term 0 (take (S n') es2) end, e2)) as E end.
  1, 3: apply Ha; [apply elem_of_links; by exists pos|apply elem_of_links; by exists pos|cbn; by rewrite (Hc1 _ _ H1), (Hc2 _ _ H2)|done].
  - assert (j = 0%nat) as -> by lia. injection E as ->. congruence.
  - cbn in E. injection E as Eq ->.
    destruct (lookup_lt_is_Some_2 es1 n) as [p1 P1]; [apply lookup_lt_Some in H1; lia|].
    destruct (lookup_lt_is_Some_2 es2 n) as [p2 P2]; [apply lookup_lt_Some in H2; lia|].
    rewrite (end_term_take _ _ _ _ P1), (end_term_take _ _ _ _ P2) in Eq.
    destruct (decide (j = S n)) as [->|]; [congruence|]. eapply IH; [exact P1|exact P2|done|lia].
Qed.

Lemma matching_agree l1 l2 : based f l1 → based f l2 →
  matching l1 l2 ↔ agree (.∈ links 0 (entries l1)) (.∈ links 0 (entries l2)).
Proof.
  intros B1 B2. pose proof (bs_contiguous _ _ B1) as C1. pose proof (bs_contiguous _ _ B2) as C2. split.
  - intros Hm [q1 e1] [q2 e2] (n1 & H1 & ->)%elem_of_links (n2 & H2 & ->)%elem_of_links. cbn.
    rewrite (C1 _ _ H1), (C2 _ _ H2). intros E Ht. assert (n2 = n1) as -> by lia.
    assert (∀ j, (j ≤ n1)%nat → entries l1 !! j = entries l2 !! j) as Hj.
    { intros j Hj. rewrite <- !entry_at_based by done. eapply Hm; rewrite ?entry_at_based by done; [exact H1|exact H2|done|lia]. }
    assert (e1 = e2) as -> by (specialize (Hj n1 ltac:(lia)); congruence).
    assert (take n1 (entries l1) = take n1 (entries l2)) as Et.
    { apply list_eq. intros j. destruct (decide (j < n1)%nat); [|by rewrite !lookup_take_ge by lia].
      rewrite !lookup_take_lt by done. apply Hj. lia. }
    destruct n1; [done|]. by rewrite Et.
  - intros Ha i e1 e2 H1 H2 Ht j Hj. destruct (Z.lt_ge_cases i f) as [|Hi]; [by rewrite entry_at_below in H1|].
    destruct (Z.lt_ge_cases j f); [by rewrite !entry_at_below|].
    replace i with (f + Z.of_nat (Z.to_nat (i - f))) in H1, H2 by lia. rewrite entry_at_based in H1, H2 by done.
    replace j with (f + Z.of_nat (Z.to_nat (j - f))) by lia. rewrite !entry_at_based by done.
    eapply (agree_positions _ _ (Z.to_nat (i - f))); [exact C1|exact C2|done|exact H1|exact H2|done|lia].
Qed.

(** ** The leaders of the terms *)

(** A majority of the members has voted for [w] in the term [t]. *)
Definition supported c (t w : Z) : Prop :=
  ∃ S : gset Z, S ⊆ members ∧ (size members < 2 * size S)%nat ∧
    ∀ p, p ∈ S → p = w ∨ ∃ g, g ∈ sent c ∧ is_grant g ∧ msg_from g = p ∧ msg_to g = w ∧ msg_term g = t.

(** [led] has the leader of every term that has had one. *)
Record led_ok c (led : gmap Z Z) : Prop := {
  le_node : ∀ id r, nodes c !! id = Some r → r_state r = Leader → led !! r_term r = Some id;
  le_then : ∀ t w, led !! t = Some w →
    ∃ r, nodes c !! w = Some r ∧ (t < r_term r ∨ (t = r_term r ∧ r_state r = Leader));
  le_support : ∀ t w, led !! t = Some w → supported c t w;
  le_refused : ∀ t w g, led !! t = Some w → g ∈ sent c → is_grant g → msg_from g = w → msg_term g ≠ t;
}.

Section step.
Context (c : cluster) (id : Z) (r r' : Raft) (m : Message).
Context (Hok : cluster_ok members c) (Hr : nodes c !! id = Some r) (Hm : heard c id m) (Hel : elects m r r').
Context (Hsize : (2 ≤ size members)%nat) (Hsn : msg_type m ≠ MsgSnapshot).
Context (led : gmap Z Z) (Hled : led_ok c led).
#[local] Abbreviation c' := (after id r' c).

Lemma peers_some : r_prs r ≠ ∅.
Proof using Hok Hr Hsize.
  clear - Hok Hr Hsize. intros E. pose proof (no_peers _ _ _ _ (co_node _ _ Hok _ _ Hr)) as Hp. rewrite E, dom_empty_L in Hp.
  assert (members ⊆ ({[ id ]} : gset Z)) as Hs%subseteq_size.
  { intros x Hx. apply elem_of_singleton, dec_stable. intros Hne. set_unfold. by apply (Hp x). }
  rewrite size_singleton in Hs. lia.
Qed.

Lemma supported_after t w : supported c t w → supported c' t w.
Proof.
  intros (S & H1 & H2 & H3). exists S. split; [done|]. split; [done|]. intros p [?|(g & ? & ?)]%H3; [by left|right].
  exists g. split; [apply elem_of_app; by left|done].
Qed.
Lemma le_then_after t w : led !! t = Some w →
  ∃ r0, nodes c' !! w = Some r0 ∧ (t < r_term r0 ∨ (t = r_term r0 ∧ r_state r0 = Leader)).
Proof using All.
  intros Hw. destruct (le_then _ _ Hled _ _ Hw) as (r0 & H0 & Ht). destruct (decide (w = id)) as [->|Hne].
  - exists (set_msgs [] r'). cbn. rewrite lookup_insert_eq. split; [done|].
    assert (r0 = r) as -> by congruence. pose proof (el_term _ _ _ Hel). destruct (decide (t = r_term r')); [right|left; lia].
    split; [done|]. apply (el_stays _ _ _ Hel); [|lia|done]. destruct Ht as [?|[? ?]]; [lia|done].
  - exists r0. cbn. by rewrite lookup_insert_ne.
Qed.
Lemma refused_after t w g :
  led !! t = Some w → g ∈ sent c' → is_grant g → msg_from g = w → msg_term g ≠ t.
Proof using All.
  intros Hw [Hg|Hg]%(after_sent members c id r r' m Hok Hr Hel) Gg Hf; [by eapply le_refused|]. intros Ht.
  destruct (so_grant _ _ _ _ Hg Gg) as (F1 & F2 & F3 & _).
  destruct (le_then_after _ _ Hw) as (r0 & H0 & Hcase). assert (w = id) as -> by (rewrite <- Hf, F1; apply (no_id _ _ _ _ (co_node _ _ Hok _ _ Hr))).
  cbn in H0. rewrite lookup_insert_eq in H0. injection H0 as <-. cbn in Hcase. destruct Hcase as [?|[_ ?]]; [lia|congruence].
Qed.

(** The leader of a term is new, or the term has had none. *)
Lemma leader_is_new :
  r_state r' = Leader → (r_state r = Leader ∧ r_term r' = r_term r) ∨
  (r_term r' = r_term r ∧ r_state r = Candidate ∧ led !! r_term r' = None ∧ supported c' (r_term r') id).
Proof using All.
  intros Hl. pose proof (after_ok members c id r r' m Hok Hr Hm Hel) as Hok'.
  assert (nodes c' !! id = Some (set_msgs [] r')) as Hr' by (cbn; apply lookup_insert_eq).
  destruct (el_leader _ _ _ Hel Hl) as [(? & ? & _)|[Hq [Ht|Hq1]]]; [by left| |].
  2: { exfalso. eapply quorum_peers; [|exact Hq1]. intros E. apply peers_some. apply dom_empty_inv_L.
       rewrite <- (el_members _ _ _ Hel), E. apply dom_empty_L. }
  destruct (r_state r) eqn:Hs; [destruct (el_follower _ _ _ Hel Ht Hs); congruence| |by left].
  right. split; [done|]. split; [done|].
  destruct (leader_majority _ _ _ _ Hok' Hr' Hl) as [Hsub Hmaj]. set (S' := supporters (set_msgs [] r')) in *.
  assert (∀ p, p ∈ S' → p = id ∨ ∃ g, g ∈ sent c' ∧ is_grant g ∧ msg_from g = p ∧ msg_to g = id ∧ msg_term g = r_term r') as HS'.
  { intros p Hp%supporters_spec. apply (no_votes _ _ _ _ (co_node _ _ Hok' _ _ Hr') p Hp). }
  split; [|by exists S'].
  destruct (led !! r_term r') as [w|] eqn:Hw; [|done]. exfalso.
  assert (∀ g, g ∈ sent c → is_grant g → msg_from g = id → msg_term g = r_term r' → False) as Hcand.
  { intros g Hg Gg Hf HT. destruct (co_grant _ _ Hok g Hg Gg) as (r0 & H0 & _ & _ & Hsame). rewrite Hf in H0.
    assert (r0 = r) as -> by congruence. destruct Hsame; congruence. }
  destruct (le_then _ _ Hled _ _ Hw) as (r0 & H0 & Hcase). destruct (decide (w = id)) as [->|Hne].
  { assert (r0 = r) as -> by congruence. destruct Hcase as [?|[_ ?]]; [lia|congruence]. }
  destruct (le_support _ _ Hled _ _ Hw) as (S & Hsub0 & Hmaj0 & HS).
  destruct (majorities_meet _ _ _ Hsub Hsub0 Hmaj Hmaj0) as (p & Hp' & Hp).
  destruct (HS' p Hp') as [->|(g' & G1 & G2 & G3 & G4 & G5)].
  - destruct (HS id Hp) as [?|(g & ? & ? & ? & ? & ?)]; [done|by eapply Hcand].
  - destruct (HS p Hp) as [->|(g & F1 & F2 & F3 & F4 & F5)]; [by eapply refused_after|].
    apply Hne. rewrite <- F4, <- G4. apply (co_unique _ _ Hok'); [|done..|congruence|congruence].
    apply elem_of_app. by left.
Qed.

Lemma led_after :
  ∃ led', led ⊆ led' ∧ led_ok c' led' ∧ (r_state r' = Leader → led' !! r_term r' = Some id).
Proof using All.
  destruct (decide (r_state r' = Leader)) as [Hl|Hl].
  - destruct (leader_is_new Hl) as [[Hs Ht]|(Ht & Hs & Hnone & Hsup)].
    + pose proof (le_node _ _ Hled _ _ Hr Hs) as Hw. exists led. split; [done|]. split; [|by rewrite Ht]. split.
      * intros id' r0 H0 Hl0. cbn in H0. apply lookup_insert_Some in H0 as [[<- <-]|[_ H0]]; [cbn; by rewrite Ht|by apply (le_node _ _ Hled)].
      * apply le_then_after.
      * intros. by apply supported_after, (le_support _ _ Hled).
      * apply refused_after.
    + exists (<[r_term r' := id]> led). split; [by apply insert_subseteq|]. split; [|by rewrite lookup_insert_eq]. split.
      * intros id' r0 H0 Hl0. cbn in H0. apply lookup_insert_Some in H0 as [[<- <-]|[Hne H0]]; [apply lookup_insert_eq|].
        rewrite lookup_insert_ne; [by apply (le_node _ _ Hled)|]. intros E. rewrite E, (le_node _ _ Hled _ _ H0 Hl0) in Hnone. done.
      * intros t w [[<- <-]|[_ Hw]]%lookup_insert_Some; [|by apply le_then_after].
        exists (set_msgs [] r'). cbn. rewrite lookup_insert_eq. by auto.
      * intros t w [[<- <-]|[_ Hw]]%lookup_insert_Some; [done|]. by apply supported_after, (le_support _ _ Hled).
      * intros t w g [[<- <-]|[_ Hw]]%lookup_insert_Some; [|by apply refused_after].
        intros [Hg|Hg]%(after_sent members c id r r' m Hok Hr Hel) Gg Hf HT.
        -- destruct (co_grant _ _ Hok g Hg Gg) as (r0 & H0 & _ & _ & Hsame). rewrite Hf in H0.
           assert (r0 = r) as -> by congruence. destruct Hsame; congruence.
        -- destruct (so_grant _ _ _ _ Hg Gg) as (_ & _ & F3 & _). congruence.
  - exists led. split; [done|]. split; [|done]. split.
    + intros id' r0 H0 Hl0. cbn in H0. apply lookup_insert_Some in H0 as [[<- <-]|[_ H0]]; [done|by apply (le_node _ _ Hled)].
    + apply le_then_after.
    + intros. by apply supported_after, (le_support _ _ Hled).
    + apply refused_after.
Qed.
End step.

(** ** The entries of all logs and appends *)

Definition linked c (x : Z * Entry) : Prop :=
  (∃ id r, nodes c !! id = Some r ∧ x ∈ links 0 (entries (r_log r))) ∨
  (∃ g, g ∈ sent c ∧ msg_type g = MsgAppend ∧ x ∈ links (msg_log_term g) (msg_entries g)).

Record logs_ok c (led : gmap Z Z) : Prop := {
  lo_sound : ∀ id r, nodes c !! id = Some r → sound f r;
  lo_term : ∀ id r, nodes c !! id = Some r → t0 ≤ r_term r ∧ (r_state r ≠ Follower → t0 < r_term r);
  lo_sent : ∀ g, g ∈ sent c → msg_type g ≠ MsgSnapshot ∧ append_ok g;
  lo_agree : agree (linked c) (linked c);
  lo_led : ∀ x, linked c x → e_term x.2 ≤ t0 ∨ is_Some (led !! e_term x.2);
  lo_last : ∀ id r x, nodes c !! id = Some r → r_state r = Leader → linked c x → e_term x.2 = r_term r →
    e_index x.2 ≤ last_index (r_log r);
}.

Section log_step.
Context (c : cluster) (id : Z) (r r' : Raft) (m : Message).
Context (Hok : cluster_ok members c) (Hr : nodes c !! id = Some r) (Hm : heard c id m) (Hel : elects m r r').
Context (Hsize : (2 ≤ size members)%nat) (Hsn : msg_type m ≠ MsgSnapshot).
Context (led : gmap Z Z) (Hled : led_ok c led) (Hlogs : logs_ok c led).
Context (Hrep : replicates f m r r') (Hsent : msg_type m = MsgAppend → m ∈ sent c).
Context (Hkeeps : r_state r = Leader → r_term r' = r_term r → entries (r_log r) `prefix_of` entries (r_log r')).
#[local] Abbreviation c' := (after id r' c).

Lemma sent_after g : g ∈ sent c' → g ∈ sent c ∨ sends f r' g.
Proof using All.
  intros [Hg|Hg]%elem_of_app; [by left|right]. destruct (rp_msgs _ _ _ _ Hrep) as (ms & E & Hms).
  rewrite E, (no_msgs _ _ _ _ (co_node _ _ Hok _ _ Hr)) in Hg. by eapply Forall_forall in Hms.
Qed.

(** A link that the step has made: a leader's, with its term, behind the log
    as it was. *)
Definition made (x : Z * Entry) : Prop :=
  r_state r' = Leader ∧ x ∈ links 0 (entries (r_log r')) ∧ e_term x.2 = r_term r' ∧ last_index (r_log r) < e_index x.2.

Lemma log_after x : x ∈ links 0 (entries (r_log r')) → linked c x ∨ made x.
Proof using All.
  intros Hx. pose proof (lo_sound _ _ Hlogs _ _ Hr) as [Hl _]. pose proof (rp_based _ _ _ _ Hrep) as Hl'.
  destruct (rp_log _ _ _ _ Hrep) as [E|[(Hty & n & Hi & Hn & E)|(Hs & new & E & Ht)]]; rewrite E in Hx.
  - left. left. by exists id, r.
  - left. rewrite links_app in Hx. apply elem_of_app in Hx as [Hx|Hx].
    + left. exists id, r. split; [done|]. rewrite <- (take_drop (S n) (entries (r_log r))), links_app. apply elem_of_app. by left.
    + right. exists m. split; [by apply Hsent|]. split; [done|].
      destruct (entries (r_log r) !! n) as [e|] eqn:He; [|done]. rewrite (end_term_take _ _ _ _ He) in Hx.
      cbn in Hn. by injection Hn as <-.
  - pose proof Hx as Hx0. rewrite links_app in Hx. apply elem_of_app in Hx as [Hx|Hx]; [left; left; by exists id, r|].
    right. split; [done|]. split; [by rewrite E|]. destruct x as [q e]. apply links_in in Hx. cbn.
    split; [by eapply (proj1 (Forall_forall _ _)) in Ht|].
    apply list_elem_of_lookup in Hx as [n Hn]. rewrite (based_last f _ Hl).
    rewrite (bs_contiguous _ _ Hl' (length (entries (r_log r)) + n)%nat e).
    + lia.
    + rewrite E, lookup_app_r by lia. by replace (length (entries (r_log r)) + n - length (entries (r_log r)))%nat with n by lia.
Qed.
Lemma linked_after x : linked c' x → linked c x ∨ made x.
Proof using All.
  intros [(id' & r0 & H0 & Hx)|(g & Hg & Hty & Hx)].
  - cbn in H0. apply lookup_insert_Some in H0 as [[<- <-]|[_ H0]]; [by apply log_after|left; left; by exists id', r0].
  - destruct (sent_after g Hg) as [?|[_ Hs]]; [left; right; by exists g|].
    destruct (Hs Hty) as (_ & _ & Hc). eapply log_after, chunk_links; done.
Qed.

(** Nothing was linked before with the index and the term of a link just made. *)
Lemma made_new x y : made x → linked c y → e_index x.2 = e_index y.2 → e_term x.2 = e_term y.2 → False.
Proof using All.
  intros (Hl & _ & Ht & Hi) Hy Ei Et.
  destruct (leader_is_new c id r r' m Hok Hr Hm Hel Hsize Hsn led Hled Hl) as [[Hs Hsame]|(Hsame & Hs & Hnone & _)].
  - pose proof (lo_last _ _ Hlogs _ _ _ Hr Hs Hy). lia.
  - destruct (lo_term _ _ Hlogs _ _ Hr) as [_ H0]. rewrite Hs in H0. specialize (H0 ltac:(done)).
    destruct (lo_led _ _ Hlogs _ Hy) as [?|[w Hw]]; [lia|]. rewrite <- Et, Ht, Hnone in Hw. done.
Qed.

Lemma last_after : r_state r = Leader → r_term r' = r_term r → last_index (r_log r) ≤ last_index (r_log r').
Proof using All.
  intros Hs Ht. pose proof (lo_sound _ _ Hlogs _ _ Hr) as [Hl _]. pose proof (rp_based _ _ _ _ Hrep) as Hl'.
  rewrite (based_last f _ Hl), (based_last f _ Hl'). pose proof (prefix_length _ _ (Hkeeps Hs Ht)). lia.
Qed.

Lemma made_last x : made x → e_index x.2 ≤ last_index (r_log r').
Proof using All.
  destruct x as [q e]. intros (_ & (n & Hn & _)%elem_of_links & _). pose proof (rp_based _ _ _ _ Hrep) as Hl'.
  rewrite (based_last f _ Hl'). cbn. rewrite (bs_contiguous _ _ Hl' _ _ Hn). apply lookup_lt_Some in Hn. lia.
Qed.

Lemma logs_after led' :
  led ⊆ led' → led_ok c' led' → (r_state r' = Leader → led' !! r_term r' = Some id) → logs_ok c' led'.
Proof using All.
  intros Hsub Hled' Hnew. pose proof (el_term _ _ _ Hel). split.
  - intros id' r0 H0. cbn in H0. apply lookup_insert_Some in H0 as [[<- <-]|[_ H0]]; [|by eapply lo_sound].
    split; [apply (rp_based _ _ _ _ Hrep)|apply (rp_peers _ _ _ _ Hrep)].
  - intros id' r0 H0. cbn in H0. apply lookup_insert_Some in H0 as [[<- <-]|[_ H0]]; [|by eapply lo_term].
    destruct (lo_term _ _ Hlogs _ _ Hr) as [H1 H2]. cbn. split; [lia|]. intros Hs.
    destruct (decide (r_term r' = r_term r)) as [Ht|]; [|lia]. rewrite Ht. apply H2. intros Hf.
    by destruct (el_follower _ _ _ Hel Ht Hf).
  - intros g [Hg|[Hg1 Hg2]]%sent_after; [by apply (lo_sent _ _ Hlogs)|]. split; [done|]. intros Hty.
    destruct (Hg2 Hty) as (_ & _ & Hc). pose proof (rp_based _ _ _ _ Hrep) as Hl'. split.
    + eapply chunk_contiguous; [apply Hl'|done].
    + apply chunk_bound in Hc. pose proof (bs_bound _ _ Hl'). lia.
  - intros x y [Hx|Hx]%linked_after [Hy|Hy]%linked_after Ei Et.
    + by apply (lo_agree _ _ Hlogs).
    + exfalso. by eapply made_new.
    + exfalso. by eapply made_new.
    + destruct Hx as (_ & Hx & _), Hy as (_ & Hy & _). eapply links_unique; [apply (rp_based _ _ _ _ Hrep)|done..].
  - intros x [Hx|(Hl & _ & Ht & _)]%linked_after.
    + destruct (lo_led _ _ Hlogs _ Hx) as [?|[w Hw]]; [by left|right]. exists w. by eapply lookup_weaken.
    + right. rewrite Ht. eauto.
  - intros id' r0 x H0 Hl Hx Ht. cbn in H0. apply lookup_insert_Some in H0 as [[<- <-]|[Hne H0]]; cbn in Hl, Ht |- *.
    + apply linked_after in Hx as [Hx|Hx]; [|by apply made_last].
      destruct (leader_is_new c id r r' m Hok Hr Hm Hel Hsize Hsn led Hled Hl) as [[Hs Hsame]|(Hsame & Hs & Hnone & _)].
      * etrans; [|by apply last_after]. apply (lo_last _ _ Hlogs _ _ _ Hr Hs Hx). congruence.
      * exfalso. destruct (lo_term _ _ Hlogs _ _ Hr) as [_ Hc]. rewrite Hs in Hc. specialize (Hc ltac:(done)).
        destruct (lo_led _ _ Hlogs _ Hx) as [?|[w Hw]]; [lia|]. rewrite Ht, Hnone in Hw. done.
    + apply linked_after in Hx as [Hx|(Hl' & _ & Ht' & _)]; [by apply (lo_last _ _ Hlogs id')|].
      exfalso. apply Hne. pose proof (Hnew Hl') as E. rewrite <- Ht', Ht in E.
      rewrite (le_node _ _ Hled' id' r0) in E; [congruence|cbn; by rewrite lookup_insert_ne|done].
Qed.
End log_step.

(** ** Runs *)

(** No node follows a message that is older than itself, and the log has room
    for what the message brings. *)
Definition orderly r m : Prop := not_stale r m ∧ room r m.

Lemma net_step_weaken (P Q : Raft → Message → Prop) c c' : (∀ r m, P r m → Q r m) → net_step P c c' → net_step Q c c'.
Proof. intros H [k m r ????? |id r ?? |k id r ?? |k id r es ???]; [eapply cs_deliver|eapply cs_tick|eapply cs_campaign|eapply cs_propose]; eauto. Qed.

(** What one step of the cluster does to the node that takes it. *)
Record effect c (id : Z) r r' m : Prop := {
  ef_node : nodes c !! id = Some r;
  ef_heard : heard c id m;
  ef_elects : elects m r r';
  ef_type : msg_type m ≠ MsgSnapshot;
  ef_replicates : replicates f m r r';
  ef_sent : msg_type m = MsgAppend → m ∈ sent c;
  ef_keeps : r_state r = Leader → r_term r' = r_term r → entries (r_log r) `prefix_of` entries (r_log r');
}.

Lemma extends_prefix m r r' :
  msg_type m ≠ MsgAppend → replicates f m r r' → entries (r_log r) `prefix_of` entries (r_log r').
Proof.
  intros Hm Hrep. destruct (rp_log _ _ _ _ Hrep) as [->|[[? _]|(_ & new & -> & _)]]; [done|done|by apply prefix_app_r].
Qed.

(** A step on a message that the node sends itself. *)
Lemma local_effect c id r r' t es :
  cluster_ok members c → nodes c !! id = Some r → local_type t → t ≠ MsgAppend →
  elects (local_message t (r_id r) es) r r' → replicates f (local_message t (r_id r) es) r r' →
  effect c id r r' (local_message t (r_id r) es).
Proof.
  intros Hok Hr (Hf & H1 & H2 & H3) Ha He Hp. split; try done.
  - right. by apply harmless_local.
  - intros _ _. exact (extends_prefix (local_message t (r_id r) es) _ _ Ha Hp).
Qed.

(** How the node has come to [r']: on a message of the network, on a message
    of its own, or by its clock, which stands for a message of its own. *)
Inductive taken (P : Raft → Message → Prop) c (id : Z) r m : Raft → Prop :=
| tk_deliver k : m ∈ sent c → msg_to m = id → P r m → msg_term m < u64_max → taken P c id r m (step_in k m r).2
| tk_campaign k : m = local_message MsgHup (r_id r) [] → taken P c id r m (step_in k m r).2
| tk_propose k es : m = local_message MsgPropose (r_id r) es → P r m → taken P c id r m (step_in k m r).2
| tk_tick : m = local_message MsgBeat (r_id r) [] → taken P c id r m (tick r).2.

Lemma net_step_effect P c c' led :
  (∀ r m, P r m → orderly r m) → cluster_ok members c → logs_ok c led → (2 ≤ size members)%nat → net_step P c c' →
  ∃ id r r' m, c' = after id r' c ∧ r_term r < u64_max ∧ taken P c id r m r' ∧ effect c id r r' m.
Proof.
  intros HP Hok Hlogs Hsize Hstep.
  assert (∀ id r, nodes c !! id = Some r → sound f r ∧ r_prs r ≠ ∅ ∧ 0 ≤ r_term r ∧ ∀ m, heard c id m → el_pre m r) as Hnode.
  { intros id r Hr. pose proof (no_term _ _ _ _ (co_node _ _ Hok _ _ Hr)). split_and!; [by eapply lo_sound|by eapply peers_some|done|].
    intros m Hm. by eapply heard_pre. }
  assert (∀ t, local_type t → ∀ id es, heard c id (local_message t id es)) as Hlocal.
  { intros t (_ & H1 & H2 & _) id es. right. by apply harmless_local. }
  assert (local_type MsgHup ∧ local_type MsgPropose ∧ local_type MsgBeat) as (L1 & L2 & L3) by (unfold local_type; split_and!; first [done|by intros []]).
  destruct Hstep as [k m r Hin Hr Ht Hmt HPm|id r Hr Ht|k id r Hr Ht|k id r es Hr Ht HPm];
    destruct (Hnode _ _ Hr) as (Hs & Hp & H0 & Hpre).
  - destruct (HP _ _ HPm) as [Hns Hroom]. exists (msg_to m), r, (step_in k m r).2, m. split; [done|]. split; [done|].
    split; [by apply tk_deliver|]. destruct (lo_sent _ _ Hlogs _ Hin) as [Hsn Happ].
    assert (replicates f m r (step_in k m r).2) as Hrep by (by apply replicates_step).
    assert (heard c (msg_to m) m) as Hh by (by left).
    split; try done; [by apply elects_step; auto|].
    intros Hl E. destruct (decide (msg_type m = MsgAppend)); [by rewrite leader_keeps|by eapply extends_prefix].
  - exists id, r, (tick r).2, (local_message MsgBeat (r_id r) []). split; [done|]. split; [done|]. split; [by apply tk_tick|].
    apply local_effect; [done|done|done|done|apply elects_tick; [|done]|by apply replicates_tick].
    apply Hpre. right. by apply harmless_local.
  - exists id, r, (step_in k (local_message MsgHup (r_id r) []) r).2, (local_message MsgHup (r_id r) []).
    split; [done|]. split; [done|]. split; [by apply tk_campaign|].
    apply local_effect; [done|done|done|done|apply elects_local; [|done|done]|apply replicates_step; [done|done|]].
    + apply Hpre. right. by apply harmless_local.
    + split; [done|by intros [=]|by intros [[=]|[=]]].
  - destruct (HP _ _ HPm) as [_ Hroom].
    exists id, r, (step_in k (local_message MsgPropose (r_id r) es) r).2, (local_message MsgPropose (r_id r) es).
    split; [done|]. split; [done|]. split; [by eapply tk_propose|].
    apply local_effect; [done|done|done|done|apply elects_local; [|done|done]|apply replicates_step; [done|done|]].
    + apply Hpre. right. by apply harmless_local.
    + split; [done|by intros [=]|done].
Qed.

Lemma net_step_logs c c' led :
  (2 ≤ size members)%nat → net_step orderly c c' → cluster_ok members c → led_ok c led → logs_ok c led →
  cluster_ok members c' ∧ ∃ led', led_ok c' led' ∧ logs_ok c' led'.
Proof.
  intros Hsize Hstep Hok Hled Hlogs. split.
  { eapply net_step_ok; [|exact Hok]. eapply net_step_weaken; [|exact Hstep]. by intros ?? [? _]. }
  destruct (net_step_effect orderly _ _ _ (λ _ _ H, H) Hok Hlogs Hsize Hstep) as (id & r & r' & m & -> & _ & _ & []).
  destruct (led_after c id r r' m Hok ef_node0 ef_heard0 ef_elects0 Hsize ef_type0 led Hled) as (led' & H1 & H2 & H3).
  exists led'. split; [done|]. by eapply logs_after.
Qed.

(** The logs at the start: sound, matching each other, and of the term [t0] or
    before, which every node has reached. *)
Definition well_founded_logs c : Prop :=
  (∀ id r, nodes c !! id = Some r → sound f r ∧ t0 ≤ r_term r ∧ Forall (λ e, e_term e ≤ t0) (entries (r_log r))) ∧
  (∀ id1 id2 r1 r2, nodes c !! id1 = Some r1 → nodes c !! id2 = Some r2 → matching (r_log r1) (r_log r2)).

Lemma start_logs c : starts members c → well_founded_logs c → led_ok c ∅ ∧ logs_ok c ∅.
Proof.
  intros (Hs & _ & Hn) [H1 H2].
  assert (∀ id r, nodes c !! id = Some r → r_state r = Follower) as Hf by (intros id r Hr; apply (Hn _ _ Hr)).
  assert (∀ x, linked c x → ∃ id r, nodes c !! id = Some r ∧ x ∈ links 0 (entries (r_log r))) as Hlink.
  { intros x [?|(g & Hg & _)]; [done|]. rewrite Hs in Hg. by apply not_elem_of_nil in Hg. }
  split; split; try (by intros ? ? [=]); try (by intros ? ? ? [=]).
  - intros id r Hr. by rewrite (Hf _ _ Hr).
  - intros id r Hr. by destruct (H1 _ _ Hr).
  - intros id r Hr. rewrite (Hf _ _ Hr). split; [|done]. by destruct (H1 _ _ Hr) as (_ & ? & _).
  - intros g Hg. rewrite Hs in Hg. by apply not_elem_of_nil in Hg.
  - intros x y (id1 & r1 & N1 & Hx)%Hlink (id2 & r2 & N2 & Hy)%Hlink.
    destruct (H1 _ _ N1) as ([B1 _] & _), (H1 _ _ N2) as ([B2 _] & _).
    by apply (proj1 (matching_agree _ _ B1 B2) (H2 _ _ _ _ N1 N2)).
  - intros [q e] (id & r & Hr & Hx%links_in)%Hlink. left. destruct (H1 _ _ Hr) as (_ & _ & Ht).
    by eapply (proj1 (Forall_forall _ _)) in Ht.
  - intros id r x Hr. by rewrite (Hf _ _ Hr).
Qed.

Lemma reachable_logs c0 c :
  (2 ≤ size members)%nat → starts members c0 → well_founded_logs c0 → rtc (net_step orderly) c0 c →
  cluster_ok members c ∧ ∃ led, led_ok c led ∧ logs_ok c led.
Proof.
  intros Hsize Hs Hw Hrun. assert (cluster_ok members c0 ∧ ∃ led, led_ok c0 led ∧ logs_ok c0 led) as H.
  { split; [by apply starts_ok|]. exists ∅. by apply start_logs. }
  clear Hs Hw. induction Hrun as [|c1 c2 c3 Hstep _ IH]; [done|]. destruct H as (Hok & led & Hled & Hlogs).
  by apply IH, (net_step_logs c1 c2 led).
Qed.

(** C16: However the network loses, delays, duplicates and reorders messages,
    and whoever is elected: if two nodes have at one index entries of one
    term, their logs are the same up to it.  The provisos: at the start the
    logs match and have one first index with a committed entry, no candidate
    or leader is handed a message that it follows although the message is of
    an older term, and the indices stay below the largest [u64]. *)
Theorem log_matching c0 c id1 id2 r1 r2 :
  (2 ≤ size members)%nat → starts members c0 → well_founded_logs c0 → rtc (net_step orderly) c0 c →
  nodes c !! id1 = Some r1 → nodes c !! id2 = Some r2 → matching (r_log r1) (r_log r2).
Proof.
  intros Hsize Hs Hw Hrun N1 N2. destruct (reachable_logs _ _ Hsize Hs Hw Hrun) as (_ & led & _ & Hlogs).
  destruct (lo_sound _ _ Hlogs _ _ N1) as [B1 _], (lo_sound _ _ Hlogs _ _ N2) as [B2 _].
  apply (matching_agree _ _ B1 B2). intros x y Hx Hy. apply (lo_agree _ _ Hlogs); left; eauto.
Qed.
End matching.

(** ** Three nodes to evaluate on *)

#[local] Existing Instance map_order.
#[local] Existing Instance low_rng.
#[local] Instance debug_build : BuildProfile := true.

#[export] Instance orderly_dec `{rand : RandomSource} (r : Raft) (m : Message) : Decision (orderly r m).
Proof. unfold orderly, room. apply _. Defined.

(** The nodes of RaftCluster.v with their first entry committed. *)
Definition settled (id : Z) : Raft (rand := low_rng) := set_log (set_committed 1 fresh_log) (idle id).
Definition settled_three : cluster := mkCluster {[ 1 := settled 1; 2 := settled 2; 3 := settled 3 ]} [].

Lemma settled_cases id r : nodes settled_three !! id = Some r → r = settled id ∧ (id =? 1) || (id =? 2) || (id =? 3) = true.
Proof.
  intros Hr. unfold settled_three, nodes in Hr.
  repeat (apply lookup_insert_Some in Hr as [[<- <-]|[_ Hr]]; [done|]). by apply lookup_singleton_Some in Hr as [<- <-].
Qed.
Lemma settled_starts : starts {[ 1; 2; 3 ]} settled_three.
Proof.
  split; [done|]. split; [by vm_compute|]. intros id r [-> Hid]%settled_cases. by apply (idle_starts id).
Qed.
Lemma settled_logs : well_founded_logs 1 2 settled_three.
Proof.
  split.
  - intros id r [-> _]%settled_cases. split; [split|].
    + split; [done|done|by solve_contiguous|done|done|done].
    + intros i p Hi. unfold settled, idle in Hi. cbn in Hi. apply lookup_set_to_map in Hi as (x & _ & [= <- <-]); [done|by intros].
    + split; [done|]. repeat constructor; done.
  - intros id1 id2 r1 r2 [-> _]%settled_cases [-> _]%settled_cases i e1 e2 _ _ _ j _. done.
Qed.

(** Node 1 leads term 3 and adds an entry that reaches nobody; node 2 is
    elected for term 4, and its append replaces the entries of node 1. *)
Definition replaced : list action :=
  [Campaign 1; Deliver 0; Deliver 2; Propose 1 [Entry_new_normal 0 0 []]; Campaign 2; Campaign 2; Deliver 9; Deliver 11;
   Deliver 13].
Definition terms (r : Raft (rand := low_rng)) : list Z := e_term <$> entries (r_log r).

Lemma log_matching_witness :
  ∃ c r1 r2, rtc (net_step orderly) settled_three c ∧ nodes c !! 1 = Some r1 ∧ nodes c !! 2 = Some r2 ∧
    terms r1 = [1; 1; 2; 4] ∧ ∀ j, j ≤ 4 → entry_at (r_log r1) j = entry_at (r_log r2) j.
Proof.
  destruct (run orderly settled_three replaced) as [c|] eqn:E; [|by vm_compute in E].
  assert (∃ r1 r2, nodes c !! 1 = Some r1 ∧ nodes c !! 2 = Some r2 ∧ terms r1 = [1; 1; 2; 4] ∧
    ∃ e1 e2, entry_at (r_log r1) 4 = Some e1 ∧ entry_at (r_log r2) 4 = Some e2 ∧ e_term e1 = e_term e2)
    as (r1 & r2 & N1 & N2 & Ht & e1 & e2 & H1 & H2 & He).
  { vm_compute in E. simplify_eq. do 2 eexists. split; [vm_compute; reflexivity|]. split; [vm_compute; reflexivity|].
    split; [by vm_compute|]. do 2 eexists. split; [vm_compute; reflexivity|]. split; [vm_compute; reflexivity|]. done. }
  exists c, r1, r2. split; [by eapply run_steps|]. split; [done|]. split; [done|]. split; [done|].
  assert (2 ≤ size ({[1%Z; 2%Z; 3%Z]} : gset Z))%nat as Hsize by (vm_compute; lia).
  exact (log_matching 1 2 {[ 1; 2; 3 ]} settled_three c 1 2 r1 r2 Hsize settled_starts settled_logs
    (run_steps _ _ _ _ E) N1 N2 4 e1 e2 H1 H2 He).
Defined.
