(* ===== verification/RaftPositions.v ===== *)
(** Positions in the log, as the handlers of src/raft/raft.rs compare and report
    them.

    The position of a log is the term and the index of its last entry; a vote
    goes to logs whose position is not behind the voter's, and what a follower
    acknowledges is the index of its own last entry.  The relation [advances]
    says what a step on a message does to the position of a node, to what a
    leader knows of its peers, and which positions the messages that are sent
    name.  RaftCommitment.v puts the steps of several nodes together. *)

From S2P Require Import Prelude Bytes RaftTypes RaftLog Raft RaftReplication RaftElections RaftCluster RaftLogs.

Section positions.
Context `{prof : BuildProfile} `{order : HashOrder} `{rand : RandomSource}.
Context (f : Z).
Implicit Types (r : Raft) (m g : Message) (k : lookup) (l : RaftLog) (es : list Entry).

(** ** Positions *)

Definition position es : Z * Z := (end_term 0 es, f + Z.of_nat (length es) - 1).
(** The test of [handle_request_vote]. *)
Definition behind (x y : Z * Z) : Prop := x.1 < y.1 ∨ (x.1 = y.1 ∧ x.2 ≤ y.2).
#[export] Instance behind_preorder : PreOrder behind.
Proof. split; [by right|]. unfold behind. intros x y z. lia. Qed.

Lemma end_term_app p a b : end_term p (a ++ b) = end_term (end_term p a) b.
Proof.
  destruct b as [|b e _] using rev_ind; [by rewrite app_nil_r|]. unfold end_term. by rewrite app_assoc, !last_snoc.
Qed.
Lemma end_term_default p q es : es ≠ [] → end_term p es = end_term q es.
Proof. intros H. unfold end_term. destruct (last es) eqn:E; [done|]. by apply last_None in E. Qed.

(** ** What holds of a node *)

Definition is_ack g : Prop := msg_type g = MsgAppendResponse ∧ msg_reject g = false.
Definition is_refusal g : Prop := msg_type g = MsgAppendResponse ∧ msg_reject g = true.
(** A message that names no position. *)
Definition plain g : Prop :=
  msg_type g ≠ MsgAppend ∧ msg_type g ≠ MsgAppendResponse ∧ msg_type g ≠ MsgRequestVote ∧ ¬ is_grant g.

(** The next index is in the log or behind what the peer has acknowledged; a
    release build wraps it around below zero. *)
Definition next_ok (last : Z) (p : Progress) : Prop :=
  next_index p ≤ last ∨ next_index p = match_index p + 1 ∨ next_index p = u64_max.

Record leads r : Prop := {
  ld_positive : 0 < r_term r;
  ld_term : end_term 0 (entries (r_log r)) = r_term r;
  ld_match : ∀ i p, r_prs r !! i = Some p → match_index p ≤ last_index (r_log r);
  ld_next : ∀ i p, r_prs r !! i = Some p → next_ok (last_index (r_log r)) p;
  ld_room : last_index (r_log r) + 1 < u64_max;
}.
Record placed r : Prop := {
  pl_based : based f (r_log r);
  pl_peers : peers_ok r;
  pl_committed : committed (r_log r) ≤ last_index (r_log r);
  pl_leads : r_state r = Leader → leads r;
}.

Lemma placed_last r : placed r → last_index (r_log r) = (position (entries (r_log r))).2.
Proof. intros []. by apply based_last. Qed.
Lemma last_same l l' : based f l → based f l' → entries l = entries l' → last_index l = last_index l'.
Proof. intros H H' E. by rewrite (based_last _ _ H), (based_last _ _ H'), E. Qed.

(** ** Calls that leave the position alone *)

(** The node keeps its entries, and its role with all that belongs to it
    unless it becomes a follower. *)
Record rested r r' : Prop := {
  re_placed : placed r';
  re_entries : entries (r_log r') = entries (r_log r);
  re_term : r_term r ≤ r_term r';
  re_role : r_state r' = Follower ∨ (r_state r' = r_state r ∧ r_term r' = r_term r ∧ r_prs r' = r_prs r);
  re_msgs : ∃ ms, r_msgs r' = r_msgs r ++ ms ∧ Forall plain ms;
}.
Definition rests r r' : Prop := placed r → rested r r'.
#[export] Instance rests_preorder : PreOrder rests.
Proof.
  split.
  - intros r H. split; try done; [by right|]. exists []. by rewrite app_nil_r.
  - intros r1 r2 r3 H1 H2 H. destruct (H1 H) as [P1 E1 T1 R1 (ms & M1 & F1)]. destruct (H2 P1) as [P2 E2 T2 R2 (ms' & M2 & F2)].
    split; [done|congruence|lia|destruct R2 as [?|(-> & -> & ->)]; auto|].
    exists (ms ++ ms'). by rewrite M2, M1, app_assoc, Forall_app.
Qed.

(** A log with the same entries, and a later term. *)
Lemma placed_update r r' :
  based f (r_log r') → entries (r_log r') = entries (r_log r) → committed (r_log r') ≤ last_index (r_log r') → r_prs r' = r_prs r →
  r_state r' = Follower ∨ (r_state r' = r_state r ∧ r_term r' = r_term r) → placed r → placed r'.
Proof.
  intros Hb E Hc Ep Hrole [H1 H2 H3 H4]. split; [done|unfold peers_ok; by rewrite Ep|done|].
  intros Hl. destruct Hrole as [?|[Es Et]]; [congruence|]. rewrite Es in Hl. destruct (H4 Hl).
  split; rewrite ?Et, ?E, ?Ep, ?(last_same _ _ Hb H1 E); done.
Qed.
Lemma rests_update r r' :
  r_log r' = r_log r → r_prs r' = r_prs r → r_msgs r' = r_msgs r → r_term r ≤ r_term r' →
  r_state r' = Follower ∨ (r_state r' = r_state r ∧ r_term r' = r_term r) → rests r r'.
Proof.
  intros El Ep Em Ht Hrole H. split; [|by rewrite El|done|naive_solver|exists []; by rewrite app_nil_r].
  eapply (placed_update r); rewrite ?El; try done; apply H.
Qed.
Lemma rests_send g r : plain g → keeps rests (send g) r.
Proof.
  intros Hg. apply keeps_modify. intros H. split; try done; [|by right|exists [g]; split; [done|by apply Forall_singleton]].
  eapply placed_update; [..|exact H]; try done; try apply H. by right.
Qed.
Lemma rests_log_read {A} (h : RaftLog → outcome A) r : keeps rests (log_read h) r.
Proof. unfold log_read. apply keeps_get_bind, keeps_lift. apply _. Qed.
Lemma rests_log_update (h : RaftLog → outcome RaftLog) r :
  (∀ l, placed r → h (r_log r) = Ok l → based f l ∧ entries l = entries (r_log r) ∧ committed l ≤ last_index l) → keeps rests (log_update h) r.
Proof.
  intros Hh. unfold log_update. apply keeps_get_bind, keeps_lift_bind; [apply _|]. intros l E. apply keeps_modify. intros H.
  destruct (Hh l H E) as (Hb & He & Hc). split; try done; [|by right|exists []; by rewrite app_nil_r].
  eapply placed_update; [..|exact H]; try done. by right.
Qed.
Lemma rests_for_each_peer (h : Z → M Raft unit) r : (∀ p r0, keeps rests (h p) r0) → keeps rests (for_each_peer h) r.
Proof.
  intros Hf. unfold for_each_peer. apply keeps_get_bind, keeps_for_each; [apply _|]. intros p r0.
  case_decide; [apply Hf|]. apply keeps_ret. apply _.
Qed.

Lemma commit_forward_placed c l :
  based f l → committed l ≤ last_index l →
  let l' := if committed l <? c then set_committed (Z.min c (last_index l)) l else l in
  based f l' ∧ entries l' = entries l ∧ committed l' ≤ last_index l'.
Proof.
  intros Hl Hc l'. split; [by apply commit_forward_based|]. unfold l'. case_match; [|done]. split; [done|].
  change (Z.min c (last_index l) ≤ last_index l). lia.
Qed.

Ltac rests :=
  cbv beta zeta;
  lazymatch goal with
  | |- keeps _ (get ≫= _) _ => apply keeps_get_bind; rests
  | |- keeps _ (lift _ ≫= _) _ => apply keeps_lift_bind; [apply _|intros ? _; rests]
  | |- keeps _ (_ ≫= _) _ => apply keeps_bind; [apply _|rests|intros ? ?; rests]
  | |- keeps _ (mret _) _ => apply keeps_ret; apply _
  | |- keeps _ (lift _) _ => apply keeps_lift; apply _
  | |- keeps _ (log_read _) _ => apply rests_log_read
  | |- keeps _ (send _) _ => apply rests_send; split_and!; [done..|by intros [? [=]]]
  | |- keeps _ (match _ with _ => _ end) _ => case_match; rests
  | _ => idtac
  end.

Lemma rests_become_follower term lead r : r_term r ≤ term → keeps rests (become_follower term lead) r.
Proof.
  intros Ht. unfold become_follower, reset_random_timeout. apply keeps_modify_bind; [apply _|apply rests_update; by auto|].
  rests. apply keeps_modify, rests_update; by auto.
Qed.
Lemma rests_heartbeat m r : msg_term m ≤ r_term r → keeps rests (handle_heartbeat m) r.
Proof.
  intros Ht. unfold handle_heartbeat. apply keeps_get_bind. case_match; [rests|].
  apply keeps_skip. { by rewrite (proj2 (Z.ltb_ge _ _)) by lia. }
  apply keeps_modify_bind; [apply _|apply rests_update; by auto|].
  apply keeps_bind; [apply _| |intros; rests].
  apply rests_log_update. intros l Hp [= <-]. destruct Hp. by apply commit_forward_placed.
Qed.

(** ** One step *)

(** Appends of a leader come in the order in which it sent them: a log that
    ends with an entry of the leader's term is not cut off by an append. *)
Definition in_order r m : Prop :=
  msg_type m = MsgAppend → msg_term m = r_term r → end_term 0 (entries (r_log r)) = r_term r → msg_entries m ≠ [] →
  last_index (r_log r) ≤ msg_index m + Z.of_nat (length (msg_entries m)).

(** What a message says is so. *)
Record truthful r m : Prop := {
  tr_append : msg_type m = MsgAppend → msg_entries m ≠ [] → end_term 0 (msg_entries m) = msg_term m;
  tr_ack : is_ack m → r_state r = Leader → msg_term m = r_term r → 0 ≤ msg_index m ≤ last_index (r_log r);
  tr_refusal : is_refusal m → r_state r = Leader → msg_term m = r_term r → 0 ≤ msg_index m < last_index (r_log r);
}.

(** What a message that is sent on the way from [r] to [r'] says. *)
Record reports m r r' g : Prop := {
  rt_request : is_request g → msg_term g = r_term r' ∧ r_state r' = Candidate ∧
    (msg_log_term g, msg_index g) = position (entries (r_log r'));
  rt_grant : is_grant g → msg_term g = msg_term m ∧ entries (r_log r') = entries (r_log r) ∧
    behind (position (entries (r_log r))) (msg_log_term m, msg_index m);
  rt_ack : is_ack g → msg_from g = r_id r' ∧ msg_type m = MsgAppend ∧ msg_term m = r_term r' ∧ msg_term g = r_term r' ∧
    r_state r' = Follower ∧ msg_index g = last_index (r_log r') ∧
    (if decide (msg_entries m = []) then entries (r_log r') = entries (r_log r) else end_term 0 (entries (r_log r')) = r_term r');
  rt_refusal : is_refusal g → msg_term g = r_term r' ∧
    (msg_index g = 0 ∨ 0 < msg_index g < msg_index m ∧ msg_type m = MsgAppend ∧ msg_term m = r_term r');
  rt_append : msg_type g = MsgAppend → r_state r' = Leader ∧ msg_term g = r_term r' ∧ msg_index g ≤ last_index (r_log r') ∧
    if decide (msg_entries g = [])
    then ∃ p, r_prs r' !! msg_to g = Some p ∧ next_index p = msg_index g + 1 ∧ msg_index g = last_index (r_log r')
    else end_term 0 (msg_entries g) = r_term r';
}.

(** How a leader comes to know of a peer: it has just been elected, or the peer
    has answered. *)
Definition tracks m r r' : Prop :=
  (∀ i p, r_prs r' !! i = Some p → match_index p = 0) ∨
  (r_state r = Leader ∧ r_term r' = r_term r ∧ ∀ i p, r_prs r' !! i = Some p → r_prs r !! i = Some p ∨
    (msg_type m = MsgAppendResponse ∧ msg_from m = i ∧ msg_term m = r_term r ∧
     ∃ p0, r_prs r !! i = Some p0 ∧ match_index p = if msg_reject m then match_index p0 else msg_index m)).

Record advances m r r' : Prop := {
  av_placed : placed r';
  av_term : r_term r ≤ r_term r';
  av_candidate : r_state r' = Candidate → entries (r_log r') = entries (r_log r);
  av_log : entries (r_log r') = entries (r_log r) ∨
    (end_term 0 (entries (r_log r')) = r_term r' ∧
     (r_term r' = r_term r → end_term 0 (entries (r_log r)) = r_term r → last_index (r_log r) ≤ last_index (r_log r')));
  av_tracks : r_state r' = Leader → tracks m r r';
  av_takes : msg_type m = MsgAppend → r_state r' = Leader → r_state r = Leader ∧ entries (r_log r') = entries (r_log r);
  av_msgs : ∃ ms, r_msgs r' = r_msgs r ++ ms ∧ Forall (reports m r r') ms;
}.

Lemma plain_reports m r r' g : plain g → reports m r r' g.
Proof. intros (H1 & H2 & H3 & H4). split; [done|done|by intros [? _]|by intros [? _]|done]. Qed.
Lemma advances_rested m r r' : rested r r' → advances m r r'.
Proof.
  intros [H1 H2 H3 H4 (ms & H5 & H6)]. split; [done|done|done|by left| | |].
  - intros Hl. destruct H4 as [?|(Es & Et & Ep)]; [congruence|]. right. rewrite <- Es. split_and!; [done|done|].
    intros i p. rewrite Ep. by left.
  - intros _ Hl. destruct H4 as [?|(Es & _)]; [congruence|]. split; congruence.
  - exists ms. split; [done|]. eapply Forall_impl; [exact H6|]. apply plain_reports.
Qed.
Lemma advances_rests m r r' : placed r → rests r r' → advances m r r'.
Proof. intros H Hr. by apply advances_rested, Hr. Qed.
Lemma rested_last r r1 : placed r → rested r r1 → last_index (r_log r1) = last_index (r_log r).
Proof. intros H [H1 E _ _ _]. eapply last_same; [apply H1|apply H|done]. Qed.
Lemma rested_advances m r r1 r' : placed r → rested r r1 → advances m r1 r' → advances m r r'.
Proof.
  intros Hr Hrest [A1 A2 A3 A4 A5 A8 (ms' & A6 & A7)]. pose proof (rested_last _ _ Hr Hrest) as El.
  destruct Hrest as [H1 H2 H3 H4 (ms & H5 & H6)]. split; try done; try lia.
  - by rewrite <- H2.
  - rewrite <- H2, <- El. destruct A4 as [?|[? A4]]; [by left|right]. split; [done|]. intros Ht E.
    apply A4; [lia|]. rewrite E. lia.
  - intros Hl. destruct (A5 Hl) as [?|(Es & Et & Hp)]; [by left|right].
    destruct H4 as [?|(<- & <- & <-)]; [congruence|]. done.
  - intros Hm Hl. destruct (A8 Hm Hl) as [Es E]. split; [|congruence]. destruct H4 as [?|(<- & _)]; congruence.
  - exists (ms ++ ms'). rewrite A6, H5, app_assoc. split; [done|]. apply Forall_app. split.
    + eapply Forall_impl; [exact H6|]. apply plain_reports.
    + eapply Forall_impl; [exact A7|]. intros g [R1 R2 R3 R4 R5]. split; try done; by rewrite <- H2.
Qed.

(** *** A leader *)

(** What a leader sends. *)
Definition told r g : Prop :=
  msg_type g ≠ MsgAppendResponse ∧ msg_type g ≠ MsgRequestVote ∧ ¬ is_grant g ∧
  (msg_type g = MsgAppend → msg_term g = r_term r ∧ msg_index g ≤ last_index (r_log r) ∧
    if decide (msg_entries g = [])
    then ∃ p, r_prs r !! msg_to g = Some p ∧ next_index p = msg_index g + 1 ∧ msg_index g = last_index (r_log r)
    else end_term 0 (msg_entries g) = r_term r).

Record continued r r' : Prop := {
  cn_placed : placed r';
  cn_entries : entries (r_log r') = entries (r_log r);
  cn_state : r_state r' = Leader;
  cn_term : r_term r' = r_term r;
  cn_peers : r_prs r' = r_prs r;
  cn_msgs : ∃ ms, r_msgs r' = r_msgs r ++ ms ∧ Forall (told r) ms;
}.
Definition continues r r' : Prop := placed r → r_state r = Leader → continued r r'.
#[export] Instance continues_preorder : PreOrder continues.
Proof.
  split.
  - intros r H1 H2. split; try done. exists []. by rewrite app_nil_r.
  - intros r1 r2 r3 H1 H2 H Hl. destruct (H1 H Hl) as [P1 E1 S1 T1 Q1 (ms & M1 & F1)].
    destruct (H2 P1 S1) as [P2 E2 S2 T2 Q2 (ms' & M2 & F2)]. split; try congruence.
    exists (ms ++ ms'). rewrite M2, M1, app_assoc. split; [done|]. apply Forall_app. split; [done|].
    eapply Forall_impl; [exact F2|]. unfold told. intros g.
    by rewrite T1, Q1, (last_same _ _ (pl_based _ P1) (pl_based _ H) E1).
Qed.

Lemma continues_given {A} (h : M Raft A) r : (placed r → r_state r = Leader → keeps continues h r) → keeps continues h r.
Proof. unfold keeps, wp, continues. destruct (h r) as [[] ?]; auto. Qed.
Lemma continues_send g r : (placed r → r_state r = Leader → told r g) → keeps continues (send g) r.
Proof.
  intros Hg. apply keeps_modify. intros H Hl. split; try done; [|exists [g]; split; [done|by apply Forall_singleton, Hg]].
  eapply placed_update; [..|exact H]; try done; try apply H. by right.
Qed.
Lemma continues_log_read {A} (h : RaftLog → outcome A) r : keeps continues (log_read h) r.
Proof. unfold log_read. apply keeps_get_bind, keeps_lift. apply _. Qed.
Lemma continues_for_each_peer (h : Z → M Raft unit) r : (∀ p r0, keeps continues (h p) r0) → keeps continues (for_each_peer h) r.
Proof.
  intros Hf. unfold for_each_peer. apply keeps_get_bind, keeps_for_each; [apply _|]. intros p r0.
  case_decide; [apply Hf|]. apply keeps_ret. apply _.
Qed.
Lemma continues_bcast_heartbeat r : keeps continues bcast_heartbeat r.
Proof.
  apply continues_for_each_peer. intros. unfold send_heartbeat. apply keeps_get_bind, continues_send.
  intros _ _. split_and!; [done|done|by intros [? _]|done].
Qed.

Lemma keeps_read {A B} (R : relation Raft) {pre : PreOrder R} (h : RaftLog → outcome A) (h' : A → M Raft B) r :
  (∀ a, h (r_log r) = Ok a → keeps R (h' a) r) → keeps R (log_read h ≫= h') r.
Proof.
  intros H. unfold keeps, wp, log_read. unfold_M. destruct (h (r_log r)) eqn:E; [|reflexivity..].
  by apply H.
Qed.

Lemma continues_maybe_commit k r : keeps continues (maybe_commit_in k) r.
Proof.
  apply continues_given. intros H Hl. unfold maybe_commit_in. apply keeps_get_bind.
  case_decide; [apply keeps_ret, _|]. cbv zeta. case_match; [|apply keeps_ret, _].
  apply keeps_lift_bind; [apply _|]. intros c Hc. destruct (Z.ltb_spec (committed (r_log r)) c) as [Hlt|]; [|apply keeps_ret, _].
  apply keeps_read; [apply _|]. intros t _. case_match; [|apply keeps_ret, _].
  unfold log_update. apply keeps_get_bind, keeps_lift_bind; [apply _|]. intros l [= <-]. apply keeps_modify. intros _ _.
  pose proof (bs_committed _ _ (pl_based _ H)).
  split; try done; [|exists []; by rewrite app_nil_r].
  eapply placed_update; [..|exact H]; try done; [apply based_committed; [apply H|lia]| |by right].
  unfold index in Hc. destruct (sorted_matches r !! _) as [c'|] eqn:Hs; [|done]. injection Hc as <-.
  apply sorted_matches_in in Hs as (p & -> & i & Hi). by apply (ld_match _ (pl_leads _ H Hl) i).
Qed.

Lemma append_from_told r to p :
  placed r → leads r → r_prs r !! to = Some p → f ≤ next_index p ≤ last_index (r_log r) + 1 →
  told r (append_from f r to (next_index p)).
Proof.
  intros H Hld Hto Hn. pose proof (based_last _ _ (pl_based _ H)) as El. split_and!; [done|done|by intros [? _]|].
  intros _. cbn. split; [done|]. split; [lia|]. case_decide as He.
  - exists p. split; [done|]. apply (f_equal length) in He. rewrite length_drop in He. cbn in He. lia.
  - rewrite <- (ld_term _ Hld). rewrite <- (take_drop (Z.to_nat (next_index p - f)) (entries (r_log r))) at 2.
    rewrite end_term_app. by apply end_term_default.
Qed.
Lemma continues_send_append k to r : keeps continues (send_append_in k to) r.
Proof.
  apply continues_given. intros H Hlead. apply (keeps_send_append f); [apply _|apply H|apply H|].
  intros p Hto Hn. apply (continues_send (append_from f r to (next_index p))). intros _ _.
  apply append_from_told; [done|by apply H|done|done].
Qed.
Lemma continues_sends k r : keeps continues (maybe_commit_in k;; for_each_peer (send_append_in k)) r.
Proof.
  apply keeps_bind; [apply _|apply continues_maybe_commit|]. intros _ r1. apply continues_for_each_peer. intros. apply continues_send_append.
Qed.

(** A leader that has come to [r1] goes on to [r']. *)
Lemma told_reports m r r1 r' g : continued r1 r' → told r1 g → placed r1 → reports m r r' g.
Proof.
  intros [P E S T Q _] (H1 & H2 & H3 & H4) Hp. split; [done|done|by intros [? _]|by intros [? _]|].
  rewrite S, T, Q, (last_same _ _ (pl_based _ P) (pl_based _ Hp) E). intros Hg. split; [done|]. by apply H4.
Qed.
Lemma advances_continued m r r1 r' :
  placed r1 → r_state r1 = Leader → r_term r1 = r_term r → r_msgs r1 = r_msgs r →
  (entries (r_log r1) = entries (r_log r) ∨ last_index (r_log r) ≤ last_index (r_log r1)) →
  tracks m r r1 → msg_type m ≠ MsgAppend ∨ (r_state r = Leader ∧ entries (r_log r1) = entries (r_log r)) → continues r1 r' → advances m r r'.
Proof.
  intros Hp Hl Ht Hm Hlog Htr Hty Hc. pose proof (Hc Hp Hl) as Hcn. destruct Hcn as [P E S T Q (ms & M & F)] eqn:Heq.
  pose proof (last_same _ _ (pl_based _ P) (pl_based _ Hp) E) as El. split; [done|lia|congruence| | | |].
  - rewrite E, T, El. destruct Hlog as [?|?]; [by left|right]. split; [|done]. apply (ld_term _ (pl_leads _ Hp Hl)).
  - intros _. unfold tracks. rewrite T, Q. exact Htr.
  - intros ? _. destruct Hty as [?|[? ?]]; [done|]. split; congruence.
  - exists ms. rewrite M, Hm. split; [done|]. eapply Forall_impl; [exact F|]. intros g Hg. by eapply told_reports.
Qed.

(** An answer of a peer, as far as it is to be believed. *)
Lemma progress_ok last (p p' : Progress) (rej : bool) i :
  is_u64 (next_index p) → next_ok last p → match_index p ≤ last → 0 ≤ i → last + 1 < u64_max → (if rej then i < last else i ≤ last) →
  (if rej then decrease_next p i else update_match p i) = Ok p' →
  next_ok last p' ∧ match_index p' ≤ last ∧ match_index p' = if rej then match_index p else i.
Proof.
  intros Hu Hn Hm Hi Hl Hle. unfold decrease_next, update_match. destruct rej.
  - rewrite u64_add_ok by (unfold is_u64; lia). cbn [mbind outcome_bind]. unfold next_ok in *.
    destruct (Z.ltb_spec 1 (next_index p)).
    + destruct (Z.ltb_spec (i + 1) (next_index p)); [intros [= <-]; cbn; lia|].
      rewrite u64_sub_ok by (unfold is_u64 in *; lia). intros [= <-]. cbn. lia.
    + destruct (u64_sub (next_index p) 1) as [n| | |] eqn:E; [|done..]. intros [= <-]. cbn. split; [|done].
      destruct (decide (next_index p = 0)) as [E0|].
      * rewrite E0 in E. unfold u64_sub, u64_norm in E. rewrite decide_False in E by (unfold is_u64; lia).
        destruct overflow_checks; [done|]. injection E as <-. by right; right.
      * rewrite u64_sub_ok in E by (unfold is_u64 in *; lia). injection E as <-. unfold is_u64 in *. lia.
  - rewrite u64_add_ok by (unfold is_u64; lia). intros [= <-]. cbn. unfold next_ok. cbn. lia.
Qed.
Lemma believed_placed m r p p' :
  placed r → r_state r = Leader → msg_type m = MsgAppendResponse → truthful r m → msg_term m = r_term r →
  r_prs r !! msg_from m = Some p →
  (if msg_reject m then decrease_next p (msg_index m) else update_match p (msg_index m)) = Ok p' →
  placed (set_prs (<[msg_from m := p']> (r_prs r)) r) ∧ tracks m r (set_prs (<[msg_from m := p']> (r_prs r)) r).
Proof.
  intros H Hl Hty Ht Hterm Hp Hp'. pose proof (pl_leads _ H Hl) as [L1 L2 L3 L4 L5].
  assert (0 ≤ msg_index m ∧ if msg_reject m then msg_index m < last_index (r_log r) else msg_index m ≤ last_index (r_log r)) as [Hi Hle].
  { destruct (msg_reject m) eqn:E; [apply (tr_refusal _ _ Ht)|apply (tr_ack _ _ Ht)]; done. }
  pose proof (progress_range _ _ _ _ Hp') as Hr.
  apply (progress_ok (last_index (r_log r))) in Hp' as (N1 & N2 & N3); [|by apply (pl_peers _ H _ _ Hp)|by eapply L4|by eapply L3|done..].
  split; [split; [apply H| |apply H|intros _; split]; try done|right; split; [done|split; [done|]]]; cbn.
  - unfold peers_ok. cbn. apply peers_insert; [apply H|done].
  - intros i q [[<- <-]|[_ Hq]]%lookup_insert_Some; [done|by eapply L3].
  - intros i q [[<- <-]|[_ Hq]]%lookup_insert_Some; [done|by eapply L4].
  - intros i q [[<- <-]|[_ Hq]]%lookup_insert_Some; [right|by left]. split_and!; [done..|]. by exists p.
Qed.

Lemma advances_append_response k m r :
  placed r → r_state r = Leader → msg_type m = MsgAppendResponse → truthful r m → msg_term m ≤ r_term r →
  wp (handle_append_response_in k m) (λ _, advances m r) (advances m r) r.
Proof.
  intros H Hl Hty Ht Hle.
  assert (∀ (h : M Raft unit) r1, placed r1 → tracks m r r1 → r_state r1 = Leader → r_term r1 = r_term r → r_msgs r1 = r_msgs r →
    r_log r1 = r_log r → keeps continues h r1 → wp h (λ _, advances m r) (advances m r) r1) as Hgo.
  { intros h r1 P T S E M L Hk. assert (∀ r', continues r1 r' → advances m r r') as Hc.
    { intros r'. apply advances_continued; try done; [left; by rewrite L|by left; rewrite Hty]. }
    eapply wp_mono; [exact Hk|intros; by apply Hc..]. }
  assert (tracks m r r) as Hsame by (right; split_and!; [done|done|by left]).
  assert (∀ r1, keeps continues ((if msg_reject m then mret tt else maybe_commit_in k);; r2 ← get;
    match r_prs r2 !! msg_from m with
    | None => mret tt
    | Some p => if msg_reject m then send_append_in k (msg_from m)
                else if next_index p <=? last_index (r_log r2) then send_append_in k (msg_from m) else mret tt
    end) r1) as Hrest.
  { intros r1. apply keeps_bind; [apply _|case_match; [apply keeps_ret, _|apply continues_maybe_commit]|].
    intros _ r2. apply keeps_get_bind. repeat case_match; try apply continues_send_append; apply keeps_ret, _. }
  unfold handle_append_response_in. wp_step. wp_step. destruct (Z.ltb_spec (msg_term m) (r_term r)) as [Hlt|Hge]; [apply Hgo; try done; apply keeps_ret, _|].
  destruct (r_prs r !! msg_from m) as [p|] eqn:Hp.
  - apply wp_bind, wp_bind, wp_lift; [|by apply advances_rests].
    intros p' Hp'. destruct (believed_placed m r p p') as [P T]; [done..|lia|done|done|]. apply wp_modify. by apply Hgo.
  - apply wp_bind, wp_ret. by apply Hgo.
Qed.
Lemma advances_leading m (h : M Raft unit) r :
  placed r → r_state r = Leader → keeps continues h r → wp h (λ _, advances m r) (advances m r) r.
Proof.
  intros H Hl Hk. assert (∀ r', continues r r' → advances m r r') as Hc.
  { intros r'. apply advances_continued; try done; [by left| |by right]. right. split_and!; [done|done|by left]. }
  eapply wp_mono; [exact Hk|intros; by apply Hc..].
Qed.
Lemma continues_heartbeat_response k m r : keeps continues (handle_heartbeat_response_in k m) r.
Proof.
  unfold handle_heartbeat_response_in. apply keeps_get_bind. repeat case_match; try apply continues_send_append; apply keeps_ret, _.
Qed.

(** Entries that a leader puts behind its log. *)
Definition spacious r m : Prop := last_index (r_log r) + Z.of_nat (length (msg_entries m)) + 2 < u64_max.

Lemma grown_placed r l es :
  based f (r_log r) → peers_ok r → committed (r_log r) ≤ last_index (r_log r) → based f l → entries l = entries (r_log r) ++ es → committed l = committed (r_log r) →
  r_state r = Leader → Forall (λ e, e_term e = r_term r) es → 0 < r_term r →
  (es = [] → end_term 0 (entries (r_log r)) = r_term r) →
  (∀ i p, r_prs r !! i = Some p → match_index p ≤ last_index (r_log r)) →
  (∀ i p, r_prs r !! i = Some p → next_ok (last_index l) p) → last_index l + 1 < u64_max →
  placed (set_log l r) ∧ last_index (r_log r) ≤ last_index l.
Proof.
  intros Hb0 Hp Hc Hb E Ec Hl Hes Hpos Hnil Hm Hn Hroom. pose proof (based_last _ _ Hb) as El. pose proof (based_last _ _ Hb0) as El0.
  rewrite E, length_app in El. assert (last_index (r_log r) ≤ last_index l) by lia.
  split; [|done]. split; [done|exact Hp|cbn; lia|]. intros _. split; [done| |intros i p Hi; specialize (Hm i p Hi); cbn; lia|exact Hn|done].
  cbn. rewrite E, end_term_app. destruct es as [|e es _] using rev_ind; [by apply Hnil|].
  unfold end_term at 1. rewrite last_snoc. cbn. apply Forall_app in Hes as [_ Hes]. by apply (proj1 (Forall_singleton _ _)) in Hes.
Qed.

Lemma advances_propose k m r :
  placed r → r_state r = Leader → msg_type m ≠ MsgAppend → spacious r m →
  wp (es ← lift (renumber (r_term r) (last_index (r_log r)) 0 (msg_entries m));
      log_update (λ l, append l es);; maybe_commit_in k;; for_each_peer (send_append_in k))
    (λ _, advances m r) (advances m r) r.
Proof.
  intros H Hl Hty Hroom. pose proof (pl_based _ H) as Hb. pose proof (pl_leads _ H Hl) as [L1 L2 L3 L4 L5]. unfold spacious in Hroom.
  pose proof (based_last _ _ Hb) as El. pose proof (bs_first _ _ Hb). pose proof (based_length _ _ Hb).
  destruct (renumber_spec (r_term r) (last_index (r_log r)) 0 (msg_entries m)) as (es & -> & Hc & Hlen & Hnth); [lia..|].
  rewrite Z.add_0_r in Hc. wp_step. wp_step. wp_step. unfold log_update. wp_step. wp_step. wp_step.
  destruct (append_behind _ _ Hb es Hc) as [[-> Hb']| ->]; [lia| |apply wp_lift; [done|by apply advances_rests]].
  wp_step. wp_step. set (l := set_entries _ _) in *.
  assert (last_index l = last_index (r_log r) + Z.of_nat (length es)) as El'.
  { rewrite (based_last _ _ Hb'), El. unfold l. cbn. rewrite length_app. lia. }
  destruct (grown_placed r l es Hb (pl_peers _ H) (pl_committed _ H) Hb' eq_refl eq_refl Hl) as [P Hle]; try done.
  - apply Forall_lookup_2. intros i e Hi. destruct (lookup_lt_is_Some_2 (msg_entries m) i) as [e' He'].
    { rewrite <- Hlen. by eapply lookup_lt_Some. }
    rewrite (Hnth _ _ He') in Hi. by injection Hi as <-.
  - intros i p Hi. destruct (L4 i p Hi) as [?|[?|?]]; [left; lia|by right; left|by right; right].
  - lia.
  - assert (∀ r', continues (set_log l r) r' → advances m r r') as Hc'.
    { intros r'. apply advances_continued; try done; [by right| |by left]. right. split_and!; [done|done|by left]. }
    eapply wp_mono; [apply (continues_sends k (set_log l r))|intros; by apply Hc'..].
Qed.

(** *** Elections *)

Lemma advances_become_leader m r :
  placed r → r_state r ≠ Follower → msg_type m ≠ MsgAppend → 0 < r_term r → spacious r m → r_prs r ≠ ∅ → wp become_leader (λ _, advances m r) (advances m r) r.
Proof.
  intros H Hs Hty Hpos Hroom Hpeers. pose proof (pl_based _ H) as Hb. unfold spacious in Hroom.
  pose proof (based_last _ _ Hb) as El. pose proof (bs_first _ _ Hb). pose proof (based_length _ _ Hb). pose proof (pl_committed _ H).
  unfold become_leader. wp_step. wp_step. wp_step. wp_step. cbv zeta. cbn [r_log r_prs r_term set_heartbeat_elapsed set_lead set_state].
  rewrite decide_False by done. rewrite u64_add_ok by (unfold is_u64; lia).
  do 4 wp_step. set (r1 := set_prs _ _). wp_step. wp_step. wp_step. unfold log_update. do 3 wp_step. change (r_log r1) with (r_log r).
  destruct (append_behind _ _ Hb [Entry_new_normal (r_term r) (last_index (r_log r) + 1) []]) as [[-> Hb']|Ha].
  - intros i e Hi. destruct i; [|done]. cbn in Hi. simplify_eq. cbn. lia.
  - cbn [length]. lia.
  - wp_step. wp_step. set (l := set_entries _ _) in *.
    assert (last_index l = last_index (r_log r) + 1) as El'.
    { rewrite (based_last _ _ Hb'), El. unfold l. cbn. rewrite length_app. cbn. lia. }
    assert (∀ i p, r_prs r1 !! i = Some p → p = {| match_index := 0; next_index := last_index (r_log r) + 1 |}) as Hfresh.
    { intros i p. cbn. intros (? & <- & _)%lookup_fmap_Some. done. }
    destruct (grown_placed r1 l [Entry_new_normal (r_term r) (last_index (r_log r) + 1) []]) as [P Hle]; try done.
    + intros i p ->%Hfresh. unfold is_u64. cbn. lia.
    + by apply Forall_singleton.
    + intros i p ->%Hfresh. cbn. lia.
    + intros i p ->%Hfresh. left. cbn. lia.
    + lia.
    + assert (∀ r', continues (set_log l r1) r' → advances m r r') as Hc'.
      { intros r'. apply advances_continued; try done; [by right| |by left]. left. intros i p Hp. by rewrite (Hfresh i p Hp). }
      wp_step. eapply wp_mono; [apply (continues_for_each_peer (send_append_in Sync) (set_log l r1)); intros; apply continues_send_append| |];
        cbn; intros; split_and?; by apply Hc'.
  - exfalso. unfold append in Ha. cbn in Ha. rewrite (proj2 (Z.leb_gt _ _)) in Ha by lia.
    by rewrite (based_first _ _ Hb) in Ha.
Qed.

Lemma advances_vote_response m r :
  placed r → msg_type m ≠ MsgAppend → 0 < r_term r → spacious r m → r_prs r ≠ ∅ → wp (handle_request_vote_response m) (λ _, advances m r) (advances m r) r.
Proof.
  intros H Hty Hpos Hroom Hp. unfold handle_request_vote_response. wp_step. wp_step.
  case_decide as Hc; [wp_step; by apply advances_rests|]. do 4 wp_step. cbv zeta. set (r1 := set_votes _ r).
  assert (r_state r = Candidate) as Hs by (destruct (r_state r); naive_solver).
  assert (rests r r1) as H1 by (apply rests_update; by auto). pose proof (H1 H) as Hr1. pose proof (re_placed _ _ Hr1) as P1.
  assert (∀ r', advances m r1 r' → advances m r r') as Hfrom by (intros; by eapply rested_advances).
  case_match; [|case_match].
  - eapply wp_mono; [apply (advances_become_leader m r1)|intros; by apply Hfrom..]; try done. cbn. by rewrite Hs.
  - eapply wp_mono; [by apply (rests_become_follower (r_term r1) NONE r1)|intros; by apply Hfrom, advances_rests..].
  - wp_step. by apply advances_rested.
Qed.

(** A candidate asks for votes with the position of its log. *)
Record asks o r r' : Prop := {
  ak_log : r_log r' = r_log r;
  ak_term : r_term r' = r_term r;
  ak_state : r_state r' = r_state r;
  ak_peers : r_prs r' = r_prs r;
  ak_msgs : ∃ ms, r_msgs r' = r_msgs r ++ ms ∧ Forall (λ g, msg_type g = MsgRequestVote ∧ msg_term g = r_term o ∧
    (msg_log_term g, msg_index g) = position (entries (r_log o))) ms;
}.
#[export] Instance asks_preorder o : PreOrder (asks o).
Proof.
  split; [intros r; split; try done; exists []; by rewrite app_nil_r|].
  intros r1 r2 r3 [L1 T1 S1 P1 (ms & M1 & F1)] [L2 T2 S2 P2 (ms' & M2 & F2)]. split; try congruence.
  exists (ms ++ ms'). rewrite M2, M1, app_assoc. split; [done|]. by apply Forall_app.
Qed.
Lemma candidate_keeps r :
  0 ≤ r_term r < u64_max →
  let cand r' := r_log r' = r_log r ∧ r_term r' = r_term r + 1 ∧ r_state r' = Candidate ∧ r_prs r' = r_prs r ∧ r_msgs r' = r_msgs r in
  wp become_candidate (λ _, cand) cand r.
Proof.
  intros Ht cand. unfold become_candidate, reset_random_timeout. wp_step. wp_step.
  rewrite u64_add_ok by (unfold is_u64; lia). repeat first [progress wp_step|case_match|done].
Qed.
Lemma end_of_log k l t : based f l → term_or_fail k (last_index l) l = Ok t → t = end_term 0 (entries l).
Proof.
  intros Hb Ht. pose proof (based_length _ _ Hb). pose proof (based_last _ _ Hb) as El. unfold end_term.
  destruct (last (entries l)) as [e|] eqn:E; [|apply last_None in E; by destruct (bs_nonempty _ _ Hb)].
  rewrite last_lookup in E. destruct (based_term_in _ _ Hb k (last_index l) (length (entries l) - 1) e) as [E' _]; [lia|by rewrite Nat.sub_1_r|].
  rewrite E' in Ht. by injection Ht as <-.
Qed.
Lemma advances_asking m r r1 r' :
  placed r → r_log r1 = r_log r → r_term r1 = r_term r + 1 → r_state r1 = Candidate → r_prs r1 = r_prs r → r_msgs r1 = r_msgs r →
  asks r1 r1 r' → advances m r r'.
Proof.
  intros H E1 E2 E3 E4 E5 [L T S P (ms & M & F)]. split.
  - split; [by rewrite L, E1; apply H|unfold peers_ok; rewrite P, E4; apply H|by rewrite L, E1; apply H|intros; congruence].
  - lia.
  - intros _. congruence.
  - left. congruence.
  - intros; congruence.
  - intros; congruence.
  - exists ms. rewrite M, E5. split; [done|]. eapply Forall_impl; [exact F|]. intros g (G1 & G2 & G3).
    split; [intros _|intros [? _]; congruence..|congruence]. by rewrite T, L, S.
Qed.
Lemma advances_campaign k m r :
  placed r → 0 ≤ r_term r < u64_max → r_prs r ≠ ∅ → wp (campaign_in k) (λ _, advances m r) (advances m r) r.
Proof.
  intros H Ht Hp. unfold campaign_in. apply wp_bind. eapply wp_mono; [by apply candidate_keeps|cbn..].
  2: { intros r1 (? & ? & ? & ? & ?). by eapply advances_asking. }
  intros _ r1 (E1 & E2 & E3 & E4 & E5).
  assert (∀ r', asks r1 r1 r' → advances m r r') as Hgo by (intros r'; by apply advances_asking).
  match goal with |- wp ?h _ _ _ => assert (keeps (asks r1) h r1) as Hk; [|eapply wp_mono; [exact Hk|intros; by apply Hgo..]] end.
  apply keeps_get_bind. rewrite decide_False by (apply quorum_peers; by rewrite E4). cbv zeta.
  apply keeps_read; [apply _|]. intros t Hend. apply end_of_log in Hend as ->; [|rewrite E1; apply H].
  unfold for_each_peer. apply keeps_get_bind, keeps_for_each; [apply _|]. intros p r0. case_decide; [|apply keeps_ret, _].
  apply keeps_modify. split; try done. eexists. split; [done|]. apply Forall_singleton. cbn. split; [done|]. split; [done|]. unfold position. f_equal. apply based_last. rewrite E1. apply H.
Qed.

(** A vote goes to a log that is not behind the voter's. *)
Lemma end_of_log' k l t : based f l → term_0_or_fail k (last_index l) l = Ok t → t = end_term 0 (entries l).
Proof.
  intros Hb Ht. pose proof (based_length _ _ Hb). pose proof (based_last _ _ Hb) as El. apply (end_of_log k l); [done|].
  destruct (lookup_lt_is_Some_2 (entries l) (length (entries l) - 1)) as [e He]; [lia|].
  destruct (based_term_in _ _ Hb k (last_index l) (length (entries l) - 1) e) as [E1 E2]; [lia|done|]. rewrite E1.
  destruct k; cbn in *; [|congruence]. rewrite <- Ht. symmetry. exact E2.
Qed.
Lemma advances_request_vote k m r :
  placed r → msg_term m ≤ r_term r → wp (handle_request_vote_in k m) (λ _, advances m r) (advances m r) r.
Proof.
  intros H Ht. assert (∀ r', rests r r' → advances m r r') as Hr by (intros; by apply advances_rests).
  assert (∀ g, plain g → wp (send g) (λ _, advances m r) (advances m r) r) as Hsend.
  { intros g Hg. eapply wp_mono; [apply (rests_send g r Hg)|intros; by apply Hr..]. }
  unfold handle_request_vote_in. wp_step. wp_step.
  destruct (Z.ltb_spec (msg_term m) (r_term r)); [apply Hsend; split_and!; [done..|by intros [_ [=]]]|].
  rewrite (proj2 (Z.ltb_ge _ _)) by lia. do 4 wp_step. cbv zeta. unfold log_read. do 3 wp_step. apply wp_lift; [|by apply Hr].
  intros t Hend. apply end_of_log' in Hend as ->; [|apply H].
  destruct (_ && _) eqn:Hb; [|apply Hsend; split_and!; [done..|by intros [_ [=]]]].
  apply andb_true_iff in Hb as [_ Hb]. wp_step. wp_step. apply wp_modify.
  split; try done; cbn.
  - eapply placed_update; [..|exact H]; try done; try apply H. by right.
  - by left.
  - intros Hl. right. split_and!; [done|done|by left].
  - eexists. split; [done|]. apply Forall_singleton. split; [done| |by intros [? _]..|done]. intros _. cbn.
    split; [lia|]. split; [done|]. unfold behind, position. cbn. rewrite (based_last _ _ (pl_based _ H)) in Hb. lia.
Qed.

(** *** A follower *)

Lemma append_lengthens l es l' :
  append l es = Ok l' → committed l' = committed l ∧ ∀ e, es !! 0%nat = Some e → committed l < e_index e.
Proof.
  unfold append. destruct es as [|e0 es]; [by intros [= <-]|]. cbv zeta. destruct (Z.leb_spec (e_index e0) (committed l)); [done|].
  destruct (first_index l); [|done..]. cbn [mbind outcome_bind]. intros [= <-]. split; [done|]. by intros e [= <-].
Qed.

(** The log of a follower that has taken an append. *)
Lemma taken_placed m r l :
  placed r → append_ok m → truthful r m → in_order r m → msg_type m = MsgAppend → msg_term m = r_term r →
  append (r_log r) (msg_entries m) = Ok l → based f l → appended f m (entries (r_log r)) (entries l) → msg_entries m ≠ [] →
  committed l ≤ last_index l ∧ end_term 0 (entries l) = r_term r ∧
  (end_term 0 (entries (r_log r)) = r_term r → last_index (r_log r) ≤ last_index l).
Proof.
  intros H Hok Ht Hord Hty Hterm Ha Hb (_ & n & Hi & Hn & E) Hne. apply append_lengthens in Ha as [Ec Hc].
  pose proof (based_last _ _ Hb) as El. rewrite E, length_app, length_take_le in El.
  2: { apply lookup_lt_is_Some_1. destruct (entries (r_log r) !! n); [by eexists|done]. }
  destruct (msg_entries m) as [|e es] eqn:Em; [done|]. specialize (Hc e eq_refl). destruct (Hok Hty) as [Hcont _].
  rewrite Em in Hcont. rewrite (contiguous_cons _ _ _ Hcont) in Hc. cbn [length] in El. split; [lia|]. split.
  - rewrite E, end_term_app, <- Em, (end_term_default _ 0) by (by rewrite Em). rewrite (tr_append _ _ Ht); [done|done|by rewrite Em].
  - intros Hend. specialize (Hord Hty Hterm Hend). rewrite Em in Hord. cbn [length] in Hord. specialize (Hord ltac:(done)). lia.
Qed.

Lemma advances_append_entries k m r :
  placed r → r_state r = Follower → msg_type m = MsgAppend → append_ok m → truthful r m → in_order r m → msg_term m ≤ r_term r →
  wp (handle_append_entries_in k m) (λ _, advances m r) (advances m r) r.
Proof.
  intros H Hs Hty Hok Ht Hord Hle. unfold handle_append_entries_in. wp_step. wp_step.
  assert (∀ r1 g, rested r r1 → r_term r1 = r_term r → msg_type g = MsgAppendResponse → msg_reject g = true → msg_term g = r_term r →
    msg_index g = 0 ∨ 0 < msg_index g < msg_index m ∧ msg_term m = r_term r →
    wp (send g) (λ _, advances m r) (advances m r) r1) as Hrefuse.
  { intros r1 g Hr1 Et G1 G2 G3 Hi. apply wp_modify. eapply rested_advances; [done|exact Hr1|]. destruct Hr1 as [P _ _ R _].
    split; try done; [|by left|intros Hl; right; split_and!; [done|done|by left]|].
    - eapply placed_update; [..|exact P]; try done; try apply P. by right.
    - eexists. split; [done|]. apply Forall_singleton.
      split; [intros E; unfold is_request in E; congruence|intros [E _]; congruence|intros [_ E]; congruence| |intros; congruence].
      intros _. cbn. split; [congruence|]. destruct Hi as [?|[? ?]]; [by left|right]. split_and!; [lia|lia|done|congruence]. }
  assert (rested r r) as Hr0 by (by apply rests_preorder).
  destruct (Z.ltb_spec (msg_term m) (r_term r)) as [|Hge]; [apply Hrefuse; by auto|].
  assert (msg_term m = r_term r) as Hterm by lia. rewrite (proj2 (Z.ltb_ge (r_term r) (msg_term m))) by lia.
  do 6 wp_step. cbv zeta. set (r1 := set_lead _ r).
  assert (rested r r1) as Hr1 by (by apply rests_update; auto). pose proof (based_last _ _ (pl_based _ H)). pose proof (bs_first _ _ (pl_based _ H)).
  pose proof (based_length _ _ (pl_based _ H)).
  destruct (Z.ltb_spec (last_index (r_log r1)) (msg_index m)) as [Hlt|Hi].
  { apply Hrefuse; try done. right. change (r_log r1) with (r_log r) in *. cbn [msg_index reply_message]. split; [lia|done]. }
  apply wp_bind. apply (wp_mono _ (λ b r3, r3 = r1 ∧ (b = true → 0 < msg_index m) ∧
      (b = false → 0 < msg_index m → term_or_fail k (msg_index m) (r_log r) = Ok (msg_log_term m)))
    _ (λ r3, r3 = r1)).
  { destruct (Z.ltb_spec 0 (msg_index m)); [|apply wp_ret; by split_and!; [|lia|lia]].
    wp_step. unfold log_read. wp_step. wp_step. apply wp_lift; [|done]. intros t Hterm'. wp_step. split; [done|]. split; [done|].
    intros Hb _. apply bool_decide_eq_false, dec_stable in Hb. change (r_log r1) with (r_log r) in Hterm'. by rewrite Hterm', Hb. }
  2: { intros r3 ->. by apply advances_rested. }
  intros b r3 (-> & Hpos & Hb). destruct b.
  { rewrite u64_sub_ok by (pose proof (bs_bound _ _ (pl_based _ H)); specialize (Hpos eq_refl); change (r_log r1) with (r_log r) in Hi; unfold is_u64; lia).
    wp_step. wp_step. apply Hrefuse; try done. specialize (Hpos eq_refl). cbn. destruct (decide (msg_index m = 1)); [left; lia|right; lia]. }
  wp_step. unfold log_update. wp_step. wp_step. wp_step. change (r_log r1) with (r_log r).
  destruct (append_taken f k m r (conj (pl_based _ H) (pl_peers _ H)) Hty Hok Hi (Hb eq_refl)) as [->|(l & Ha & Hl & Happ)].
  { apply wp_lift; [done|]. by apply advances_rested. }
  rewrite Ha. do 9 wp_step. cbn [r_log set_log].
  assert (committed l ≤ last_index l ∧ if decide (msg_entries m = []) then entries l = entries (r_log r) else
    end_term 0 (entries l) = r_term r ∧ (end_term 0 (entries (r_log r)) = r_term r → last_index (r_log r) ≤ last_index l)) as [Hc Hlog].
  { case_decide as Em.
    - rewrite Em in Ha. injection Ha as <-. split; [apply H|done].
    - destruct Happ as [[_ ?]|Happ]; [done|by eapply taken_placed]. }
  destruct (commit_forward_placed (msg_commit m) l Hl Hc) as (Hl' & El' & Hc'). cbv zeta in Hl', El', Hc'.
  set (l' := if _ <? _ then _ else _) in *.
  assert (last_index l' = last_index l) as Ell by (by eapply last_same).
  apply wp_modify. split.
  - split; [done|apply H|done|by cbn; rewrite Hs].
  - done.
  - by cbn; rewrite Hs.
  - cbn. rewrite El', Ell. destruct (decide (msg_entries m = [])); [by left|right]. destruct Hlog. by split.
  - by cbn; rewrite Hs.
  - by cbn; rewrite Hs.
  - eexists. split; [done|]. apply Forall_singleton. split; [done|by intros [[=] _]| |by intros [_ [=]]|done]. intros _. cbn.
    rewrite El'. split_and!; [done..|]. destruct (decide (msg_entries m = [])); [done|]. by destruct Hlog.
Qed.

(** *** Any message *)

(** What a step needs of the node and of the message. *)
Record proper r m : Prop := {
  pr_term : 0 ≤ r_term r < u64_max;
  pr_role : r_state r ≠ Follower → 0 < r_term r;
  pr_end : end_term 0 (entries (r_log r)) ≤ r_term r;
  pr_peers : r_prs r ≠ ∅;
  pr_snapshot : msg_type m ≠ MsgSnapshot;
  pr_append : append_ok m;
  pr_truthful : truthful r m;
  pr_order : in_order r m;
  pr_space : msg_type m = MsgPropose ∨ msg_type m = MsgRequestVoteResponse → spacious r m;
  pr_stale : not_stale r m;
}.

Lemma advances_keeps {A} m (h : M Raft A) r :
  placed r → keeps rests h r → wp h (λ _, advances m r) (advances m r) r.
Proof. intros H Hk. eapply wp_mono; [exact Hk|intros; by apply advances_rests..]. Qed.
(** A candidate that follows a message of its term. *)
Lemma advances_following m (h : M Raft unit) r :
  placed r → msg_term m = r_term r →
  (∀ r1, rested r r1 → r_state r1 = Follower → r_term r1 = r_term r → wp h (λ _, advances m r1) (advances m r1) r1) →
  wp (become_follower (msg_term m) (msg_from m);; h) (λ _, advances m r) (advances m r) r.
Proof.
  intros H Ht Hh. rewrite Ht. apply wp_bind.
  assert (wp (become_follower (r_term r) (msg_from m)) (λ _, demoted (r_term r) r) (demoted (r_term r) r) r) as Hd by apply demoted_run.
  assert (keeps rests (become_follower (r_term r) (msg_from m)) r) as Hk by (by apply rests_become_follower).
  unfold keeps, wp in *. destruct (become_follower _ _ r) as [o r1].
  assert (demoted (r_term r) r r1 ∧ rests r r1) as [[] Hr1] by (by destruct o). specialize (Hr1 H).
  destruct o; [|by apply advances_rested..].
  specialize (Hh r1 Hr1 de_state de_term). unfold wp in Hh. destruct (h r1) as [[] ?]; by eapply rested_advances.
Qed.

Lemma proper_follows r r1 m :
  placed r → rested r r1 → r_state r1 = Follower → r_term r ≤ msg_term m → r_term r1 = msg_term m → msg_term m < u64_max → r_prs r1 ≠ ∅ →
  proper r m → proper r1 m.
Proof.
  intros H Hr1 Hs Hle Ht Hu Hp []. pose proof (rested_last _ _ H Hr1) as El. destruct Hr1.
  split; try done; try congruence; try lia.
  - by rewrite re_entries0; lia.
  - split; [apply pr_truthful0|congruence..].
  - intros Hty _. rewrite re_entries0, El, Ht. intros Hend. apply pr_order0; [done|lia|lia].
  - unfold spacious. by rewrite El.
  - intros _. lia.
Qed.

Lemma advances_takes k m r r1 :
  placed r → proper r m → msg_type m = MsgAppend → msg_term m ≤ r_term r → rested r r1 → r_state r1 = Follower → r_term r1 = r_term r →
  wp (handle_append_entries_in k m) (λ _, advances m r1) (advances m r1) r1.
Proof.
  intros H [] Hty Hle Hr1 Hs Ht. pose proof (rested_last _ _ H Hr1) as El. destruct Hr1.
  apply advances_append_entries; try done; [|unfold in_order; by rewrite Ht, re_entries0, El|lia].
  split; [apply pr_truthful0|congruence..].
Qed.

Lemma advances_role k m r :
  placed r → proper r m → msg_term m ≤ r_term r → (follows (r_state r) (msg_type m) = true → msg_term m = r_term r) →
  wp (match r_state r with
      | Follower => step_follower_in k m
      | Candidate => step_candidate_in k m
      | Leader => step_leader_in k m
      end) (λ _, advances m r) (advances m r) r.
Proof.
  intros H Hpr Hle Hf. pose proof Hpr as []. pose proof (rests_preorder).
  destruct (r_state r) eqn:Hs; unfold step_follower_in, step_candidate_in, step_leader_in; destruct (msg_type m) eqn:Hty; cbn [follows] in Hf; try done.
  all: try by apply advances_campaign.
  all: try by apply advances_request_vote.
  all: try (apply advances_vote_response; [done|by rewrite Hty|by apply pr_role0|by apply pr_space0; right|done]).
  all: try (wp_step; by apply advances_rests).
  all: try specialize (Hf eq_refl).
  all: try (by apply advances_append_response).
  all: try (apply advances_leading; [done|done|first [apply continues_heartbeat_response|apply continues_bcast_heartbeat]]).
  all: try (apply advances_keeps; [done|]; apply keeps_get_bind; case_decide; [apply rests_send|apply keeps_ret, _];
    unfold plain, is_grant; cbn; rewrite Hty; split_and!; [done..|by intros [? _]]).
  all: try (apply advances_propose; [done|done|by rewrite Hty|by apply pr_space0; left]).
  - wp_step. wp_step. set (r1 := set_election_elapsed 0 r).
    assert (rested r r1) as Hr1 by (by apply rests_update; auto).
    eapply wp_mono; [by apply (advances_takes k m r r1)|intros; by eapply rested_advances..].
  - apply advances_keeps; [done|]. apply keeps_modify_bind; [done|by apply rests_update; auto|]. by apply rests_heartbeat.
  - apply advances_following; [done|done|]. intros. by eapply (advances_takes k m r).
  - apply advances_following; [done|done|]. intros r1 [] _ ?. apply advances_keeps; [done|]. apply rests_heartbeat. lia.
Qed.

(** A step on any message but a snapshot. *)
Lemma advances_step k m r : placed r → proper r m → msg_term m < u64_max → advances m r (step_in k m r).2.
Proof.
  intros H Hpr Hm. apply (ends_wp _ (advances m r)). unfold step_in. wp_step. wp_step. wp_step.
  destruct (Z.ltb_spec (r_term r) (msg_term m)) as [Hlt|Hle].
  - assert (∀ lead, wp (become_follower (msg_term m) lead) (λ _ r1, demoted (msg_term m) r r1 ∧ rested r r1) (λ r1, demoted (msg_term m) r r1 ∧ rested r r1) r) as Hb.
    { intros lead. assert (keeps rests (become_follower (msg_term m) lead) r) as Hk by (apply rests_become_follower; lia).
      pose proof (demoted_run (msg_term m) lead r) as Hd. unfold keeps, wp in *.
      destruct (become_follower _ _ r) as [[] r1]; (split; [done|by apply Hk]). }
    eapply (wp_mono _ _ _ _ _ r); [case_decide; apply Hb| |].
    + intros _ r1 [[] Hr1]. wp_step. wp_step.
      eapply wp_mono; [apply (advances_role k m r1)|intros; by eapply rested_advances..]; [apply Hr1| |lia|by rewrite de_state].
      eapply (proper_follows r); try done; [lia|]. rewrite de_members. apply Hpr.
    + intros r1 [_ Hr1]. by apply advances_rested.
  - do 3 wp_step. apply advances_role; [done|done|done|]. intros Hf%(pr_stale _ _ Hpr). lia.
Qed.

(** A step on a message that the node sends itself is one on any such message. *)
Lemma advances_relabel m m' r r' :
  harmless m → msg_type m ≠ MsgAppend → msg_type m ≠ MsgAppendResponse → msg_type m' ≠ MsgAppend → elects m r r' →
  advances m r r' → advances m' r r'.
Proof.
  intros [Hm _] H1 H2 H3 Hel []. split; try done.
  - intros Hl. destruct (av_tracks0 Hl) as [?|(? & ? & Hp)]; [by left|right]. split_and!; [done..|].
    intros i p [?|(? & _)]%Hp; [by left|done].
  - destruct av_msgs0 as (ms & E & F), (el_msgs _ _ _ Hel) as (ms' & E' & F'). exists ms. split; [done|].
    rewrite E in E'. apply app_inv_head in E' as <-. apply Forall_forall. intros g Hg.
    pose proof (proj1 (Forall_forall _ _) F' g Hg) as Hs. destruct (proj1 (Forall_forall _ _) F g Hg). split; try done.
    + by intros (_ & _ & _ & ? & _)%(so_grant _ _ _ _ Hs).
    + by intros (_ & ? & _)%rt_ack0.
    + intros [? [?|(_ & ? & _)]]%rt_refusal0; [by auto|done].
Qed.

Lemma proper_local r t es :
  placed r → 0 ≤ r_term r < u64_max → (r_state r ≠ Follower → 0 < r_term r) → end_term 0 (entries (r_log r)) ≤ r_term r → r_prs r ≠ ∅ →
  local_type t → t ≠ MsgAppend → t ≠ MsgAppendResponse → (t = MsgPropose → spacious r (local_message t (r_id r) es)) → proper r (local_message t (r_id r) es).
Proof.
  intros H H1 H2 H3 H4 (L1 & L2 & L3 & L4) Ha Hr Hsp. split; try done.
  - split; [done|intros [? _]..]; done.
  - by intros ?.
  - intros [E|E]; [by apply Hsp|by destruct (L3 E)].
  - intros E. cbn [msg_type local_message] in E. by rewrite L1 in E.
Qed.

Lemma advances_tick r :
  placed r → el_pre (local_message MsgBeat (r_id r) []) r → 0 ≤ r_term r < u64_max → (r_state r ≠ Follower → 0 < r_term r) →
  end_term 0 (entries (r_log r)) ≤ r_term r → r_prs r ≠ ∅ → advances (local_message MsgBeat (r_id r) []) r (tick r).2.
Proof.
  intros H Hpre H1 H2 H3 H4. pose proof rests_preorder as Hpo.
  apply (ends_wp _ (advances _ r)). unfold tick. wp_step. wp_step.
  assert (∀ r1 t, rests r r1 → r_state r1 = r_state r → r_term r1 = r_term r → r_id r1 = r_id r → r_prs r1 = r_prs r → el_pre (local_message t (r_id r) []) r1 →
    t = MsgBeat ∨ t = MsgHup →
    wp (ignore_err (step (local_message t (r_id r) []))) (λ _, advances (local_message MsgBeat (r_id r) []) r)
      (advances (local_message MsgBeat (r_id r) []) r) r1) as Hstep.
  { intros r1 t Hr1 E1 E2 E3 E4 Hp Ht. specialize (Hr1 H). pose proof (rested_last _ _ H Hr1) as El.
    apply (ends_wp _ (advances _ r)). unfold ends. rewrite ignore_err_state'. eapply rested_advances; [done|exact Hr1|].
    assert (local_type t ∧ t ≠ MsgAppend ∧ t ≠ MsgAppendResponse) as (Hl & Ha & Hresp).
    { unfold local_type. destruct Ht as [->| ->]; split_and!; first [done|by intros []]. }
    rewrite <- E3 in *.
    eapply (advances_relabel (local_message t (r_id r1) [])); [apply harmless_local; by destruct Ht as [->| ->]|done|done|done|apply elects_local; [done|lia|done]|].
    apply advances_step; [apply Hr1| |done]. apply proper_local; try done; try congruence; [apply Hr1|by rewrite E1, E2|rewrite (re_entries _ _ Hr1); lia|].
    intros ->. by destruct Ht. }
  assert (∀ r1 t, r_state r1 = r_state r → r_id r1 = r_id r → r_vote r1 = r_vote r → t = MsgBeat ∨ t = MsgHup →
    el_pre (local_message t (r_id r) []) r1) as Hel.
  { intros r1 t E1 E2 E3 Ht. destruct Hpre. split; [by rewrite E2|by rewrite E1, E2, E3|by destruct Ht as [->| ->]]. }
  destruct (r_state r) eqn:Hs; (wp_step; wp_step; [|by apply advances_rests]; wp_step; wp_step; case_match;
    [wp_step; wp_step; apply Hstep; try done; [apply rests_update; by auto|apply Hel; by auto|by auto]|apply wp_ret, advances_rests; [done|apply rests_update; by auto]]).
Qed.
End positions.
