(* ===== verification/RaftCommitment.v ===== *)
(** Commitment: what a leader of src/raft/raft.rs has committed stays in the
    logs of all later leaders, under the network of RaftCluster.v.

    A log that a leader has had is remembered with the leader's term.  The
    invariant says of each: the entries of its own term are at its end, and the
    voters that elected the leader had acknowledged nothing, in earlier terms,
    that is ahead of the log as it was then.  As a majority acknowledges what is
    committed, the log of a later leader is not behind it, and by log matching
    has it.

    This needs, besides what log matching needs, that the appends of a leader
    come in order.  The handlers do not see to it: an append cuts the log off
    behind its entries even when they are there already.  [committed_entry_lost]
    shows how two appends that change places lose a committed entry. *)

From S2P Require Import Prelude Bytes RaftTypes RaftLog Raft RaftReplication RaftElections RaftCluster RaftLogs RaftMatching RaftPositions.

Section commitment.
Context `{prof : BuildProfile} `{order : HashOrder} `{rand : RandomSource}.
Context (f t0 : Z) (members : gset Z).
Implicit Types (r : Raft) (m g a : Message) (k : lookup) (c : cluster) (es h : list Entry) (hist : gmap Z (list Entry)).

(** ** The logs that leaders have had *)

(** The leader of [t] was elected by [S] with the first [n] entries of [h]. *)
Record elected c (t : Z) h (n : nat) (S : gset Z) : Prop := {
  et_room : (0 < n < length h)%nat;
  et_before : ∀ i e, h !! i = Some e → (i < n)%nat → e_term e < t;
  et_after : ∀ i e, h !! i = Some e → (n ≤ i)%nat → e_term e = t;
  et_members : S ⊆ members;
  et_majority : (size members < 2 * size S)%nat;
  et_voters : ∀ p, p ∈ S → ∃ r, nodes c !! p = Some r ∧ t ≤ r_term r;
  et_answers : ∀ a, a ∈ sent c → is_ack a → msg_from a ∈ S → msg_term a < t →
    behind (msg_term a, msg_index a) (position f (take n h));
}.

(** The links of all logs, appends and remembered logs. *)
Definition known c hist (x : Z * Entry) : Prop := linked c x ∨ ∃ t h, hist !! t = Some h ∧ x ∈ links 0 h.

Context (origin : Z * Entry → Prop) (Horigin : agree origin origin).

Record history_ok c (led : gmap Z Z) hist : Prop := {
  hi_contiguous : ∀ t h, hist !! t = Some h → contiguous f h;
  hi_term : ∀ t h, hist !! t = Some h → t0 < t ∧ is_Some (led !! t);
  hi_leader : ∀ id r, nodes c !! id = Some r → r_state r = Leader → hist !! r_term r = Some (entries (r_log r));
  hi_elected : ∀ t h, hist !! t = Some h → ∃ n S, elected c t h n S;
  hi_origin : ∀ x, known c hist x →
    (e_term x.2 ≤ t0 ∧ origin x) ∨ (t0 < e_term x.2 ∧ ∃ h, hist !! e_term x.2 = Some h ∧ x ∈ links 0 h);
  hi_ordered : ∀ x, known c hist x → x.1 ≤ e_term x.2;
}.

Lemma ordered_terms es i j ei ej :
  (∀ x, x ∈ links 0 es → x.1 ≤ e_term x.2) → (i ≤ j)%nat → es !! i = Some ei → es !! j = Some ej → e_term ei ≤ e_term ej.
Proof.
  intros Ho Hij Hi. revert ej. induction Hij as [|j Hij IH]; intros ej Hj; [by simplify_eq|].
  destruct (lookup_lt_is_Some_2 es j) as [e He]; [apply lookup_lt_Some in Hj; lia|]. etrans; [by apply IH|].
  specialize (Ho (end_term 0 (take (S j) es), ej)). cbn in Ho. rewrite (end_term_take _ _ _ _ He) in Ho. apply Ho.
  apply elem_of_links. exists (S j). split; [done|]. by rewrite (end_term_take _ _ _ _ He).
Qed.

Section static.
Context (c : cluster) (led : gmap Z Z) (hist : gmap Z (list Entry)) (Hh : history_ok c led hist).

Lemma known_agree : agree (known c hist) (known c hist).
Proof using All.
  intros x y [[? Hx]|[? (h & Hhx & Hx)]]%(hi_origin _ _ _ Hh) [[? Hy]|[? (h' & Hhy & Hy)]]%(hi_origin _ _ _ Hh) Ei Et; [by apply Horigin|lia|lia|].
  rewrite Et, Hhy in Hhx. injection Hhx as <-. eapply links_unique; [by eapply hi_contiguous|done..].
Qed.
Lemma hist_known t h x : hist !! t = Some h → x ∈ links 0 h → known c hist x.
Proof. intros. right. by exists t, h. Qed.
Lemma node_known id r x : nodes c !! id = Some r → x ∈ links 0 (entries (r_log r)) → known c hist x.
Proof. intros. left. left. by exists id, r. Qed.

(** Up to an entry, a log is that of the leader of the entry's term. *)
Lemma in_history es n e :
  contiguous f es → (∀ x, x ∈ links 0 es → known c hist x) → es !! n = Some e → t0 < e_term e →
  ∃ h, hist !! e_term e = Some h ∧ ∀ j, (j ≤ n)%nat → h !! j = es !! j.
Proof using All.
  intros Hc Hk He Ht.
  assert ((match n with O => 0 | S n' => end_term 0 (take (S n') es) end, e) ∈ links 0 es) as Hx by (apply elem_of_links; by exists n).
  destruct (hi_origin _ _ _ Hh _ (Hk _ Hx)) as [[? _]|[_ (h & Hhe & Hxh)]]; [cbn in *; lia|]. cbn in Hhe, Hxh. exists h. split; [done|].
  apply elem_of_links in Hxh as (n' & Hn' & _). pose proof (hi_contiguous _ _ _ Hh _ _ Hhe) as Hch.
  assert (n' = n) as -> by (pose proof (Hch _ _ Hn'); pose proof (Hc _ _ He); lia).
  eapply agree_positions; [exact Hch|exact Hc| |exact Hn'|exact He|done].
  intros x y Hx' Hy'. apply known_agree; [by eapply hist_known|by apply Hk].
Qed.

(** A majority has acknowledged the index [i] in the term [t]. *)
Definition committed_at (t i : Z) : Prop :=
  ∃ S : gset Z, S ⊆ members ∧ (size members < 2 * size S)%nat ∧
    ∀ p, p ∈ S → ∃ a, a ∈ sent c ∧ is_ack a ∧ msg_from a = p ∧ msg_term a = t ∧ i ≤ msg_index a.

Lemma last_before t h n V :
  elected c t h n V → ∃ e, h !! (n - 1)%nat = Some e ∧ position f (take n h) = (e_term e, f + Z.of_nat n - 1).
Proof.
  intros []. destruct (lookup_lt_is_Some_2 h (n - 1)) as [e He]; [lia|]. exists e. split; [done|].
  unfold position. rewrite length_take_le by lia. f_equal.
  assert (n = S (n - 1))%nat as E by lia. rewrite E at 1. by apply end_term_take.
Qed.

(** Every later leader has had it. *)
Lemma committed_contained t h n e :
  hist !! t = Some h → h !! n = Some e → e_term e = t → committed_at t (f + Z.of_nat n) →
  ∀ t' h', t < t' → hist !! t' = Some h' → ∀ j, (j ≤ n)%nat → h' !! j = h !! j.
Proof using All.
  intros Ht He Het (S & HS1 & HS2 & HS3) t'. pose proof (hi_term _ _ _ Hh _ _ Ht) as [Ht0 _].
  remember (Z.to_nat (t' - t)) as d eqn:Hd. revert t' Hd. induction d as [d IH] using lt_wf_ind. intros t' Hd h' Hlt Ht'.
  destruct (hi_elected _ _ _ Hh _ _ Ht') as (n' & S' & Hel). pose proof Hel as [].
  destruct (majorities_meet members S S') as (p & Hp & Hp'); [done..|].
  destruct (HS3 p Hp) as (a & Ha & Hack & Hfrom & Hta & Hi). pose proof (et_answers0 a Ha Hack) as Hb.
  rewrite Hfrom, Hta in Hb. specialize (Hb Hp' Hlt). destruct (last_before _ _ _ _ Hel) as (el & Hel' & Epos). rewrite Epos in Hb.
  pose proof (hi_contiguous _ _ _ Hh _ _ Ht') as Hc'.
  pose proof (et_before0 _ _ Hel' ltac:(lia)) as Hlt'.
  assert (t0 < e_term el) as Htl by (destruct Hb as [Hb|[Hb _]]; cbn in Hb; lia).
  destruct (in_history h' (n' - 1)%nat el Hc' (λ x, hist_known _ _ x Ht') Hel' Htl) as (hl & Hhl & Hsame).
  destruct Hb as [Hb|[Hb1 Hb2]]; cbn in *.
  - assert (n < n' - 1)%nat as Hn.
    { apply Nat.lt_nge. intros Hge. assert (hl !! (n' - 1)%nat = Some el) as Hl by (by rewrite Hsame).
      assert (hl !! n = h !! n) as Hln by (eapply (IH (Z.to_nat (e_term el - t))); [lia|done|lia|done|lia]).
      rewrite He in Hln. pose proof (ordered_terms hl (n' - 1) n el e (λ x Hx, hi_ordered _ _ _ Hh _ (hist_known _ _ _ Hhl Hx)) Hge Hl Hln). lia. }
    intros j Hj. rewrite <- Hsame by lia. eapply (IH (Z.to_nat (e_term el - t))); [lia|done|lia|done|lia].
  - rewrite <- Hb1, Ht in Hhl. injection Hhl as <-. intros j Hj. symmetry. apply Hsame. lia.
Qed.
End static.

(** ** Positions that messages name *)

Record node_placed r : Prop := {
  np_placed : placed f r;
  np_end : end_term 0 (entries (r_log r)) ≤ r_term r;
  np_candidate : r_state r = Candidate → end_term 0 (entries (r_log r)) < r_term r;
}.
Record positions_ok c hist : Prop := {
  po_node : ∀ id r, nodes c !! id = Some r → node_placed r;
  po_ack : ∀ a, a ∈ sent c → is_ack a →
    (∃ r, nodes c !! msg_from a = Some r ∧ msg_term a ≤ r_term r ∧ behind (msg_term a, msg_index a) (position f (entries (r_log r)))) ∧
    ∃ h n e, hist !! msg_term a = Some h ∧ h !! n = Some e ∧ e_term e = msg_term a ∧ msg_index a = f + Z.of_nat n;
  po_refusal : ∀ g, g ∈ sent c → is_refusal g → msg_index g = 0 ∨
    ∃ h, hist !! msg_term g = Some h ∧ 0 < msg_index g < f + Z.of_nat (length h) - 1;
  po_request : ∀ g, g ∈ sent c → is_request g → ∃ r, nodes c !! msg_from g = Some r ∧ msg_term g ≤ r_term r ∧
    (r_term r = msg_term g → r_state r = Candidate → (msg_log_term g, msg_index g) = position f (entries (r_log r)));
  po_granted : ∀ g, g ∈ sent c → is_grant g → ∃ r, nodes c !! msg_to g = Some r ∧ msg_term g ≤ r_term r;
  po_vote : ∀ g a r, g ∈ sent c → is_grant g → a ∈ sent c → is_ack a → msg_from a = msg_from g → msg_term a < msg_term g →
    nodes c !! msg_to g = Some r → r_term r = msg_term g → r_state r = Candidate →
    behind (msg_term a, msg_index a) (position f (entries (r_log r)));
  po_append : ∀ g, g ∈ sent c → msg_type g = MsgAppend →
    (∃ h, hist !! msg_term g = Some h ∧ msg_index g < f + Z.of_nat (length h)) ∧
    if decide (msg_entries g = [])
    then ∃ a, a ∈ sent c ∧ is_ack a ∧ msg_from a = msg_to g ∧ msg_term a = msg_term g ∧ msg_index a = msg_index g
    else end_term 0 (msg_entries g) = msg_term g;
  po_match : ∀ id r i p, nodes c !! id = Some r → r_state r = Leader → r_prs r !! i = Some p → match_index p ≠ 0 →
    ∃ a, a ∈ sent c ∧ is_ack a ∧ msg_from a = i ∧ msg_term a = r_term r ∧ msg_index a = match_index p;
}.

(** What one step of the cluster does, all in all. *)
Record stride c (id : Z) r r' m : Prop := {
  sd_effect : effect f c id r r' m;
  sd_advances : advances f m r r';
  sd_delivered : msg_type m = MsgAppend ∨ msg_type m = MsgAppendResponse → m ∈ sent c ∧ msg_to m = id;
  sd_grows : r_state r = Leader → r_term r' = r_term r →
    ∃ new, entries (r_log r') = entries (r_log r) ++ new ∧ Forall (λ e, e_term e = r_term r') new;
}.

Section step.
Context (c : cluster) (id : Z) (r r' : Raft) (m : Message).
Context (Hok : cluster_ok members c) (Hsize : (2 ≤ size members)%nat).
Context (led : gmap Z Z) (Hled : led_ok members c led) (Hlogs : logs_ok f t0 c led) (Hzero : 0 ≤ t0).
Context (hist : gmap Z (list Entry)) (Hh : history_ok c led hist) (Hpo : positions_ok c hist).
Context (Hef : effect f c id r r' m) (Hav : advances f m r r').
Context (Hdelivered : msg_type m = MsgAppend ∨ msg_type m = MsgAppendResponse → m ∈ sent c ∧ msg_to m = id).
Context (Hgrows : r_state r = Leader → r_term r' = r_term r →
  ∃ new, entries (r_log r') = entries (r_log r) ++ new ∧ Forall (λ e, e_term e = r_term r') new).
#[local] Abbreviation c' := (after id r' c).

Lemma step_node : nodes c !! id = Some r.
Proof using All. apply Hef. Qed.
Lemma step_elects : elects m r r'.
Proof using All. apply Hef. Qed.
Lemma step_placed : node_placed r.
Proof using All. eapply po_node; [done|]. apply step_node. Qed.
Lemma step_id : r_id r = id ∧ r_id r' = id.
Proof using All. pose proof (no_id _ _ _ _ (co_node _ _ Hok _ _ step_node)). split; [done|]. by rewrite (el_id _ _ _ step_elects). Qed.
Lemma node_after id' r0 : nodes c' !! id' = Some r0 → (id' = id ∧ r0 = set_msgs [] r') ∨ (id' ≠ id ∧ nodes c !! id' = Some r0).
Proof. cbn. intros [[<- <-]|[? ?]]%lookup_insert_Some; auto. Qed.
Lemma node_after_self : nodes c' !! id = Some (set_msgs [] r').
Proof. apply lookup_insert_eq. Qed.
Lemma node_after_other id' : id' ≠ id → nodes c' !! id' = nodes c !! id'.
Proof. intros. cbn. by rewrite lookup_insert_ne. Qed.
Lemma kept g : g ∈ sent c → g ∈ sent c'.
Proof. intros. apply elem_of_app. by left. Qed.
(** A node does not fall back. *)
Lemma node_later id' r0 : nodes c !! id' = Some r0 → ∃ r1, nodes c' !! id' = Some r1 ∧ r_term r0 ≤ r_term r1.
Proof using All.
  intros H0. destruct (decide (id' = id)) as [->|].
  - exists (set_msgs [] r'). rewrite node_after_self. split; [done|]. rewrite step_node in H0. injection H0 as <-.
    apply (el_term _ _ _ step_elects).
  - exists r0. by rewrite node_after_other.
Qed.

Lemma reported_after g : g ∈ sent c' → g ∈ sent c ∨ (reports f m r r' g ∧ sent_ok m r r' g).
Proof using All.
  intros [Hg|Hg]%elem_of_app; [by left|right].
  destruct (av_msgs _ _ _ _ Hav) as (ms & E & F), (el_msgs _ _ _ step_elects) as (ms' & E' & F').
  rewrite E in E'. apply app_inv_head in E' as <-. rewrite E, (no_msgs _ _ _ _ (co_node _ _ Hok _ _ step_node)) in Hg.
  split; by eapply (proj1 (Forall_forall _ _)) in Hg.
Qed.

Lemma step_linked x : linked c' x → linked c x ∨ made r r' x.
Proof using All.
  destruct Hef. by apply (linked_after f t0 members c id r r' m Hok ef_node ef_heard ef_elects Hsize ef_type led Hled Hlogs ef_replicates ef_sent ef_keeps).
Qed.

(** *** A leader *)

Lemma step_leader_new :
  r_state r' = Leader → (r_state r = Leader ∧ r_term r' = r_term r) ∨
  (r_term r' = r_term r ∧ r_state r = Candidate ∧ hist !! r_term r' = None ∧ supported members c' (r_term r') id).
Proof using All.
  intros Hl. destruct Hef.
  destruct (leader_is_new f t0 members c id r r' m Hok ef_node ef_heard ef_elects Hsize ef_type led Hled Hl) as [?|(? & ? & Hn & ?)]; [by left|right].
  split_and!; try done. destruct (hist !! r_term r') eqn:E; [|done]. destruct (hi_term _ _ _ Hh _ _ E) as [_ [? ?]]. congruence.
Qed.
Lemma step_leader_entries :
  r_state r' = Leader → r_term r' = r_term r ∧ ∃ new, entries (r_log r') = entries (r_log r) ++ new ∧
    Forall (λ e, e_term e = r_term r') new ∧ (r_state r = Candidate → new ≠ []).
Proof using All.
  intros Hl. destruct (step_leader_new Hl) as [[Hs Ht]|(Ht & Hs & _)].
  - split; [done|]. destruct (Hgrows Hs Ht) as (new & ? & ?). exists new. split_and!; [done|done|congruence].
  - split; [done|]. assert (∃ new, entries (r_log r') = entries (r_log r) ++ new ∧ Forall (λ e, e_term e = r_term r') new) as (new & E & Hn).
    { destruct (rp_log _ _ _ _ (ef_replicates _ _ _ _ _ _ Hef)) as [E|[[Hty _]|(_ & new & E & Hn)]]; [|..|by exists new].
      - exists []. rewrite app_nil_r. split; [done|by apply Forall_nil].
      - destruct (av_takes _ _ _ _ Hav Hty Hl). congruence. }
    exists new. split_and!; [done|done|]. intros _ ->. rewrite app_nil_r in E.
    pose proof (ld_term _ (pl_leads _ _ (av_placed _ _ _ _ Hav) Hl)) as Hend. pose proof (np_candidate _ step_placed Hs). rewrite E in Hend. lia.
Qed.
Lemma step_leader_term : r_state r' = Leader → t0 < r_term r'.
Proof using All.
  intros Hl. destruct (step_leader_entries Hl) as [Ht _]. rewrite Ht. apply (lo_term _ _ _ _ Hlogs _ _ step_node).
  destruct (step_leader_new Hl) as [[Hs _]|(_ & Hs & _)]; congruence.
Qed.

(** *** The remembered logs *)

Definition next_hist : gmap Z (list Entry) :=
  if decide (r_state r' = Leader) then <[r_term r' := entries (r_log r')]> hist else hist.

Lemma next_hist_cases t h :
  next_hist !! t = Some h → (r_state r' = Leader ∧ t = r_term r' ∧ h = entries (r_log r')) ∨ (hist !! t = Some h ∧ (r_state r' = Leader → t ≠ r_term r')).
Proof using Type.
  unfold next_hist. case_decide; [|by right]. intros [[<- <-]|[? ?]]%lookup_insert_Some; [by left|right]. auto.
Qed.
Lemma next_hist_leader : r_state r' = Leader → next_hist !! r_term r' = Some (entries (r_log r')).
Proof using Type. intros. unfold next_hist. rewrite decide_True by done. apply lookup_insert_eq. Qed.
Lemma hist_grows t h : hist !! t = Some h → ∃ h', next_hist !! t = Some h' ∧ h `prefix_of` h'.
Proof using All.
  intros Ht. unfold next_hist. case_decide as Hl; [|by exists h]. destruct (decide (t = r_term r')) as [->|]; [|exists h; by rewrite lookup_insert_ne].
  exists (entries (r_log r')). rewrite lookup_insert_eq. split; [done|].
  destruct (step_leader_new Hl) as [[Hs Et]|(_ & _ & Hn & _)]; [|congruence].
  rewrite Et, (hi_leader _ _ _ Hh _ _ step_node Hs) in Ht. injection Ht as <-. by apply Hef.
Qed.
Lemma links_prefix p es es' x : es `prefix_of` es' → x ∈ links p es → x ∈ links p es'.
Proof using Type. intros [new ->] Hx. rewrite links_app. apply elem_of_app. by left. Qed.

Lemma made_leader x : made r r' x → r_state r' = Leader ∧ e_term x.2 = r_term r' ∧ x ∈ links 0 (entries (r_log r')).
Proof using Type. by intros (? & ? & ? & _). Qed.
Lemma step_known x : known c' next_hist x → known c hist x ∨ made r r' x.
Proof using All.
  intros [[Hx|Hx]%step_linked|(t & h & Ht & Hx)]; [left; by left|by right|].
  apply next_hist_cases in Ht as [(Hl & -> & ->)|[Ht _]]; [|left; right; by exists t, h].
  destruct (step_linked x) as [?|?]; [|left; by left|by right]. left. exists id, (set_msgs [] r'). by rewrite node_after_self.
Qed.

(** The terms of a log go up to that of the node. *)
Lemma step_below es : (∀ x, x ∈ links 0 es → known c hist x) → end_term 0 es ≤ r_term r → Forall (λ e, e_term e ≤ r_term r) es.
Proof using All.
  intros Hk Hend. apply Forall_lookup_2. intros i e Hi.
  destruct (lookup_lt_is_Some_2 es (length es - 1)) as [el Hlast]; [apply lookup_lt_Some in Hi; lia|].
  etrans; [apply (ordered_terms es i (length es - 1) e el)|]; try done.
  - intros x Hx. by apply (hi_ordered _ _ _ Hh), Hk.
  - apply lookup_lt_Some in Hi. lia.
  - revert Hend. unfold end_term. rewrite last_lookup, <- Nat.sub_1_r, Hlast. done.
Qed.
Lemma own_below : Forall (λ e, e_term e ≤ r_term r) (entries (r_log r)).
Proof using All.
  apply step_below; [|apply step_placed]. intros x Hx. left. left. exists id, r. split; [apply step_node|done].
Qed.

Lemma made_ordered x : made r r' x → x.1 ≤ e_term x.2.
Proof using All.
  destruct x as [q e]. intros (Hl & Hx & Ht & Hi). cbn in *. destruct (step_leader_entries Hl) as (Et & new & E & Hn & _).
  rewrite Ht. apply elem_of_links in Hx as (n & Hn' & ->). destruct n as [|n]; [pose proof (step_leader_term Hl); lia|].
  destruct (lookup_lt_is_Some_2 (entries (r_log r')) n) as [p Hp]; [apply lookup_lt_Some in Hn'; lia|].
  rewrite (end_term_take _ _ _ _ Hp). rewrite E in Hp. apply lookup_app_Some in Hp as [Hp|[_ Hp]].
  - rewrite Et. by eapply (Forall_lookup_1 _ _ _ _ own_below).
  - by rewrite (Forall_lookup_1 _ _ _ _ Hn Hp).
Qed.

(** What is acknowledged by the node now is of its term. *)
Lemma ack_after a : a ∈ sent c' → is_ack a → a ∈ sent c ∨
  (msg_from a = id ∧ msg_term a = r_term r' ∧ r_state r' = Follower ∧ msg_type m = MsgAppend ∧ msg_term m = r_term r' ∧
   msg_index a = last_index (r_log r') ∧
   (if decide (msg_entries m = []) then entries (r_log r') = entries (r_log r) else end_term 0 (entries (r_log r')) = r_term r')).
Proof using All.
  intros [?|[Hrep _]]%reported_after Ha; [by left|right]. destruct (rt_ack _ _ _ _ _ Hrep Ha) as (H1 & H2 & H3 & H4 & H5 & H6 & H7).
  split_and!; try done. rewrite H1. apply step_id.
Qed.

Lemma elected_after t h n V : elected c t h n V → elected c' t h n V.
Proof using All.
  intros []. split; try done.
  - intros p (r0 & H0 & Hle)%et_voters0. destruct (node_later _ _ H0) as (r1 & ? & ?). exists r1. split; [done|lia].
  - intros a Ha' Hack Hin Hlt. destruct (ack_after a Ha' Hack) as [Ha|(Hf & Ht & _)]; [by apply et_answers0|].
    exfalso. destruct (et_voters0 _ Hin) as (r0 & H0 & Hle). rewrite Hf, step_node in H0. injection H0 as <-.
    pose proof (el_term _ _ _ step_elects). lia.
Qed.
Lemma elected_grows t h n V new :
  elected c t h n V → Forall (λ e, e_term e = t) new → elected c t (h ++ new) n V.
Proof using All.
  intros [] Hnew. split; try done.
  - rewrite length_app. lia.
  - intros i e [Hi|[? Hi]]%lookup_app_Some ?; [by eapply et_before0|lia].
  - intros i e [Hi|[? Hi]]%lookup_app_Some ?; [by eapply et_after0|by eapply (Forall_lookup_1 _ _ _ _ Hnew)].
  - intros a. rewrite take_app_le by lia. apply et_answers0.
Qed.

(** Who has voted for a candidate is not ahead of it. *)
Lemma elected_new :
  r_state r' = Leader → r_state r = Candidate → supported members c' (r_term r') id →
  ∃ n V, elected c' (r_term r') (entries (r_log r')) n V.
Proof using All.
  intros Hl Hs (V & HV1 & HV2 & HV3). destruct (step_leader_entries Hl) as (Et & new & E & Hn & Hne).
  pose proof (pl_based _ _ (np_placed _ step_placed)) as Hb. pose proof (based_length _ _ Hb) as Hlen.
  assert (0 < length new)%nat as Hnew by (destruct new; [by destruct (Hne Hs)|cbn; lia]).
  pose proof (np_candidate _ step_placed Hs) as Hend.
  exists (length (entries (r_log r))), V. split; try done; rewrite ?E.
  - rewrite length_app. lia.
  - intros i e Hi Hlt. rewrite lookup_app_l in Hi by done. rewrite Et.
    assert (e_term e ≤ end_term 0 (entries (r_log r))); [|lia]. unfold end_term. rewrite last_lookup, <- Nat.sub_1_r.
    destruct (lookup_lt_is_Some_2 (entries (r_log r)) (length (entries (r_log r)) - 1)) as [el Hlast]; [lia|]. rewrite Hlast. cbn.
    eapply (ordered_terms (entries (r_log r)) i _); [|..|exact Hi|exact Hlast]; [|lia].
    intros x Hx. apply (hi_ordered _ _ _ Hh). left. left. exists id, r. split; [apply step_node|done].
  - intros i e Hi Hge. rewrite lookup_app_r in Hi by done. by eapply (Forall_lookup_1 _ _ _ _ Hn).
  - intros p [->|(g & Hg & Gg & Hf & Hto & Ht)]%HV3; [exists (set_msgs [] r'); rewrite node_after_self; split; [done|cbn; lia]|].
    assert (cluster_ok members c') as Hok' by (destruct Hef; by eapply after_ok).
    destruct (co_grant _ _ Hok' g Hg Gg) as (r0 & H0 & _ & Hle & _). exists r0. split; [congruence|lia].
  - intros a Ha' Hack Hin Hlt. destruct (ack_after a Ha' Hack) as [Ha|(_ & _ & ? & _)]; [|congruence]. rewrite take_app_length.
    destruct (HV3 _ Hin) as [Hid|(g & Hg & Gg & Hf & Hto & Ht)].
    + destruct (po_ack _ _ Hpo a Ha Hack) as [(r0 & H0 & _ & Hb0) _]. rewrite Hid, step_node in H0. by injection H0 as <-.
    + destruct (reported_after g Hg) as [Hg0|[_ Hs']].
      * pose proof step_node. apply (po_vote _ _ Hpo g a r); congruence.
      * destruct (so_grant _ _ _ _ Hs' Gg) as (_ & _ & ? & _). congruence.
Qed.

Context (led' : gmap Z Z) (Hsub : led ⊆ led') (Hled_new : r_state r' = Leader → led' !! r_term r' = Some id).

Lemma history_after : history_ok c' led' next_hist.
Proof using All.
  pose proof (av_placed _ _ _ _ Hav) as Hp. split.
  - intros t h [(_ & _ & ->)|[Ht _]]%next_hist_cases; [apply Hp|by eapply hi_contiguous].
  - intros t h [(Hl & -> & _)|[Ht _]]%next_hist_cases; [split; [by apply step_leader_term|eauto]|].
    destruct (hi_term _ _ _ Hh _ _ Ht) as [? [w Hw]]. split; [done|]. exists w. by eapply lookup_weaken.
  - intros id' r0 [[-> ->]|[Hne H0]]%node_after Hl; [by apply next_hist_leader|].
    pose proof (hi_leader _ _ _ Hh _ _ H0 Hl) as Ht. unfold next_hist. case_decide as Hl'; [|done].
    rewrite lookup_insert_ne; [done|]. intros E. destruct (step_leader_new Hl') as [[Hs Et]|(_ & _ & Hn & _)]; [|congruence].
    pose proof (le_node _ _ _ Hled _ _ step_node Hs). pose proof (le_node _ _ _ Hled _ _ H0 Hl). congruence.
  - intros t h [(Hl & -> & ->)|[Ht _]]%next_hist_cases.
    + destruct (step_leader_new Hl) as [[Hs Et]|(_ & Hs & _ & Hsup)]; [|by apply elected_new].
      destruct (step_leader_entries Hl) as (_ & new & -> & Hn & _).
      destruct (hi_elected _ _ _ Hh _ _ (hi_leader _ _ _ Hh _ _ step_node Hs)) as (n & V & Hv). rewrite <- Et in Hv.
      exists n, V. by apply elected_after, elected_grows.
    + destruct (hi_elected _ _ _ Hh _ _ Ht) as (n & V & Hv). exists n, V. by apply elected_after.
  - intros x [[[? ?]|[? (h & Ht & Hx)]]%(hi_origin _ _ _ Hh)|(Hl & Ht & Hx)%made_leader]%step_known; [by left| |].
    + right. split; [done|]. destruct (hist_grows _ _ Ht) as (h' & ? & ?). exists h'. split; [done|]. by eapply links_prefix.
    + right. rewrite Ht. split; [by apply step_leader_term|]. exists (entries (r_log r')). split; [by apply next_hist_leader|done].
  - intros x [Hx|Hx]%step_known; [by apply (hi_ordered _ _ _ Hh)|by apply made_ordered].
Qed.

(** *** The positions *)

Lemma candidate_before : r_state r' = Candidate → r_term r' = r_term r → r_state r = Candidate ∧ entries (r_log r') = entries (r_log r).
Proof using All.
  intros Hs E. pose proof step_elects as Hel. split; [|by apply (av_candidate _ _ _ _ Hav)]. destruct (r_state r) eqn:Hsr; [|done|].
  - destruct (el_follower _ _ _ Hel E Hsr). congruence.
  - pose proof (el_stays _ _ _ Hel Hsr E (ef_type _ _ _ _ _ _ Hef)). congruence.
Qed.

Lemma placed_after : node_placed (set_msgs [] r').
Proof using All.
  destruct step_placed as [Hp He Hc], (av_placed _ _ _ _ Hav) as [P1 P2 P3 P4].
  pose proof (el_term _ _ _ step_elects) as Ht. split; cbn.
  - split; [done..|]. intros Hl. by destruct (P4 Hl).
  - destruct (av_log _ _ _ _ Hav) as [->|[-> _]]; lia.
  - intros Hs. rewrite (av_candidate _ _ _ _ Hav Hs). destruct (decide (r_term r' = r_term r)) as [E|]; [|lia]. rewrite E. apply Hc.
    by apply candidate_before.
Qed.
Lemma position_later : behind (position f (entries (r_log r))) (position f (entries (r_log r'))).
Proof using All.
  destruct step_placed as [Hp He _]. pose proof (el_term _ _ _ step_elects) as Ht. pose proof (av_placed _ _ _ _ Hav) as Hp'.
  destruct (av_log _ _ _ _ Hav) as [->|[E Hlast]]; [reflexivity|]. unfold behind, position. cbn.
  rewrite <- !(based_last _ _ (pl_based _ _ Hp)), <- !(based_last _ _ (pl_based _ _ Hp')), E.
  destruct (decide (end_term 0 (entries (r_log r)) < r_term r')) as [|]; [by left|right]. split; [lia|]. apply Hlast; lia.
Qed.
(** A log that has been acknowledged ends with an entry of the term. *)
Lemma ack_ends :
  msg_type m = MsgAppend → msg_term m = r_term r' →
  (if decide (msg_entries m = []) then entries (r_log r') = entries (r_log r) else end_term 0 (entries (r_log r')) = r_term r') →
  end_term 0 (entries (r_log r')) = r_term r' ∧ t0 < r_term r'.
Proof using All.
  intros Hty Ht Hcase. destruct (Hdelivered (or_introl Hty)) as [Hin Hto].
  destruct (po_append _ _ Hpo m Hin Hty) as [(h & Hhist & _) Happ]. rewrite Ht in Hhist.
  split; [|by apply (hi_term _ _ _ Hh _ _ Hhist)]. case_decide; [|done]. rewrite Hcase.
  destruct Happ as (a0 & Ha0 & Hack & Hf & Hta & _). destruct (po_ack _ _ Hpo a0 Ha0 Hack) as [(r0 & H0 & Hle & Hb) _].
  rewrite Hf, Hto, step_node in H0. injection H0 as <-. pose proof (np_end _ step_placed). pose proof (el_term _ _ _ step_elects).
  destruct Hb as [Hb|[Hb _]]; cbn in Hb; lia.
Qed.
Lemma known_after x : x ∈ links 0 (entries (r_log r')) → known c' next_hist x.
Proof using All. intros. left. left. exists id, (set_msgs [] r'). by rewrite node_after_self. Qed.

Lemma po_ack_after a : a ∈ sent c' → is_ack a →
  (∃ r0, nodes c' !! msg_from a = Some r0 ∧ msg_term a ≤ r_term r0 ∧ behind (msg_term a, msg_index a) (position f (entries (r_log r0)))) ∧
  ∃ h n e, next_hist !! msg_term a = Some h ∧ h !! n = Some e ∧ e_term e = msg_term a ∧ msg_index a = f + Z.of_nat n.
Proof using All.
  intros Ha Hack. destruct (ack_after a Ha Hack) as [Ha0|(Hf & Ht & Hs & Hty & Hmt & Hi & Hcase)].
  - destruct (po_ack _ _ Hpo a Ha0 Hack) as [(r0 & H0 & Hle & Hb) (h & n & e & H1 & H2 & H3 & H4)]. split.
    + destruct (decide (msg_from a = id)) as [E|E]; [|exists r0; by rewrite node_after_other].
      rewrite E, step_node in H0. injection H0 as <-. exists (set_msgs [] r'). rewrite E, node_after_self. split; [done|].
      pose proof (el_term _ _ _ step_elects). split; [cbn; lia|]. etrans; [exact Hb|apply position_later].
    + destruct (hist_grows _ _ H1) as (h' & ? & Hp). exists h', n, e. split_and!; try done. by eapply prefix_lookup_Some.
  - destruct (ack_ends Hty Hmt Hcase) as [Hend Ht0]. pose proof (pl_based _ _ (av_placed _ _ _ _ Hav)) as Hb.
    pose proof (based_length _ _ Hb). pose proof (based_last _ _ Hb) as El. split.
    + exists (set_msgs [] r'). rewrite Hf, node_after_self. split; [done|]. split; [cbn; lia|]. right. cbn. rewrite Hend. lia.
    + destruct (lookup_lt_is_Some_2 (entries (r_log r')) (length (entries (r_log r')) - 1)) as [e He]; [lia|].
      assert (e_term e = r_term r') as Het by (revert Hend; unfold end_term; by rewrite last_lookup, <- Nat.sub_1_r, He).
      destruct (in_history _ _ _ history_after (entries (r_log r')) _ e (bs_contiguous _ _ Hb) known_after He ltac:(lia)) as (h & Hhe & Hsame).
      exists h, (length (entries (r_log r')) - 1)%nat, e. rewrite Ht, <- Het. split_and!; [done|by rewrite Hsame|done|lia].
Qed.

Lemma po_refusal_after g : g ∈ sent c' → is_refusal g → msg_index g = 0 ∨
  ∃ h, next_hist !! msg_term g = Some h ∧ 0 < msg_index g < f + Z.of_nat (length h) - 1.
Proof using All.
  intros [Hg|[Hrep _]]%reported_after Gg.
  - destruct (po_refusal _ _ Hpo g Hg Gg) as [?|(h & Ht & ?)]; [by left|right].
    destruct (hist_grows _ _ Ht) as (h' & ? & ?%prefix_length). exists h'. split; [done|lia].
  - destruct (rt_refusal _ _ _ _ _ Hrep Gg) as [Ht [?|(Hi & Hty & Hmt)]]; [by left|right].
    destruct (Hdelivered (or_introl Hty)) as [Hin _]. destruct (po_append _ _ Hpo m Hin Hty) as [(h & Hhist & ?) _].
    destruct (hist_grows _ _ Hhist) as (h' & Hh' & ?%prefix_length). exists h'. rewrite Ht, <- Hmt. split; [done|lia].
Qed.

Lemma po_request_after g : g ∈ sent c' → is_request g → ∃ r0, nodes c' !! msg_from g = Some r0 ∧ msg_term g ≤ r_term r0 ∧
  (r_term r0 = msg_term g → r_state r0 = Candidate → (msg_log_term g, msg_index g) = position f (entries (r_log r0))).
Proof using All.
  pose proof (el_term _ _ _ step_elects) as Hle. intros [Hg|[Hrep Hs]]%reported_after Gg.
  - destruct (po_request _ _ Hpo g Hg Gg) as (r0 & H0 & Ht & Hpos).
    destruct (decide (msg_from g = id)) as [E|E]; [|exists r0; by rewrite node_after_other].
    rewrite E, step_node in H0. injection H0 as <-. exists (set_msgs [] r'). rewrite E, node_after_self. split; [done|]. cbn.
    split; [lia|]. intros Et Hs. destruct (candidate_before Hs) as [Hsr ->]; [lia|]. apply Hpos; [lia|done].
  - destruct (rt_request _ _ _ _ _ Hrep Gg) as (Ht & _ & Hpos), (so_request _ _ _ _ Hs Gg) as [Hf _].
    exists (set_msgs [] r'). destruct step_id as [Eid _]. rewrite Hf, Eid, node_after_self. split; [done|]. cbn. split; [lia|done].
Qed.

Lemma grant_request g : reports f m r r' g → sent_ok m r r' g → is_grant g →
  m ∈ sent c ∧ is_request m ∧ msg_from g = id ∧ msg_to g = msg_from m ∧ msg_from m ≠ id ∧ msg_term g = msg_term m ∧ msg_term g = r_term r' ∧
  behind (position f (entries (r_log r))) (msg_log_term m, msg_index m).
Proof using All.
  intros Hrep Hs Gg. destruct (rt_grant _ _ _ _ _ Hrep Gg) as (Ht & _ & Hb), (so_grant _ _ _ _ Hs Gg) as (Hf & Ht' & _ & Hq & Hto & _).
  destruct step_id as [Eid _]. destruct (ef_heard _ _ _ _ _ _ Hef) as [[Hin Hid]|[? _]]; [|done].
  destruct (co_request _ _ Hok m Hin Hq) as [Hne _]. split_and!; try done; congruence.
Qed.
Lemma po_granted_after g : g ∈ sent c' → is_grant g → ∃ r0, nodes c' !! msg_to g = Some r0 ∧ msg_term g ≤ r_term r0.
Proof using All.
  intros [Hg|[Hrep Hs]]%reported_after Gg.
  - destruct (po_granted _ _ Hpo g Hg Gg) as (r0 & H0 & Ht). destruct (node_later _ _ H0) as (r1 & ? & ?). exists r1. split; [done|lia].
  - destruct (grant_request g Hrep Hs Gg) as (Hin & Hq & _ & Hto & _ & Ht & _). destruct (po_request _ _ Hpo m Hin Hq) as (r0 & H0 & Hle & _).
    rewrite Hto, Ht. destruct (node_later _ _ H0) as (r1 & ? & ?). exists r1. split; [done|lia].
Qed.
Lemma po_vote_after g a r0 : g ∈ sent c' → is_grant g → a ∈ sent c' → is_ack a → msg_from a = msg_from g → msg_term a < msg_term g →
  nodes c' !! msg_to g = Some r0 → r_term r0 = msg_term g → r_state r0 = Candidate →
  behind (msg_term a, msg_index a) (position f (entries (r_log r0))).
Proof using All.
  pose proof (el_term _ _ _ step_elects) as Hle. intros Hg Gg Ha Hack Hf Hlt H0 Ht Hs.
  destruct (ack_after a Ha Hack) as [Ha0|(Hfa & Hta & _)].
  2: { exfalso. destruct (reported_after g Hg) as [Hg0|[_ Hs']].
    - destruct (co_grant _ _ Hok g Hg0 Gg) as (rg & Hrg & _ & Hle' & _). rewrite <- Hf, Hfa, step_node in Hrg. injection Hrg as <-. lia.
    - destruct (so_grant _ _ _ _ Hs' Gg) as (_ & ? & _). lia. }
  destruct (reported_after g Hg) as [Hg0|[Hrep Hs']].
  - apply node_after in H0 as [[Hto ->]|[_ H0]]; [|by apply (po_vote _ _ Hpo g a r0)]. cbn in Ht, Hs |- *.
    destruct (po_granted _ _ Hpo g Hg0 Gg) as (rg & Hrg & Hle'). rewrite Hto, step_node in Hrg. injection Hrg as <-.
    destruct (candidate_before Hs) as [Hsr ->]; [lia|]. apply (po_vote _ _ Hpo g a r); try done; [by rewrite Hto; apply step_node|lia].
  - destruct (grant_request g Hrep Hs' Gg) as (Hin & Hq & Hfg & Hto & Hne & Htg & _ & Hb).
    destruct (po_ack _ _ Hpo a Ha0 Hack) as [(ra & Hra & _ & Hba) _]. rewrite Hf, Hfg, step_node in Hra. injection Hra as <-.
    rewrite Hto, node_after_other in H0 by done. destruct (po_request _ _ Hpo m Hin Hq) as (rq & Hrq & _ & Hpos).
    assert (rq = r0) as -> by congruence. rewrite <- Hpos; [|congruence|done]. by etrans.
Qed.

Lemma po_match_after id' r0 i p : nodes c' !! id' = Some r0 → r_state r0 = Leader → r_prs r0 !! i = Some p → match_index p ≠ 0 →
  ∃ a, a ∈ sent c' ∧ is_ack a ∧ msg_from a = i ∧ msg_term a = r_term r0 ∧ msg_index a = match_index p.
Proof using All.
  intros H0 Hl Hp Hne. assert (∀ id' r0 p, nodes c !! id' = Some r0 → r_state r0 = Leader → r_prs r0 !! i = Some p → match_index p ≠ 0 →
    ∃ a, a ∈ sent c' ∧ is_ack a ∧ msg_from a = i ∧ msg_term a = r_term r0 ∧ msg_index a = match_index p) as Hold.
  { intros id1 r1 p1 N1 L1 P1 M1. destruct (po_match _ _ Hpo _ _ _ _ N1 L1 P1 M1) as (a & ? & ?). exists a. split; [by apply kept|done]. }
  apply node_after in H0 as [[-> ->]|[_ H0]]; [|by eapply Hold]. cbn in Hl, Hp |- *.
  destruct (av_tracks _ _ _ _ Hav Hl) as [Hz|(Hs & Et & Hps)]; [by specialize (Hz _ _ Hp)|]. rewrite Et.
  destruct (Hps _ _ Hp) as [Hp0|(Hty & Hf & Ht & p0 & Hp0 & Hm)]; [by eapply Hold; [apply step_node|..]|].
  destruct (msg_reject m) eqn:Hrej; rewrite Hm in *; [by eapply Hold; [apply step_node|..]|].
  exists m. split; [by apply kept, Hdelivered; right|]. done.
Qed.
Lemma po_append_after g : g ∈ sent c' → msg_type g = MsgAppend →
  (∃ h, next_hist !! msg_term g = Some h ∧ msg_index g < f + Z.of_nat (length h)) ∧
  if decide (msg_entries g = [])
  then ∃ a, a ∈ sent c' ∧ is_ack a ∧ msg_from a = msg_to g ∧ msg_term a = msg_term g ∧ msg_index a = msg_index g
  else end_term 0 (msg_entries g) = msg_term g.
Proof using All.
  intros [Hg|[Hrep _]]%reported_after Gg.
  - destruct (po_append _ _ Hpo g Hg Gg) as [(h & Ht & ?) Hcase]. split.
    + destruct (hist_grows _ _ Ht) as (h' & ? & ?%prefix_length). exists h'. split; [done|lia].
    + case_decide; [|done]. destruct Hcase as (a & ? & ?). exists a. split; [by apply kept|done].
  - destruct (rt_append _ _ _ _ _ Hrep Gg) as (Hl & Ht & Hi & Hcase). pose proof (av_placed _ _ _ _ Hav) as Hp.
    pose proof (based_last _ _ (pl_based _ _ Hp)). pose proof (bs_first _ _ (pl_based _ _ Hp)). pose proof (based_length _ _ (pl_based _ _ Hp)). split.
    + exists (entries (r_log r')). rewrite Ht. split; [by apply next_hist_leader|lia].
    + case_decide; [|by rewrite Ht]. destruct Hcase as (p & Hpp & Hn & Hlast). destruct (pl_leads _ _ Hp Hl) as [_ _ _ Hnext Hroom].
      destruct (Hnext _ _ Hpp) as [?|[?|?]]; [lia| |lia].
      destruct (po_match_after id (set_msgs [] r') (msg_to g) p) as (a & ? & ? & ? & ? & ?); [apply node_after_self|done|done|lia|].
      exists a. split_and!; try done; [by rewrite Ht|lia].
Qed.

Lemma positions_after : positions_ok c' next_hist.
Proof using All.
  split.
  - intros id' r0 [[-> ->]|[_ H0]]%node_after; [apply placed_after|by eapply po_node].
  - apply po_ack_after.
  - apply po_refusal_after.
  - apply po_request_after.
  - apply po_granted_after.
  - apply po_vote_after.
  - apply po_append_after.
  - apply po_match_after.
Qed.
End step.

(** ** Runs *)

(** No node follows a message that is older than itself, the log has room for
    what a message brings, and the appends of a leader come in order. *)
Definition in_turn r m : Prop := not_stale r m ∧ spacious r m ∧ in_order r m.
Lemma in_turn_orderly r m : in_turn r m → orderly r m.
Proof. intros (H1 & H2 & _). split; [done|]. unfold spacious in H2. unfold room. lia. Qed.

Record run_ok c (led : gmap Z Z) hist : Prop := {
  ru_cluster : cluster_ok members c;
  ru_led : led_ok members c led;
  ru_logs : logs_ok f t0 c led;
  ru_history : history_ok c led hist;
  ru_positions : positions_ok c hist;
}.

Section runs.
Context (Hsize : (2 ≤ size members)%nat) (Hzero : 0 ≤ t0).

Lemma proper_delivered c led hist r m :
  run_ok c led hist → m ∈ sent c → nodes c !! msg_to m = Some r → in_turn r m → r_term r < u64_max → proper r m.
Proof using Hsize Hzero.
  intros [Hok Hled Hlogs Hh Hpo] Hin Hr (Hns & Hsp & Ho) Ht. destruct (po_node _ _ Hpo _ _ Hr) as [Hp He _].
  pose proof (no_term _ _ _ _ (co_node _ _ Hok _ _ Hr)). destruct (lo_sent _ _ _ _ Hlogs _ Hin) as [Hsn Happ].
  pose proof (based_last _ _ (pl_based _ _ Hp)) as El. pose proof (bs_first _ _ (pl_based _ _ Hp)). pose proof (based_length _ _ (pl_based _ _ Hp)).
  split; try done.
  - intros Hs. destruct (lo_term _ _ _ _ Hlogs _ _ Hr) as [_ Hpos]. specialize (Hpos Hs). lia.
  - by eapply peers_some.
  - split.
    + intros Hty Hne. destruct (po_append _ _ Hpo m Hin Hty) as [_ Hc]. by rewrite decide_False in Hc.
    + intros Hack Hl Hterm. destruct (po_ack _ _ Hpo m Hin Hack) as [_ (h & n & e & Hhist & Hn & _ & Hi)].
      rewrite Hterm, (hi_leader _ _ _ Hh _ _ Hr Hl) in Hhist. injection Hhist as <-. apply lookup_lt_Some in Hn. lia.
    + intros Href Hl Hterm. destruct (po_refusal _ _ Hpo m Hin Href) as [->|(h & Hhist & Hi)].
      { destruct (hi_elected _ _ _ Hh _ _ (hi_leader _ _ _ Hh _ _ Hr Hl)) as (n & V & []). lia. }
      rewrite Hterm, (hi_leader _ _ _ Hh _ _ Hr Hl) in Hhist. injection Hhist as <-. lia.
Qed.

Lemma net_step_stride c c' led hist :
  run_ok c led hist → net_step in_turn c c' → ∃ id r r' m, c' = after id r' c ∧ stride c id r r' m.
Proof using Hsize Hzero.
  intros Hrun Hstep. pose proof Hrun as [Hok Hled Hlogs Hh Hpo].
  destruct (net_step_effect f t0 members in_turn _ _ _ in_turn_orderly Hok Hlogs Hsize Hstep) as (id & r & r' & m & -> & Hu & Htk & Hef).
  exists id, r, r', m. split; [done|]. pose proof (ef_node _ _ _ _ _ _ Hef) as Hr. destruct (po_node _ _ Hpo _ _ Hr) as [Hp He _].
  pose proof (no_term _ _ _ _ (co_node _ _ Hok _ _ Hr)) as H0. pose proof (no_id _ _ _ _ (co_node _ _ Hok _ _ Hr)) as Hid.
  assert (r_state r ≠ Follower → 0 < r_term r) as Hrole.
  { intros Hs. destruct (lo_term _ _ _ _ Hlogs _ _ Hr) as [_ H1]. specialize (H1 Hs). lia. }
  assert (r_prs r ≠ ∅) as Hpeers by (by eapply peers_some).
  assert (local_type MsgHup ∧ local_type MsgPropose) as (L1 & L2) by (unfold local_type; split_and!; first [done|by intros []]).
  assert (msg_type m = MsgAppend ∨ msg_type m = MsgAppendResponse → m ∈ sent c ∧ msg_to m = id) as Hdel.
  { intros Hty. destruct Htk as [k Hin Hto _ _|k ->|k es -> _| ->]; [done|by destruct Hty..]. }
  split; [done| |done|].
  - destruct Htk as [k Hin Hto HP Hmt|k ->|k es -> HP| ->].
    + apply advances_step; [done| |done]. eapply proper_delivered; try done. by rewrite Hto.
    + apply advances_step; [done| |done]. by apply (proper_local f).
    + apply advances_step; [done| |done]. apply (proper_local f); try done. intros _. apply HP.
    + apply advances_tick; try done. eapply heard_pre; [done..|]. right. by apply harmless_local.
  - intros Hl Et. destruct (rp_log _ _ _ _ (ef_replicates _ _ _ _ _ _ Hef)) as [->|[[Hty _]|(_ & ?)]]; [| |done].
    + exists []. rewrite app_nil_r. split; [done|by apply Forall_nil].
    + exists []. destruct Htk as [k Hin Hto HP Hmt|k ->|k es -> HP| ->]; try done.
      rewrite app_nil_r. rewrite leader_keeps by done. split; [done|by apply Forall_nil].
Qed.

Lemma net_step_run c c' led hist :
  run_ok c led hist → net_step in_turn c c' →
  (∀ g, g ∈ sent c → g ∈ sent c') ∧
  ∃ led' hist', run_ok c' led' hist' ∧ ∀ t h, hist !! t = Some h → ∃ h', hist' !! t = Some h' ∧ h `prefix_of` h'.
Proof using All.
  intros Hrun Hstep. destruct (net_step_stride _ _ _ _ Hrun Hstep) as (id & r & r' & m & -> & [Hef Hav Hdel Hgr]).
  destruct Hrun as [Hok Hled Hlogs Hh Hpo]. split; [apply kept|]. pose proof Hef as [].
  destruct (led_after f t0 members c id r r' m Hok ef_node ef_heard ef_elects Hsize ef_type led Hled) as (led' & H1 & H2 & H3).
  exists led', (next_hist r' hist). split; [|by eapply hist_grows]. split.
  - by eapply after_ok.
  - done.
  - by eapply logs_after.
  - by eapply history_after.
  - by eapply positions_after.
Qed.
Lemma runs_ok c c' led hist :
  run_ok c led hist → rtc (net_step in_turn) c c' →
  (∀ g, g ∈ sent c → g ∈ sent c') ∧
  ∃ led' hist', run_ok c' led' hist' ∧ ∀ t h, hist !! t = Some h → ∃ h', hist' !! t = Some h' ∧ h `prefix_of` h'.
Proof using All.
  intros Hrun Hsteps. revert led hist Hrun. induction Hsteps as [c|c1 c2 c3 Hstep _ IH]; intros led hist Hrun.
  { split; [done|]. exists led, hist. split; [done|]. eauto. }
  destruct (net_step_run _ _ _ _ Hrun Hstep) as [Hs (led2 & hist2 & Hrun2 & Hg)].
  destruct (IH _ _ Hrun2) as [Hs' (led3 & hist3 & Hrun3 & Hg')]. split; [auto|]. exists led3, hist3. split; [done|].
  intros t h (h2 & H2 & P2)%Hg. destruct (Hg' _ _ H2) as (h3 & ? & ?). exists h3. split; [done|]. by etrans.
Qed.
End runs.
End commitment.

Section completeness.
Context `{prof : BuildProfile} `{order : HashOrder} `{rand : RandomSource}.
Context (f t0 : Z) (members : gset Z).
Implicit Types (r : Raft) (c : cluster).

(** The logs of the nodes at the start match, their terms do not fall, and
    nothing is committed behind their ends. *)
Definition well_placed_logs c : Prop :=
  well_founded_logs f t0 c ∧
  ∀ id r, nodes c !! id = Some r → committed (r_log r) ≤ last_index (r_log r) ∧
    ∀ x, x ∈ links 0 (entries (r_log r)) → x.1 ≤ e_term x.2.

Lemma start_run c :
  0 ≤ t0 → starts members c → well_placed_logs c → agree (linked c) (linked c) ∧ run_ok f t0 members (linked c) c ∅ ∅.
Proof.
  intros Hzero Hs [Hw Hp]. destruct (start_logs f t0 members c Hs Hw) as [Hled Hlogs].
  pose proof (starts_ok _ _ Hs) as Hok. destruct Hs as (Hsent & _ & Hn), Hw as [Hw _]. split; [by apply (lo_agree _ _ _ _ Hlogs)|].
  assert (∀ x, known c ∅ x → ∃ id r, nodes c !! id = Some r ∧ x ∈ links 0 (entries (r_log r))) as Hk.
  { intros x [[?|(g & Hg & _)]|(t & h & Ht & _)]; [done| |by rewrite lookup_empty in Ht]. rewrite Hsent in Hg. by apply not_elem_of_nil in Hg. }
  split; [done|done|done| |].
  - split; try (intros t h Ht; by rewrite lookup_empty in Ht).
    + intros id r Hr Hl. destruct (Hn _ _ Hr) as (_ & _ & _ & _ & Hs & _). congruence.
    + intros [q e] (id & r & Hr & Hx)%Hk. left. split; [|left; by exists id, r]. destruct (Hw _ _ Hr) as (_ & _ & Ht).
      apply links_in in Hx. by eapply (proj1 (Forall_forall _ _)) in Ht.
    + intros x (id & r & Hr & Hx)%Hk. by apply (Hp _ _ Hr).
  - split; try (intros g Hg; rewrite Hsent in Hg; by apply not_elem_of_nil in Hg).
    + intros id r Hr. destruct (Hn _ _ Hr) as (_ & _ & H0 & _ & Hs & _), (Hw _ _ Hr) as ([Hb Hpe] & Ht & Hf), (Hp _ _ Hr) as [Hc _].
      split; [split; [done..|congruence]| |congruence].
      unfold end_term. destruct (last (entries (r_log r))) as [e|] eqn:E; [|done]. cbn.
      etrans; [|exact Ht]. eapply (proj1 (Forall_forall _ _) Hf). rewrite last_lookup in E. by eapply list_elem_of_lookup_2.
    + intros g a r Hg. rewrite Hsent in Hg. by apply not_elem_of_nil in Hg.
    + intros id r i p Hr Hl. destruct (Hn _ _ Hr) as (_ & _ & _ & _ & Hs & _). congruence.
Qed.

(** The leader [r] may commit [i], by the rule of [maybe_commit]. *)
Definition commits r (i : Z) : Prop :=
  r_state r = Leader ∧ (quorum r ≤ acked i r)%nat ∧ ∃ e, entry_at (r_log r) i = Some e ∧ e_term e = r_term r.

Lemma acked_size r i : acked i r = size (dom (filter (λ v, i ≤ match_index v.2) (r_prs r))).
Proof.
  unfold acked. rewrite filter_fmap_length, size_dom.
  rewrite <- length_map_to_list, map_filter_alt, map_to_list_to_map; [done|].
  eapply NoDup_fmap_fst; [|apply NoDup_filter, NoDup_map_to_list].
  intros p v v' [_ H]%list_elem_of_filter [_ H']%list_elem_of_filter. apply elem_of_map_to_list in H, H'. congruence.
Qed.
Lemma commits_majority origin c led hist id r i :
  run_ok f t0 members origin c led hist → nodes c !! id = Some r → commits r i → 1 ≤ i → committed_at members c (r_term r) i.
Proof.
  intros [Hok _ _ _ Hpo] Hr (Hl & Hq & _) Hi. destruct (co_node _ _ Hok _ _ Hr).
  set (V := dom (filter (λ v, i ≤ match_index v.2) (r_prs r))). assert (V ⊆ dom (r_prs r)) as HV by (apply dom_filter_subseteq).
  exists V. rewrite no_peers in HV. split; [set_solver|]. split.
  - rewrite acked_size in Hq. fold V in Hq.
    assert (size (r_prs r) = size members - 1)%nat as E.
    { rewrite <- size_dom, no_peers, size_difference, size_singleton; [done|set_solver]. }
    unfold quorum in Hq. rewrite E in Hq.
    pose proof (Nat.div_mod_eq (size members - 1 + 1) 2). pose proof (Nat.mod_upper_bound (size members - 1 + 1) 2). lia.
  - intros p [pr [Hp Hm]%map_lookup_filter_Some]%elem_of_dom. cbn in Hm.
    destruct (po_match _ _ _ Hpo id r p pr Hr Hl Hp) as (a & ? & ? & ? & ? & Hidx); [lia|]. exists a. split_and!; try done. lia.
Qed.

(** C14: What a leader has committed stays: once a leader may commit an index, by
    the rule of [maybe_commit], all leaders of later terms, and itself, have the
    same entries up to it, however the network loses and delays messages and
    whoever is elected.  The provisos: at the start the logs match and have
    one first index with a committed entry; no candidate or leader is handed a
    message that it follows although the message is of an older term; the
    appends of one leader reach a node in the order in which they were sent, as
    far as they are not lost; and the indices stay below the largest [u64]. *)
Theorem leader_completeness c0 c c' id id' r r' i :
  (2 ≤ size members)%nat → 0 ≤ t0 → starts members c0 → well_placed_logs c0 →
  rtc (net_step in_turn) c0 c → rtc (net_step in_turn) c c' →
  nodes c !! id = Some r → commits r i →
  nodes c' !! id' = Some r' → r_state r' = Leader → r_term r ≤ r_term r' →
  ∀ j, j ≤ i → entry_at (r_log r') j = entry_at (r_log r) j.
Proof.
  intros Hsize Hzero Hs Hw Hrun Hrun' Hr Hc Hr' Hl' Ht j Hj.
  destruct (start_run _ Hzero Hs Hw) as [Ha H0].
  destruct (runs_ok f t0 members _ Ha Hsize Hzero _ _ _ _ H0 Hrun) as [_ (led & hist & Hok & _)].
  destruct (runs_ok f t0 members _ Ha Hsize Hzero _ _ _ _ Hok Hrun') as [Hsent (led' & hist' & Hok' & Hgrow)].
  pose proof (ru_history _ _ _ _ _ _ _ Hok') as Hh'. pose proof (hi_leader _ _ _ _ _ _ _ Hh' _ _ Hr' Hl') as Hhist'.
  destruct (lo_sound _ _ _ _ (ru_logs _ _ _ _ _ _ _ Hok) _ _ Hr) as [Hb _], (lo_sound _ _ _ _ (ru_logs _ _ _ _ _ _ _ Hok') _ _ Hr') as [Hb' _].
  pose proof Hc as (Hl & _ & e & He & Het). pose proof (bs_first _ _ Hb).
  destruct (Z.lt_ge_cases i f) as [|Hi]; [by rewrite (entry_at_below f) in He|].
  destruct (Z.lt_ge_cases j f); [by rewrite !(entry_at_below f)|].
  destruct (Hgrow _ _ (hi_leader _ _ _ _ _ _ _ (ru_history _ _ _ _ _ _ _ Hok) _ _ Hr Hl)) as (h & Hhist & Hp).
  set (n := Z.to_nat (i - f)). assert (i = f + Z.of_nat n) as Ei by lia. rewrite Ei, (entry_at_based f) in He by done.
  assert (j = f + Z.of_nat (Z.to_nat (j - f))) as Ej by lia. rewrite Ej, !(entry_at_based f) by done.
  assert (entries (r_log r') !! Z.to_nat (j - f) = h !! Z.to_nat (j - f)) as ->.
  2: { destruct (lookup_lt_is_Some_2 (entries (r_log r)) (Z.to_nat (j - f))) as [x Hx]; [apply lookup_lt_Some in He; lia|].
    rewrite Hx. by eapply prefix_lookup_Some. }
  destruct (decide (r_term r = r_term r')) as [Et|]; [rewrite Et in Hhist; congruence|].
  eapply (committed_contained f t0 members _ Ha c' led' hist' Hh' (r_term r) h n e); [done|by eapply prefix_lookup_Some|done| | |done|lia]; [|lia].
  rewrite <- Ei. destruct (commits_majority _ _ _ _ _ _ _ Hok Hr Hc) as (V & HV1 & HV2 & HV3); [lia|].
  exists V. split; [done|]. split; [done|]. intros p (a & ? & ?)%HV3. exists a. split; [by apply Hsent|done].
Qed.
End completeness.

Lemma run_app `{BuildProfile} `{HashOrder} `{RandomSource} (deliverable : Raft → Message → Prop) {dec : ∀ r m, Decision (deliverable r m)} l1 l2 c :
  run deliverable c (l1 ++ l2) = run deliverable c l1 ≫= λ c', run deliverable c' l2.
Proof. revert c. induction l1 as [|a l1 IH]; intros c; [done|]. cbn. by destruct (act _ c a); [apply IH|]. Qed.
(** A run and a longer one. *)
Lemma run_twice `{BuildProfile} `{HashOrder} `{RandomSource} (deliverable : Raft → Message → Prop) {dec : ∀ r m, Decision (deliverable r m)} l1 l2 c0 c c' :
  run deliverable c0 l1 = Some c → run deliverable c0 (l1 ++ l2) = Some c' →
  rtc (net_step deliverable) c0 c ∧ rtc (net_step deliverable) c c'.
Proof. rewrite run_app. intros E. rewrite E. intros E'. split; by eapply run_steps. Qed.

(** ** Three nodes to evaluate on *)

#[local] Existing Instance map_order.
#[local] Existing Instance low_rng.
#[local] Instance debug_build : BuildProfile := true.

#[export] Instance in_turn_dec `{rand : RandomSource} (r : Raft) (m : Message) : Decision (in_turn r m).
Proof. unfold in_turn, spacious, in_order. apply _. Defined.

Lemma settled_placed : well_placed_logs 1 2 settled_three.
Proof.
  split; [apply settled_logs|]. intros id r [-> _]%settled_cases. split; [done|]. intros x Hx.
  cbn in Hx. repeat (apply elem_of_cons in Hx as [->|Hx]; [done|]). by apply not_elem_of_nil in Hx.
Qed.

(** Node 1 leads term 3, and two appends for each of the others are under way,
    the second with one entry more. *)
Definition two_appends : list action := [Campaign 1; Deliver 0; Deliver 2; Propose 1 [Entry_new_normal 0 0 []]].
(** All come in order and are acknowledged; then node 2 is elected. *)
Definition acknowledged : list action :=
  two_appends ++ [Deliver 3; Deliver 4; Deliver 5; Deliver 6; Deliver 9; Deliver 10].
Definition then_elected : list action := [Campaign 2; Deliver 11; Deliver 13; Deliver 14].
(** The second append comes first and is acknowledged; then the first one comes,
    and node 2 is elected. *)
Definition overtaken : list action := two_appends ++ [Deliver 5; Deliver 6; Deliver 7; Deliver 8].
Definition cut_off : list action := [Deliver 3; Deliver 4; Campaign 2; Deliver 11; Deliver 13; Deliver 14; Deliver 16].

(** Two appends that change places on their way to the followers make a cluster
    lose an entry that its leader has committed: the late one cuts the entry off
    the logs of nodes that have acknowledged it, and they elect a leader that
    does not have it. *)
Theorem committed_entry_lost :
  ∃ c c' r r', rtc (net_step orderly) settled_three c ∧ rtc (net_step orderly) c c' ∧
    nodes c !! 1 = Some r ∧ commits r 5 ∧ committed (r_log r) = 5 ∧
    nodes c' !! 2 = Some r' ∧ r_state r' = Leader ∧ r_term r < r_term r' ∧ entry_at (r_log r') 5 ≠ entry_at (r_log r) 5.
Proof.
  destruct (run orderly settled_three overtaken) as [c|] eqn:E; [|by vm_compute in E].
  destruct (run orderly settled_three (overtaken ++ cut_off)) as [c'|] eqn:E'; [|by vm_compute in E'].
  destruct (run_twice _ _ _ _ _ _ E E') as [Hrun Hrun']. exists c, c'.
  assert (∃ r r', nodes c !! 1 = Some r ∧ commits r 5 ∧ committed (r_log r) = 5 ∧
    nodes c' !! 2 = Some r' ∧ r_state r' = Leader ∧ r_term r < r_term r' ∧ entry_at (r_log r') 5 ≠ entry_at (r_log r) 5) as (r & r' & H).
  { clear Hrun Hrun'. vm_compute in E, E'. simplify_eq. do 2 eexists.
    split; [vm_compute; reflexivity|]. split; [|split; [vm_compute; reflexivity|]].
    - split; [done|]. split; [vm_compute; lia|]. eexists. split; [vm_compute; reflexivity|done].
    - split; [vm_compute; reflexivity|]. split; [done|]. split; [done|]. by vm_compute. }
  exists r, r'. split; [exact Hrun|]. split; [exact Hrun'|]. exact H.
Qed.

Lemma leader_completeness_witness :
  ∃ c c' r r', rtc (net_step in_turn) settled_three c ∧ rtc (net_step in_turn) c c' ∧
    nodes c !! 1 = Some r ∧ committed (r_log r) = 5 ∧ nodes c' !! 2 = Some r' ∧ r_state r' = Leader ∧ r_term r < r_term r' ∧
    ∀ j, j ≤ 5 → entry_at (r_log r') j = entry_at (r_log r) j.
Proof.
  destruct (run in_turn settled_three acknowledged) as [c|] eqn:E; [|by vm_compute in E].
  destruct (run in_turn settled_three (acknowledged ++ then_elected)) as [c'|] eqn:E'; [|by vm_compute in E'].
  destruct (run_twice _ _ _ _ _ _ E E') as [Hrun Hrun'].
  assert (∃ r r', nodes c !! 1 = Some r ∧ committed (r_log r) = 5 ∧ commits r 5 ∧ nodes c' !! 2 = Some r' ∧ r_state r' = Leader ∧ r_term r < r_term r')
    as (r & r' & N & Hc & Hcm & N' & Hl' & Ht).
  { clear Hrun Hrun'. vm_compute in E, E'. simplify_eq. do 2 eexists.
    split; [vm_compute; reflexivity|]. split; [vm_compute; reflexivity|]. split; [|split; [vm_compute; reflexivity|done]].
    split; [done|]. split; [vm_compute; lia|]. eexists. split; [vm_compute; reflexivity|done]. }
  exists c, c', r, r'. split; [done|]. split; [done|]. split; [done|]. split; [done|]. split; [done|]. split; [done|]. split; [done|].
  assert (2 ≤ size ({[1%Z; 2%Z; 3%Z]} : gset Z))%nat as Hsize by (vm_compute; lia).
  apply (leader_completeness 1 2 {[ 1; 2; 3 ]} settled_three c c' 1 2 r r' 5 Hsize ltac:(lia) settled_starts settled_placed Hrun Hrun' N Hcm N' Hl').
  lia.
Defined.
