(* ===== verification/RawNode.v ===== *)
(** The driver interface of Raft, src/raft/rawnode.rs: proposals, the gate for
    network messages, the Ready / Advance protocol and membership changes. *)

From stdpp Require Import sorting.
From S2P Require Import Prelude Bytes RaftTypes RaftLog Raft.

Record SoftState := mkSoftState { ss_lead : Z; ss_raft_state : StateType }.
#[export] Instance SoftState_eq_dec : EqDecision SoftState.
Proof. solve_decision. Defined.

Definition SoftState_is_updated (s other : SoftState) : bool :=
  bool_decide (ss_lead s ≠ ss_lead other) || bool_decide (ss_raft_state s ≠ ss_raft_state other).

Record Ready := mkReady {
  rd_soft_state : option SoftState;
  rd_hard_state : HardState;
  rd_entries : list Entry;
  rd_snapshot : option Snapshot;
  rd_committed_entries : list Entry;
  rd_messages : list Message;
  rd_must_sync : bool;
}.

Definition is_some {A} (o : option A) : bool := match o with Some _ => true | None => false end.
Definition is_nil {A} (l : list A) : bool := match l with [] => true | _ => false end.

Definition Ready_has_ready (rd : Ready) : bool :=
  is_some (rd_soft_state rd)
  || negb (HardState_is_empty (rd_hard_state rd))
  || negb (is_nil (rd_entries rd))
  || is_some (rd_snapshot rd)
  || negb (is_nil (rd_committed_entries rd))
  || negb (is_nil (rd_messages rd)).

Section rawnode.
Context `{prof : BuildProfile} `{order : HashOrder} `{rand : RandomSource}.

Record RawNode := mkRawNode {
  rn_raft : Raft;
  rn_prev_soft_state : SoftState;
  rn_prev_hard_state : HardState;
  rn_prev_stabled : Z;
  rn_prev_applied : Z;
}.

Definition set_raft (r : Raft) (n : RawNode) : RawNode :=
  mkRawNode r (rn_prev_soft_state n) (rn_prev_hard_state n) (rn_prev_stabled n) (rn_prev_applied n).

(** A call of a method of [self.raft]. *)
Definition on_raft {A} (f : M Raft A) : M RawNode A := λ n,
  let '(o, r) := f (rn_raft n) in (o, set_raft r n).

Definition soft_state_of (r : Raft) : SoftState :=
  {| ss_lead := r_lead r; ss_raft_state := r_state r |}.
Definition hard_state_of (r : Raft) : HardState :=
  {| hs_term := r_term r; hs_vote := r_vote r; hs_commit := committed (r_log r) |}.

Definition RawNode_new (config : RaftConfig) (g : rng) : outcome RawNode :=
  r ← Raft_new config g;
  Ok {| rn_raft := r; rn_prev_soft_state := soft_state_of r;
        rn_prev_hard_state := hard_state_of r; rn_prev_stabled := stabled (r_log r);
        rn_prev_applied := applied (r_log r) |}.

Definition rn_tick : M RawNode unit := on_raft tick.

Definition rn_campaign : M RawNode unit :=
  n ← get; on_raft (step (local_message MsgHup (r_id (rn_raft n)) [])).

Definition propose (data : bytes) : M RawNode unit :=
  n ← get;
  on_raft (step (local_message MsgPropose (r_id (rn_raft n))
                   [Entry_new_normal (r_term (rn_raft n)) 0 data])).

(** [serialize] is [bincode::serialize] of a configuration change. *)
Definition propose_conf_change (serialize : ConfChange → outcome bytes) (cc : ConfChange) : M RawNode unit :=
  n ← get;
  data ← lift (serialize cc);
  on_raft (step (local_message MsgPropose (r_id (rn_raft n))
                   [Entry_new_conf_change (r_term (rn_raft n)) 0 data])).

Definition rn_step (m : Message) : M RawNode unit :=
  if is_local (msg_type m) then raise "cannot step local message"
  else
    n ← get;
    if is_response (msg_type m) && bool_decide (r_prs (rn_raft n) !! msg_from m = None)
    then raise "peer not found"
    else on_raft (step m).

Definition ready : M RawNode Ready :=
  n ← get;
  let r := rn_raft n in
  let l := r_log r in
  let soft := if SoftState_is_updated (soft_state_of r) (rn_prev_soft_state n)
              then Some (soft_state_of r) else None in
  let hard_changed := negb (HardState_is_empty (hard_state_of r))
                      && bool_decide (hard_state_of r ≠ rn_prev_hard_state n) in
  let hard := if hard_changed then hard_state_of r
              else {| hs_term := 0; hs_vote := 0; hs_commit := 0 |} in
  es ← lift (unstable_entries l);
  let snap := active_snapshot l in
  committed_es ← (if applied l <? committed l then lift (next_entries l) else mret []);
  modify (set_raft (set_msgs [] r));;
  mret {| rd_soft_state := soft; rd_hard_state := hard; rd_entries := es;
          rd_snapshot := snap; rd_committed_entries := committed_es;
          rd_messages := r_msgs r; rd_must_sync := hard_changed || is_some snap |}.

Definition has_ready (n : RawNode) : bool :=
  let r := rn_raft n in
  let l := r_log r in
  SoftState_is_updated (soft_state_of r) (rn_prev_soft_state n)
  || (negb (HardState_is_empty (hard_state_of r))
      && bool_decide (hard_state_of r ≠ rn_prev_hard_state n))
  || (stabled l <? last_index l)
  || is_some (active_snapshot l)
  || (applied l <? committed l)
  || negb (is_nil (r_msgs r)).

(** The updates of [advance], in its order. *)
Definition advance_soft (rd : Ready) (n : RawNode) : RawNode :=
  match rd_soft_state rd with
  | Some s => mkRawNode (rn_raft n) s (rn_prev_hard_state n) (rn_prev_stabled n) (rn_prev_applied n)
  | None => n
  end.
Definition advance_hard (rd : Ready) (n : RawNode) : RawNode :=
  if HardState_is_empty (rd_hard_state rd) then n
  else mkRawNode (rn_raft n) (rn_prev_soft_state n) (rd_hard_state rd) (rn_prev_stabled n)
         (rn_prev_applied n).
Definition update_log (f : RaftLog → RaftLog) (n : RawNode) : RawNode :=
  set_raft (set_log (f (r_log (rn_raft n))) (rn_raft n)) n.
Definition set_prev (s a : Z) (n : RawNode) : RawNode :=
  mkRawNode (rn_raft n) (rn_prev_soft_state n) (rn_prev_hard_state n) s a.
Definition advance_entries (rd : Ready) (n : RawNode) : RawNode :=
  match last (rd_entries rd) with
  | Some e => update_log (set_stabled (e_index e)) (set_prev (e_index e) (rn_prev_applied n) n)
  | None => n
  end.
Definition advance_applied (rd : Ready) (n : RawNode) : RawNode :=
  match last (rd_committed_entries rd) with
  | Some e => update_log (set_applied (e_index e)) (set_prev (rn_prev_stabled n) (e_index e) n)
  | None => n
  end.
Definition advance_snapshot (rd : Ready) (n : RawNode) : RawNode :=
  match rd_snapshot rd with
  | Some s =>
      if Snapshot_is_empty s then n
      else update_log (λ l, (take_pending_snapshot (set_applied (snap_index s)
                              (set_stabled (snap_index s) l))).2)
             (set_prev (snap_index s) (snap_index s) n)
  | None => n
  end.
Definition advance (rd : Ready) (n : RawNode) : RawNode :=
  advance_snapshot rd (advance_applied rd (advance_entries rd (advance_hard rd (advance_soft rd n)))).

Definition apply_conf_change (cc : ConfChange) : M RawNode ConfState :=
  on_raft match cc_type cc with
          | AddNode => add_node (cc_node_id cc)
          | RemoveNode => remove_node (cc_node_id cc)
          end;;
  n ← get;
  mret {| cs_nodes := merge_sort Z.le (r_id (rn_raft n) :: hash_keys (r_prs (rn_raft n))) |}.

Definition get_progress (n : RawNode) : option (gmap Z Progress) :=
  if decide (r_state (rn_raft n) ≠ Leader) then None else Some (r_prs (rn_raft n)).

Definition transfer_leader (transferee : Z) : M RawNode unit :=
  n ← get;
  if decide (r_state (rn_raft n) ≠ Leader) then raise "not leader"
  else if transferee =? r_id (rn_raft n) then mret tt
  else if decide (r_prs (rn_raft n) !! transferee = None) then raise "transferee not found"
  else on_raft (step (set_msg_to transferee (local_message MsgTransferLeader (r_id (rn_raft n)) []))).

(** ** Properties *)

Implicit Types (n : RawNode) (m : Message).

(** The gate for network messages.  Local message types and responses of
    nodes that are not peers are refused with an error and leave the node as
    it is; any other message is a step of the Raft machine. *)
Theorem rn_step_gate m n :
  if is_local (msg_type m)
     || (is_response (msg_type m) && bool_decide (r_prs (rn_raft n) !! msg_from m = None))
  then ∃ e, rn_step m n = (Err e, n)
  else rn_step m n = ((step m (rn_raft n)).1, set_raft (step m (rn_raft n)).2 n).
Proof.
  unfold rn_step. destruct (is_local (msg_type m)); cbn [orb]; [by eexists|].
  rewrite (M_bind_run get _ _ _ _ eq_refl).
  destruct (_ && _); [by eexists|]. unfold on_raft. by destruct (step m (rn_raft n)).
Qed.

(** The index of the last entry in memory, which is the last index of the log
    but for a pending snapshot. *)
Definition end_index (l : RaftLog) : Z := first_of l + Z.of_nat (length (entries l)) - 1.

(** The states of a node between two calls: the layout of src/raft/log.rs, with
    a pending snapshot, which counts as applied, or without one, and with
    entries behind it or without. *)
Record ready_pre n : Prop := {
  rp_contiguous : contiguous (first_of (r_log (rn_raft n))) (entries (r_log (rn_raft n)));
  rp_first : 1 ≤ first_of (r_log (rn_raft n)) ≤ applied (r_log (rn_raft n)) + 1;
  rp_committed : applied (r_log (rn_raft n)) ≤ committed (r_log (rn_raft n)) ≤ end_index (r_log (rn_raft n));
  rp_stabled : first_of (r_log (rn_raft n)) - 1 ≤ stabled (r_log (rn_raft n)) ≤ end_index (r_log (rn_raft n));
  rp_bound : end_index (r_log (rn_raft n)) < u64_max;
  rp_snapshot : ∀ s, active_snapshot (r_log (rn_raft n)) = Some s → applied (r_log (rn_raft n)) = snap_index s;
}.

(** The log is committed to its end, and not yet applied. *)
Definition all_committed (l : RaftLog) : Prop := applied l < committed l ∧ committed l = end_index l.
#[export] Instance all_committed_dec l : Decision (all_committed l).
Proof. unfold all_committed. apply _. Defined.

Lemma first_of_no_snapshot l :
  active_snapshot l = None →
  first_of l = match entries l with e :: _ => e_index e | [] => stabled l + 1 end.
Proof. unfold first_of. by intros ->. Qed.
Lemma last_index_end l :
  contiguous (first_of l) (entries l) →
  last_index l = match active_snapshot l with Some s => first_of l - 1 | None => end_index l end.
Proof.
  intros Hc. destruct (active_snapshot l) as [s|] eqn:E.
  - unfold last_index, first_of. rewrite E. lia.
  - by apply last_index_wf.
Qed.

Lemma log_wf_ready n :
  log_wf (r_log (rn_raft n)) →
  first_of (r_log (rn_raft n)) - 1 ≤ stabled (r_log (rn_raft n)) ≤ last_index (r_log (rn_raft n)) → ready_pre n.
Proof.
  intros Hw. pose proof (last_index_end _ (wf_contiguous _ Hw)) as E. rewrite (wf_no_snapshot _ Hw) in E.
  rewrite E. intros Hs. destruct Hw. rewrite E in *. split; auto with lia. congruence.
Qed.

Lemma offset_after_ready n i :
  ready_pre n → first_of (r_log (rn_raft n)) - 1 ≤ i ≤ end_index (r_log (rn_raft n)) →
  offset_after i (r_log (rn_raft n)) = Ok (i - first_of (r_log (rn_raft n)) + 1).
Proof.
  intros [Hc Hf Hco Hs Hb _] Hi. set (l := r_log (rn_raft n)) in *.
  assert (first_index l = Ok (first_of l)) as Hfirst.
  { unfold end_index in *. unfold first_index, first_of in *. destruct (active_snapshot l).
    - apply u64_add_ok. unfold is_u64. lia.
    - destruct (entries l); [|done]. apply u64_add_ok. unfold is_u64. cbn in *. lia. }
  unfold offset_after. rewrite Hfirst. cbn [mbind outcome_bind].
  destruct (Z.leb_spec (first_of l) i); [|f_equal; lia].
  rewrite u64_sub_ok by (unfold is_u64; lia). cbn [mbind outcome_bind].
  rewrite u64_add_ok by (unfold is_u64; lia). done.
Qed.

(** The unstable entries, and the entries that are committed and not applied. *)
Lemma unstable_run n :
  ready_pre n →
  unstable_entries (r_log (rn_raft n))
  = Ok (drop (Z.to_nat (stabled (r_log (rn_raft n)) - first_of (r_log (rn_raft n)) + 1))
             (entries (r_log (rn_raft n)))).
Proof.
  intros Hp. pose proof (rp_stabled _ Hp) as Hs. unfold unstable_entries.
  rewrite offset_after_ready by done. cbn [mbind outcome_bind]. unfold end_index in Hs.
  unfold zslice. rewrite decide_True by lia. f_equal. apply take_ge. rewrite length_drop. lia.
Qed.

Lemma next_run n :
  ready_pre n →
  next_entries (r_log (rn_raft n)) =
    if decide (committed (r_log (rn_raft n)) = end_index (r_log (rn_raft n))) then Panic
    else Ok (take (Z.to_nat (committed (r_log (rn_raft n)) - applied (r_log (rn_raft n)) + 1))
              (drop (Z.to_nat (applied (r_log (rn_raft n)) - first_of (r_log (rn_raft n)) + 1))
                 (entries (r_log (rn_raft n))))).
Proof.
  intros Hp. pose proof (rp_first _ Hp). pose proof (rp_committed _ Hp).
  unfold next_entries. rewrite !offset_after_ready by (done || lia). cbn [mbind outcome_bind].
  unfold end_index in *. unfold zslice_incl, zslice. rewrite Z.min_l by lia. destruct (decide (committed _ = _)).
  - rewrite decide_False by lia. done.
  - rewrite decide_True by lia. repeat f_equal. lia.
Qed.

Definition committed_run n : list Entry :=
  let l := r_log (rn_raft n) in
  if applied l <? committed l
  then take (Z.to_nat (committed l - applied l + 1))
            (drop (Z.to_nat (applied l - first_of l + 1)) (entries l))
  else [].

Lemma ready_run n :
  ready_pre n → ¬ all_committed (r_log (rn_raft n)) →
  ∃ rd, ready n = (Ok rd, set_raft (set_msgs [] (rn_raft n)) n) ∧
    rd_entries rd = drop (Z.to_nat (stabled (r_log (rn_raft n)) - first_of (r_log (rn_raft n)) + 1))
                         (entries (r_log (rn_raft n))) ∧
    rd_committed_entries rd = committed_run n ∧ rd_snapshot rd = active_snapshot (r_log (rn_raft n)) ∧
    rd_messages rd = r_msgs (rn_raft n) ∧
    rd_soft_state rd = (if SoftState_is_updated (soft_state_of (rn_raft n)) (rn_prev_soft_state n)
                        then Some (soft_state_of (rn_raft n)) else None) ∧
    rd_hard_state rd = (if negb (HardState_is_empty (hard_state_of (rn_raft n)))
                           && bool_decide (hard_state_of (rn_raft n) ≠ rn_prev_hard_state n)
                        then hard_state_of (rn_raft n) else mkHardState 0 0 0).
Proof.
  intros Hp Hc. unfold ready. rewrite (M_bind_run get _ _ _ _ eq_refl), (unstable_run n Hp).
  rewrite (M_bind_run (lift _) _ _ _ _ eq_refl).
  rewrite (M_bind_run _ _ n (committed_run n) n).
  2: { unfold committed_run. destruct (Z.ltb_spec (applied (r_log (rn_raft n))) (committed (r_log (rn_raft n)))); [|done].
       rewrite next_run, decide_False by (done || (by intros ?; apply Hc)). done. }
  rewrite (M_bind_run (modify _) _ _ _ _ eq_refl). by eexists.
Qed.

Lemma negb_is_nil {A} (l : list A) : negb (is_nil l) = (0 <? Z.of_nat (length l)).
Proof. by destruct l. Qed.

(** [has_ready] and [ready] agree: where [ready] does not panic, its
    result carries an update exactly when [has_ready] had announced one. *)
Theorem has_ready_agrees n :
  ready_pre n → ¬ all_committed (r_log (rn_raft n)) →
  ∃ rd n', ready n = (Ok rd, n') ∧ Ready_has_ready rd = has_ready n.
Proof.
  intros Hp Hc. destruct (ready_run n Hp Hc) as (rd & Hr & E1 & E2 & E3 & E4 & E5 & E6).
  exists rd, (set_raft (set_msgs [] (rn_raft n)) n). split; [done|].
  destruct Hp as [Hcont Hf Hco Hs Hb Hsa]. pose proof (last_index_end _ Hcont) as Hl.
  unfold Ready_has_ready, has_ready. rewrite E1, E2, E3, E4, E5, E6.
  assert (∀ b (x : SoftState), is_some (if b : bool then Some x else None) = b) as Esoft
    by (by intros []).
  assert (negb (HardState_is_empty (if negb (HardState_is_empty (hard_state_of (rn_raft n)))
      && bool_decide (hard_state_of (rn_raft n) ≠ rn_prev_hard_state n)
      then hard_state_of (rn_raft n) else mkHardState 0 0 0)) =
    negb (HardState_is_empty (hard_state_of (rn_raft n)))
      && bool_decide (hard_state_of (rn_raft n) ≠ rn_prev_hard_state n)) as Ehard.
  { destruct (HardState_is_empty (hard_state_of (rn_raft n))) eqn:Hh; [done|].
    cbn [negb andb]. case_bool_decide; [by rewrite Hh|done]. }
  assert (negb (is_nil (committed_run n))
    = (applied (r_log (rn_raft n)) <? committed (r_log (rn_raft n)))) as Ecom.
  { unfold committed_run, end_index in *.
    destruct (applied (r_log (rn_raft n)) <? committed (r_log (rn_raft n))) eqn:Ha; [|done].
    rewrite negb_is_nil, length_take, length_drop. apply Z.ltb_lt. apply Z.ltb_lt in Ha. lia. }
  rewrite Esoft, Ehard, Ecom. destruct (active_snapshot (r_log (rn_raft n))) as [sn|] eqn:Esn; cbn [is_some].
  { by rewrite !orb_true_r, !orb_true_l. }
  do 4 f_equal. rewrite negb_is_nil, length_drop, Hl. unfold end_index in *.
  apply eq_true_iff_eq. rewrite !Z.ltb_lt. lia.
Qed.

Lemma last_index_of_drop f (i : nat) es :
  contiguous f es → (i ≤ length es)%nat →
  match last (drop i es) with
  | Some e => e_index e = f + Z.of_nat (length es) - 1
  | None => i = length es
  end.
Proof.
  intros Hc Hi. destruct (last (drop i es)) as [e|] eqn:E.
  - rewrite (contiguous_last _ _ _ (contiguous_drop f i es Hi Hc) E), length_drop. lia.
  - apply last_None, (f_equal length) in E. rewrite length_drop in E. cbn in E. lia.
Qed.

Lemma committed_run_last n :
  ready_pre n → ¬ all_committed (r_log (rn_raft n)) →
  match last (committed_run n) with
  | Some e => applied (r_log (rn_raft n)) < committed (r_log (rn_raft n)) ∧
              e_index e = committed (r_log (rn_raft n)) + 1
  | None => committed (r_log (rn_raft n)) ≤ applied (r_log (rn_raft n))
  end.
Proof.
  intros [Hcont Hf Hco Hs Hb Hsa] Hc. unfold committed_run, all_committed, end_index in *.
  set (l := r_log (rn_raft n)) in *.
  destruct (Z.ltb_spec (applied l) (committed l)); [|done].
  assert (contiguous (applied l + 1) (take (Z.to_nat (committed l - applied l + 1))
    (drop (Z.to_nat (applied l - first_of l + 1)) (entries l)))) as Hrun.
  { apply contiguous_take. replace (applied l + 1) with
      (first_of l + Z.of_nat (Z.to_nat (applied l - first_of l + 1))) by lia.
    apply contiguous_drop; [lia|done]. }
  destruct (last _) as [e|] eqn:E.
  - split; [done|]. rewrite (contiguous_last _ _ _ Hrun E), length_take, length_drop. lia.
  - apply last_None, (f_equal length) in E. rewrite length_take, length_drop in E. cbn in E. lia.
Qed.

(** [ready] panics once the whole log is committed and not yet applied,
    the state every entry reaches on its way. *)
Lemma ready_stuck n : ready_pre n → all_committed (r_log (rn_raft n)) → (ready n).1 = Panic.
Proof.
  intros Hp [Ha Hc]. unfold ready. rewrite (M_bind_run get _ _ _ _ eq_refl), (unstable_run n Hp).
  rewrite (M_bind_run (lift _) _ _ _ _ eq_refl).
  by rewrite (proj2 (Z.ltb_lt _ _) Ha), next_run, decide_True by done.
Qed.
Theorem ready_panics_when_all_committed n :
  ready_pre n → all_committed (r_log (rn_raft n)) → (ready n).1 = Panic.
Proof. apply ready_stuck. Qed.

Lemma soft_updated_refl x : SoftState_is_updated x x = false.
Proof. unfold SoftState_is_updated. by rewrite !bool_decide_eq_false_2 by auto. Qed.

(** Once the soft and the hard state of a [Ready] are acknowledged, neither
    counts as changed. *)
Lemma advance_states n rd :
  rd_soft_state rd = (if SoftState_is_updated (soft_state_of (rn_raft n)) (rn_prev_soft_state n)
                      then Some (soft_state_of (rn_raft n)) else None) →
  rd_hard_state rd = (if negb (HardState_is_empty (hard_state_of (rn_raft n)))
                         && bool_decide (hard_state_of (rn_raft n) ≠ rn_prev_hard_state n)
                      then hard_state_of (rn_raft n) else mkHardState 0 0 0) →
  let n1 := advance_hard rd (advance_soft rd (set_raft (set_msgs [] (rn_raft n)) n)) in
  rn_raft n1 = set_msgs [] (rn_raft n) ∧
  SoftState_is_updated (soft_state_of (rn_raft n)) (rn_prev_soft_state n1) = false ∧
  negb (HardState_is_empty (hard_state_of (rn_raft n)))
    && bool_decide (hard_state_of (rn_raft n) ≠ rn_prev_hard_state n1) = false.
Proof.
  intros E5 E6 n1. unfold n1, advance_hard, advance_soft. split_and!.
  - by repeat case_match.
  - rewrite E5. destruct (SoftState_is_updated _ _) eqn:Hu.
    + destruct (HardState_is_empty (rd_hard_state rd)); apply soft_updated_refl.
    + by destruct (HardState_is_empty (rd_hard_state rd)).
  - rewrite E6. destruct (HardState_is_empty (hard_state_of (rn_raft n))) eqn:He; [done|].
    cbn [negb andb]. case_bool_decide as Hd.
    + rewrite He. cbn. by rewrite bool_decide_eq_false_2 by auto.
    + cbn. destruct (rd_soft_state rd); by rewrite bool_decide_eq_false_2 by auto.
Qed.

(** The log after one [ready] and [advance]. *)
Record log_advanced (l l' : RaftLog) : Prop := {
  la_entries : entries l' = entries l;
  la_committed : committed l' = committed l;
  la_snapshot : active_snapshot l' = None;
  la_stabled : stabled l' = last_index l;
  la_applied : applied l' = match active_snapshot l with
                            | Some s => snap_index s
                            | None => if applied l <? committed l then committed l + 1 else applied l
                            end;
}.

Lemma active_not_empty l s : active_snapshot l = Some s → Snapshot_is_empty s = false.
Proof. unfold active_snapshot. by repeat case_match; intros [= <-]. Qed.

Lemma advance_log n rd n1 :
  ready_pre n → ¬ all_committed (r_log (rn_raft n)) →
  rd_entries rd = drop (Z.to_nat (stabled (r_log (rn_raft n)) - first_of (r_log (rn_raft n)) + 1))
                       (entries (r_log (rn_raft n))) →
  rd_committed_entries rd = committed_run n → rd_snapshot rd = active_snapshot (r_log (rn_raft n)) →
  rn_raft n1 = set_msgs [] (rn_raft n) →
  let n2 := advance_snapshot rd (advance_applied rd (advance_entries rd n1)) in
  rn_prev_soft_state n2 = rn_prev_soft_state n1 ∧ rn_prev_hard_state n2 = rn_prev_hard_state n1 ∧
  ∃ l', rn_raft n2 = set_log l' (set_msgs [] (rn_raft n)) ∧ log_advanced (r_log (rn_raft n)) l'.
Proof.
  intros Hp Hc E1 E2 E3 Eraft n2. pose proof (committed_run_last n Hp Hc) as Hrun.
  destruct Hp as [Hcont Hf Hco Hs Hb Hsa]. pose proof (last_index_end _ Hcont) as Hl. unfold end_index in *.
  assert (Z.to_nat (stabled (r_log (rn_raft n)) - first_of (r_log (rn_raft n)) + 1)
    ≤ length (entries (r_log (rn_raft n))))%nat as Hlen by lia.
  pose proof (last_index_of_drop _ _ _ Hcont Hlen) as Hst.
  unfold n2, advance_snapshot, advance_applied, advance_entries. rewrite E1, E2, E3.
  destruct (active_snapshot (r_log (rn_raft n))) as [sn|] eqn:Esn.
  - rewrite (active_not_empty _ _ Esn).
    assert (last_index (r_log (rn_raft n)) = snap_index sn) as Hsn by (unfold last_index; by rewrite Esn).
    destruct (last (drop _ _)); destruct (last (committed_run n)); cbn; rewrite ?Eraft; cbn.
    all: split_and!; [done..|]; eexists; split; [done|]; split; cbn; rewrite ?Esn; done.
  - assert (active_snapshot (r_log (rn_raft n)) = None) as Esn' by done. unfold active_snapshot in Esn'.
    destruct (last (drop _ _)) as [e|]; destruct (last (committed_run n)) as [e'|]; cbn; rewrite ?Eraft; cbn.
    all: split_and!; [done..|]; exists (set_applied (match active_snapshot (r_log (rn_raft n)) with
      | Some s => snap_index s
      | None => if applied (r_log (rn_raft n)) <? committed (r_log (rn_raft n)) then committed (r_log (rn_raft n)) + 1
                else applied (r_log (rn_raft n)) end) (set_stabled (last_index (r_log (rn_raft n))) (r_log (rn_raft n)))).
    all: rewrite Esn, Hl; split; [|by split; cbn; rewrite ?Esn, ?Hl].
    + destruct Hrun as [Ha ->]. by rewrite Hst, (proj2 (Z.ltb_lt _ _) Ha).
    + by rewrite Hst, (proj2 (Z.ltb_ge _ _) Hrun).
    + destruct Hrun as [Ha ->]. rewrite (proj2 (Z.ltb_lt _ _) Ha).
      replace (first_of _ + _ - 1) with (stabled (r_log (rn_raft n))) by lia. done.
    + rewrite (proj2 (Z.ltb_ge _ _) Hrun).
      replace (first_of _ + _ - 1) with (stabled (r_log (rn_raft n))) by lia.
      by destruct (rn_raft n) as [???[]].
Qed.

(** One turn of the driver's loop. *)
Lemma ready_turn_run n :
  ready_pre n → ¬ all_committed (r_log (rn_raft n)) →
  ∃ rd n', ready n = (Ok rd, n') ∧
    ∃ l', rn_raft (advance rd n') = set_log l' (set_msgs [] (rn_raft n)) ∧ log_advanced (r_log (rn_raft n)) l' ∧
      has_ready (advance rd n') = (stabled l' <? last_index l') || (applied l' <? committed l').
Proof.
  intros Hp Hc. destruct (ready_run n Hp Hc) as (rd & Hr & E1 & E2 & E3 & E4 & E5 & E6).
  exists rd, (set_raft (set_msgs [] (rn_raft n)) n). split; [done|].
  destruct (advance_states n rd E5 E6) as (Eraft & Esoft & Ehard). unfold advance.
  set (n1 := advance_hard rd (advance_soft rd _)) in *.
  destruct (advance_log n rd n1 Hp Hc E1 E2 E3 Eraft) as (Eps & Eph & l' & El & Hadv).
  exists l'. split; [done|]. split; [done|]. unfold has_ready. rewrite Eps, Eph, El.
  change (soft_state_of (set_log _ _)) with (soft_state_of (rn_raft n)).
  replace (hard_state_of (set_log l' (set_msgs [] (rn_raft n)))) with (hard_state_of (rn_raft n))
    by (unfold hard_state_of; cbn; by rewrite (la_committed _ _ Hadv)).
  rewrite Esoft, Ehard. cbn [orb r_log set_log r_msgs set_msgs is_nil negb].
  by rewrite (la_snapshot _ _ Hadv), !orb_false_r.
Qed.

(** The applied index runs ahead of the commit index.  When [ready] hands
    out entries to apply it hands out the entry behind the commit index too,
    and [advance] then records it as applied: afterwards
    [applied = committed + 1]. *)
Theorem advance_applies_uncommitted n :
  ready_pre n → active_snapshot (r_log (rn_raft n)) = None →
  applied (r_log (rn_raft n)) < committed (r_log (rn_raft n)) < end_index (r_log (rn_raft n)) →
  ∃ rd n', ready n = (Ok rd, n') ∧
    applied (r_log (rn_raft (advance rd n'))) = committed (r_log (rn_raft n)) + 1 ∧
    committed (r_log (rn_raft (advance rd n'))) = committed (r_log (rn_raft n)).
Proof.
  intros Hp Hsn Ha. destruct (ready_turn_run n Hp) as (rd & n' & Hr & l' & El & Hadv & _); [unfold all_committed; lia|].
  exists rd, n'. split; [done|]. rewrite El. cbn. rewrite (la_applied _ _ Hadv), (la_committed _ _ Hadv), Hsn.
  by rewrite (proj2 (Z.ltb_lt _ _) (proj1 Ha)).
Qed.

Lemma advanced_last l l' :
  contiguous (first_of l) (entries l) → log_advanced l l' →
  last_index l' = match entries l with [] => last_index l | _ => end_index l end.
Proof.
  intros Hc [E1 E2 E3 E4 E5]. unfold last_index at 1. rewrite E3, E1. destruct (last (entries l)) as [e|] eqn:E.
  - rewrite (contiguous_last _ _ _ Hc E). unfold end_index. by destruct (entries l).
  - apply last_None in E as ->. done.
Qed.

Lemma turn_rests n :
  ready_pre n → ¬ all_committed (r_log (rn_raft n)) →
  active_snapshot (r_log (rn_raft n)) = None ∨ entries (r_log (rn_raft n)) = [] →
  ∃ rd n', ready n = (Ok rd, n') ∧ has_ready (advance rd n') = false.
Proof.
  intros Hp Hc Hor. destruct (ready_turn_run n Hp Hc) as (rd & n' & Hr & l' & El & Hadv & Hh). exists rd, n'.
  split; [done|]. rewrite Hh. destruct Hp as [Hcont Hf Hco Hs Hb Hsa].
  rewrite (advanced_last _ _ Hcont Hadv). pose proof (last_index_end _ Hcont) as Hl.
  destruct Hadv as [E1 E2 E3 E4 E5]. rewrite E2, E4, E5. unfold end_index in *.
  apply orb_false_intro; apply Z.ltb_ge.
  - destruct Hor as [Hn| ->]; [|done]. rewrite Hn in Hl. by destruct (entries _); rewrite Hl.
  - destruct (active_snapshot (r_log (rn_raft n))) as [sn|] eqn:Esn.
    + destruct Hor as [?|Hn]; [done|]. rewrite Hn in *. unfold first_of in Hco. rewrite Esn in Hco. cbn in Hco. lia.
    + case_match eqn:Ha; [lia|]. by apply Z.ltb_ge in Ha.
Qed.


(** A membership change answers with the sorted list of all members, and
    the set of peers is the old one with the node added or removed; the node
    itself can be neither. *)
Theorem apply_conf_change_members cc n :
  log_wf (r_log (rn_raft n)) → r_state (rn_raft n) ≠ Leader ∨ cc_type cc = AddNode →
  ∃ cs n', apply_conf_change cc n = (Ok cs, n') ∧
    dom (r_prs (rn_raft n')) =
      (if decide (cc_node_id cc = r_id (rn_raft n)) then dom (r_prs (rn_raft n))
       else match cc_type cc with
            | AddNode => {[ cc_node_id cc ]} ∪ dom (r_prs (rn_raft n))
            | RemoveNode => dom (r_prs (rn_raft n)) ∖ {[ cc_node_id cc ]}
            end) ∧
    Sorted Z.le (cs_nodes cs) ∧
    ∀ p, p ∈ cs_nodes cs ↔ p = r_id (rn_raft n) ∨ p ∈ dom (r_prs (rn_raft n')).
Proof.
  intros Hw Hr. set (r := rn_raft n) in *.
  assert (∃ ps, on_raft (match cc_type cc with
      | AddNode => add_node (cc_node_id cc)
      | RemoveNode => remove_node (cc_node_id cc)
      end) n = (Ok tt, set_raft (set_prs ps r) n) ∧
    dom ps = (if decide (cc_node_id cc = r_id r) then dom (r_prs r)
       else match cc_type cc with
            | AddNode => {[ cc_node_id cc ]} ∪ dom (r_prs r)
            | RemoveNode => dom (r_prs r) ∖ {[ cc_node_id cc ]}
            end)) as (ps & Hrun & Hdom).
  { unfold on_raft. fold r.
    assert (set_prs (r_prs r) r = r) as Hself by (by destruct r).
    destruct (cc_type cc).
    - unfold add_node. rewrite (M_bind_run get _ _ _ _ eq_refl). case_decide.
      { exists (r_prs r). by rewrite Hself. }
      case_decide as Hin.
      { exists (r_prs r). rewrite Hself. split; [done|].
        apply elem_of_dom in Hin. set_solver. }
      pose proof (wf_bound _ Hw). pose proof (wf_first _ Hw).
      pose proof (last_index_wf _ (wf_no_snapshot _ Hw) (wf_contiguous _ Hw)).
      rewrite u64_add_ok by (unfold is_u64; lia). rewrite (M_bind_run (lift _) _ _ _ _ eq_refl).
      eexists. split; [done|]. by rewrite dom_insert_L.
    - unfold remove_node. rewrite (M_bind_run get _ _ _ _ eq_refl). case_decide.
      { exists (r_prs r). by rewrite Hself. }
      rewrite (M_bind_run (modify _) _ _ _ _ eq_refl), (M_bind_run get _ _ _ _ eq_refl).
      destruct Hr as [Hr|?]; [|done]. rewrite decide_False by done.
      eexists. split; [done|]. by rewrite dom_delete_L. }
  unfold apply_conf_change. rewrite (M_bind_run _ _ _ _ _ Hrun), (M_bind_run get _ _ _ _ eq_refl).
  eexists _, _. split; [done|]. cbn [rn_raft set_raft r_prs r_id set_prs cs_nodes].
  split_and!; [done|apply (Sorted_merge_sort _); apply _|].
  intros p. rewrite merge_sort_Permutation, elem_of_cons, elem_of_hash_keys, elem_of_dom. done.
Qed.
End rawnode.

(** ** A node to evaluate on *)

#[local] Existing Instance map_order.
#[local] Existing Instance low_rng.
#[local] Instance debug_build : BuildProfile := true.

Definition sample_node (l : RaftLog) : RawNode (rand := low_rng) :=
  let r := {| r_id := 1; r_term := 3; r_vote := NONE; r_log := l;
              r_prs := {[ 2 := mkProgress 3 4; 3 := mkProgress 3 4 ]}; r_state := Follower;
              r_votes := ∅; r_msgs := []; r_lead := 2; r_heartbeat_timeout := 1;
              r_election_timeout := 5; r_heartbeat_elapsed := 0; r_election_elapsed := 0;
              r_random_election_timeout := 5; r_rng := () |} in
  {| rn_raft := r; rn_prev_soft_state := mkSoftState NONE Follower;
     rn_prev_hard_state := mkHardState 2 0 0; rn_prev_stabled := 2; rn_prev_applied := 1 |}.

Lemma sample_ready_pre : ready_pre (sample_node sample_log).
Proof. apply log_wf_ready; [exact sample_log_wf|by split; vm_compute]. Qed.

Lemma has_ready_agrees_witness :
  ∃ rd n', ready (sample_node sample_log) = (Ok rd, n') ∧
    Ready_has_ready rd = has_ready (sample_node sample_log) ∧
    has_ready (sample_node sample_log) = true.
Proof.
  destruct (has_ready_agrees (sample_node sample_log) sample_ready_pre) as (rd & n' & H1 & H2);
    [by intros [_ H]; vm_compute in H|].
  exists rd, n'. split; [exact H1|]. split; [exact H2|by vm_compute].
Defined.

Lemma advance_applies_uncommitted_witness :
  ∃ rd n', ready (sample_node sample_log) = (Ok rd, n') ∧
    applied (r_log (rn_raft (advance rd n'))) = 3 ∧
    committed (r_log (rn_raft (advance rd n'))) = 2.
Proof. refine (advance_applies_uncommitted (sample_node sample_log) sample_ready_pre _ _); by vm_compute. Defined.

Lemma ready_panics_when_all_committed_witness :
  (ready (sample_node (set_committed 3 sample_log))).1 = Panic.
Proof.
  apply (ready_panics_when_all_committed (sample_node (set_committed 3 sample_log)));
    [apply log_wf_ready; [solve_log_wf|by split; vm_compute]|by split; vm_compute].
Defined.

(** A snapshot up to index 7 has been received, with nothing behind it, and
    with two entries behind it. *)
Definition sample_snapshot : Snapshot := mkSnapshot [] (mkSnapshotMetadata (mkConfState [1; 2; 3]) 7 2).
Definition installed (es : list Entry) : RaftLog := mkRaftLog no_storage 7 7 7 es (Some sample_snapshot).
Definition behind : list Entry := [Entry_new_normal 3 8 []; Entry_new_normal 3 9 []].
Example snapshot_installed : apply_snapshot sample_log sample_snapshot = Ok (installed []).
Proof. reflexivity. Qed.
Example entries_behind : append (installed []) behind = Ok (installed behind).
Proof. reflexivity. Qed.

Ltac solve_installed :=
  split; [apply contiguousb_sound; vm_compute; reflexivity|by split; vm_compute..|by vm_compute|by intros s [= <-]].
Lemma installed_ready : ready_pre (sample_node (installed [])).
Proof. solve_installed. Qed.
Lemma behind_ready : ready_pre (sample_node (installed behind)).
Proof. solve_installed. Qed.


Lemma apply_conf_change_members_witness :
  ∃ cs n', apply_conf_change (mkConfChange RemoveNode 2 []) (sample_node sample_log) = (Ok cs, n') ∧
    Sorted Z.le (cs_nodes cs) ∧ cs_nodes cs = [1; 3].
Proof.
  edestruct (apply_conf_change_members (mkConfChange RemoveNode 2 []) (sample_node sample_log)
    sample_log_wf) as (cs & n' & H1 & _ & H2 & _); [left; discriminate|].
  exists cs, n'. split; [exact H1|]. split; [exact H2|].
  assert (cs_nodes <$> (apply_conf_change (mkConfChange RemoveNode 2 []) (sample_node sample_log)).1
    = Ok [1; 3]) as E by (vm_compute; reflexivity).
  rewrite H1 in E. injection E as E. exact E.
Defined.
