(* ===== verification/MultiLevelKey.v ===== *)
(** The two-level keys of src/util/multi_level_key.rs: a length-prefixed
    primary key (a region id), a separator and the user's secondary key. *)

From S2P Require Import Prelude Bytes.

Definition SEPARATOR : byte := Byte.xff.

(** [primary_key.len() as u32] wraps around beyond 32 bits. *)
Definition encode_multi_level_key (primary_key secondary_key : bytes) : bytes :=
  u32_to_be_bytes (Z.of_nat (length primary_key) mod 2 ^ 32)
    ++ primary_key ++ [SEPARATOR] ++ secondary_key.

Definition decode_multi_level_key (encoded_key : bytes) : outcome (bytes * bytes) :=
  if (length encoded_key <? 5)%nat then Err "Encoded key too short"
  else
    let pk_len := Z.to_nat (from_be (take 4 encoded_key)) in
    if (length encoded_key <? 5 + pk_len)%nat then Err "Invalid encoded key format"
    else
      primary_key ← slice 4 (4 + pk_len) encoded_key;
      bad ← (if (length encoded_key <? 5 + pk_len + 1)%nat then Ok true
             else b ← index encoded_key (4 + pk_len); Ok (bool_decide (b ≠ SEPARATOR)));
      if bad : bool then Err "Invalid separator in encoded key"
      else
        secondary_key ← slice (5 + pk_len) (length encoded_key) encoded_key;
        Ok (primary_key, secondary_key).

Definition primary_key_from_region_id (region_id : Z) : bytes := u64_to_be_bytes region_id.

Definition region_id_from_primary_key (primary_key : bytes) : outcome Z :=
  if decide (length primary_key ≠ 8%nat) then Err "Invalid primary key length for region_id"
  else Ok (from_be primary_key).

#[global] Arguments decode_multi_level_key : simpl never.

(** Decoding a key of the encoded form, whatever its secondary part. *)
Lemma decode_encode pk sk :
  Z.of_nat (length pk) < 2 ^ 32 →
  decode_multi_level_key (encode_multi_level_key pk sk)
  = if decide (sk = []) then Err "Invalid separator in encoded key" else Ok (pk, sk).
Proof.
  intros Hpk. unfold encode_multi_level_key. rewrite Z.mod_small by lia.
  set (hd := u32_to_be_bytes _).
  assert (length hd = 4%nat) as Hhd by apply length_be_bytes.
  assert (Z.to_nat (from_be hd) = length pk) as Hlen.
  { unfold hd. rewrite from_be_u32; [lia|]. unfold is_u32, u32_max. lia. }
  unfold decode_multi_level_key.
  rewrite !length_app, Hhd, take_app_length' by done. cbn [length].
  rewrite Hlen.
  destruct (Nat.ltb_spec (4 + (length pk + (1 + length sk))) 5); [lia|].
  destruct (Nat.ltb_spec (4 + (length pk + (1 + length sk))) (5 + length pk)); [lia|].
  rewrite (slice_middle 4) by lia. cbn [mbind outcome_bind].
  destruct sk as [|b sk]; cbn [length].
  - by destruct (Nat.ltb_spec (4 + (length pk + (1 + 0))) (5 + length pk + 1)); [|lia].
  - destruct (Nat.ltb_spec (4 + (length pk + (1 + S (length sk)))) (5 + length pk + 1)); [lia|].
    unfold index. rewrite lookup_app_r by lia. rewrite Hhd.
    replace (4 + length pk - 4)%nat with (length pk) by lia.
    rewrite lookup_app_r, Nat.sub_diag by lia. cbn [lookup list_lookup app unwrap mbind outcome_bind].
    change (hd ++ pk ++ SEPARATOR :: b :: sk) with (hd ++ pk ++ [SEPARATOR] ++ b :: sk).
    rewrite (assoc_L (++) pk), (assoc_L (++) hd).
    rewrite slice_to_end by (rewrite !length_app, Hhd; cbn; lia). done.
Qed.

(** A two-level key decodes to the parts it was made of, for every primary
    key shorter than 2^32 bytes and every non-empty secondary key, and for a
    region id the id comes back from the primary part. *)
Theorem multi_level_key_roundtrip id sk :
  is_u64 id → sk ≠ [] →
  ∃ pk, decode_multi_level_key (encode_multi_level_key (primary_key_from_region_id id) sk)
        = Ok (pk, sk) ∧ region_id_from_primary_key pk = Ok id.
Proof.
  intros Hid Hsk. exists (primary_key_from_region_id id).
  assert (length (primary_key_from_region_id id) = 8%nat) as Hl by apply length_be_bytes.
  rewrite decode_encode, decide_False by (rewrite ?Hl; done || lia). split; [done|].
  unfold region_id_from_primary_key. rewrite Hl. cbn.
  f_equal. by apply from_be_u64.
Qed.

(** An empty secondary key is encoded but cannot be decoded: the encoder
    writes a key the decoder refuses with an error. *)
Theorem multi_level_key_empty_secondary pk :
  Z.of_nat (length pk) < 2 ^ 32 →
  ∃ e, decode_multi_level_key (encode_multi_level_key pk []) = Err e.
Proof. intros Hpk. rewrite decode_encode by done. by eexists. Qed.

(** Two-level keys of one region are ordered like their secondary keys. *)
Theorem multi_level_key_order pk a b :
  bytes_cmp (encode_multi_level_key pk a) (encode_multi_level_key pk b) = bytes_cmp a b.
Proof.
  unfold encode_multi_level_key.
  by rewrite !bytes_cmp_app_same.
Qed.

(** What the decoder accepts, the encoder produces. *)
Theorem decode_multi_level_key_sound k pk sk :
  decode_multi_level_key k = Ok (pk, sk) → encode_multi_level_key pk sk = k ∧ sk ≠ [].
Proof.
  unfold decode_multi_level_key. destruct (Nat.ltb_spec (length k) 5); [done|]. cbv zeta.
  set (n := Z.to_nat (from_be (take 4 k))).
  destruct (Nat.ltb_spec (length k) (5 + n)); [done|].
  rewrite (slice_run 4) by lia. cbn [mbind outcome_bind].
  destruct (Nat.ltb_spec (length k) (5 + n + 1)); [done|].
  destruct (lookup_lt_is_Some_2 k (4 + n)) as [c Hc]; [lia|].
  unfold index. rewrite Hc. cbn [unwrap mbind outcome_bind].
  case_bool_decide as Hsep; [done|]. rewrite Hsep in Hc.
  rewrite slice_run by lia. cbn [mbind outcome_bind].
  replace (4 + n - 4)%nat with n by lia. intros [= <- <-].
  pose proof (from_be_bound (take 4 k)) as Hb.
  rewrite length_take, Nat.min_l in Hb by lia. change (256 ^ Z.of_nat 4) with (2 ^ 32) in Hb.
  split.
  - unfold encode_multi_level_key. rewrite length_take, length_drop, Nat.min_l by lia.
    unfold n at 1. rewrite Z2Nat.id, Z.mod_small by lia.
    unfold u32_to_be_bytes. rewrite be_bytes_from by (rewrite length_take; lia).
    rewrite (take_ge (drop (5 + n) k)) by (rewrite length_drop; lia).
    rewrite <- (take_drop 4 k) at 4. f_equal.
    rewrite <- (take_drop n (drop 4 k)) at 2. f_equal. rewrite drop_drop.
    by rewrite (drop_S k SEPARATOR (4 + n) Hc).
  - intros He. apply (f_equal length) in He. rewrite length_take, length_drop in He. cbn in He. lia.
Qed.

Lemma multi_level_key_roundtrip_witness :
  ∃ pk, decode_multi_level_key (encode_multi_level_key (primary_key_from_region_id 7)
          [Byte.x61]) = Ok (pk, [Byte.x61]) ∧ region_id_from_primary_key pk = Ok 7.
Proof. apply (multi_level_key_roundtrip 7 [Byte.x61]); [by split; vm_compute|discriminate]. Defined.

Lemma multi_level_key_empty_secondary_witness :
  ∃ e, decode_multi_level_key (encode_multi_level_key [Byte.x61] []) = Err e.
Proof. apply (multi_level_key_empty_secondary [Byte.x61]). by vm_compute. Defined.
