(* ===== verification/Engine.v ===== *)
(** The engine utilities over RocksDB: column families as key prefixes
    (src/engine_util/util.rs), the prefix iterator (src/engine_util/iterator.rs)
    and the write batch with a safe point (src/engine_util/write_batch.rs).
    RocksDB itself is not part of the repository: it is a class of operations,
    with the laws its documentation states. *)

From stdpp Require Import sorting.
From S2P Require Import Prelude Bytes.

(** ** Strings *)

(** [s.as_bytes()] of a string of ASCII or UTF-8 characters. *)
Definition str_bytes (s : string) : bytes := String.list_byte_of_string s.

Definition CF_DEFAULT : string := "default".
Definition CF_WRITE : string := "write".
Definition CF_LOCK : string := "lock".

Definition is_ascii (b : byte) : bool := b2z b <? 128.
Definition in_range (b : byte) (lo hi : Z) : bool := (lo <=? b2z b) && (b2z b <=? hi).
Definition is_cont (b : byte) : bool := in_range b 128 191.

(** U+FFFD in UTF-8. *)
Definition REPLACEMENT : bytes := [Byte.xef; Byte.xbf; Byte.xbd].

(** The second byte of a three- or four-byte sequence. *)
Definition second_of_3 (b0 b1 : byte) : bool :=
  if b2z b0 =? 224 then in_range b1 160 191
  else if b2z b0 =? 237 then in_range b1 128 159
  else is_cont b1.
Definition second_of_4 (b0 b1 : byte) : bool :=
  if b2z b0 =? 240 then in_range b1 144 191
  else if b2z b0 =? 244 then in_range b1 128 143
  else is_cont b1.

(** [String::from_utf8_lossy]: valid UTF-8 stays, every maximal invalid
    sequence becomes one replacement character. *)
Fixpoint from_utf8_lossy (s : bytes) : bytes :=
  match s with
  | [] => []
  | b0 :: s1 =>
      if is_ascii b0 then b0 :: from_utf8_lossy s1
      else if in_range b0 194 223 then
        match s1 with
        | b1 :: s2 => if is_cont b1 then b0 :: b1 :: from_utf8_lossy s2
                      else REPLACEMENT ++ from_utf8_lossy s1
        | [] => REPLACEMENT
        end
      else if in_range b0 224 239 then
        match s1 with
        | b1 :: s2 =>
            if second_of_3 b0 b1 then
              match s2 with
              | b2 :: s3 => if is_cont b2 then b0 :: b1 :: b2 :: from_utf8_lossy s3
                            else REPLACEMENT ++ from_utf8_lossy s2
              | [] => REPLACEMENT
              end
            else REPLACEMENT ++ from_utf8_lossy s1
        | [] => REPLACEMENT
        end
      else if in_range b0 240 244 then
        match s1 with
        | b1 :: s2 =>
            if second_of_4 b0 b1 then
              match s2 with
              | b2 :: s3 =>
                  if is_cont b2 then
                    match s3 with
                    | b3 :: s4 => if is_cont b3 then b0 :: b1 :: b2 :: b3 :: from_utf8_lossy s4
                                  else REPLACEMENT ++ from_utf8_lossy s3
                    | [] => REPLACEMENT
                    end
                  else REPLACEMENT ++ from_utf8_lossy s2
              | [] => REPLACEMENT
              end
            else REPLACEMENT ++ from_utf8_lossy s1
        | [] => REPLACEMENT
        end
      else REPLACEMENT ++ from_utf8_lossy s1
  end.

Fixpoint starts_with (p s : bytes) : bool :=
  match p, s with
  | [], _ => true
  | x :: p', y :: s' => bool_decide (x = y) && starts_with p' s'
  | _ :: _, [] => false
  end.

Lemma starts_with_spec p s : starts_with p s = true ↔ p `prefix_of` s.
Proof.
  revert s. induction p as [|x p IH]; intros s; cbn.
  { split; [intros _; apply prefix_nil|done]. }
  destruct s as [|y s].
  { split; [done|]. by intros ?%prefix_nil_not. }
  rewrite andb_true_iff, bool_decide_eq_true, IH. split.
  - intros [-> ?]. by apply prefix_cons.
  - intros H. split; [by eapply prefix_cons_inv_1|by eapply prefix_cons_inv_2].
Qed.

(** A lossy conversion that starts with an ASCII character starts with the
    first byte of the input. *)
Lemma lossy_non_ascii b s : is_ascii b = false → ∃ c t, from_utf8_lossy (b :: s) = c :: t ∧ is_ascii c = false.
Proof.
  intros Hb. cbn [from_utf8_lossy]. rewrite Hb.
  repeat (case_match; try (eexists _, _; split; [reflexivity|first [exact Hb|reflexivity]])).
Qed.

(** For an ASCII prefix the test on the lossy string is the test on bytes. *)
Lemma starts_with_lossy p k :
  Forall (λ b, is_ascii b = true) p → starts_with p (from_utf8_lossy k) = starts_with p k.
Proof.
  intros Hp. revert k. induction Hp as [|x p Hx Hp IH]; intros k; [done|].
  destruct k as [|y k]; [done|].
  destruct (is_ascii y) eqn:Hy.
  - cbn [from_utf8_lossy]. rewrite Hy. cbn [starts_with]. by rewrite IH.
  - destruct (lossy_non_ascii y k Hy) as (c & t & -> & Hc). cbn [starts_with].
    rewrite !bool_decide_eq_false_2; [done|congruence..].
Qed.

(** ** RocksDB *)

(** An operation of [rocksdb::WriteBatch]. *)
Inductive BatchOp := BPut (key value : bytes) | BDelete (key : bytes).

Definition apply_op (m : gmap bytes bytes) (o : BatchOp) : gmap bytes bytes :=
  match o with BPut k v => <[k := v]> m | BDelete k => delete k m end.

(** The calls the code makes of [rocksdb::DB]: point reads, atomic batches and
    the entries a raw iterator created now ranges over. *)
Class RocksDB := {
  db : Type;
  db_get : db → bytes → outcome (option bytes);
  db_write : db → list BatchOp → outcome db;
  db_items : db → list (bytes * bytes);
}.

Definition key_lt (a b : bytes * bytes) : Prop := bytes_lt a.1 b.1.

Class RocksDBLaws `(rocks : RocksDB) := {
  db_view : db → gmap bytes bytes;
  db_get_view d k r : db_get d k = Ok r → r = db_view d !! k;
  db_write_view d ops d' : db_write d ops = Ok d' → db_view d' = foldl apply_op (db_view d) ops;
  db_items_sorted d : StronglySorted key_lt (db_items d);
  db_items_view d k v : (k, v) ∈ db_items d ↔ db_view d !! k = Some v;
}.

Section engine.
Context `{rocks : RocksDB}.

(** ** src/engine_util/util.rs *)

Definition key_with_cf (cf : string) (key : bytes) : bytes :=
  str_bytes cf ++ [Byte.x5f] ++ key.

Definition get_cf (d : db) (cf : string) (key : bytes) : outcome (option bytes) :=
  db_get d (key_with_cf cf key).

Definition put_cf (d : db) (cf : string) (key value : bytes) : outcome db :=
  db_write d [BPut (key_with_cf cf key) value].

Definition delete_cf (d : db) (cf : string) (key : bytes) : outcome db :=
  db_write d [BDelete (key_with_cf cf key)].

Definition exceed_end_key (current end_key : bytes) : bool :=
  match end_key with [] => false | _ :: _ => bytes_leb end_key current end.

(** ** src/engine_util/iterator.rs *)

(** A raw iterator is a position in the entries of its database: the entries
    from the current one on, none when it is not valid. *)
Record RocksDBIterator := mkIter {
  ri_entries : list (bytes * bytes);
  ri_prefix : bytes;
  ri_current : option (bytes * bytes);
  ri_raw : list (bytes * bytes);
}.

Definition update_current (it : RocksDBIterator) : RocksDBIterator :=
  let cur := match ri_raw it with
             | (k, v) :: _ => if starts_with (ri_prefix it) (from_utf8_lossy k)
                              then Some (k, v) else None
             | [] => None
             end in
  mkIter (ri_entries it) (ri_prefix it) cur (ri_raw it).

Definition set_raw (raw : list (bytes * bytes)) (it : RocksDBIterator) : RocksDBIterator :=
  mkIter (ri_entries it) (ri_prefix it) (ri_current it) raw.

Definition seek_to_first (it : RocksDBIterator) : RocksDBIterator :=
  update_current (set_raw (ri_entries it) it).

Definition RocksDBIterator_new (d : db) (prefix : string) : RocksDBIterator :=
  seek_to_first (mkIter (db_items d) (str_bytes prefix) None []).

Definition it_valid (it : RocksDBIterator) : bool :=
  match ri_current it with Some _ => true | None => false end.

(** The key and value of [item]; [CFItem::key] cuts the prefix off, and an
    invalid iterator gives an empty item. *)
Definition it_item (it : RocksDBIterator) : bytes * bytes :=
  match ri_current it with
  | Some (k, v) => (drop (length (ri_prefix it)) k, v)
  | None => ([], [])
  end.

Definition it_next (it : RocksDBIterator) : RocksDBIterator :=
  update_current (set_raw (tail (ri_raw it)) it).

Definition it_seek (key : bytes) (it : RocksDBIterator) : RocksDBIterator :=
  let seek_key := ri_prefix it ++ key in
  update_current (set_raw (drop_while (λ e, bytes_ltb e.1 seek_key) (ri_entries it)) it).

(** ** src/engine_util/write_batch.rs *)

Record WriteBatch := mkBatch {
  wb_entries : list BatchOp;
  wb_size : Z;
  wb_safe_point : Z;
  wb_safe_point_size : Z;
}.

Definition WriteBatch_new : WriteBatch := mkBatch [] 0 0 0.
Definition WriteBatch_len (wb : WriteBatch) : Z := Z.of_nat (length (wb_entries wb)).
Definition set_cf (cf : string) (key value : bytes) (wb : WriteBatch) : WriteBatch :=
  mkBatch (wb_entries wb ++ [BPut (key_with_cf cf key) value])
          (wb_size wb + (Z.of_nat (length key) + Z.of_nat (length value)))
          (wb_safe_point wb) (wb_safe_point_size wb).
Definition batch_delete_cf (cf : string) (key : bytes) (wb : WriteBatch) : WriteBatch :=
  mkBatch (wb_entries wb ++ [BDelete (key_with_cf cf key)])
          (wb_size wb + Z.of_nat (length key)) (wb_safe_point wb) (wb_safe_point_size wb).
Definition set_safe_point (wb : WriteBatch) : WriteBatch :=
  mkBatch (wb_entries wb) (wb_size wb) (Z.of_nat (length (wb_entries wb))) (wb_size wb).
Definition rollback_to_safe_point (wb : WriteBatch) : WriteBatch :=
  mkBatch (take (Z.to_nat (wb_safe_point wb)) (wb_entries wb)) (wb_safe_point_size wb)
          (wb_safe_point wb) (wb_safe_point_size wb).
Definition write_to_db (wb : WriteBatch) (d : db) : outcome db :=
  match wb_entries wb with [] => Ok d | es => db_write d es end.
Definition batch_reset (wb : WriteBatch) : WriteBatch := mkBatch [] 0 0 0.
End engine.

(** ** The prefix iterator is a cursor over its column family *)

Section cursor.

(** Between two keys with a prefix lie only keys with that prefix. *)
Lemma prefix_convex p x b y :
  bytes_leb (p ++ x) b = true → bytes_leb b (p ++ y) = true → starts_with p b = true.
Proof.
  revert b. induction p as [|c p IH]; intros b H1 H2; [done|].
  destruct b as [|d b]; [done|]. unfold bytes_leb in *. cbn in *.
  destruct (Z.compare_spec (b2z c) (b2z d)) as [E|?|?], (Z.compare_spec (b2z d) (b2z c)) as [E'|?|?];
    try done; try lia.
  apply (inj b2z) in E as <-. rewrite bool_decide_eq_true_2 by done. by apply IH.
Qed.

Definition has_prefix (p : bytes) (e : bytes * bytes) : bool := starts_with p e.1.
Definition strip (p : bytes) (e : bytes * bytes) : bytes * bytes := (drop (length p) e.1, e.2).

(** The entries of the column family with prefix [p], without the prefix. *)
Definition cf_entries (p : bytes) (items : list (bytes * bytes)) : list (bytes * bytes) :=
  strip p <$> filter (λ e, has_prefix p e = true) items.

Lemma has_prefix_app p e : has_prefix p e = true → ∃ x, e.1 = p ++ x ∧ strip p e = (x, e.2).
Proof.
  intros [x Hx]%starts_with_spec. exists x. split; [done|].
  unfold strip. by rewrite Hx, drop_app_length.
Qed.

Lemma take_while_sorted p e l :
  has_prefix p e = true → StronglySorted key_lt (e :: l) →
  take_while (has_prefix p) l = filter (λ e, has_prefix p e = true) l.
Proof.
  intros (x & Hx & _)%has_prefix_app. induction l as [|f l IH]; intros Hs; [done|].
  apply StronglySorted_cons in Hs as [He [Hf Hl]%StronglySorted_cons].
  apply Forall_cons in He as [Hef Hel].
  cbn [take_while]. rewrite filter_cons. destruct (has_prefix p f) eqn:Hpf.
  - rewrite decide_True by done. f_equal. apply IH. by constructor.
  - rewrite decide_False by done. symmetry. apply filter_none.
    intros g Hg Hpg. apply has_prefix_app in Hpg as (y & Hy & _).
    assert (has_prefix p f = true); [|congruence].
    apply (prefix_convex p x f.1 y).
    + rewrite <- Hx. apply bytes_leb_lt_or_eq. left. exact Hef.
    + rewrite <- Hy. apply bytes_leb_lt_or_eq. left.
      rewrite Forall_forall in Hf. by apply Hf.
Qed.

(** Seeking: what follows the seek position inside the prefix. *)
Lemma seek_entries p k items :
  StronglySorted key_lt items →
  strip p <$> take_while (has_prefix p) (drop_while (λ e, bytes_ltb e.1 (p ++ k)) items)
  = drop_while (λ e, bytes_ltb e.1 k) (cf_entries p items).
Proof.
  unfold cf_entries. induction items as [|e l IH]; intros Hs; [done|].
  pose proof Hs as [Hl He]%StronglySorted_inv. specialize (IH Hl).
  cbn [drop_while]. rewrite filter_cons.
  destruct (has_prefix p e) eqn:Hpe.
  - rewrite decide_True by done. destruct (has_prefix_app p e Hpe) as (x & Hx & Hstrip).
    rewrite fmap_cons, Hstrip. cbn [drop_while fst].
    assert (bytes_ltb e.1 (p ++ k) = bytes_ltb x k) as ->
      by (unfold bytes_ltb; by rewrite Hx, bytes_cmp_app_same).
    destruct (bytes_ltb x k); [exact IH|]. cbn [take_while]. rewrite Hpe, fmap_cons, Hstrip.
    by rewrite (take_while_sorted p e l).
  - rewrite decide_False by done. destruct (bytes_ltb e.1 (p ++ k)) eqn:Hlt; [exact IH|].
    cbn [take_while]. rewrite Hpe.
    assert (filter (λ e, has_prefix p e = true) l = []) as ->; [|done].
    apply filter_none. intros g Hg Hpg.
    apply has_prefix_app in Hpg as (y & Hy & _).
    assert (has_prefix p e = true); [|congruence]. apply (prefix_convex p k e.1 y).
    + by apply bytes_ltb_ge.
    + rewrite <- Hy. apply bytes_leb_lt_or_eq. left. rewrite Forall_forall in He. by apply He.
Qed.

(** The iterator [it] stands at the entries [rest] of the column family
    [all]. *)
Record stands_at (it : RocksDBIterator) (all rest : list (bytes * bytes)) : Prop := {
  sa_ascii : Forall (λ b, is_ascii b = true) (ri_prefix it);
  sa_sorted : StronglySorted key_lt (ri_entries it);
  sa_all : all = cf_entries (ri_prefix it) (ri_entries it);
  sa_rest : rest = strip (ri_prefix it) <$> take_while (has_prefix (ri_prefix it)) (ri_raw it);
  sa_current : ri_current it = match ri_raw it with
                               | e :: _ => if has_prefix (ri_prefix it) e then Some e else None
                               | [] => None
                               end;
}.

Lemma update_current_stands it all :
  Forall (λ b, is_ascii b = true) (ri_prefix it) → StronglySorted key_lt (ri_entries it) →
  all = cf_entries (ri_prefix it) (ri_entries it) →
  stands_at (update_current it) all
            (strip (ri_prefix it) <$> take_while (has_prefix (ri_prefix it)) (ri_raw it)).
Proof.
  intros Ha Hs Hall. split; try done. cbn. destruct (ri_raw it) as [|[k v] raw]; [done|].
  by rewrite starts_with_lossy.
Qed.

(** C21: The prefix iterator is a cursor.  Over the entries of a column family,
    in key order and with the prefix cut off: a fresh iterator and every seek
    stand at a suffix of them, the seek at the first key not below the one
    sought; [valid] tells whether entries are left, [item] is the first of
    them and [next] drops it, never leaving the column family. *)
Theorem RocksDBIterator_refines_cursor `{laws : RocksDBLaws} (d : db) (cf : string) it all rest k :
  Forall (λ b, is_ascii b = true) (str_bytes cf) →
  stands_at it all rest →
  (∃ rest0, stands_at (RocksDBIterator_new d cf) (cf_entries (str_bytes cf) (db_items d)) rest0) ∧
  stands_at (it_seek k it) all (drop_while (λ e, bytes_ltb e.1 k) all) ∧
  it_valid it = negb (bool_decide (rest = [])) ∧
  match rest with
  | [] => it_item it = ([], [])
  | e :: rest' => it_item it = e ∧ stands_at (it_next it) all rest'
  end.
Proof.
  intros Hcf [Ha Hs Hall Hrest Hcur]. split_and!.
  - eexists. apply update_current_stands; [done|apply db_items_sorted|done].
  - rewrite Hall, <- seek_entries by done. by apply (update_current_stands (set_raw _ it)).
  - unfold it_valid. rewrite Hcur, Hrest. destruct (ri_raw it) as [|e raw]; [done|].
    cbn [take_while]. by destruct (has_prefix (ri_prefix it) e).
  - unfold it_item, it_next. rewrite Hrest, Hcur.
    destruct (ri_raw it) as [|[k' v] raw] eqn:Hraw; [done|]. cbn [take_while].
    destruct (has_prefix (ri_prefix it) (k', v)); cbn [fmap list_fmap]; [|done].
    split; [done|]. cbn [tail]. by apply (update_current_stands (set_raw raw it)).
Qed.
End cursor.

(** ** Batches *)

Section batch.
Context `{laws : RocksDBLaws}.

(** What a sequence of calls leaves in a batch. *)
Inductive BatchCall := CallSet (cf : string) (k v : bytes) | CallDelete (cf : string) (k : bytes).
Definition call (wb : WriteBatch) (c : BatchCall) : WriteBatch :=
  match c with CallSet cf k v => set_cf cf k v wb | CallDelete cf k => batch_delete_cf cf k wb end.
Definition call_op (c : BatchCall) : BatchOp :=
  match c with
  | CallSet cf k v => BPut (key_with_cf cf k) v
  | CallDelete cf k => BDelete (key_with_cf cf k)
  end.

Lemma calls_entries cs wb :
  wb_entries (foldl call wb cs) = wb_entries wb ++ (call_op <$> cs) ∧
  wb_safe_point (foldl call wb cs) = wb_safe_point wb ∧
  wb_safe_point_size (foldl call wb cs) = wb_safe_point_size wb.
Proof.
  revert wb. induction cs as [|c cs IH]; intros wb; cbn; [by rewrite app_nil_r|].
  destruct (IH (call wb c)) as (-> & -> & ->). destruct c; cbn; by rewrite <- app_assoc.
Qed.

(** Rolling back to the safe point undoes exactly the calls made since it
    was set, entries and size alike, whatever was in the batch before. *)
Theorem rollback_to_safe_point_exact wb cs :
  rollback_to_safe_point (foldl call (set_safe_point wb) cs) = set_safe_point wb.
Proof.
  destruct (calls_entries cs (set_safe_point wb)) as (He & Hp & Hz).
  unfold rollback_to_safe_point. rewrite He, Hp, Hz. unfold set_safe_point. cbn.
  rewrite Nat2Z.id, take_app_length. done.
Qed.

(** Writing a batch applies its calls to the database in order; an empty
    batch does not touch it. *)
Theorem write_to_db_applies cs d d' :
  write_to_db (foldl call WriteBatch_new cs) d = Ok d' →
  db_view d' = foldl apply_op (db_view d) (call_op <$> cs).
Proof.
  destruct (calls_entries cs WriteBatch_new) as (He & _ & _). unfold write_to_db.
  rewrite He. cbn [wb_entries WriteBatch_new app].
  destruct (call_op <$> cs) as [|o os] eqn:E; [intros [= <-]; done|]. apply db_write_view.
Qed.
End batch.

(** ** A database to evaluate on: a finite map *)

Definition key_le (a b : bytes * bytes) : Prop := bytes_leb a.1 b.1 = true.
#[export] Instance key_le_dec : RelDecision key_le.
Proof. intros a b. unfold key_le. apply _. Defined.

#[export] Instance key_le_total : Total key_le.
Proof.
  intros a b. unfold key_le. rewrite !bytes_leb_lt_or_eq.
  destruct (bytes_lt_total a.1 b.1) as [|[|]]; auto.
Qed.

#[export] Instance key_le_trans : Transitive key_le.
Proof.
  intros a b c [H1|H1]%bytes_leb_lt_or_eq [H2|H2]%bytes_leb_lt_or_eq; apply bytes_leb_lt_or_eq.
  - left. by eapply bytes_lt_trans.
  - left. by rewrite <- H2.
  - left. by rewrite H1.
  - right. by rewrite H1.
Qed.

(** The entries of a map in key order. *)
Definition sorted_entries (m : gmap bytes bytes) : list (bytes * bytes) :=
  merge_sort key_le (map_to_list m).

Lemma elem_of_sorted_entries m k v : (k, v) ∈ sorted_entries m ↔ m !! k = Some v.
Proof. unfold sorted_entries. by rewrite merge_sort_Permutation, elem_of_map_to_list. Qed.

Lemma strictly_sorted l :
  StronglySorted key_le l → NoDup l.*1 → StronglySorted key_lt l.
Proof.
  induction l as [|e l IH]; intros Hs Hn; [constructor|].
  apply StronglySorted_cons in Hs as [He Hl]. rewrite fmap_cons in Hn.
  apply NoDup_cons in Hn as [Hne Hn]. apply StronglySorted_cons. split; [|by apply IH].
  rewrite Forall_forall in He |- *. intros f Hf. specialize (He f Hf).
  unfold key_le in He. apply bytes_leb_lt_or_eq in He as [?|Heq]; [done|].
  destruct Hne. rewrite Heq. by apply list_elem_of_fmap_2.
Qed.

Lemma sorted_entries_sorted m : StronglySorted key_lt (sorted_entries m).
Proof.
  apply strictly_sorted; unfold sorted_entries.
  - apply StronglySorted_merge_sort; apply _.
  - rewrite merge_sort_Permutation. apply NoDup_fst_map_to_list.
Qed.

Definition map_db : RocksDB :=
  {| db := gmap bytes bytes; db_get := λ d k, Ok (d !! k);
     db_write := λ d ops, Ok (foldl apply_op d ops); db_items := sorted_entries |}.

Definition map_db_laws : RocksDBLaws map_db.
Proof.
  refine {| db_view := λ d : db (RocksDB := map_db), d : gmap bytes bytes |}.
  - intros d k r [= <-]. done.
  - intros d ops d' [= <-]. done.
  - intros d. apply sorted_entries_sorted.
  - intros d k v. apply elem_of_sorted_entries.
Defined.

Section samples.
#[local] Existing Instance map_db.
#[local] Existing Instance map_db_laws.

(** Two entries of the default column family and one of the lock family. *)
Definition sample_db : db (RocksDB := map_db) :=
  foldl apply_op (∅ : gmap bytes bytes)
    [BPut (key_with_cf CF_DEFAULT [Byte.x01]) [Byte.x0a];
     BPut (key_with_cf CF_LOCK [Byte.x02]) [Byte.x0b];
     BPut (key_with_cf CF_DEFAULT [Byte.x03]) [Byte.x0c]].

Definition sample_iter : RocksDBIterator := RocksDBIterator_new (rocks := map_db) sample_db "default_".

Lemma sample_iter_stands :
  stands_at sample_iter [([Byte.x01], [Byte.x0a]); ([Byte.x03], [Byte.x0c])]
                        [([Byte.x01], [Byte.x0a]); ([Byte.x03], [Byte.x0c])].
Proof.
  split; [|exact (sorted_entries_sorted sample_db)|by vm_compute..].
  repeat constructor.
Qed.

Lemma RocksDBIterator_refines_cursor_witness :
  stands_at (it_seek [Byte.x02] sample_iter) [([Byte.x01], [Byte.x0a]); ([Byte.x03], [Byte.x0c])]
            [([Byte.x03], [Byte.x0c])].
Proof.
  refine (proj1 (proj2 (RocksDBIterator_refines_cursor (laws := map_db_laws) sample_db CF_DEFAULT
    sample_iter _ _ [Byte.x02] _ sample_iter_stands))).
  repeat constructor.
Defined.

Lemma write_to_db_applies_witness :
  db_view (RocksDBLaws := map_db_laws) (foldl apply_op sample_db
    [BDelete (key_with_cf CF_LOCK [Byte.x02])])
  = foldl apply_op sample_db (call_op <$> [CallDelete CF_LOCK [Byte.x02]]).
Proof.
  apply (write_to_db_applies (laws := map_db_laws) [CallDelete CF_LOCK [Byte.x02]] sample_db).
  reflexivity.
Defined.
End samples.
