(* ===== verification/Storage.v ===== *)
(** The storage layer: the interface of src/storage/mod.rs that the
    transaction layer is written against, the cached single-database storage
    (src/storage/standalone_storage.rs, src/storage/reader.rs) and the tiered
    storage (src/storage/tiered_storage.rs). *)

From stdpp Require Import sorting.
From S2P Require Import Prelude Bytes Codec Records Engine.

(** ** The interface *)

(** [Storage], [StorageReader] and [DBIterator].  A reader shares the state of
    its storage, so reading may change that state (caches); an iterator is a
    value of its own. *)
Class Storage := {
  sto : Type;
  iter : Type;
  sto_write : list Modify → M sto unit;
  sto_get_cf : string → bytes → M sto (option bytes);
  sto_iter_cf : string → sto → iter;
  iter_valid : iter → bool;
  iter_item : iter → bytes * bytes;
  iter_next : iter → iter;
  iter_seek : bytes → iter → iter;
}.

(** The modifications of a batch that concern a column family. *)
Definition apply_modify (cf : string) (m : gmap bytes bytes) (x : Modify) : gmap bytes bytes :=
  match x with
  | MPut k v cf' => if decide (cf' = cf) then <[k := v]> m else m
  | MDelete k cf' => if decide (cf' = cf) then delete k m else m
  end.

(** What the transaction layer relies on: column families are maps, a batch is
    atomic and applied in order, reads do not change them, and an iterator is
    a cursor over one of them in key order. *)
Class StorageLaws `(storage : Storage) := {
  cf_view : sto → string → gmap bytes bytes;
  iter_all : iter → list (bytes * bytes);
  iter_rest : iter → list (bytes * bytes);
  sto_write_ok b s s' : sto_write b s = (Ok tt, s') →
    ∀ cf, cf_view s' cf = foldl (apply_modify cf) (cf_view s cf) b;
  sto_write_err b s o s' : sto_write b s = (o, s') → o ≠ Ok tt → cf_view s' = cf_view s;
  sto_get_ok cf k s r s' : sto_get_cf cf k s = (Ok r, s') → r = cf_view s cf !! k;
  sto_get_view cf k s : cf_view (sto_get_cf cf k s).2 = cf_view s;
  iter_all_sorted cf s : StronglySorted key_lt (iter_all (sto_iter_cf cf s));
  iter_all_view cf s k v : (k, v) ∈ iter_all (sto_iter_cf cf s) ↔ cf_view s cf !! k = Some v;
  iter_seek_rest k i : iter_rest (iter_seek k i) = drop_while (λ e, bytes_ltb e.1 k) (iter_all i);
  iter_seek_all k i : iter_all (iter_seek k i) = iter_all i;
  iter_valid_rest i : iter_valid i = negb (bool_decide (iter_rest i = []));
  iter_item_rest i e l : iter_rest i = e :: l → iter_item i = e;
  iter_next_rest i e l : iter_rest i = e :: l → iter_rest (iter_next i) = l;
  iter_next_all i : iter_all (iter_next i) = iter_all i;
}.

(** A storage whose device does not fail. *)
Class ReliableStorage `(laws : StorageLaws) := {
  sto_get_total cf k s : (sto_get_cf cf k s).1 = Ok (cf_view s cf !! k);
  sto_write_total b s : (sto_write b s).1 = Ok tt;
}.

(** A storage that is a finite map per column family. *)
Definition map_storage : Storage :=
  {| sto := string → gmap bytes bytes;
     iter := (list (bytes * bytes) * list (bytes * bytes));
     sto_write := λ b s, (Ok tt, λ cf, foldl (apply_modify cf) (s cf) b);
     sto_get_cf := λ cf k s, (Ok (s cf !! k), s);
     sto_iter_cf := λ cf s, (sorted_entries (s cf), sorted_entries (s cf));
     iter_valid := λ i, match i.2 with [] => false | _ => true end;
     iter_item := λ i, match i.2 with e :: _ => e | [] => ([], []) end;
     iter_next := λ i, (i.1, tail i.2);
     iter_seek := λ k i, (i.1, drop_while (λ e, bytes_ltb e.1 k) i.1) |}.

Definition map_storage_laws : StorageLaws map_storage.
Proof.
  refine {| cf_view := λ s : sto (Storage := map_storage), s;
            iter_all := λ i : iter (Storage := map_storage), i.1;
            iter_rest := λ i : iter (Storage := map_storage), i.2 |}.
  - intros b s s' [= <-] cf. done.
  - intros b s o s' [= <- <-]. done.
  - intros cf k s r s' [= <- _]. done.
  - done.
  - intros cf s. apply sorted_entries_sorted.
  - intros cf s k v. apply elem_of_sorted_entries.
  - done.
  - done.
  - intros [a r]. by destruct r.
  - intros [a r] e l Hr. cbn in *. by rewrite Hr.
  - intros [a r] e l Hr. cbn in *. by rewrite Hr.
  - done.
Defined.

Definition map_storage_reliable : ReliableStorage map_storage_laws.
Proof. by split. Qed.

(** The effect of a batch on one key: a modification that concerns the key and
    that every modification concerning it equals decides. *)
Definition concerns (cf : string) (k : bytes) (x : Modify) : Prop :=
  Modify_cf x = cf ∧ Modify_key x = k.
#[export] Instance concerns_dec cf k x : Decision (concerns cf k x).
Proof. unfold concerns. apply _. Defined.

Lemma apply_modify_other cf m x k :
  ¬ concerns cf k x → apply_modify cf m x !! k = m !! k.
Proof.
  unfold concerns. destruct x as [k' v cf'|k' cf']; cbn; intros H; case_decide; try done.
  - rewrite lookup_insert_ne; naive_solver.
  - rewrite lookup_delete_ne; naive_solver.
Qed.

Lemma apply_modify_same cf m x k :
  concerns cf k x → apply_modify cf m x !! k = Modify_value x.
Proof.
  intros [<- <-]. destruct x as [k' v cf'|k' cf']; cbn; rewrite decide_True by done.
  - apply lookup_insert_eq.
  - apply lookup_delete_eq.
Qed.

Lemma foldl_modify_untouched cf m b k :
  (∀ x, x ∈ b → ¬ concerns cf k x) → foldl (apply_modify cf) m b !! k = m !! k.
Proof.
  revert m. induction b as [|x b IH]; intros m Hb; [done|]. cbn [foldl]. rewrite IH.
  - apply apply_modify_other, Hb. by left.
  - intros y Hy. apply Hb. by right.
Qed.

Lemma foldl_modify_touched cf m b k x :
  x ∈ b → concerns cf k x → (∀ y, y ∈ b → concerns cf k y → Modify_value y = Modify_value x) →
  foldl (apply_modify cf) m b !! k = Modify_value x.
Proof.
  intros Hx Hc. revert m. induction b as [|y b IH] using rev_ind; intros m Hall.
  { by apply not_elem_of_nil in Hx. }
  rewrite foldl_snoc. destruct (decide (concerns cf k y)) as [Hy|Hy].
  - rewrite apply_modify_same by done. apply Hall; [|done]. set_solver.
  - rewrite apply_modify_other by done. apply IH.
    + apply elem_of_app in Hx as [?|Hx]; [done|]. apply list_elem_of_singleton in Hx. congruence.
    + intros z Hz. apply Hall. set_solver.
Qed.

(** ** The LRU cache *)

(** [lru::LruCache]: which entries are evicted is its own business. *)
Class LruCache (K V : Type) := {
  lru : Type;
  lru_peek : K → lru → option V;
  lru_put : K → V → lru → lru;
  lru_pop : K → lru → lru;
  lru_clear : lru → lru;
}.
Class LruCacheLaws {K V} (cache : LruCache K V) := {
  lru_peek_put k v c : lru_peek k (lru_put k v c) = Some v;
  lru_peek_put_ne k k' v w c : k ≠ k' → lru_peek k (lru_put k' v c) = Some w → lru_peek k c = Some w;
  lru_peek_pop k c : lru_peek k (lru_pop k c) = None;
  lru_peek_pop_ne k k' w c : lru_peek k (lru_pop k' c) = Some w → lru_peek k c = Some w;
  lru_peek_clear k c : lru_peek k (lru_clear c) = None;
}.

(** A cache that never evicts. *)
Definition map_cache (V : Type) : LruCache bytes V :=
  {| lru := gmap bytes V; lru_peek := λ k c, c !! k; lru_put := λ k v c, <[k := v]> c;
     lru_pop := λ k c, delete k c; lru_clear := λ _, ∅ |}.
Definition map_cache_laws V : LruCacheLaws (map_cache V).
Proof.
  split; cbn.
  - intros. apply lookup_insert_eq.
  - intros k k' v w c Hne. by rewrite lookup_insert_ne by done.
  - intros. apply lookup_delete_eq.
  - intros k k' w c [_ ?]%lookup_delete_Some. done.
  - intros. apply lookup_empty.
Qed.

(** ** The standalone storage *)

Section standalone.
Context `{rocks : RocksDB} `{cache : !LruCache bytes bytes}.

Record StandaloneStorage := mkStandalone { sa_db : db; sa_cache : lru (K := bytes) (V := bytes) }.

(** [format!("{}:{}", cf, String::from_utf8_lossy(key))] *)
Definition cache_key (cf : string) (key : bytes) : bytes :=
  str_bytes cf ++ [Byte.x3a] ++ from_utf8_lossy key.

(** [StandaloneReader::get_cf]; [StandaloneStorage::get_cf_internal] has the
    same body. *)
Definition standalone_get_cf (cf : string) (key : bytes) : M StandaloneStorage (option bytes) :=
  s ← get;
  match lru_peek (cache_key cf key) (sa_cache s) with
  | Some value => mret (Some value)
  | None =>
      r ← lift (db_get (sa_db s) (key_with_cf cf key));
      match r with
      | Some value =>
          modify (λ s, mkStandalone (sa_db s) (lru_put (cache_key cf key) value (sa_cache s)));;
          mret (Some value)
      | None => mret None
      end
  end.

Definition standalone_iter_cf (cf : string) (s : StandaloneStorage) : RocksDBIterator :=
  RocksDBIterator_new (sa_db s) (String.append cf "_").

(** The batch operation and the cache update of a modification. *)
Definition batch_op (m : Modify) : BatchOp :=
  match m with
  | MPut k v cf => BPut (key_with_cf cf k) v
  | MDelete k cf => BDelete (key_with_cf cf k)
  end.
Definition cache_update (c : lru) (m : Modify) : lru :=
  match m with
  | MPut k v cf => lru_put (cache_key cf k) v c
  | MDelete k cf => lru_pop (cache_key cf k) c
  end.

Definition standalone_write (batch : list Modify) : M StandaloneStorage unit :=
  s ← get;
  d ← lift (db_write (sa_db s) (batch_op <$> batch));
  modify (λ s, mkStandalone d (foldl cache_update (sa_cache s) batch)).
End standalone.

Section standalone_facts.
Context `{laws : RocksDBLaws} `{claws : LruCacheLaws bytes bytes}.
Implicit Types (s : StandaloneStorage) (A : string → bytes → Prop).

(** Keys that the cache keeps apart. *)
Definition cache_injective (A : string → bytes → Prop) : Prop :=
  ∀ cf k cf' k', A cf k → A cf' k' → cache_key cf k = cache_key cf' k' → cf = cf' ∧ k = k'.

(** Keys that the database keeps apart. *)
Definition db_injective (A : string → bytes → Prop) : Prop :=
  ∀ cf k cf' k', A cf k → A cf' k' → key_with_cf cf k = key_with_cf cf' k' → cf = cf' ∧ k = k'.

(** What the cache holds for the keys [A] is what the database holds. *)
Definition coherent (A : string → bytes → Prop) s : Prop :=
  ∀ cf k v, A cf k → lru_peek (cache_key cf k) (sa_cache s) = Some v →
    db_view (sa_db s) !! key_with_cf cf k = Some v.

(** Reads of the cached storage.  On a set of keys that the cache keys
    keep apart, and with a cache that agrees with the database, a read returns
    what the database holds, changes nothing in it and leaves the cache in
    agreement. *)
Theorem standalone_get_correct A s cf k r s' :
  cache_injective A → coherent A s → A cf k → standalone_get_cf cf k s = (Ok r, s') →
  r = db_view (sa_db s) !! key_with_cf cf k ∧ sa_db s' = sa_db s ∧ coherent A s'.
Proof.
  intros Hinj Hco HA. unfold standalone_get_cf. rewrite (M_bind_run get _ _ _ _ eq_refl).
  destruct (lru_peek _ _) as [v|] eqn:Hp.
  { intros [= <- <-]. split_and!; [|done|done]. symmetry. by apply Hco. }
  unfold_M. destruct (db_get _ _) as [o| | |] eqn:Hg; try done. apply db_get_view in Hg as ->.
  destruct (db_view (sa_db s) !! _) as [v|] eqn:Hv; intros [= <- <-]; [|done].
  split_and!; [done|done|]. intros cf' k' w HA' Hw. cbn in *.
  destruct (decide (cache_key cf' k' = cache_key cf k)) as [E|Hne].
  - destruct (Hinj _ _ _ _ HA' HA E) as [-> ->]. rewrite lru_peek_put in Hw. congruence.
  - apply lru_peek_put_ne in Hw; [|done]. by apply Hco.
Qed.

Definition Modify_in (A : string → bytes → Prop) (m : Modify) : Prop := A (Modify_cf m) (Modify_key m).

Lemma coherent_update A (v : gmap bytes bytes) (c : lru) (m : Modify) :
  cache_injective A → db_injective A → Modify_in A m →
  (∀ cf k w, A cf k → lru_peek (cache_key cf k) c = Some w → v !! key_with_cf cf k = Some w) →
  ∀ cf k w, A cf k → lru_peek (cache_key cf k) (cache_update c m) = Some w →
    apply_op v (batch_op m) !! key_with_cf cf k = Some w.
Proof.
  intros Hinj Hdb Hm Hco cf k w HA Hw.
  assert (Hne : (Modify_cf m, Modify_key m) ≠ (cf, k) →
    key_with_cf (Modify_cf m) (Modify_key m) ≠ key_with_cf cf k ∧
    cache_key cf k ≠ cache_key (Modify_cf m) (Modify_key m)).
  { intros Hne. split; intros E; apply Hne.
    - by destruct (Hdb _ _ _ _ Hm HA E) as [-> ->].
    - by destruct (Hinj _ _ _ _ HA Hm E) as [-> ->]. }
  destruct (decide ((Modify_cf m, Modify_key m) = (cf, k))) as [E|E].
  - injection E as <- <-. destruct m as [k v0 cf|k cf]; cbn in *.
    + rewrite lru_peek_put in Hw. injection Hw as <-. apply lookup_insert_eq.
    + by rewrite lru_peek_pop in Hw.
  - destruct (Hne E) as [H1 H2]. destruct m as [k0 v0 cf0|k0 cf0]; cbn in *.
    + apply lru_peek_put_ne in Hw; [|done]. rewrite lookup_insert_ne by done. by apply Hco.
    + apply lru_peek_pop_ne in Hw. rewrite lookup_delete_ne by done. by apply Hco.
Qed.

(** Writes of the cached storage.  A batch is applied to the database as a
    whole and in order, and the cache stays in agreement with it on a set of
    keys that both keep apart; when the database refuses the batch neither
    changes. *)
Theorem standalone_write_correct A s b o s' :
  cache_injective A → db_injective A → coherent A s → Forall (Modify_in A) b →
  standalone_write b s = (o, s') →
  coherent A s' ∧
  if decide (o = Ok tt)
  then db_view (sa_db s') = foldl apply_op (db_view (sa_db s)) (batch_op <$> b)
  else s' = s.
Proof.
  intros Hinj Hdb Hco Hb. unfold standalone_write. rewrite (M_bind_run get _ _ _ _ eq_refl).
  unfold_M. destruct (db_write _ _) as [d| | |] eqn:Hw; intros [= <- <-]; try by (split; [|rewrite decide_False]).
  rewrite decide_True by done. apply db_write_view in Hw. split; [|done].
  unfold coherent in *. cbn. rewrite Hw. clear Hw.
  revert Hco. generalize (db_view (sa_db s)), (sa_cache s).
  induction Hb as [|m b Hm Hb IH]; intros v c Hco; [done|]. cbn [fmap list_fmap foldl].
  apply IH. by apply coherent_update.
Qed.

(** A byte above 0xF4 never continues a UTF-8 sequence: it breaks the string
    in two. *)
Lemma lossy_break m rest a :
  245 ≤ b2z m → from_utf8_lossy (a ++ m :: rest) = from_utf8_lossy a ++ REPLACEMENT ++ from_utf8_lossy rest.
Proof.
  intros Hm.
  assert (∀ lo hi, hi ≤ 244 → in_range m lo hi = false) as Hr by (unfold in_range; lia).
  assert (is_ascii m = false) as Ha by (unfold is_ascii; lia).
  assert (is_cont m = false) as Hc by (apply Hr; lia).
  assert (∀ b, second_of_3 b m = false) as H3.
  { intros b. unfold second_of_3. by rewrite !Hr, Hc by lia; repeat case_match. }
  assert (∀ b, second_of_4 b m = false) as H4.
  { intros b. unfold second_of_4. by rewrite !Hr, Hc by lia; repeat case_match. }
  assert (from_utf8_lossy (m :: rest) = REPLACEMENT ++ from_utf8_lossy rest) as Hhd.
  { cbn [from_utf8_lossy]. by rewrite Ha, !Hr by lia. }
  remember (length a) as n eqn:Hn. revert a Hn.
  induction n as [n IH] using lt_wf_ind. intros a ->.
  assert (∀ a', (length a' < length a)%nat →
    from_utf8_lossy (a' ++ m :: rest) = from_utf8_lossy a' ++ REPLACEMENT ++ from_utf8_lossy rest)
    as IH' by (intros; by eapply IH). clear IH.
  destruct a as [|b0 a1]; [exact Hhd|]. cbn [length] in IH'.
  assert (∀ a', (length a' < S (length a1))%nat →
    REPLACEMENT ++ from_utf8_lossy (a' ++ m :: rest)
    = (REPLACEMENT ++ from_utf8_lossy a') ++ REPLACEMENT ++ from_utf8_lossy rest) as IHr.
  { intros a' Ha'. rewrite IH' by done. by rewrite <- !app_assoc. }
  cbn [app from_utf8_lossy]. destruct (is_ascii b0); [by rewrite IH' by lia|].
  destruct (in_range b0 194 223).
  { destruct a1 as [|b1 a2]; cbn [app]; [by rewrite Hc, Hhd|]. cbn [length] in *.
    destruct (is_cont b1); [by rewrite IH' by lia|].
    change (b1 :: a2 ++ m :: rest) with ((b1 :: a2) ++ m :: rest). apply IHr. cbn. lia. }
  destruct (in_range b0 224 239).
  { destruct a1 as [|b1 a2]; cbn [app]; [by rewrite H3, Hhd|]. cbn [length] in *.
    destruct (second_of_3 b0 b1);
      [|change (b1 :: a2 ++ m :: rest) with ((b1 :: a2) ++ m :: rest); apply IHr; cbn; lia].
    destruct a2 as [|b2 a3]; cbn [app]; [by rewrite Hc, Hhd|]. cbn [length] in *.
    destruct (is_cont b2); [by rewrite IH' by lia|].
    change (b2 :: a3 ++ m :: rest) with ((b2 :: a3) ++ m :: rest). apply IHr. cbn. lia. }
  destruct (in_range b0 240 244).
  { destruct a1 as [|b1 a2]; cbn [app]; [by rewrite H4, Hhd|]. cbn [length] in *.
    destruct (second_of_4 b0 b1);
      [|change (b1 :: a2 ++ m :: rest) with ((b1 :: a2) ++ m :: rest); apply IHr; cbn; lia].
    destruct a2 as [|b2 a3]; cbn [app]; [by rewrite Hc, Hhd|]. cbn [length] in *.
    destruct (is_cont b2);
      [|change (b2 :: a3 ++ m :: rest) with ((b2 :: a3) ++ m :: rest); apply IHr; cbn; lia].
    destruct a3 as [|b3 a4]; cbn [app]; [by rewrite Hc, Hhd|]. cbn [length] in *.
    destruct (is_cont b3); [by rewrite IH' by lia|].
    change (b3 :: a4 ++ m :: rest) with ((b3 :: a4) ++ m :: rest). apply IHr. cbn. lia. }
  apply IHr. lia.
Qed.

Lemma from_be_cons b bs : from_be (b :: bs) = b2z b * 256 ^ Z.of_nat (length bs) + from_be bs.
Proof. done. Qed.

(** The timestamp bytes of a small timestamp. *)
Lemma small_ts_bytes t : 0 ≤ t < 128 →
  u64_to_be_bytes (u64_not t) = replicate 7 (z2b 255) ++ [z2b (255 - t)].
Proof.
  intros Ht. unfold u64_to_be_bytes.
  rewrite <- (be_bytes_from 8 (replicate 7 (z2b 255) ++ [z2b (255 - t)])) by done.
  f_equal. unfold u64_not, u64_max. cbn [replicate app].
  rewrite !from_be_cons, !b2z_z2b_small by lia. cbn [length]. change (from_be []) with 0. lia.
Qed.

Lemma lossy_small_ts a t :
  0 ≤ t < 128 →
  from_utf8_lossy (a ++ u64_to_be_bytes (u64_not t))
  = from_utf8_lossy a ++ mjoin (replicate 8 REPLACEMENT).
Proof.
  intros Ht. rewrite small_ts_bytes by done.
  assert (b2z (z2b 255) = 255) as H255 by (by apply b2z_z2b_small).
  assert (from_utf8_lossy [z2b (255 - t)] = REPLACEMENT) as Hlast.
  { assert (is_ascii (z2b (255 - t)) = false) as Ha.
    { unfold is_ascii. rewrite b2z_z2b_small by lia. lia. }
    cbn [from_utf8_lossy]. rewrite Ha. by repeat case_match. }
  cbn [replicate app].
  assert (∀ b rest, from_utf8_lossy (b ++ z2b 255 :: rest)
    = from_utf8_lossy b ++ REPLACEMENT ++ from_utf8_lossy rest) as Hb
    by (intros; apply lossy_break; lia).
  assert (∀ rest, from_utf8_lossy (z2b 255 :: rest) = REPLACEMENT ++ from_utf8_lossy rest) as Hb0
    by (intros; by rewrite <- (app_nil_l (z2b 255 :: rest)), Hb).
  rewrite Hb. do 6 rewrite Hb0. by rewrite Hlast.
Qed.

(** Distinct versions of one key share a cache entry.  The cache is keyed
    by the lossy UTF-8 rendering of the key; the timestamp bytes of encoded
    keys are rarely valid UTF-8, so any two versions below 128 of any user key
    collide, and after one of them was read, reading the other returns the
    first one's value. *)
Theorem cache_confuses_versions s cf uk t1 t2 v1 v2 s1 :
  0 ≤ t1 < 128 → 0 ≤ t2 < 128 → t1 ≠ t2 →
  db_view (sa_db s) !! key_with_cf cf (encode_key uk t1) = Some v1 →
  db_view (sa_db s) !! key_with_cf cf (encode_key uk t2) = Some v2 →
  lru_peek (cache_key cf (encode_key uk t1)) (sa_cache s) = None →
  standalone_get_cf cf (encode_key uk t1) s = (Ok (Some v1), s1) →
  standalone_get_cf cf (encode_key uk t2) s1 = (Ok (Some v1), s1).
Proof.
  intros H1 H2 Hne Hv1 Hv2 Hmiss Hget.
  assert (cache_key cf (encode_key uk t2) = cache_key cf (encode_key uk t1)) as Hkey.
  { unfold cache_key, encode_key. by rewrite !lossy_small_ts. }
  revert Hget. unfold standalone_get_cf. rewrite !(M_bind_run get _ _ _ _ eq_refl), Hmiss, Hkey.
  unfold_M. destruct (db_get _ _) as [o| | |] eqn:Hg; try done.
  apply db_get_view in Hg as ->. rewrite Hv1. intros [= <-]. cbn. by rewrite lru_peek_put.
Qed.
End standalone_facts.

(** ** The tiered storage *)

Inductive Tier := Hot | Warm | Cold.
#[export] Instance Tier_eq_dec : EqDecision Tier.
Proof. solve_decision. Defined.

Section tiered.
Context `{prof : BuildProfile} `{rocks : RocksDB} `{access : !LruCache bytes Z}.

Record TieredStorage := mkTiered {
  t_hot : db;
  t_warm : db;
  t_cold : db;
  t_access : lru (K := bytes) (V := Z);
  t_promote_threshold : Z;
  t_demote_threshold : Z;
  t_hysteresis : Z;
}.

Definition db_of (t : Tier) (s : TieredStorage) : db :=
  match t with Hot => t_hot s | Warm => t_warm s | Cold => t_cold s end.

Definition set_db_of (t : Tier) (d : db) (s : TieredStorage) : TieredStorage :=
  match t with
  | Hot => mkTiered d (t_warm s) (t_cold s) (t_access s) (t_promote_threshold s) (t_demote_threshold s) (t_hysteresis s)
  | Warm => mkTiered (t_hot s) d (t_cold s) (t_access s) (t_promote_threshold s) (t_demote_threshold s) (t_hysteresis s)
  | Cold => mkTiered (t_hot s) (t_warm s) d (t_access s) (t_promote_threshold s) (t_demote_threshold s) (t_hysteresis s)
  end.
Definition set_access (a : lru) (s : TieredStorage) : TieredStorage :=
  mkTiered (t_hot s) (t_warm s) (t_cold s) a (t_promote_threshold s) (t_demote_threshold s) (t_hysteresis s).

(** [+] and [saturating_add(1)] on [u32]. *)
Definition u32_add (a b : Z) : outcome Z :=
  if decide (is_u32 (a + b)) then Ok (a + b)
  else if overflow_checks then Panic else Ok ((a + b) mod 2 ^ 32).
Definition u32_saturating_inc (c : Z) : Z := Z.min (c + 1) u32_max.

Definition bump_access (k : bytes) (s : TieredStorage) : TieredStorage :=
  set_access (match lru_peek k (t_access s) with
              | Some c => lru_put k (u32_saturating_inc c) (t_access s)
              | None => lru_put k 1 (t_access s)
              end) s.

Definition decide_target (s : TieredStorage) (current : Tier) (cnt : Z) : outcome Tier :=
  match current with
  | Hot => c ← u32_add cnt (t_hysteresis s);
           Ok (if c <=? t_demote_threshold s then Warm else Hot)
  | Cold => p ← u32_add (t_promote_threshold s) (t_hysteresis s);
            Ok (if p <=? cnt then Warm else Cold)
  | Warm => Ok (if t_promote_threshold s <=? cnt then Hot
                else if cnt <=? t_demote_threshold s then Cold else Warm)
  end.

(** A hit in a tier: the access count grows. *)
Definition record_hit (k : bytes) (s : TieredStorage) : TieredStorage :=
  set_access (lru_put k (u32_saturating_inc (default 0 (lru_peek k (t_access s)))) (t_access s)) s.

Definition tiered_get_cf (cf : string) (key : bytes) : M TieredStorage (option bytes) :=
  s ← get;
  let k := key_with_cf cf key in
  h ← lift (db_get (t_hot s) k);
  match h with
  | Some v => modify (record_hit k);; mret (Some v)
  | None =>
      w ← lift (db_get (t_warm s) k);
      match w with
      | Some v => modify (record_hit k);; mret (Some v)
      | None =>
          c ← lift (db_get (t_cold s) k);
          match c with
          | Some v => modify (record_hit k);; mret (Some v)
          | None => mret None
          end
      end
  end.

(** [self.db_of(t).delete(k)?] and [self.db_of(t).put(k, v)?]. *)
Definition tier_write (t : Tier) (ops : list BatchOp) : M TieredStorage unit :=
  s ← get; d ← lift (db_write (db_of t s) ops); modify (set_db_of t d).

(** The loop over the batch: puts are collected for the warm tier, deletes
    go to all three tiers at once. *)
Fixpoint tiered_collect (batch : list Modify) (wb : list BatchOp) : M TieredStorage (list BatchOp) :=
  match batch with
  | [] => mret wb
  | MPut k v cf :: batch' =>
      modify (bump_access (key_with_cf cf k));;
      tiered_collect batch' (wb ++ [BPut (key_with_cf cf k) v])
  | MDelete k cf :: batch' =>
      tier_write Hot [BDelete (key_with_cf cf k)];;
      tier_write Warm [BDelete (key_with_cf cf k)];;
      tier_write Cold [BDelete (key_with_cf cf k)];;
      tiered_collect batch' wb
  end.

Definition tiered_write (batch : list Modify) : M TieredStorage unit :=
  wb ← tiered_collect batch []; tier_write Warm wb.

Definition MAX_MOVE_PER_ROUND : nat := 1000.

(** The scan of one tier, over the entries it had when the scan began. *)
Fixpoint rebalance_tier (t : Tier) (items : list (bytes * bytes)) (moved : nat)
  : M TieredStorage nat :=
  if (moved <? MAX_MOVE_PER_ROUND)%nat then
    match items with
    | [] => mret moved
    | (k, v) :: items' =>
        s ← get;
        let cnt := default 0 (lru_peek k (t_access s)) in
        target ← lift (decide_target s t cnt);
        if decide (target ≠ t) then
          tier_write target [BPut k v];;
          tier_write t [BDelete k];;
          rebalance_tier t items' (S moved)
        else rebalance_tier t items' moved
    end
  else mret moved.

Fixpoint rebalance_tiers (ts : list Tier) (moved : nat) : M TieredStorage unit :=
  match ts with
  | [] => mret tt
  | t :: ts' =>
      s ← get;
      moved' ← rebalance_tier t (db_items (db_of t s)) moved;
      if (MAX_MOVE_PER_ROUND <=? moved')%nat then mret tt else rebalance_tiers ts' moved'
  end.

Definition rebalance_once : M TieredStorage unit :=
  rebalance_tiers [Hot; Warm; Cold] 0;;
  modify (λ s, set_access (lru_clear (t_access s)) s).

(** *** The merged iterator *)

Record MergedIterator := mkMerged {
  mi_iters : list RocksDBIterator;
  mi_current : option (bytes * bytes);
}.

(** The smallest current key and the index of its iterator. *)
Fixpoint best_of (its : list RocksDBIterator) (idx : nat) (best : option (bytes * bytes * nat))
  : option (bytes * bytes * nat) :=
  match its with
  | [] => best
  | it :: its' =>
      let best' :=
        if it_valid it then
          let '(key, v) := it_item it in
          match best with
          | Some (bk, _, _) => if bytes_ltb key bk then Some (key, v, idx) else best
          | None => Some (key, v, idx)
          end
        else best in
      best_of its' (S idx) best'
  end.

Definition merged_update_current (m : MergedIterator) : MergedIterator :=
  match best_of (mi_iters m) 0 None with
  | Some (k, v, idx) => mkMerged (alter it_next idx (mi_iters m)) (Some (k, v))
  | None => mkMerged (mi_iters m) None
  end.

Definition MergedIterator_new (i1 i2 i3 : RocksDBIterator) : MergedIterator :=
  merged_update_current (mkMerged [i1; i2; i3] None).
Definition merged_item (m : MergedIterator) : bytes * bytes := default ([], []) (mi_current m).
Definition merged_valid (m : MergedIterator) : bool :=
  match mi_current m with Some _ => true | None => false end.
Definition merged_next (m : MergedIterator) : MergedIterator := merged_update_current m.
Definition merged_seek (key : bytes) (m : MergedIterator) : MergedIterator := merged_update_current m.

Definition tiered_iter_cf (cf : string) (s : TieredStorage) : MergedIterator :=
  let prefix := String.append cf "_" in
  MergedIterator_new (RocksDBIterator_new (t_hot s) prefix) (RocksDBIterator_new (t_warm s) prefix)
                     (RocksDBIterator_new (t_cold s) prefix).
End tiered.

Section tiered_facts.
Context `{prof : BuildProfile} `{laws : RocksDBLaws} `{access : !LruCache bytes Z}.
Implicit Types (s : TieredStorage) (t : Tier).

Definition tview t s : gmap bytes bytes := db_view (db_of t s).

(** What reads see: the hot tier first, then the warm, then the cold one. *)
Definition logical s (k : bytes) : option bytes :=
  match tview Hot s !! k with
  | Some v => Some v
  | None => match tview Warm s !! k with Some v => Some v | None => tview Cold s !! k end
  end.

(** Every key lives in at most one tier. *)
Definition tiers_apart s : Prop :=
  ∀ k t1 t2 v1 v2, tview t1 s !! k = Some v1 → tview t2 s !! k = Some v2 → t1 = t2.

Lemma tview_set_db_of t t' d s :
  tview t' (set_db_of t d s) = if decide (t' = t) then db_view d else tview t' s.
Proof. by destruct t, t'. Qed.

Lemma tier_write_run t ops s s' :
  tier_write t ops s = (Ok tt, s') →
  ∀ t', tview t' s' = if decide (t' = t) then foldl apply_op (tview t s) ops else tview t' s.
Proof.
  unfold tier_write. rewrite (M_bind_run get _ _ _ _ eq_refl). unfold_M.
  destruct (db_write _ _) as [d| | |] eqn:Hw; try done. intros [= <-] t'.
  rewrite tview_set_db_of. by rewrite (db_write_view _ _ _ Hw).
Qed.

Lemma logical_access a s k : logical (set_access a s) k = logical s k.
Proof. done. Qed.

(** Moving an entry between tiers changes neither what reads see nor that the
    tiers are apart. *)
Lemma move_entry t target k v s s1 s2 :
  tiers_apart s → tview t s !! k = Some v → target ≠ t →
  tier_write target [BPut k v] s = (Ok tt, s1) → tier_write t [BDelete k] s1 = (Ok tt, s2) →
  tiers_apart s2 ∧ (∀ k', logical s2 k' = logical s k') ∧
  (∀ k', k' ≠ k → tview t s2 !! k' = tview t s !! k').
Proof.
  intros Hap Hk Hne H1 H2.
  pose proof (tier_write_run _ _ _ _ H1) as V1. pose proof (tier_write_run _ _ _ _ H2) as V2.
  assert (∀ t', tview t' s2 = if decide (t' = t) then delete k (tview t s)
    else if decide (t' = target) then <[k := v]> (tview target s) else tview t' s) as V.
  { intros t'. rewrite V2. case_decide; cbn [foldl apply_op].
    - rewrite V1, decide_False by congruence. done.
    - by rewrite V1. }
  assert (∀ t' k', tview t' s2 !! k' = if decide (k' = k)
    then (if decide (t' = target) then Some v else None) else tview t' s !! k') as L.
  { intros t' k'. rewrite V. destruct (decide (k' = k)) as [->|Hkne].
    - case_decide; [subst; rewrite lookup_delete_eq, decide_False by congruence; done|].
      case_decide; [apply lookup_insert_eq|]. destruct (tview t' s !! k) as [w|] eqn:E; [|done].
      destruct H. by eapply Hap.
    - case_decide; [subst; by rewrite lookup_delete_ne by done|].
      case_decide; [subst; by rewrite lookup_insert_ne by done|done]. }
  split_and!.
  - intros k' t1 t2 v1 v2. rewrite !L. case_decide; [|apply Hap].
    do 2 (case_decide; [|done]). congruence.
  - intros k'. unfold logical. rewrite !L. case_decide as Hkk; [|done]. subst k'.
    assert (∀ t', t' ≠ t → tview t' s !! k = None) as Hnone.
    { intros t' Ht'. destruct (tview t' s !! k) eqn:E; [|done]. destruct Ht'. by eapply Hap. }
    destruct t; [rewrite Hk|rewrite (Hnone Hot), Hk by done|
      rewrite (Hnone Hot), (Hnone Warm), Hk by done]; destruct target; done.
  - intros k' Hk'. by rewrite L, decide_False by done.
Qed.

Lemma rebalance_tier_preserves t items moved s n s' :
  tiers_apart s → NoDup items.*1 → (∀ k v, (k, v) ∈ items → tview t s !! k = Some v) →
  rebalance_tier t items moved s = (Ok n, s') →
  tiers_apart s' ∧ ∀ k, logical s' k = logical s k.
Proof.
  revert moved s. induction items as [|[k v] items IH]; intros moved s Hap Hnd Hin; cbn [rebalance_tier].
  { case_match; by intros [= _ <-]. }
  case_match; [|by intros [= _ <-]]. rewrite (M_bind_run get _ _ _ _ eq_refl). cbv zeta.
  apply NoDup_cons in Hnd as [Hk Hnd].
  assert (∀ k' v', (k', v') ∈ items → k' ≠ k) as Hne.
  { intros k' v' Hi ->. apply Hk. apply list_elem_of_fmap. by exists (k, v'). }
  intros (target & s0 & Htg & Hrun)%M_bind_ok. unfold lift in Htg. injection Htg as Htg <-.
  case_decide as Htt.
  - apply M_bind_ok in Hrun as ([] & s1 & H1 & Hrun).
    apply M_bind_ok in Hrun as ([] & s2 & H2 & Hrun).
    destruct (move_entry t target k v s s1 s2) as (Hap2 & Hlog & Hrest); try done.
    { apply Hin. left. }
    apply IH in Hrun as [Hap' Hlog']; [|done|done|].
    2: { intros k' v' Hi. rewrite Hrest by (by eapply Hne). apply Hin. by right. }
    split; [done|]. intros k'. by rewrite Hlog', Hlog.
  - eapply IH; [done..| |done]. intros k' v' Hi. apply Hin. by right.
Qed.

Lemma NoDup_sorted_keys (l : list (bytes * bytes)) : StronglySorted key_lt l → NoDup l.*1.
Proof.
  induction l as [|e l IH]; intros Hs; [constructor|].
  apply StronglySorted_cons in Hs as [He Hl]. rewrite fmap_cons. constructor; [|by apply IH].
  intros (f & Hf & Hin)%list_elem_of_fmap. rewrite Forall_forall in He. specialize (He f Hin).
  unfold key_lt in He. rewrite Hf in He. by apply bytes_lt_irrefl in He.
Qed.

Lemma rebalance_tiers_preserves ts moved s s' :
  tiers_apart s → rebalance_tiers ts moved s = (Ok tt, s') →
  tiers_apart s' ∧ ∀ k, logical s' k = logical s k.
Proof.
  revert moved s. induction ts as [|t ts IH]; intros moved s Hap; cbn [rebalance_tiers].
  { by intros [= <-]. }
  rewrite (M_bind_run get _ _ _ _ eq_refl). intros (n & s1 & H1 & Hrun)%M_bind_ok.
  apply rebalance_tier_preserves in H1 as [Hap1 Hlog1]; [|done|..].
  - case_match; [injection Hrun as <-; done|].
    apply IH in Hrun as [Hap' Hlog']; [|done]. split; [done|]. intros k. by rewrite Hlog', Hlog1.
  - apply NoDup_sorted_keys, db_items_sorted.
  - intros k v. apply db_items_view.
Qed.

(** C22: Rebalancing moves data without losing any.  When every key lives in
    one tier, a round that completes leaves every key in one tier again, and
    every read sees what it saw before, whatever was promoted or demoted. *)
Theorem rebalance_preserves s s' :
  tiers_apart s → rebalance_once s = (Ok tt, s') →
  tiers_apart s' ∧ ∀ k, logical s' k = logical s k.
Proof.
  unfold rebalance_once. intros Hap ([] & s1 & H1 & [= <-])%M_bind_ok.
  by apply rebalance_tiers_preserves in H1.
Qed.

Lemma tiered_get_logical cf key s r s' :
  tiered_get_cf cf key s = (Ok r, s') →
  r = logical s (key_with_cf cf key) ∧ ∀ k, logical s' k = logical s k.
Proof.
  unfold tiered_get_cf, logical, tview. cbn [db_of].
  rewrite (M_bind_run get _ _ _ _ eq_refl). cbv zeta. unfold_M.
  destruct (db_get (t_hot s) _) as [h| | |] eqn:Hh; try done. apply db_get_view in Hh as Eh.
  destruct h as [v|]; [intros [= <- <-]; by rewrite <- Eh|].
  destruct (db_get (t_warm s) _) as [w| | |] eqn:Hw; try done. apply db_get_view in Hw as Ew.
  destruct w as [v|]; [intros [= <- <-]; by rewrite <- Eh, <- Ew|].
  destruct (db_get (t_cold s) _) as [c| | |] eqn:Hc; try done. apply db_get_view in Hc as Ec.
  destruct c as [v|]; intros [= <- <-]; by rewrite <- Eh, <- Ew, <- Ec.
Qed.

(** A write to the tiered storage can stay invisible.  Puts always land in
    the warm tier and reads look in the hot tier first: after a put that
    succeeded, a read returns the new value when the key was not in the hot
    tier, and the old one when it was. *)
Theorem tiered_write_read cf k v s s1 r s2 :
  tiered_write [MPut k v cf] s = (Ok tt, s1) → tiered_get_cf cf k s1 = (Ok r, s2) →
  r = match tview Hot s !! key_with_cf cf k with Some old => Some old | None => Some v end.
Proof.
  unfold tiered_write. cbn [tiered_collect app].
  intros (wb & s0 & [= <- <-] & Hw)%M_bind_ok (-> & _)%tiered_get_logical.
  unfold logical. rewrite !(tier_write_run _ _ _ _ Hw). cbn.
  change (tview Hot (bump_access (key_with_cf cf k) s)) with (tview Hot s).
  rewrite (decide_False (P := Hot = Warm)), (decide_True (P := Warm = Warm)) by done.
  destruct (tview Hot s !! _); [done|]. by rewrite lookup_insert_eq.
Qed.
End tiered_facts.

(** ** Storages to evaluate on *)

Section samples.
#[local] Existing Instance map_db.
#[local] Existing Instance map_db_laws.
#[local] Instance bytes_cache : LruCache bytes bytes := map_cache bytes.
#[local] Instance bytes_cache_laws : LruCacheLaws bytes_cache := map_cache_laws bytes.
#[local] Instance count_cache : LruCache bytes Z := map_cache Z.
#[local] Instance debug_build : BuildProfile := true.

Definition db_with (ops : list BatchOp) : db (RocksDB := map_db) :=
  foldl apply_op (∅ : gmap bytes bytes) ops.

(** One text key, and two versions of another key. *)
Definition key1 : bytes := str_bytes "key1".
Definition sample_standalone : StandaloneStorage (rocks := map_db) :=
  {| sa_db := db_with [BPut (key_with_cf CF_DEFAULT key1) [Byte.x0a];
                       BPut (key_with_cf CF_WRITE (encode_key key1 5)) [Byte.x05];
                       BPut (key_with_cf CF_WRITE (encode_key key1 7)) [Byte.x07]];
     sa_cache := (∅ : gmap bytes bytes) |}.

(** The key [key1] of the default column family alone. *)
Definition only_key1 (cf : string) (k : bytes) : Prop := cf = CF_DEFAULT ∧ k = key1.

Lemma only_key1_injective : cache_injective only_key1 ∧ db_injective only_key1.
Proof. split; intros cf k cf' k' [-> ->] [-> ->] _; done. Qed.

Lemma sample_coherent : coherent only_key1 sample_standalone.
Proof. intros cf k v _ H. change (None = Some v) in H. discriminate H. Qed.

Lemma standalone_get_correct_witness :
  Some [Byte.x0a] = db_view (RocksDBLaws := map_db_laws) (sa_db sample_standalone)
                      !! key_with_cf CF_DEFAULT key1.
Proof.
  destruct (standalone_get_cf CF_DEFAULT key1 sample_standalone) as [o s'] eqn:E.
  assert (o = Ok (Some [Byte.x0a])) as -> by (apply (f_equal fst) in E; cbn [fst] in E; rewrite <- E; vm_compute; reflexivity).
  exact (proj1 (standalone_get_correct (laws := map_db_laws) only_key1 sample_standalone
    CF_DEFAULT key1 (Some [Byte.x0a]) s'
    (proj1 only_key1_injective) sample_coherent (conj eq_refl eq_refl) E)).
Defined.

Lemma standalone_write_correct_witness :
  coherent (laws := map_db_laws) only_key1
    (standalone_write [MPut key1 [Byte.x0b] CF_DEFAULT] sample_standalone).2.
Proof.
  refine (proj1 (standalone_write_correct (laws := map_db_laws) only_key1 sample_standalone
    [MPut key1 [Byte.x0b] CF_DEFAULT] (Ok tt) _ (proj1 only_key1_injective)
    (proj2 only_key1_injective) sample_coherent _ eq_refl)).
  repeat constructor.
Defined.

Lemma cache_confuses_versions_witness :
  ∃ s1, standalone_get_cf CF_WRITE (encode_key key1 5) sample_standalone = (Ok (Some [Byte.x05]), s1) ∧
    standalone_get_cf CF_WRITE (encode_key key1 7) s1 = (Ok (Some [Byte.x05]), s1).
Proof.
  eexists. split; [reflexivity|].
  apply (cache_confuses_versions (laws := map_db_laws) sample_standalone CF_WRITE key1 5 7
    [Byte.x05] [Byte.x07]); [lia|lia|lia|by vm_compute|by vm_compute|by vm_compute|reflexivity].
Defined.

Definition sample_tiers : TieredStorage (rocks := map_db) :=
  {| t_hot := db_with [BPut (key_with_cf CF_DEFAULT key1) [Byte.x0a]];
     t_warm := db_with [BPut (key_with_cf CF_DEFAULT [Byte.x02]) [Byte.x0b]];
     t_cold := db_with []; t_access := (∅ : gmap bytes Z);
     t_promote_threshold := 8; t_demote_threshold := 2; t_hysteresis := 1 |}.

Lemma db_with_one k v k' w : (db_with [BPut k v] : gmap bytes bytes) !! k' = Some w → k' = k.
Proof.
  change (db_with [BPut k v]) with (<[k := v]> (∅ : gmap bytes bytes)).
  intros [[-> _]|[_ H]]%lookup_insert_Some; [done|]. by rewrite lookup_empty in H.
Qed.

Lemma sample_tiers_apart : tiers_apart (laws := map_db_laws) sample_tiers.
Proof.
  intros k t1 t2 v1 v2 H1 H2.
  assert (∀ t v, tview (laws := map_db_laws) t sample_tiers !! k = Some v →
    (t = Hot ∧ k = key_with_cf CF_DEFAULT key1) ∨ (t = Warm ∧ k = key_with_cf CF_DEFAULT [Byte.x02]))
    as H.
  { intros [] v Hv; [left|right|
      change ((∅ : gmap bytes bytes) !! k = Some v) in Hv; by apply lookup_empty_Some in Hv].
    - by apply db_with_one in Hv.
    - by apply db_with_one in Hv. }
  destruct (H _ _ H1) as [[-> ->]|[-> ->]], (H _ _ H2) as [[-> E]|[-> E]]; done.
Qed.

Lemma rebalance_preserves_witness :
  (rebalance_once sample_tiers).1 = Ok tt ∧
  tiers_apart (laws := map_db_laws) (rebalance_once sample_tiers).2.
Proof.
  assert ((rebalance_once sample_tiers).1 = Ok tt) as E by (vm_compute; reflexivity).
  split; [exact E|].
  exact (proj1 (rebalance_preserves (laws := map_db_laws) sample_tiers _ sample_tiers_apart
    (run_ok rebalance_once sample_tiers tt E))).
Defined.

Definition after_put : TieredStorage (rocks := map_db) :=
  (tiered_write [MPut key1 [Byte.x0c] CF_DEFAULT] sample_tiers).2.

Lemma tiered_write_read_witness :
  ∃ r, (tiered_get_cf CF_DEFAULT key1 after_put).1 = Ok r ∧ r = Some [Byte.x0a].
Proof.
  assert ((tiered_write [MPut key1 [Byte.x0c] CF_DEFAULT] sample_tiers).1 = Ok tt) as E1
    by (vm_compute; reflexivity).
  assert ((tiered_get_cf CF_DEFAULT key1 after_put).1 = Ok (Some [Byte.x0a])) as E2
    by (vm_compute; reflexivity).
  exists (Some [Byte.x0a]). split; [exact E2|].
  exact (tiered_write_read (laws := map_db_laws) CF_DEFAULT key1 [Byte.x0c] sample_tiers after_put
    (Some [Byte.x0a]) _ (run_ok _ _ _ E1) (run_ok _ _ _ E2)).
Defined.
End samples.
