(* ===== verification/Latches.v ===== *)
(** The command latches of src/transaction/latches/latches.rs: taking and
    releasing the latches of a set of keys, and the tasks that wait for them,
    as a transition system with every interleaving of their calls. *)

From S2P Require Import Prelude Bytes.

(** The map of held latches.  A [tokio::sync::Notify] is an identity; the map
    gives each held key the [Notify] of the call that took it. *)
Record Latches := mkLatches { latch_map : gmap bytes nat; latch_next : nat }.

Definition Latches_new : Latches := {| latch_map := ∅; latch_next := 0 |}.

(** The first of the keys that is held. *)
Fixpoint first_locked (keys : list bytes) (m : gmap bytes nat) : option nat :=
  match keys with
  | [] => None
  | k :: keys' => match m !! k with Some n => Some n | None => first_locked keys' m end
  end.

Definition acquire_latches (keys : list bytes) (l : Latches) : option nat * Latches :=
  match first_locked keys (latch_map l) with
  | Some n => (Some n, l)
  | None =>
      (None, {| latch_map := foldl (λ m k, <[k := latch_next l]> m) (latch_map l) keys;
                latch_next := S (latch_next l) |})
  end.

(** Releasing answers with the [Notify] whose waiters are notified. *)
Definition release_latches (keys : list bytes) (l : Latches) : option nat * Latches :=
  (match keys with [] => None | k :: _ => latch_map l !! k end,
   {| latch_map := foldl (λ m k, delete k m) (latch_map l) keys; latch_next := latch_next l |}).

(** ** Tasks

    [wait_for_latches] is a loop: try to take the latches and, when one is
    held, register with the [Notify] found and wait for it.  Taking the
    latches and registering are two steps: the map's mutex is released in
    between. *)
Inductive Task :=
| Trying (keys : list bytes)                 (** about to call [acquire_latches] *)
| Registering (keys : list bytes) (n : nat)  (** got the [Notify], [notified()] not called yet *)
| Waiting (keys : list bytes) (n : nat)      (** suspended in [notified().await] *)
| Holding (keys : list bytes).               (** past [wait_for_latches] *)

Record System := mkSystem { sys_latches : Latches; sys_tasks : gmap nat Task }.

(** [notify_waiters] wakes the tasks that wait at that moment. *)
Definition wake (n : option nat) (t : Task) : Task :=
  match t, n with
  | Waiting keys n', Some n0 => if decide (n' = n0) then Trying keys else t
  | _, _ => t
  end.

Inductive step : System → System → Prop :=
| step_start s i keys :
    sys_tasks s !! i = None →
    step s (mkSystem (sys_latches s) (<[i := Trying keys]> (sys_tasks s)))
| step_acquire s i keys l :
    sys_tasks s !! i = Some (Trying keys) → acquire_latches keys (sys_latches s) = (None, l) →
    step s (mkSystem l (<[i := Holding keys]> (sys_tasks s)))
| step_blocked s i keys n l :
    sys_tasks s !! i = Some (Trying keys) → acquire_latches keys (sys_latches s) = (Some n, l) →
    step s (mkSystem l (<[i := Registering keys n]> (sys_tasks s)))
| step_register s i keys n :
    sys_tasks s !! i = Some (Registering keys n) →
    step s (mkSystem (sys_latches s) (<[i := Waiting keys n]> (sys_tasks s)))
| step_release s i keys n l :
    sys_tasks s !! i = Some (Holding keys) → release_latches keys (sys_latches s) = (n, l) →
    step s (mkSystem l (delete i (wake n <$> sys_tasks s))).

Definition initial : System := mkSystem Latches_new ∅.
Definition reachable (s : System) : Prop := rtc step initial s.

(** ** Acquiring and releasing *)

Lemma first_locked_None keys m : first_locked keys m = None ↔ ∀ k, k ∈ keys → m !! k = None.
Proof.
  induction keys as [|k keys IH]; cbn; [set_solver|]. destruct (m !! k) eqn:E.
  - split; [done|]. intros H. rewrite H in E; [done|by left].
  - rewrite IH. set_solver.
Qed.

Lemma first_locked_Some keys m n : first_locked keys m = Some n → ∃ k, k ∈ keys ∧ m !! k = Some n.
Proof.
  induction keys as [|k keys IH]; cbn; [done|]. destruct (m !! k) eqn:E.
  - intros [= ->]. exists k. split; [by left|done].
  - intros (k' & ? & ?)%IH. exists k'. split; [by right|done].
Qed.

Lemma lookup_lock_all (keys : list bytes) (n : nat) (m : gmap bytes nat) (k : bytes) :
  foldl (λ m k, <[k := n]> m) m keys !! k = if decide (k ∈ keys) then Some n else m !! k.
Proof.
  revert m. induction keys as [|k0 keys IH]; intros m; cbn.
  { by rewrite decide_False by set_solver. }
  rewrite IH. destruct (decide (k ∈ keys)) as [Hin|Hin].
  - by rewrite decide_True by (by right).
  - destruct (decide (k = k0)) as [->|Hne].
    + rewrite decide_True by (by left). apply lookup_insert_eq.
    + rewrite lookup_insert_ne, decide_False by set_solver. done.
Qed.

Lemma lookup_unlock_all (keys : list bytes) (m : gmap bytes nat) (k : bytes) :
  foldl (λ m k, delete k m) m keys !! k = if decide (k ∈ keys) then None else m !! k.
Proof.
  revert m. induction keys as [|k0 keys IH]; intros m; cbn.
  { by rewrite decide_False by set_solver. }
  rewrite IH. destruct (decide (k ∈ keys)) as [Hin|Hin].
  - by rewrite decide_True by (by right).
  - destruct (decide (k = k0)) as [->|Hne].
    + rewrite decide_True by (by left). apply lookup_delete_eq.
    + rewrite lookup_delete_ne, decide_False by set_solver. done.
Qed.

Lemma acquire_latches_spec keys l :
  match acquire_latches keys l with
  | (Some n, l') => l' = l ∧ ∃ k, k ∈ keys ∧ latch_map l !! k = Some n
  | (None, l') =>
      (∀ k, k ∈ keys → latch_map l !! k = None) ∧
      (∀ k, k ∈ keys → latch_map l' !! k = Some (latch_next l)) ∧
      (∀ k, k ∉ keys → latch_map l' !! k = latch_map l !! k) ∧
      latch_map (release_latches keys l').2 = latch_map l
  end.
Proof.
  unfold acquire_latches. destruct (first_locked keys (latch_map l)) as [n|] eqn:E.
  - split; [done|]. by apply first_locked_Some.
  - pose proof (proj1 (first_locked_None _ _) E) as Hfree. cbn. split_and!; [done|..].
    + intros k Hk. by rewrite lookup_lock_all, decide_True.
    + intros k Hk. by rewrite lookup_lock_all, decide_False.
    + apply map_eq. intros k. rewrite lookup_unlock_all, lookup_lock_all. case_decide; [|done].
      symmetry. by apply Hfree.
Qed.

(** Taking latches is all or nothing.  When any of the keys is held
    nothing is taken and the [Notify] of a held key comes back; otherwise
    every key is held afterwards, and no other key's state changes; releasing
    the same keys then restores the map. *)
Theorem acquire_all_or_nothing keys l :
  match acquire_latches keys l with
  | (Some n, l') => l' = l ∧ ∃ k, k ∈ keys ∧ latch_map l !! k = Some n
  | (None, l') =>
      (∀ k, k ∈ keys → latch_map l !! k = None) ∧
      (∀ k, k ∈ keys → latch_map l' !! k = Some (latch_next l)) ∧
      (∀ k, k ∉ keys → latch_map l' !! k = latch_map l !! k) ∧
      latch_map (release_latches keys l').2 = latch_map l
  end.
Proof. apply acquire_latches_spec. Qed.

(** ** Mutual exclusion *)

(** The keys in the map are those of the tasks that hold, each task's under a
    [Notify] of its own. *)
Record sys_inv (s : System) : Prop := {
  inv_held : ∀ i keys, sys_tasks s !! i = Some (Holding keys) →
    ∃ n, (n < latch_next (sys_latches s))%nat ∧
         ∀ k, k ∈ keys → latch_map (sys_latches s) !! k = Some n;
  inv_disjoint : ∀ i j ki kj k, i ≠ j → sys_tasks s !! i = Some (Holding ki) →
    sys_tasks s !! j = Some (Holding kj) → k ∈ ki → k ∉ kj;
  inv_owned : ∀ k n, latch_map (sys_latches s) !! k = Some n →
    ∃ i keys, sys_tasks s !! i = Some (Holding keys) ∧ k ∈ keys;
}.

Lemma wake_holding n t keys : wake n t = Holding keys ↔ t = Holding keys.
Proof. destruct t, n; cbn; try case_decide; naive_solver. Qed.

(** A step that only moves tasks outside [Holding]. *)
Lemma sys_inv_other s i t :
  sys_inv s → (∀ keys, sys_tasks s !! i ≠ Some (Holding keys)) → (∀ keys, t ≠ Holding keys) →
  sys_inv (mkSystem (sys_latches s) (<[i := t]> (sys_tasks s))).
Proof.
  intros [Hh Hd Ho] Hi Ht.
  assert (∀ j keys, <[i := t]> (sys_tasks s) !! j = Some (Holding keys) →
    sys_tasks s !! j = Some (Holding keys)) as Hsub.
  { intros j keys [[-> ->]|[_ ?]]%lookup_insert_Some; [by destruct (Ht keys)|done]. }
  split; cbn.
  - intros j keys Hj%Hsub. by apply (Hh j).
  - intros j1 j2 k1 k2 k Hne H1%Hsub H2%Hsub. by eapply Hd.
  - intros k n (j & keys & Hj & Hk)%Ho. exists j, keys. split; [|done].
    rewrite lookup_insert_ne; [done|]. intros ->. by destruct (Hi keys).
Qed.

Lemma sys_inv_step s s' : sys_inv s → step s s' → sys_inv s'.
Proof.
  intros Hinv Hstep. pose proof Hinv as [Hh Hd Ho].
  destruct Hstep as [s i keys Hi|s i keys l Hi Ha|s i keys n l Hi Ha|s i keys n Hi|s i keys n l Hi Hr].
  - apply sys_inv_other; [done|intros ?; by rewrite Hi|done].
  - pose proof (acquire_latches_spec keys (sys_latches s)) as Hspec. rewrite Ha in Hspec.
    destruct Hspec as (Hfree & Hheld & Hother & _).
    assert (latch_next l = S (latch_next (sys_latches s))) as Hnext.
    { unfold acquire_latches in Ha. case_match; by simplify_eq/=. }
    split; cbn.
    + intros j kj [[<- [= <-]]|[Hne Hj]]%lookup_insert_Some.
      { exists (latch_next (sys_latches s)). split; [lia|done]. }
      destruct (Hh j kj Hj) as (n & Hn & Hk). exists n. split; [lia|]. intros k Hin.
      rewrite Hother; [by apply Hk|]. intros Hin'. specialize (Hk k Hin). by rewrite Hfree in Hk.
    + intros j1 j2 k1 k2 k Hne H1 H2 Hin1 Hin2.
      assert (∀ j kj, sys_tasks s !! j = Some (Holding kj) → k ∈ kj → k ∉ keys) as Hno.
      { intros j kj Hj Hinj Hin. destruct (Hh j kj Hj) as (n & _ & Hk).
        specialize (Hk k Hinj). by rewrite Hfree in Hk. }
      apply lookup_insert_Some in H1 as [[<- [= <-]]|[_ H1]];
        apply lookup_insert_Some in H2 as [[<- [= <-]]|[_ H2]]; [done| | |].
      * by eapply Hno.
      * by eapply Hno.
      * by eapply Hd.
    + intros k n Hk. destruct (decide (k ∈ keys)) as [Hin|Hin].
      { exists i, keys. split; [apply lookup_insert_eq|done]. }
      rewrite Hother in Hk by done. destruct (Ho k n Hk) as (j & kj & Hj & Hinj).
      exists j, kj. split; [|done]. rewrite lookup_insert_ne; [done|]. intros ->. congruence.
  - pose proof (acquire_latches_spec keys (sys_latches s)) as Hspec. rewrite Ha in Hspec.
    destruct Hspec as [-> _]. apply sys_inv_other; [done|intros ?; by rewrite Hi|done].
  - apply sys_inv_other; [done|intros ?; by rewrite Hi|done].
  - assert (∀ j kj, (delete i (wake n <$> sys_tasks s)) !! j = Some (Holding kj) →
      j ≠ i ∧ sys_tasks s !! j = Some (Holding kj)) as Hsub.
    { intros j kj [Hne (t & Ht & Hj)%lookup_fmap_Some]%lookup_delete_Some.
      apply wake_holding in Ht as ->. done. }
    unfold release_latches in Hr. injection Hr as <- <-. split; cbn.
    + intros j kj [Hne Hj]%Hsub. destruct (Hh j kj Hj) as (n' & Hn & Hk). exists n'.
      split; [done|]. intros k Hin. rewrite lookup_unlock_all, decide_False; [by apply Hk|].
      intros Hin'. by eapply (Hd i j).
    + intros j1 j2 k1 k2 k Hne [_ H1]%Hsub [_ H2]%Hsub. by eapply Hd.
    + intros k n. rewrite lookup_unlock_all. case_decide as Hin; [done|]. intros Hk.
      destruct (Ho k n Hk) as (j & kj & Hj & Hinj). exists j, kj. split; [|done].
      rewrite lookup_delete_ne, lookup_fmap, Hj by (intros ->; naive_solver). done.
Qed.

Lemma reachable_inv s : reachable s → sys_inv s.
Proof.
  unfold reachable. intros H. remember initial as s0 eqn:E.
  assert (sys_inv s0) as H0. { subst. split; cbn; intros *; rewrite lookup_empty; done. }
  clear E. induction H; [done|]. eauto using sys_inv_step.
Qed.

(** C10: Latches exclude, and every latch has an owner.  In every reachable
    interleaving of any number of tasks: two tasks that are past
    [wait_for_latches] at the same time share no key; and a key is in the map
    exactly when one task, and only one, holds it, whatever the other tasks are
    doing.  So no latch is left behind, and none is lost. *)
Theorem latches_mutual_exclusion s :
  reachable s →
  (∀ i j ki kj k, i ≠ j → sys_tasks s !! i = Some (Holding ki) → sys_tasks s !! j = Some (Holding kj) →
     k ∈ ki → k ∉ kj) ∧
  (∀ k, is_Some (latch_map (sys_latches s) !! k) ↔
     ∃ i, (∃ keys, sys_tasks s !! i = Some (Holding keys) ∧ k ∈ keys) ∧
       ∀ j keys, sys_tasks s !! j = Some (Holding keys) → k ∈ keys → j = i).
Proof.
  intros [Hh Hd Ho]%reachable_inv. split; [done|]. intros k. split.
  - intros (n & (i & keys & Hi & Hk)%Ho). exists i. split; [eauto|]. intros j kj Hj Hkj.
    destruct (decide (j = i)); [done|]. by destruct (Hd j i kj keys k).
  - intros (i & (keys & Hi & Hk) & _). destruct (Hh i keys Hi) as (n & _ & Hn). eauto.
Qed.

(** ** The lost wake-up *)

(** A task that waits for [n] stays suspended as long as nobody holds a key
    under [n]; and nobody will again, since the identities are fresh. *)
Definition orphaned (s : System) (i : nat) : Prop :=
  ∃ keys n, sys_tasks s !! i = Some (Waiting keys n) ∧ (n < latch_next (sys_latches s))%nat ∧
    ∀ k, latch_map (sys_latches s) !! k ≠ Some n.

Lemma orphaned_step s s' i : orphaned s i → step s s' → orphaned s' i.
Proof.
  intros (keys & n & Hi & Hn & Hfree) Hstep. exists keys, n.
  destruct Hstep as [s j kj Hj|s j kj l Hj Ha|s j kj n' l Hj Ha|s j kj n' Hj|s j kj n' l Hj Hr]; cbn.
  - rewrite lookup_insert_ne by congruence. done.
  - rewrite lookup_insert_ne by congruence.
    pose proof (acquire_latches_spec kj (sys_latches s)) as Hspec. rewrite Ha in Hspec.
    destruct Hspec as (_ & Hheld & Hother & _).
    assert (latch_next l = S (latch_next (sys_latches s))) as Hnext.
    { unfold acquire_latches in Ha. case_match; by simplify_eq/=. }
    split_and!; [done|lia|]. intros k. destruct (decide (k ∈ kj)).
    + rewrite Hheld by done. intros [= ?]. lia.
    + by rewrite Hother.
  - rewrite lookup_insert_ne by congruence.
    pose proof (acquire_latches_spec kj (sys_latches s)) as Hspec. rewrite Ha in Hspec.
    by destruct Hspec as [-> _].
  - rewrite lookup_insert_ne by congruence. done.
  - unfold release_latches in Hr. injection Hr as <- <-.
    rewrite lookup_delete_ne, lookup_fmap, Hi by congruence. cbn. split_and!; [|done|].
    + destruct kj as [|k kj]; [done|]. destruct (latch_map (sys_latches s) !! k) eqn:E; [|done].
      cbn. rewrite decide_False; [done|]. intros ->. by destruct (Hfree k).
    + intros k. rewrite lookup_unlock_all. case_decide; [done|apply Hfree].
Qed.

(** A wake-up can be lost.  There is a reachable state in which a task
    waits although no latch is held at all, and it waits for ever: in every
    state that follows it is suspended still.  (The latches were released
    after [acquire_latches] answered and before [notified] was called.) *)
Theorem lost_wakeup :
  ∃ s i, reachable s ∧ latch_map (sys_latches s) = ∅ ∧
    ∀ s', rtc step s s' → ∃ keys n, sys_tasks s' !! i = Some (Waiting keys n).
Proof.
  set (k := [Byte.x6b]).
  set (s1 := mkSystem Latches_new {[ 0%nat := Trying [k] ]}).
  set (l1 := (acquire_latches [k] Latches_new).2).
  set (s2 := mkSystem l1 (<[0%nat := Holding [k]]> (sys_tasks s1))).
  set (s3 := mkSystem l1 (<[1%nat := Trying [k]]> (sys_tasks s2))).
  set (s4 := mkSystem l1 (<[1%nat := Registering [k] 0%nat]> (sys_tasks s3))).
  set (s5 := mkSystem (release_latches [k] l1).2 (delete 0%nat (wake (Some 0%nat) <$> sys_tasks s4))).
  set (s6 := mkSystem (sys_latches s5) (<[1%nat := Waiting [k] 0%nat]> (sys_tasks s5))).
  exists s6, 1%nat. split_and!.
  - unfold reachable.
    eapply rtc_l; [apply (step_start initial 0 [k]); apply lookup_empty|].
    eapply rtc_l; [apply (step_acquire s1 0 [k] l1); [apply lookup_insert_eq|reflexivity]|].
    eapply rtc_l; [apply (step_start s2 1 [k]); reflexivity|].
    eapply rtc_l; [apply (step_blocked s3 1 [k] 0 l1); [apply lookup_insert_eq|reflexivity]|].
    eapply rtc_l; [apply (step_release s4 0 [k] (Some 0%nat)); [reflexivity|reflexivity]|].
    eapply rtc_l; [apply (step_register s5 1 [k] 0); reflexivity|]. reflexivity.
  - by apply map_eq.
  - assert (orphaned s6 1) as Ho.
    { exists [k], 0%nat. split_and!; [apply lookup_insert_eq|change (0 < 1)%nat; lia|].
      intros k'. assert (latch_map (sys_latches s6) = ∅) as -> by reflexivity.
      by rewrite lookup_empty. }
    intros s' Hrun. induction Hrun as [s|s s' s'' Hstep _ IH] in Ho |- *.
    + destruct Ho as (keys & n & Hi & _). eauto.
    + apply IH. by eapply orphaned_step.
Qed.

(** Tasks 0 and 1 hold one key each, and task 2, which wants both, waits. *)
Lemma latches_mutual_exclusion_witness :
  let a := [Byte.x61] in let b := [Byte.x62] in
  ∃ s, reachable s ∧
    sys_tasks s !! 0%nat = Some (Holding [a]) ∧ sys_tasks s !! 1%nat = Some (Holding [b]) ∧
    sys_tasks s !! 2%nat = Some (Waiting [a; b] 0) ∧
    (∃ i, (∃ keys, sys_tasks s !! i = Some (Holding keys) ∧ b ∈ keys) ∧
       ∀ j keys, sys_tasks s !! j = Some (Holding keys) → b ∈ keys → j = i) ∧
    latch_map (sys_latches s) !! [Byte.x63] = None.
Proof.
  intros a b.
  set (s1 := mkSystem Latches_new {[ 0%nat := Trying [a] ]}).
  set (l1 := (acquire_latches [a] Latches_new).2).
  set (s2 := mkSystem l1 (<[0%nat := Holding [a]]> (sys_tasks s1))).
  set (s3 := mkSystem l1 (<[1%nat := Trying [b]]> (sys_tasks s2))).
  set (l2 := (acquire_latches [b] l1).2).
  set (s4 := mkSystem l2 (<[1%nat := Holding [b]]> (sys_tasks s3))).
  set (s5 := mkSystem l2 (<[2%nat := Trying [a; b]]> (sys_tasks s4))).
  set (s6 := mkSystem l2 (<[2%nat := Registering [a; b] 0]> (sys_tasks s5))).
  set (s7 := mkSystem l2 (<[2%nat := Waiting [a; b] 0]> (sys_tasks s6))).
  assert (reachable s7) as Hr.
  { unfold reachable.
    eapply rtc_l; [apply (step_start initial 0 [a]); apply lookup_empty|].
    eapply rtc_l; [apply (step_acquire s1 0 [a] l1); [apply lookup_insert_eq|reflexivity]|].
    eapply rtc_l; [apply (step_start s2 1 [b]); reflexivity|].
    eapply rtc_l; [apply (step_acquire s3 1 [b] l2); [apply lookup_insert_eq|reflexivity]|].
    eapply rtc_l; [apply (step_start s4 2 [a; b]); reflexivity|].
    eapply rtc_l; [apply (step_blocked s5 2 [a; b] 0 l2); [apply lookup_insert_eq|reflexivity]|].
    eapply rtc_l; [apply (step_register s6 2 [a; b] 0); apply lookup_insert_eq|]. apply rtc_refl. }
  exists s7. split; [exact Hr|]. destruct (latches_mutual_exclusion s7 Hr) as [_ H].
  split; [reflexivity|]. split; [reflexivity|]. split; [reflexivity|]. split.
  - apply H. by exists 1%nat.
  - destruct (latch_map (sys_latches s7) !! [Byte.x63]) as [n|] eqn:E; [|reflexivity].
    by vm_compute in E.
Defined.
