(* ===== verification/Proto.v ===== *)
(** The messages of the key-value service: the region and error messages
    (proto/metapb.proto, proto/errorpb.proto), the requests and responses of
    src/proto/kvrpcpb.rs with their constructors, and the epoch
    check of src/server/epoch.rs.  A Rust [String] is its UTF-8 bytes. *)

From S2P Require Import Prelude Bytes Records.

(** ** metapb *)

Record RegionEpoch := mkRegionEpoch { re_conf_ver : Z; re_version : Z }.
#[export] Instance RegionEpoch_eq_dec : EqDecision RegionEpoch.
Proof. solve_decision. Defined.

Record Peer := mkPeer { pr_id : Z; pr_store_id : Z }.
#[export] Instance Peer_eq_dec : EqDecision Peer.
Proof. solve_decision. Defined.

Record Region := mkRegion {
  rg_id : Z;
  rg_start_key : bytes;
  rg_end_key : bytes;
  rg_region_epoch : option RegionEpoch;
  rg_peers : list Peer;
}.
#[export] Instance Region_eq_dec : EqDecision Region.
Proof. solve_decision. Defined.

(** ** errorpb *)

Record NotLeader := mkNotLeader { nl_region_id : Z; nl_leader : option Peer }.
Record RegionNotFound := mkRegionNotFound { rnf_region_id : Z }.
Record KeyNotInRegion := mkKeyNotInRegion {
  kn_key : bytes; kn_region_id : Z; kn_start_key : bytes; kn_end_key : bytes }.
Record StaleEpoch := mkStaleEpoch { se_new_regions : list Region }.
Record Error := mkError {
  er_message : bytes;
  er_not_leader : option NotLeader;
  er_region_not_found : option RegionNotFound;
  er_key_not_in_region : option KeyNotInRegion;
  er_stale_epoch : option StaleEpoch;
}.

(** ** kvrpcpb *)

Record Context := mkContext {
  cx_region_id : Z;
  cx_region_epoch : option RegionEpoch;
  cx_peer : option Peer;
  cx_term : Z;
}.
Definition Context_new (region_id : Z) : Context :=
  {| cx_region_id := region_id; cx_region_epoch := None; cx_peer := None; cx_term := 0 |}.
Definition with_epoch (c : Context) (epoch : RegionEpoch) : Context :=
  {| cx_region_id := cx_region_id c; cx_region_epoch := Some epoch;
     cx_peer := cx_peer c; cx_term := cx_term c |}.

Record LockInfo := mkLockInfo {
  li_primary_lock : bytes; li_lock_version : Z; li_key : bytes; li_lock_ttl : Z }.
Record WriteConflict := mkWriteConflict {
  wc_start_ts : Z; wc_conflict_ts : Z; wc_key : bytes; wc_primary : bytes }.
Record KeyError := mkKeyError {
  ke_locked : option LockInfo;
  ke_retryable : option bytes;
  ke_abort : option bytes;
  ke_conflict : option WriteConflict;
}.
Definition KeyError_locked (i : LockInfo) : KeyError := mkKeyError (Some i) None None None.
Definition KeyError_retryable (msg : bytes) : KeyError := mkKeyError None (Some msg) None None.
Definition KeyError_abort (msg : bytes) : KeyError := mkKeyError None None (Some msg) None.
Definition KeyError_conflict (c : WriteConflict) : KeyError := mkKeyError None None None (Some c).

Record KvPair := mkKvPair { kv_error : option KeyError; kv_key : bytes; kv_value : bytes }.
Definition KvPair_new (key value : bytes) : KvPair := mkKvPair None key value.
Definition KvPair_with_error (key : bytes) (e : KeyError) : KvPair := mkKvPair (Some e) key [].

(** The raw requests name a column family. *)
Record RawGetRequest := mkRawGetRequest { wg_context : Context; wg_key : bytes; wg_cf : string }.
Record RawGetResponse := mkRawGetResponse {
  wgr_region_error : option Error; wgr_error : option bytes;
  wgr_value : option bytes; wgr_not_found : bool }.
Definition RawGetResponse_ok (value : option bytes) : RawGetResponse :=
  mkRawGetResponse None None value (match value with None => true | Some _ => false end).
Record RawPutRequest := mkRawPutRequest {
  wp_context : Context; wp_key : bytes; wp_value : bytes; wp_cf : string }.
Record RawPutResponse := mkRawPutResponse {
  wpr_region_error : option Error; wpr_error : option bytes }.
Definition RawPutResponse_ok : RawPutResponse := mkRawPutResponse None None.
Record RawDeleteRequest := mkRawDeleteRequest { wd_context : Context; wd_key : bytes; wd_cf : string }.
Record RawDeleteResponse := mkRawDeleteResponse {
  wdr_region_error : option Error; wdr_error : option bytes }.
Definition RawDeleteResponse_ok : RawDeleteResponse := mkRawDeleteResponse None None.
Record RawScanRequest := mkRawScanRequest {
  ws_context : Context; ws_start_key : bytes; ws_limit : Z; ws_cf : string }.
Record RawScanResponse := mkRawScanResponse {
  wsr_region_error : option Error; wsr_error : option bytes; wsr_kvs : list KvPair }.
Definition RawScanResponse_ok (kvs : list KvPair) : RawScanResponse := mkRawScanResponse None None kvs.

(** The multi-level requests carry a secondary key. *)
Record MultiLevelPutRequest := mkMultiLevelPutRequest {
  mp_context : Context; mp_secondary_key : bytes; mp_value : bytes; mp_cf : string }.
Record MultiLevelPutResponse := mkMultiLevelPutResponse {
  mpr_region_error : option Error; mpr_error : option bytes }.
Definition MultiLevelPutResponse_ok : MultiLevelPutResponse := mkMultiLevelPutResponse None None.
Record MultiLevelGetRequest := mkMultiLevelGetRequest {
  mg_context : Context; mg_secondary_key : bytes; mg_cf : string }.
Record MultiLevelGetResponse := mkMultiLevelGetResponse {
  mgr_region_error : option Error; mgr_error : option bytes;
  mgr_value : option bytes; mgr_not_found : bool }.
Definition MultiLevelGetResponse_ok (value : option bytes) : MultiLevelGetResponse :=
  mkMultiLevelGetResponse None None value (match value with None => true | Some _ => false end).
Record MultiLevelDeleteRequest := mkMultiLevelDeleteRequest {
  md_context : Context; md_secondary_key : bytes; md_cf : string }.
Record MultiLevelDeleteResponse := mkMultiLevelDeleteResponse {
  mdr_region_error : option Error; mdr_error : option bytes }.
Definition MultiLevelDeleteResponse_ok : MultiLevelDeleteResponse := mkMultiLevelDeleteResponse None None.
Record MultiLevelScanRequest := mkMultiLevelScanRequest {
  ms_context : Context; ms_start_secondary_key : bytes; ms_limit : Z; ms_cf : string }.
Record MultiLevelKvPair := mkMultiLevelKvPair { mk_secondary_key : bytes; mk_value : bytes }.
Record MultiLevelScanResponse := mkMultiLevelScanResponse {
  msr_region_error : option Error; msr_error : option bytes; msr_kvs : list MultiLevelKvPair }.
Definition MultiLevelScanResponse_ok (kvs : list MultiLevelKvPair) : MultiLevelScanResponse :=
  mkMultiLevelScanResponse None None kvs.

Record GetRequest := mkGetRequest { gq_context : Context; gq_key : bytes; gq_version : Z }.
Record GetResponse := mkGetResponse {
  gr_region_error : option Error; gr_error : option KeyError;
  gr_value : option bytes; gr_not_found : bool }.
Definition GetResponse_ok (value : option bytes) : GetResponse :=
  mkGetResponse None None value (match value with None => true | Some _ => false end).
Definition GetResponse_with_key_error (e : KeyError) : GetResponse :=
  mkGetResponse None (Some e) None false.
Definition GetResponse_with_region_error (e : Error) : GetResponse :=
  mkGetResponse (Some e) None None false.

Record Mutation := mkMutation { mu_op : Op; mu_key : bytes; mu_value : bytes }.

Record PrewriteRequest := mkPrewriteRequest {
  pq_context : Context; pq_mutations : list Mutation; pq_primary_lock : bytes;
  pq_start_version : Z; pq_lock_ttl : Z }.
Record PrewriteResponse := mkPrewriteResponse {
  pp_region_error : option Error; pp_errors : list KeyError }.
Definition PrewriteResponse_ok : PrewriteResponse := mkPrewriteResponse None [].
Definition PrewriteResponse_with_errors (es : list KeyError) : PrewriteResponse :=
  mkPrewriteResponse None es.
Definition PrewriteResponse_with_region_error (e : Error) : PrewriteResponse :=
  mkPrewriteResponse (Some e) [].

Record CommitRequest := mkCommitRequest {
  cq_context : Context; cq_start_version : Z; cq_keys : list bytes; cq_commit_version : Z }.
Record CommitResponse := mkCommitResponse {
  cr_region_error : option Error; cr_error : option KeyError }.
Definition CommitResponse_ok : CommitResponse := mkCommitResponse None None.
Definition CommitResponse_with_key_error (e : KeyError) : CommitResponse :=
  mkCommitResponse None (Some e).
Definition CommitResponse_with_region_error (e : Error) : CommitResponse :=
  mkCommitResponse (Some e) None.

Record ScanRequest := mkScanRequest {
  sq_context : Context; sq_start_key : bytes; sq_limit : Z; sq_version : Z }.
Record ScanResponse := mkScanResponse {
  sr_region_error : option Error; sr_pairs : list KvPair }.
Definition ScanResponse_ok (pairs : list KvPair) : ScanResponse := mkScanResponse None pairs.
Definition ScanResponse_with_region_error (e : Error) : ScanResponse := mkScanResponse (Some e) [].

Inductive Action := NoAction | TtlExpireRollback | LockNotExistRollback.

Record CheckTxnStatusRequest := mkCheckTxnStatusRequest {
  kq_context : Context; kq_primary_key : bytes; kq_lock_ts : Z; kq_current_ts : Z }.
Record CheckTxnStatusResponse := mkCheckTxnStatusResponse {
  kr_region_error : option Error; kr_lock_ttl : Z; kr_commit_version : Z; kr_action : Action }.
Definition CheckTxnStatusResponse_locked (ttl : Z) : CheckTxnStatusResponse :=
  mkCheckTxnStatusResponse None ttl 0 NoAction.
Definition CheckTxnStatusResponse_committed (version : Z) : CheckTxnStatusResponse :=
  mkCheckTxnStatusResponse None 0 version NoAction.
Definition CheckTxnStatusResponse_rolled_back (a : Action) : CheckTxnStatusResponse :=
  mkCheckTxnStatusResponse None 0 0 a.
Definition CheckTxnStatusResponse_with_region_error (e : Error) : CheckTxnStatusResponse :=
  mkCheckTxnStatusResponse (Some e) 0 0 NoAction.

Record BatchRollbackRequest := mkBatchRollbackRequest {
  bq_context : Context; bq_start_version : Z; bq_keys : list bytes }.
Record BatchRollbackResponse := mkBatchRollbackResponse {
  br_region_error : option Error; br_error : option KeyError }.
Definition BatchRollbackResponse_ok : BatchRollbackResponse := mkBatchRollbackResponse None None.
Definition BatchRollbackResponse_with_key_error (e : KeyError) : BatchRollbackResponse :=
  mkBatchRollbackResponse None (Some e).
Definition BatchRollbackResponse_with_region_error (e : Error) : BatchRollbackResponse :=
  mkBatchRollbackResponse (Some e) None.

Record ResolveLockRequest := mkResolveLockRequest {
  lq_context : Context; lq_start_version : Z; lq_commit_version : Z }.
Record ResolveLockResponse := mkResolveLockResponse {
  lr_region_error : option Error; lr_error : option KeyError }.
Definition ResolveLockResponse_ok : ResolveLockResponse := mkResolveLockResponse None None.
Definition ResolveLockResponse_with_key_error (e : KeyError) : ResolveLockResponse :=
  mkResolveLockResponse None (Some e).
Definition ResolveLockResponse_with_region_error (e : Error) : ResolveLockResponse :=
  mkResolveLockResponse (Some e) None.

(** ** The answers of a remote call *)

(** [tonic::Status]. *)
Inductive Code := InvalidArgument | NotFound | Internal.
Record Status := mkStatus { status_code : Code; status_message : string }.

(** [call.map_err(|e| Status::new(code, e.to_string()))] *)
Definition or_status {S A} (code : Code) (m : M S A) : M S (Status + A) := λ s,
  match m s with
  | (Ok a, s') => (Ok (inr a), s')
  | (Err e, s') => (Ok (inl (mkStatus code e)), s')
  | (Panic, s') => (Panic, s')
  | (Diverge, s') => (Diverge, s')
  end.
Definition answer {S A} (a : A) : M S (Status + A) := mret (inr a).

(** ** The epoch check *)

(** [Result<(), Error>]: the error is the message sent back. *)
Definition check_region_epoch (request_epoch : option RegionEpoch) (current_region : Region)
  : unit + Error :=
  let stale := inr {| er_message := []; er_not_leader := None; er_region_not_found := None;
                      er_key_not_in_region := None;
                      er_stale_epoch := Some (mkStaleEpoch [current_region]) |} in
  match request_epoch with
  | None => inl tt
  | Some req_epoch =>
      match rg_region_epoch current_region with
      | None => inl tt
      | Some current_epoch =>
          if decide (re_version req_epoch ≠ re_version current_epoch) then stale
          else if decide (re_conf_ver req_epoch ≠ re_conf_ver current_epoch) then stale
          else inl tt
      end
  end.

Definition is_epoch_stale (epoch check_epoch : RegionEpoch) : bool :=
  (re_version epoch <? re_version check_epoch) || (re_conf_ver epoch <? re_conf_ver check_epoch).

(** The epoch check accepts a request exactly when it carries no epoch, or
    the region has none, or both epochs are equal; every refusal sends the
    current region back, and a request whose epoch is stale against the
    region's is refused. *)
Theorem check_region_epoch_exact (req : option RegionEpoch) (region : Region) :
  (check_region_epoch req region = inl tt ↔
   req = None ∨ rg_region_epoch region = None ∨ req = rg_region_epoch region) ∧
  (∀ e, check_region_epoch req region = inr e →
     er_stale_epoch e = Some (mkStaleEpoch [region]) ∧ er_message e = []) ∧
  (∀ a b, req = Some a → rg_region_epoch region = Some b → is_epoch_stale a b = true →
     ∃ e, check_region_epoch req region = inr e).
Proof.
  unfold check_region_epoch. destruct req as [[c v]|]; [|naive_solver].
  destruct (rg_region_epoch region) as [[c' v']|]; [|naive_solver]. cbn.
  repeat case_decide; (split; [split; naive_solver|split; [naive_solver|]]).
  - naive_solver.
  - naive_solver.
  - intros a b [= <-] [= <-]. unfold is_epoch_stale. cbn. intros. lia.
Qed.
