(* ===== verification/MvccTxn.v ===== *)
(** Multi-version transactions over a storage, src/transaction/mvcc/transaction.rs:
    the buffered writes of a transaction and its reads of locks, values and
    write records at its start timestamp. *)

From stdpp Require Import sorting.
From S2P Require Import Prelude Bytes Codec Records Engine Storage.

(** A bound on the turns of the loops over an iterator; the theorems ask for
    one that exceeds the number of entries of the column family. *)
Class LoopBound := loop_bound : nat.

Section txn.
Context `{storage : Storage} `{bound : LoopBound}.

(** The reader is the storage the calls run on. *)
Record MvccTxn := mkTxn { txn_start_ts : Z; txn_writes : list Modify }.

Definition MvccTxn_new (start_ts : Z) : MvccTxn := {| txn_start_ts := start_ts; txn_writes := [] |}.

Definition push (m : Modify) (t : MvccTxn) : MvccTxn :=
  {| txn_start_ts := txn_start_ts t; txn_writes := txn_writes t ++ [m] |}.

Definition put_write (key : bytes) (ts : Z) (w : Write) (t : MvccTxn) : MvccTxn :=
  push (MPut (encode_key key ts) (Write_to_bytes w) CF_WRITE) t.

Definition get_lock (key : bytes) : M sto (option Lock) :=
  r ← sto_get_cf CF_LOCK key;
  match r with
  | Some value => l ← lift (map_err "failed to parse lock: " (Lock_parse value)); mret (Some l)
  | None => mret None
  end.

Definition put_lock (key : bytes) (l : Lock) (t : MvccTxn) : MvccTxn :=
  push (MPut key (Lock_to_bytes l) CF_LOCK) t.

Definition delete_lock (key : bytes) (t : MvccTxn) : MvccTxn := push (MDelete key CF_LOCK) t.

Definition put_value (key value : bytes) (t : MvccTxn) : MvccTxn :=
  push (MPut (encode_key key (txn_start_ts t)) value CF_DEFAULT) t.

Definition delete_value (key : bytes) (t : MvccTxn) : MvccTxn :=
  push (MDelete (encode_key key (txn_start_ts t)) CF_DEFAULT) t.

Definition current_write (key : bytes) (t : MvccTxn) : M sto (option Write * Z) :=
  s ← get;
  let it := iter_seek (encode_key key (txn_start_ts t)) (sto_iter_cf CF_WRITE s) in
  if negb (iter_valid it) then mret (None, 0)
  else
    let '(encoded_key, value) := iter_item it in
    user_key ← lift (decode_user_key encoded_key);
    if decide (user_key ≠ key) then mret (None, 0)
    else
      commit_ts ← lift (decode_timestamp encoded_key);
      if decide (commit_ts ≠ txn_start_ts t) then mret (None, 0)
      else w ← lift (map_err "failed to parse write: " (Write_parse value)); mret (w, commit_ts).

(** The loop of [most_recent_write]. *)
Fixpoint most_recent_loop (fuel : nat) (key : bytes) (start_ts : Z) (it : iter)
  : outcome (option Write * Z) :=
  match fuel with
  | O => Diverge
  | S fuel' =>
      if iter_valid it then
        let '(encoded_key, value) := iter_item it in
        match decode_user_key encoded_key with
        | Err _ => most_recent_loop fuel' key start_ts (iter_next it)
        | Ok user_key =>
            if decide (user_key ≠ key) then Ok (None, 0)
            else
              match decode_timestamp encoded_key with
              | Err _ => most_recent_loop fuel' key start_ts (iter_next it)
              | Ok commit_ts =>
                  if commit_ts <=? start_ts then
                    w ← map_err "failed to parse write: " (Write_parse value);
                    match w with
                    | Some w => Ok (Some w, commit_ts)
                    | None => most_recent_loop fuel' key start_ts (iter_next it)
                    end
                  else most_recent_loop fuel' key start_ts (iter_next it)
              | Panic => Panic
              | Diverge => Diverge
              end
        | Panic => Panic
        | Diverge => Diverge
        end
      else Ok (None, 0)
  end.

Definition most_recent_write (key : bytes) (t : MvccTxn) : M sto (option Write * Z) :=
  s ← get;
  let it := iter_seek (encode_key key u64_max) (sto_iter_cf CF_WRITE s) in
  let it := if negb (iter_valid it) then iter_seek (encode_bytes key) it else it in
  lift (most_recent_loop loop_bound key (txn_start_ts t) it).

Definition get_value (key : bytes) (t : MvccTxn) : M sto (option bytes) :=
  l ← get_lock key;
  if (match l with Some l => bool_decide (lock_ts l ≠ txn_start_ts t) | None => false end)
  then raise "key is locked by another transaction"
  else
    '(w, _) ← most_recent_write key t;
    match w with
    | Some w =>
        match write_kind w with
        | WkPut => sto_get_cf CF_DEFAULT (encode_key key (write_start_ts w))
        | WkDelete => mret None
        | WkRollback => mret None
        end
    | None => mret None
    end.
End txn.

#[global] Arguments get_lock : simpl never.
#[global] Arguments most_recent_write : simpl never.
#[global] Arguments current_write : simpl never.

(** ** What a write column family holds *)

Section views.
Implicit Types (m : gmap bytes bytes).

(** Every entry is a write record under an encoded key. *)
Definition write_cf_ok m : Prop :=
  ∀ k v, m !! k = Some v →
    ∃ uk ts w, k = encode_key uk ts ∧ is_u64 ts ∧ Write_ok w ∧ v = Write_to_bytes w.

(** The record of a key at a commit timestamp. *)
Definition record_at m (key : bytes) (ts : Z) : option Write :=
  match m !! encode_key key ts with
  | Some v => match Write_parse v with Ok o => o | _ => None end
  | None => None
  end.

(** The newest record of a key at or below a timestamp. *)
Definition newest m (key : bytes) (start : Z) (r : option Write * Z) : Prop :=
  match r with
  | (Some w, ts) => is_u64 ts ∧ ts ≤ start ∧ record_at m key ts = Some w ∧
      ∀ ts', is_u64 ts' → ts < ts' ≤ start → record_at m key ts' = None
  | (None, ts) => ts = 0 ∧ ∀ ts', is_u64 ts' → ts' ≤ start → record_at m key ts' = None
  end.

Lemma record_at_Some m key ts w :
  write_cf_ok m → is_u64 ts →
  record_at m key ts = Some w ↔ m !! encode_key key ts = Some (Write_to_bytes w) ∧ Write_ok w.
Proof.
  intros Hok Hts. unfold record_at. split.
  - destruct (m !! _) as [v|] eqn:E; [|done].
    destruct (Hok _ _ E) as (uk & ts' & w' & _ & _ & Hw & ->).
    rewrite Write_parse_to_bytes by done. naive_solver.
  - intros [-> Hw]. by rewrite Write_parse_to_bytes.
Qed.

Lemma record_at_None m key ts :
  write_cf_ok m → record_at m key ts = None ↔ m !! encode_key key ts = None.
Proof.
  intros Hok. unfold record_at. split; [|by intros ->].
  destruct (m !! _) as [v|] eqn:E; [|done].
  destruct (Hok _ _ E) as (uk & ts' & w' & _ & _ & Hw & ->). by rewrite Write_parse_to_bytes.
Qed.

Lemma newest_unique m key start r1 r2 :
  newest m key start r1 → newest m key start r2 → r1 = r2.
Proof.
  destruct r1 as [[w1|] t1], r2 as [[w2|] t2]; cbn.
  - intros (U1 & L1 & R1 & N1) (U2 & L2 & R2 & N2).
    destruct (Z.lt_trichotomy t1 t2) as [H|[->|H]].
    + rewrite N1 in R2 by done || lia. done.
    + congruence.
    + rewrite N2 in R1 by done || lia. done.
  - intros (U1 & L1 & R1 & _) [_ N]. by rewrite N in R1.
  - intros [_ N] (U1 & L1 & R1 & _). by rewrite N in R1.
  - by intros [-> _] [-> _].
Qed.
End views.

Section reads.
Context `{laws : StorageLaws} `{bound : LoopBound}.
Implicit Types (t : MvccTxn).

(** The write column family is well formed and smaller than the loop bound. *)
Record write_ready (m : gmap bytes bytes) : Prop := {
  wr_ok : write_cf_ok m;
  wr_bound : (size m < loop_bound)%nat;
}.

(** In a sorted list, seeking keeps what is not below the key and nothing
    else. *)
Lemma elem_of_seek k (l : list (bytes * bytes)) e :
  StronglySorted key_lt l →
  e ∈ drop_while (λ e, bytes_ltb e.1 k) l ↔ e ∈ l ∧ bytes_leb k e.1 = true.
Proof.
  induction l as [|f l IH]; intros Hs; cbn [drop_while]; [set_solver|].
  apply StronglySorted_cons in Hs as [Hf Hl]. rewrite Forall_forall in Hf.
  destruct (bytes_ltb f.1 k) eqn:E.
  - rewrite IH by done. split.
    + intros [? ?]. split; [by right|done].
    + intros [[->|?]%elem_of_cons Hle]; [|done].
      apply bytes_ltb_lt in E. apply bytes_leb_lt_or_eq in Hle as [Hlt|Heq].
      * by destruct (bytes_lt_asym _ _ E Hlt).
      * rewrite <- Heq in E. by apply bytes_lt_irrefl in E.
  - apply bytes_ltb_ge in E. split; [|by intros [? _]]. intros He. split; [done|].
    apply elem_of_cons in He as [->|He]; [done|].
    apply bytes_leb_lt_or_eq. apply bytes_leb_lt_or_eq in E as [E| ->].
    + left. eapply bytes_lt_trans; [exact E|]. by apply (Hf e).
    + left. by apply (Hf e).
Qed.

Lemma drop_while_sorted k (l : list (bytes * bytes)) :
  StronglySorted key_lt l → StronglySorted key_lt (drop_while (λ e, bytes_ltb e.1 k) l).
Proof.
  induction l as [|f l IH]; intros Hs; cbn [drop_while]; [done|].
  case_match; [|done]. apply IH. by apply StronglySorted_cons in Hs as [_ ?].
Qed.

Lemma iter_valid_nil i : iter_rest i = [] → iter_valid i = false.
Proof. intros E. by rewrite iter_valid_rest, bool_decide_eq_true_2. Qed.
Lemma iter_valid_cons i e l : iter_rest i = e :: l → iter_valid i = true.
Proof. intros E. rewrite iter_valid_rest, bool_decide_eq_false_2; [done|]. by rewrite E. Qed.

(** The loop finds the newest record of the key among the entries it still
    has, when they are at or behind the position of the key. *)
Lemma most_recent_loop_spec m key start fuel it :
  write_cf_ok m → (length (iter_rest it) < fuel)%nat →
  StronglySorted key_lt (iter_rest it) →
  (∀ k v, (k, v) ∈ iter_rest it → m !! k = Some v ∧ bytes_leb (encode_key key u64_max) k = true) →
  (∀ ts v, is_u64 ts → ts ≤ start → m !! encode_key key ts = Some v →
     (encode_key key ts, v) ∈ iter_rest it) →
  ∃ r, most_recent_loop fuel key start it = Ok r ∧ newest m key start r.
Proof.
  intros Hok. revert it. induction fuel as [|fuel IH]; intros it Hfuel Hs Hin Hall; [lia|].
  cbn [most_recent_loop]. destruct (iter_rest it) as [|[k v] rest] eqn:Hrest.
  { rewrite (iter_valid_nil it Hrest). exists (None, 0). split; [done|]. cbn. split; [done|].
    intros ts' Hts Hle. apply record_at_None; [done|].
    destruct (m !! encode_key key ts') eqn:E; [|done].
    apply Hall in E; [|done|done]. by apply not_elem_of_nil in E. }
  rewrite (iter_valid_cons it _ _ Hrest), (iter_item_rest it _ _ Hrest).
  destruct (Hin k v) as [Hk Hge]; [by left|].
  destruct (Hok k v Hk) as (uk & ts & w & -> & Hts & Hw & ->).
  rewrite decode_user_key_encode_key, decode_timestamp_encode_key by done.
  apply StronglySorted_cons in Hs as [Hlt Hs]. rewrite Forall_forall in Hlt.
  case_decide as Huk.
  { exists (None, 0). split; [done|]. cbn. split; [done|]. intros ts' Hts' Hle.
    apply record_at_None; [done|]. destruct (m !! encode_key key ts') as [v'|] eqn:E; [|done].
    exfalso. apply Hall in E; [|done|done].
    assert (bytes_cmp key uk = Lt) as Hcmp.
    { unfold bytes_leb in Hge.
      rewrite encode_key_order_aux in Hge by (done || (unfold is_u64, u64_max; lia)).
      destruct (bytes_cmp key uk) eqn:Ec; [|done|done]. apply bytes_cmp_eq in Ec. congruence. }
    apply elem_of_cons in E as [E|E].
    - injection E as E _. apply encode_key_inj in E as [? _]; [congruence|done|done].
    - apply Hlt in E. unfold key_lt, bytes_lt in E. cbn in E.
      rewrite encode_key_order_aux, (bytes_cmp_antisym key uk), Hcmp in E by done. done. }
  subst uk.
  destruct (Z.leb_spec ts start) as [Hle|Hgt].
  - rewrite Write_parse_to_bytes by done. cbn [mbind outcome_bind].
    exists (Some w, ts). split; [done|]. cbn. split_and!; [done|done|by apply record_at_Some|].
    intros ts' Hts' Hr. apply record_at_None; [done|].
    destruct (m !! encode_key key ts') as [v'|] eqn:E; [|done]. exfalso.
    apply Hall in E; [|done|lia]. apply elem_of_cons in E as [E|E].
    + injection E as E _. apply encode_key_inj in E as [_ ?]; [lia|done|done].
    + apply Hlt in E. unfold key_lt, bytes_lt in E. cbn in E.
      rewrite encode_key_order_aux, bytes_cmp_refl in E by done. change (ts' < ts) in E. lia.
  - apply IH; rewrite (iter_next_rest it _ _ Hrest).
    + cbn in Hfuel. lia.
    + done.
    + intros k' v' Hin'. apply Hin. by right.
    + intros ts' v' Hts' Hle' E. apply Hall in E; [|done|done].
      apply elem_of_cons in E as [E|E]; [|done].
      injection E as E _. apply encode_key_inj in E as [_ ?]; [lia|done|done].
Qed.

Lemma iter_all_length cf s : length (iter_all (sto_iter_cf cf s)) = size (cf_view s cf).
Proof.
  rewrite <- length_map_to_list. apply Permutation_length, NoDup_Permutation.
  - eapply NoDup_fmap_1, NoDup_sorted_keys, iter_all_sorted.
  - apply NoDup_map_to_list.
  - intros [k v]. by rewrite iter_all_view, elem_of_map_to_list.
Qed.

Lemma length_drop_while_le {A} (p : A → bool) l n :
  (length l < n)%nat → (length (drop_while p l) < n)%nat.
Proof. pose proof (length_drop_while p l). lia. Qed.

Lemma encode_key_max key ts :
  is_u64 ts → bytes_leb (encode_key key u64_max) (encode_key key ts) = true.
Proof.
  intros Hts. unfold bytes_leb.
  rewrite encode_key_order_aux, bytes_cmp_refl by (done || (unfold is_u64, u64_max; lia)).
  unfold is_u64 in Hts. by destruct (Z.compare_spec ts u64_max); [..|lia].
Qed.

(** The search for the newest record, with its second seek. *)
Lemma most_recent_write_run key t s :
  write_ready (cf_view s CF_WRITE) →
  ∃ r, most_recent_write key t s = (Ok r, s) ∧
       newest (cf_view s CF_WRITE) key (txn_start_ts t) r.
Proof.
  intros [Hok Hb]. set (m := cf_view s CF_WRITE) in *.
  unfold most_recent_write. rewrite (M_bind_run get _ _ _ _ eq_refl). cbv zeta.
  set (it0 := sto_iter_cf CF_WRITE s).
  pose proof (iter_all_sorted CF_WRITE s : StronglySorted key_lt (iter_all it0)) as Hsort.
  pose proof (iter_all_view CF_WRITE s : ∀ k v, (k, v) ∈ iter_all it0 ↔ m !! k = Some v) as Hview.
  assert (length (iter_all it0) < loop_bound)%nat as Hlen by (unfold it0; by rewrite iter_all_length).
  set (it1 := iter_seek (encode_key key u64_max) it0).
  assert (iter_rest it1 = drop_while (λ e, bytes_ltb e.1 (encode_key key u64_max)) (iter_all it0))
    as Hrest by apply iter_seek_rest.
  destruct (iter_valid it1) eqn:Hv; cbn [negb].
  - destruct (most_recent_loop_spec m key (txn_start_ts t) loop_bound it1) as (r & Hr & Hn).
    + done.
    + rewrite Hrest. by apply length_drop_while_le.
    + rewrite Hrest. by apply drop_while_sorted.
    + intros k v Hin. rewrite Hrest in Hin. apply elem_of_seek in Hin as [Hin Hge]; [|done].
      split; [by apply Hview|done].
    + intros ts v Hts _ E. rewrite Hrest. apply elem_of_seek; [done|].
      split; [by apply Hview|by apply encode_key_max].
    + exists r. unfold lift. by rewrite Hr.
  - assert (iter_rest it1 = []) as Hnil.
    { rewrite iter_valid_rest in Hv. by case_bool_decide. }
    assert (∀ uk ts v, m !! encode_key uk ts = Some v → is_u64 ts → uk ≠ key) as Hno.
    { intros uk ts v E Hts ->.
      assert ((encode_key key ts, v) ∈ iter_rest it1) as Hin.
      { rewrite Hrest. apply elem_of_seek; [done|]. split; [by apply Hview|by apply encode_key_max]. }
      rewrite Hnil in Hin. by apply not_elem_of_nil in Hin. }
    exists (None, 0). split.
    + unfold lift. f_equal. set (it2 := iter_seek (encode_bytes key) it1).
      destruct loop_bound as [|fuel]; [lia|]. cbn [most_recent_loop].
      destruct (iter_rest it2) as [|[k v] rest] eqn:Hrest2; [by rewrite (iter_valid_nil it2)|].
      rewrite (iter_valid_cons it2 _ _ Hrest2), (iter_item_rest it2 _ _ Hrest2).
      assert (m !! k = Some v) as Hk.
      { apply Hview. unfold it2 in Hrest2. rewrite iter_seek_rest in Hrest2.
        unfold it1 in Hrest2. rewrite iter_seek_all in Hrest2.
        eapply (proj1 (elem_of_seek (encode_bytes key) (iter_all it0) (k, v) Hsort)).
        rewrite Hrest2. by left. }
      destruct (Hok k v Hk) as (uk & ts & w & -> & Hts & _ & _).
      rewrite decode_user_key_encode_key, decide_True; [done|]. by eapply Hno.
    + cbn. split; [done|]. intros ts' Hts' _. apply record_at_None; [done|].
      destruct (m !! encode_key key ts') eqn:E; [|done]. by destruct (Hno _ _ _ E Hts').
Qed.

(** [current_write] looks at one timestamp only: the start timestamp. *)
Lemma current_write_run key t s :
  write_ready (cf_view s CF_WRITE) → is_u64 (txn_start_ts t) →
  current_write key t s
  = (Ok match record_at (cf_view s CF_WRITE) key (txn_start_ts t) with
        | Some w => (Some w, txn_start_ts t)
        | None => (None, 0)
        end, s).
Proof.
  intros [Hok Hb] Hst. set (m := cf_view s CF_WRITE) in *. set (ts0 := txn_start_ts t) in *.
  unfold current_write. rewrite (M_bind_run get _ _ _ _ eq_refl). cbv zeta. fold ts0.
  set (it0 := sto_iter_cf CF_WRITE s).
  pose proof (iter_all_sorted CF_WRITE s : StronglySorted key_lt (iter_all it0)) as Hsort.
  pose proof (iter_all_view CF_WRITE s : ∀ k v, (k, v) ∈ iter_all it0 ↔ m !! k = Some v) as Hview.
  set (it1 := iter_seek (encode_key key ts0) it0).
  pose proof (iter_seek_rest (encode_key key ts0) it0 : iter_rest it1 = _) as Hrest.
  pose proof (drop_while_sorted (encode_key key ts0) _ Hsort) as Hsort1.
  assert (∀ k v, (k, v) ∈ iter_rest it1 ↔ m !! k = Some v ∧ bytes_leb (encode_key key ts0) k = true)
    as Hin1.
  { intros k v. rewrite Hrest, elem_of_seek, Hview by done. done. }
  rewrite <- Hrest in Hsort1.
  assert (∀ v, m !! encode_key key ts0 = Some v → (encode_key key ts0, v) ∈ iter_rest it1) as Hat.
  { intros v E. apply Hin1. split; [done|]. unfold bytes_leb. by rewrite bytes_cmp_refl. }
  destruct (iter_rest it1) as [|[k v] rest] eqn:Er.
  { rewrite (iter_valid_nil it1 Er). cbn [negb].
    destruct (record_at m key ts0) eqn:E; [|done]. apply record_at_Some in E as [E _]; [|done|done].
    apply Hat in E. by apply not_elem_of_nil in E. }
  rewrite (iter_valid_cons it1 _ _ Er), (iter_item_rest it1 _ _ Er). cbn [negb].
  destruct (proj1 (Hin1 k v)) as [Hk Hge]; [by left|].
  destruct (Hok k v Hk) as (uk & ts & w & -> & Hts & Hw & ->).
  rewrite decode_user_key_encode_key, (M_bind_run (lift _) _ _ _ _ eq_refl).
  assert (encode_key uk ts ≠ encode_key key ts0 → record_at m key ts0 = None) as Hnone.
  { intros Hne. apply record_at_None; [done|]. destruct (m !! encode_key key ts0) as [v'|] eqn:E; [|done].
    specialize (Hat v' eq_refl). clear E. rename Hat into E.
    apply elem_of_cons in E as [E|E]; [injection E as E _; congruence|].
    apply StronglySorted_cons in Hsort1 as [Hlt _]. rewrite Forall_forall in Hlt.
    apply Hlt in E. unfold key_lt in E. cbn in E.
    apply bytes_leb_lt_or_eq in Hge as [Hge|Hge]; [by destruct (bytes_lt_asym _ _ E Hge)|congruence]. }
  case_decide as Huk.
  { rewrite Hnone; [done|]. intros E. apply encode_key_inj in E as [? _]; done. }
  subst uk. rewrite decode_timestamp_encode_key, (M_bind_run (lift _) _ _ _ _ eq_refl) by done.
  case_decide as Hne.
  { rewrite Hnone; [done|]. intros E. apply encode_key_inj in E as [_ ?]; done. }
  rewrite <- Hne.
  rewrite (proj2 (record_at_Some m key ts w Hok Hts) (conj Hk Hw)).
  rewrite Write_parse_to_bytes by done. done.
Qed.
End reads.

(** ** Reading at a snapshot *)

Section snapshot.
Context `{reliable : ReliableStorage} `{bound : LoopBound}.
Implicit Types (t : MvccTxn).

(** The lock of a key. *)
Definition lock_of (m : gmap bytes bytes) (key : bytes) : outcome (option Lock) :=
  match m !! key with
  | Some v => l ← map_err "failed to parse lock: " (Lock_parse v); Ok (Some l)
  | None => Ok None
  end.

Lemma get_lock_run key s :
  (get_lock key s).1 = lock_of (cf_view s CF_LOCK) key ∧ cf_view (get_lock key s).2 = cf_view s.
Proof.
  unfold get_lock. pose proof (sto_get_total CF_LOCK key s) as Hg.
  pose proof (sto_get_view CF_LOCK key s) as Hv. unfold_M.
  destruct (sto_get_cf CF_LOCK key s) as [o s']. cbn in *. subst o. unfold lock_of.
  destruct (cf_view s CF_LOCK !! key) as [v|]; [|done]. unfold mbind, outcome_bind.
  by destruct (map_err _ (Lock_parse v)).
Qed.

(** What a reader at [start] is allowed past: no lock, or its own. *)
Definition lock_allows (lk : option Lock) (start : Z) : bool :=
  match lk with Some l => lock_ts l =? start | None => true end.

(** The value a record stands for. *)
Definition value_of (d : gmap bytes bytes) (key : bytes) (w : option Write) : option bytes :=
  match w with
  | Some w => match write_kind w with
              | WkPut => d !! encode_key key (write_start_ts w)
              | _ => None
              end
  | None => None
  end.

Lemma get_value_run key t s lk :
  write_ready (cf_view s CF_WRITE) → lock_of (cf_view s CF_LOCK) key = Ok lk →
  ∃ s', cf_view s' = cf_view s ∧
  if lock_allows lk (txn_start_ts t)
  then ∃ w, newest (cf_view s CF_WRITE) key (txn_start_ts t) w ∧
            get_value key t s = (Ok (value_of (cf_view s CF_DEFAULT) key w.1), s')
  else ∃ e, get_value key t s = (Err e, s').
Proof.
  intros Hr Hlk. destruct (get_lock_run key s) as [H1 H2]. rewrite Hlk in H1.
  apply run_ok in H1. set (s1 := (get_lock key s).2) in *.
  unfold get_value. rewrite (M_bind_run _ _ _ _ _ H1).
  assert (match lk with Some l => bool_decide (lock_ts l ≠ txn_start_ts t) | None => false end
          = negb (lock_allows lk (txn_start_ts t))) as ->.
  { destruct lk as [l|]; [|done]. cbn. case_bool_decide; lia. }
  destruct (lock_allows lk (txn_start_ts t)); cbn [negb].
  - destruct (most_recent_write_run key t s1) as (w & Hw & Hn); [by rewrite H2|].
    rewrite H2 in Hn. rewrite (M_bind_run _ _ _ _ _ Hw). destruct w as [[w|] ts]; cbn [fst value_of].
    + destruct (write_kind w) eqn:Hk.
      * pose proof (sto_get_total CF_DEFAULT (encode_key key (write_start_ts w)) s1) as Hg.
        apply run_ok in Hg. rewrite H2 in Hg.
        exists (sto_get_cf CF_DEFAULT (encode_key key (write_start_ts w)) s1).2. split.
        -- rewrite sto_get_view. exact H2.
        -- exists (Some w, ts). split; [done|]. cbn. rewrite Hk. exact Hg.
      * exists s1. split; [done|]. exists (Some w, ts). split; [done|]. cbn. by rewrite Hk.
      * exists s1. split; [done|]. exists (Some w, ts). split; [done|]. cbn. by rewrite Hk.
    + exists s1. split; [done|]. by exists (None, ts).
  - exists s1. split; [done|]. by eexists.
Qed.


(** A rollback record hides committed data.  Once a key carries a rollback
    record, readers between it and the next record find nothing, also where an
    older committed put is in force: the search stops at the rollback. *)
Theorem rollback_hides_value key t s tr w0 tp :
  write_ready (cf_view s CF_WRITE) → lock_of (cf_view s CF_LOCK) key = Ok None →
  is_u64 tr → tp < tr ≤ txn_start_ts t →
  record_at (cf_view s CF_WRITE) key tp = Some (mkWrite w0 WkPut) →
  record_at (cf_view s CF_WRITE) key tr = Some (mkWrite tr WkRollback) →
  (∀ ts, is_u64 ts → tr < ts ≤ txn_start_ts t → record_at (cf_view s CF_WRITE) key ts = None) →
  (get_value key t s).1 = Ok None.
Proof.
  intros Hr Hlk Htr Ht _ Hroll Hnone.
  destruct (get_value_run key t s None Hr Hlk) as (s' & _ & w & Hn & ->).
  assert (newest (cf_view s CF_WRITE) key (txn_start_ts t) (Some (mkWrite tr WkRollback), tr)) as Hn'.
  { cbn. split_and!; [done|lia|done|]. intros ts' H1 H2. apply Hnone; [done|lia]. }
  by rewrite (newest_unique _ _ _ _ _ Hn Hn').
Qed.
End snapshot.

(** ** A storage to evaluate on *)

Section samples.
#[local] Existing Instance map_storage.
#[local] Existing Instance map_storage_laws.
#[local] Existing Instance map_storage_reliable.
#[local] Instance sample_bound : LoopBound := 10%nat.

(** The state after a batch of modifications of the empty storage. *)
Definition storage_with (b : list Modify) : sto (Storage := map_storage) :=
  λ cf, foldl (apply_modify cf) (∅ : gmap bytes bytes) b.

Lemma write_cf_ok_put m k ts w :
  write_cf_ok m → is_u64 ts → Write_ok w → write_cf_ok (<[encode_key k ts := Write_to_bytes w]> m).
Proof.
  intros Hm Hts Hw k' v. rewrite lookup_insert_Some. intros [[<- <-]|[_ H]]; [|by apply Hm].
  by exists k, ts, w.
Qed.

Lemma write_cf_ok_empty : write_cf_ok ∅.
Proof. intros k v H. by rewrite lookup_empty in H. Qed.

Definition uk : bytes := [Byte.x6b].

(** [uk] was put at 5 (started at 3) and rolled back at 8. *)
Definition sample_sto : sto (Storage := map_storage) :=
  storage_with [MPut (encode_key uk 3) [Byte.x0a] CF_DEFAULT;
                MPut (encode_key uk 5) (Write_to_bytes (mkWrite 3 WkPut)) CF_WRITE;
                MPut (encode_key uk 8) (Write_to_bytes (mkWrite 8 WkRollback)) CF_WRITE].

Lemma sample_ready : write_ready (cf_view sample_sto CF_WRITE).
Proof.
  split; [|by vm_compute; lia].
  change (write_cf_ok (<[encode_key uk 8 := Write_to_bytes (mkWrite 8 WkRollback)]>
    (<[encode_key uk 5 := Write_to_bytes (mkWrite 3 WkPut)]> (∅ : gmap bytes bytes)))).
  apply write_cf_ok_put; [apply write_cf_ok_put; [apply write_cf_ok_empty|..]|..];
    by split; vm_compute.
Qed.


Lemma rollback_hides_value_witness : (get_value uk (MvccTxn_new 9) sample_sto).1 = Ok None.
Proof.
  refine (rollback_hides_value uk (MvccTxn_new 9) sample_sto 8 3 5 sample_ready eq_refl _ _
    (eq_refl _) (eq_refl _) _).
  - by split; vm_compute.
  - by split; vm_compute.
  - intros ts Hts Hr. assert (ts = 9) as -> by (cbn in Hr; lia). by vm_compute.
Defined.
End samples.
