(* ===== verification/Scanner.v ===== *)
(** The range scan over a snapshot, src/transaction/mvcc/scanner.rs, and what
    it returns: the keys that a point read at the same timestamp finds. *)

From stdpp Require Import sorting.
From S2P Require Import Prelude Bytes Codec Records Engine Storage MvccTxn.

Section scanner.
Context `{storage : Storage} `{bound : LoopBound}.

Record Scanner := mkScanner {
  sc_txn : MvccTxn;
  sc_start_key : bytes;
  sc_end_key : option bytes;
  sc_limit : Z;
  sc_count : Z;
  sc_current_key : option bytes;
  sc_write_iter : iter;
  sc_exhausted : bool;
}.

(** The assignments to one field. *)
Definition sc_step (sc : Scanner) : Scanner :=
  mkScanner (sc_txn sc) (sc_start_key sc) (sc_end_key sc) (sc_limit sc) (sc_count sc)
    (sc_current_key sc) (iter_next (sc_write_iter sc)) (sc_exhausted sc).
Definition sc_set_current (k : bytes) (sc : Scanner) : Scanner :=
  mkScanner (sc_txn sc) (sc_start_key sc) (sc_end_key sc) (sc_limit sc) (sc_count sc)
    (Some k) (sc_write_iter sc) (sc_exhausted sc).
Definition sc_set_count (n : Z) (sc : Scanner) : Scanner :=
  mkScanner (sc_txn sc) (sc_start_key sc) (sc_end_key sc) (sc_limit sc) n
    (sc_current_key sc) (sc_write_iter sc) (sc_exhausted sc).
Definition sc_set_exhausted (sc : Scanner) : Scanner :=
  mkScanner (sc_txn sc) (sc_start_key sc) (sc_end_key sc) (sc_limit sc) (sc_count sc)
    (sc_current_key sc) (sc_write_iter sc) true.

(** The reader's iterator is taken on the state of the storage at that time. *)
Definition Scanner_new (start_key : bytes) (txn : MvccTxn) : M sto Scanner :=
  s ← get;
  let search_key := encode_key start_key u64_max in
  mret {| sc_txn := txn; sc_start_key := start_key; sc_end_key := None; sc_limit := u32_max;
          sc_count := 0; sc_current_key := None;
          sc_write_iter := iter_seek search_key (sto_iter_cf CF_WRITE s);
          sc_exhausted := false |}.

Definition set_end_key (e : option bytes) (sc : Scanner) : Scanner :=
  mkScanner (sc_txn sc) (sc_start_key sc) e (sc_limit sc) (sc_count sc)
    (sc_current_key sc) (sc_write_iter sc) (sc_exhausted sc).
Definition set_limit (n : Z) (sc : Scanner) : Scanner :=
  mkScanner (sc_txn sc) (sc_start_key sc) (sc_end_key sc) n (sc_count sc)
    (sc_current_key sc) (sc_write_iter sc) (sc_exhausted sc).

(** [user_key >= end_key], for the end key that is set. *)
Definition past_end (sc : Scanner) (user_key : bytes) : bool :=
  match sc_end_key sc with Some e => bytes_leb e user_key | None => false end.

(** The loop of [next].  The scanner reached is returned with the value; the
    callers drop a scanner that failed.  [self.count += 1] happens below the
    limit, a [u32], and cannot overflow. *)
Fixpoint scan_loop (fuel : nat) (sc : Scanner) : M sto (option (bytes * bytes) * Scanner) :=
  match fuel with
  | O => lift Diverge
  | S fuel' =>
      if iter_valid (sc_write_iter sc) then
        let '(encoded_key, value) := iter_item (sc_write_iter sc) in
        match decode_user_key encoded_key with
        | Err _ => scan_loop fuel' (sc_step sc)
        | Panic => lift Panic
        | Diverge => lift Diverge
        | Ok user_key =>
            if past_end sc user_key then mret (None, sc_set_exhausted sc)
            else if bool_decide (sc_current_key sc = Some user_key) then scan_loop fuel' (sc_step sc)
            else
              match decode_timestamp encoded_key with
              | Err _ => scan_loop fuel' (sc_step sc)
              | Panic => lift Panic
              | Diverge => lift Diverge
              | Ok commit_ts =>
                  if txn_start_ts (sc_txn sc) <? commit_ts then scan_loop fuel' (sc_step sc)
                  else
                    match Write_parse value with
                    | Ok (Some write) =>
                        match write_kind write with
                        | WkPut =>
                            r ← sto_get_cf CF_DEFAULT (encode_key user_key (write_start_ts write));
                            match r with
                            | Some value =>
                                mret (Some (user_key, value),
                                      sc_set_count (sc_count sc + 1) (sc_set_current user_key sc))
                            | None => scan_loop fuel' (sc_step sc)
                            end
                        | WkDelete => scan_loop fuel' (sc_step (sc_set_current user_key sc))
                        | WkRollback => scan_loop fuel' (sc_step (sc_set_current user_key sc))
                        end
                    | Panic => lift Panic
                    | Diverge => lift Diverge
                    | _ => scan_loop fuel' (sc_step sc)
                    end
              end
        end
      else mret (None, sc_set_exhausted sc)
  end.

Definition scanner_next (sc : Scanner) : M sto (option (bytes * bytes) * Scanner) :=
  if sc_exhausted sc || (sc_limit sc <=? sc_count sc) then mret (None, sc)
  else scan_loop loop_bound sc.
End scanner.

(** ** What a scanner stands for *)

Section views.
Implicit Types (m d : gmap bytes bytes).

(** A read of the key at the timestamp finds [v]. *)
Definition visible m d (start : Z) (key : bytes) (v : option bytes) : Prop :=
  ∃ w, newest m key start w ∧ value_of d key w.1 = v.

Lemma visible_unique m d start key v1 v2 :
  visible m d start key v1 → visible m d start key v2 → v1 = v2.
Proof. intros (w1 & H1 & <-) (w2 & H2 & <-). by rewrite (newest_unique _ _ _ _ _ H1 H2). Qed.

(** Every put record has its value. *)
Definition values_present m d : Prop :=
  ∀ key ts w, is_u64 ts → record_at m key ts = Some w → write_kind w = WkPut →
    is_Some (d !! encode_key key (write_start_ts w)).

Lemma visible_none m d start key :
  (∀ ts, is_u64 ts → ts ≤ start → record_at m key ts = None) → visible m d start key None.
Proof. intros H. by exists (None, 0). Qed.

(** A key the scan is done with: below the range or not above the last key
    treated. *)
Definition done_with (lo : bytes) (cur : option bytes) (k : bytes) : Prop :=
  bytes_lt k lo ∨ match cur with Some c => bytes_leb k c = true | None => False end.
End views.

Section scanning.
Context `{reliable : ReliableStorage} `{bound : LoopBound}.
Implicit Types (m d : gmap bytes bytes) (rest : list (bytes * bytes)).

Lemma encode_key_lt k1 t1 k2 t2 :
  is_u64 t1 → is_u64 t2 →
  bytes_lt (encode_key k1 t1) (encode_key k2 t2) ↔ bytes_lt k1 k2 ∨ (k1 = k2 ∧ t2 < t1).
Proof.
  intros H1 H2. unfold bytes_lt. rewrite encode_key_order_aux by done.
  rewrite <- (bytes_cmp_eq k1 k2). destruct (bytes_cmp k1 k2); [|naive_solver..].
  change (t2 < t1 ↔ Eq = Lt ∨ (Eq = Eq ∧ t2 < t1)). naive_solver.
Qed.

(** What is left of the iterator of a scan. *)
Record scan_inv m (start : Z) (lo : bytes) (cur : option bytes) rest : Prop := {
  si_sorted : StronglySorted key_lt rest;
  si_stored : ∀ k v, (k, v) ∈ rest → m !! k = Some v;
  si_above : ∀ uk ts v, is_u64 ts → (encode_key uk ts, v) ∈ rest →
    bytes_leb lo uk = true ∧ ∀ c, cur = Some c → bytes_leb c uk = true;
  si_complete : ∀ uk ts v, is_u64 ts → ts ≤ start → ¬ done_with lo cur uk →
    m !! encode_key uk ts = Some v → (encode_key uk ts, v) ∈ rest;
}.

Lemma not_done_with lo cur uk :
  bytes_leb lo uk = true → (∀ c, cur = Some c → bytes_leb c uk = true) → cur ≠ Some uk →
  ¬ done_with lo cur uk.
Proof.
  intros Hlo Hc Hne [H|H].
  - apply bytes_leb_lt_or_eq in Hlo as [Hlo|Hlo]; [by eapply bytes_lt_asym|].
    rewrite Hlo in H. by apply bytes_lt_irrefl in H.
  - destruct cur as [c|]; [|done]. specialize (Hc c eq_refl).
    apply bytes_leb_lt_or_eq in Hc as [Hc|Hc]; [|congruence].
    apply bytes_leb_lt_or_eq in H as [H|H]; [by eapply bytes_lt_asym|congruence].
Qed.

Lemma done_with_raise lo cur uk k :
  ¬ done_with lo cur uk → ¬ done_with lo (Some uk) k → ¬ done_with lo cur k ∧ bytes_lt uk k.
Proof.
  intros Huk Hk.
  assert (bytes_lt uk k) as Hlt.
  { destruct (bytes_lt_total uk k) as [|[Heq|H]]; [done|..]; destruct Hk; right;
      apply bytes_leb_lt_or_eq; auto. }
  split; [|done]. intros [H|H]; [apply Hk; by left|].
  destruct cur as [c|]; [|done]. apply Huk. right. cbn in *.
  apply bytes_leb_lt_or_eq. left. apply bytes_leb_lt_or_eq in H as [H|H].
  - eapply bytes_lt_trans; [exact Hlt|exact H].
  - by rewrite <- H.
Qed.

(** The entry the iterator stands on is a write record, and the others are
    behind it. *)
Lemma scan_inv_head m start lo cur k v rest :
  write_cf_ok m → scan_inv m start lo cur ((k, v) :: rest) →
  ∃ uk ts w, k = encode_key uk ts ∧ is_u64 ts ∧ Write_ok w ∧ v = Write_to_bytes w ∧
    m !! k = Some v ∧ (cur ≠ Some uk → ¬ done_with lo cur uk).
Proof.
  intros Hok [Hs Hst Hab Hco].
  assert (m !! k = Some v) as Hk by (apply Hst; by left).
  destruct (Hok k v Hk) as (uk & ts & w & -> & Hts & Hw & ->).
  exists uk, ts, w. split_and!; [done..|]. intros Hne.
  destruct (Hab uk ts (Write_to_bytes w)) as [Hlo Hc]; [done|by left|]. by apply not_done_with.
Qed.

Lemma scan_inv_behind m start lo cur uk ts v rest uk' ts' v' :
  scan_inv m start lo cur ((encode_key uk ts, v) :: rest) → is_u64 ts → is_u64 ts' →
  (encode_key uk' ts', v') ∈ rest → bytes_lt uk uk' ∨ (uk = uk' ∧ ts' < ts).
Proof.
  intros [Hs _ _ _] Hts Hts' Hin. apply StronglySorted_cons in Hs as [Hlt _].
  rewrite Forall_forall in Hlt. apply Hlt in Hin. by apply encode_key_lt in Hin.
Qed.

(** A record a reader could need is the head or behind it. *)
Lemma scan_inv_at_or_behind m start lo cur uk ts v rest uk' ts' v' :
  scan_inv m start lo cur ((encode_key uk ts, v) :: rest) → is_u64 ts → is_u64 ts' →
  ts' ≤ start → ¬ done_with lo cur uk' → m !! encode_key uk' ts' = Some v' →
  (uk = uk' ∧ ts = ts') ∨
  (bytes_lt uk uk' ∨ (uk = uk' ∧ ts' < ts)) ∧ (encode_key uk' ts', v') ∈ rest.
Proof.
  intros Hi Hts Hts' Hle Hn E. apply (si_complete _ _ _ _ _ Hi) in E; [|done..].
  apply elem_of_cons in E as [E|E].
  - injection E as E _. apply encode_key_inj in E as [-> ->]; [by left|done|done].
  - right. split; [|done]. by eapply scan_inv_behind.
Qed.

(** Passing an entry that is too new or of the key just treated. *)
Lemma scan_inv_skip m start lo cur uk ts v rest :
  is_u64 ts → scan_inv m start lo cur ((encode_key uk ts, v) :: rest) →
  cur = Some uk ∨ start < ts → scan_inv m start lo cur rest.
Proof.
  intros Hts Hi Hskip. split.
  - eapply (StronglySorted_inv (R := key_lt)), (si_sorted _ _ _ _ _ Hi).
  - intros k' v' Hin. apply (si_stored _ _ _ _ _ Hi). by right.
  - intros uk' ts' v' Hts' Hin. apply (si_above _ _ _ _ _ Hi uk' ts' v'); [done|by right].
  - intros uk' ts' v' Hts' Hle Hn Hm.
    destruct (scan_inv_at_or_behind _ _ _ _ _ _ _ _ uk' ts' v' Hi) as [[-> ->]|[_ ?]]; try done.
    exfalso. destruct Hskip as [->|?]; [|lia]. apply Hn. right. cbn.
    apply bytes_leb_lt_or_eq. auto.
Qed.

(** No key between the last one treated and the head has a record to read. *)
Lemma scan_inv_before m start lo cur uk ts v rest k' ts' :
  write_cf_ok m → is_u64 ts → scan_inv m start lo cur ((encode_key uk ts, v) :: rest) →
  bytes_lt k' uk → ¬ done_with lo cur k' → is_u64 ts' → ts' ≤ start → record_at m k' ts' = None.
Proof.
  intros Hok Hts Hi Hk' Hn Hts' Hle. apply record_at_None; [done|].
  destruct (m !! encode_key k' ts') as [v'|] eqn:E; [|done]. exfalso.
  destruct (scan_inv_at_or_behind _ _ _ _ _ _ _ _ k' ts' v' Hi) as [[Heq _]|[[H|[Heq _]] _]];
    try done.
  - rewrite Heq in Hk'. by apply bytes_lt_irrefl in Hk'.
  - by destruct (bytes_lt_asym _ _ H Hk').
  - rewrite Heq in Hk'. by apply bytes_lt_irrefl in Hk'.
Qed.

(** The first entry of a key that is old enough is the one a read finds. *)
Lemma scan_inv_newest m start lo cur uk ts w rest :
  write_cf_ok m → is_u64 ts → Write_ok w →
  scan_inv m start lo cur ((encode_key uk ts, Write_to_bytes w) :: rest) →
  ¬ done_with lo cur uk → ts ≤ start → newest m uk start (Some w, ts).
Proof.
  intros Hok Hts Hw Hi Hn Hle. cbn. split_and!; [done|done|..].
  - apply record_at_Some; [done|done|]. split; [|done]. apply (si_stored _ _ _ _ _ Hi). by left.
  - intros ts' Hts' Hr. apply record_at_None; [done|].
    destruct (m !! encode_key uk ts') as [v'|] eqn:E; [|done]. exfalso.
    destruct (scan_inv_at_or_behind _ _ _ _ _ _ _ _ uk ts' v' Hi) as [[_ ?]|[[H|[_ ?]] _]];
      try done; try lia.
    by apply bytes_lt_irrefl in H.
Qed.

(** Turning to the next key. *)
Lemma scan_inv_turn m start lo cur uk ts v rest :
  is_u64 ts → scan_inv m start lo cur ((encode_key uk ts, v) :: rest) → ¬ done_with lo cur uk →
  scan_inv m start lo (Some uk) ((encode_key uk ts, v) :: rest).
Proof.
  intros Hts Hi Hnd. split; [apply Hi|apply Hi|..].
  - intros uk' ts' v' Hts' Hin. split; [exact (proj1 (si_above _ _ _ _ _ Hi uk' ts' v' Hts' Hin))|]. intros c [= <-].
    apply bytes_leb_lt_or_eq. apply elem_of_cons in Hin as [Hin|Hin].
    + injection Hin as Hin _. apply encode_key_inj in Hin as [-> _]; auto.
    + eapply scan_inv_behind in Hin as [|[-> _]]; eauto.
  - intros uk' ts' v' Hts' Hle Hn Hm. destruct (done_with_raise _ _ _ _ Hnd Hn) as [Hn' Hlt].
    by apply (si_complete _ _ _ _ _ Hi).
Qed.
(** The parts of a scanner that a call of [next] leaves alone. *)
Definition agrees (sc sc' : Scanner) : Prop :=
  sc_txn sc' = sc_txn sc ∧ sc_start_key sc' = sc_start_key sc ∧ sc_end_key sc' = sc_end_key sc ∧
  sc_limit sc' = sc_limit sc.

(** The answer of a call: the next key above the last one that a read finds,
    or that there is none before the end key. *)
Definition scan_found m d (lo : bytes) (sc : Scanner) (r : option (bytes * bytes)) (sc' : Scanner)
  : Prop :=
  let start := txn_start_ts (sc_txn sc) in
  let cur := sc_current_key sc in
  agrees sc sc' ∧
  match r with
  | Some (k, v) =>
      ¬ done_with lo cur k ∧ past_end sc k = false ∧ visible m d start k (Some v) ∧
      (∀ k', bytes_lt k' k → ¬ done_with lo cur k' → visible m d start k' None) ∧
      sc_current_key sc' = Some k ∧ sc_count sc' = sc_count sc + 1 ∧
      sc_exhausted sc' = sc_exhausted sc ∧
      scan_inv m start lo (Some k) (iter_rest (sc_write_iter sc'))
  | None =>
      (∀ k', ¬ done_with lo cur k' → past_end sc k' = false → visible m d start k' None) ∧
      sc_exhausted sc' = true
  end.

(** Going past a key that a read does not find. *)
Lemma scan_found_turn m d lo sc uk r sc' :
  ¬ done_with lo (sc_current_key sc) uk →
  visible m d (txn_start_ts (sc_txn sc)) uk None →
  (∀ k', bytes_lt k' uk → ¬ done_with lo (sc_current_key sc) k' →
     visible m d (txn_start_ts (sc_txn sc)) k' None) →
  scan_found m d lo (sc_step (sc_set_current uk sc)) r sc' → scan_found m d lo sc r sc'.
Proof.
  intros Hnd Hv Hbefore [Ha Hr].
  change (agrees (sc_step (sc_set_current uk sc)) sc') with (agrees sc sc') in Ha.
  assert (∀ k', ¬ done_with lo (sc_current_key sc) k' →
            visible m d (txn_start_ts (sc_txn sc)) k' None ∨ ¬ done_with lo (Some uk) k') as Hcase.
  { intros k' Hn. destruct (bytes_lt_total k' uk) as [H|[->|H]]; [left; auto..|]. right.
    intros [Hd|Hd]; [apply Hn; by left|]. cbn in Hd. apply bytes_leb_lt_or_eq in Hd as [Hd|Hd].
    - by destruct (bytes_lt_asym _ _ H Hd).
    - rewrite Hd in H. by apply bytes_lt_irrefl in H. }
  split; [exact Ha|]. destruct r as [[k v]|].
  - destruct Hr as (H1 & H2 & H3 & H4 & H5).
    refine (conj _ (conj H2 (conj H3 (conj _ H5)))).
    + by apply (done_with_raise _ _ uk).
    + intros k' Hlt Hn. destruct (Hcase k' Hn) as [|Hn']; [done|]. by apply H4.
  - destruct Hr as (H1 & H2). split; [|done].
    intros k' Hn He. destruct (Hcase k' Hn) as [|Hn']; [done|]. by apply H1.
Qed.

Lemma past_end_above sc k k' :
  past_end sc k = true → bytes_lt k k' → past_end sc k' = true.
Proof.
  unfold past_end. destruct (sc_end_key sc) as [e|]; [|done]. rewrite !bytes_leb_lt_or_eq.
  intros [H|<-] H'; left; [by eapply bytes_lt_trans|done].
Qed.

Lemma scan_loop_run m d lo fuel sc s :
  cf_view s CF_DEFAULT = d → write_cf_ok m → values_present m d →
  (length (iter_rest (sc_write_iter sc)) < fuel)%nat →
  scan_inv m (txn_start_ts (sc_txn sc)) lo (sc_current_key sc) (iter_rest (sc_write_iter sc)) →
  ∃ r sc' s', scan_loop fuel sc s = (Ok (r, sc'), s') ∧ cf_view s' = cf_view s ∧
    scan_found m d lo sc r sc'.
Proof.
  intros Hd Hok Hpres. revert sc. induction fuel as [|fuel IH]; intros sc Hfuel Hi; [lia|].
  cbn [scan_loop]. destruct (iter_rest (sc_write_iter sc)) as [|[k v] rest] eqn:Er.
  { rewrite (iter_valid_nil _ Er). eexists _, _, _. split; [done|]. split; [done|].
    split; [done|]. split; [|done]. intros k' Hn _. apply visible_none. intros ts Hts Hle.
    apply record_at_None; [done|]. destruct (m !! encode_key k' ts) eqn:E; [|done].
    apply (si_complete _ _ _ _ _ Hi) in E; [|done..]. by apply not_elem_of_nil in E. }
  rewrite (iter_valid_cons _ _ _ Er), (iter_item_rest _ _ _ Er).
  destruct (scan_inv_head _ _ _ _ _ _ _ Hok Hi) as (uk & ts & w & -> & Hts & Hw & -> & Hk & Hnd).
  rewrite decode_user_key_encode_key, decode_timestamp_encode_key by done.
  assert (iter_rest (sc_write_iter (sc_step sc)) = rest) as Hstep
    by exact (iter_next_rest _ _ _ Er).
  assert (length rest < fuel)%nat as Hlen by (cbn in Hfuel; lia).
  assert (∀ k', bytes_lt k' uk → ¬ done_with lo (sc_current_key sc) k' →
            visible m d (txn_start_ts (sc_txn sc)) k' None) as Hbefore.
  { intros k' Hlt Hn. apply visible_none. intros ts' Hts' Hle.
    exact (scan_inv_before _ _ _ _ _ _ _ _ _ _ Hok Hts Hi Hlt Hn Hts' Hle). }
  destruct (past_end sc uk) eqn:He.
  { eexists _, _, _. split; [done|]. split; [done|]. split; [done|]. split; [|done].
    intros k' Hn Hn'. destruct (bytes_lt_total k' uk) as [|[->|Hlt]]; [by apply Hbefore|congruence|].
    apply (past_end_above _ _ k') in He; [congruence|done]. }
  case_bool_decide as Hcur.
  { apply (IH (sc_step sc)); rewrite Hstep; [done|]. exact (scan_inv_skip _ _ _ _ _ _ _ _ Hts Hi (or_introl Hcur)). }
  destruct (Z.ltb_spec (txn_start_ts (sc_txn sc)) ts) as [Hgt|Hle].
  { apply (IH (sc_step sc)); rewrite Hstep; [done|]. exact (scan_inv_skip _ _ _ _ _ _ _ _ Hts Hi (or_intror Hgt)). }
  rewrite Write_parse_to_bytes by done. specialize (Hnd Hcur).
  pose proof (scan_inv_newest _ _ _ _ _ _ _ _ Hok Hts Hw Hi Hnd Hle) as Hnew.
  pose proof (scan_inv_turn _ _ _ _ _ _ _ _ Hts Hi Hnd) as Hturn.
  assert (write_kind w ≠ WkPut → ∃ r sc' s',
    scan_loop fuel (sc_step (sc_set_current uk sc)) s = (Ok (r, sc'), s') ∧
    cf_view s' = cf_view s ∧ scan_found m d lo sc r sc') as Hpass.
  { intros Hkind. destruct (IH (sc_step (sc_set_current uk sc))) as (r & sc' & s' & H1 & H2 & H3).
    - change (length (iter_rest (sc_write_iter (sc_step sc))) < fuel)%nat. by rewrite Hstep.
    - change (scan_inv m (txn_start_ts (sc_txn sc)) lo (Some uk) (iter_rest (sc_write_iter (sc_step sc)))).
      rewrite Hstep. exact (scan_inv_skip _ _ _ _ _ _ _ _ Hts Hturn (or_introl eq_refl)).
    - exists r, sc', s'. split_and!; [done|done|]. eapply scan_found_turn; eauto.
      exists (Some w, ts). split; [done|]. cbn. by destruct (write_kind w). }
  destruct (write_kind w) eqn:Hkind; [|by apply Hpass..]. clear Hpass.
  destruct (Hpres uk ts w) as [val Hval]; [done| |done|].
  { apply record_at_Some; [done..|]. done. }
  pose proof (sto_get_total CF_DEFAULT (encode_key uk (write_start_ts w)) s) as Hg.
  rewrite Hd, Hval in Hg. apply run_ok in Hg. rewrite (M_bind_run _ _ _ _ _ Hg).
  eexists _, _, _. split; [done|]. split; [apply sto_get_view|].
  split; [done|]. split_and!; try done.
  - exists (Some w, ts). split; [done|]. cbn. by rewrite Hkind.
  - cbn. rewrite Er. exact Hturn.
Qed.
(** A scanner that has been created and not stopped. *)
Record scanner_ready m (lo : bytes) (sc : Scanner) : Prop := {
  rd_live : sc_exhausted sc = false;
  rd_inv : scan_inv m (txn_start_ts (sc_txn sc)) lo (sc_current_key sc)
             (iter_rest (sc_write_iter sc));
}.

Lemma Scanner_new_run lo t s :
  write_ready (cf_view s CF_WRITE) →
  ∃ sc, Scanner_new lo t s = (Ok sc, s) ∧ scanner_ready (cf_view s CF_WRITE) lo sc ∧
    sc_txn sc = t ∧ sc_count sc = 0 ∧ sc_current_key sc = None ∧ sc_end_key sc = None.
Proof.
  intros [Hok Hb]. set (m := cf_view s CF_WRITE) in *. set (it0 := sto_iter_cf CF_WRITE s).
  pose proof (iter_all_sorted CF_WRITE s : StronglySorted key_lt (iter_all it0)) as Hsort.
  pose proof (iter_all_view CF_WRITE s : ∀ k v, (k, v) ∈ iter_all it0 ↔ m !! k = Some v) as Hview.
  assert (is_u64 u64_max) as Hmax by (unfold is_u64, u64_max; lia).
  eexists. split; [reflexivity|]. split; [|done]. split; cbn; [done|]. rewrite iter_seek_rest.
  assert (∀ k v, (k, v) ∈ drop_while (λ e, bytes_ltb e.1 (encode_key lo u64_max)) (iter_all it0) ↔
              m !! k = Some v ∧ bytes_leb (encode_key lo u64_max) k = true) as Hin.
  { intros k v. rewrite elem_of_seek, Hview by done. done. }
  split.
  + by apply drop_while_sorted.
  + intros k v H. by apply Hin in H as [? _].
  + intros uk ts v Hts H. apply Hin in H as [_ H]. split; [|done].
    apply bytes_leb_lt_or_eq. apply bytes_leb_lt_or_eq in H as [H|H].
    * apply encode_key_lt in H as [|[-> _]]; auto.
    * apply encode_key_inj in H as [-> _]; auto.
  + intros uk ts v Hts _ Hn H. apply Hin. split; [done|].
    destruct (bytes_lt_total lo uk) as [Hlt|[<-|Hlt]].
    * apply bytes_leb_lt_or_eq. left. apply encode_key_lt; auto.
    * by apply encode_key_max.
    * destruct Hn. by left.
Qed.

(** The iterator never holds more than the column family. *)
Lemma scan_inv_length m start lo cur rest : scan_inv m start lo cur rest → (length rest ≤ size m)%nat.
Proof.
  intros [Hs Hst _ _]. rewrite <- length_map_to_list. apply submseteq_length, NoDup_submseteq.
  - eapply NoDup_fmap_1, NoDup_sorted_keys, Hs.
  - intros [k v] Hin. by apply elem_of_map_to_list, Hst.
Qed.

Lemma scanner_next_run m lo sc s :
  write_ready m → values_present m (cf_view s CF_DEFAULT) → scanner_ready m lo sc →
  sc_count sc < sc_limit sc →
  ∃ r sc' s', scanner_next sc s = (Ok (r, sc'), s') ∧ cf_view s' = cf_view s ∧
    scan_found m (cf_view s CF_DEFAULT) lo sc r sc'.
Proof.
  intros [Hok Hb] Hp [Hl Hi] Hlim. unfold scanner_next. rewrite Hl.
  destruct (Z.leb_spec (sc_limit sc) (sc_count sc)); [lia|]. cbn [orb].
  apply scan_loop_run; try done. apply scan_inv_length in Hi. lia.
Qed.
End scanning.

(** ** The first keys a snapshot shows *)

Section first.
Implicit Types (m d : gmap bytes bytes).

(** [l] is the first [n] keys above [cur] in [lo ..] that a read finds, with
    their values: all of them when there are fewer. *)
Fixpoint first_visible m d (start : Z) (lo : bytes) (cur : option bytes) (n : Z)
    (l : list (bytes * bytes)) : Prop :=
  match l with
  | [] => n = 0 ∨ 0 < n ∧ ∀ k, ¬ done_with lo cur k → visible m d start k None
  | (k, v) :: l' =>
      0 < n ∧ ¬ done_with lo cur k ∧ visible m d start k (Some v) ∧
      (∀ k', bytes_lt k' k → ¬ done_with lo cur k' → visible m d start k' None) ∧
      first_visible m d start lo (Some k) (n - 1) l'
  end.

#[export] Instance done_with_dec lo cur k : Decision (done_with lo cur k).
Proof. unfold done_with, bytes_lt. destruct cur; apply _. Defined.

(** The entries of the keys still to come: what bounds the turns of a scan. *)
Definition pending_entry (lo : bytes) (cur : option bytes) (e : bytes * bytes) : Prop :=
  match decode_user_key e.1 with Ok uk => ¬ done_with lo cur uk | _ => False end.
#[export] Instance pending_entry_dec lo cur e : Decision (pending_entry lo cur e).
Proof. unfold pending_entry. destruct (decode_user_key e.1); apply _. Defined.

Definition pending m (lo : bytes) (cur : option bytes) : gmap bytes bytes := filter (pending_entry lo cur) m.

Lemma pending_size m lo (cur : option bytes) : (size (pending m lo cur) ≤ size m)%nat.
Proof. apply map_subseteq_size, map_filter_subseteq. Qed.

Lemma pending_shrinks m d start (lo : bytes) (cur : option bytes) (k v : bytes) :
  write_cf_ok m → ¬ done_with lo cur k → visible m d start k (Some v) →
  (size (pending m lo (Some k)) < size (pending m lo cur))%nat.
Proof.
  intros Hok Hn ([[w|] ts] & Hw & Hv); [|done]. apply map_subset_size.
  destruct Hw as (Hts & _ & Hr & _). apply record_at_Some in Hr as [Hr _]; [|done|done].
  split.
  - apply map_filter_subseteq_ext. intros k' x _ P1. unfold pending_entry in *. cbn [fst] in *.
    destruct (decode_user_key k'); try done. exact (proj1 (done_with_raise _ _ _ _ Hn P1)).
  - intros Hsub. unfold pending in Hsub.
    assert (filter (pending_entry lo cur) m !! encode_key k ts = Some (Write_to_bytes w)) as E1.
    { apply map_lookup_filter_Some. split; [done|]. unfold pending_entry. cbn [fst].
      by rewrite decode_user_key_encode_key. }
    assert (filter (pending_entry lo (Some k)) m !! encode_key k ts = None) as E2.
    { apply map_lookup_filter_None. right. intros x _. unfold pending_entry. cbn [fst].
      rewrite decode_user_key_encode_key. intros H. apply H. right. apply bytes_leb_lt_or_eq. auto. }
    apply (lookup_weaken _ _ _ _ E1) in Hsub. congruence.
Qed.
End first.
