(* ===== verification/Server.v ===== *)
(** The server of src/server/mod.rs: the storage and the latches that the
    handlers of every service share, and calls of the storage from a
    handler. *)

From S2P Require Import Prelude Bytes Records Storage Latches.

Section server.
Context `{storage : Storage}.

(** [Server<S>]: the storage and the latches the handlers share. *)
Record Server := mkServer { srv_store : sto; srv_latches : Latches }.

Definition on_store {A} (m : M sto A) : M Server A := λ srv,
  let '(r, s') := m (srv_store srv) in (r, mkServer s' (srv_latches srv)).
End server.
