(* ===== verification/RawApi.v ===== *)
(** The raw and the multi-level services, src/server/raw_api.rs and
    src/server/multi_level_api.rs: single reads and writes and scans of a
    column family, with the user's key or with a key under the region's
    primary key. *)

From stdpp Require Import sorting.
From S2P Require Import Prelude Bytes Codec Records Engine Storage MultiLevelKey Proto MvccTxn Server.

Section api.
Context `{storage : Storage} `{bound : LoopBound}.

Definition raw_get (req : RawGetRequest) : M Server RawGetResponse :=
  r ← on_store (sto_get_cf (wg_cf req) (wg_key req));
  match r with
  | Some value => mret (RawGetResponse_ok (Some value))
  | None => mret (RawGetResponse_ok None)
  end.

Definition raw_put (req : RawPutRequest) : M Server RawPutResponse :=
  on_store (sto_write [MPut (wp_key req) (wp_value req) (wp_cf req)]);;
  mret RawPutResponse_ok.

Definition raw_delete (req : RawDeleteRequest) : M Server RawDeleteResponse :=
  on_store (sto_write [MDelete (wd_key req) (wd_cf req)]);;
  mret RawDeleteResponse_ok.

(** The [while iter.valid() && count < limit] loop. *)
Fixpoint raw_scan_loop (fuel : nat) (limit : Z) (it : iter) (count : Z) (kvs : list KvPair)
  : outcome (list KvPair) :=
  match fuel with
  | O => Diverge
  | S fuel' =>
      if iter_valid it && (count <? limit) then
        let '(key, value) := iter_item it in
        raw_scan_loop fuel' limit (iter_next it) (count + 1) (kvs ++ [KvPair_new key value])
      else Ok kvs
  end.

Definition raw_scan (req : RawScanRequest) : M Server RawScanResponse :=
  srv ← get;
  let it := iter_seek (ws_start_key req) (sto_iter_cf (ws_cf req) (srv_store srv)) in
  kvs ← lift (raw_scan_loop loop_bound (ws_limit req) it 0 []);
  mret (RawScanResponse_ok kvs).

(** ** Keys under a region *)

Definition full_key (c : Context) (secondary_key : bytes) : bytes :=
  encode_multi_level_key (primary_key_from_region_id (cx_region_id c)) secondary_key.

Definition multi_level_put (req : MultiLevelPutRequest) : M Server MultiLevelPutResponse :=
  on_store (sto_write [MPut (full_key (mp_context req) (mp_secondary_key req))
                            (mp_value req) (mp_cf req)]);;
  mret MultiLevelPutResponse_ok.

Definition multi_level_get (req : MultiLevelGetRequest) : M Server MultiLevelGetResponse :=
  r ← on_store (sto_get_cf (mg_cf req) (full_key (mg_context req) (mg_secondary_key req)));
  match r with
  | Some value => mret (MultiLevelGetResponse_ok (Some value))
  | None => mret (MultiLevelGetResponse_ok None)
  end.

Definition multi_level_delete (req : MultiLevelDeleteRequest) : M Server MultiLevelDeleteResponse :=
  on_store (sto_write [MDelete (full_key (md_context req) (md_secondary_key req)) (md_cf req)]);;
  mret MultiLevelDeleteResponse_ok.

(** The loop of [multi_level_scan]; the length test comes before the decoding. *)
Fixpoint multi_level_scan_loop (fuel : nat) (limit : Z) (primary_key end_key : bytes) (it : iter)
    (count : Z) (kvs : list MultiLevelKvPair) : outcome (list MultiLevelKvPair) :=
  match fuel with
  | O => Diverge
  | S fuel' =>
      if iter_valid it && (count <? limit) then
        let '(key, value) := iter_item it in
        if (length end_key <? length key)%nat
           || ((length key =? length end_key)%nat && bytes_ltb end_key key) then Ok kvs
        else
          match decode_multi_level_key key with
          | Ok (decoded_primary, secondary_key) =>
              if decide (decoded_primary = primary_key)
              then multi_level_scan_loop fuel' limit primary_key end_key (iter_next it) (count + 1)
                     (kvs ++ [mkMultiLevelKvPair secondary_key value])
              else Ok kvs
          | Err _ => multi_level_scan_loop fuel' limit primary_key end_key (iter_next it) count kvs
          | Panic => Panic
          | Diverge => Diverge
          end
      else Ok kvs
  end.

Definition multi_level_scan (req : MultiLevelScanRequest) : M Server MultiLevelScanResponse :=
  srv ← get;
  let primary_key := primary_key_from_region_id (cx_region_id (ms_context req)) in
  let start_full_key := encode_multi_level_key primary_key (ms_start_secondary_key req) in
  let end_key := primary_key ++ [Byte.xff; Byte.xff] in
  let it := iter_seek start_full_key (sto_iter_cf (ms_cf req) (srv_store srv)) in
  kvs ← lift (multi_level_scan_loop loop_bound (ms_limit req) primary_key end_key it 0 []);
  mret (MultiLevelScanResponse_ok kvs).
End api.

(** ** What the calls do *)

Section facts.
Context `{reliable : ReliableStorage} `{bound : LoopBound}.
Implicit Types (srv : Server).

Lemma on_get (cf : string) (key : bytes) srv :
  ∃ srv', on_store (sto_get_cf cf key) srv = (Ok (cf_view (srv_store srv) cf !! key), srv') ∧
    cf_view (srv_store srv') = cf_view (srv_store srv).
Proof.
  unfold on_store. pose proof (sto_get_total cf key (srv_store srv)) as H1.
  pose proof (sto_get_view cf key (srv_store srv)) as H2.
  destruct (sto_get_cf cf key (srv_store srv)) as [o s']. cbn in *. subst o.
  by eexists.
Qed.

Lemma on_write b srv :
  ∃ srv', on_store (sto_write b) srv = (Ok tt, srv') ∧
    ∀ cf, cf_view (srv_store srv') cf = foldl (apply_modify cf) (cf_view (srv_store srv) cf) b.
Proof.
  pose proof (sto_write_total b (srv_store srv)) as H. apply run_ok in H.
  exists (mkServer (sto_write b (srv_store srv)).2 (srv_latches srv)). split.
  - unfold on_store. by rewrite H at 1.
  - cbn. by apply (sto_write_ok _ _ _ H).
Qed.

(** The first [n] entries of a column family at or above a key. *)
Definition entries_from (m : gmap bytes bytes) (lo : bytes) (n : Z) (l : list (bytes * bytes)) : Prop :=
  StronglySorted key_lt l ∧ Z.of_nat (length l) ≤ n ∧
  (∀ k v, (k, v) ∈ l → m !! k = Some v ∧ bytes_leb lo k = true) ∧
  (∀ k v, m !! k = Some v → bytes_leb lo k = true →
     (k, v) ∈ l ∨ Z.of_nat (length l) = n ∧ ∀ e, e ∈ l → bytes_lt e.1 k).

Lemma raw_scan_loop_run fuel limit it count kvs :
  (length (iter_rest it) < fuel)%nat →
  raw_scan_loop fuel limit it count kvs
  = Ok (kvs ++ (uncurry KvPair_new <$> take (Z.to_nat (limit - count)) (iter_rest it))).
Proof.
  revert it count kvs. induction fuel as [|fuel IH]; intros it count kvs Hf; [lia|].
  cbn [raw_scan_loop]. destruct (iter_rest it) as [|[k v] rest] eqn:Er.
  { rewrite (iter_valid_nil _ Er). cbn. by rewrite take_nil, app_nil_r. }
  rewrite (iter_valid_cons _ _ _ Er), (iter_item_rest _ _ _ Er). cbn [andb].
  destruct (Z.ltb_spec count limit).
  - rewrite IH; rewrite (iter_next_rest _ _ _ Er); [|cbn in Hf; lia].
    replace (Z.to_nat (limit - count)) with (S (Z.to_nat (limit - (count + 1)))) by lia.
    cbn. by rewrite <- app_assoc.
  - replace (Z.to_nat (limit - count)) with 0%nat by lia. cbn. by rewrite app_nil_r.
Qed.
(** A prefix of a sorted listing is what [entries_from] asks for. *)
Lemma entries_from_take m lo n (all : list (bytes * bytes)) :
  StronglySorted key_lt all → (∀ k v, (k, v) ∈ all ↔ m !! k = Some v ∧ bytes_leb lo k = true) →
  0 ≤ n → entries_from m lo n (take (Z.to_nat n) all).
Proof.
  intros Hs Hall Hn. pose proof (take_drop (Z.to_nat n) all) as Hsplit.
  rewrite <- Hsplit in Hs. apply StronglySorted_app in Hs as (Hcross & Hs & _). split_and!.
  - done.
  - rewrite length_take. lia.
  - intros k v Hin. apply Hall. rewrite <- Hsplit. apply elem_of_app. by left.
  - intros k v Hk Hle. assert ((k, v) ∈ all) as Hin by (by apply Hall).
    rewrite <- Hsplit in Hin. apply elem_of_app in Hin as [Hin|Hin]; [by left|right]. split.
    + rewrite length_take. destruct (decide (Z.to_nat n ≤ length all)%nat); [lia|].
      rewrite drop_ge in Hin by lia. by apply not_elem_of_nil in Hin.
    + intros e He. exact (Hcross e (k, v) He Hin).
Qed.

(** A raw scan is a range of the column family.  It answers the first
    [limit] entries at or above the start key in key order, all of them when
    there are fewer, and changes nothing. *)
Theorem raw_scan_exact req srv :
  is_u32 (ws_limit req) → (size (cf_view (srv_store srv) (ws_cf req)) < loop_bound)%nat →
  ∃ l, raw_scan req srv = (Ok (RawScanResponse_ok (uncurry KvPair_new <$> l)), srv) ∧
    entries_from (cf_view (srv_store srv) (ws_cf req)) (ws_start_key req) (ws_limit req) l.
Proof.
  intros Hlim Hsize. unfold raw_scan. rewrite (M_bind_run get _ _ _ _ eq_refl). cbv zeta.
  set (it0 := sto_iter_cf (ws_cf req) (srv_store srv)).
  pose proof (iter_all_sorted (ws_cf req) (srv_store srv) : StronglySorted key_lt (iter_all it0)) as Hs.
  rewrite raw_scan_loop_run; rewrite iter_seek_rest.
  - rewrite (M_bind_run (lift _) _ _ _ _ eq_refl). eexists. split; [reflexivity|].
    rewrite Z.sub_0_r. apply entries_from_take.
    + by apply drop_while_sorted.
    + intros k v. rewrite elem_of_seek by done. unfold it0. by rewrite iter_all_view.
    + unfold is_u32 in Hlim. lia.
  - apply length_drop_while_le. unfold it0. by rewrite iter_all_length.
Qed.

Lemma raw_service_run put del srv :
  ∃ srv1 srv2,
    raw_put put srv = (Ok RawPutResponse_ok, srv1) ∧
    raw_delete del srv = (Ok RawDeleteResponse_ok, srv2) ∧
    ∀ req, ∃ v, (raw_get req srv).1 = Ok (RawGetResponse_ok v) ∧
      (raw_get req srv1).1 = Ok (RawGetResponse_ok
        (if decide (wp_cf put = wg_cf req ∧ wp_key put = wg_key req) then Some (wp_value put) else v)) ∧
      (raw_get req srv2).1 = Ok (RawGetResponse_ok
        (if decide (wd_cf del = wg_cf req ∧ wd_key del = wg_key req) then None else v)).
Proof.
  destruct (on_write [MPut (wp_key put) (wp_value put) (wp_cf put)] srv) as (srv1 & H1 & Hv1).
  destruct (on_write [MDelete (wd_key del) (wd_cf del)] srv) as (srv2 & H2 & Hv2).
  exists srv1, srv2. unfold raw_put, raw_delete.
  rewrite (M_bind_run _ _ _ _ _ H1), (M_bind_run _ _ _ _ _ H2). split; [done|]. split; [done|].
  intros req. exists (cf_view (srv_store srv) (wg_cf req) !! wg_key req).
  assert (∀ s, (raw_get req s).1 = Ok (RawGetResponse_ok (cf_view (srv_store s) (wg_cf req) !! wg_key req)))
    as Hget.
  { intros s. unfold raw_get. destruct (on_get (wg_cf req) (wg_key req) s) as (s' & H & _).
    rewrite (M_bind_run _ _ _ _ _ H). by destruct (_ !! _). }
  rewrite !Hget, Hv1, Hv2. split_and!; [done|..]; do 2 f_equal; cbn [foldl apply_modify].
  - destruct (decide (wp_cf put = wg_cf req)) as [Hcf|Hcf]; [|by rewrite decide_False by naive_solver].
    destruct (decide (wp_key put = wg_key req)) as [Hk|Hk].
    + rewrite decide_True by done. rewrite Hk. apply lookup_insert_eq.
    + rewrite decide_False by naive_solver. by apply lookup_insert_ne.
  - destruct (decide (wd_cf del = wg_cf req)) as [Hcf|Hcf]; [|by rewrite decide_False by naive_solver].
    destruct (decide (wd_key del = wg_key req)) as [Hk|Hk].
    + rewrite decide_True by done. rewrite Hk. apply lookup_delete_eq.
    + rewrite decide_False by naive_solver. by apply lookup_delete_ne.
Qed.

(** The raw service is a map per column family.  A put is seen by the next
    read of its key and a delete removes it, and no other key and no other
    column family is affected. *)
Theorem raw_service_map put del srv :
  ∃ srv1 srv2,
    raw_put put srv = (Ok RawPutResponse_ok, srv1) ∧
    raw_delete del srv = (Ok RawDeleteResponse_ok, srv2) ∧
    ∀ req, ∃ v, (raw_get req srv).1 = Ok (RawGetResponse_ok v) ∧
      (raw_get req srv1).1 = Ok (RawGetResponse_ok
        (if decide (wp_cf put = wg_cf req ∧ wp_key put = wg_key req) then Some (wp_value put) else v)) ∧
      (raw_get req srv2).1 = Ok (RawGetResponse_ok
        (if decide (wd_cf del = wg_cf req ∧ wd_key del = wg_key req) then None else v)).
Proof. apply raw_service_run. Qed.
Lemma full_key_inj c1 c2 sk1 sk2 :
  is_u64 (cx_region_id c1) → is_u64 (cx_region_id c2) →
  full_key c1 sk1 = full_key c2 sk2 → cx_region_id c1 = cx_region_id c2 ∧ sk1 = sk2.
Proof.
  intros H1 H2 E. unfold full_key, encode_multi_level_key, primary_key_from_region_id in E.
  rewrite !length_u64_bytes in E. apply app_inv_head in E.
  apply app_inj_1 in E as [E1 E2]; [|by rewrite !length_u64_bytes]. split.
  - apply (f_equal from_be) in E1. by rewrite !from_be_u64 in E1.
  - by injection E2.
Qed.

(** The multi-level service is a map per region.  What is put under a
    region and a secondary key is what a read of that region and secondary
    key finds, a delete removes it, and neither touches another region,
    another secondary key or another column family. *)
Theorem multi_level_service_map put del srv :
  is_u64 (cx_region_id (mp_context put)) → is_u64 (cx_region_id (md_context del)) →
  ∃ srv1 srv2,
    multi_level_put put srv = (Ok MultiLevelPutResponse_ok, srv1) ∧
    multi_level_delete del srv = (Ok MultiLevelDeleteResponse_ok, srv2) ∧
    ∀ req, is_u64 (cx_region_id (mg_context req)) →
      ∃ v, (multi_level_get req srv).1 = Ok (MultiLevelGetResponse_ok v) ∧
      (multi_level_get req srv1).1 = Ok (MultiLevelGetResponse_ok
        (if decide (mp_cf put = mg_cf req ∧ mp_secondary_key put = mg_secondary_key req ∧
                    cx_region_id (mp_context put) = cx_region_id (mg_context req))
         then Some (mp_value put) else v)) ∧
      (multi_level_get req srv2).1 = Ok (MultiLevelGetResponse_ok
        (if decide (md_cf del = mg_cf req ∧ md_secondary_key del = mg_secondary_key req ∧
                    cx_region_id (md_context del) = cx_region_id (mg_context req))
         then None else v)).
Proof.
  intros Hp Hd. destruct (on_write [MPut (full_key (mp_context put) (mp_secondary_key put))
    (mp_value put) (mp_cf put)] srv) as (srv1 & H1 & Hv1).
  destruct (on_write [MDelete (full_key (md_context del) (md_secondary_key del)) (md_cf del)] srv)
    as (srv2 & H2 & Hv2).
  exists srv1, srv2. unfold multi_level_put, multi_level_delete.
  rewrite (M_bind_run _ _ _ _ _ H1), (M_bind_run _ _ _ _ _ H2). split; [done|]. split; [done|].
  intros req Hr. set (k := full_key (mg_context req) (mg_secondary_key req)).
  exists (cf_view (srv_store srv) (mg_cf req) !! k).
  assert (∀ s, (multi_level_get req s).1
    = Ok (MultiLevelGetResponse_ok (cf_view (srv_store s) (mg_cf req) !! k))) as Hget.
  { intros s. unfold multi_level_get. destruct (on_get (mg_cf req) k s) as (s' & H & _).
    rewrite (M_bind_run _ _ _ _ _ H). by destruct (_ !! _). }
  assert (∀ c sk, is_u64 (cx_region_id c) → full_key c sk = k ↔
    sk = mg_secondary_key req ∧ cx_region_id c = cx_region_id (mg_context req)) as Hk.
  { intros c sk Hc. unfold k. split.
    - intros E. apply full_key_inj in E; naive_solver.
    - intros [-> E]. unfold full_key. by rewrite E. }
  rewrite !Hget, Hv1, Hv2. split_and!; [done|..]; do 2 f_equal; cbn [foldl apply_modify].
  - destruct (decide (mp_cf put = mg_cf req)) as [Hcf|Hcf]; [|by rewrite decide_False by naive_solver].
    destruct (decide (full_key (mp_context put) (mp_secondary_key put) = k)) as [E|E].
    + rewrite E, lookup_insert_eq. apply Hk in E as [? ?]; [|done]. by rewrite decide_True.
    + rewrite lookup_insert_ne by done. rewrite decide_False; [done|].
      intros (_ & ? & ?). by apply E, Hk.
  - destruct (decide (md_cf del = mg_cf req)) as [Hcf|Hcf]; [|by rewrite decide_False by naive_solver].
    destruct (decide (full_key (md_context del) (md_secondary_key del) = k)) as [E|E].
    + rewrite E, lookup_delete_eq. apply Hk in E as [? ?]; [|done]. by rewrite decide_True.
    + rewrite lookup_delete_ne by done. rewrite decide_False; [done|].
      intros (_ & ? & ?). by apply E, Hk.
Qed.

(** The multi-level scan finds nothing.  In a column family that holds
    multi-level keys only, whatever is stored, the scan answers the empty
    list: its end key has ten bytes, every stored key has at least thirteen,
    and a longer key ends the scan. *)
Theorem multi_level_scan_empty req srv :
  (0 < loop_bound)%nat →
  (∀ k v, cf_view (srv_store srv) (ms_cf req) !! k = Some v → ∃ c sk, k = full_key c sk) →
  multi_level_scan req srv = (Ok (MultiLevelScanResponse_ok []), srv).
Proof.
  intros Hb Hall. unfold multi_level_scan. rewrite (M_bind_run get _ _ _ _ eq_refl). cbv zeta.
  set (it := iter_seek _ _). set (e := primary_key_from_region_id _ ++ _).
  assert (multi_level_scan_loop loop_bound (ms_limit req)
    (primary_key_from_region_id (cx_region_id (ms_context req))) e it 0 [] = Ok []) as ->; [|done].
  destruct loop_bound as [|fuel]; [lia|]. cbn [multi_level_scan_loop].
  destruct (iter_rest it) as [|[k v] rest] eqn:Er; [by rewrite (iter_valid_nil _ Er)|].
  rewrite (iter_valid_cons _ _ _ Er), (iter_item_rest _ _ _ Er). cbn [andb].
  destruct (0 <? ms_limit req); [|done].
  assert (cf_view (srv_store srv) (ms_cf req) !! k = Some v) as Hk.
  { apply iter_all_view. unfold it in Er. rewrite iter_seek_rest in Er.
    match type of Er with drop_while ?p ?l = _ =>
      destruct (drop_while_suffix p l) as [pre Hpre]; rewrite Er in Hpre end.
    rewrite Hpre. apply elem_of_app. right. by left. }
  destruct (Hall k v Hk) as (c & sk & ->).
  assert (length e = 10%nat) as ->.
  { unfold e, primary_key_from_region_id. by rewrite length_app, length_u64_bytes. }
  assert ((10 <? length (full_key c sk))%nat = true) as ->; [|done].
  apply Nat.ltb_lt. unfold full_key, encode_multi_level_key, primary_key_from_region_id.
  rewrite !length_app, !length_u64_bytes. unfold u32_to_be_bytes. rewrite length_be_bytes. cbn. lia.
Qed.
End facts.

(** ** A concrete server *)

Section samples.
#[local] Existing Instance map_storage.
#[local] Existing Instance map_storage_laws.
#[local] Existing Instance map_storage_reliable.
#[local] Existing Instance sample_bound.

(** Three keys in the default column family. *)
Definition raw_srv : Server :=
  mkServer (storage_with [MPut [Byte.x61] [Byte.x01] CF_DEFAULT; MPut [Byte.x62] [Byte.x02] CF_DEFAULT;
                          MPut [Byte.x63] [Byte.x03] CF_DEFAULT]) Latches.Latches_new.

Lemma raw_scan_exact_witness :
  ∃ l, (raw_scan (mkRawScanRequest (Context_new 1) [Byte.x62] 5 CF_DEFAULT) raw_srv).1
    = Ok (RawScanResponse_ok (uncurry KvPair_new <$> l)) ∧
    entries_from (cf_view (srv_store raw_srv) CF_DEFAULT) [Byte.x62] 5 l.
Proof.
  destruct (raw_scan_exact (mkRawScanRequest (Context_new 1) [Byte.x62] 5 CF_DEFAULT) raw_srv)
    as (l & H1 & H2).
  - by split; vm_compute.
  - vm_compute. lia.
  - exists l. rewrite H1. by split.
Defined.

(** The scan evaluated: the two keys from [b] on. *)
Example raw_scan_runs :
  (raw_scan (mkRawScanRequest (Context_new 1) [Byte.x62] 5 CF_DEFAULT) raw_srv).1
    = Ok (RawScanResponse_ok [KvPair_new [Byte.x62] [Byte.x02]; KvPair_new [Byte.x63] [Byte.x03]]).
Proof. reflexivity. Qed.

Lemma multi_level_service_map_witness :
  ∃ srv1, multi_level_put (mkMultiLevelPutRequest (Context_new 7) [Byte.x61] [Byte.x09] CF_DEFAULT) raw_srv
      = (Ok MultiLevelPutResponse_ok, srv1) ∧
    (multi_level_get (mkMultiLevelGetRequest (Context_new 7) [Byte.x61] CF_DEFAULT) srv1).1
      = Ok (MultiLevelGetResponse_ok (Some [Byte.x09])).
Proof.
  assert (is_u64 7) as H7 by (by split; vm_compute).
  destruct (multi_level_service_map
    (mkMultiLevelPutRequest (Context_new 7) [Byte.x61] [Byte.x09] CF_DEFAULT)
    (mkMultiLevelDeleteRequest (Context_new 7) [Byte.x61] CF_DEFAULT) raw_srv H7 H7)
    as (srv1 & srv2 & H1 & _ & H3).
  exists srv1. split; [exact H1|].
  destruct (H3 (mkMultiLevelGetRequest (Context_new 7) [Byte.x61] CF_DEFAULT) H7) as (v & _ & H & _).
  exact H.
Defined.
End samples.
