(* ===== verification/TransactionApi.v ===== *)
(** The transactional handlers of src/server/transaction_api.rs on a server
    (src/server/mod.rs): two-phase commit, snapshot reads and scans, status
    checks, rollback and lock resolution, over the storage interface. *)

From stdpp Require Import sorting.
From S2P Require Import Prelude Bytes Codec Records Engine Storage Latches Proto MvccTxn Scanner Server.

Section api.
Context `{storage : Storage} `{bound : LoopBound} `{profile : BuildProfile}.

(** A call that finds a latch held waits for its release: on its own it does
    not return.  Latches.v has the waiting calls and their interleavings. *)
Definition wait_for_latches (keys : list bytes) : M Server unit := λ srv,
  match acquire_latches keys (srv_latches srv) with
  | (None, l) => (Ok tt, mkServer (srv_store srv) l)
  | (Some _, l) => (Diverge, mkServer (srv_store srv) l)
  end.

Definition api_release_latches (keys : list bytes) : M Server unit :=
  modify (λ srv, mkServer (srv_store srv) (release_latches keys (srv_latches srv)).2).

(** The [LockInfo] a refusal carries. *)
Definition lock_info (l : Lock) (key : bytes) : LockInfo :=
  {| li_primary_lock := lock_primary l; li_lock_version := lock_ts l;
     li_key := key; li_lock_ttl := lock_ttl l |}.

(** [if let Some(lock) = ... { if lock.ts != start_ts }] *)
Definition foreign (l : option Lock) (start : Z) : option Lock :=
  match l with
  | Some l => if decide (lock_ts l ≠ start) then Some l else None
  | None => None
  end.

(** [e.to_string().contains("locked")] *)
Fixpoint contains (pat : string) (s : string) : bool :=
  String.prefix pat s || match s with String.EmptyString => false | String.String _ s' => contains pat s' end.

Definition kv_get (req : GetRequest) : M Server GetResponse :=
  let txn := MvccTxn_new (gq_version req) in
  l ← on_store (get_lock (gq_key req));
  match foreign l (gq_version req) with
  | Some lock => mret (GetResponse_with_key_error (KeyError_locked (lock_info lock (gq_key req))))
  | None => λ srv,
      match on_store (get_value (gq_key req) txn) srv with
      | (Ok (Some value), srv') => (Ok (GetResponse_ok (Some value)), srv')
      | (Ok None, srv') => (Ok (GetResponse_ok None), srv')
      | (Err e, srv') =>
          if contains "locked" e then
            (l ← on_store (get_lock (gq_key req));
             match l with
             | Some lock =>
                 mret (GetResponse_with_key_error (KeyError_locked (lock_info lock (gq_key req))))
             | None => mret (GetResponse_ok None)
             end) srv'
          else (Err e, srv')
      | (Panic, srv') => (Panic, srv')
      | (Diverge, srv') => (Diverge, srv')
      end
  end.

(** [for x in l { acc = f(x, acc)?; }] *)
Fixpoint for_acc {A B} (l : list A) (f : A → B → M Server B) (acc : B) : M Server B :=
  match l with
  | [] => mret acc
  | x :: l' => acc' ← f x acc; for_acc l' f acc'
  end.

(** The tail of the handlers: the buffered writes go out in one batch, then
    the latches are released. *)
Definition write_and_release {A} (txn : MvccTxn) (keys : list bytes) (resp : A) : M Server A :=
  on_store (sto_write (txn_writes txn));;
  api_release_latches keys;;
  mret resp.

(** The early returns: release, then answer. *)
Definition release_and_return {A} (keys : list bytes) (resp : A) : M Server A :=
  api_release_latches keys;; mret resp.

(** [if let Ok((Some(_write), commit_ts)) = ...] *)
Definition found_commit (w : option (option Write * Z)) : option Z :=
  match w with Some (Some _, commit_ts) => Some commit_ts | _ => None end.

(** ** Prewrite *)

(** The lock a mutation leaves. *)
Definition prewrite_lock (req : PrewriteRequest) (op : Op) : Lock :=
  {| lock_primary := pq_primary_lock req; lock_ts := pq_start_version req;
     lock_ttl := pq_lock_ttl req;
     lock_kind := match op with OpPut => WkPut | OpDel => WkDelete | _ => WkPut end |}.

(** One turn of the loop over the mutations. *)
Definition prewrite_mutation (req : PrewriteRequest) (mutation : Mutation)
    (acc : MvccTxn * list KeyError) : M Server (MvccTxn * list KeyError) :=
  let '(txn, errors) := acc in
  let key := mu_key mutation in
  l ← on_store (get_lock key);
  match foreign l (pq_start_version req) with
  | Some lock => mret (txn, errors ++ [KeyError_locked (lock_info lock key)])
  | None =>
      w ← on_store (try_ok (most_recent_write key txn));
      let conflict := match found_commit w with
                      | Some commit_ts => if pq_start_version req <? commit_ts then Some commit_ts else None
                      | None => None
                      end in
      match conflict with
      | Some commit_ts =>
          mret (txn, errors ++ [KeyError_conflict
            {| wc_start_ts := pq_start_version req; wc_conflict_ts := commit_ts;
               wc_key := key; wc_primary := pq_primary_lock req |}])
      | None =>
          let lock := prewrite_lock req (mu_op mutation) in
          match mu_op mutation with
          | OpPut => mret (put_lock key lock (put_value key (mu_value mutation) txn), errors)
          | OpDel => mret (put_lock key lock (delete_value key txn), errors)
          | OpRollback =>
              mret (txn, errors ++ [KeyError_abort (str_bytes "unsupported operation: Rollback")])
          end
      end
  end.

Definition kv_prewrite (req : PrewriteRequest) : M Server PrewriteResponse :=
  let keys := mu_key <$> pq_mutations req in
  wait_for_latches keys;;
  '(txn, errors) ← for_acc (pq_mutations req) (prewrite_mutation req)
                     (MvccTxn_new (pq_start_version req), []);
  if decide (errors ≠ []) then release_and_return keys (PrewriteResponse_with_errors errors)
  else write_and_release txn keys PrewriteResponse_ok.

(** ** Commit *)

(** The check of one key: the answer of an early return, or go on. *)
Definition commit_check (req : CommitRequest) (txn : MvccTxn) (key : bytes)
    (acc : option CommitResponse) : M Server (option CommitResponse) :=
  match acc with
  | Some resp => mret (Some resp)
  | None =>
      l ← on_store (get_lock key);
      match l with
      | Some lock =>
          if decide (lock_ts lock ≠ cq_start_version req)
          then mret (Some (CommitResponse_with_key_error (KeyError_locked (lock_info lock key))))
          else mret None
      | None =>
          w ← on_store (try_ok (current_write key txn));
          if decide (found_commit w = Some (cq_commit_version req)) then mret None
          else mret (Some (CommitResponse_with_key_error (KeyError_abort
                 (str_bytes "key " ++ from_utf8_lossy key ++ str_bytes " is not locked"))))
      end
  end.

(** The second loop: the write record and the lock of one key.  Committing a
    request and resolving a lock do the same. *)
Definition commit_key (start commit : Z) (key : bytes) (txn : MvccTxn) : M Server MvccTxn :=
  l ← on_store (get_lock key);
  match l with
  | Some lock =>
      if decide (lock_ts lock = start)
      then mret (delete_lock key (put_write key commit (mkWrite start (lock_kind lock)) txn))
      else mret txn
  | None => mret txn
  end.

Definition kv_commit (req : CommitRequest) : M Server CommitResponse :=
  wait_for_latches (cq_keys req);;
  let txn := MvccTxn_new (cq_start_version req) in
  refusal ← for_acc (cq_keys req) (commit_check req txn) None;
  match refusal with
  | Some resp => release_and_return (cq_keys req) resp
  | None =>
      txn ← for_acc (cq_keys req) (commit_key (cq_start_version req) (cq_commit_version req)) txn;
      write_and_release txn (cq_keys req) CommitResponse_ok
  end.

(** ** Scan *)

(** The lock check of one pair. *)
Definition scan_pair (version : Z) (key value : bytes) : M Server KvPair :=
  l ← on_store (get_lock key);
  match foreign l version with
  | Some lock => mret (KvPair_with_error key (KeyError_locked (lock_info lock key)))
  | None => mret (KvPair_new key value)
  end.

(** [count] stays below the limit, a [u32]. *)
Fixpoint kv_scan_loop (fuel : nat) (req : ScanRequest) (sc : Scanner) (count : Z)
    (pairs : list KvPair) : M Server (list KvPair) :=
  match fuel with
  | O => lift Diverge
  | S fuel' =>
      if count <? sq_limit req then
        '(r, sc') ← on_store (scanner_next sc);
        match r with
        | Some (key, value) =>
            pair ← scan_pair (sq_version req) key value;
            kv_scan_loop fuel' req sc' (count + 1) (pairs ++ [pair])
        | None => mret pairs
        end
      else mret pairs
  end.

Definition kv_scan (req : ScanRequest) : M Server ScanResponse :=
  sc ← on_store (Scanner_new (sq_start_key req) (MvccTxn_new (sq_version req)));
  pairs ← kv_scan_loop (S loop_bound) req (set_limit (sq_limit req) sc) 0 [];
  mret (ScanResponse_ok pairs).

(** ** Status check *)

Definition kv_check_txn_status (req : CheckTxnStatusRequest) : M Server CheckTxnStatusResponse :=
  let key := kq_primary_key req in
  let keys := [key] in
  wait_for_latches keys;;
  let txn := MvccTxn_new (kq_lock_ts req) in
  let rollback := mkWrite (kq_lock_ts req) WkRollback in
  l ← on_store (get_lock key);
  match l with
  | Some lock =>
      if decide (lock_ts lock ≠ kq_lock_ts req)
      then release_and_return keys (CheckTxnStatusResponse_locked (lock_ttl lock))
      else
        expiry ← lift (u64_add (physical_time (lock_ts lock)) (lock_ttl lock));
        if expiry <? physical_time (kq_current_ts req) then
          write_and_release
            (delete_value key (put_write key (kq_lock_ts req) rollback (delete_lock key txn)))
            keys (CheckTxnStatusResponse_rolled_back TtlExpireRollback)
        else release_and_return keys (CheckTxnStatusResponse_locked (lock_ttl lock))
  | None =>
      w ← on_store (try_ok (current_write key txn));
      match found_commit w with
      | Some commit_ts =>
          if 0 <? commit_ts
          then release_and_return keys (CheckTxnStatusResponse_committed commit_ts)
          else write_and_release (put_write key (kq_lock_ts req) rollback txn) keys
                 (CheckTxnStatusResponse_rolled_back LockNotExistRollback)
      | None =>
          write_and_release (put_write key (kq_lock_ts req) rollback txn) keys
            (CheckTxnStatusResponse_rolled_back LockNotExistRollback)
      end
  end.

(** ** Rollback *)

(** One key of a rollback: the transaction goes on, or the answer of an early
    return. *)
Definition rollback_key (req : BatchRollbackRequest) (key : bytes)
    (acc : MvccTxn + BatchRollbackResponse) : M Server (MvccTxn + BatchRollbackResponse) :=
  match acc with
  | inr resp => mret (inr resp)
  | inl txn =>
      l ← on_store (get_lock key);
      match foreign l (bq_start_version req) with
      | Some lock =>
          mret (inr (BatchRollbackResponse_with_key_error (KeyError_locked (lock_info lock key))))
      | None =>
          let txn := match l with Some _ => delete_lock key txn | None => txn end in
          w ← on_store (try_ok (current_write key txn));
          if (match found_commit w with Some c => bq_start_version req <? c | None => false end)
          then mret (inr (BatchRollbackResponse_with_key_error (KeyError_abort
                 (str_bytes "key " ++ from_utf8_lossy key ++ str_bytes " is already committed"))))
          else mret (inl (delete_value key
                 (put_write key (bq_start_version req) (mkWrite (bq_start_version req) WkRollback) txn)))
      end
  end.

Definition kv_batch_rollback (req : BatchRollbackRequest) : M Server BatchRollbackResponse :=
  wait_for_latches (bq_keys req);;
  acc ← for_acc (bq_keys req) (rollback_key req) (inl (MvccTxn_new (bq_start_version req)));
  match acc with
  | inr resp => release_and_return (bq_keys req) resp
  | inl txn => write_and_release txn (bq_keys req) BatchRollbackResponse_ok
  end.

(** ** Lock resolution *)

(** The keys of the locks of a transaction, in key order. *)
Fixpoint locks_of_txn (fuel : nat) (start : Z) (it : iter) (keys : list bytes)
  : outcome (list bytes) :=
  match fuel with
  | O => Diverge
  | S fuel' =>
      if iter_valid it then
        let '(key, value) := iter_item it in
        match Lock_parse value with
        | Ok lock =>
            locks_of_txn fuel' start (iter_next it)
              (if decide (lock_ts lock = start) then keys ++ [key] else keys)
        | Err _ => locks_of_txn fuel' start (iter_next it) keys
        | Panic => Panic
        | Diverge => Diverge
        end
      else Ok keys
  end.

Definition resolve_rollback_key (start : Z) (key : bytes) (txn : MvccTxn) : M Server MvccTxn :=
  l ← on_store (get_lock key);
  match l with
  | Some lock =>
      if decide (lock_ts lock = start)
      then mret (delete_value key (put_write key start (mkWrite start WkRollback) (delete_lock key txn)))
      else mret txn
  | None => mret txn
  end.

Definition kv_resolve_lock (req : ResolveLockRequest) : M Server ResolveLockResponse :=
  srv ← get;
  let it := iter_seek [] (sto_iter_cf CF_LOCK (srv_store srv)) in
  keys ← lift (locks_of_txn loop_bound (lq_start_version req) it []);
  if decide (keys = []) then mret ResolveLockResponse_ok
  else
    wait_for_latches keys;;
    let txn := MvccTxn_new (lq_start_version req) in
    txn ← (if 0 <? lq_commit_version req
           then for_acc keys (commit_key (lq_start_version req) (lq_commit_version req)) txn
           else for_acc keys (resolve_rollback_key (lq_start_version req)) txn);
    write_and_release txn keys ResolveLockResponse_ok.
End api.

(** ** Running the handlers on a healthy storage *)

Section runs.
Context `{reliable : ReliableStorage} `{bound : LoopBound} `{profile : BuildProfile}.
Implicit Types (m d : gmap bytes bytes) (srv : Server).

(** Every lock is a readable record. *)
Definition locks_ok m : Prop :=
  ∀ k v, m !! k = Some v → ∃ l, Lock_ok l ∧ lock_primary l ≠ [] ∧ v = Lock_to_bytes l.

Definition lock_at m (key : bytes) : option Lock :=
  match lock_of m key with Ok l => l | _ => None end.

Lemma lock_of_ok m key : locks_ok m → lock_of m key = Ok (lock_at m key).
Proof.
  intros Hok. unfold lock_at, lock_of. destruct (m !! key) as [v|] eqn:E; [|done].
  destruct (Hok _ _ E) as (l & Hl & Hp & ->). by rewrite Lock_parse_to_bytes.
Qed.

Lemma lock_at_Some m key l :
  locks_ok m → lock_at m key = Some l → m !! key = Some (Lock_to_bytes l) ∧ Lock_ok l.
Proof.
  intros Hok. unfold lock_at, lock_of. destruct (m !! key) as [v|] eqn:E; [|done].
  destruct (Hok _ _ E) as (l' & Hl & Hp & ->). rewrite Lock_parse_to_bytes by done.
  cbn. by intros [= <-].
Qed.

(** The column families and the latches are as they were. *)
Definition same srv srv' : Prop :=
  cf_view (srv_store srv') = cf_view (srv_store srv) ∧ srv_latches srv' = srv_latches srv.

(** A batch has been applied, and no latch is held that was not. *)
Definition served (b : list Modify) srv srv' : Prop :=
  (∀ cf, cf_view (srv_store srv') cf = foldl (apply_modify cf) (cf_view (srv_store srv) cf) b) ∧
  latch_map (srv_latches srv') = latch_map (srv_latches srv).

(** The state in which a handler on [keys] runs to its end. *)
Record server_ready (keys : list bytes) srv : Prop := {
  sv_write : write_ready (cf_view (srv_store srv) CF_WRITE);
  sv_locks : locks_ok (cf_view (srv_store srv) CF_LOCK);
  sv_free : ∀ k, k ∈ keys → latch_map (srv_latches srv) !! k = None;
}.

Lemma same_refl srv : same srv srv.
Proof. done. Qed.
Lemma same_trans srv1 srv2 srv3 : same srv1 srv2 → same srv2 srv3 → same srv1 srv3.
Proof. intros [H1 H2] [H3 H4]. split; congruence. Qed.

(** A loop whose turns compute a function of the column families. *)
Lemma for_acc_run {A B} (P : B → Prop) (g : A → B → B) (l : list A) (f : A → B → M Server B) acc srv :
  P acc →
  (∀ x a srv1, x ∈ l → P a → same srv srv1 →
     ∃ srv2, f x a srv1 = (Ok (g x a), srv2) ∧ same srv1 srv2 ∧ P (g x a)) →
  ∃ srv', for_acc l f acc srv = (Ok (foldl (λ a x, g x a) acc l), srv') ∧ same srv srv' ∧
    P (foldl (λ a x, g x a) acc l).
Proof.
  enough (∀ srv0, same srv srv0 → P acc →
    (∀ x a srv1, x ∈ l → P a → same srv srv1 →
       ∃ srv2, f x a srv1 = (Ok (g x a), srv2) ∧ same srv1 srv2 ∧ P (g x a)) →
    ∃ srv', for_acc l f acc srv0 = (Ok (foldl (λ a x, g x a) acc l), srv') ∧ same srv srv' ∧
      P (foldl (λ a x, g x a) acc l)) as H by (intros; apply H; [apply same_refl|done..]).
  revert acc. induction l as [|x l IH]; intros acc srv0 Hs HP Hf; [by exists srv0|].
  cbn [for_acc foldl]. destruct (Hf x acc srv0) as (srv2 & H1 & H2 & H3); [by left|done..|].
  rewrite (M_bind_run _ _ _ _ _ H1). apply IH; [by eapply same_trans|done|].
  intros y a srv1 Hy. apply Hf. by right.
Qed.

Lemma on_get_lock key srv :
  locks_ok (cf_view (srv_store srv) CF_LOCK) →
  ∃ srv', on_store (get_lock key) srv = (Ok (lock_at (cf_view (srv_store srv) CF_LOCK) key), srv') ∧
    same srv srv'.
Proof.
  intros Hok. destruct (get_lock_run key (srv_store srv)) as [H1 H2].
  rewrite (lock_of_ok _ _ Hok) in H1. unfold on_store. destruct (get_lock key _) as [o s'].
  cbn in *. subst o. eexists. split; [done|]. by split.
Qed.

Lemma on_current_write key t srv :
  write_ready (cf_view (srv_store srv) CF_WRITE) → is_u64 (txn_start_ts t) →
  on_store (try_ok (current_write key t)) srv
  = (Ok (Some match record_at (cf_view (srv_store srv) CF_WRITE) key (txn_start_ts t) with
              | Some w => (Some w, txn_start_ts t)
              | None => (None, 0)
              end), srv).
Proof.
  intros Hr Ht. unfold on_store, try_ok. rewrite current_write_run by done. by destruct srv.
Qed.

Lemma on_most_recent_write key t srv :
  write_ready (cf_view (srv_store srv) CF_WRITE) →
  ∃ r, on_store (try_ok (most_recent_write key t)) srv = (Ok (Some r), srv) ∧
    newest (cf_view (srv_store srv) CF_WRITE) key (txn_start_ts t) r.
Proof.
  intros Hr. destruct (most_recent_write_run key t (srv_store srv) Hr) as (r & H1 & H2).
  exists r. split; [|done]. unfold on_store, try_ok. rewrite H1. by destruct srv.
Qed.

Lemma wait_run keys srv :
  (∀ k, k ∈ keys → latch_map (srv_latches srv) !! k = None) →
  ∃ srv', wait_for_latches keys srv = (Ok tt, srv') ∧ srv_store srv' = srv_store srv ∧
    latch_map (release_latches keys (srv_latches srv')).2 = latch_map (srv_latches srv).
Proof.
  intros Hfree. unfold wait_for_latches. pose proof (acquire_latches_spec keys (srv_latches srv)) as H.
  destruct (acquire_latches keys (srv_latches srv)) as [[n|] l].
  - destruct H as [_ (k & Hk & E)]. rewrite Hfree in E; done.
  - destruct H as (_ & _ & _ & H). by eexists.
Qed.

(** The two ends of a handler, from the state after its latches were taken. *)
Lemma release_run {A} keys (resp : A) srv0 srv1 srv2 :
  srv_store srv1 = srv_store srv0 →
  latch_map (release_latches keys (srv_latches srv1)).2 = latch_map (srv_latches srv0) →
  same srv1 srv2 →
  ∃ srv', release_and_return keys resp srv2 = (Ok resp, srv') ∧ served [] srv0 srv'.
Proof.
  intros Hs Hl [Hv Hl']. eexists. split; [reflexivity|]. split; cbn.
  - intros cf. by rewrite Hv, Hs.
  - by rewrite Hl'.
Qed.

Lemma write_run {A} txn keys (resp : A) srv0 srv1 srv2 :
  srv_store srv1 = srv_store srv0 →
  latch_map (release_latches keys (srv_latches srv1)).2 = latch_map (srv_latches srv0) →
  same srv1 srv2 →
  ∃ srv', write_and_release txn keys resp srv2 = (Ok resp, srv') ∧ served (txn_writes txn) srv0 srv'.
Proof.
  intros Hs Hl [Hv Hl'].
  pose proof (sto_write_total (txn_writes txn) (srv_store srv2)) as Hw. apply run_ok in Hw.
  set (s' := (sto_write (txn_writes txn) (srv_store srv2)).2) in *.
  exists (mkServer s' (release_latches keys (srv_latches srv2)).2). split.
  - unfold write_and_release, on_store. unfold_M. rewrite Hw. reflexivity.
  - split; cbn.
    + intros cf. rewrite (sto_write_ok _ _ _ Hw). by rewrite Hv, Hs.
    + by rewrite Hl'.
Qed.
End runs.

(** ** Prewrite *)

(** Why a mutation is refused. *)
Definition prewrite_error (req : PrewriteRequest) (locks : gmap bytes bytes) (mu : Mutation)
  : option KeyError :=
  match foreign (lock_at locks (mu_key mu)) (pq_start_version req) with
  | Some l => Some (KeyError_locked (lock_info l (mu_key mu)))
  | None =>
      match mu_op mu with
      | OpRollback => Some (KeyError_abort (str_bytes "unsupported operation: Rollback"))
      | _ => None
      end
  end.

(** What a mutation writes: its value under the start timestamp, and its lock. *)
Definition prewrite_writes (req : PrewriteRequest) (mu : Mutation) : list Modify :=
  let at_start := encode_key (mu_key mu) (pq_start_version req) in
  let lock := MPut (mu_key mu) (Lock_to_bytes (prewrite_lock req (mu_op mu))) CF_LOCK in
  match mu_op mu with
  | OpPut => [MPut at_start (mu_value mu) CF_DEFAULT; lock]
  | OpDel => [MDelete at_start CF_DEFAULT; lock]
  | OpRollback => []
  end.

Section prewrite.
Context `{reliable : ReliableStorage} `{bound : LoopBound} `{profile : BuildProfile}.
Implicit Types (srv : Server).

Definition prewrite_acc (req : PrewriteRequest) (locks : gmap bytes bytes) (mu : Mutation)
    (acc : MvccTxn * list KeyError) : MvccTxn * list KeyError :=
  match prewrite_error req locks mu with
  | Some e => (acc.1, acc.2 ++ [e])
  | None => (mkTxn (txn_start_ts acc.1) (txn_writes acc.1 ++ prewrite_writes req mu), acc.2)
  end.

Lemma prewrite_mutation_run req mu acc srv :
  write_ready (cf_view (srv_store srv) CF_WRITE) → locks_ok (cf_view (srv_store srv) CF_LOCK) →
  txn_start_ts acc.1 = pq_start_version req →
  ∃ srv', prewrite_mutation req mu acc srv
          = (Ok (prewrite_acc req (cf_view (srv_store srv) CF_LOCK) mu acc), srv') ∧ same srv srv'.
Proof.
  intros Hw Hl Ht. destruct acc as [txn errors]. cbn in Ht. unfold prewrite_mutation, prewrite_acc, prewrite_error.
  destruct (on_get_lock (mu_key mu) srv Hl) as (srv1 & H1 & Hs).
  rewrite (M_bind_run _ _ _ _ _ H1).
  destruct (foreign (lock_at _ _) _) as [l|]; [by exists srv1|].
  destruct (on_most_recent_write (mu_key mu) txn srv1) as (r & H2 & H3).
  { by rewrite (proj1 Hs). }
  rewrite (M_bind_run _ _ _ _ _ H2). cbv zeta. cbn [found_commit].
  assert (match (match r with (Some _, commit_ts) => Some commit_ts | _ => None end) with
          | Some c => if pq_start_version req <? c then Some c else None
          | None => None end = None) as ->.
  { destruct r as [[w|] c]; [|done]. cbn in *. rewrite Ht in H3.
    destruct (Z.ltb_spec (pq_start_version req) c); [lia|done]. }
  exists srv1. split; [|done]. unfold prewrite_writes, put_lock, put_value, delete_value, push. cbn.
  rewrite Ht. destruct (mu_op mu); cbn; by rewrite <- ?app_assoc.
Qed.

Lemma prewrite_acc_fold req locks ms acc :
  let r := foldl (λ a x, prewrite_acc req locks x a) acc ms in
  r.2 = acc.2 ++ omap (prewrite_error req locks) ms ∧
  txn_start_ts r.1 = txn_start_ts acc.1 ∧
  (omap (prewrite_error req locks) ms = [] →
   txn_writes r.1 = txn_writes acc.1 ++ (ms ≫= prewrite_writes req)).
Proof.
  cbv zeta. revert acc. induction ms as [|mu ms IH]; intros acc; cbn [foldl].
  { cbn. by rewrite !app_nil_r. }
  destruct (IH (prewrite_acc req locks mu acc)) as (H1 & H2 & H3). cbn [omap list_omap].
  rewrite H1, H2. unfold prewrite_acc in *. destruct (prewrite_error req locks mu) as [e|] eqn:E; cbn in *.
  - split_and!; [by rewrite <- app_assoc|done|done].
  - split_and!; [done|done|]. intros Hn. rewrite H3 by done. by rewrite <- app_assoc.
Qed.

Lemma prewrite_run req srv :
  server_ready (mu_key <$> pq_mutations req) srv →
  let errors := omap (prewrite_error req (cf_view (srv_store srv) CF_LOCK)) (pq_mutations req) in
  ∃ srv', kv_prewrite req srv = (Ok (mkPrewriteResponse None errors), srv') ∧
    served (if decide (errors = []) then pq_mutations req ≫= prewrite_writes req else []) srv srv'.
Proof.
  intros [Hw Hl Hfree] errors. unfold kv_prewrite. cbv zeta.
  destruct (wait_run _ _ Hfree) as (srv1 & H1 & Hst & Hrel). rewrite (M_bind_run _ _ _ _ _ H1).
  destruct (for_acc_run (λ acc, txn_start_ts acc.1 = pq_start_version req)
              (prewrite_acc req (cf_view (srv_store srv) CF_LOCK)) (pq_mutations req)
              (prewrite_mutation req) (MvccTxn_new (pq_start_version req), []) srv1)
    as (srv2 & H2 & Hs & _).
  - done.
  - intros mu acc srvx _ Hacc [Hv _]. rewrite Hst in Hv.
    destruct (prewrite_mutation_run req mu acc srvx) as (srvy & Hy1 & Hy2).
    + by rewrite Hv.
    + by rewrite Hv.
    + done.
    + rewrite Hv in Hy1. exists srvy. split_and!; [done|done|].
      unfold prewrite_acc. by case_match.
  - rewrite (M_bind_run _ _ _ _ _ H2).
    pose proof (prewrite_acc_fold req (cf_view (srv_store srv) CF_LOCK) (pq_mutations req)
                  (MvccTxn_new (pq_start_version req), [])) as (E1 & _ & E3).
    destruct (foldl _ _ _) as [txn errs]. cbn in E1, E3. fold errors in E1, E3. subst errs.
    destruct (decide (errors = [])) as [He|He].
    + rewrite decide_False by naive_solver. rewrite He. rewrite <- (E3 He). by eapply write_run.
    + rewrite decide_True by done. by eapply release_run.
Qed.

(** C2: What prewrite does.  On a healthy server whose latches for the keys
    are free, prewrite answers one error per refused mutation, in order: a
    key locked by another transaction, or an operation it does not support.
    With no error every value and every lock is written in one batch; with any
    error nothing is written.  Either way the latches are as before. *)
Theorem kv_prewrite_exact req srv :
  server_ready (mu_key <$> pq_mutations req) srv →
  let errors := omap (prewrite_error req (cf_view (srv_store srv) CF_LOCK)) (pq_mutations req) in
  ∃ srv', kv_prewrite req srv = (Ok (mkPrewriteResponse None errors), srv') ∧
    served (if decide (errors = []) then pq_mutations req ≫= prewrite_writes req else []) srv srv'.
Proof. apply prewrite_run. Qed.

(** Prewrite misses write conflicts.  A committed record newer than the
    transaction's start does not stop it: the search for a conflict looks at
    records up to the start timestamp only, so the conflict branch is never
    taken and the first committer does not win. *)
Theorem prewrite_ignores_newer_commits req mu srv commit w :
  server_ready [mu_key mu] srv → pq_mutations req = [mu] → mu_op mu = OpPut →
  lock_at (cf_view (srv_store srv) CF_LOCK) (mu_key mu) = None →
  pq_start_version req < commit →
  record_at (cf_view (srv_store srv) CF_WRITE) (mu_key mu) commit = Some w →
  (kv_prewrite req srv).1 = Ok PrewriteResponse_ok.
Proof.
  intros Hr Hm Hop Hlk _ _. destruct (prewrite_run req srv) as (srv' & -> & _); [by rewrite Hm|].
  rewrite Hm. cbn. unfold prewrite_error. by rewrite Hlk, Hop.
Qed.
End prewrite.

(** ** Commit *)

(** Why a key stops a commit.  Without a lock, only a record at the start
    timestamp is looked for. *)
Definition commit_refusal (req : CommitRequest) (locks records : gmap bytes bytes) (key : bytes)
  : option CommitResponse :=
  match lock_at locks key with
  | Some l =>
      if decide (lock_ts l = cq_start_version req) then None
      else Some (CommitResponse_with_key_error (KeyError_locked (lock_info l key)))
  | None =>
      if decide (is_Some (record_at records key (cq_start_version req)) ∧
                 cq_start_version req = cq_commit_version req) then None
      else Some (CommitResponse_with_key_error (KeyError_abort
             (str_bytes "key " ++ from_utf8_lossy key ++ str_bytes " is not locked")))
  end.

(** The record and the lock removal of a key that carries the lock. *)
Definition commit_writes (start commit : Z) (locks : gmap bytes bytes) (key : bytes) : list Modify :=
  match lock_at locks key with
  | Some l =>
      if decide (lock_ts l = start)
      then [MPut (encode_key key commit) (Write_to_bytes (mkWrite start (lock_kind l))) CF_WRITE;
            MDelete key CF_LOCK]
      else []
  | None => []
  end.

Section commit.
Context `{reliable : ReliableStorage} `{bound : LoopBound} `{profile : BuildProfile}.
Implicit Types (srv : Server).

Lemma commit_check_run req key acc srv :
  write_ready (cf_view (srv_store srv) CF_WRITE) → locks_ok (cf_view (srv_store srv) CF_LOCK) →
  is_u64 (cq_start_version req) →
  ∃ srv', commit_check req (MvccTxn_new (cq_start_version req)) key acc srv
    = (Ok (match acc with
           | Some r => Some r
           | None => commit_refusal req (cf_view (srv_store srv) CF_LOCK)
                       (cf_view (srv_store srv) CF_WRITE) key
           end), srv') ∧ same srv srv'.
Proof.
  intros Hw Hl Ht. destruct acc as [r|]; [by exists srv|]. unfold commit_check, commit_refusal.
  destruct (on_get_lock key srv Hl) as (srv1 & H1 & Hs). rewrite (M_bind_run _ _ _ _ _ H1).
  destruct (lock_at _ _) as [l|].
  { exists srv1. split; [|done]. repeat case_decide; (done || congruence). }
  rewrite (M_bind_run _ _ _ _ _ (on_current_write key (MvccTxn_new (cq_start_version req)) srv1
             ltac:(by rewrite (proj1 Hs)) Ht)).
  rewrite (proj1 Hs). cbn [MvccTxn_new txn_start_ts]. exists srv1. split; [|done].
  destruct (record_at _ _ _) as [w|]; cbn [found_commit].
  - destruct (decide (cq_start_version req = cq_commit_version req)) as [->|Hne].
    + by rewrite !decide_True by eauto.
    + rewrite decide_False by congruence. by rewrite decide_False by naive_solver.
  - rewrite decide_False by done. by rewrite decide_False by (intros [[] _]; congruence).
Qed.

Lemma commit_key_run start commit key txn srv :
  locks_ok (cf_view (srv_store srv) CF_LOCK) →
  ∃ srv', commit_key start commit key txn srv
    = (Ok (mkTxn (txn_start_ts txn)
             (txn_writes txn ++ commit_writes start commit (cf_view (srv_store srv) CF_LOCK) key)),
       srv') ∧ same srv srv'.
Proof.
  intros Hl. unfold commit_key, commit_writes. destruct (on_get_lock key srv Hl) as (srv1 & H1 & Hs).
  rewrite (M_bind_run _ _ _ _ _ H1). exists srv1. split; [|done].
  destruct (lock_at _ _) as [l|]; [case_decide|]; destruct txn; cbn; rewrite ?app_nil_r; [|done..].
  unfold delete_lock, put_write, push. cbn. by rewrite <- app_assoc.
Qed.

(** A loop whose turns each append the writes of a key. *)
Lemma append_keys_run (f : bytes → MvccTxn → M Server MvccTxn) (g : bytes → list Modify) keys txn srv :
  (∀ key t srv1, key ∈ keys → txn_start_ts t = txn_start_ts txn → same srv srv1 → ∃ srv2,
     f key t srv1 = (Ok (mkTxn (txn_start_ts t) (txn_writes t ++ g key)), srv2) ∧ same srv1 srv2) →
  ∃ srv', for_acc keys f txn srv
    = (Ok (mkTxn (txn_start_ts txn) (txn_writes txn ++ (keys ≫= g))), srv') ∧ same srv srv'.
Proof.
  intros Hf. destruct (for_acc_run (λ t, txn_start_ts t = txn_start_ts txn)
    (λ key txn, mkTxn (txn_start_ts txn) (txn_writes txn ++ g key)) keys f txn srv)
    as (srv' & H1 & Hs & _); [done|..].
  - intros key a srv1 Hk Ha Hs. destruct (Hf key a srv1 Hk Ha Hs) as (srv2 & H1 & H2). by exists srv2.
  - exists srv'. split; [|done]. rewrite H1. do 2 f_equal. clear.
    revert txn. induction keys as [|k keys IH]; intros txn; cbn; [by destruct txn; rewrite app_nil_r|].
    rewrite IH. cbn. by rewrite app_assoc.
Qed.

Lemma commit_keys_run start commit keys txn srv :
  locks_ok (cf_view (srv_store srv) CF_LOCK) →
  ∃ srv', for_acc keys (commit_key start commit) txn srv
    = (Ok (mkTxn (txn_start_ts txn)
             (txn_writes txn ++ (keys ≫= commit_writes start commit (cf_view (srv_store srv) CF_LOCK)))),
       srv') ∧ same srv srv'.
Proof.
  intros Hl. apply append_keys_run. intros key t srv1 _ _ [Hv _]. rewrite <- Hv.
  apply commit_key_run. by rewrite Hv.
Qed.

Lemma first_some {A B} (f : A → option B) (l : list A) (acc : option B) :
  foldl (λ a x, match a with Some r => Some r | None => f x end) acc l
  = match acc with Some r => Some r | None => head (omap f l) end.
Proof.
  revert acc. induction l as [|x l IH]; intros acc; cbn; [by destruct acc|]. rewrite IH.
  destruct acc; [done|]. by destruct (f x).
Qed.

Lemma commit_run req srv :
  server_ready (cq_keys req) srv → is_u64 (cq_start_version req) →
  let locks := cf_view (srv_store srv) CF_LOCK in
  let refusal := head (omap (commit_refusal req locks (cf_view (srv_store srv) CF_WRITE)) (cq_keys req)) in
  ∃ srv', kv_commit req srv
      = (Ok (match refusal with Some r => r | None => CommitResponse_ok end), srv') ∧
    served (match refusal with
            | Some _ => []
            | None => cq_keys req ≫= commit_writes (cq_start_version req) (cq_commit_version req) locks
            end) srv srv'.
Proof.
  intros [Hw Hl Hfree] Hu locks refusal. unfold kv_commit.
  destruct (wait_run _ _ Hfree) as (srv1 & H1 & Hst & Hrel). rewrite (M_bind_run _ _ _ _ _ H1).
  cbv zeta.
  destruct (for_acc_run (λ _, True) (λ key acc, match acc with Some r => Some r | None =>
              commit_refusal req locks (cf_view (srv_store srv) CF_WRITE) key end) (cq_keys req)
              (commit_check req (MvccTxn_new (cq_start_version req))) None srv1)
    as (srv2 & H2 & Hs & _); [done|..].
  - intros key acc srvx _ _ [Hv _]. rewrite Hst in Hv.
    destruct (commit_check_run req key acc srvx) as (srvy & Hy1 & Hy2);
      [by rewrite Hv|by rewrite Hv|done|].
    rewrite Hv in Hy1. by exists srvy.
  - rewrite (M_bind_run _ _ _ _ _ H2), first_some. fold refusal. destruct refusal as [r|].
    + by eapply release_run.
    + destruct (commit_keys_run (cq_start_version req) (cq_commit_version req) (cq_keys req)
                  (MvccTxn_new (cq_start_version req)) srv2) as (srv3 & H3 & Hs3).
      { by rewrite (proj1 Hs), Hst. }
      rewrite (M_bind_run _ _ _ _ _ H3). rewrite (proj1 Hs), Hst. fold locks.
      eapply (write_run (mkTxn _ _)); [done|done|]. by eapply same_trans.
Qed.

(** C3: What commit does.  On a healthy server whose latches for the keys are
    free, commit goes through when every key carries the transaction's lock:
    each lock becomes a record of its kind at the commit timestamp, in one
    batch.  Otherwise nothing is written and the first offending key, locked
    by another transaction or not locked, is the answer. *)
Theorem kv_commit_exact req srv :
  server_ready (cq_keys req) srv → is_u64 (cq_start_version req) →
  let locks := cf_view (srv_store srv) CF_LOCK in
  let refusal := head (omap (commit_refusal req locks (cf_view (srv_store srv) CF_WRITE)) (cq_keys req)) in
  ∃ srv', kv_commit req srv
      = (Ok (match refusal with Some r => r | None => CommitResponse_ok end), srv') ∧
    served (match refusal with
            | Some _ => []
            | None => cq_keys req ≫= commit_writes (cq_start_version req) (cq_commit_version req) locks
            end) srv srv'.
Proof. apply commit_run. Qed.

(** A repeated commit is refused.  When a key has its record at the commit
    timestamp and no lock any more, the state a commit leaves, sending the
    same commit again answers an abort: the test for this case looks for a
    record at the start timestamp. *)
Theorem commit_retry_refused req key keys srv w :
  server_ready (cq_keys req) srv → is_u64 (cq_start_version req) →
  cq_keys req = key :: keys → cq_start_version req < cq_commit_version req →
  lock_at (cf_view (srv_store srv) CF_LOCK) key = None →
  record_at (cf_view (srv_store srv) CF_WRITE) key (cq_commit_version req) = Some w →
  write_start_ts w = cq_start_version req →
  (kv_commit req srv).1 = Ok (CommitResponse_with_key_error (KeyError_abort
    (str_bytes "key " ++ from_utf8_lossy key ++ str_bytes " is not locked"))).
Proof.
  intros Hr Hu Hk Hlt Hlk _ _. destruct (commit_run req srv Hr Hu) as (srv' & -> & _).
  rewrite Hk. cbn [omap list_omap]. unfold commit_refusal at 1. rewrite Hlk.
  rewrite decide_False by (intros [_ ?]; lia). done.
Qed.
End commit.

(** ** Reads and the two phases together *)

(** A modification that keeps the write and lock column families readable. *)
Definition wf_modify (x : Modify) : Prop :=
  match x with
  | MPut k v cf =>
      (cf = CF_WRITE → ∃ uk ts w, k = encode_key uk ts ∧ is_u64 ts ∧ Write_ok w ∧ v = Write_to_bytes w) ∧
      (cf = CF_LOCK → ∃ l, Lock_ok l ∧ lock_primary l ≠ [] ∧ v = Lock_to_bytes l)
  | MDelete _ _ => True
  end.

Lemma foldl_modify_inv (Q : bytes → bytes → Prop) (cf : string) (m : gmap bytes bytes) (b : list Modify) :
  (∀ k v, m !! k = Some v → Q k v) → (∀ k v, MPut k v cf ∈ b → Q k v) →
  ∀ k v, foldl (apply_modify cf) m b !! k = Some v → Q k v.
Proof.
  revert m. induction b as [|x b IH]; intros m Hm Hb; [done|]. cbn [foldl]. apply IH.
  - intros k v. destruct x as [k' v' cf'|k' cf']; cbn; case_decide as Hcf; auto.
    + subst cf'. rewrite lookup_insert_Some. intros [[<- <-]|[_ ?]]; [apply Hb; by left|by apply Hm].
    + rewrite lookup_delete_Some. intros [_ ?]. by apply Hm.
  - intros k v Hin. apply Hb. by right.
Qed.

Lemma write_cf_ok_batch (m : gmap bytes bytes) (b : list Modify) :
  write_cf_ok m → Forall wf_modify b → write_cf_ok (foldl (apply_modify CF_WRITE) m b).
Proof.
  intros Hm Hb k v. revert k v. apply foldl_modify_inv; [done|]. intros k v Hin.
  rewrite Forall_forall in Hb. destruct (Hb _ Hin) as [H _]. by apply H.
Qed.

Lemma locks_ok_batch (m : gmap bytes bytes) (b : list Modify) :
  locks_ok m → Forall wf_modify b → locks_ok (foldl (apply_modify CF_LOCK) m b).
Proof.
  intros Hm Hb k v. revert k v. apply foldl_modify_inv; [done|]. intros k v Hin.
  rewrite Forall_forall in Hb. destruct (Hb _ Hin) as [_ H]. by apply H.
Qed.

Lemma size_batch (cf : string) (m : gmap bytes bytes) (b : list Modify) :
  (size (foldl (apply_modify cf) m b) ≤ size m + length b)%nat.
Proof.
  revert m. induction b as [|x b IH]; intros m; cbn [foldl length]; [lia|].
  etrans; [apply IH|]. enough (size (apply_modify cf m x) ≤ S (size m))%nat by lia.
  destruct x as [k v cf'|k cf']; cbn; case_decide; [|lia| |lia].
  - destruct (m !! k) eqn:E; [rewrite map_size_insert_Some|rewrite map_size_insert_None]; eauto.
  - rewrite map_size_delete. pose proof (Nat.le_pred_l (size m)). case_match; [by etrans; [|apply Nat.le_succ_diag_r]|apply Nat.le_succ_diag_r].
Qed.

Definition request_ok (req : PrewriteRequest) : Prop :=
  pq_primary_lock req ≠ [] ∧ is_u64 (pq_start_version req) ∧ is_u64 (pq_lock_ttl req).

Lemma prewrite_writes_wf req mu : request_ok req → Forall wf_modify (prewrite_writes req mu).
Proof.
  intros (Hp & Hs & Ht). unfold prewrite_writes.
  assert (wf_modify (MPut (mu_key mu) (Lock_to_bytes (prewrite_lock req (mu_op mu))) CF_LOCK)) as Hlock.
  { split; [done|]. intros _. exists (prewrite_lock req (mu_op mu)). by split_and!. }
  destruct (mu_op mu); repeat constructor; (done || apply Hlock).
Qed.

Lemma commit_writes_wf start commit locks key :
  is_u64 start → is_u64 commit → Forall wf_modify (commit_writes start commit locks key).
Proof.
  intros Hs Hc. unfold commit_writes. destruct (lock_at _ _) as [l|]; [|done].
  case_decide; [|done]. repeat constructor; [|done].
  intros _. by eexists key, commit, (mkWrite start (lock_kind l)).
Qed.

Lemma Forall_bind {A B} (P : B → Prop) (f : A → list B) (l : list A) :
  (∀ x, x ∈ l → Forall P (f x)) → Forall P (l ≫= f).
Proof.
  induction l as [|x l IH]; intros H; cbn; [done|]. apply Forall_app. split.
  - apply H. by left.
  - apply IH. intros y Hy. apply H. by right.
Qed.

Section transactions.
Context `{reliable : ReliableStorage} `{bound : LoopBound} `{profile : BuildProfile}.
Implicit Types (srv : Server).

Lemma get_run req srv :
  write_ready (cf_view (srv_store srv) CF_WRITE) → locks_ok (cf_view (srv_store srv) CF_LOCK) →
  ∃ srv' v, same srv srv' ∧
    visible (cf_view (srv_store srv) CF_WRITE) (cf_view (srv_store srv) CF_DEFAULT)
      (gq_version req) (gq_key req) v ∧
    kv_get req srv = (Ok (match foreign (lock_at (cf_view (srv_store srv) CF_LOCK) (gq_key req))
                                  (gq_version req) with
                          | Some l => GetResponse_with_key_error (KeyError_locked (lock_info l (gq_key req)))
                          | None => GetResponse_ok v
                          end), srv').
Proof.
  intros Hw Hl. unfold kv_get. cbv zeta.
  destruct (on_get_lock (gq_key req) srv Hl) as (srv1 & H1 & [Hv Hla]). rewrite (M_bind_run _ _ _ _ _ H1).
  set (lk := lock_at (cf_view (srv_store srv) CF_LOCK) (gq_key req)) in *.
  destruct (get_value_run (gq_key req) (MvccTxn_new (gq_version req)) (srv_store srv1) lk)
    as (s2 & Hs2 & Hget).
  { by rewrite Hv. }
  { rewrite Hv. by apply lock_of_ok. }
  rewrite Hv in Hget, Hs2. destruct (foreign lk (gq_version req)) as [l|] eqn:Hf.
  - destruct (most_recent_write_run (gq_key req) (MvccTxn_new (gq_version req)) (srv_store srv) Hw)
      as (r & _ & Hn).
    eexists srv1, _. split; [done|]. split; [|done]. by exists r.
  - assert (lock_allows lk (txn_start_ts (MvccTxn_new (gq_version req))) = true) as Ha.
    { unfold foreign in Hf. destruct lk as [l|]; [|done]. case_decide; [done|]. cbn. lia. }
    rewrite Ha in Hget. destruct Hget as (w & Hn & Hg).
    exists (mkServer s2 (srv_latches srv1)), (value_of (cf_view (srv_store srv) CF_DEFAULT) (gq_key req) w.1).
    split_and!; [by split|by exists w|]. unfold on_store. rewrite Hg.
    by destruct (value_of _ _ _).
Qed.

(** What a read answers.  On a healthy server a key locked by another
    transaction is reported with its lock; any other key is answered with the
    value its newest record at or below the version stands for, and reading
    leaves the column families and the latches as they were. *)
Theorem kv_get_exact req srv :
  write_ready (cf_view (srv_store srv) CF_WRITE) → locks_ok (cf_view (srv_store srv) CF_LOCK) →
  ∃ srv' v, same srv srv' ∧
    visible (cf_view (srv_store srv) CF_WRITE) (cf_view (srv_store srv) CF_DEFAULT)
      (gq_version req) (gq_key req) v ∧
    kv_get req srv = (Ok (match foreign (lock_at (cf_view (srv_store srv) CF_LOCK) (gq_key req))
                                  (gq_version req) with
                          | Some l => GetResponse_with_key_error (KeyError_locked (lock_info l (gq_key req)))
                          | None => GetResponse_ok v
                          end), srv').
Proof. apply get_run. Qed.

(** The part of the server state that the handlers keep well formed. *)
Definition server_ok srv : Prop :=
  write_cf_ok (cf_view (srv_store srv) CF_WRITE) ∧ locks_ok (cf_view (srv_store srv) CF_LOCK).

Lemma served_ok b srv srv' : server_ok srv → Forall wf_modify b → served b srv srv' → server_ok srv'.
Proof.
  intros [Hw Hl] Hb [Hv _]. split; rewrite Hv; [by apply write_cf_ok_batch|by apply locks_ok_batch].
Qed.

(** Prewrite and commit keep the server readable.  When the timestamps
    are [u64]s and the primary key is not empty, every entry of the write
    column family stays a write record under an encoded key and every entry
    of the lock column family a lock that can be parsed. *)
Theorem two_phases_preserve_ok preq creq srv srv1 srv2 :
  server_ready (mu_key <$> pq_mutations preq) srv → request_ok preq →
  srv1 = (kv_prewrite preq srv).2 → server_ready (cq_keys creq) srv1 →
  is_u64 (cq_start_version creq) → is_u64 (cq_commit_version creq) →
  srv2 = (kv_commit creq srv1).2 →
  server_ok srv1 ∧ server_ok srv2.
Proof.
  intros Hr1 Hp -> Hr2 Hs Hc ->.
  destruct (prewrite_run preq srv Hr1) as (s1 & E1 & Hv1). rewrite E1 in *. cbn [snd] in *.
  destruct (commit_run creq s1 Hr2 Hs) as (s2 & E2 & Hv2). rewrite E2. cbn [snd].
  assert (server_ok s1) as H1.
  { eapply served_ok; [|..|exact Hv1].
    - split; [apply Hr1|apply Hr1].
    - case_decide; [|done]. apply Forall_bind. intros. by apply prewrite_writes_wf. }
  split; [done|]. eapply served_ok; [done|..|exact Hv2].
  case_match; [done|]. apply Forall_bind. intros. by apply commit_writes_wf.
Qed.
End transactions.

(** ** A whole transaction *)

Lemma nodup_fmap_inj {A B} (f : A → B) (l : list A) x y :
  NoDup (f <$> l) → x ∈ l → y ∈ l → f x = f y → x = y.
Proof.
  intros Hnd (i & Hi)%list_elem_of_lookup (j & Hj)%list_elem_of_lookup E.
  assert (i = j) as ->; [|congruence].
  eapply NoDup_lookup; [exact Hnd|..]; rewrite list_lookup_fmap; [by rewrite Hi|by rewrite Hj, E].
Qed.

Lemma omap_nil {A B} (f : A → option B) (l : list A) :
  omap f l = [] ↔ ∀ x, x ∈ l → f x = None.
Proof.
  induction l as [|x l IH]; cbn [omap list_omap]; [set_solver|]. destruct (f x) eqn:E.
  - split; [done|]. intros H. rewrite H in E; [done|by left].
  - rewrite IH. set_solver.
Qed.

Section whole.
Context `{reliable : ReliableStorage} `{bound : LoopBound} `{profile : BuildProfile}.
Implicit Types (srv : Server).

(** Which entries the writes of a mutation concern, and with what value. *)
Lemma prewrite_concerns req mu x cf k :
  x ∈ prewrite_writes req mu → concerns cf k x →
  (cf = CF_LOCK ∧ k = mu_key mu ∧ Modify_value x = Some (Lock_to_bytes (prewrite_lock req (mu_op mu)))) ∨
  (cf = CF_DEFAULT ∧ k = encode_key (mu_key mu) (pq_start_version req) ∧
   Modify_value x = match mu_op mu with OpPut => Some (mu_value mu) | _ => None end).
Proof.
  intros Hx [<- <-]. unfold prewrite_writes in Hx.
  destruct (mu_op mu); set_unfold in Hx; try done; destruct Hx as [-> | [-> | []]]; cbn; auto.
Qed.

(** Only one mutation of a request with distinct keys concerns an entry. *)
Lemma prewrite_unique req mu x y cf k :
  NoDup (mu_key <$> pq_mutations req) → mu ∈ pq_mutations req → is_u64 (pq_start_version req) →
  x ∈ prewrite_writes req mu → concerns cf k x →
  y ∈ pq_mutations req ≫= prewrite_writes req → concerns cf k y → Modify_value y = Modify_value x.
Proof.
  intros Hnd Hin Hs Hx Hcx (mu' & Hy & Hin')%list_elem_of_bind Hcy.
  pose proof (prewrite_concerns _ _ _ _ _ Hx Hcx) as H1.
  pose proof (prewrite_concerns _ _ _ _ _ Hy Hcy) as H2.
  assert (mu_key mu' = mu_key mu) as Hkey.
  { destruct H1 as [(-> & -> & _)|(-> & -> & _)], H2 as [(E & Ek & _)|(E & Ek & _)]; try done.
    by apply encode_key_inj in Ek as [-> _]. }
  apply (nodup_fmap_inj mu_key (pq_mutations req)) in Hkey; [|done..]. subst mu'.
  destruct H1 as [(-> & _ & ->)|(-> & _ & ->)], H2 as [(E & _ & ->)|(E & _ & ->)]; done.
Qed.

(** What an accepted prewrite leaves of one of its mutations. *)
Lemma prewritten req mu srv srv1 :
  NoDup (mu_key <$> pq_mutations req) → mu ∈ pq_mutations req → mu_op mu ≠ OpRollback →
  request_ok req → served (pq_mutations req ≫= prewrite_writes req) srv srv1 →
  lock_at (cf_view (srv_store srv1) CF_LOCK) (mu_key mu) = Some (prewrite_lock req (mu_op mu)) ∧
  cf_view (srv_store srv1) CF_DEFAULT !! encode_key (mu_key mu) (pq_start_version req)
  = match mu_op mu with OpPut => Some (mu_value mu) | _ => None end.
Proof.
  intros Hnd Hin Hop (Hp & Hs & Ht) [Hv _].
  set (lock := MPut (mu_key mu) (Lock_to_bytes (prewrite_lock req (mu_op mu))) CF_LOCK).
  set (val := match mu_op mu with
              | OpPut => MPut (encode_key (mu_key mu) (pq_start_version req)) (mu_value mu) CF_DEFAULT
              | _ => MDelete (encode_key (mu_key mu) (pq_start_version req)) CF_DEFAULT
              end).
  assert (prewrite_writes req mu = [val; lock]) as Hw.
  { unfold prewrite_writes, val, lock. by destruct (mu_op mu). }
  assert (∀ x cf k, x ∈ [val; lock] → concerns cf k x →
    foldl (apply_modify cf) (cf_view (srv_store srv) cf) (pq_mutations req ≫= prewrite_writes req) !! k
    = Modify_value x) as Hat.
  { intros x cf k Hx Hc. rewrite <- Hw in Hx. apply foldl_modify_touched; [|done|].
    - apply list_elem_of_bind. by exists mu.
    - intros y Hy Hcy. by eapply prewrite_unique. }
  split.
  - unfold lock_at, lock_of. rewrite Hv, (Hat lock) by (done || set_solver).
    cbn. by rewrite Lock_parse_to_bytes.
  - rewrite Hv, (Hat val); [|set_solver|]; unfold val; by destruct (mu_op mu).
Qed.
(** What a commit concerns. *)
Lemma commit_concerns start commit locks key x cf k :
  x ∈ commit_writes start commit locks key → concerns cf k x →
  ∃ l, lock_at locks key = Some l ∧ lock_ts l = start ∧
    ((cf = CF_LOCK ∧ k = key ∧ Modify_value x = None) ∨
     (cf = CF_WRITE ∧ k = encode_key key commit ∧
      Modify_value x = Some (Write_to_bytes (mkWrite start (lock_kind l))))).
Proof.
  intros Hx [<- <-]. unfold commit_writes in Hx. destruct (lock_at locks key) as [l|]; [|by set_unfold in Hx].
  case_decide; [|by set_unfold in Hx]. exists l. split; [done|]. split; [done|].
  set_unfold in Hx. destruct Hx as [-> | [-> | []]]; cbn; auto.
Qed.

(** What a commit of locked keys leaves of one of them. *)
Lemma committed start commit keys key l srv srv1 :
  is_u64 commit → is_u64 start → key ∈ keys →
  lock_at (cf_view (srv_store srv) CF_LOCK) key = Some l → lock_ts l = start →
  served (keys ≫= commit_writes start commit (cf_view (srv_store srv) CF_LOCK)) srv srv1 →
  lock_at (cf_view (srv_store srv1) CF_LOCK) key = None ∧
  cf_view (srv_store srv1) CF_WRITE !! encode_key key commit
    = Some (Write_to_bytes (mkWrite start (lock_kind l))) ∧
  (∀ ts, is_u64 ts → ts ≠ commit → cf_view (srv_store srv1) CF_WRITE !! encode_key key ts
     = cf_view (srv_store srv) CF_WRITE !! encode_key key ts) ∧
  cf_view (srv_store srv1) CF_DEFAULT = cf_view (srv_store srv) CF_DEFAULT.
Proof.
  intros Hc Hs Hin Hl Hts [Hv _]. set (locks := cf_view (srv_store srv) CF_LOCK) in *.
  set (b := keys ≫= commit_writes start commit locks) in *.
  set (rec := MPut (encode_key key commit) (Write_to_bytes (mkWrite start (lock_kind l))) CF_WRITE).
  assert (commit_writes start commit locks key = [rec; MDelete key CF_LOCK]) as Hw.
  { unfold commit_writes. rewrite Hl, decide_True by done. done. }
  assert (∀ y cf k, y ∈ b → concerns cf k y → ∃ key' l', lock_at locks key' = Some l' ∧
     ((cf = CF_LOCK ∧ k = key' ∧ Modify_value y = None) ∨
      (cf = CF_WRITE ∧ k = encode_key key' commit ∧
       Modify_value y = Some (Write_to_bytes (mkWrite start (lock_kind l')))))) as Hb.
  { intros y cf k (key' & Hy & _)%list_elem_of_bind Hcy.
    destruct (commit_concerns _ _ _ _ _ _ _ Hy Hcy) as (l' & ? & _ & ?). by exists key', l'. }
  assert (∀ x cf k, x ∈ [rec; MDelete key CF_LOCK] → concerns cf k x →
    foldl (apply_modify cf) (cf_view (srv_store srv) cf) b !! k = Modify_value x) as Hat.
  { intros x cf k Hx Hcx. apply foldl_modify_touched; [|done|].
    - apply list_elem_of_bind. exists key. by rewrite Hw.
    - intros y Hy Hcy. rewrite <- Hw in Hx.
      destruct (commit_concerns _ _ _ _ _ _ _ Hx Hcx) as (l1 & E1 & _ & H1).
      destruct (Hb _ _ _ Hy Hcy) as (key' & l' & E' & H2).
      destruct H1 as [(-> & -> & ->)|(-> & -> & ->)], H2 as [(E & Ek & ->)|(E & Ek & ->)]; try done.
      apply encode_key_inj in Ek as [-> _]; [|done|done]. congruence. }
  split_and!.
  - unfold lock_at, lock_of. rewrite Hv, (Hat (MDelete key CF_LOCK)) by (done || set_solver). done.
  - rewrite Hv, (Hat rec) by (done || set_solver). done.
  - intros ts Hts' Hne. rewrite Hv. apply foldl_modify_untouched. intros y Hy Hcy.
    destruct (Hb _ _ _ Hy Hcy) as (key' & l' & _ & [(? & _)|(_ & Ek & _)]); [done|].
    by apply encode_key_inj in Ek as [_ ?].
  - apply map_eq. intros k. rewrite Hv. apply foldl_modify_untouched. intros y Hy Hcy.
    by destruct (Hb _ _ _ Hy Hcy) as (key' & l' & _ & [(? & _)|(? & _)]).
Qed.

Lemma prewrite_keeps_records req srv srv1 :
  served (pq_mutations req ≫= prewrite_writes req) srv srv1 →
  cf_view (srv_store srv1) CF_WRITE = cf_view (srv_store srv) CF_WRITE.
Proof.
  intros [Hv _]. rewrite Hv. apply map_eq. intros k. apply foldl_modify_untouched.
  intros x (mu & Hx & _)%list_elem_of_bind Hc.
  by destruct (prewrite_concerns _ _ _ _ _ Hx Hc) as [(? & _)|(? & _)].
Qed.

Lemma prewrite_keeps_ready req keys srv srv1 :
  request_ok req → server_ready keys srv →
  served (pq_mutations req ≫= prewrite_writes req) srv srv1 → server_ready keys srv1.
Proof.
  intros Hreq [Hw Hl Hf] Hs. split.
  - by rewrite (prewrite_keeps_records _ _ _ Hs).
  - eapply served_ok; [split; [apply Hw|exact Hl]| |exact Hs].
    apply Forall_bind. intros. by apply prewrite_writes_wf.
  - by rewrite (proj2 Hs).
Qed.

Lemma length_commit_writes start commit locks keys :
  (length (keys ≫= commit_writes start commit locks) ≤ 2 * length keys)%nat.
Proof.
  induction keys as [|k keys IH]; cbn -[Nat.mul]; [lia|]. rewrite length_app.
  assert (length (commit_writes start commit locks k) ≤ 2)%nat; [|lia].
  unfold commit_writes. destruct (lock_at locks k); [case_decide|]; cbn; lia.
Qed.

Lemma commit_keeps_ready start commit keys srv srv1 :
  is_u64 start → is_u64 commit → server_ok srv →
  (size (cf_view (srv_store srv) CF_WRITE) + 2 * length keys < loop_bound)%nat →
  served (keys ≫= commit_writes start commit (cf_view (srv_store srv) CF_LOCK)) srv srv1 →
  write_ready (cf_view (srv_store srv1) CF_WRITE) ∧ locks_ok (cf_view (srv_store srv1) CF_LOCK).
Proof.
  intros Hs Hc Hok Hroom Hv.
  assert (server_ok srv1) as [Hw Hl].
  { eapply served_ok; [exact Hok| |exact Hv]. apply Forall_bind. intros. by apply commit_writes_wf. }
  split; [split; [done|]|done]. rewrite (proj1 Hv).
  pose proof (size_batch CF_WRITE (cf_view (srv_store srv) CF_WRITE)
    (keys ≫= commit_writes start commit (cf_view (srv_store srv) CF_LOCK))).
  pose proof (length_commit_writes start commit (cf_view (srv_store srv) CF_LOCK) keys). lia.
Qed.

Lemma transaction_run req mu srv cx commit v :
  let keys := mu_key <$> pq_mutations req in
  server_ready keys srv →
  (size (cf_view (srv_store srv) CF_WRITE) + 2 * length keys < loop_bound)%nat →
  request_ok req → is_u64 commit → NoDup keys → mu ∈ pq_mutations req →
  (∀ x, x ∈ pq_mutations req → mu_op x ≠ OpRollback ∧
     lock_at (cf_view (srv_store srv) CF_LOCK) (mu_key x) = None) →
  commit ≤ v → pq_start_version req ≠ v →
  (∀ ts, is_u64 ts → commit < ts ≤ v →
     cf_view (srv_store srv) CF_WRITE !! encode_key (mu_key mu) ts = None) →
  ∃ srv1 srv2,
    kv_prewrite req srv = (Ok PrewriteResponse_ok, srv1) ∧
    (kv_get (mkGetRequest cx (mu_key mu) v) srv1).1
      = Ok (GetResponse_with_key_error (KeyError_locked
              (lock_info (prewrite_lock req (mu_op mu)) (mu_key mu)))) ∧
    kv_commit (mkCommitRequest cx (pq_start_version req) keys commit) srv1
      = (Ok CommitResponse_ok, srv2) ∧
    (kv_get (mkGetRequest cx (mu_key mu) v) srv2).1
      = Ok (GetResponse_ok (match mu_op mu with OpPut => Some (mu_value mu) | _ => None end)).
Proof.
  intros keys Hr Hroom Hreq Hc Hnd Hmu Hall Hcv Hv Hnewer.
  destruct (prewrite_run req srv Hr) as (srv1 & Hpre & Hs1).
  assert (omap (prewrite_error req (cf_view (srv_store srv) CF_LOCK)) (pq_mutations req) = []) as Herr.
  { apply omap_nil. intros x Hx. destruct (Hall x Hx) as [Hop Hlk]. unfold prewrite_error.
    rewrite Hlk. cbn. by destruct (mu_op x). }
  rewrite Herr in Hpre, Hs1. rewrite decide_True in Hs1 by done.
  pose proof (prewrite_keeps_ready _ _ _ _ Hreq Hr Hs1) as Hr1.
  pose proof (prewrite_keeps_records _ _ _ Hs1) as Hrec1.
  assert (∀ x, x ∈ pq_mutations req → _) as Hpw
    by (intros x Hx; exact (prewritten req x srv srv1 Hnd Hx (proj1 (Hall x Hx)) Hreq Hs1)).
  destruct (Hpw mu Hmu) as [Hlock Hval].
  set (creq := mkCommitRequest cx (pq_start_version req) keys commit).
  destruct (commit_run creq srv1 Hr1 (proj1 (proj2 Hreq))) as (srv2 & Hcom & Hs2).
  assert (omap (commit_refusal creq (cf_view (srv_store srv1) CF_LOCK) (cf_view (srv_store srv1) CF_WRITE))
            (cq_keys creq) = []) as Hno.
  { apply omap_nil. intros k (x & -> & Hx)%list_elem_of_fmap. unfold commit_refusal.
    by rewrite (proj1 (Hpw x Hx)), decide_True. }
  rewrite Hno in Hcom, Hs2. cbn [head] in Hcom, Hs2.
  destruct (committed (pq_start_version req) commit keys (mu_key mu) _ srv1 srv2 Hc
    (proj1 (proj2 Hreq)) (list_elem_of_fmap_2 _ _ _ Hmu) Hlock eq_refl Hs2) as (Hl2 & Hw2 & Ho2 & Hd2).
  destruct (commit_keeps_ready (pq_start_version req) commit keys srv1 srv2) as [Hr2 Hlk2];
    [apply Hreq|done|split; apply Hr1|by rewrite Hrec1|done|].
  exists srv1, srv2. split_and!; [done| |done|].
  - destruct (get_run (mkGetRequest cx (mu_key mu) v) srv1 (sv_write _ _ Hr1) (sv_locks _ _ Hr1))
      as (s3 & x & _ & _ & ->). cbn [fst gq_key gq_version]. rewrite Hlock. cbn [foreign].
    by rewrite decide_True.
  - destruct (get_run (mkGetRequest cx (mu_key mu) v) srv2 Hr2 Hlk2) as (s3 & x & _ & Hvis & ->).
    cbn [fst gq_key gq_version] in *. rewrite Hl2. cbn [foreign]. do 2 f_equal.
    eapply visible_unique; [exact Hvis|].
    exists (Some (mkWrite (pq_start_version req) (lock_kind (prewrite_lock req (mu_op mu)))), commit).
    split.
    + split_and!; [done|done| |].
      * apply record_at_Some; [apply Hr2|done|]. split; [done|]. apply Hreq.
      * intros ts Hts Hlt. apply record_at_None; [apply Hr2|]. rewrite Ho2, Hrec1 by (done || lia).
        by apply Hnewer.
    + unfold value_of, fst, write_kind, write_start_ts, prewrite_lock, lock_kind.
      rewrite Hd2, Hval. destruct (Hall mu Hmu) as [Hop _]. by destruct (mu_op mu).
Qed.

End whole.

(** ** Status checks and rollback *)

Definition rollback_record (start : Z) (key : bytes) : Modify :=
  MPut (encode_key key start) (Write_to_bytes (mkWrite start WkRollback)) CF_WRITE.

(** The answer of a status check and what it writes. *)
Definition txn_status (req : CheckTxnStatusRequest) (locks records : gmap bytes bytes)
  : CheckTxnStatusResponse * list Modify :=
  let key := kq_primary_key req in
  let start := kq_lock_ts req in
  match lock_at locks key with
  | Some l =>
      if decide (lock_ts l = start ∧
                 physical_time (lock_ts l) + lock_ttl l < physical_time (kq_current_ts req))
      then (CheckTxnStatusResponse_rolled_back TtlExpireRollback,
            [MDelete key CF_LOCK; rollback_record start key; MDelete (encode_key key start) CF_DEFAULT])
      else (CheckTxnStatusResponse_locked (lock_ttl l), [])
  | None =>
      if decide (is_Some (record_at records key start) ∧ 0 < start)
      then (CheckTxnStatusResponse_committed start, [])
      else (CheckTxnStatusResponse_rolled_back LockNotExistRollback, [rollback_record start key])
  end.

(** Why a key stops a rollback, and what a rollback writes for it. *)
Definition rollback_refusal (start : Z) (locks : gmap bytes bytes) (key : bytes)
  : option BatchRollbackResponse :=
  match foreign (lock_at locks key) start with
  | Some l => Some (BatchRollbackResponse_with_key_error (KeyError_locked (lock_info l key)))
  | None => None
  end.
Definition rollback_writes (start : Z) (locks : gmap bytes bytes) (key : bytes) : list Modify :=
  match lock_at locks key with Some _ => [MDelete key CF_LOCK] | None => [] end
    ++ [rollback_record start key; MDelete (encode_key key start) CF_DEFAULT].

Section rollback.
Context `{reliable : ReliableStorage} `{bound : LoopBound} `{profile : BuildProfile}.
Implicit Types (srv : Server).

Lemma check_run req srv :
  server_ready [kq_primary_key req] srv → is_u64 (kq_lock_ts req) →
  (∀ l, lock_at (cf_view (srv_store srv) CF_LOCK) (kq_primary_key req) = Some l →
     is_u64 (physical_time (lock_ts l) + lock_ttl l)) →
  let '(resp, b) := txn_status req (cf_view (srv_store srv) CF_LOCK) (cf_view (srv_store srv) CF_WRITE) in
  ∃ srv', kv_check_txn_status req srv = (Ok resp, srv') ∧ served b srv srv'.
Proof.
  intros [Hw Hl Hfree] Hu Hfit. unfold kv_check_txn_status, txn_status. cbv zeta.
  destruct (wait_run _ _ Hfree) as (srv1 & H1 & Hst & Hrel). rewrite (M_bind_run _ _ _ _ _ H1).
  destruct (on_get_lock (kq_primary_key req) srv1) as (srv2 & H2 & Hs2); [by rewrite Hst|].
  rewrite (M_bind_run _ _ _ _ _ H2), Hst.
  destruct (lock_at (cf_view (srv_store srv) CF_LOCK) (kq_primary_key req)) as [l|] eqn:El.
  - specialize (Hfit l eq_refl). destruct (decide (lock_ts l ≠ kq_lock_ts req)) as [Hne|Heq].
    + rewrite decide_False by naive_solver. by eapply release_run.
    + rewrite u64_add_ok by done. rewrite (M_bind_run (lift _) _ _ _ _ eq_refl).
      destruct (Z.ltb_spec (physical_time (lock_ts l) + lock_ttl l) (physical_time (kq_current_ts req))).
      * rewrite decide_True by (split; [by apply dec_stable|done]).
        unfold delete_value, put_write, delete_lock, push. by eapply (write_run (mkTxn _ _)).
      * rewrite decide_False by lia. by eapply release_run.
  - rewrite (M_bind_run _ _ _ _ _ (on_current_write (kq_primary_key req) (MvccTxn_new (kq_lock_ts req))
      srv2 ltac:(by rewrite (proj1 Hs2), Hst) Hu)).
    rewrite (proj1 Hs2), Hst. cbn [MvccTxn_new txn_start_ts].
    destruct (record_at _ _ _) as [w|]; cbn [found_commit].
    + destruct (Z.ltb_spec 0 (kq_lock_ts req)).
      * rewrite decide_True by (split; [done|lia]). by eapply release_run.
      * rewrite decide_False by lia. by eapply (write_run (mkTxn _ [_])).
    + rewrite decide_False by (intros [[] _]; congruence). by eapply (write_run (mkTxn _ [_])).
Qed.

(** What a status check answers and does.  A lock of another transaction
    or one within its time to live is reported with its time to live; an
    expired lock is removed together with its value and a rollback record is
    left; without a lock, a record at the transaction's own start timestamp is
    reported as a commit, and otherwise a rollback record is left. *)
Theorem kv_check_txn_status_exact req srv :
  server_ready [kq_primary_key req] srv → is_u64 (kq_lock_ts req) →
  (∀ l, lock_at (cf_view (srv_store srv) CF_LOCK) (kq_primary_key req) = Some l →
     is_u64 (physical_time (lock_ts l) + lock_ttl l)) →
  let '(resp, b) := txn_status req (cf_view (srv_store srv) CF_LOCK) (cf_view (srv_store srv) CF_WRITE) in
  ∃ srv', kv_check_txn_status req srv = (Ok resp, srv') ∧ served b srv srv'.
Proof. apply check_run. Qed.

(** The status check takes the two outcomes of a transaction for each
    other.  A transaction that has only its rollback record is reported as
    committed at its start timestamp; one that was committed at a later
    timestamp, as every commit is, is answered with a rollback, and a
    rollback record is written. *)
Theorem check_txn_status_misjudges req srv w :
  server_ready [kq_primary_key req] srv → is_u64 (kq_lock_ts req) → 0 < kq_lock_ts req →
  lock_at (cf_view (srv_store srv) CF_LOCK) (kq_primary_key req) = None →
  (record_at (cf_view (srv_store srv) CF_WRITE) (kq_primary_key req) (kq_lock_ts req)
     = Some (mkWrite (kq_lock_ts req) WkRollback) →
   (kv_check_txn_status req srv).1 = Ok (CheckTxnStatusResponse_committed (kq_lock_ts req))) ∧
  (∀ commit, kq_lock_ts req < commit →
   record_at (cf_view (srv_store srv) CF_WRITE) (kq_primary_key req) (kq_lock_ts req) = None →
   record_at (cf_view (srv_store srv) CF_WRITE) (kq_primary_key req) commit = Some w →
   write_start_ts w = kq_lock_ts req →
   (kv_check_txn_status req srv).1 = Ok (CheckTxnStatusResponse_rolled_back LockNotExistRollback)).
Proof.
  intros Hr Hu Hpos Hlk. pose proof (check_run req srv Hr Hu) as H. unfold txn_status in H.
  rewrite Hlk in H. split.
  - intros Hrec. rewrite decide_True in H by (split; [by rewrite Hrec|done]).
    destruct H as (srv' & -> & _); [done|done].
  - intros commit _ Hrec _ _. rewrite decide_False in H by (rewrite Hrec; intros [[] _]; congruence).
    destruct H as (srv' & -> & _); [done|done].
Qed.
Definition rollback_acc (start : Z) (locks : gmap bytes bytes) (key : bytes)
    (acc : MvccTxn + BatchRollbackResponse) : MvccTxn + BatchRollbackResponse :=
  match acc with
  | inr r => inr r
  | inl txn =>
      match rollback_refusal start locks key with
      | Some r => inr r
      | None => inl (mkTxn start (txn_writes txn ++ rollback_writes start locks key))
      end
  end.

Definition starts_at (start : Z) (acc : MvccTxn + BatchRollbackResponse) : Prop :=
  match acc with inl txn => txn_start_ts txn = start | inr _ => True end.

Lemma rollback_key_run req key acc srv :
  write_ready (cf_view (srv_store srv) CF_WRITE) → locks_ok (cf_view (srv_store srv) CF_LOCK) →
  is_u64 (bq_start_version req) → starts_at (bq_start_version req) acc →
  ∃ srv', rollback_key req key acc srv
    = (Ok (rollback_acc (bq_start_version req) (cf_view (srv_store srv) CF_LOCK) key acc), srv') ∧
    same srv srv'.
Proof.
  intros Hw Hl Hu Hacc. destruct acc as [txn|r]; [|by exists srv].
  unfold rollback_key, rollback_acc, rollback_refusal, rollback_writes.
  destruct (on_get_lock key srv Hl) as (srv1 & H1 & Hs). rewrite (M_bind_run _ _ _ _ _ H1).
  destruct (foreign _ _) as [l|]; [by exists srv1|]. cbv zeta. cbn in Hacc.
  assert (∀ t, txn_start_ts t = bq_start_version req →
    on_store (try_ok (current_write key t)) srv1
    = (Ok (Some match record_at (cf_view (srv_store srv) CF_WRITE) key (bq_start_version req) with
                | Some w => (Some w, bq_start_version req)
                | None => (None, 0)
                end), srv1)) as Hcw.
  { intros t Ht. pose proof (on_current_write key t srv1) as Hrun.
    rewrite (proj1 Hs), Ht in Hrun. by apply Hrun. }
  erewrite M_bind_run; [|apply Hcw; by destruct (lock_at _ _)].
  assert ((match found_commit (Some match record_at (cf_view (srv_store srv) CF_WRITE) key (bq_start_version req) with
                | Some w => (Some w, bq_start_version req) | None => (None, 0) end)
           with Some c => bq_start_version req <? c | None => false end) = false) as ->.
  { destruct (record_at _ _ _); cbn; [apply Z.ltb_irrefl|done]. }
  exists srv1. split; [|done]. unfold delete_value, put_write, delete_lock, push, rollback_record.
  by destruct (lock_at _ _); cbn; rewrite Hacc, <- !app_assoc.
Qed.

Lemma rollback_fold start locks keys txn :
  txn_start_ts txn = start →
  foldl (λ a k, rollback_acc start locks k a) (inl txn) keys
  = match head (omap (rollback_refusal start locks) keys) with
    | Some r => inr r
    | None => inl (mkTxn start (txn_writes txn ++ (keys ≫= rollback_writes start locks)))
    end.
Proof.
  assert (∀ r ks, foldl (λ a k, rollback_acc start locks k a) (inr r) ks = inr r) as Hinr.
  { intros r ks. by induction ks. }
  revert txn. induction keys as [|k keys IH]; intros txn Ht; cbn.
  { rewrite app_nil_r, <- Ht. by destruct txn. }
  destruct (rollback_refusal start locks k); [apply Hinr|]. rewrite IH by done. cbn.
  by rewrite <- app_assoc.
Qed.

Lemma batch_rollback_run req srv :
  server_ready (bq_keys req) srv → is_u64 (bq_start_version req) →
  let locks := cf_view (srv_store srv) CF_LOCK in
  let refusal := head (omap (rollback_refusal (bq_start_version req) locks) (bq_keys req)) in
  ∃ srv', kv_batch_rollback req srv
      = (Ok (match refusal with Some r => r | None => BatchRollbackResponse_ok end), srv') ∧
    served (match refusal with
            | Some _ => []
            | None => bq_keys req ≫= rollback_writes (bq_start_version req) locks
            end) srv srv'.
Proof.
  intros [Hw Hl Hfree] Hu locks refusal. unfold kv_batch_rollback.
  destruct (wait_run _ _ Hfree) as (srv1 & H1 & Hst & Hrel). rewrite (M_bind_run _ _ _ _ _ H1).
  destruct (for_acc_run (starts_at (bq_start_version req)) (rollback_acc (bq_start_version req) locks)
    (bq_keys req) (rollback_key req) (inl (MvccTxn_new (bq_start_version req))) srv1)
    as (srv2 & H2 & Hs & _); [done|..].
  - intros key acc srvx _ Hacc [Hv _]. rewrite Hst in Hv.
    destruct (rollback_key_run req key acc srvx) as (srvy & Hy1 & Hy2);
      [by rewrite Hv|by rewrite Hv|done|done|].
    rewrite Hv in Hy1. exists srvy. split_and!; [done|done|].
    destruct acc as [txn|r]; cbn; [|done]. by case_match.
  - rewrite (M_bind_run _ _ _ _ _ H2), rollback_fold by done. fold refusal.
    destruct refusal as [r|]; [by eapply release_run|]. by eapply (write_run (mkTxn _ _)).
Qed.

(** What a rollback does.  On a healthy server whose latches for the keys
    are free, a key locked by another transaction stops the rollback and
    nothing is written; otherwise every key loses the transaction's lock and
    value and gets a rollback record, in one batch, and the latches are as
    before. *)
Theorem kv_batch_rollback_exact req srv :
  server_ready (bq_keys req) srv → is_u64 (bq_start_version req) →
  let locks := cf_view (srv_store srv) CF_LOCK in
  let refusal := head (omap (rollback_refusal (bq_start_version req) locks) (bq_keys req)) in
  ∃ srv', kv_batch_rollback req srv
      = (Ok (match refusal with Some r => r | None => BatchRollbackResponse_ok end), srv') ∧
    served (match refusal with
            | Some _ => []
            | None => bq_keys req ≫= rollback_writes (bq_start_version req) locks
            end) srv srv'.
Proof. apply batch_rollback_run. Qed.

(** A rollback erases committed data.  Rolling back a transaction whose
    key was committed, with the value in place, is accepted, and removes the
    value: the check for a commit looks at the start timestamp only. *)
Theorem batch_rollback_erases_committed req key srv commit value :
  server_ready [key] srv → is_u64 (bq_start_version req) → bq_keys req = [key] →
  bq_start_version req < commit →
  lock_at (cf_view (srv_store srv) CF_LOCK) key = None →
  record_at (cf_view (srv_store srv) CF_WRITE) key commit
    = Some (mkWrite (bq_start_version req) WkPut) →
  cf_view (srv_store srv) CF_DEFAULT !! encode_key key (bq_start_version req) = Some value →
  ∃ srv', kv_batch_rollback req srv = (Ok BatchRollbackResponse_ok, srv') ∧
    cf_view (srv_store srv') CF_DEFAULT !! encode_key key (bq_start_version req) = None.
Proof.
  intros Hr Hu Hk _ Hlk _ _. rewrite <- Hk in Hr.
  destruct (batch_rollback_run req srv Hr Hu) as (srv' & Hrun & Hv & _). exists srv'.
  rewrite Hrun, Hv, Hk. cbn [omap list_omap]. unfold rollback_refusal. rewrite Hlk. cbn [foreign head].
  split; [done|]. cbn [mbind list_bind]. unfold rollback_writes. rewrite Hlk.
  cbn [app foldl rollback_record apply_modify]. rewrite (decide_True (P := CF_DEFAULT = CF_DEFAULT)) by done.
  apply lookup_delete_eq.
Qed.
End rollback.

(** ** Lock resolution *)

(** The entry of a lock of the transaction. *)
Definition owned (start : Z) (e : bytes * bytes) : Prop :=
  match Lock_parse e.2 with Ok l => lock_ts l = start | _ => False end.
#[export] Instance owned_dec start e : Decision (owned start e).
Proof. unfold owned. destruct (Lock_parse e.2); apply _. Defined.

Section resolve.
Context `{reliable : ReliableStorage} `{bound : LoopBound} `{profile : BuildProfile}.
Implicit Types (srv : Server).

Lemma locks_of_txn_run m start fuel it keys :
  locks_ok m → (∀ k v, (k, v) ∈ iter_rest it → m !! k = Some v) →
  (length (iter_rest it) < fuel)%nat →
  locks_of_txn fuel start it keys = Ok (keys ++ (filter (owned start) (iter_rest it)).*1).
Proof.
  intros Hok. revert it keys. induction fuel as [|fuel IH]; intros it keys Hin Hf; [lia|].
  cbn [locks_of_txn]. destruct (iter_rest it) as [|[k v] rest] eqn:Er.
  { by rewrite (iter_valid_nil _ Er), app_nil_r. }
  rewrite (iter_valid_cons _ _ _ Er), (iter_item_rest _ _ _ Er).
  destruct (Hok k v) as (l & Hl & Hp & ->); [apply Hin; by left|].
  rewrite Lock_parse_to_bytes by done. rewrite IH, (iter_next_rest _ _ _ Er).
  - rewrite filter_cons. destruct (decide (lock_ts l = start)) as [Hts|Hts].
    + rewrite decide_True; [by rewrite <- app_assoc|]. unfold owned. cbn [snd].
      by rewrite Lock_parse_to_bytes.
    + rewrite decide_False; [done|]. unfold owned. cbn [snd]. by rewrite Lock_parse_to_bytes.
  - intros k' v' H. rewrite (iter_next_rest _ _ _ Er) in H. apply Hin. by right.
  - rewrite (iter_next_rest _ _ _ Er). cbn in Hf. lia.
Qed.

Lemma seek_start it : iter_rest (iter_seek [] it) = iter_all it.
Proof.
  rewrite iter_seek_rest. destruct (iter_all it) as [|[k v] l]; [done|]. cbn.
  assert (bytes_ltb k [] = false) as ->; [|done]. by destruct k.
Qed.

Lemma owned_keys m start (l : list (bytes * bytes)) :
  locks_ok m → (∀ k v, (k, v) ∈ l ↔ m !! k = Some v) →
  ∀ k, k ∈ (filter (owned start) l).*1 ↔ ∃ lk, lock_at m k = Some lk ∧ lock_ts lk = start.
Proof.
  intros Hl Hview k. rewrite list_elem_of_fmap. split.
  - intros ([k' v] & -> & [Ho Hin]%list_elem_of_filter). apply Hview in Hin. cbn.
    unfold owned in Ho. cbn in Ho. unfold lock_at, lock_of. rewrite Hin.
    destruct (Lock_parse v) as [lk| | |]; try done. by exists lk.
  - intros (lk & Hlk & Hts). destruct (lock_at_Some _ _ _ Hl Hlk) as [Hin Hok].
    exists (k, Lock_to_bytes lk). split; [done|]. apply list_elem_of_filter. split; [|by apply Hview].
    unfold owned. cbn. destruct (Hl _ _ Hin) as (l' & Hl' & Hp & E). rewrite E.
    unfold lock_at, lock_of in Hlk. rewrite Hin, E in Hlk.
    rewrite Lock_parse_to_bytes in * by done. cbn in Hlk. congruence.
Qed.

Lemma resolve_rollback_run start key txn srv l :
  locks_ok (cf_view (srv_store srv) CF_LOCK) → txn_start_ts txn = start →
  lock_at (cf_view (srv_store srv) CF_LOCK) key = Some l → lock_ts l = start →
  ∃ srv', resolve_rollback_key start key txn srv
    = (Ok (mkTxn (txn_start_ts txn)
             (txn_writes txn ++ rollback_writes start (cf_view (srv_store srv) CF_LOCK) key)), srv') ∧
    same srv srv'.
Proof.
  intros Hl Ht Hlk Hts. unfold resolve_rollback_key, rollback_writes.
  destruct (on_get_lock key srv Hl) as (srv1 & H1 & Hs).
  rewrite (M_bind_run _ _ _ _ _ H1), Hlk, decide_True by done. exists srv1. split; [|done].
  unfold delete_value, put_write, delete_lock, push, rollback_record. cbn.
  by rewrite Ht, <- !app_assoc.
Qed.

Lemma resolve_run req srv :
  let locks := cf_view (srv_store srv) CF_LOCK in
  let start := lq_start_version req in
  locks_ok locks → (size locks < loop_bound)%nat →
  (∀ k l, lock_at locks k = Some l → lock_ts l = start → latch_map (srv_latches srv) !! k = None) →
  ∃ keys srv',
    NoDup keys ∧ (∀ k, k ∈ keys ↔ ∃ l, lock_at locks k = Some l ∧ lock_ts l = start) ∧
    kv_resolve_lock req srv = (Ok ResolveLockResponse_ok, srv') ∧
    served (if 0 <? lq_commit_version req
            then keys ≫= commit_writes start (lq_commit_version req) locks
            else keys ≫= rollback_writes start locks) srv srv'.
Proof.
  intros locks start Hl Hsize Hfree. unfold kv_resolve_lock.
  rewrite (M_bind_run get _ _ _ _ eq_refl). cbv zeta. fold start.
  set (it := sto_iter_cf CF_LOCK (srv_store srv)).
  pose proof (iter_all_sorted CF_LOCK (srv_store srv) : StronglySorted key_lt (iter_all it)) as Hsort.
  pose proof (iter_all_view CF_LOCK (srv_store srv) : ∀ k v, (k, v) ∈ iter_all it ↔ locks !! k = Some v)
    as Hview.
  rewrite (locks_of_txn_run locks); [|done|..].
  2: { intros k v. rewrite seek_start. apply Hview. }
  2: { rewrite seek_start. unfold it. by rewrite iter_all_length. }
  rewrite seek_start, (M_bind_run (lift _) _ _ _ _ eq_refl). cbn [app].
  set (keys := (filter (owned start) (iter_all it)).*1).
  assert (∀ k, k ∈ keys ↔ ∃ l, lock_at locks k = Some l ∧ lock_ts l = start) as Hkeys
    by (by apply owned_keys).
  exists keys. assert (NoDup keys) as Hnd.
  { apply (sublist_NoDup _ (iter_all it).*1); [by apply NoDup_sorted_keys|].
    apply fmap_sublist, sublist_filter. }
  case_decide as Hnil.
  { exists srv. rewrite Hnil. split_and!; [constructor|by rewrite <- Hnil|done|]. by destruct (0 <? _). }
  destruct (wait_run keys srv) as (srv1 & H1 & Hst & Hrel).
  { intros k Hk. apply Hkeys in Hk as (l & ? & ?). by eapply Hfree. }
  rewrite (M_bind_run _ _ _ _ _ H1).
  set (g := if 0 <? lq_commit_version req then commit_writes start (lq_commit_version req) locks
            else rollback_writes start locks).
  assert (∀ f : bytes → MvccTxn → M Server MvccTxn,
    (∀ key t srvx, key ∈ keys → txn_start_ts t = start → same srv1 srvx → ∃ srvy,
       f key t srvx = (Ok (mkTxn (txn_start_ts t) (txn_writes t ++ g key)), srvy) ∧ same srvx srvy) →
    ∃ srv', (txn ← for_acc keys f (MvccTxn_new start);
             write_and_release txn keys ResolveLockResponse_ok) srv1 = (Ok ResolveLockResponse_ok, srv') ∧
      served (keys ≫= g) srv srv') as Hrun.
  { intros f Hf. destruct (append_keys_run f g keys (MvccTxn_new start) srv1 Hf) as (srv2 & H2 & Hs2).
    rewrite (M_bind_run _ _ _ _ _ H2). by eapply (write_run (mkTxn _ _)). }
  destruct (0 <? lq_commit_version req).
  - destruct (Hrun (commit_key start (lq_commit_version req))) as (srv' & H2 & H3); [|by exists srv'].
    intros key t srvx _ _ [Hv _]. rewrite Hst in Hv. unfold g, locks. rewrite <- Hv.
    apply commit_key_run. by rewrite Hv.
  - destruct (Hrun (resolve_rollback_key start)) as (srv' & H2 & H3); [|by exists srv'].
    intros key t srvx Hk Ht [Hv _]. rewrite Hst in Hv. unfold g, locks. rewrite <- Hv.
    apply Hkeys in Hk as (l & ? & ?). apply (resolve_rollback_run _ _ _ _ l); rewrite ?Hv; done.
Qed.

End resolve.

(** ** Scan *)

(** The pair a scan returns for a visible key. *)
Definition scan_mark (version : Z) (locks : gmap bytes bytes) (e : bytes * bytes) : KvPair :=
  match foreign (lock_at locks e.1) version with
  | Some l => KvPair_with_error e.1 (KeyError_locked (lock_info l e.1))
  | None => KvPair_new e.1 e.2
  end.

Section scan.
Context `{reliable : ReliableStorage} `{bound : LoopBound} `{profile : BuildProfile}.
Implicit Types (srv : Server).

Lemma scan_pair_run version k v srv :
  locks_ok (cf_view (srv_store srv) CF_LOCK) →
  ∃ srv', scan_pair version k v srv
    = (Ok (scan_mark version (cf_view (srv_store srv) CF_LOCK) (k, v)), srv') ∧ same srv srv'.
Proof.
  intros Hl. unfold scan_pair, scan_mark. destruct (on_get_lock k srv Hl) as (srv1 & H1 & Hs).
  rewrite (M_bind_run _ _ _ _ _ H1). exists srv1. split; [|done]. cbn. by destruct (foreign _ _).
Qed.

Lemma on_scanner_next m lo sc srv :
  write_ready m → values_present m (cf_view (srv_store srv) CF_DEFAULT) → scanner_ready m lo sc →
  sc_count sc < sc_limit sc →
  ∃ r sc' srv', on_store (scanner_next sc) srv = (Ok (r, sc'), srv') ∧ same srv srv' ∧
    scan_found m (cf_view (srv_store srv) CF_DEFAULT) lo sc r sc'.
Proof.
  intros Hw Hp Hr Hc. destruct (scanner_next_run m lo sc (srv_store srv)) as (r & sc' & s' & H1 & H2 & H3);
    [done..|]. unfold on_store. rewrite H1. by exists r, sc', (mkServer s' (srv_latches srv)).
Qed.

Lemma kv_scan_loop_run m d locks fuel req sc count pairs srv :
  write_ready m → locks_ok locks → values_present m d →
  cf_view (srv_store srv) CF_DEFAULT = d → cf_view (srv_store srv) CF_LOCK = locks →
  scanner_ready m (sq_start_key req) sc →
  sc_count sc = count → sc_limit sc = sq_limit req → sc_end_key sc = None →
  txn_start_ts (sc_txn sc) = sq_version req → count ≤ sq_limit req →
  (size (pending m (sq_start_key req) (sc_current_key sc)) < fuel)%nat →
  ∃ l srv', kv_scan_loop fuel req sc count pairs srv
      = (Ok (pairs ++ (scan_mark (sq_version req) locks <$> l)), srv') ∧
    cf_view (srv_store srv') = cf_view (srv_store srv) ∧ srv_latches srv' = srv_latches srv ∧
    first_visible m d (sq_version req) (sq_start_key req) (sc_current_key sc) (sq_limit req - count) l.
Proof.
  intros Hw Hl Hp. revert sc count pairs srv.
  induction fuel as [|fuel IH]; intros sc count pairs srv Hd Hlk Hr Hc Hlim Hend Ht Hle Hf; [lia|].
  cbn [kv_scan_loop]. destruct (Z.ltb_spec count (sq_limit req)) as [Hlt|Hge].
  2: { exists [], srv. cbn. rewrite app_nil_r. split_and!; try done. left. lia. }
  destruct (on_scanner_next m (sq_start_key req) sc srv) as (r & sc' & srv1 & H1 & [Hv1 Hla1] & Ha & Hfound);
    [done|by rewrite Hd|done|lia|].
  rewrite (M_bind_run _ _ _ _ _ H1). rewrite Hd, Ht in Hfound. destruct r as [[k v]|].
  - destruct Hfound as (Hn & _ & Hvis & Hbefore & Hcur & Hcount & Hex & Hinv).
    destruct (scan_pair_run (sq_version req) k v srv1) as (srv2 & H2 & [Hv2 Hla2]).
    { by rewrite Hv1, Hlk. }
    rewrite (M_bind_run _ _ _ _ _ H2). rewrite Hv1, Hlk.
    destruct Ha as (Ha1 & Ha2 & Ha3 & Ha4).
    destruct (IH sc' (count + 1) (pairs ++ [scan_mark (sq_version req) locks (k, v)]) srv2)
      as (l & srv' & H3 & Hv3 & Hla3 & Hfirst); try congruence; try lia.
    + split; [rewrite Hex; apply Hr|]. by rewrite Ha1, Ht, Hcur.
    + rewrite Hcur.
      pose proof (pending_shrinks m d _ (sq_start_key req) _ k v (wr_ok _ Hw) Hn Hvis). lia.
    + exists ((k, v) :: l), srv'. rewrite H3. split_and!; [|congruence|congruence|].
      * by rewrite <- app_assoc.
      * cbn. split_and!; try done; [lia|]. rewrite <- Hcur.
        by replace (sq_limit req - count - 1) with (sq_limit req - (count + 1)) by lia.
  - exists [], srv1. cbn. rewrite app_nil_r. split_and!; try done. right. split; [lia|].
    intros k Hn. destruct Hfound as [Hnone _]. apply Hnone; [done|]. unfold past_end. by rewrite Hend.
Qed.

Lemma scan_run req srv :
  let m := cf_view (srv_store srv) CF_WRITE in
  let d := cf_view (srv_store srv) CF_DEFAULT in
  let locks := cf_view (srv_store srv) CF_LOCK in
  write_ready m → locks_ok locks → values_present m d → is_u32 (sq_limit req) →
  ∃ l srv', same srv srv' ∧
    first_visible m d (sq_version req) (sq_start_key req) None (sq_limit req) l ∧
    kv_scan req srv = (Ok (ScanResponse_ok (scan_mark (sq_version req) locks <$> l)), srv').
Proof.
  intros m d locks Hw Hl Hp Hlim. unfold kv_scan.
  destruct (Scanner_new_run (sq_start_key req) (MvccTxn_new (sq_version req)) (srv_store srv) Hw)
    as (sc & H1 & Hr & Ht & Hc & Hcur & Hend).
  assert (on_store (Scanner_new (sq_start_key req) (MvccTxn_new (sq_version req))) srv = (Ok sc, srv))
    as H2 by (unfold on_store; rewrite H1; by destruct srv).
  rewrite (M_bind_run _ _ _ _ _ H2).
  destruct (kv_scan_loop_run m d locks (S loop_bound) req (set_limit (sq_limit req) sc) 0 [] srv)
    as (l & srv' & H3 & Hv & Hla & Hfirst); try done.
  - destruct Hr. by split.
  - cbn. by rewrite Ht.
  - unfold is_u32 in Hlim. lia.
  - cbn. rewrite Hcur. pose proof (pending_size m (sq_start_key req) None). destruct Hw. lia.
  - exists l, srv'. split; [done|]. cbn in Hfirst. rewrite Hcur, Z.sub_0_r in Hfirst. split; [done|].
    rewrite (M_bind_run _ _ _ _ _ H3). done.
Qed.

(** C5: A scan returns what point reads would.  On a healthy server whose put
    records have their values, a scan answers the first [limit] keys at or
    above the start key that a read at its version finds, in key order and
    with their values, all of them when there are fewer; a key locked by
    another transaction takes its place with the lock.  The column families
    and the latches stay as they were. *)
Theorem kv_scan_exact req srv :
  let m := cf_view (srv_store srv) CF_WRITE in
  let d := cf_view (srv_store srv) CF_DEFAULT in
  let locks := cf_view (srv_store srv) CF_LOCK in
  write_ready m → locks_ok locks → values_present m d → is_u32 (sq_limit req) →
  ∃ l srv', same srv srv' ∧
    first_visible m d (sq_version req) (sq_start_key req) None (sq_limit req) l ∧
    kv_scan req srv = (Ok (ScanResponse_ok (scan_mark (sq_version req) locks <$> l)), srv').
Proof. apply scan_run. Qed.
End scan.

(** ** A device that fails *)

Section failing.
Context `{laws : StorageLaws} `{bound : LoopBound} `{profile : BuildProfile}.

(** A failed write keeps the latches.  When the storage refuses the batch
    of a handler the error goes to the client, nothing is written, and the
    latches stay taken: from then on every call on one of the keys waits. *)
Theorem failed_write_keeps_latches {A} txn keys key (resp : A) (srv srv1 srv2 : Server) e s' :
  wait_for_latches keys srv = (Ok tt, srv1) → key ∈ keys →
  srv_latches srv2 = srv_latches srv1 →
  sto_write (txn_writes txn) (srv_store srv2) = (Err e, s') →
  ∃ srv', write_and_release txn keys resp srv2 = (Err e, srv') ∧
    cf_view (srv_store srv') = cf_view (srv_store srv2) ∧
    ∀ keys', key ∈ keys' → (wait_for_latches keys' srv').1 = Diverge.
Proof.
  intros Hwait Hin Hl Hw. exists (mkServer s' (srv_latches srv2)). split_and!.
  - unfold write_and_release, on_store. unfold_M. by rewrite Hw.
  - cbn. by eapply sto_write_err.
  - intros keys' Hin'. unfold wait_for_latches in *. cbn.
    pose proof (acquire_latches_spec keys (srv_latches srv)) as Hspec.
    destruct (acquire_latches keys (srv_latches srv)) as [[n|] l]; [done|].
    destruct Hspec as (_ & Hheld & _ & _). injection Hwait as <-. rewrite Hl. cbn.
    pose proof (acquire_latches_spec keys' l) as Hspec'.
    destruct (acquire_latches keys' l) as [[n|] l']; [done|]. destruct Hspec' as (Hfree & _).
    specialize (Hfree key Hin'). by rewrite Hheld in Hfree.
Qed.
End failing.

(** ** Concrete servers *)

Section samples.
#[local] Existing Instance map_storage.
#[local] Existing Instance map_storage_laws.
#[local] Existing Instance map_storage_reliable.
#[local] Existing Instance sample_bound.
#[local] Instance api_profile : BuildProfile := true.

(** No entries, no latches. *)
Definition empty_srv : Server := mkServer (λ _, ∅) Latches_new.

(** [uk] carries a put at 5 by the transaction of 3 and a rollback at 8. *)
Definition written_srv : Server := mkServer sample_sto Latches_new.

(** [uk] is locked by the transaction of 10, which put a value. *)
Definition the_lock : Lock := mkLock [Byte.x70] 10 3 WkPut.
Definition locked_srv : Server :=
  mkServer (storage_with [MPut (encode_key uk 10) [Byte.x0b] CF_DEFAULT;
                          MPut uk (Lock_to_bytes the_lock) CF_LOCK]) Latches_new.

Lemma latches_free (keys : list bytes) : ∀ k, k ∈ keys → latch_map Latches_new !! k = None.
Proof. intros k _. apply lookup_empty. Qed.

Lemma locks_ok_empty : locks_ok ∅.
Proof. intros k v H. by rewrite lookup_empty in H. Qed.

Lemma write_ready_empty : write_ready (∅ : gmap bytes bytes).
Proof. split; [apply write_cf_ok_empty|vm_compute; lia]. Qed.

Lemma empty_ready keys : server_ready keys empty_srv.
Proof. split; [apply write_ready_empty|apply locks_ok_empty|apply latches_free]. Qed.

Lemma written_ready keys : server_ready keys written_srv.
Proof. split; [exact sample_ready|apply locks_ok_empty|apply latches_free]. Qed.

Lemma the_locks_ok : locks_ok (cf_view (srv_store locked_srv) CF_LOCK).
Proof.
  change (locks_ok (<[uk := Lock_to_bytes the_lock]> (∅ : gmap bytes bytes))).
  intros k v [[<- <-]|[_ H]]%lookup_insert_Some; [|by rewrite lookup_empty in H].
  exists the_lock. by split_and!; [split; split; vm_compute|..].
Qed.

Lemma locked_ready keys : server_ready keys locked_srv.
Proof. split; [apply write_ready_empty|apply the_locks_ok|apply latches_free]. Qed.

Definition put_req (start : Z) : PrewriteRequest :=
  mkPrewriteRequest (Context_new 1) [mkMutation OpPut uk [Byte.x0c]] uk start 3.
Definition commit_req (start commit : Z) : CommitRequest :=
  mkCommitRequest (Context_new 1) start [uk] commit.

Lemma put_req_ok start : is_u64 start → request_ok (put_req start).
Proof. intros. split_and!; [done|done|]. by split; vm_compute. Qed.

Lemma kv_prewrite_exact_witness :
  (kv_prewrite (put_req 12) written_srv).1 = Ok PrewriteResponse_ok ∧
  (kv_prewrite (put_req 12) locked_srv).1
    = Ok (PrewriteResponse_with_errors [KeyError_locked (lock_info the_lock uk)]).
Proof.
  split.
  - destruct (kv_prewrite_exact (put_req 12) written_srv (written_ready _)) as (srv' & -> & _).
    vm_compute. reflexivity.
  - destruct (kv_prewrite_exact (put_req 12) locked_srv (locked_ready _)) as (srv' & -> & _).
    vm_compute. reflexivity.
Defined.

(** The record at 8 is newer than the start at 4. *)
Lemma prewrite_ignores_newer_commits_witness :
  (kv_prewrite (put_req 4) written_srv).1 = Ok PrewriteResponse_ok.
Proof.
  apply (prewrite_ignores_newer_commits (put_req 4) (mkMutation OpPut uk [Byte.x0c]) written_srv 5
    (mkWrite 3 WkPut) (written_ready _)); try reflexivity.
Defined.

Lemma kv_commit_exact_witness :
  (kv_commit (commit_req 10 20) locked_srv).1 = Ok CommitResponse_ok.
Proof.
  destruct (kv_commit_exact (commit_req 10 20) locked_srv (locked_ready _)) as (srv' & -> & _).
  - by split; vm_compute.
  - vm_compute. reflexivity.
Defined.

Lemma commit_retry_refused_witness :
  ∃ r, (kv_commit (commit_req 3 5) written_srv).1 = Ok (CommitResponse_with_key_error r).
Proof.
  eexists. eapply (commit_retry_refused (commit_req 3 5) uk [] written_srv (mkWrite 3 WkPut)
    (written_ready _)); try reflexivity; by split; vm_compute.
Defined.

Lemma kv_get_exact_witness :
  (kv_get (mkGetRequest (Context_new 1) uk 6) written_srv).1 = Ok (GetResponse_ok (Some [Byte.x0a])).
Proof.
  destruct (kv_get_exact (mkGetRequest (Context_new 1) uk 6) written_srv sample_ready locks_ok_empty)
    as (srv' & v & _ & Hv & ->).
  assert (v = Some [Byte.x0a]) as ->; [|reflexivity].
  eapply visible_unique; [exact Hv|]. exists (Some (mkWrite 3 WkPut), 5). split; [|reflexivity].
  split_and!; [by split; vm_compute|cbn; lia|reflexivity|].
  intros ts _ Hts. assert (ts = 6) as -> by (cbn in Hts; lia). reflexivity.
Defined.

Lemma two_phases_preserve_ok_witness :
  server_ok (kv_prewrite (put_req 12) empty_srv).2.
Proof.
  assert (is_u64 12 ∧ is_u64 20) as [H12 H20] by (repeat split; by vm_compute).
  refine (proj1 (two_phases_preserve_ok (put_req 12) (commit_req 12 20) empty_srv _ _
    (empty_ready _) (put_req_ok 12 H12) eq_refl _ H12 H20 eq_refl)).
  destruct (prewrite_run (put_req 12) empty_srv (empty_ready _)) as (srv1 & -> & Hs1).
  by eapply (prewrite_keeps_ready (put_req 12)); [apply put_req_ok|apply empty_ready|].
Defined.

(** The lock of 10 expires when the physical clock passes 3. *)
Definition check_req (now : Z) : CheckTxnStatusRequest :=
  mkCheckTxnStatusRequest (Context_new 1) uk 10 now.

Lemma kv_check_txn_status_exact_witness :
  (kv_check_txn_status (check_req 65536) locked_srv).1 = Ok (CheckTxnStatusResponse_locked 3) ∧
  (kv_check_txn_status (check_req 262144) locked_srv).1
    = Ok (CheckTxnStatusResponse_rolled_back TtlExpireRollback).
Proof.
  assert (∀ l, lock_at (cf_view (srv_store locked_srv) CF_LOCK) uk = Some l →
    is_u64 (physical_time (lock_ts l) + lock_ttl l)) as Hfit.
  { intros l Hl. assert (l = the_lock) as -> by (vm_compute in Hl; by injection Hl). by split; vm_compute. }
  assert (is_u64 10) as H10 by (by split; vm_compute).
  split.
  - destruct (kv_check_txn_status_exact (check_req 65536) locked_srv (locked_ready _) H10 Hfit)
      as (srv' & -> & _). reflexivity.
  - destruct (kv_check_txn_status_exact (check_req 262144) locked_srv (locked_ready _) H10 Hfit)
      as (srv' & -> & _). reflexivity.
Defined.

Lemma check_txn_status_misjudges_witness :
  (kv_check_txn_status (mkCheckTxnStatusRequest (Context_new 1) uk 8 0) written_srv).1
    = Ok (CheckTxnStatusResponse_committed 8) ∧
  (kv_check_txn_status (mkCheckTxnStatusRequest (Context_new 1) uk 3 0) written_srv).1
    = Ok (CheckTxnStatusResponse_rolled_back LockNotExistRollback).
Proof.
  split.
  - refine (proj1 (check_txn_status_misjudges (mkCheckTxnStatusRequest (Context_new 1) uk 8 0) written_srv
      (mkWrite 8 WkRollback) (written_ready _) _ _ eq_refl) eq_refl); [by split; vm_compute|done].
  - refine (proj2 (check_txn_status_misjudges (mkCheckTxnStatusRequest (Context_new 1) uk 3 0) written_srv
      (mkWrite 3 WkPut) (written_ready _) _ _ eq_refl) 5 _ eq_refl eq_refl eq_refl);
      [by split; vm_compute|done|done].
Defined.

Lemma kv_batch_rollback_exact_witness :
  (kv_batch_rollback (mkBatchRollbackRequest (Context_new 1) 10 [uk]) locked_srv).1
    = Ok BatchRollbackResponse_ok ∧
  (kv_batch_rollback (mkBatchRollbackRequest (Context_new 1) 11 [uk]) locked_srv).1
    = Ok (BatchRollbackResponse_with_key_error (KeyError_locked (lock_info the_lock uk))).
Proof.
  split.
  - destruct (kv_batch_rollback_exact (mkBatchRollbackRequest (Context_new 1) 10 [uk]) locked_srv
      (locked_ready _)) as (srv' & -> & _); [by split; vm_compute|reflexivity].
  - destruct (kv_batch_rollback_exact (mkBatchRollbackRequest (Context_new 1) 11 [uk]) locked_srv
      (locked_ready _)) as (srv' & -> & _); [by split; vm_compute|reflexivity].
Defined.

Lemma batch_rollback_erases_committed_witness :
  ∃ srv', kv_batch_rollback (mkBatchRollbackRequest (Context_new 1) 3 [uk]) written_srv
      = (Ok BatchRollbackResponse_ok, srv') ∧
    cf_view (srv_store srv') CF_DEFAULT !! encode_key uk 3 = None.
Proof.
  apply (batch_rollback_erases_committed (mkBatchRollbackRequest (Context_new 1) 3 [uk]) uk written_srv
    5 [Byte.x0a] (written_ready _)); try reflexivity. by split; vm_compute.
Defined.


Lemma sample_values : values_present (cf_view sample_sto CF_WRITE) (cf_view sample_sto CF_DEFAULT).
Proof.
  intros key ts w Hts Hr Hk. apply record_at_Some in Hr as [Hr Hok]; [|apply sample_ready|done].
  change (<[encode_key uk 8 := Write_to_bytes (mkWrite 8 WkRollback)]>
    (<[encode_key uk 5 := Write_to_bytes (mkWrite 3 WkPut)]> (∅ : gmap bytes bytes))
    !! encode_key key ts = Some (Write_to_bytes w)) in Hr.
  assert (is_u64 8 ∧ is_u64 5) as [H8 H5] by (repeat split; by vm_compute).
  assert (∀ w', Write_ok w' → Write_to_bytes w' = Write_to_bytes w → w' = w) as Hinj.
  { intros w' Hw' E. apply (f_equal Write_parse) in E.
    rewrite !Write_parse_to_bytes in E by done. congruence. }
  apply lookup_insert_Some in Hr as [[_ E]|[_ Hr]].
  { apply Hinj in E; [|by split; vm_compute]. by subst w. }
  apply lookup_insert_Some in Hr as [[Ek E]|[_ Hr]]; [|by rewrite lookup_empty in Hr].
  apply encode_key_inj in Ek as [<- <-]; [|done|done].
  apply Hinj in E; [|by split; vm_compute]. subst w. by eexists.
Qed.

Lemma kv_scan_exact_witness :
  ∃ l srv', kv_scan (mkScanRequest (Context_new 1) [] 10 6) written_srv
      = (Ok (ScanResponse_ok (scan_mark 6 (cf_view (srv_store written_srv) CF_LOCK) <$> l)), srv') ∧
    first_visible (cf_view sample_sto CF_WRITE) (cf_view sample_sto CF_DEFAULT) 6 [] None 10 l.
Proof.
  destruct (kv_scan_exact (mkScanRequest (Context_new 1) [] 10 6) written_srv sample_ready locks_ok_empty
    sample_values) as (l & srv' & _ & Hl & Hrun); [by split; vm_compute|].
  exists l, srv'. split; [exact Hrun|exact Hl].
Defined.

(** The scan finds the put and skips nothing else. *)
Example kv_scan_runs :
  (kv_scan (mkScanRequest (Context_new 1) [] 10 6) written_srv).1
    = Ok (ScanResponse_ok [KvPair_new uk [Byte.x0a]]).
Proof. reflexivity. Qed.
End samples.
