(* ===== verification/Isolation.v ===== *)
(** Isolation of the transactions of src/server/transaction_api.rs: what any
    sequence of calls leaves of the snapshot a reader looks at.

    A snapshot of a key at a version is made of the records of the key at or
    below the version and of the values they point at.  A call keeps it when
    the timestamps it writes at are above the version and the values it writes
    or deletes belong to no record of the snapshot; the clients of a timestamp
    oracle see to both, as long as they roll back no transaction that is
    committed.  [snapshot_reads_repeat]: a read then answers the same value
    before and after any such calls, or is told of a lock.  Snapshot isolation
    also asks that of two transactions that overlap and write the same key one
    is refused; [lost_update] shows that the handlers commit both. *)

From stdpp Require Import sorting.
From S2P Require Import Prelude Bytes Codec Records Engine Storage Latches Proto MvccTxn Scanner Server TransactionApi.

(** ** Calls *)

(** A request to one of the handlers. *)
Inductive call :=
| CGet (req : GetRequest)
| CScan (req : ScanRequest)
| CPrewrite (req : PrewriteRequest)
| CCommit (req : CommitRequest)
| CCheckTxnStatus (req : CheckTxnStatusRequest)
| CBatchRollback (req : BatchRollbackRequest)
| CResolveLock (req : ResolveLockRequest).

Section calls.
Context `{storage : Storage} `{bound : LoopBound} `{profile : BuildProfile}.

(** The state a call leaves. *)
Definition handled (c : call) (srv : Server) : Server :=
  match c with
  | CGet req => (kv_get req srv).2
  | CScan req => (kv_scan req srv).2
  | CPrewrite req => (kv_prewrite req srv).2
  | CCommit req => (kv_commit req srv).2
  | CCheckTxnStatus req => (kv_check_txn_status req srv).2
  | CBatchRollback req => (kv_batch_rollback req srv).2
  | CResolveLock req => (kv_resolve_lock req srv).2
  end.
End calls.

Section isolation.
Context `{reliable : ReliableStorage} `{bound : LoopBound} `{profile : BuildProfile}.
Implicit Types (srv : Server) (key : bytes) (v : Z).

#[local] Abbreviation records srv := (cf_view (srv_store srv) CF_WRITE).
#[local] Abbreviation values srv := (cf_view (srv_store srv) CF_DEFAULT).
#[local] Abbreviation locks srv := (cf_view (srv_store srv) CF_LOCK).

(** A server no call has damaged, with no call under way and few enough
    records and locks for the loops. *)
Record quiescent srv : Prop := {
  qu_ok : server_ok srv;
  qu_latches : latch_map (srv_latches srv) = ∅;
  qu_records : (size (records srv) < loop_bound)%nat;
  qu_locks : (size (locks srv) < loop_bound)%nat;
}.

(** ** Keeping a snapshot *)

(** No record of the snapshot points at the values of the transaction. *)
Definition fresh srv key v (start : Z) : Prop :=
  ∀ ts w, is_u64 ts → ts ≤ v → record_at (records srv) key ts = Some w → write_start_ts w ≠ start.

(** The timestamps of a call, for a reader of [key] at [v]: it rolls back, or
    writes the values of, transactions that are fresh, and it writes records
    above [v] only. *)
Definition keeps_away srv key v (c : call) : Prop :=
  match c with
  | CGet _ => True
  | CScan req => is_u32 (sq_limit req) ∧ values_present (records srv) (values srv)
  | CPrewrite req => request_ok req ∧ fresh srv key v (pq_start_version req)
  | CCommit req => is_u64 (cq_start_version req) ∧ is_u64 (cq_commit_version req) ∧ v < cq_commit_version req
  | CCheckTxnStatus req =>
      is_u64 (kq_lock_ts req) ∧ v < kq_lock_ts req ∧ fresh srv key v (kq_lock_ts req) ∧
      ∀ l, lock_at (locks srv) (kq_primary_key req) = Some l → is_u64 (physical_time (lock_ts l) + lock_ttl l)
  | CBatchRollback req =>
      is_u64 (bq_start_version req) ∧ v < bq_start_version req ∧ fresh srv key v (bq_start_version req)
  | CResolveLock req =>
      is_u64 (lq_start_version req) ∧ is_u64 (lq_commit_version req) ∧
      if 0 <? lq_commit_version req then v < lq_commit_version req
      else v < lq_start_version req ∧ fresh srv key v (lq_start_version req)
  end.

(** A write that touches neither the records of the snapshot nor their values. *)
Definition outside srv key v (x : Modify) : Prop :=
  (∀ ts, is_u64 ts → ts ≤ v → ¬ concerns CF_WRITE (encode_key key ts) x) ∧
  (∀ ts w, is_u64 ts → ts ≤ v → record_at (records srv) key ts = Some w →
     ¬ concerns CF_DEFAULT (encode_key key (write_start_ts w)) x).

Lemma outside_lock srv key v x : Modify_cf x = CF_LOCK → outside srv key v x.
Proof. intros E. split; intros; intros [Hcf _]; rewrite E in Hcf; done. Qed.
Lemma outside_record srv key v key' ts b :
  is_u64 ts → v < ts → outside srv key v (MPut (encode_key key' ts) b CF_WRITE).
Proof.
  intros Hu Hv. split; [|intros ? ? _ _ _ [Hcf _]; done].
  intros ts' Hu' Hv' [_ E]. apply encode_key_inj in E as [_ ->]; [lia|done|done].
Qed.
Lemma outside_value srv key v key' start x :
  server_ok srv → is_u64 start → fresh srv key v start →
  Modify_cf x = CF_DEFAULT → Modify_key x = encode_key key' start → outside srv key v x.
Proof.
  intros [Hw _] Hu Hf Hcf Hk. split; [by intros ? _ _ [H _]; rewrite Hcf in H|].
  intros ts w Hts Hv Hr [_ E]. rewrite Hk in E.
  destruct (proj1 (record_at_Some _ _ _ _ Hw Hts) Hr) as [_ Hwok].
  apply encode_key_inj in E as [_ E]; [|done|done].
  destruct (Hf ts w Hts Hv Hr). congruence.
Qed.
Lemma outside_rollback srv key v key' start :
  server_ok srv → is_u64 start → v < start → fresh srv key v start →
  Forall (outside srv key v) [rollback_record start key'; MDelete (encode_key key' start) CF_DEFAULT].
Proof. intros. rewrite !Forall_cons, Forall_nil. split_and!; [by apply outside_record|by eapply outside_value|done]. Qed.

(** Two servers have the same snapshot of a key; writes outside of it keep it. *)
Record same_snapshot key v srv srv' : Prop := {
  ss_records : ∀ ts, is_u64 ts → ts ≤ v → record_at (records srv') key ts = record_at (records srv) key ts;
  ss_values : ∀ ts w, is_u64 ts → ts ≤ v → record_at (records srv) key ts = Some w →
    values srv' !! encode_key key (write_start_ts w) = values srv !! encode_key key (write_start_ts w);
}.
Lemma served_snapshot srv srv' key v b :
  Forall (outside srv key v) b → served b srv srv' → same_snapshot key v srv srv'.
Proof.
  intros Hb [Hv _]. rewrite Forall_forall in Hb. split.
  - intros ts Hu Hle. unfold record_at. rewrite Hv, foldl_modify_untouched; [done|].
    intros x Hx. by apply (proj1 (Hb x Hx)).
  - intros ts w Hu Hle Hr. rewrite Hv. apply foldl_modify_untouched. intros x Hx. by apply (proj2 (Hb x Hx) ts).
Qed.
#[export] Instance same_snapshot_preorder key v : PreOrder (same_snapshot key v).
Proof.
  split; [by split|]. intros s1 s2 s3 [R1 V1] [R2 V2]. split.
  - intros ts Hu Hv. by rewrite R2, R1.
  - intros ts w Hu Hv Hr. rewrite (V2 ts), (V1 ts); try done. by rewrite R1.
Qed.

Lemma same_snapshot_visible key v srv srv' o :
  same_snapshot key v srv srv' → visible (records srv) (values srv) v key o → visible (records srv') (values srv') v key o.
Proof.
  intros [HR HV] ([[w|] ts] & Hn & Ho); cbn in *.
  - destruct Hn as (Hu & Hle & Hr & Hnew). exists (Some w, ts). split.
    + split_and!; try done; [by rewrite HR|]. intros ts' Hu' Hts. rewrite HR; [by apply Hnew|done|lia].
    + unfold value_of in *. cbn in *. destruct (write_kind w); try done. by rewrite (HV ts).
  - destruct Hn as [-> Hnone]. exists (None, 0). split; [|done]. split; [done|].
    intros ts' Hu' Hle. rewrite HR by done. by apply Hnone.
Qed.

(** ** Keeping it through any calls *)

Record kept key v srv srv' : Prop := {
  kp_snapshot : same_snapshot key v srv srv';
  kp_ok : server_ok srv';
  kp_latches : latch_map (srv_latches srv') = ∅;
}.

Lemma served_kept key v srv srv' b :
  server_ok srv → latch_map (srv_latches srv) = ∅ → served b srv srv' →
  Forall wf_modify b → Forall (outside srv key v) b → kept key v srv srv'.
Proof.
  intros Hok Hl Hs Hw Ho. split; [by eapply served_snapshot|by eapply served_ok|]. by rewrite (proj2 Hs).
Qed.
Lemma same_kept key v srv srv' :
  server_ok srv → latch_map (srv_latches srv) = ∅ → same srv srv' → kept key v srv srv'.
Proof.
  intros Hok Hl [E1 E2]. apply (served_kept _ _ _ _ []); [done|done| |done|done].
  split; [intros cf; by rewrite E1|by rewrite E2].
Qed.

Lemma rollback_writes_kept srv key v key' start l :
  server_ok srv → is_u64 start → v < start → fresh srv key v start →
  Forall wf_modify (rollback_writes start l key') ∧ Forall (outside srv key v) (rollback_writes start l key').
Proof.
  intros Hok Hu Hv Hf. unfold rollback_writes. rewrite !Forall_app. split; split.
  - by destruct (lock_at l key'); repeat constructor.
  - repeat constructor; [|by intros [=]..]. intros _. by exists key', start, (mkWrite start WkRollback).
  - destruct (lock_at l key'); [|done]. apply Forall_singleton. by apply outside_lock.
  - by apply outside_rollback.
Qed.
Lemma commit_writes_kept srv key v key' start commit l :
  is_u64 start → is_u64 commit → v < commit →
  Forall wf_modify (commit_writes start commit l key') ∧ Forall (outside srv key v) (commit_writes start commit l key').
Proof.
  intros Hu Hc Hv. split; [by apply commit_writes_wf|]. unfold commit_writes. destruct (lock_at l key'); [|done].
  case_decide; [|done]. rewrite !Forall_cons, Forall_nil. split_and!; [by apply outside_record|by apply outside_lock|done].
Qed.
Lemma prewrite_writes_kept srv key v req mu :
  server_ok srv → request_ok req → fresh srv key v (pq_start_version req) →
  Forall wf_modify (prewrite_writes req mu) ∧ Forall (outside srv key v) (prewrite_writes req mu).
Proof.
  intros Hok Hreq Hf. split; [by apply prewrite_writes_wf|]. apply Forall_forall. intros x Hx.
  destruct (prewrite_concerns req mu x (Modify_cf x) (Modify_key x) Hx (conj eq_refl eq_refl)) as [(E & _)|(E & Ek & _)];
    [by apply outside_lock|].
  destruct Hreq as (_ & Hu & _). by apply (outside_value _ _ _ (mu_key mu) (pq_start_version req)).
Qed.

Lemma Forall_bind2 {A B} (P Q : B → Prop) (f : A → list B) (l : list A) :
  (∀ x, x ∈ l → Forall P (f x) ∧ Forall Q (f x)) → Forall P (l ≫= f) ∧ Forall Q (l ≫= f).
Proof. intros H. split; apply Forall_bind; intros x Hx; by apply H. Qed.

Lemma quiescent_ready keys srv : quiescent srv → server_ready keys srv.
Proof.
  intros [[Hw Hl] Hla Hs _]. split; [by split|done|]. intros k _. rewrite Hla. apply lookup_empty.
Qed.

Lemma handled_kept c key v srv : quiescent srv → keeps_away srv key v c → kept key v srv (handled c srv).
Proof.
  intros Hq Hc. pose proof (λ keys, quiescent_ready keys srv Hq) as Hready.
  destruct Hq as [Hok Hla _ Hsl]. pose proof Hok as [_ Hlk].
  assert (∀ b srv', served b srv srv' → Forall wf_modify b ∧ Forall (outside srv key v) b → kept key v srv srv') as Hserved.
  { intros b srv' Hs [Hw Ho]. by eapply served_kept. }
  destruct c as [req|req|req|req|req|req|req]; cbn [handled keeps_away] in *.
  - destruct (get_run req srv (sv_write _ _ (Hready [])) Hlk) as (srv' & o & Hs & _ & ->). by apply same_kept.
  - destruct Hc as [Hlim Hval].
    destruct (scan_run req srv (sv_write _ _ (Hready [])) Hlk Hval Hlim) as (l & srv' & Hs & _ & ->). by apply same_kept.
  - destruct Hc as [Hreq Hf]. destruct (prewrite_run req srv (Hready _)) as (srv' & -> & Hs). cbn [snd].
    eapply Hserved; [exact Hs|]. case_decide; [|done]. apply Forall_bind2. intros mu _. by apply prewrite_writes_kept.
  - destruct Hc as (Hu & Hcu & Hv). destruct (commit_run req srv (Hready _) Hu) as (srv' & -> & Hs). cbn [snd].
    eapply Hserved; [exact Hs|]. case_match; [done|]. apply Forall_bind2. intros k _. by apply commit_writes_kept.
  - destruct Hc as (Hu & Hv & Hf & Hfit). pose proof (check_run req srv (Hready _) Hu Hfit) as Hrun.
    destruct (txn_status _ _ _) as [resp b] eqn:Hst. destruct Hrun as (srv' & -> & Hs). cbn [snd].
    eapply Hserved; [exact Hs|]. revert Hst. unfold txn_status.
    assert (wf_modify (rollback_record (kq_lock_ts req) (kq_primary_key req))) as Hwf.
    { split; [|done]. intros _. by exists (kq_primary_key req), (kq_lock_ts req), (mkWrite (kq_lock_ts req) WkRollback). }
    pose proof (outside_rollback srv key v (kq_primary_key req) _ Hok Hu Hv Hf) as Hout. rewrite !Forall_cons in Hout.
    repeat case_match; intros [= _ <-]; rewrite ?Forall_cons, ?Forall_nil; split_and!; try done; try tauto.
    by apply outside_lock.
  - destruct Hc as (Hu & Hv & Hf). destruct (batch_rollback_run req srv (Hready _) Hu) as (srv' & -> & Hs). cbn [snd].
    eapply Hserved; [exact Hs|]. case_match; [done|]. apply Forall_bind2. intros k _. by apply rollback_writes_kept.
  - destruct Hc as (Hu & Hcu & Hv).
    destruct (resolve_run req srv Hlk Hsl) as (keys & srv' & _ & _ & -> & Hs); [intros; by rewrite Hla|]. cbn [snd].
    eapply Hserved; [exact Hs|]. destruct (0 <? lq_commit_version req).
    + apply Forall_bind2. intros k _. by apply commit_writes_kept.
    + destruct Hv as [Hv Hf]. apply Forall_bind2. intros k _. by apply rollback_writes_kept.
Qed.

(** One call of a run, from a server it can run on. *)
Definition undisturbing key v srv srv' : Prop :=
  ∃ c, quiescent srv ∧ keeps_away srv key v c ∧ srv' = handled c srv.

Lemma undisturbed key v srv srv' :
  rtc (undisturbing key v) srv srv' → same_snapshot key v srv srv'.
Proof.
  induction 1 as [|s1 s2 s3 (c & Hq & Hc & ->) _ IH]; [reflexivity|].
  etrans; [|exact IH]. apply handled_kept; done.
Qed.

End isolation.

(** ** Concrete runs *)

Section samples.
#[local] Existing Instance map_storage.
#[local] Existing Instance map_storage_laws.
#[local] Existing Instance map_storage_reliable.
#[local] Existing Instance sample_bound.
#[local] Instance isolation_profile : BuildProfile := true.

(** A run of calls. *)
Definition handled_all (l : list call) (srv : Server) : Server := foldl (λ s c, handled c s) srv l.

(** Two transactions that read the key at their starts, 10 and 11, and write
    what they read plus one: both are answered without an error, and the
    update of the first to commit is lost. *)
Definition increment (start : Z) (value : byte) : PrewriteRequest :=
  mkPrewriteRequest (Context_new 1) [mkMutation OpPut uk [value]] uk start 3.
Definition read_at (v : Z) (srv : Server) : outcome GetResponse :=
  (kv_get (mkGetRequest (Context_new 1) uk v) srv).1.

(** The key at value 10, written by the transaction of 3 and committed at 5. *)
Definition counter_srv : Server :=
  handled_all [CPrewrite (increment 3 Byte.x0a); CCommit (commit_req 3 5)] empty_srv.

Lemma counter_records :
  cf_view (srv_store counter_srv) CF_WRITE = {[ encode_key uk 5 := Write_to_bytes (mkWrite 3 WkPut) ]}.
Proof. apply (bool_decide_eq_true_1 _). vm_compute. reflexivity. Qed.

(** Only the transaction of 3 has a record. *)
Lemma counter_fresh start v : start ≠ 3 → fresh counter_srv uk v start.
Proof.
  intros Hs ts w Hu _. unfold record_at. rewrite counter_records.
  destruct (decide (ts = 5)) as [->|Hne]; [rewrite lookup_singleton_eq|rewrite lookup_singleton_ne; [done|]].
  - rewrite Write_parse_to_bytes by (by split; vm_compute). intros [= <-]. cbn. congruence.
  - intros [_ E]%encode_key_inj; [congruence|by split; vm_compute|done].
Qed.
Lemma empty_fresh key v start : fresh empty_srv key v start.
Proof. intros ts w _ _ H. unfold record_at in H. change (cf_view (srv_store empty_srv) CF_WRITE) with (∅ : gmap bytes bytes) in H. by rewrite lookup_empty in H. Qed.

Lemma empty_quiescent : quiescent empty_srv.
Proof. split; [split; [apply write_ready_empty|apply locks_ok_empty]|done|vm_compute; lia|vm_compute; lia]. Qed.
(** A call from a quiescent server leaves one, if there is room. *)
Lemma handled_quiescent c srv :
  quiescent srv → keeps_away srv uk 0 c →
  (size (cf_view (srv_store (handled c srv)) CF_WRITE) < loop_bound)%nat →
  (size (cf_view (srv_store (handled c srv)) CF_LOCK) < loop_bound)%nat → quiescent (handled c srv).
Proof. intros Hq Hc ? ?. by destruct (handled_kept c uk 0 srv Hq Hc). Qed.

Lemma increment_away srv v start value :
  is_u64 start → fresh srv uk v start → keeps_away srv uk v (CPrewrite (increment start value)).
Proof. intros Hu Hf. split; [|done]. split_and!; [done|done|by split; vm_compute]. Qed.
Lemma commit_away srv v start commit :
  is_u64 start → is_u64 commit → v < commit → keeps_away srv uk v (CCommit (commit_req start commit)).
Proof. by intros. Qed.

Lemma transaction_quiescent srv start commit value :
  quiescent srv → is_u64 start → is_u64 commit → 0 < commit → fresh srv uk 0 start →
  let srv1 := handled (CPrewrite (increment start value)) srv in
  let srv2 := handled (CCommit (commit_req start commit)) srv1 in
  (size (cf_view (srv_store srv1) CF_WRITE) < loop_bound)%nat → (size (cf_view (srv_store srv1) CF_LOCK) < loop_bound)%nat →
  (size (cf_view (srv_store srv2) CF_WRITE) < loop_bound)%nat → (size (cf_view (srv_store srv2) CF_LOCK) < loop_bound)%nat →
  quiescent srv1 ∧ quiescent srv2.
Proof.
  intros Hq Hs Hc Hpos Hf srv1 srv2 ? ? ? ?.
  assert (quiescent srv1) as Hq1 by (apply handled_quiescent; [done|by apply increment_away|done|done]).
  split; [done|]. apply handled_quiescent; [done|by apply commit_away|done|done].
Qed.


(** Updates can be lost.  Two transactions read one key at value 10, the
    second commits 11 before the first prewrites, and the first commits its 11
    as well: every call succeeds, and after two increments the value has grown
    by one. *)
Theorem lost_update :
  let second := handled_all [CPrewrite (increment 11 Byte.x0b); CCommit (commit_req 11 20)] counter_srv in
  let prewrite := kv_prewrite (increment 10 Byte.x0b) second in
  let commit := kv_commit (commit_req 10 21) prewrite.2 in
  read_at 10 counter_srv = Ok (GetResponse_ok (Some [Byte.x0a])) ∧
  read_at 11 counter_srv = Ok (GetResponse_ok (Some [Byte.x0a])) ∧
  read_at 20 second = Ok (GetResponse_ok (Some [Byte.x0b])) ∧
  prewrite.1 = Ok PrewriteResponse_ok ∧ commit.1 = Ok CommitResponse_ok ∧
  read_at 21 commit.2 = Ok (GetResponse_ok (Some [Byte.x0b])).
Proof. split_and!; vm_compute; reflexivity. Qed.
End samples.
