(* ===== verification/Grpc.v ===== *)
(** The gRPC service of src/server/grpc.rs: every method turns a message of
    proto/kvrpcpb.proto into a request of src/proto/kvrpcpb.rs, calls the
    handler, and turns its response into a message.

    The messages of the protocol are the records of the Module [kvrpcpb]; a
    field that is not optional in the protocol has its default where the
    handler answers nothing. *)

From S2P Require Import Prelude Bytes Codec Records Engine Storage Latches Proto MvccTxn Scanner Server RawApi TransactionApi.

(** ** proto/kvrpcpb.proto *)

Module kvrpcpb.
Record Context := mkContext {
  region_id : Z; region_epoch : option RegionEpoch; peer : option Proto.Peer; term : Z }.
Record LockInfo := mkLockInfo { primary_lock : bytes; lock_version : Z; lock_key : bytes; lock_ttl : Z }.
Record KeyError := mkKeyError {
  locked : option LockInfo; retryable : bytes; abort : bytes; conflict_ts : Z; conflict_key : bytes;
  conflict_commit_ts : Z; already_exist : Z }.
Record KvPair := mkKvPair { pair_error : option KeyError; pair_key : bytes; pair_value : bytes }.
Record Mutation := mkMutation { mutation_op : Z; mutation_key : bytes; mutation_value : bytes }.

Record RawGetRequest := mkRawGetRequest { rg_context : option Context; rg_key : bytes; rg_cf : string }.
Record RawGetResponse := mkRawGetResponse {
  rg_region_error : option Error; rg_error : bytes; rg_value : bytes; rg_not_found : bool }.
Record RawPutRequest := mkRawPutRequest {
  rp_context : option Context; rp_key : bytes; rp_value : bytes; rp_cf : string }.
Record RawPutResponse := mkRawPutResponse { rp_region_error : option Error; rp_error : bytes }.
Record RawDeleteRequest := mkRawDeleteRequest { rd_context : option Context; rd_key : bytes; rd_cf : string }.
Record RawDeleteResponse := mkRawDeleteResponse { rd_region_error : option Error; rd_error : bytes }.
Record RawScanRequest := mkRawScanRequest {
  rs_context : option Context; rs_start_key : bytes; rs_limit : Z; rs_cf : string }.
Record RawScanResponse := mkRawScanResponse {
  rs_region_error : option Error; rs_error : bytes; rs_kvs : list KvPair }.

Record GetRequest := mkGetRequest { get_context : option Context; get_key : bytes; get_version : Z }.
Record GetResponse := mkGetResponse {
  get_region_error : option Error; get_error : option KeyError; get_value : bytes; get_not_found : bool }.
Record ScanRequest := mkScanRequest {
  scan_context : option Context; scan_start_key : bytes; scan_limit : Z; scan_version : Z }.
Record ScanResponse := mkScanResponse {
  scan_region_error : option Error; scan_error : option KeyError; scan_pairs : list KvPair }.
Record PrewriteRequest := mkPrewriteRequest {
  prewrite_context : option Context; prewrite_mutations : list Mutation; prewrite_primary_lock : bytes;
  prewrite_start_version : Z; prewrite_lock_ttl : Z }.
Record PrewriteResponse := mkPrewriteResponse { prewrite_region_error : option Error; prewrite_errors : list KeyError }.
Record CommitRequest := mkCommitRequest {
  commit_context : option Context; commit_start_version : Z; commit_keys : list bytes; commit_commit_version : Z }.
Record CommitResponse := mkCommitResponse { commit_region_error : option Error; commit_error : option KeyError }.
End kvrpcpb.

(** ** The conversions *)

Definition context_of (c : option kvrpcpb.Context) : Context :=
  match c with Some c => Context_new (kvrpcpb.region_id c) | None => Context_new 0 end.

Definition convert_error (e : Error) : Error := mkError (er_message e) None None None None.

Definition convert_key_error (e : KeyError) : kvrpcpb.KeyError :=
  kvrpcpb.mkKeyError
    ((λ locked, kvrpcpb.mkLockInfo (li_primary_lock locked) (li_lock_version locked) (li_key locked) (li_lock_ttl locked))
       <$> ke_locked e)
    (default [] (ke_retryable e)) (default [] (ke_abort e))
    (match ke_conflict e with Some conflict => wc_conflict_ts conflict | None => 0 end)
    (match ke_conflict e with Some conflict => wc_key conflict | None => [] end)
    0 0.

Definition convert_pair (kv : KvPair) : kvrpcpb.KvPair :=
  kvrpcpb.mkKvPair (convert_key_error <$> kv_error kv) (kv_key kv) (kv_value kv).

Definition convert_op (op : Z) : Op := if op =? 0 then OpPut else if op =? 1 then OpDel else OpPut.
Definition convert_mutation (m : kvrpcpb.Mutation) : Mutation :=
  mkMutation (convert_op (kvrpcpb.mutation_op m)) (kvrpcpb.mutation_key m) (kvrpcpb.mutation_value m).

(** ** The service *)

Section service.
Context `{storage : Storage} `{bound : LoopBound} `{profile : BuildProfile}.

(** A response is converted; an error becomes a status of the call. *)
Definition respond {A B} (convert : A → B) (m : M Server A) : M Server (Status + B) := λ srv,
  match or_status Internal m srv with
  | (Ok (inr a), srv') => (Ok (inr (convert a)), srv')
  | (Ok (inl s), srv') => (Ok (inl (mkStatus Internal ("Internal error: " ++ status_message s))), srv')
  | (Err e, srv') => (Err e, srv')
  | (Panic, srv') => (Panic, srv')
  | (Diverge, srv') => (Diverge, srv')
  end.

Definition grpc_raw_get (req : kvrpcpb.RawGetRequest) : M Server (Status + kvrpcpb.RawGetResponse) :=
  respond (λ resp, kvrpcpb.mkRawGetResponse (convert_error <$> wgr_region_error resp) (default [] (wgr_error resp))
             (default [] (wgr_value resp)) (wgr_not_found resp))
    (raw_get (mkRawGetRequest (context_of (kvrpcpb.rg_context req)) (kvrpcpb.rg_key req) (kvrpcpb.rg_cf req))).

Definition grpc_raw_put (req : kvrpcpb.RawPutRequest) : M Server (Status + kvrpcpb.RawPutResponse) :=
  respond (λ resp, kvrpcpb.mkRawPutResponse (convert_error <$> wpr_region_error resp) (default [] (wpr_error resp)))
    (raw_put (mkRawPutRequest (context_of (kvrpcpb.rp_context req)) (kvrpcpb.rp_key req) (kvrpcpb.rp_value req)
                (kvrpcpb.rp_cf req))).

Definition grpc_raw_delete (req : kvrpcpb.RawDeleteRequest) : M Server (Status + kvrpcpb.RawDeleteResponse) :=
  respond (λ resp, kvrpcpb.mkRawDeleteResponse (convert_error <$> wdr_region_error resp) (default [] (wdr_error resp)))
    (raw_delete (mkRawDeleteRequest (context_of (kvrpcpb.rd_context req)) (kvrpcpb.rd_key req) (kvrpcpb.rd_cf req))).

Definition grpc_raw_scan (req : kvrpcpb.RawScanRequest) : M Server (Status + kvrpcpb.RawScanResponse) :=
  respond (λ resp, kvrpcpb.mkRawScanResponse (convert_error <$> wsr_region_error resp) (default [] (wsr_error resp))
             (convert_pair <$> wsr_kvs resp))
    (raw_scan (mkRawScanRequest (context_of (kvrpcpb.rs_context req)) (kvrpcpb.rs_start_key req) (kvrpcpb.rs_limit req)
                 (kvrpcpb.rs_cf req))).

Definition grpc_kv_get (req : kvrpcpb.GetRequest) : M Server (Status + kvrpcpb.GetResponse) :=
  respond (λ resp, kvrpcpb.mkGetResponse (convert_error <$> gr_region_error resp) (convert_key_error <$> gr_error resp)
             (default [] (gr_value resp)) (gr_not_found resp))
    (kv_get (mkGetRequest (context_of (kvrpcpb.get_context req)) (kvrpcpb.get_key req) (kvrpcpb.get_version req))).

Definition grpc_kv_scan (req : kvrpcpb.ScanRequest) : M Server (Status + kvrpcpb.ScanResponse) :=
  respond (λ resp, kvrpcpb.mkScanResponse (convert_error <$> sr_region_error resp) None (convert_pair <$> sr_pairs resp))
    (kv_scan (mkScanRequest (context_of (kvrpcpb.scan_context req)) (kvrpcpb.scan_start_key req)
                (kvrpcpb.scan_limit req) (kvrpcpb.scan_version req))).

Definition prewrite_of (req : kvrpcpb.PrewriteRequest) : PrewriteRequest :=
  mkPrewriteRequest (context_of (kvrpcpb.prewrite_context req)) (convert_mutation <$> kvrpcpb.prewrite_mutations req)
    (kvrpcpb.prewrite_primary_lock req) (kvrpcpb.prewrite_start_version req) (kvrpcpb.prewrite_lock_ttl req).
Definition grpc_kv_prewrite (req : kvrpcpb.PrewriteRequest) : M Server (Status + kvrpcpb.PrewriteResponse) :=
  respond (λ resp, kvrpcpb.mkPrewriteResponse (convert_error <$> pp_region_error resp) (convert_key_error <$> pp_errors resp))
    (kv_prewrite (prewrite_of req)).

Definition grpc_kv_commit (req : kvrpcpb.CommitRequest) : M Server (Status + kvrpcpb.CommitResponse) :=
  respond (λ resp, kvrpcpb.mkCommitResponse (convert_error <$> cr_region_error resp) (convert_key_error <$> cr_error resp))
    (kv_commit (mkCommitRequest (context_of (kvrpcpb.commit_context req)) (kvrpcpb.commit_start_version req)
                  (kvrpcpb.commit_keys req) (kvrpcpb.commit_commit_version req))).
End service.

(** The generated client: a connection, the calls, and the text of a status. *)
Class TinyKvClient := {
  kc_world : Type;
  kc_connect : M kc_world (bytes + unit);
  kc_raw_get : kvrpcpb.RawGetRequest → M kc_world (Status + kvrpcpb.RawGetResponse);
  kc_raw_put : kvrpcpb.RawPutRequest → M kc_world (Status + kvrpcpb.RawPutResponse);
  kc_raw_delete : kvrpcpb.RawDeleteRequest → M kc_world (Status + kvrpcpb.RawDeleteResponse);
  kc_raw_scan : kvrpcpb.RawScanRequest → M kc_world (Status + kvrpcpb.RawScanResponse);
  kc_kv_get : kvrpcpb.GetRequest → M kc_world (Status + kvrpcpb.GetResponse);
  kc_kv_scan : kvrpcpb.ScanRequest → M kc_world (Status + kvrpcpb.ScanResponse);
  kc_kv_prewrite : kvrpcpb.PrewriteRequest → M kc_world (Status + kvrpcpb.PrewriteResponse);
  kc_kv_commit : kvrpcpb.CommitRequest → M kc_world (Status + kvrpcpb.CommitResponse);
  kc_status_text : Status → bytes;
}.

(** A client that is connected to the service. *)
Definition grpc_client `{storage : Storage} `{bound : LoopBound} `{profile : BuildProfile} (text : Status → bytes) : TinyKvClient := {|
  kc_world := Server;
  kc_connect := mret (inr tt);
  kc_raw_get := grpc_raw_get;
  kc_raw_put := grpc_raw_put;
  kc_raw_delete := grpc_raw_delete;
  kc_raw_scan := grpc_raw_scan;
  kc_kv_get := grpc_kv_get;
  kc_kv_scan := grpc_kv_scan;
  kc_kv_prewrite := grpc_kv_prewrite;
  kc_kv_commit := grpc_kv_commit;
  kc_status_text := text;
|}.

(** ** What a client can tell *)

(** The errors the handlers make: of one kind, and not empty. *)
Definition single_error (e : KeyError) : Prop :=
  (∃ i, e = KeyError_locked i) ∨ (∃ m, e = KeyError_retryable m ∧ m ≠ []) ∨ (∃ m, e = KeyError_abort m ∧ m ≠ []) ∨
  (∃ c, e = KeyError_conflict c ∧ wc_conflict_ts c ≠ 0).

(** What is left of an error on its way to a client.  Locks and messages
    arrive as they were; FINDING: of a conflict only the timestamp and the key
    of the conflicting commit arrive, neither the transaction's own start
    nor its primary key.  Two errors of different kinds, or that differ in any
    other way, can be told apart. *)
Theorem convert_key_error_exact e e' :
  single_error e → single_error e' →
  convert_key_error e = convert_key_error e' ↔
    e = e' ∨ ∃ c c', e = KeyError_conflict c ∧ e' = KeyError_conflict c' ∧
      wc_conflict_ts c = wc_conflict_ts c' ∧ wc_key c = wc_key c'.
Proof.
  intros He He'. split.
  - destruct He as [[i ->]|[(m & -> & Hm)|[(m & -> & Hm)|(c & -> & Hc)]]];
      destruct He' as [[i' ->]|[(m' & -> & Hm')|[(m' & -> & Hm')|(c' & -> & Hc')]]];
      unfold convert_key_error; cbn; intros [=]; try (by left; congruence); try congruence.
    + left. f_equal. destruct i, i'. cbn in *. congruence.
    + right. by exists c, c'.
  - intros [->|(c & c' & -> & -> & Ht & Hk)]; [done|]. unfold convert_key_error. cbn. by rewrite Ht, Hk.
Qed.

Lemma convert_key_error_exact_witness :
  let c start := KeyError_conflict (mkWriteConflict start 20 uk uk) in
  convert_key_error (c 10) = convert_key_error (c 11) ∧ c 10 ≠ c 11.
Proof.
  intros c. split; [|done]. apply convert_key_error_exact; [do 3 right; by eexists..|].
  right. by do 2 eexists.
Defined.

Section facts.
Context `{reliable : ReliableStorage} `{bound : LoopBound} `{profile : BuildProfile}.
Implicit Types (srv : Server).

Lemma respond_run {A B} (convert : A → B) (m : M Server A) srv a srv' :
  m srv = (Ok a, srv') → respond convert m srv = (Ok (inr (convert a)), srv').
Proof. intros H. unfold respond, or_status. by rewrite H. Qed.

(** Whatever epoch, peer and term a client names, the handlers see none. *)
Lemma context_epoch c region : check_region_epoch (cx_region_epoch (context_of c)) region = inl tt.
Proof. by destruct c. Qed.

(** What a reader is told. *)
Inductive reading := Found (value : bytes) | Missing | Locked (l : kvrpcpb.LockInfo).
Definition read (resp : kvrpcpb.GetResponse) : option reading :=
  match kvrpcpb.get_error resp with
  | Some e => Locked <$> kvrpcpb.locked e
  | None => Some (if kvrpcpb.get_not_found resp then Missing else Found (kvrpcpb.get_value resp))
  end.
Definition reading_of (v : option bytes) : reading := match v with Some v => Found v | None => Missing end.

Definition wire_mutation (m : kvrpcpb.Mutation) : Prop :=
  kvrpcpb.mutation_op m = 0 ∨ kvrpcpb.mutation_op m = 1.

(** The answers along a transaction. *)
Lemma grpc_transaction_run req mu srv cx cx' commit v :
  let keys := kvrpcpb.mutation_key <$> kvrpcpb.prewrite_mutations req in
  let start := kvrpcpb.prewrite_start_version req in
  server_ready keys srv →
  (size (cf_view (srv_store srv) CF_WRITE) + 2 * length keys < loop_bound)%nat →
  request_ok (prewrite_of req) → is_u64 commit → NoDup keys → mu ∈ kvrpcpb.prewrite_mutations req →
  (∀ x, x ∈ kvrpcpb.prewrite_mutations req → wire_mutation x ∧
     lock_at (cf_view (srv_store srv) CF_LOCK) (kvrpcpb.mutation_key x) = None) →
  commit ≤ v → start ≠ v →
  (∀ ts, is_u64 ts → commit < ts ≤ v →
     cf_view (srv_store srv) CF_WRITE !! encode_key (kvrpcpb.mutation_key mu) ts = None) →
  ∃ srv1 srv2,
    grpc_kv_prewrite req srv = (Ok (inr (kvrpcpb.mkPrewriteResponse None [])), srv1) ∧
    (grpc_kv_get (kvrpcpb.mkGetRequest cx (kvrpcpb.mutation_key mu) v) srv1).1
      = Ok (inr (kvrpcpb.mkGetResponse None (Some (convert_key_error (KeyError_locked
          (lock_info (prewrite_lock (prewrite_of req) (convert_op (kvrpcpb.mutation_op mu))) (kvrpcpb.mutation_key mu))))) [] false)) ∧
    grpc_kv_commit (kvrpcpb.mkCommitRequest cx' start keys commit) srv1
      = (Ok (inr (kvrpcpb.mkCommitResponse None None)), srv2) ∧
    (grpc_kv_get (kvrpcpb.mkGetRequest cx (kvrpcpb.mutation_key mu) v) srv2).1
      = Ok (inr (if kvrpcpb.mutation_op mu =? 0 then kvrpcpb.mkGetResponse None None (kvrpcpb.mutation_value mu) false
                 else kvrpcpb.mkGetResponse None None [] true)).
Proof.
  intros keys start Hr Hroom Hreq Hc Hnd Hmu Hall Hcv Hne Hnewer.
  assert (mu_key <$> pq_mutations (prewrite_of req) = keys) as Hkeys by (cbn; by rewrite <- list_fmap_compose).
  destruct (transaction_run (prewrite_of req) (convert_mutation mu) srv (context_of cx) commit v)
    as (srv1 & srv2 & H1 & H2 & H3 & H4); rewrite ?Hkeys; try done.
  - apply list_elem_of_fmap. by exists mu.
  - intros x (x' & -> & [Hop Hl]%Hall)%list_elem_of_fmap. split; [|done]. cbn. unfold convert_op.
    by destruct Hop as [-> | ->].
  - rewrite Hkeys in H3.
    assert (∀ s r, (kv_get (mkGetRequest (context_of cx) (mu_key (convert_mutation mu)) v) s).1 = Ok r →
      (grpc_kv_get (kvrpcpb.mkGetRequest cx (kvrpcpb.mutation_key mu) v) s).1
        = Ok (inr (kvrpcpb.mkGetResponse (convert_error <$> gr_region_error r) (convert_key_error <$> gr_error r)
                     (default [] (gr_value r)) (gr_not_found r)))) as Hget.
    { intros s r E. unfold grpc_kv_get. destruct (kv_get _ s) as [o s'] eqn:Ek. cbn in E. subst o.
      by rewrite (respond_run _ _ _ _ _ Ek). }
    exists srv1, srv2. split_and!.
    + unfold grpc_kv_prewrite. by rewrite (respond_run _ _ _ _ _ H1).
    + by rewrite (Hget _ _ H2).
    + assert (kv_commit (mkCommitRequest (context_of cx') start keys commit) srv1 = (Ok CommitResponse_ok, srv2)) as H3'
        by exact H3.
      unfold grpc_kv_commit. by rewrite (respond_run _ _ _ _ _ H3').
    + rewrite (Hget _ _ H4). cbn. unfold convert_op. by destruct (Hall mu Hmu) as [[-> | ->] _].
Qed.

(** A transaction over the wire.  A client that prewrites puts and deletes
    of distinct unlocked keys, commits them and reads is told of no error; a
    reader is told of the lock until the commit, and from the commit timestamp
    on reads the value put, an empty one too, or that there is none. *)
Theorem grpc_transaction req mu srv cx cx' commit v :
  let keys := kvrpcpb.mutation_key <$> kvrpcpb.prewrite_mutations req in
  let start := kvrpcpb.prewrite_start_version req in
  server_ready keys srv →
  (size (cf_view (srv_store srv) CF_WRITE) + 2 * length keys < loop_bound)%nat →
  request_ok (prewrite_of req) → is_u64 commit → NoDup keys → mu ∈ kvrpcpb.prewrite_mutations req →
  (∀ x, x ∈ kvrpcpb.prewrite_mutations req → wire_mutation x ∧
     lock_at (cf_view (srv_store srv) CF_LOCK) (kvrpcpb.mutation_key x) = None) →
  commit ≤ v → start ≠ v →
  (∀ ts, is_u64 ts → commit < ts ≤ v →
     cf_view (srv_store srv) CF_WRITE !! encode_key (kvrpcpb.mutation_key mu) ts = None) →
  ∃ srv1 srv2 before after,
    grpc_kv_prewrite req srv = (Ok (inr (kvrpcpb.mkPrewriteResponse None [])), srv1) ∧
    (grpc_kv_get (kvrpcpb.mkGetRequest cx (kvrpcpb.mutation_key mu) v) srv1).1 = Ok (inr before) ∧
    read before = Some (Locked (kvrpcpb.mkLockInfo (kvrpcpb.prewrite_primary_lock req) start (kvrpcpb.mutation_key mu)
                                  (kvrpcpb.prewrite_lock_ttl req))) ∧
    grpc_kv_commit (kvrpcpb.mkCommitRequest cx' start keys commit) srv1
      = (Ok (inr (kvrpcpb.mkCommitResponse None None)), srv2) ∧
    (grpc_kv_get (kvrpcpb.mkGetRequest cx (kvrpcpb.mutation_key mu) v) srv2).1 = Ok (inr after) ∧
    read after = Some (if kvrpcpb.mutation_op mu =? 0 then Found (kvrpcpb.mutation_value mu) else Missing).
Proof.
  intros keys start Hr Hroom Hreq Hc Hnd Hmu Hall Hcv Hne Hnewer.
  destruct (grpc_transaction_run req mu srv cx cx' commit v) as (srv1 & srv2 & H1 & H2 & H3 & H4); try done.
  eexists srv1, srv2, _, _. split_and!; [exact H1|exact H2|done|exact H3|exact H4|]. by case_match.
Qed.

(** The raw service over the wire is a map per column family: after a put
    the key reads as the value put, an empty one too, after a delete it is not
    found, and what is said of any other key or column family is as before. *)
Theorem grpc_raw_service put del srv :
  ∃ srv1 srv2,
    grpc_raw_put put srv = (Ok (inr (kvrpcpb.mkRawPutResponse None [])), srv1) ∧
    grpc_raw_delete del srv = (Ok (inr (kvrpcpb.mkRawDeleteResponse None [])), srv2) ∧
    ∀ req, ∃ r r1 r2,
      (grpc_raw_get req srv).1 = Ok (inr r) ∧ (grpc_raw_get req srv1).1 = Ok (inr r1) ∧
      (grpc_raw_get req srv2).1 = Ok (inr r2) ∧
      r1 = (if decide (kvrpcpb.rp_cf put = kvrpcpb.rg_cf req ∧ kvrpcpb.rp_key put = kvrpcpb.rg_key req)
            then kvrpcpb.mkRawGetResponse None [] (kvrpcpb.rp_value put) false else r) ∧
      r2 = (if decide (kvrpcpb.rd_cf del = kvrpcpb.rg_cf req ∧ kvrpcpb.rd_key del = kvrpcpb.rg_key req)
            then kvrpcpb.mkRawGetResponse None [] [] true else r).
Proof.
  destruct (raw_service_run
    (mkRawPutRequest (context_of (kvrpcpb.rp_context put)) (kvrpcpb.rp_key put) (kvrpcpb.rp_value put) (kvrpcpb.rp_cf put))
    (mkRawDeleteRequest (context_of (kvrpcpb.rd_context del)) (kvrpcpb.rd_key del) (kvrpcpb.rd_cf del)) srv)
    as (srv1 & srv2 & H1 & H2 & Hget).
  exists srv1, srv2. unfold grpc_raw_put, grpc_raw_delete.
  rewrite (respond_run _ _ _ _ _ H1), (respond_run _ _ _ _ _ H2). split; [done|]. split; [done|]. intros req.
  destruct (Hget (mkRawGetRequest (context_of (kvrpcpb.rg_context req)) (kvrpcpb.rg_key req) (kvrpcpb.rg_cf req)))
    as (v & G & G1 & G2).
  cbn [wp_cf wp_key wp_value wg_cf wg_key wd_cf wd_key] in G1, G2.
  set (answer v := kvrpcpb.mkRawGetResponse None [] (default [] v) (match v with Some _ => false | None => true end)).
  assert (∀ s v, (raw_get (mkRawGetRequest (context_of (kvrpcpb.rg_context req)) (kvrpcpb.rg_key req) (kvrpcpb.rg_cf req)) s).1
      = Ok (RawGetResponse_ok v) → (grpc_raw_get req s).1 = Ok (inr (answer v))) as Hans.
  { intros s v' E. unfold grpc_raw_get. destruct (raw_get _ s) as [o s'] eqn:Ek. cbn in E. subst o.
    rewrite (respond_run _ _ _ _ _ Ek). by destruct v'. }
  eexists _, _, _. split; [by apply Hans|]. split; [by apply Hans|]. split; [by apply Hans|].
  split; repeat case_decide; tauto || done.
Qed.

(** FINDING: the protocol's [Rollback], which the handler refuses, is taken for
    a put: the key is locked, and at the commit it gets the mutation's value,
    which for a rollback is empty. *)
Theorem rollback_becomes_put cx key primary start ttl srv :
  server_ready [key] srv → lock_at (cf_view (srv_store srv) CF_LOCK) key = None →
  let req := kvrpcpb.mkPrewriteRequest cx [kvrpcpb.mkMutation 2 key []] primary start ttl in
  let direct := mkPrewriteRequest (context_of cx) [mkMutation OpRollback key []] primary start ttl in
  (∃ srv', grpc_kv_prewrite req srv = (Ok (inr (kvrpcpb.mkPrewriteResponse None [])), srv') ∧
     cf_view (srv_store srv') CF_DEFAULT !! encode_key key start = Some []) ∧
  (kv_prewrite direct srv).1 = Ok (mkPrewriteResponse None [KeyError_abort (str_bytes "unsupported operation: Rollback")]).
Proof.
  intros Hr Hl req direct. split.
  - destruct (prewrite_run (prewrite_of req) srv Hr) as (srv' & H & Hs). cbn in H, Hs.
    unfold prewrite_error in H, Hs. cbn in H, Hs. rewrite Hl in H, Hs. cbn in H, Hs.
    exists srv'. unfold grpc_kv_prewrite. rewrite (respond_run _ _ _ _ _ H). split; [done|].
    rewrite (proj1 Hs), decide_True by done. cbn [foldl apply_modify].
    rewrite (decide_True (P := CF_DEFAULT = CF_DEFAULT)), decide_False by done. apply lookup_insert_eq.
  - destruct (prewrite_run direct srv Hr) as (srv' & H & _). cbn in H. unfold prewrite_error in H. cbn in H.
    rewrite Hl in H. cbn in H. by rewrite H.
Qed.
End facts.

(** ** Concrete calls *)

Section samples.
#[local] Existing Instance map_storage.
#[local] Existing Instance map_storage_laws.
#[local] Existing Instance map_storage_reliable.
#[local] Existing Instance sample_bound.
#[local] Instance grpc_profile : BuildProfile := true.

(** A client that names region 1 and the epoch it knows. *)
Definition wire_context : kvrpcpb.Context := kvrpcpb.mkContext 1 (Some (mkRegionEpoch 1 1)) None 0.
Definition wire_prewrite : kvrpcpb.PrewriteRequest :=
  kvrpcpb.mkPrewriteRequest (Some wire_context) [kvrpcpb.mkMutation 0 uk []] uk 12 3.

Lemma grpc_transaction_witness :
  ∃ srv1 srv2 after,
    grpc_kv_prewrite wire_prewrite written_srv = (Ok (inr (kvrpcpb.mkPrewriteResponse None [])), srv1) ∧
    grpc_kv_commit (kvrpcpb.mkCommitRequest None 12 [uk] 20) srv1 = (Ok (inr (kvrpcpb.mkCommitResponse None None)), srv2) ∧
    (grpc_kv_get (kvrpcpb.mkGetRequest None uk 21) srv2).1 = Ok (inr after) ∧ read after = Some (Found []).
Proof.
  destruct (grpc_transaction wire_prewrite (kvrpcpb.mkMutation 0 uk []) written_srv None None 20 21 (written_ready _))
    as (srv1 & srv2 & before & after & H1 & _ & _ & H2 & H3 & H4).
  - vm_compute. lia.
  - split_and!; [done|by split; vm_compute|by split; vm_compute].
  - by split; vm_compute.
  - apply NoDup_singleton.
  - by left.
  - intros x [->|[]%elem_of_nil]%elem_of_cons. split; [by left|done].
  - lia.
  - done.
  - intros ts _ Hts. assert (ts = 21) as -> by lia. reflexivity.
  - exists srv1, srv2, after. split_and!; [exact H1|exact H2|exact H3|exact H4].
Defined.

Lemma rollback_becomes_put_witness :
  (kv_prewrite (mkPrewriteRequest (context_of None) [mkMutation OpRollback uk []] uk 12 3) empty_srv).1
    = Ok (mkPrewriteResponse None [KeyError_abort (str_bytes "unsupported operation: Rollback")]).
Proof. apply (rollback_becomes_put None uk uk 12 3 empty_srv (empty_ready _)). done. Defined.
End samples.
