(* ===== verification/Wal.v ===== *)
(** The log of src/engine_util/wal.rs: numbered entries that wait in memory
    until they are flushed, and the two checks of the same file.

    RocksDB's own write-ahead log, which a flush forces to the disk, is outside
    of src/: what the two databases answer to a flush is a parameter. *)

From S2P Require Import Prelude Bytes.

Inductive WalEntryType := KvWrite | RaftLog | RegionState | ApplyState.

Record WalEntry := mkWalEntry {
  we_entry_type : WalEntryType;
  we_sequence : Z;
  we_data : bytes;
  we_timestamp : Z;
}.

Record WalManager := mkWalManager { wm_sequence : Z; wm_pending_entries : list WalEntry }.

Section wal.
Context `{prof : BuildProfile}.

Definition WalManager_new : WalManager := mkWalManager 0 [].

(** [now]: the clock, in seconds; a clock before the epoch panics. *)
Definition add_entry (now : option Z) (entry_type : WalEntryType) (data : bytes) : M WalManager Z :=
  wal ← get;
  let sequence := wm_sequence wal in
  next ← lift (u64_add sequence 1);
  modify (λ wal, mkWalManager next (wm_pending_entries wal));;
  timestamp ← lift (match now with Some t => Ok t | None => Panic end);
  modify (λ wal, mkWalManager (wm_sequence wal)
    (wm_pending_entries wal ++ [mkWalEntry entry_type sequence data timestamp]));;
  mret sequence.

(** [Engines::flush_wal] of src/engine_util/engines.rs, on the answers of the
    key-value and, where there is one, of the Raft database. *)
Definition flush_wal (kv : outcome unit) (raft : option (outcome unit)) : outcome unit :=
  _ ← kv; match raft with Some raft => raft | None => Ok tt end.

Definition flush (kv : outcome unit) (raft : option (outcome unit)) : M WalManager unit :=
  wal ← get;
  match wm_pending_entries wal with
  | [] => mret tt
  | _ =>
      lift (flush_wal kv raft);;
      modify (λ wal, mkWalManager (wm_sequence wal) [])
  end.

Definition pending_count (wal : WalManager) : nat := length (wm_pending_entries wal).
Definition reset_sequence (wal : WalManager) : WalManager := mkWalManager 0 (wm_pending_entries wal).

(** Two iterators are opened, and neither is read: nothing can fail. *)
Definition verify_data_consistency : outcome bool := Ok true.
Definition check_wal_integrity (kv : outcome unit) (raft : option (outcome unit)) : outcome bool :=
  _ ← flush_wal kv raft; Ok true.

(** ** Runs of the log *)

Inductive operation :=
| Add (now : option Z) (entry_type : WalEntryType) (data : bytes)
| Flush (kv : outcome unit) (raft : option (outcome unit)).

Definition operate (wal : WalManager) (op : operation) : WalManager :=
  match op with
  | Add now t data => (add_entry now t data wal).2
  | Flush kv raft => (flush kv raft wal).2
  end.

(** What was added, numbered from 0. *)
Definition added (ops : list operation) : list (Z * WalEntryType * bytes) :=
  omap (λ op, match op with Add (Some t) ty data => Some (t, ty, data) | _ => None end) ops.
Definition numbered (l : list (Z * WalEntryType * bytes)) : list WalEntry :=
  imap (λ i '(t, ty, data), mkWalEntry ty (Z.of_nat i) data t) l.

(** How many entries there were at the last flush that succeeded: [n] are there
    now, [mark] were there at the last one. *)
Fixpoint flushed (n mark : nat) (ops : list operation) : nat :=
  match ops with
  | [] => mark
  | Add (Some _) _ _ :: ops => flushed (S n) mark ops
  | Add None _ _ :: ops => flushed n mark ops
  | Flush kv raft :: ops => flushed n (match flush_wal kv raft with Ok _ => n | _ => mark end) ops
  end.

(** No clock stands before the epoch. *)
Definition clocked (op : operation) : Prop := match op with Add now _ _ => is_Some now | Flush _ _ => True end.

Lemma add_entry_run t0 t data wal :
  0 ≤ wm_sequence wal < u64_max →
  add_entry (Some t0) t data wal =
    (Ok (wm_sequence wal), mkWalManager (wm_sequence wal + 1) (wm_pending_entries wal ++ [mkWalEntry t (wm_sequence wal) data t0])).
Proof.
  intros Hs. unfold add_entry. rewrite (M_bind_run get _ _ _ _ eq_refl). cbv beta zeta.
  rewrite u64_add_ok by (unfold is_u64; lia). done.
Qed.
Lemma flush_run kv raft wal :
  (flush kv raft wal).2 = match flush_wal kv raft with Ok _ => mkWalManager (wm_sequence wal) [] | _ => wal end.
Proof.
  unfold flush. rewrite (M_bind_run get _ _ _ _ eq_refl). cbv beta. generalize (flush_wal kv raft). intros answer.
  destruct wal as [n [|e es]]; by destruct answer.
Qed.

Lemma numbered_snoc l x :
  numbered (l ++ [x]) = numbered l ++ [mkWalEntry x.1.2 (Z.of_nat (length l)) x.2 x.1.1].
Proof. unfold numbered. rewrite imap_app. destruct x as [[]]. cbn. by rewrite Nat.add_0_r. Qed.
Lemma length_numbered l : length (numbered l) = length l.
Proof. apply length_imap. Qed.

Lemma operations_run ops l mark :
  Forall clocked ops → (mark ≤ length l)%nat → Z.of_nat (length (l ++ added ops)) ≤ u64_max →
  foldl operate (mkWalManager (Z.of_nat (length l)) (drop mark (numbered l))) ops =
    mkWalManager (Z.of_nat (length (l ++ added ops))) (drop (flushed (length l) mark ops) (numbered (l ++ added ops))).
Proof.
  revert l mark. induction ops as [|op ops IH]; intros l mark Hc Hm Hlen; [cbn; by rewrite app_nil_r|].
  apply Forall_cons in Hc as [Hop Hc]. destruct op as [[t|] ty data|kv raft]; [|by destruct Hop|].
  - assert (l ++ added (Add (Some t) ty data :: ops) = (l ++ [(t, ty, data)]) ++ added ops) as E by (by rewrite <- app_assoc).
    rewrite E in *. cbn [foldl operate flushed]. rewrite add_entry_run; cbn [snd wm_sequence wm_pending_entries].
    + pose proof (IH (l ++ [(t, ty, data)]) mark Hc) as IH'.
      rewrite numbered_snoc, drop_app_le in IH' by (by rewrite length_numbered).
      rewrite (length_app l) in IH'. cbn [length] in IH'. rewrite Nat.add_1_r in IH'.
      replace (Z.of_nat (length l) + 1) with (Z.of_nat (S (length l))) by lia. apply IH'; [lia|done].
    + rewrite !length_app in Hlen. cbn in Hlen. lia.
  - cbn [foldl operate flushed]. rewrite flush_run. destruct (flush_wal kv raft); try by apply IH.
    cbn [wm_sequence]. rewrite <- (drop_ge (numbered l) (length l)) by (by rewrite length_numbered). by apply IH.
Qed.

Lemma new_run ops :
  Forall clocked ops → Z.of_nat (length (added ops)) ≤ u64_max →
  foldl operate WalManager_new ops =
    mkWalManager (Z.of_nat (length (added ops))) (drop (flushed 0 0 ops) (numbered (added ops))).
Proof. intros Hc Hl. by apply (operations_run ops [] 0). Qed.

(** What the log holds.  However adding and flushing alternate, the entries
    added since the last flush that succeeded wait, in their order and under
    consecutive numbers from 0 on that no two entries share; a flush that
    fails keeps them.  FINDING: a flush that succeeds drops them, and nothing
    of them has gone anywhere: the engines are told to flush what they hold,
    and the entries are not part of it. *)
Theorem wal_exact ops :
  Forall clocked ops → Z.of_nat (length (added ops)) ≤ u64_max →
  let wal := foldl operate WalManager_new ops in
  wm_sequence wal = Z.of_nat (length (added ops)) ∧
  wm_pending_entries wal = drop (flushed 0 0 ops) (numbered (added ops)) ∧
  pending_count (foldl operate WalManager_new (ops ++ [Flush (Ok tt) None])) = 0%nat.
Proof.
  intros Hc Hl wal. unfold wal. rewrite foldl_app, new_run by done. split_and!; [done|done|].
  cbn [foldl operate]. by rewrite flush_run.
Qed.

Lemma wal_exact_witness :
  let ops := [Add (Some 7) KvWrite [Byte.x01]; Flush (Ok tt) (Some (Ok tt)); Add (Some 8) RaftLog [Byte.x02]; Flush (Ok tt) (Some (Err "io"))] in
  wm_pending_entries (foldl operate WalManager_new ops) = [mkWalEntry RaftLog 1 [Byte.x02] 8].
Proof.
  intros ops. destruct (wal_exact ops) as (_ & -> & _); [|by vm_compute|done].
  unfold ops. rewrite !Forall_cons, Forall_nil. by split_and!; try eexists.
Defined.
End wal.
