(* ===== verification/Ingest.v ===== *)
(** The ingestion service of src/bin/ingest_http.rs: a client of the gRPC
    service with an HTTP interface, which keeps a window of events, counts
    operations, executes single operations, reads the databases of the storage
    tiers and copies them to Redis.

    Sockets, clocks, random numbers, JSON and the generation of sample data are
    outside of the model: an operation takes what they give.  A [String] is its
    UTF-8 bytes. *)

From S2P Require Import Prelude Bytes Codec Records Engine Storage Latches Proto MvccTxn Server RawApi TransactionApi Grpc.

(** ** The state *)

Record Metrics := mkMetrics {
  mt_put : Z; mt_get : Z; mt_del : Z; mt_err : Z; mt_put_txn : Z; mt_put_account : Z; mt_put_quote : Z }.
Definition Metrics_default : Metrics := mkMetrics 0 0 0 0 0 0 0.

Record Event := mkEvent {
  ev_ts : Z; ev_op : string; ev_key : bytes; ev_ok : bool; ev_ms : Z; ev_err : option bytes;
  ev_kind : option string; ev_sample : option bytes }.

Record MigrationProgress := mkProgress {
  mg_total : Z; mg_migrated : Z; mg_failed : Z; mg_status : string; mg_error : option bytes }.

Record AppState := mkAppState {
  ap_running : bool; ap_events : list Event; ap_metrics : Metrics; ap_migration_progress : MigrationProgress }.
Definition AppState_new : AppState :=
  mkAppState false [] Metrics_default (mkProgress 0 0 0 "" None).

Definition set_running (b : bool) (s : AppState) : AppState :=
  mkAppState b (ap_events s) (ap_metrics s) (ap_migration_progress s).
Definition set_events (l : list Event) (s : AppState) : AppState :=
  mkAppState (ap_running s) l (ap_metrics s) (ap_migration_progress s).
Definition set_metrics (m : Metrics) (s : AppState) : AppState :=
  mkAppState (ap_running s) (ap_events s) m (ap_migration_progress s).
Definition set_progress (p : MigrationProgress) (s : AppState) : AppState :=
  mkAppState (ap_running s) (ap_events s) (ap_metrics s) p.

Inductive FinanceKind := Txn | Account | Quote.
Definition FinanceKind_parse (s : string) : FinanceKind :=
  if String.eqb s "account" then Account else if String.eqb s "quote" then Quote else Txn.
Definition kind_tag (k : FinanceKind) : string :=
  match k with Txn => "txn" | Account => "account" | Quote => "quote" end.

(** ** Events and metrics *)

(** [&s[..max_len]]: a slice that ends inside a character panics. *)
Definition is_char_boundary (s : bytes) (n : nat) : bool :=
  match s !! n with Some b => negb (is_cont b) | None => (n =? length s)%nat end.
Definition truncate_for_event (s : bytes) (max_len : nat) : outcome bytes :=
  if (length s <=? max_len)%nat then Ok s
  else if is_char_boundary s max_len then Ok (take max_len s) else Panic.

(** [q.push_front(e); while q.len() > 200 { q.pop_back(); }] *)
Definition push_event (e : Event) (l : list Event) : list Event := take 200 (e :: l).

Section metrics.
Context `{prof : BuildProfile}.

Definition count_op (op : string) (m : Metrics) : outcome Metrics :=
  if String.eqb op "put" then
    n ← u64_add (mt_put m) 1;
    Ok (mkMetrics n (mt_get m) (mt_del m) (mt_err m) (mt_put_txn m) (mt_put_account m) (mt_put_quote m))
  else if String.eqb op "get" then
    n ← u64_add (mt_get m) 1;
    Ok (mkMetrics (mt_put m) n (mt_del m) (mt_err m) (mt_put_txn m) (mt_put_account m) (mt_put_quote m))
  else if String.eqb op "del" then
    n ← u64_add (mt_del m) 1;
    Ok (mkMetrics (mt_put m) (mt_get m) n (mt_err m) (mt_put_txn m) (mt_put_account m) (mt_put_quote m))
  else Ok m.
Definition count_kind (op : string) (kind : option string) (m : Metrics) : outcome Metrics :=
  if String.eqb op "put" then
    match kind with
    | Some k =>
        if String.eqb k "txn" then
          n ← u64_add (mt_put_txn m) 1;
          Ok (mkMetrics (mt_put m) (mt_get m) (mt_del m) (mt_err m) n (mt_put_account m) (mt_put_quote m))
        else if String.eqb k "account" then
          n ← u64_add (mt_put_account m) 1;
          Ok (mkMetrics (mt_put m) (mt_get m) (mt_del m) (mt_err m) (mt_put_txn m) n (mt_put_quote m))
        else if String.eqb k "quote" then
          n ← u64_add (mt_put_quote m) 1;
          Ok (mkMetrics (mt_put m) (mt_get m) (mt_del m) (mt_err m) (mt_put_txn m) (mt_put_account m) n)
        else Ok m
    | None => Ok m
    end
  else Ok m.
Definition count_err (ok : bool) (m : Metrics) : outcome Metrics :=
  if ok then Ok m
  else n ← u64_add (mt_err m) 1;
       Ok (mkMetrics (mt_put m) (mt_get m) (mt_del m) n (mt_put_txn m) (mt_put_account m) (mt_put_quote m)).

Definition record (ts : Z) (op : string) (key : bytes) (ok : bool) (ms : Z) (err : option bytes)
    (kind : option string) (sample : option bytes) : M AppState unit :=
  modify (λ s, set_events (push_event (mkEvent ts op key ok ms err kind sample) (ap_events s)) s);;
  s ← get;
  m ← lift (m ← count_op op (ap_metrics s); m ← count_kind op kind m; count_err ok m);
  modify (set_metrics m).

Definition record_err (ts : Z) (op : string) (key msg : bytes) : M AppState unit :=
  modify (λ s, set_events (push_event (mkEvent ts op key false 0 (Some msg) None None) (ap_events s)) s);;
  s ← get;
  m ← lift (count_err false (ap_metrics s));
  modify (set_metrics m).
End metrics.

(** ** Single operations *)

Record KvOperation := mkKvOperation { ko_op : string; ko_cf : option string; ko_key : bytes; ko_value : option bytes }.
Record KvResponse := mkKvResponse { kr_success : bool; kr_message : bytes; kr_data : option bytes }.

Section client.
Context `{prof : BuildProfile} `{client : TinyKvClient}.

(** The service and the world of its client. *)
Definition on_kv {A} (m : M kc_world A) : M (kc_world * AppState) A := λ '(w, s),
  let '(o, w') := m w in (o, (w', s)).
Definition on_app {A} (m : M AppState A) : M (kc_world * AppState) A := λ '(w, s),
  let '(o, s') := m s in (o, (w, s')).

Lemma on_kv_run {A} (m : M kc_world A) w s o w' : m w = (o, w') → on_kv m (w, s) = (o, (w', s)).
Proof. intros H. unfold on_kv. by rewrite H. Qed.
Lemma on_app_run {A} (m : M AppState A) (w : kc_world) s o s' : m s = (o, s') → on_app m (w, s) = (o, (w, s')).
Proof. intros H. unfold on_app. by rewrite H. Qed.

Definition region_context : option kvrpcpb.Context := Some (kvrpcpb.mkContext 1 None None 0).

(** [ts] and [ms]: the clock. *)
Definition execute_put (ts ms : Z) (cf : string) (key : bytes) (value : option bytes) : M (kc_world * AppState) KvResponse :=
  match value with
  | Some value =>
      res ← on_kv (kc_raw_put (kvrpcpb.mkRawPutRequest region_context key value cf));
      match res with
      | inr _ =>
          sample ← lift (truncate_for_event value 200);
          on_app (record ts "put" key true ms None None (Some sample));;
          mret (mkKvResponse true (str_bytes "PUT 操作成功") None)
      | inl err =>
          on_app (record_err ts "put" key (kc_status_text err));;
          mret (mkKvResponse false (str_bytes "PUT 操作失败: " ++ kc_status_text err) None)
      end
  | None => mret (mkKvResponse false (str_bytes "PUT 操作需要提供 value 参数") None)
  end.

Definition execute_get (ts ms : Z) (cf : string) (key : bytes) : M (kc_world * AppState) KvResponse :=
  res ← on_kv (kc_raw_get (kvrpcpb.mkRawGetRequest region_context key cf));
  match res with
  | inr resp =>
      let value := if kvrpcpb.rg_not_found resp then str_bytes "null" else from_utf8_lossy (kvrpcpb.rg_value resp) in
      sample ← lift (truncate_for_event value 200);
      on_app (record ts "get" key true ms None None (Some sample));;
      mret (mkKvResponse true (str_bytes "GET 操作成功") (Some value))
  | inl e =>
      on_app (record_err ts "get" key (kc_status_text e));;
      mret (mkKvResponse false (str_bytes "GET 操作失败: " ++ kc_status_text e) None)
  end.

Definition execute_delete (ts ms : Z) (cf : string) (key : bytes) : M (kc_world * AppState) KvResponse :=
  res ← on_kv (kc_raw_delete (kvrpcpb.mkRawDeleteRequest region_context key cf));
  match res with
  | inr _ =>
      on_app (record ts "del" key true ms None None None);;
      mret (mkKvResponse true (str_bytes "DELETE 操作成功") None)
  | inl err =>
      on_app (record_err ts "del" key (kc_status_text err));;
      mret (mkKvResponse false (str_bytes "DELETE 操作失败: " ++ kc_status_text err) None)
  end.

Definition execute_kv_operation (ts ms : Z) (body : KvOperation) : M (kc_world * AppState) KvResponse :=
  let cf := default "default" (ko_cf body) in
  conn ← on_kv kc_connect;
  match conn with
  | inl e => mret (mkKvResponse false (str_bytes "连接失败: " ++ e) None)
  | inr _ =>
      if String.eqb (ko_op body) "put" then execute_put ts ms cf (ko_key body) (ko_value body)
      else if String.eqb (ko_op body) "get" then execute_get ts ms cf (ko_key body)
      else if String.eqb (ko_op body) "delete" then execute_delete ts ms cf (ko_key body)
      else mret (mkKvResponse false (str_bytes "不支持的操作类型: " ++ str_bytes (ko_op body)) None)
  end.
End client.

(** ** The worker *)

(** One generated pair, with what the dice say: whether it is read and deleted
    again, and of each call the time and how long it took. *)
Record Item := mkItem { it_key : bytes; it_value : bytes; it_get : bool; it_del : bool; it_put_clock : Z * Z; it_get_clock : Z * Z; it_del_clock : Z * Z }.

Section worker.
Context `{prof : BuildProfile} `{client : TinyKvClient}.

(** [std::str::from_utf8(&val)]: the text of valid UTF-8. *)
Definition from_utf8 (v : bytes) : option bytes := if decide (from_utf8_lossy v = v) then Some v else None.
Definition sample_of (v : bytes) : outcome (option bytes) :=
  match from_utf8 v with Some s => s ← truncate_for_event s 200; Ok (Some s) | None => Ok None end.

(** How a call is recorded. *)
Definition record_call {A} (clock : Z * Z) (op : string) (key : bytes) (kind : string) (sample : option bytes)
    (res : Status + A) : M AppState unit :=
  match res with
  | inr _ => record clock.1 op key true clock.2 None (Some kind) sample
  | inl err => record clock.1 op key false clock.2 (Some (kc_status_text err)) (Some kind) sample
  end.

Definition worker_put (kind : FinanceKind) (i : Item) (sample : option bytes) : M (kc_world * AppState) unit :=
  res ← on_kv (kc_raw_put (kvrpcpb.mkRawPutRequest region_context (it_key i) (it_value i) "default"));
  on_app (record_call (it_put_clock i) "put" (it_key i) (kind_tag kind) sample res).
Definition worker_get (kind : FinanceKind) (i : Item) : M (kc_world * AppState) unit :=
  gr ← on_kv (kc_raw_get (kvrpcpb.mkRawGetRequest region_context (it_key i) "default"));
  on_app (record_call (it_get_clock i) "get" (it_key i) (kind_tag kind) None gr).
Definition worker_delete (kind : FinanceKind) (i : Item) : M (kc_world * AppState) unit :=
  dr ← on_kv (kc_raw_delete (kvrpcpb.mkRawDeleteRequest region_context (it_key i) "default"));
  on_app (record_call (it_del_clock i) "del" (it_key i) (kind_tag kind) None dr).
Definition worker_turn (kind : FinanceKind) (i : Item) : M (kc_world * AppState) unit :=
  sample ← lift (sample_of (it_value i));
  worker_put kind i sample;;
  (if it_get i then worker_get kind i else mret tt);;
  if it_del i then worker_delete kind i else mret tt.

(** [for i in 0..count { if !running { break; } .. }] *)
Fixpoint worker_loop (kind : FinanceKind) (items : list Item) : M (kc_world * AppState) unit :=
  match items with
  | [] => mret tt
  | i :: items =>
      s ← get;
      if ap_running s.2 then worker_turn kind i;; worker_loop kind items else mret tt
  end.

Definition worker (ts : Z) (kind : FinanceKind) (prefix : bytes) (items : list Item) : M (kc_world * AppState) unit :=
  conn ← on_kv kc_connect;
  match conn with
  | inl e => on_app (record_err ts "connect" [] e);; on_app (modify (set_running false))
  | inr _ =>
      worker_loop kind items;;
      on_kv (kc_raw_scan (kvrpcpb.mkRawScanRequest region_context prefix 10 "default"));;
      on_app (modify (set_running false))
  end.
End worker.

(** What [start] does before the worker runs, and what it answers; what [stop]
    leaves (it also aborts the worker). *)
Definition start_ingest (s : AppState) : string * AppState :=
  if ap_running s then ("already running"%string, s)
  else ("started"%string, set_events [] (set_metrics Metrics_default (set_running true s))).
Definition stop_ingest (s : AppState) : AppState := set_running false s.

(** ** Copying the tiers *)

Record TierEntry := mkTierEntry { te_cf : bytes; te_key : bytes; te_value : bytes }.
Record TierSnapshot := mkTierSnapshot { ts_hot : list TierEntry; ts_warm : list TierEntry; ts_cold : list TierEntry }.

(** [raw_key.iter().position(|b| *b == b'_')]: the column family is what stands
    before the first underscore. *)
Fixpoint split_at_underscore (k : bytes) : option (bytes * bytes) :=
  match k with
  | [] => None
  | b :: k' =>
      if decide (b = Byte.x5f) then Some ([], k')
      else match split_at_underscore k' with Some (cf, key) => Some (b :: cf, key) | None => None end
  end.
Definition TierEntry_from_raw (raw_key raw_value : bytes) : TierEntry :=
  let '(cf, key) :=
    match split_at_underscore raw_key with
    | Some (cf, key) => (from_utf8_lossy cf, from_utf8_lossy key)
    | None => (str_bytes "default", from_utf8_lossy raw_key)
    end in
  mkTierEntry cf key (from_utf8_lossy raw_value).

(** A tier whose directory does not exist has no rows; otherwise its database
    may fail to open, or any of its rows to be read. *)
Definition read_tier (db : option (outcome (list (outcome (bytes * bytes))))) : outcome (list TierEntry) :=
  match db with
  | None => Ok []
  | Some db => rows ← db; foldr (λ row acc, '(k, v) ← row; acc ← acc; Ok (TierEntry_from_raw k v :: acc)) (Ok []) rows
  end.
Definition collect (hot warm cold : option (outcome (list (outcome (bytes * bytes))))) : outcome TierSnapshot :=
  hot ← read_tier hot; warm ← read_tier warm; cold ← read_tier cold; Ok (mkTierSnapshot hot warm cold).

(** The client of Redis: opening the URL, the connection, and [SET]. *)
Class Redis := {
  rd_world : Type;
  rd_open : string → bytes + unit;
  rd_connect : M rd_world (bytes + unit);
  rd_set : bytes → bytes → M rd_world (bytes + unit);
  rd_view : rd_world → gmap bytes bytes;
}.
(** A command that succeeds sets its key, one that fails sets nothing. *)
Class RedisLaws `(redis : Redis) := {
  rd_connect_view : ∀ w, ∃ r w', rd_connect w = (Ok r, w') ∧ rd_view w' = rd_view w;
  rd_set_view : ∀ k v w, ∃ r w', rd_set k v w = (Ok r, w') ∧
    rd_view w' = match r with inr _ => <[k := v]> (rd_view w) | inl _ => rd_view w end;
}.

Section migration.
Context `{prof : BuildProfile} `{redis : Redis}.

Definition on_redis {A} (m : M rd_world A) : M (rd_world * MigrationProgress) A := λ '(w, p),
  let '(o, w') := m w in (o, (w', p)).
Definition on_progress (f : MigrationProgress → outcome MigrationProgress) : M (rd_world * MigrationProgress) unit :=
  λ '(w, p), match f p with
             | Ok p' => (Ok tt, (w, p'))
             | Err e => (Err e, (w, p))
             | Panic => (Panic, (w, p))
             | Diverge => (Diverge, (w, p))
             end.

Definition redis_key (e : TierEntry) : bytes :=
  if decide (te_cf e = str_bytes "default") then te_key e else te_cf e ++ str_bytes ":" ++ te_key e.
Definition all_entries (s : TierSnapshot) : list TierEntry := ts_hot s ++ ts_warm s ++ ts_cold s.
Definition entries_to_migrate (prefix_filter : option bytes) (s : TierSnapshot) : list TierEntry :=
  match prefix_filter with
  | Some prefix => base.filter (λ e, prefix `prefix_of` te_key e) (all_entries s)
  | None => all_entries s
  end.

Definition set_total (n : nat) (p : MigrationProgress) : outcome MigrationProgress :=
  Ok (mkProgress (Z.of_nat n) (mg_migrated p) (mg_failed p) (mg_status p) (mg_error p)).
Definition migrate_entry (e : TierEntry) : M (rd_world * MigrationProgress) unit :=
  r ← on_redis (rd_set (redis_key e) (te_value e));
  match r with
  | inr _ => on_progress (λ p, n ← u64_add (mg_migrated p) 1;
                               Ok (mkProgress (mg_total p) n (mg_failed p) (mg_status p) (mg_error p)))
  | inl _ => on_progress (λ p, n ← u64_add (mg_failed p) 1;
                               Ok (mkProgress (mg_total p) (mg_migrated p) n (mg_status p) (mg_error p)))
  end.

(** The error is the text of the task's error, which is not a string literal. *)
Definition migrate_to_redis (url : string) (prefix_filter : option bytes) (snapshot : outcome TierSnapshot)
  : M (rd_world * MigrationProgress) (bytes + unit) :=
  match rd_open url with
  | inl e => mret (inl (str_bytes "Redis 连接失败: " ++ e))
  | inr _ =>
      c ← on_redis rd_connect;
      match c with
      | inl e => mret (inl (str_bytes "Redis 异步连接失败: " ++ e))
      | inr _ =>
          match snapshot with
          | Err e => mret (inl (str_bytes e))
          | Ok snapshot =>
              on_progress (set_total (length (ts_hot snapshot) + length (ts_warm snapshot) + length (ts_cold snapshot)));;
              let entries := entries_to_migrate prefix_filter snapshot in
              on_progress (set_total (length entries));;
              for_each entries migrate_entry;;
              mret (inr tt)
          | Panic => lift Panic
          | Diverge => lift Diverge
          end
      end
  end.

(** The task of a migration, and the request that starts it. *)
Definition migration_task (url : string) (prefix_filter : option bytes) (snapshot : outcome TierSnapshot)
  : M (rd_world * MigrationProgress) unit :=
  r ← migrate_to_redis url prefix_filter snapshot;
  on_progress (λ p, Ok (match r with
    | inl e => mkProgress (mg_total p) (mg_migrated p) (mg_failed p) "error" (Some e)
    | inr _ => mkProgress (mg_total p) (mg_migrated p) (mg_failed p) "completed" (mg_error p)
    end)).
Definition start_migration (p : MigrationProgress) : (bool * string) * MigrationProgress :=
  if String.eqb (mg_status p) "running" then ((false, "迁移任务已在运行中"%string), p)
  else ((true, "迁移任务已启动"%string), mkProgress 0 0 0 "running" None).
End migration.

(** ** What the migration leaves *)

Section migration_facts.
Context `{prof : BuildProfile} `{laws : RedisLaws}.

(** The last of the entries with a key decides its value. *)
Definition put_entries (entries : list TierEntry) (m : gmap bytes bytes) : gmap bytes bytes :=
  foldl (λ m e, <[redis_key e := te_value e]> m) m entries.

Lemma migrate_entry_run e w p :
  is_u64 (mg_migrated p + 1) → is_u64 (mg_failed p + 1) →
  ∃ w' (ok : bool), migrate_entry e (w, p) =
      (Ok tt, (w', mkProgress (mg_total p) (mg_migrated p + (if ok then 1 else 0)) (mg_failed p + (if ok then 0 else 1))
                     (mg_status p) (mg_error p))) ∧
    rd_view w' = put_entries (if ok then [e] else []) (rd_view w).
Proof.
  intros Hm Hf. destruct (rd_set_view (redis_key e) (te_value e) w) as ([er|[]] & w' & Hset & Hv).
  - exists w', false. split; [|done]. unfold migrate_entry, on_redis, mbind, M_bind. cbn. rewrite Hset.
    unfold on_progress. rewrite u64_add_ok by done. cbn. by rewrite Z.add_0_r.
  - exists w', true. split; [|done]. unfold migrate_entry, on_redis, mbind, M_bind. cbn. rewrite Hset.
    unfold on_progress. rewrite u64_add_ok by done. cbn. by rewrite Z.add_0_r.
Qed.

Lemma migrate_entries_run entries w p :
  0 ≤ mg_migrated p → 0 ≤ mg_failed p →
  mg_migrated p + mg_failed p + Z.of_nat (length entries) ≤ u64_max →
  ∃ w' accepted, accepted `sublist_of` entries ∧
    for_each entries migrate_entry (w, p) =
      (Ok tt, (w', mkProgress (mg_total p) (mg_migrated p + Z.of_nat (length accepted))
                     (mg_failed p + Z.of_nat (length entries - length accepted)) (mg_status p) (mg_error p))) ∧
    rd_view w' = put_entries accepted (rd_view w).
Proof.
  revert w p. induction entries as [|e entries IH]; intros w p Hm Hf Hfit.
  { exists w, []. split; [done|]. split; [|done]. cbn. rewrite !Z.add_0_r. by destruct p. }
  cbn [length] in Hfit.
  destruct (migrate_entry_run e w p) as (w1 & ok & E & Hv1); [unfold is_u64; lia..|].
  set (p1 := mkProgress _ _ _ _ _) in E.
  destruct (IH w1 p1) as (w' & acc & Hsub & E' & Hv'); [unfold p1; destruct ok; cbn; lia..|].
  exists w', (if ok then e :: acc else acc). split; [by destruct ok; constructor|].
  pose proof (sublist_length _ _ Hsub). split.
  - cbn [for_each]. rewrite (M_bind_run _ _ _ _ _ E), E'. unfold p1. cbn [mg_total mg_migrated mg_failed mg_status mg_error].
    do 3 f_equal; destruct ok; cbn [length]; lia.
  - rewrite Hv', Hv1. by destruct ok.
Qed.

Lemma lookup_put_entries entries m k :
  put_entries entries m !! k =
    match last (filter (λ e, redis_key e = k) entries) with Some e => Some (te_value e) | None => m !! k end.
Proof.
  induction entries as [|e entries IH] using rev_ind; [done|].
  unfold put_entries in *. rewrite foldl_app. cbn [foldl]. rewrite filter_app, filter_cons, filter_nil.
  case_decide as Hk.
  - rewrite last_snoc, <- Hk. apply lookup_insert_eq.
  - by rewrite app_nil_r, lookup_insert_ne.
Qed.

(** C34: A migration that reaches Redis ends as completed, whatever Redis
    refuses: every entry chosen is counted as migrated or as failed, and Redis
    holds, for every key, the value of the last entry with it that was
    accepted, in the order hot, warm, cold.  FINDING: a key that is in two
    tiers, as a key that was put again while it was in the cold tier is, ends
    with the value of the coldest one, which is the oldest. *)
Theorem migration_exact url prefix_filter snapshot w w1 :
  rd_open url = inr tt → rd_connect w = (Ok (inr tt), w1) →
  let entries := entries_to_migrate prefix_filter snapshot in
  Z.of_nat (length entries) ≤ u64_max →
  ∃ w' accepted,
    accepted `sublist_of` entries ∧
    migration_task url prefix_filter (Ok snapshot) (w, mkProgress 0 0 0 "running" None) =
      (Ok tt, (w', mkProgress (Z.of_nat (length entries)) (Z.of_nat (length accepted))
                     (Z.of_nat (length entries - length accepted)) "completed" None)) ∧
    ∀ k, rd_view w' !! k =
      match last (filter (λ e, redis_key e = k) accepted) with Some e => Some (te_value e) | None => rd_view w !! k end.
Proof.
  intros Ho Hc entries Hfit.
  destruct (migrate_entries_run entries w1 (mkProgress (Z.of_nat (length entries)) 0 0 "running" None))
    as (w' & accepted & Hsub & Hrun & Hv); [done|done|cbn; lia|].
  exists w', accepted. split; [done|]. split.
  - unfold migration_task, migrate_to_redis. rewrite Ho. unfold mbind at 1, M_bind, on_redis at 1, mbind at 1, M_bind. rewrite Hc.
    cbn [on_progress set_total mg_total mg_migrated mg_failed mg_status mg_error mbind M_bind] in *.
    unfold on_progress, set_total, mbind, M_bind. cbn. fold entries. cbn in Hrun. rewrite Hrun. done.
  - intros k. rewrite Hv, lookup_put_entries. destruct (rd_connect_view w) as (r & w2 & E & Ev).
    rewrite Hc in E. injection E as <- <-. by rewrite Ev.
Qed.
End migration_facts.

(** ** Operations over the service *)

(** No counter is above [n]. *)
Definition below (n : Z) (s : AppState) : Prop :=
  let m := ap_metrics s in
  Forall (λ x, 0 ≤ x ≤ n) [mt_put m; mt_get m; mt_del m; mt_err m; mt_put_txn m; mt_put_account m; mt_put_quote m].

Section operations.
Context `{reliable : ReliableStorage} `{bound : LoopBound} `{prof : BuildProfile} (text : Status → bytes).

#[local] Instance wire : TinyKvClient := grpc_client text.

Lemma grpc_put_run (c : option kvrpcpb.Context) cf key value (srv : Server) :
  ∃ srv', grpc_raw_put (kvrpcpb.mkRawPutRequest c key value cf) srv = (Ok (inr (kvrpcpb.mkRawPutResponse None [])), srv') ∧
    cf_view (srv_store srv') cf = <[key := value]> (cf_view (srv_store srv) cf).
Proof.
  destruct (on_write [MPut key value cf] srv) as (srv' & H & Hv). exists srv'.
  unfold grpc_raw_put, respond, or_status, RawApi.raw_put. cbn [wp_key wp_value wp_cf kvrpcpb.rp_key kvrpcpb.rp_value kvrpcpb.rp_cf].
  rewrite (M_bind_run _ _ _ _ _ H). split; [done|]. rewrite Hv. cbn. by rewrite decide_True.
Qed.
Lemma grpc_get_run (c : option kvrpcpb.Context) cf key (srv : Server) :
  ∃ srv', grpc_raw_get (kvrpcpb.mkRawGetRequest c key cf) srv =
      (Ok (inr (match cf_view (srv_store srv) cf !! key with
                | Some v => kvrpcpb.mkRawGetResponse None [] v false
                | None => kvrpcpb.mkRawGetResponse None [] [] true
                end)), srv') ∧
    cf_view (srv_store srv') = cf_view (srv_store srv).
Proof.
  destruct (on_get cf key srv) as (srv' & H & Hv). exists srv'. split; [|done].
  unfold grpc_raw_get, respond, or_status, RawApi.raw_get. cbn [wg_key wg_cf kvrpcpb.rg_key kvrpcpb.rg_cf].
  rewrite (M_bind_run _ _ _ _ _ H). by destruct (cf_view (srv_store srv) cf !! key).
Qed.

(** A recorded operation, where the counters have room. *)
Lemma record_ok ts op key ok ms err kind sample s n :
  below n s → n < u64_max → ∃ s', record ts op key ok ms err kind sample s = (Ok tt, s') ∧
    ap_events s' = push_event (mkEvent ts op key ok ms err kind sample) (ap_events s) ∧ below (n + 1) s'.
Proof.
  intros Hb Hn. unfold below in Hb. rewrite !Forall_cons in Hb. destruct Hb as (H1 & H2 & H3 & H4 & H5 & H6 & H7 & _).
  assert (∃ m', (m ← count_op op (ap_metrics s); m ← count_kind op kind m; count_err ok m) = Ok m' ∧
    below (n + 1) (set_metrics m' s)) as (m' & E & Hb').
  { unfold count_op, count_kind, count_err.
    repeat (case_match; cbn [mbind outcome_bind];
      repeat (rewrite u64_add_ok by (cbn; unfold is_u64; lia); cbn [mbind outcome_bind])).
    all: eexists; split; [reflexivity|]; unfold below; rewrite !Forall_cons, Forall_nil; cbn; lia. }
  exists (set_metrics m' (set_events (push_event (mkEvent ts op key ok ms err kind sample) (ap_events s)) s)).
  split; [|done]. unfold record. rewrite (M_bind_run (modify _) _ _ _ _ eq_refl), (M_bind_run get _ _ _ _ eq_refl).
  cbn [ap_metrics set_events]. rewrite E. done.
Qed.

Definition put_operation (cf : option string) (key value : bytes) : KvOperation := mkKvOperation "put" cf key (Some value).
Definition get_operation (cf : option string) (key : bytes) : KvOperation := mkKvOperation "get" cf key None.

Lemma connect_run (srv : Server) s : on_kv kc_connect (srv, s) = (Ok (inr tt), (srv, s)).
Proof. done. Qed.

(** Where a put that the service carries out stands: the value is stored before
    the sample is cut for the event. *)
Lemma execute_put_run ts ms cf key value (srv : Server) s :
  ∃ srv', cf_view (srv_store srv') (default CF_DEFAULT cf) = <[key := value]> (cf_view (srv_store srv) (default CF_DEFAULT cf)) ∧
    execute_kv_operation ts ms (put_operation cf key value) (srv, s) =
      (sample ← lift (truncate_for_event value 200);
       on_app (record ts "put" key true ms None None (Some sample));;
       mret (mkKvResponse true (str_bytes "PUT 操作成功") None)) (srv', s).
Proof.
  destruct (grpc_put_run region_context (default CF_DEFAULT cf) key value srv) as (srv' & H & Hv).
  exists srv'. split; [done|]. unfold execute_kv_operation, put_operation. cbn [ko_cf ko_op ko_key ko_value].
  rewrite (M_bind_run _ _ _ _ _ (connect_run srv s)). cbn [String.eqb Ascii.eqb Bool.eqb].
  etrans; [exact (M_bind_run _ _ _ _ _ (on_kv_run _ _ s _ _ H))|]. done.
Qed.

(** A value put over HTTP is what a read over HTTP shows, if it is valid
    UTF-8 and its event sample can be cut; a key that is not there is shown
    as "null", which FINDING cannot be told from that value.  FINDING: a
    value of more than 200 bytes whose 200th byte lies inside a character is
    stored, and then the request panics. *)
Theorem http_put_get ts ms ts' ms' cf key value (srv : Server) s n :
  below n s → n + 1 < u64_max → from_utf8_lossy value = value →
  match truncate_for_event value 200 with
  | Ok sample =>
      ∃ st st', execute_kv_operation ts ms (put_operation cf key value) (srv, s)
          = (Ok (mkKvResponse true (str_bytes "PUT 操作成功") None), st) ∧
        head (ap_events st.2) = Some (mkEvent ts "put" key true ms None None (Some sample)) ∧
        execute_kv_operation ts' ms' (get_operation cf key) st
          = (Ok (mkKvResponse true (str_bytes "GET 操作成功") (Some value)), st') ∧
        head (ap_events st'.2) = Some (mkEvent ts' "get" key true ms' None None (Some sample))
  | _ =>
      (execute_kv_operation ts ms (put_operation cf key value) (srv, s)).1 = Panic ∧
      cf_view (srv_store (execute_kv_operation ts ms (put_operation cf key value) (srv, s)).2.1) (default CF_DEFAULT cf) !! key
        = Some value
  end.
Proof.
  intros Hroom Hn Hutf. destruct (execute_put_run ts ms cf key value srv s) as (srv1 & Hv1 & ->).
  destruct (truncate_for_event value 200) as [sample|e| |] eqn:Ht.
  - destruct (record_ok ts "put" key true ms None None (Some sample) s n Hroom) as (s1 & H1 & He & Hb); [lia|].
    exists (srv1, s1). destruct (grpc_get_run region_context (default CF_DEFAULT cf) key srv1) as (srv2 & H2 & _).
    rewrite Hv1, lookup_insert_eq in H2.
    destruct (record_ok ts' "get" key true ms' None None (Some sample) s1 _ Hb) as (s2 & H3 & He' & _); [lia|].
    exists (srv2, s2). split; [|split; [by cbn; rewrite He|]].
    + rewrite (M_bind_run (lift _) _ _ _ _ eq_refl). by rewrite (M_bind_run _ _ _ _ _ (on_app_run (client := wire) _ _ _ _ _ H1)).
    + split; [|by cbn; rewrite He'].
      unfold execute_kv_operation, get_operation. cbn [ko_cf ko_op ko_key ko_value].
      rewrite (M_bind_run _ _ _ _ _ (connect_run srv1 s1)). cbn [String.eqb Ascii.eqb Bool.eqb].
      etrans; [exact (M_bind_run _ _ _ _ _ (on_kv_run _ _ s1 _ _ H2))|].
      cbn [kvrpcpb.rg_not_found kvrpcpb.rg_value]. rewrite Hutf. cbv zeta. rewrite Ht.
      rewrite (M_bind_run (lift _) _ _ _ _ eq_refl). by rewrite (M_bind_run _ _ _ _ _ (on_app_run (client := wire) _ _ _ _ _ H3)).
  - unfold truncate_for_event in Ht. repeat case_match; done.
  - split; [done|]. change (cf_view (srv_store srv1) (default CF_DEFAULT cf) !! key = Some value).
    by rewrite Hv1, lookup_insert_eq.
  - unfold truncate_for_event in Ht. repeat case_match; done.
Qed.
End operations.

(** ** What the worker counts *)

Section worker_facts.
Context `{prof : BuildProfile} `{client : TinyKvClient}.

(** Every call is answered, with a response or a status. *)
Definition answering : Prop :=
  (∀ w, ∃ w', kc_connect w = (Ok (inr tt), w')) ∧ (∀ q w, ∃ r w', kc_raw_put q w = (Ok r, w')) ∧
  (∀ q w, ∃ r w', kc_raw_get q w = (Ok r, w')) ∧ (∀ q w, ∃ r w', kc_raw_delete q w = (Ok r, w')) ∧
  (∀ q w, ∃ r w', kc_raw_scan q w = (Ok r, w')).

Definition b2n (b : bool) : Z := if b then 1 else 0.

(** The counters after [p] puts, [g] reads and [d] deletions more. *)
Record counted (kind : FinanceKind) (p g d : Z) (s s' : AppState) : Prop := {
  ct_running : ap_running s' = ap_running s;
  ct_put : mt_put (ap_metrics s') = mt_put (ap_metrics s) + p;
  ct_get : mt_get (ap_metrics s') = mt_get (ap_metrics s) + g;
  ct_del : mt_del (ap_metrics s') = mt_del (ap_metrics s) + d;
  ct_txn : mt_put_txn (ap_metrics s') = mt_put_txn (ap_metrics s) + match kind with Txn => p | _ => 0 end;
  ct_account : mt_put_account (ap_metrics s') = mt_put_account (ap_metrics s) + match kind with Account => p | _ => 0 end;
  ct_quote : mt_put_quote (ap_metrics s') = mt_put_quote (ap_metrics s) + match kind with Quote => p | _ => 0 end;
  ct_err : mt_err (ap_metrics s) ≤ mt_err (ap_metrics s') ≤ mt_err (ap_metrics s) + p + g + d;
  ct_events : Z.of_nat (length (ap_events s')) = Z.min 200 (Z.of_nat (length (ap_events s)) + p + g + d);
}.
Lemma counted_trans kind p g d p' g' d' s1 s2 s3 :
  0 ≤ p' → 0 ≤ g' → 0 ≤ d' → 0 ≤ p → 0 ≤ g → 0 ≤ d →
  counted kind p g d s1 s2 → counted kind p' g' d' s2 s3 → counted kind (p + p') (g + g') (d + d') s1 s3.
Proof. intros ?????? [] []. split; try congruence; try lia; destruct kind; lia. Qed.

Lemma record_counted ts ms kind op key ok err sample s n :
  below n s → n < u64_max → (length (ap_events s) ≤ 200)%nat →
  (op = "put" ∨ op = "get" ∨ op = "del")%string →
  ∃ s', record ts op key ok ms err (Some (kind_tag kind)) sample s = (Ok tt, s') ∧ below (n + 1) s' ∧
    counted kind (b2n (String.eqb op "put")) (b2n (String.eqb op "get")) (b2n (String.eqb op "del")) s s'.
Proof.
  intros Hb Hn Hev Hop. unfold below in Hb. rewrite !Forall_cons in Hb.
  destruct Hb as (H1 & H2 & H3 & H4 & H5 & H6 & H7 & _).
  unfold record. rewrite (M_bind_run (modify _) _ _ _ _ eq_refl), (M_bind_run get _ _ _ _ eq_refl).
  cbn [ap_metrics set_events]. unfold count_op, count_kind, count_err.
  destruct Hop as [-> | [-> | ->]], kind, ok; cbn [String.eqb Ascii.eqb Bool.eqb kind_tag mbind outcome_bind];
    repeat (rewrite u64_add_ok by (cbn; unfold is_u64; lia); cbn [mbind outcome_bind mt_put_txn mt_put_account mt_put_quote mt_err]);
    (eexists; split; [reflexivity|split;
      [unfold below; rewrite !Forall_cons, Forall_nil; cbn; lia
      |split; cbn -[take Z.min]; try done; try lia; unfold push_event; rewrite length_take; cbn [length]; lia]]).
Qed.

(** A call whose answer is recorded. *)
Lemma call_counted {A} (call : M kc_world (Status + A)) clock kind op key sample w s n :
  (∃ r w', call w = (Ok r, w')) → below n s → n < u64_max → (length (ap_events s) ≤ 200)%nat →
  (op = "put" ∨ op = "get" ∨ op = "del")%string →
  ∃ w' s', (res ← on_kv call; on_app (record_call clock op key (kind_tag kind) sample res)) (w, s) = (Ok tt, (w', s')) ∧
    below (n + 1) s' ∧
    counted kind (b2n (String.eqb op "put")) (b2n (String.eqb op "get")) (b2n (String.eqb op "del")) s s'.
Proof.
  intros (r & w' & H) Hb Hn Hev Hop.
  assert (∃ s', record_call clock op key (kind_tag kind) sample r s = (Ok tt, s') ∧ below (n + 1) s' ∧
    counted kind (b2n (String.eqb op "put")) (b2n (String.eqb op "get")) (b2n (String.eqb op "del")) s s')
    as (s' & E & Hs') by (destruct r; by apply record_counted).
  exists w', s'. split; [|done]. by rewrite (M_bind_run _ _ _ _ _ (on_kv_run _ _ s _ _ H)), (on_app_run _ _ _ _ _ E).
Qed.
Lemma counted_refl kind s : (length (ap_events s) ≤ 200)%nat → counted kind 0 0 0 s s.
Proof. intros H. split; try lia; [done|destruct kind; lia..]. Qed.

(** A part of a turn that may be left out. *)
Lemma part_counted (b : bool) (m : M (kc_world * AppState) unit) kind p g d w s n :
  0 ≤ p → 0 ≤ g → 0 ≤ d → below n s → (length (ap_events s) ≤ 200)%nat →
  (∃ w' s', m (w, s) = (Ok tt, (w', s')) ∧ below (n + 1) s' ∧ counted kind p g d s s') →
  ∃ w' s', (if b then m else mret tt) (w, s) = (Ok tt, (w', s')) ∧ below (n + 1) s' ∧
    counted kind (b2n b * p) (b2n b * g) (b2n b * d) s s'.
Proof.
  intros Hp Hg Hd Hb Hev H. destruct b; unfold b2n; [by rewrite !Z.mul_1_l|]. exists w, s.
  split; [done|]. split; [|by apply counted_refl]. eapply Forall_impl; [exact Hb|]. cbn. lia.
Qed.

Lemma counted_events kind p g d s s' :
  counted kind p g d s s' → 0 ≤ p → 0 ≤ g → 0 ≤ d → (length (ap_events s') ≤ 200)%nat.
Proof. intros [] ???. lia. Qed.
Lemma b2n_nonneg b : 0 ≤ b2n b.
Proof. by destruct b. Qed.

Lemma turn_counted kind i w s n :
  answering → (∃ o, sample_of (it_value i) = Ok o) → below n s → n + 2 < u64_max → (length (ap_events s) ≤ 200)%nat →
  ∃ w' s', worker_turn kind i (w, s) = (Ok tt, (w', s')) ∧ below (n + 3) s' ∧
    counted kind 1 (b2n (it_get i)) (b2n (it_del i)) s s'.
Proof.
  intros (_ & Hput & Hget & Hdel & _) [o Ho] Hb Hn Hev. unfold worker_turn. rewrite Ho.
  rewrite (M_bind_run (lift _) _ _ _ _ eq_refl).
  destruct (call_counted (kc_raw_put (kvrpcpb.mkRawPutRequest region_context (it_key i) (it_value i) "default"))
    (it_put_clock i) kind "put" (it_key i) o w s n (Hput _ w) Hb) as (w1 & s1 & E1 & Hb1 & C1); [lia|done|by left|].
  rewrite (M_bind_run (worker_put _ _ _) _ _ _ _ E1). cbn in C1.
  assert (length (ap_events s1) ≤ 200)%nat as He1 by (eapply counted_events; [exact C1|done..]).
  destruct (part_counted (it_get i) (worker_get kind i) kind 0 1 0 w1 s1 (n + 1)) as (w2 & s2 & E2 & Hb2 & C2); [done..| |].
  { apply (call_counted (kc_raw_get _) _ kind "get" _ None); [by apply Hget|done|lia|done|by right; left]. }
  rewrite (M_bind_run _ _ _ _ _ E2). rewrite ?Z.mul_0_r, ?Z.mul_1_r in C2.
  assert (length (ap_events s2) ≤ 200)%nat as He2 by (eapply counted_events; [exact C2|done || apply b2n_nonneg..]).
  destruct (part_counted (it_del i) (worker_delete kind i) kind 0 0 1 w2 s2 (n + 1 + 1)) as (w3 & s3 & E3 & Hb3 & C3); [done..| |].
  { apply (call_counted (kc_raw_delete _) _ kind "del" _ None); [by apply Hdel|done|lia|done|by right; right]. }
  rewrite ?Z.mul_0_r, ?Z.mul_1_r in C3.
  exists w3, s3. split; [done|]. split; [by replace (n + 3) with (n + 1 + 1 + 1) by lia|].
  pose proof (b2n_nonneg (it_get i)). pose proof (b2n_nonneg (it_del i)).
  assert (counted kind (1 + 0) (0 + b2n (it_get i)) (0 + 0) s s2) as C by (eapply counted_trans; [..|exact C1|exact C2]; lia).
  pose proof (counted_trans kind (1 + 0) (0 + b2n (it_get i)) (0 + 0) 0 0 (b2n (it_del i)) s s2 s3
    ltac:(lia) ltac:(lia) ltac:(lia) ltac:(lia) ltac:(lia) ltac:(lia) C C3) as C'.
  by rewrite ?Z.add_0_r, ?Z.add_0_l in C'.
Qed.

(** How many of the items are read, and deleted, again. *)
Definition times (p : Item → bool) (items : list Item) : Z := Z.of_nat (length (filter p items)).
Lemma times_nonneg p items : 0 ≤ times p items.
Proof. unfold times. lia. Qed.
Lemma times_cons p i items : times p (i :: items) = b2n (p i) + times p items.
Proof. unfold times. rewrite filter_cons. destruct (p i); cbn; [rewrite decide_True by done; cbn [length]; lia|done]. Qed.

Definition cuttable (i : Item) : Prop := ∃ o, sample_of (it_value i) = Ok o.

Lemma worker_loop_counted kind items w s n :
  answering → Forall cuttable items → below n s → n + 3 * Z.of_nat (length items) < u64_max →
  (length (ap_events s) ≤ 200)%nat → ap_running s = true →
  ∃ w' s', worker_loop kind items (w, s) = (Ok tt, (w', s')) ∧
    counted kind (Z.of_nat (length items)) (times it_get items) (times it_del items) s s'.
Proof.
  intros Ha Hc. revert w s n. induction Hc as [|i items Hi Hc IH]; intros w s n Hb Hn Hev Hrun.
  { exists w, s. split; [done|]. by apply counted_refl. }
  cbn [length] in Hn.
  destruct (turn_counted kind i w s n Ha Hi Hb) as (w1 & s1 & E1 & Hb1 & C1); [lia|done|].
  pose proof (ct_running _ _ _ _ _ _ C1) as Hrun1. rewrite Hrun in Hrun1.
  destruct (IH w1 s1 (n + 3) Hb1) as (w2 & s2 & E2 & C2); [lia| |done|].
  { eapply counted_events; [exact C1|done || apply b2n_nonneg..]. }
  exists w2, s2. split.
  - cbn [worker_loop]. rewrite (M_bind_run get _ _ _ _ eq_refl). cbn [snd]. rewrite Hrun.
    by rewrite (M_bind_run _ _ _ _ _ E1).
  - rewrite !times_cons. replace (Z.of_nat (length (i :: items))) with (1 + Z.of_nat (length items)) by (cbn [length]; lia).
    eapply counted_trans; [..|exact C1|exact C2]; first [apply times_nonneg | apply b2n_nonneg | lia].
Qed.

(** A run that [start] begins and nothing stops counts what it did: one
    put per generated pair, under its kind, one read and one deletion per pair
    chosen for it; errors are at most one per call; the window holds the last
    two hundred events, and the service can be started again. *)
Theorem worker_counts ts kind prefix items w s :
  answering → ap_running s = false → Forall cuttable items → 3 * Z.of_nat (length items) < u64_max →
  ∃ w' s', worker ts kind prefix items (w, (start_ingest s).2) = (Ok tt, (w', s')) ∧
    ap_running s' = false ∧ counted kind (Z.of_nat (length items)) (times it_get items) (times it_del items)
      (set_running false (start_ingest s).2) s'.
Proof.
  intros Ha Hrun Hc Hn. unfold start_ingest. rewrite Hrun. cbn [snd].
  set (s0 := set_events _ _).
  destruct Ha as (Hconn & Ha). destruct (Hconn w) as [w1 Hw1].
  destruct (worker_loop_counted kind items w1 s0 0) as (w2 & s2 & E2 & C2); [done|done| |lia|cbn; lia|done|].
  { unfold below. repeat constructor; done. }
  destruct Ha as (_ & _ & _ & Hscan).
  destruct (Hscan (kvrpcpb.mkRawScanRequest region_context prefix 10 "default") w2) as (r & w3 & E3).
  exists w3, (set_running false s2). split; [|split; [done|]].
  - unfold worker. rewrite (M_bind_run _ _ _ _ _ (on_kv_run _ _ s0 _ _ Hw1)).
    rewrite (M_bind_run _ _ _ _ _ E2), (M_bind_run _ _ _ _ _ (on_kv_run _ _ s2 _ _ E3)). done.
  - destruct C2 as []. by split.
Qed.
End worker_facts.

(** ** The keys of a tier *)

(** A pair that [key_with_cf] stores is read back with its column family
    and its key, if both are valid UTF-8 and the family has no underscore. *)
Theorem from_raw_roundtrip cf key value :
  Byte.x5f ∉ str_bytes cf → from_utf8_lossy (str_bytes cf) = str_bytes cf → from_utf8_lossy key = key →
  TierEntry_from_raw (key_with_cf cf key) value = mkTierEntry (str_bytes cf) key (from_utf8_lossy value).
Proof.
  intros Hcf Hc Hk. unfold TierEntry_from_raw, key_with_cf.
  assert (split_at_underscore (str_bytes cf ++ [Byte.x5f] ++ key) = Some (str_bytes cf, key)) as E.
  { clear Hc. induction (str_bytes cf) as [|b l IH]; [done|]. rewrite not_elem_of_cons in Hcf. destruct Hcf as [Hb Hl].
    cbn [split_at_underscore app]. rewrite decide_False by congruence. cbn [app] in IH. by rewrite (IH Hl). }
  unfold str_bytes in *. rewrite E. by rewrite Hc, Hk.
Qed.

(** FINDING: keys of bytes that are no UTF-8, as encoded keys are, become one
    key. *)
Lemma from_raw_collides :
  key_with_cf "write" [Byte.xff] ≠ key_with_cf "write" [Byte.xfe] ∧
  TierEntry_from_raw (key_with_cf "write" [Byte.xff]) [] = TierEntry_from_raw (key_with_cf "write" [Byte.xfe]) [].
Proof. by split. Qed.

(** ** Concrete runs *)

Section samples.
#[local] Existing Instance map_storage.
#[local] Existing Instance map_storage_laws.
#[local] Existing Instance map_storage_reliable.
#[local] Existing Instance sample_bound.
#[local] Instance ingest_profile : BuildProfile := true.

(** A client whose service refuses every read. *)
#[local] Instance refusing_client : TinyKvClient := {|
  kc_world := unit;
  kc_connect := mret (inr tt);
  kc_raw_get := λ _, mret (inl (mkStatus Internal ""));
  kc_raw_put := λ _, mret (inr (kvrpcpb.mkRawPutResponse None []));
  kc_raw_delete := λ _, mret (inr (kvrpcpb.mkRawDeleteResponse None []));
  kc_raw_scan := λ _, mret (inl (mkStatus Internal ""));
  kc_kv_get := λ _, mret (inl (mkStatus Internal ""));
  kc_kv_scan := λ _, mret (inl (mkStatus Internal ""));
  kc_kv_prewrite := λ _, mret (inl (mkStatus Internal ""));
  kc_kv_commit := λ _, mret (inl (mkStatus Internal ""));
  kc_status_text := λ _, str_bytes "unavailable";
|}.
Definition two_items : list Item :=
  [mkItem (str_bytes "a") (str_bytes "1") true false (0, 1) (1, 1) (2, 1);
   mkItem (str_bytes "b") (str_bytes "2") true true (3, 1) (4, 1) (5, 1)].
Lemma worker_counts_witness :
  answering ∧ ∃ w' s', worker 9 Quote [] two_items (tt, (start_ingest AppState_new).2) = (Ok tt, (w', s')) ∧
    ap_running s' = false ∧ counted Quote 2 2 1 (set_running false (start_ingest AppState_new).2) s'.
Proof.
  assert (answering) as Ha by (repeat split; intros; eexists; try eexists; reflexivity).
  split; [exact Ha|].
  apply (worker_counts (client := refusing_client) 9 Quote [] two_items tt AppState_new Ha); [reflexivity| |reflexivity].
  repeat constructor; eexists; vm_compute; reflexivity.
Defined.

(** A Redis that refuses a third key. *)
Definition small_set (k v : bytes) (m : gmap bytes bytes) : outcome (bytes + unit) * gmap bytes bytes :=
  if decide ((size m < 2)%nat ∨ is_Some (m !! k)) then (Ok (inr tt), <[k := v]> m) else (Ok (inl (str_bytes "OOM")), m).
#[local] Instance small_redis : Redis := {|
  rd_world := gmap bytes bytes;
  rd_open := λ _, inr tt;
  rd_connect := mret (inr tt);
  rd_set := small_set;
  rd_view := λ m, m;
|}.
#[local] Instance small_redis_laws : RedisLaws small_redis.
Proof.
  split; [by intros w; eexists _, w|]. intros k v w. unfold rd_set, small_redis, small_set.
  case_decide; eexists _, _; (split; [reflexivity|done]).
Qed.

Definition tiers : TierSnapshot :=
  mkTierSnapshot [TierEntry_from_raw (key_with_cf "default" (str_bytes "k")) (str_bytes "new")]
    [TierEntry_from_raw (key_with_cf "lock" (str_bytes "k")) []]
    [TierEntry_from_raw (key_with_cf "default" (str_bytes "k")) (str_bytes "old");
     TierEntry_from_raw (key_with_cf "default" (str_bytes "k2")) []].

(** One key is refused, and of the two values of the first one the cold one
    stays. *)
Lemma migration_exact_witness :
  let run := migration_task (redis := small_redis) "" None (Ok tiers) (∅, mkProgress 0 0 0 "running" None) in
  run.1 = Ok tt ∧ run.2.2 = mkProgress 4 3 1 "completed" None ∧
  rd_view (Redis := small_redis) run.2.1 !! str_bytes "k" = Some (str_bytes "old").
Proof.
  destruct (migration_exact (redis := small_redis) (laws := small_redis_laws) "" None tiers ∅ ∅) as (w' & accepted & Hsub & E & Hv);
    [reflexivity..|vm_compute; discriminate|].
  intros run. split; [unfold run; by rewrite E|]. split; vm_compute; reflexivity.
Defined.

Lemma http_put_get_witness :
  ∃ st st',
    execute_kv_operation (client := grpc_client (λ _, [])) 1 2
      (put_operation None (str_bytes "k") (str_bytes "v")) (empty_srv, AppState_new)
      = (Ok (mkKvResponse true (str_bytes "PUT 操作成功") None), st) ∧
    execute_kv_operation (client := grpc_client (λ _, [])) 3 4 (get_operation None (str_bytes "k")) st
      = (Ok (mkKvResponse true (str_bytes "GET 操作成功") (Some (str_bytes "v"))), st') ∧
    from_utf8_lossy (str_bytes "null") = str_bytes "null".
Proof.
  destruct (http_put_get (λ _, []) 1 2 3 4 None (str_bytes "k") (str_bytes "v") empty_srv AppState_new 0)
    as (st & st' & H1 & _ & H2 & _); [|done..|].
  - repeat constructor; done.
  - exists st, st'. split; [exact H1|]. split; [exact H2|reflexivity].
Defined.

Lemma from_raw_roundtrip_witness :
  TierEntry_from_raw (key_with_cf "lock" (str_bytes "a_b")) [Byte.xff]
    = mkTierEntry (str_bytes "lock") (str_bytes "a_b") REPLACEMENT.
Proof.
  rewrite (from_raw_roundtrip "lock" (str_bytes "a_b") [Byte.xff]); [reflexivity| |reflexivity..].
  apply (bool_decide_unpack _). by vm_compute.
Defined.
End samples.
