(* ===== verification/Shell.v ===== *)
(** The two command-line clients: [run_cli] of src/bin/aegisdb.rs, with raw and
    transactional commands, and src/bin/aegisdb_cli.rs, with the raw ones.

    A line is read as words and turned into a call of the service or into text;
    a call's answer is printed.  A printed line is its bytes; the prompt and
    the standard error are left out, and lines are valid UTF-8, which
    [read_line] insists on. *)

From stdpp Require Import pretty.
From S2P Require Import Prelude Bytes Codec Records Engine Storage Latches Proto MvccTxn Scanner Server RawApi TransactionApi Grpc.

(** ** Words *)

(** The white space of Unicode, in UTF-8: characters of one, two and three bytes. *)
Definition space1 (a : byte) : bool :=
  match a with
  | Byte.x09 | Byte.x0a | Byte.x0b | Byte.x0c | Byte.x0d | Byte.x20 => true
  | _ => false
  end.
Definition space2 (a b : byte) : bool :=
  match a, b with Byte.xc2, (Byte.x85 | Byte.xa0) => true | _, _ => false end.
Definition space3 (a b c : byte) : bool :=
  match a, b, c with
  | Byte.xe1, Byte.x9a, Byte.x80 => true
  | Byte.xe2, Byte.x80, (Byte.x80 | Byte.x81 | Byte.x82 | Byte.x83 | Byte.x84 | Byte.x85 | Byte.x86 | Byte.x87 | Byte.x88
                         | Byte.x89 | Byte.x8a | Byte.xa8 | Byte.xa9 | Byte.xaf) => true
  | Byte.xe2, Byte.x81, Byte.x9f => true
  | Byte.xe3, Byte.x80, Byte.x80 => true
  | _, _, _ => false
  end.

(** [input.trim().split_whitespace()]; [cur] is the word being read. *)
Definition flush (cur : bytes) : list bytes := match cur with [] => [] | _ => [cur] end.
Fixpoint split_words (cur : bytes) (s : bytes) : list bytes :=
  match s with
  | [] => flush cur
  | a :: s1 =>
      if space1 a then flush cur ++ split_words [] s1
      else match s1 with
           | b :: s2 =>
               if space2 a b then flush cur ++ split_words [] s2
               else match s2 with
                    | c :: s3 => if space3 a b c then flush cur ++ split_words [] s3 else split_words (cur ++ [a]) s1
                    | [] => split_words (cur ++ [a]) s1
                    end
           | [] => split_words (cur ++ [a]) s1
           end
  end.
Definition split_whitespace (line : bytes) : list bytes := split_words [] line.

(** [to_uppercase], as far as its result can be a word of ASCII: the letters of
    ASCII, and the few other characters whose upper case is ASCII (sharp s,
    dotless i, long s and the ligatures of Latin letters). *)
Definition upper_ascii (b : byte) : byte :=
  let n := Byte.to_N b in
  if ((97 <=? n) && (n <=? 122))%N then default b (Byte.of_N (n - 32)) else b.
Fixpoint to_uppercase (s : bytes) : bytes :=
  match s with
  | [] => []
  | a :: s1 =>
      match a, s1 with
      | Byte.xc3, Byte.x9f :: s2 => str_bytes "SS" ++ to_uppercase s2
      | Byte.xc4, Byte.xb1 :: s2 => str_bytes "I" ++ to_uppercase s2
      | Byte.xc5, Byte.xbf :: s2 => str_bytes "S" ++ to_uppercase s2
      | Byte.xef, Byte.xac :: (Byte.x80 :: s3) => str_bytes "FF" ++ to_uppercase s3
      | Byte.xef, Byte.xac :: (Byte.x81 :: s3) => str_bytes "FI" ++ to_uppercase s3
      | Byte.xef, Byte.xac :: (Byte.x82 :: s3) => str_bytes "FL" ++ to_uppercase s3
      | Byte.xef, Byte.xac :: (Byte.x83 :: s3) => str_bytes "FFI" ++ to_uppercase s3
      | Byte.xef, Byte.xac :: (Byte.x84 :: s3) => str_bytes "FFL" ++ to_uppercase s3
      | Byte.xef, Byte.xac :: ((Byte.x85 | Byte.x86) :: s3) => str_bytes "ST" ++ to_uppercase s3
      | _, _ => upper_ascii a :: to_uppercase s1
      end
  end.

(** ** Lines *)

Inductive Call :=
| CallGet (req : kvrpcpb.RawGetRequest)
| CallSet (req : kvrpcpb.RawPutRequest)
| CallDel (req : kvrpcpb.RawDeleteRequest)
| CallScan (req : kvrpcpb.RawScanRequest)
| CallKvGet (req : kvrpcpb.GetRequest)
| CallKvScan (req : kvrpcpb.ScanRequest)
| CallKvPrewrite (req : kvrpcpb.PrewriteRequest)
| CallKvCommit (req : kvrpcpb.CommitRequest).

(** What a line asks for: nothing but some text, the end, or, after some text,
    a call. *)
Inductive Command := Say (lines : list bytes) | Quit | Invoke (lines : list bytes) (c : Call).

Definition say (s : string) : Command := Say [str_bytes s].
Definition shell_context : option kvrpcpb.Context := Some (kvrpcpb.mkContext 1 None None 0).
(** [parts.get(i).map(..).unwrap_or_else(|| "default".to_string())] *)
Definition cf_word (parts : list bytes) (i : nat) : string :=
  match parts !! i with Some w => String.string_of_list_byte w | None => "default" end.

Definition parse_get (parts : list bytes) : Command :=
  match parts with
  | _ :: key :: _ => Invoke [] (CallGet (kvrpcpb.mkRawGetRequest shell_context key (cf_word parts 2)))
  | _ => say "Usage: GET <key> [cf]"
  end.
Definition parse_set (parts : list bytes) : Command :=
  match parts with
  | _ :: key :: value :: _ => Invoke [] (CallSet (kvrpcpb.mkRawPutRequest shell_context key value (cf_word parts 3)))
  | _ => say "Usage: SET <key> <value> [cf]"
  end.
Definition parse_del (parts : list bytes) : Command :=
  match parts with
  | _ :: key :: _ => Invoke [] (CallDel (kvrpcpb.mkRawDeleteRequest shell_context key (cf_word parts 2)))
  | _ => say "Usage: DEL <key> [cf]"
  end.
Definition parse_scan (parts : list bytes) : Command :=
  match parts with
  | _ :: start_key :: limit :: _ =>
      Invoke [] (CallScan (kvrpcpb.mkRawScanRequest shell_context start_key (default 10 (parse_u32 limit)) (cf_word parts 3)))
  | _ => say "Usage: SCAN <start_key> <limit> [cf]"
  end.
Definition parse_kvget (parts : list bytes) : Command :=
  match parts with
  | _ :: key :: version :: _ =>
      match parse_u64 version with
      | Some version => Invoke [] (CallKvGet (kvrpcpb.mkGetRequest shell_context key version))
      | None => say "Error: Invalid version number"
      end
  | _ => say "Usage: KVGET <key> <version>"
  end.
Definition parse_kvscan (parts : list bytes) : Command :=
  match parts with
  | _ :: start_key :: limit :: version :: _ =>
      match parse_u64 version with
      | Some version =>
          Invoke [] (CallKvScan (kvrpcpb.mkScanRequest shell_context start_key (default 10 (parse_u32 limit)) version))
      | None => say "Error: Invalid version number"
      end
  | _ => say "Usage: KVSCAN <start_key> <limit> <version>"
  end.

(** The pairs behind the first words; a word that is left over is named. *)
Fixpoint pairs_of (parts : list bytes) : list bytes * list kvrpcpb.Mutation :=
  match parts with
  | key :: value :: parts =>
      let '(said, mutations) := pairs_of parts in (said, kvrpcpb.mkMutation 0 key value :: mutations)
  | [key] => ([str_bytes "Error: Missing value for key " ++ key], [])
  | [] => ([], [])
  end.
Definition parse_kvprewrite (parts : list bytes) : Command :=
  match parts with
  | _ :: primary_key :: start_version :: lock_ttl :: ((_ :: _ :: _) as rest) =>
      match parse_u64 start_version with
      | Some start_version =>
          let '(said, mutations) := pairs_of rest in
          match mutations with
          | [] => Say (said ++ [str_bytes "Error: No mutations provided"])
          | _ => Invoke said (CallKvPrewrite (kvrpcpb.mkPrewriteRequest shell_context mutations primary_key start_version
                                                (default 3000 (parse_u64 lock_ttl))))
          end
      | None => say "Error: Invalid start_version number"
      end
  | _ => say "Usage: KVPREWRITE <primary_key> <start_version> <lock_ttl> <key1> <value1> [key2 value2 ...]"
  end.
Definition parse_kvcommit (parts : list bytes) : Command :=
  match parts with
  | _ :: start_version :: commit_version :: ((_ :: _) as keys) =>
      match parse_u64 start_version, parse_u64 commit_version with
      | Some start_version, Some commit_version =>
          Invoke [] (CallKvCommit (kvrpcpb.mkCommitRequest shell_context start_version keys commit_version))
      | None, _ => say "Error: Invalid start_version number"
      | _, None => say "Error: Invalid commit_version number"
      end
  | _ => say "Usage: KVCOMMIT <start_version> <commit_version> <key1> [key2 ...]"
  end.

Definition raw_help : list string :=
  ["  GET <key> [cf]          - Get value for key"; "  SET <key> <value> [cf] - Set key-value pair";
   "  DEL <key> [cf]         - Delete key"; "  SCAN <start_key> <limit> [cf] - Scan keys"]%string.
Definition help (transactional : bool) : list bytes :=
  str_bytes <$>
    if transactional then
      ["Available commands:"; "RawKV Commands:"]%string ++ raw_help ++
      [""; "Transaction Commands:"; "  KVGET <key> <version>  - Transactional get at version";
       "  KVSCAN <start_key> <limit> <version> - Transactional scan at version";
       "  KVPREWRITE <primary_key> <start_version> <lock_ttl> <key1> <value1> [key2 value2 ...] - Prewrite transaction";
       "  KVCOMMIT <start_version> <commit_version> <key1> [key2 ...] - Commit transaction"; "";
       "Other Commands:"; "  HELP/?                 - Show this help message"; "  QUIT/EXIT/Q            - Exit CLI"]%string
    else ["Available commands:"]%string ++ raw_help ++ ["  QUIT/EXIT              - Exit CLI"]%string.

(** [transactional]: the client of aegisdb.rs, which has the KV commands. *)
Definition parse_line (transactional : bool) (line : bytes) : Command :=
  match split_whitespace line with
  | [] => Say []
  | (word :: _) as parts =>
      let named w := bool_decide (to_uppercase word = str_bytes w) in
      if named "GET" then parse_get parts
      else if named "SET" then parse_set parts
      else if named "DEL" || named "DELETE" then parse_del parts
      else if named "SCAN" then parse_scan parts
      else if named "QUIT" || named "EXIT" || named "Q" then Quit
      else if transactional && named "KVGET" then parse_kvget parts
      else if transactional && named "KVSCAN" then parse_kvscan parts
      else if transactional && named "KVPREWRITE" then parse_kvprewrite parts
      else if transactional && named "KVCOMMIT" then parse_kvcommit parts
      else if named "HELP" || named "?" then Say (help transactional)
      else Say [str_bytes "Unknown command: " ++ word ++ str_bytes ". Type HELP for available commands."]
  end.

(** ** Answers *)

Section shell.
Context `{client : TinyKvClient}.

Definition error_line (e : Status) : list bytes := [str_bytes "Error: " ++ kc_status_text e].
Definition quoted (v : bytes) : bytes := [Byte.x22] ++ from_utf8_lossy v ++ [Byte.x22].
Definition number (i : nat) : bytes := str_bytes (pretty (Z.of_nat (i + 1))) ++ str_bytes ") ".

Definition show_get (resp : kvrpcpb.RawGetResponse) : list bytes :=
  if kvrpcpb.rg_not_found resp then [str_bytes "(nil)"]
  else match kvrpcpb.rg_error resp with
       | _ :: _ => [str_bytes "Error: " ++ kvrpcpb.rg_error resp]
       | [] => [quoted (kvrpcpb.rg_value resp)]
       end.
Definition show_pair (i : nat) (kv : kvrpcpb.KvPair) : bytes :=
  number i ++ quoted (kvrpcpb.pair_key kv) ++ str_bytes " -> " ++ quoted (kvrpcpb.pair_value kv).
Definition show_scan (resp : kvrpcpb.RawScanResponse) : list bytes :=
  match kvrpcpb.rs_kvs resp with [] => [str_bytes "(empty list or set)"] | kvs => imap show_pair kvs end.
Definition show_kvget (resp : kvrpcpb.GetResponse) : list bytes :=
  if kvrpcpb.get_not_found resp then [str_bytes "(nil)"]
  else match kvrpcpb.get_error resp with
       | Some _ => [str_bytes "Error: Transaction conflict or locked"]
       | None => [quoted (kvrpcpb.get_value resp)]
       end.
Definition show_kvpair (i : nat) (kv : kvrpcpb.KvPair) : bytes :=
  match kvrpcpb.pair_error kv with
  | Some _ => number i ++ quoted (kvrpcpb.pair_key kv) ++ str_bytes " -> (locked or error)"
  | None => show_pair i kv
  end.
Definition show_kvscan (resp : kvrpcpb.ScanResponse) : list bytes :=
  match kvrpcpb.scan_pairs resp with [] => [str_bytes "(empty list or set)"] | kvs => imap show_kvpair kvs end.
Definition show_kvprewrite (resp : kvrpcpb.PrewriteResponse) : list bytes :=
  match kvrpcpb.prewrite_errors resp with
  | [] => [str_bytes "OK"]
  | errors => [str_bytes "Error: " ++ str_bytes (pretty (Z.of_nat (length errors))) ++ str_bytes " mutation(s) failed"]
  end.
Definition show_kvcommit (resp : kvrpcpb.CommitResponse) : list bytes :=
  match kvrpcpb.commit_error resp with Some _ => [str_bytes "Error: Commit failed"] | None => [str_bytes "OK"] end.

Definition answered {A} (show : A → list bytes) (m : M kc_world (Status + A)) : M kc_world (list bytes) :=
  r ← m; mret (match r with inr resp => show resp | inl e => error_line e end).
Definition invoke (c : Call) : M kc_world (list bytes) :=
  match c with
  | CallGet req => answered show_get (kc_raw_get req)
  | CallSet req => answered (λ _, [str_bytes "OK"]) (kc_raw_put req)
  | CallDel req => answered (λ _, [str_bytes "OK"]) (kc_raw_delete req)
  | CallScan req => answered show_scan (kc_raw_scan req)
  | CallKvGet req => answered show_kvget (kc_kv_get req)
  | CallKvScan req => answered show_kvscan (kc_kv_scan req)
  | CallKvPrewrite req => answered show_kvprewrite (kc_kv_prewrite req)
  | CallKvCommit req => answered show_kvcommit (kc_kv_commit req)
  end.

(** One line: what is printed; [None] ends the session. *)
Definition shell_line (transactional : bool) (line : bytes) : M kc_world (option (list bytes)) :=
  match parse_line transactional line with
  | Say lines => mret (Some lines)
  | Quit => mret None
  | Invoke said c => lines ← invoke c; mret (Some (said ++ lines))
  end.

(** The loop, over all lines there will be.  At the end of the input
    [read_line] answers with an empty line for ever. *)
Fixpoint shell_loop (transactional : bool) (lines : list bytes) : M kc_world (list bytes) :=
  match lines with
  | [] => lift Diverge
  | line :: lines =>
      printed ← shell_line transactional line;
      match printed with
      | None => mret [str_bytes "Bye!"]
      | Some printed => rest ← shell_loop transactional lines; mret (printed ++ rest)
      end
  end.
Definition run_cli (transactional : bool) (lines : list bytes) : M kc_world (bytes + list bytes) :=
  conn ← kc_connect;
  match conn with
  | inl e => mret (inl e)
  | inr _ => printed ← shell_loop transactional lines; mret (inr printed)
  end.
End shell.

(** ** Typing words *)

Definition printable (b : byte) : Prop := (33 <= Byte.to_N b <= 126)%N.
#[export] Instance printable_dec b : Decision (printable b).
Proof. unfold printable. apply _. Defined.
Definition is_word (w : bytes) : Prop := w ≠ [] ∧ Forall printable w.

(** Words with spaces between them, and the end of the line. *)
Fixpoint typed (ws : list bytes) : bytes :=
  match ws with
  | [] => [Byte.x0a]
  | w :: ws => w ++ Byte.x20 :: typed ws
  end.

Lemma split_printable cur a s : printable a → split_words cur (a :: s) = split_words (cur ++ [a]) s.
Proof.
  intros Ha. assert (space1 a = false ∧ (∀ b, space2 a b = false) ∧ (∀ b c, space3 a b c = false)) as (H1 & H2 & H3).
  { destruct a; first [done|exfalso; unfold printable in Ha; cbn in Ha; lia]. }
  cbn [split_words]. rewrite H1. destruct s as [|b [|c s]]; rewrite ?H2, ?H3; done.
Qed.
Lemma split_typed_word cur w s : Forall printable w → split_words cur (w ++ s) = split_words (cur ++ w) s.
Proof.
  intros Hw. revert cur. induction Hw as [|a w Ha Hw IH]; intros cur; cbn [app]; [by rewrite app_nil_r|].
  rewrite split_printable, IH by done. by rewrite <- app_assoc.
Qed.
Lemma split_typed ws : Forall is_word ws → split_whitespace (typed ws) = ws.
Proof.
  intros Hws. unfold split_whitespace. induction Hws as [|w ws [Hne Hw] Hws IH]; [done|]. cbn [typed].
  rewrite split_typed_word by done. cbn [app split_words space1]. rewrite IH. by destruct w.
Qed.

(** The words of a prewrite and of a commit. *)
Definition pair_words (pairs : list (bytes * bytes)) : list bytes := concat ((λ p, [p.1; p.2]) <$> pairs).
Definition puts (pairs : list (bytes * bytes)) : list kvrpcpb.Mutation := (λ p, kvrpcpb.mkMutation 0 p.1 p.2) <$> pairs.

Lemma pairs_of_words pairs rest :
  (length rest ≤ 1)%nat →
  pairs_of (pair_words pairs ++ rest) = ((λ k, str_bytes "Error: Missing value for key " ++ k) <$> rest, puts pairs).
Proof.
  intros Hrest. induction pairs as [|[k v] pairs IH]; cbn [pair_words fmap list_fmap concat app].
  - destruct rest as [|k [|]]; [done|done|cbn in Hrest; lia].
  - cbn [pairs_of]. unfold pair_words in IH. by rewrite IH.
Qed.

(** The commands of a transaction are words. *)
Lemma word_kvprewrite : is_word (str_bytes "kvprewrite").
Proof. apply (bool_decide_unpack (_ ≠ _ ∧ Forall _ _)). by vm_compute. Qed.
Lemma word_kvcommit : is_word (str_bytes "kvcommit").
Proof. apply (bool_decide_unpack (_ ≠ _ ∧ Forall _ _)). by vm_compute. Qed.
Lemma word_kvget : is_word (str_bytes "kvget").
Proof. apply (bool_decide_unpack (_ ≠ _ ∧ Forall _ _)). by vm_compute. Qed.

Lemma parse_prewrite_words pw start_w ttl_w start ttl pairs rest :
  is_word pw → is_word start_w → is_word ttl_w → Forall (λ p, is_word p.1 ∧ is_word p.2) pairs → Forall is_word rest →
  (length rest ≤ 1)%nat → pairs ≠ [] → parse_u64 start_w = Some start → parse_u64 ttl_w = Some ttl →
  parse_line true (typed ([str_bytes "kvprewrite"; pw; start_w; ttl_w] ++ pair_words pairs ++ rest)) =
    Invoke ((λ k, str_bytes "Error: Missing value for key " ++ k) <$> rest)
      (CallKvPrewrite (kvrpcpb.mkPrewriteRequest shell_context (puts pairs) pw start ttl)).
Proof.
  intros Hp Hs Ht Hpairs Hrest Hlen Hne Es Et. unfold parse_line. rewrite split_typed.
  2: { cbn [app]. rewrite !Forall_cons, Forall_app. split; [exact word_kvprewrite|]. do 3 (split; [done|]). split; [|done].
    unfold pair_words. apply Forall_concat, Forall_fmap. eapply Forall_impl; [exact Hpairs|]. intros p [? ?]. cbn.
    by rewrite !Forall_cons, Forall_nil. }
  cbn [app]. cbv zeta. rewrite !bool_decide_eq_false_2 by done. cbn [orb andb].
  rewrite bool_decide_eq_true_2 by done. unfold parse_kvprewrite. destruct pairs as [|[k v] pairs]; [done|].
  change (pair_words ((k, v) :: pairs)) with (k :: v :: pair_words pairs). cbn [app]. rewrite Es.
  change (k :: v :: pair_words pairs ++ rest) with (pair_words ((k, v) :: pairs) ++ rest). rewrite pairs_of_words, Et by done. done.
Qed.

Lemma parse_commit_words start_w commit_w start commit keys :
  is_word start_w → is_word commit_w → Forall is_word keys → keys ≠ [] →
  parse_u64 start_w = Some start → parse_u64 commit_w = Some commit →
  parse_line true (typed ([str_bytes "kvcommit"; start_w; commit_w] ++ keys)) =
    Invoke [] (CallKvCommit (kvrpcpb.mkCommitRequest shell_context start keys commit)).
Proof.
  intros Hs Hc Hk Hne Es Ec. unfold parse_line. rewrite split_typed.
  2: { cbn [app]. rewrite !Forall_cons. split; [exact word_kvcommit|done]. }
  cbn [app]. cbv zeta. rewrite !bool_decide_eq_false_2 by done. cbn [orb andb].
  rewrite bool_decide_eq_true_2 by done. unfold parse_kvcommit. destruct keys; [done|]. by rewrite Es, Ec.
Qed.
Lemma parse_get_words key v_w v :
  is_word key → is_word v_w → parse_u64 v_w = Some v →
  parse_line true (typed [str_bytes "kvget"; key; v_w]) = Invoke [] (CallKvGet (kvrpcpb.mkGetRequest shell_context key v)).
Proof.
  intros Hk Hv Ev. unfold parse_line. rewrite split_typed.
  2: { rewrite !Forall_cons, Forall_nil. split; [exact word_kvget|done]. }
  cbv zeta. rewrite !bool_decide_eq_false_2 by done. cbn [orb andb].
  rewrite bool_decide_eq_true_2 by done. unfold parse_kvget. by rewrite Ev.
Qed.

(** ** Sessions *)

Section sessions.
Context `{reliable : ReliableStorage} `{bound : LoopBound} `{profile : BuildProfile} (text : Status → bytes).
#[local] Instance shell_client : TinyKvClient := grpc_client text.

Lemma shell_call said c line (srv srv' : Server) lines :
  parse_line true line = Invoke said c → invoke c srv = (Ok lines, srv') → shell_line true line srv = (Ok (Some (said ++ lines)), srv').
Proof. intros Hp Hc. unfold shell_line. rewrite Hp. by rewrite (M_bind_run _ _ _ _ _ Hc). Qed.
Lemma answered_run {A} (show : A → list bytes) (m : M Server (Status + A)) srv srv' a :
  m srv = (Ok (inr a), srv') → answered show m srv = (Ok (show a), srv').
Proof. intros H. unfold answered. by rewrite (M_bind_run _ _ _ _ _ H). Qed.
Lemma answered_value {A} (show : A → list bytes) (m : M Server (Status + A)) srv a said line c :
  parse_line true line = Invoke said c → invoke c = answered show m → (m srv).1 = Ok (inr a) →
  (shell_line true line srv).1 = Ok (Some (said ++ show a)).
Proof.
  intros Hp Hc H. destruct (m srv) as [o srv'] eqn:E. cbn in H. subst o.
  erewrite shell_call; [done|exact Hp|]. rewrite Hc. by apply answered_run.
Qed.

(** What a transaction typed in needs, and what is typed. *)
Record transaction (pairs : list (bytes * bytes)) (primary start_w ttl_w commit_w v_w : bytes)
    (start ttl commit v : Z) (srv : Server) : Prop := {
  tr_words : Forall is_word [primary; start_w; ttl_w; commit_w; v_w];
  tr_pairs : Forall (λ p, is_word p.1 ∧ is_word p.2) pairs;
  tr_start : parse_u64 start_w = Some start;
  tr_ttl : parse_u64 ttl_w = Some ttl;
  tr_commit : parse_u64 commit_w = Some commit;
  tr_v : parse_u64 v_w = Some v;
  tr_range : is_u64 start ∧ is_u64 ttl ∧ is_u64 commit ∧ commit ≤ v ∧ start ≠ v;
  tr_nodup : NoDup pairs.*1;
  tr_ready : server_ready pairs.*1 srv;
  tr_room : (size (cf_view (srv_store srv) CF_WRITE) + 2 * length pairs < loop_bound)%nat;
  tr_unlocked : ∀ k, k ∈ pairs.*1 → lock_at (cf_view (srv_store srv) CF_LOCK) k = None;
}.
Definition prewrite_words (primary start_w ttl_w : bytes) (pairs : list (bytes * bytes)) (rest : list bytes) : bytes :=
  typed ([str_bytes "kvprewrite"; primary; start_w; ttl_w] ++ pair_words pairs ++ rest).
Definition commit_words (start_w commit_w : bytes) (keys : list bytes) : bytes :=
  typed ([str_bytes "kvcommit"; start_w; commit_w] ++ keys).
Definition get_words (key v_w : bytes) : bytes := typed [str_bytes "kvget"; key; v_w].

(** The lines of a transaction; a word too many in the first one is [rest]. *)
Lemma typed_transaction_run pairs primary start_w ttl_w commit_w v_w start ttl commit v srv key value rest :
  transaction pairs primary start_w ttl_w commit_w v_w start ttl commit v srv → (key, value) ∈ pairs →
  (∀ ts, is_u64 ts → commit < ts ≤ v → cf_view (srv_store srv) CF_WRITE !! encode_key key ts = None) →
  Forall is_word rest → (length rest ≤ 1)%nat →
  ∃ srv1 srv2 : Server,
    shell_line true (prewrite_words primary start_w ttl_w pairs rest) srv =
      (Ok (Some (((λ k, str_bytes "Error: Missing value for key " ++ k) <$> rest) ++ [str_bytes "OK"])), srv1) ∧
    (shell_line true (get_words key v_w) srv1).1 = Ok (Some [str_bytes "Error: Transaction conflict or locked"]) ∧
    shell_line true (commit_words start_w commit_w pairs.*1) srv1 = (Ok (Some [str_bytes "OK"]), srv2) ∧
    (shell_line true (get_words key v_w) srv2).1 = Ok (Some [quoted value]).
Proof.
  intros Ht Hin Hnewer Hrest Hlen. destruct Ht. rewrite !Forall_cons in tr_words0.
  destruct tr_words0 as (W1 & W2 & W3 & W4 & W5 & _). destruct tr_range0 as (R1 & R2 & R3 & R4 & R5).
  assert (kvrpcpb.mutation_key <$> puts pairs = pairs.*1) as Hkeys by (unfold puts; by rewrite <- list_fmap_compose).
  assert (pairs ≠ []) as Hne by (intros ->; by apply not_elem_of_nil in Hin).
  set (req := kvrpcpb.mkPrewriteRequest shell_context (puts pairs) primary start ttl).
  destruct (grpc_transaction_run req (kvrpcpb.mkMutation 0 key value) srv shell_context shell_context commit v)
    as (srv1 & srv2 & H1 & H2 & H3 & H4); cbn [kvrpcpb.prewrite_mutations kvrpcpb.prewrite_start_version req] in *;
    rewrite ?Hkeys, ?length_fmap; try done.
  - split; [|done]. by destruct W1.
  - unfold puts. apply list_elem_of_fmap. by exists (key, value).
  - intros x (p & -> & Hp)%list_elem_of_fmap. split; [by left|]. apply tr_unlocked0, list_elem_of_fmap. by exists p.
  - exists srv1, srv2. rewrite Hkeys in H3.
    assert (is_word key) as Wk by (eapply (proj1 (Forall_forall _ _)) in tr_pairs0; [|exact Hin]; by destruct tr_pairs0).
    split_and!.
    + eapply shell_call; [by apply parse_prewrite_words|]. cbn [invoke]. by apply (answered_run show_kvprewrite _ _ _ _ H1).
    + exact (answered_value show_kvget (grpc_kv_get _) srv1 _ [] _ _ (parse_get_words key v_w v Wk W5 tr_v0) eq_refl H2).
    + eapply (shell_call []); [apply parse_commit_words; try done|].
      * apply Forall_fmap. eapply Forall_impl; [exact tr_pairs0|]. by intros p [? _].
      * by destruct pairs.
      * cbn [invoke]. by apply (answered_run show_kvcommit _ _ _ _ H3).
    + exact (answered_value show_kvget (grpc_kv_get _) srv2 _ [] _ _ (parse_get_words key v_w v Wk W5 tr_v0) eq_refl H4).
Qed.
End sessions.

Section session_theorems.
Context `{reliable : ReliableStorage} `{bound : LoopBound} `{profile : BuildProfile} (text : Status → bytes).
#[local] Existing Instance shell_client.


(** FINDING: a prewrite with a key but no value at its end is not refused: the
    error is printed, and the other keys are locked and can be committed. *)
Theorem incomplete_prewrite_locks pairs primary start_w ttl_w commit_w v_w start ttl commit v srv key value rest :
  transaction pairs primary start_w ttl_w commit_w v_w start ttl commit v srv → (key, value) ∈ pairs →
  (∀ ts, is_u64 ts → commit < ts ≤ v → cf_view (srv_store srv) CF_WRITE !! encode_key key ts = None) → is_word rest →
  ∃ srv1 srv2 : Server,
    shell_line (client := grpc_client text) true (prewrite_words primary start_w ttl_w pairs [rest]) srv
      = (Ok (Some [str_bytes "Error: Missing value for key " ++ rest; str_bytes "OK"]), srv1) ∧
    shell_line (client := grpc_client text) true (commit_words start_w commit_w pairs.*1) srv1
      = (Ok (Some [str_bytes "OK"]), srv2) ∧
    (shell_line (client := grpc_client text) true (get_words key v_w) srv2).1 = Ok (Some [quoted value]).
Proof.
  intros Ht Hin Hn Hr.
  destruct (typed_transaction_run text pairs primary start_w ttl_w commit_w v_w start ttl commit v srv key value [rest] Ht Hin Hn)
    as (srv1 & srv2 & H1 & _ & H3 & H4); [by repeat constructor; destruct Hr|cbn; lia|]. by exists srv1, srv2.
Qed.
End session_theorems.

(** FINDING: a session whose input ends without a command to quit never
    ends. *)
Theorem end_of_input_spins `{client : TinyKvClient} transactional lines w :
  (∀ c w, ∃ printed w', invoke c w = (Ok printed, w')) → Forall (λ l, parse_line transactional l ≠ Quit) lines →
  (shell_loop transactional lines w).1 = Diverge.
Proof.
  intros Hc Hl. revert w. induction Hl as [|line lines Hq _ IH]; intros w; [done|]. cbn [shell_loop].
  assert (∃ printed w', shell_line transactional line w = (Ok (Some printed), w')) as (printed & w' & E).
  { unfold shell_line. destruct (parse_line transactional line) as [said| |said c]; [by eexists _, w|done|].
    destruct (Hc c w) as (printed & w' & E). rewrite (M_bind_run _ _ _ _ _ E). by eexists _, w'. }
  rewrite (M_bind_run _ _ _ _ _ E). unfold mbind, M_bind. specialize (IH w').
  destruct (shell_loop transactional lines w') as [[] ?]; done.
Qed.

(** ** Concrete sessions *)

Section samples.
#[local] Existing Instance map_storage.
#[local] Existing Instance map_storage_laws.
#[local] Existing Instance map_storage_reliable.
#[local] Existing Instance sample_bound.
#[local] Instance shell_profile : BuildProfile := true.

Lemma sample_transaction :
  transaction [(str_bytes "k", str_bytes "v"); (str_bytes "l", str_bytes "w")] (str_bytes "k") (str_bytes "12") (str_bytes "3000")
    (str_bytes "+20") (str_bytes "21") 12 3000 20 21 empty_srv.
Proof.
  split; try reflexivity.
  - apply (bool_decide_unpack (Forall (λ w, _ ≠ _ ∧ Forall _ _) _)). by vm_compute.
  - apply (bool_decide_unpack (Forall (λ p, (_ ≠ _ ∧ Forall _ _) ∧ (_ ≠ _ ∧ Forall _ _)) _)). by vm_compute.
  - split_and!; first [done|by split; vm_compute].
  - apply (bool_decide_unpack (NoDup _)). by vm_compute.
  - apply empty_ready.
  - vm_compute. lia.
Qed.

End samples.
