(* ===== verification/Cluster.v ===== *)
(** The scheduler's picture of the cluster: src/scheduler/cluster, the stores
    and regions with the indices from stores to regions and leaders that
    [BasicCluster::put_region] maintains, the load counts of the stores, and
    the store filters of src/scheduler/filter/filters.rs.

    Each map of [BasicCluster] has a lock of its own.  [put_region] takes them
    in three critical sections, which are definitions of their own here
    ([put_unindex], [put_index], [update_store_stats]): [put_region] composes
    them, and [cluster_step] interleaves those of several tasks.  A point of
    time and a duration are a number of nanoseconds; a definition that reads
    the clock takes what it read. *)

From S2P Require Import Prelude Bytes RaftTypes Proto.

(** ** metapb: stores *)

Inductive StoreState := Up | Offline | Tombstone.
#[export] Instance StoreState_eq_dec : EqDecision StoreState.
Proof. solve_decision. Defined.
Definition StoreState_from_i32 (z : Z) : option StoreState :=
  if z =? 0 then Some Up else if z =? 1 then Some Offline
  else if z =? 2 then Some Tombstone else None.

Record Store := mkStore { st_id : Z; st_address : bytes; st_state : Z }.
#[export] Instance Store_eq_dec : EqDecision Store.
Proof. solve_decision. Defined.

(** ** src/scheduler/cluster/region.rs *)

Record RegionInfo := mkRegionInfo {
  rgi_region : Region;
  rgi_leader : option Peer;
  rgi_pending_peers : list Peer;
  rgi_approximate_size : Z;
}.
#[export] Instance RegionInfo_eq_dec : EqDecision RegionInfo.
Proof. solve_decision. Defined.

Definition RegionInfo_new (region : Region) (leader : option Peer) : RegionInfo :=
  mkRegionInfo region leader [] 1.
Definition rgi_id (r : RegionInfo) : Z := rg_id (rgi_region r).
Definition rgi_peers (r : RegionInfo) : list Peer := rg_peers (rgi_region r).
Definition set_leader (leader : option Peer) (r : RegionInfo) : RegionInfo :=
  mkRegionInfo (rgi_region r) leader (rgi_pending_peers r) (rgi_approximate_size r).
Definition add_pending_peer (p : Peer) (r : RegionInfo) : RegionInfo :=
  mkRegionInfo (rgi_region r) (rgi_leader r) (rgi_pending_peers r ++ [p]) (rgi_approximate_size r).
Definition remove_pending_peer (peer_id : Z) (r : RegionInfo) : RegionInfo :=
  mkRegionInfo (rgi_region r) (rgi_leader r)
    (filter (λ p, pr_id p ≠ peer_id) (rgi_pending_peers r)) (rgi_approximate_size r).
Definition set_approximate_size (size : Z) (r : RegionInfo) : RegionInfo :=
  mkRegionInfo (rgi_region r) (rgi_leader r) (rgi_pending_peers r) size.
(** [RegionEpoch::default()] has both versions 0. *)
Definition region_epoch_or_default (r : Region) : RegionEpoch :=
  default (mkRegionEpoch 0 0) (rg_region_epoch r).
Definition rgi_epoch (r : RegionInfo) : RegionEpoch := region_epoch_or_default (rgi_region r).
Definition get_store_ids (r : RegionInfo) : gset Z := list_to_set (pr_store_id <$> rgi_peers r).
Definition get_leader_store_id (r : RegionInfo) : option Z := pr_store_id <$> rgi_leader r.
Definition get_follower_store_ids (r : RegionInfo) : list Z :=
  filter (λ s, Some s ≠ get_leader_store_id r) (pr_store_id <$> rgi_peers r).
Definition has_pending_peers (r : RegionInfo) : bool :=
  match rgi_pending_peers r with [] => false | _ :: _ => true end.
Definition is_healthy (r : RegionInfo) : bool :=
  match rgi_pending_peers r with [] => true | _ :: _ => false end.
Definition get_peer_by_store_id (store_id : Z) (r : RegionInfo) : option Peer :=
  snd <$> list_find (λ p, pr_store_id p = store_id) (rgi_peers r).

(** ** src/scheduler/cluster/store.rs *)

(** The fields [leader_weight] and [region_weight] are the constant 1.0,
    without a reader or a setter, and are left out. *)
Record StoreInfo := mkStoreInfo {
  si_meta : Store;
  si_leader_count : Z;
  si_region_count : Z;
  si_leader_size : Z;
  si_region_size : Z;
  si_pending_peer_count : Z;
  si_last_heartbeat : Z;
  si_blocked : bool;
  si_healthy : bool;
  si_avg_resp_ms : Z;
  si_error_count : Z;
  si_mem : Z * Z;
  si_disk : Z * Z;
  si_network_state : string;
}.
#[export] Instance StoreInfo_eq_dec : EqDecision StoreInfo.
Proof. solve_decision. Defined.

Definition StoreInfo_new (now : Z) (store : Store) : StoreInfo :=
  mkStoreInfo store 0 0 0 0 0 now false true 0 0 (0, 0) (0, 0) "normal".
Definition si_id (s : StoreInfo) : Z := st_id (si_meta s).
Definition si_state (s : StoreInfo) : StoreState := default Up (StoreState_from_i32 (st_state (si_meta s))).
Definition is_up (s : StoreInfo) : bool := bool_decide (si_state s = Up).

(** [update_region_count], [update_leader_count], [update_region_size] and
    [update_leader_size]. *)
Definition set_stats (rc lc rs ls : Z) (s : StoreInfo) : StoreInfo :=
  mkStoreInfo (si_meta s) lc rc ls rs (si_pending_peer_count s) (si_last_heartbeat s) (si_blocked s)
    (si_healthy s) (si_avg_resp_ms s) (si_error_count s) (si_mem s) (si_disk s) (si_network_state s).
Definition update_region_count (c : Z) (s : StoreInfo) : StoreInfo :=
  set_stats c (si_leader_count s) (si_region_size s) (si_leader_size s) s.
Definition update_leader_count (c : Z) (s : StoreInfo) : StoreInfo :=
  set_stats (si_region_count s) c (si_region_size s) (si_leader_size s) s.
Definition update_region_size (z : Z) (s : StoreInfo) : StoreInfo :=
  set_stats (si_region_count s) (si_leader_count s) z (si_leader_size s) s.
Definition update_leader_size (z : Z) (s : StoreInfo) : StoreInfo :=
  set_stats (si_region_count s) (si_leader_count s) (si_region_size s) z s.
Definition set_blocked (b : bool) (s : StoreInfo) : StoreInfo :=
  mkStoreInfo (si_meta s) (si_leader_count s) (si_region_count s) (si_leader_size s) (si_region_size s)
    (si_pending_peer_count s) (si_last_heartbeat s) b (si_healthy s) (si_avg_resp_ms s)
    (si_error_count s) (si_mem s) (si_disk s) (si_network_state s).
Definition update_heartbeat (now : Z) (s : StoreInfo) : StoreInfo :=
  mkStoreInfo (si_meta s) (si_leader_count s) (si_region_count s) (si_leader_size s) (si_region_size s)
    (si_pending_peer_count s) now (si_blocked s) (si_healthy s) (si_avg_resp_ms s)
    (si_error_count s) (si_mem s) (si_disk s) (si_network_state s).
(** [update_healthy] to [update_network_state]. *)
Definition update_metrics (healthy : bool) (resp errors : Z) (mem disk : Z * Z) (net : string)
    (s : StoreInfo) : StoreInfo :=
  mkStoreInfo (si_meta s) (si_leader_count s) (si_region_count s) (si_leader_size s) (si_region_size s)
    (si_pending_peer_count s) (si_last_heartbeat s) (si_blocked s) healthy resp errors mem disk net.
(** [now.duration_since(t).unwrap_or(Duration::ZERO)] *)
Definition elapsed (now t : Z) : Z := Z.max 0 (now - t).
Definition down_time (now : Z) (s : StoreInfo) : Z := elapsed now (si_last_heartbeat s).

(** ** src/scheduler/filter/filters.rs *)

(** The trait [Filter], given when its clock is read. *)
Record Filter := mkFilter { filter_source : Z → StoreInfo → bool; filter_target : Z → StoreInfo → bool }.

Definition down_too_long (max_down_time now : Z) (store : StoreInfo) : bool :=
  negb (is_up store) || si_blocked store || (max_down_time <? down_time now store).
Definition StoreStateFilter (max_down_time : Z) : Filter :=
  mkFilter (down_too_long max_down_time) (down_too_long max_down_time).

(** [now] gives the time at which each store is looked at. *)
Definition select_source_stores (now : Z → Z) (stores : list StoreInfo) (filters : list Filter) :
    list StoreInfo :=
  base.filter (λ s, forallb (λ f, negb (filter_source f (now (si_id s)) s)) filters = true) stores.
Definition select_target_stores (now : Z → Z) (stores : list StoreInfo) (filters : list Filter) :
    list StoreInfo :=
  base.filter (λ s, forallb (λ f, negb (filter_target f (now (si_id s)) s)) filters = true) stores.

(** ** src/scheduler/cluster/basic_cluster.rs *)

Record BasicCluster := mkCluster {
  bc_stores : gmap Z StoreInfo;
  bc_regions : gmap Z RegionInfo;
  bc_store_regions : gmap Z (gset Z);
  bc_store_leaders : gmap Z (gset Z);
}.

Section cluster.
Context `{prof : BuildProfile} `{order : HashOrder} `{rand : RandomSource}.

Definition BasicCluster_new : BasicCluster := mkCluster ∅ ∅ ∅ ∅.
Definition get_stores (c : BasicCluster) : list StoreInfo := hash_values (bc_stores c).
Definition get_store (store_id : Z) (c : BasicCluster) : option StoreInfo := bc_stores c !! store_id.
Definition put_store (store : StoreInfo) (c : BasicCluster) : BasicCluster :=
  mkCluster (<[si_id store := store]> (bc_stores c)) (bc_regions c)
    (bc_store_regions c) (bc_store_leaders c).
Definition get_regions (c : BasicCluster) : list RegionInfo := hash_values (bc_regions c).
Definition get_region (region_id : Z) (c : BasicCluster) : option RegionInfo :=
  bc_regions c !! region_id.

(** [if let Some(set) = map.get_mut(&k) { set.remove(&id); }] and
    [map.entry(k).or_insert_with(HashSet::new).insert(id)] *)
Definition index_remove (id k : Z) (m : gmap Z (gset Z)) : gmap Z (gset Z) :=
  alter (λ s, s ∖ {[id]}) k m.
Definition index_add (id k : Z) (m : gmap Z (gset Z)) : gmap Z (gset Z) :=
  <[k := default ∅ (m !! k) ∪ {[id]}]> m.
Definition leader_stores (r : RegionInfo) : list Z := option_list (get_leader_store_id r).

(** The first section removes what the indices hold of the old region. *)
Definition put_unindex (old : option RegionInfo) (region_id : Z) (c : BasicCluster) : BasicCluster :=
  match old with
  | None => c
  | Some old =>
      mkCluster (bc_stores c) (bc_regions c)
        (foldl (λ m p, index_remove region_id (pr_store_id p) m) (bc_store_regions c) (rgi_peers old))
        (foldl (λ m s, index_remove region_id s m) (bc_store_leaders c) (leader_stores old))
  end.

(** The second one enters the new region. *)
Definition put_index (region : RegionInfo) (c : BasicCluster) : BasicCluster :=
  mkCluster (bc_stores c) (<[rgi_id region := region]> (bc_regions c))
    (foldl (λ m p, index_add (rgi_id region) (pr_store_id p) m) (bc_store_regions c) (rgi_peers region))
    (foldl (λ m s, index_add (rgi_id region) s m) (bc_store_leaders c) (leader_stores region)).

(** The third one counts anew.  A store that is not registered is skipped. *)
Definition with_store (s : Z) (f : StoreInfo → outcome StoreInfo) : M (gmap Z StoreInfo) unit :=
  λ stores, match stores !! s with
            | Some st => (lift (f st) ≫= λ st', modify (<[s := st']>)) stores
            | None => (Ok tt, stores)
            end.
Definition count_region (region : RegionInfo) : M (gmap Z StoreInfo) unit :=
  let size := rgi_approximate_size region in
  for_each (rgi_peers region) (λ p,
    with_store (pr_store_id p) (λ st,
      n ← u64_add (si_region_count st) 1;
      z ← u64_add (si_region_size st) size;
      Ok (update_region_size z (update_region_count n st)))) ≫= λ _,
  for_each (leader_stores region) (λ s,
    with_store s (λ st,
      n ← u64_add (si_leader_count st) 1;
      z ← u64_add (si_leader_size st) size;
      Ok (update_leader_size z (update_leader_count n st)))).
Definition update_store_stats : M BasicCluster unit := λ c,
  let reset := set_stats 0 0 0 0 <$> bc_stores c in
  let '(o, stores) := for_each (hash_values (bc_regions c)) count_region reset in
  (o, mkCluster stores (bc_regions c) (bc_store_regions c) (bc_store_leaders c)).

Definition put_region (region : RegionInfo) : M BasicCluster unit :=
  c ← get;
  let old_region := get_region (rgi_id region) c in
  modify (put_unindex old_region (rgi_id region));;
  modify (put_index region);;
  update_store_stats.

Definition get_store_region_count (store_id : Z) (c : BasicCluster) : Z :=
  default 0 ((λ s : gset Z, Z.of_nat (size s)) <$> bc_store_regions c !! store_id).
Definition get_store_leader_count (store_id : Z) (c : BasicCluster) : Z :=
  default 0 ((λ s : gset Z, Z.of_nat (size s)) <$> bc_store_leaders c !! store_id).

(** [if !v.is_empty() { Some(v[rng.gen_range(0..v.len())]) } else { None }] *)
Definition pick {A} (l : list A) (g : rng) : option A * rng :=
  match l with
  | [] => (None, g)
  | _ :: _ => let '(i, g') := gen_range g 0 (Z.of_nat (length l) - 1) in (l !! Z.to_nat i, g')
  end.

(** The regions of [ids], in the order of the hash set, that satisfy [keep]. *)
Definition regions_of (ids : gset Z) (keep : RegionInfo → bool) (c : BasicCluster) : list RegionInfo :=
  base.filter (λ r, keep r = true) (omap (λ id, bc_regions c !! id) (hash_keys (gset_to_gmap tt ids))).
Definition rand_region (ids : option (gset Z)) (keep : RegionInfo → bool) (c : BasicCluster) (g : rng) :
    option RegionInfo * rng :=
  match ids with Some ids => pick (regions_of ids keep c) g | None => (None, g) end.

Definition rand_pending_region (store_id : Z) (c : BasicCluster) (g : rng) : option RegionInfo * rng :=
  rand_region (bc_store_regions c !! store_id) has_pending_peers c g.
Definition rand_follower_region (store_id : Z) (c : BasicCluster) (g : rng) : option RegionInfo * rng :=
  rand_region (bc_store_regions c !! store_id)
    (λ r, bool_decide (get_leader_store_id r ≠ Some store_id) && is_healthy r) c g.
Definition rand_leader_region (store_id : Z) (c : BasicCluster) (g : rng) : option RegionInfo * rng :=
  rand_region (bc_store_leaders c !! store_id) is_healthy c g.

(** Tasks that put regions at the same time: what each has left to do. *)
Inductive PutTask :=
| PutRead (region : RegionInfo)
| PutUnindex (region : RegionInfo) (old : option RegionInfo)
| PutIndex (region : RegionInfo)
| PutStats
| PutDone.
Inductive cluster_step : BasicCluster * gmap nat PutTask → BasicCluster * gmap nat PutTask → Prop :=
| step_read c ts t r :
    ts !! t = Some (PutRead r) →
    cluster_step (c, ts) (c, <[t := PutUnindex r (get_region (rgi_id r) c)]> ts)
| step_unindex c ts t r old :
    ts !! t = Some (PutUnindex r old) →
    cluster_step (c, ts) (put_unindex old (rgi_id r) c, <[t := PutIndex r]> ts)
| step_index c ts t r :
    ts !! t = Some (PutIndex r) →
    cluster_step (c, ts) (put_index r c, <[t := PutStats]> ts)
| step_stats c ts t c' :
    ts !! t = Some PutStats →
    update_store_stats c = (Ok tt, c') →
    cluster_step (c, ts) (c', <[t := PutDone]> ts).
End cluster.

(** ** The indices agree with the regions *)

Section indices.
Context `{prof : BuildProfile} `{order : HashOrder} `{rand : RandomSource}.

Definition indexed (m : gmap Z (gset Z)) (k id : Z) : Prop := id ∈ default ∅ (m !! k).

Lemma indexed_remove id k m k' id' :
  indexed (index_remove id k m) k' id' ↔ indexed m k' id' ∧ ¬ (k' = k ∧ id' = id).
Proof.
  unfold indexed, index_remove. destruct (decide (k' = k)) as [->|].
  - rewrite lookup_alter_eq. destruct (m !! k); cbn; set_solver.
  - rewrite lookup_alter_ne by done. set_solver.
Qed.

Lemma indexed_add id k m k' id' :
  indexed (index_add id k m) k' id' ↔ indexed m k' id' ∨ (k' = k ∧ id' = id).
Proof.
  unfold indexed, index_add. destruct (decide (k' = k)) as [->|].
  - rewrite lookup_insert_eq. cbn. set_solver.
  - rewrite lookup_insert_ne by done. set_solver.
Qed.

Lemma indexed_remove_all {A} (g : A → Z) id l m k' id' :
  indexed (foldl (λ m x, index_remove id (g x) m) m l) k' id' ↔
  indexed m k' id' ∧ ¬ (k' ∈ g <$> l ∧ id' = id).
Proof.
  revert m. induction l as [|x l IH]; intros m; cbn; [set_solver|].
  rewrite IH, indexed_remove, elem_of_cons. tauto.
Qed.

Lemma indexed_add_all {A} (g : A → Z) id l m k' id' :
  indexed (foldl (λ m x, index_add id (g x) m) m l) k' id' ↔
  indexed m k' id' ∨ (k' ∈ g <$> l ∧ id' = id).
Proof.
  revert m. induction l as [|x l IH]; intros m; cbn; [set_solver|].
  rewrite IH, indexed_add, elem_of_cons. tauto.
Qed.

(** The stores a region is on, and the one that leads it. *)
Definition stores_of (r : RegionInfo) : list Z := pr_store_id <$> rgi_peers r.

Record cluster_ok (c : BasicCluster) : Prop := {
  ok_ids : ∀ id r, bc_regions c !! id = Some r → rgi_id r = id;
  ok_regions : ∀ s id, indexed (bc_store_regions c) s id ↔
    ∃ r, bc_regions c !! id = Some r ∧ s ∈ stores_of r;
  ok_leaders : ∀ s id, indexed (bc_store_leaders c) s id ↔
    ∃ r, bc_regions c !! id = Some r ∧ get_leader_store_id r = Some s;
}.

Lemma elem_of_leader_stores s r : s ∈ (λ x, x) <$> leader_stores r ↔ get_leader_store_id r = Some s.
Proof. unfold leader_stores. rewrite list_fmap_id. destruct (get_leader_store_id r); cbn; set_solver. Qed.

(** Removing the old region of an index that agrees with [regions] and adding
    the new one gives an index that agrees with the new regions. *)
Lemma reindex_ok (on : RegionInfo → Z → Prop) (m m' : gmap Z (gset Z)) (regions : gmap Z RegionInfo) r :
  (∀ s id, indexed m s id ↔ ∃ r0, regions !! id = Some r0 ∧ on r0 s) →
  (∀ s id, indexed m' s id ↔
     (indexed m s id ∧ ¬ ((∃ old, regions !! rgi_id r = Some old ∧ on old s) ∧ id = rgi_id r)) ∨
     (on r s ∧ id = rgi_id r)) →
  ∀ s id, indexed m' s id ↔ ∃ r0, <[rgi_id r := r]> regions !! id = Some r0 ∧ on r0 s.
Proof.
  intros Hm Hm' s id. rewrite Hm', Hm. destruct (decide (id = rgi_id r)) as [->|Hne].
  - rewrite lookup_insert_eq. naive_solver.
  - rewrite lookup_insert_ne by done. naive_solver.
Qed.

Lemma put_sections_ok c r :
  cluster_ok c → cluster_ok (put_index r (put_unindex (get_region (rgi_id r) c) (rgi_id r) c)).
Proof.
  intros [Hid Hr Hl]. unfold get_region. split.
  - intros id r0. replace (bc_regions (put_index r _)) with (<[rgi_id r := r]> (bc_regions c))
      by (by destruct (bc_regions c !! rgi_id r)).
    rewrite lookup_insert_Some. naive_solver.
  - replace (bc_regions (put_index r _)) with (<[rgi_id r := r]> (bc_regions c))
      by (by destruct (bc_regions c !! rgi_id r)).
    apply reindex_ok with (m := bc_store_regions c) (on := λ r s, s ∈ stores_of r); [done|].
    intros s id. destruct (bc_regions c !! rgi_id r) as [old|] eqn:E; cbn; rewrite indexed_add_all;
      [rewrite indexed_remove_all|]; naive_solver.
  - replace (bc_regions (put_index r _)) with (<[rgi_id r := r]> (bc_regions c))
      by (by destruct (bc_regions c !! rgi_id r)).
    apply reindex_ok with (m := bc_store_leaders c) (on := λ r s, get_leader_store_id r = Some s); [done|].
    intros s id. destruct (bc_regions c !! rgi_id r) as [old|] eqn:E; cbn;
      rewrite (indexed_add_all (λ s, s)), elem_of_leader_stores;
      [rewrite (indexed_remove_all (λ s, s)), elem_of_leader_stores|]; naive_solver.
Qed.

Lemma update_store_stats_frame c :
  let c' := (update_store_stats c).2 in
  bc_regions c' = bc_regions c ∧ bc_store_regions c' = bc_store_regions c ∧
  bc_store_leaders c' = bc_store_leaders c.
Proof. unfold update_store_stats. by destruct (for_each _ _ _). Qed.

Lemma put_region_eq r c :
  put_region r c = update_store_stats (put_index r (put_unindex (get_region (rgi_id r) c) (rgi_id r) c)).
Proof. done. Qed.

Lemma put_region_regions r c : bc_regions (put_region r c).2 = <[rgi_id r := r]> (bc_regions c).
Proof.
  rewrite put_region_eq. destruct (update_store_stats_frame
    (put_index r (put_unindex (get_region (rgi_id r) c) (rgi_id r) c))) as [-> _].
  by destruct (get_region (rgi_id r) c).
Qed.

Lemma put_region_ok_run r c : cluster_ok c → cluster_ok (put_region r c).2.
Proof.
  intros Hc%(put_sections_ok _ r). rewrite put_region_eq.
  destruct (update_store_stats_frame (put_index r (put_unindex (get_region (rgi_id r) c) (rgi_id r) c)))
    as (E1 & E2 & E3).
  destruct Hc as [H1 H2 H3]. split; [rewrite E1|rewrite E1, E2|rewrite E1, E3]; done.
Qed.

(** *** Tasks that put different regions at the same time *)

Definition task_region (t : PutTask) : option Z :=
  match t with PutRead r | PutUnindex r _ | PutIndex r => Some (rgi_id r) | PutStats | PutDone => None end.
(** A task has taken the region out of the indices and not yet entered it. *)
Definition unindexed (ts : gmap nat PutTask) (id : Z) : Prop :=
  ∃ t r, ts !! t = Some (PutIndex r) ∧ rgi_id r = id.
Definition agrees (on : RegionInfo → Z → Prop) (m : gmap Z (gset Z)) (regions : gmap Z RegionInfo)
    (ts : gmap nat PutTask) : Prop :=
  ∀ s id, indexed m s id ↔ (∃ r, regions !! id = Some r ∧ on r s) ∧ ¬ unindexed ts id.

Record puts_ok (c : BasicCluster) (ts : gmap nat PutTask) : Prop := {
  po_ids : ∀ id r, bc_regions c !! id = Some r → rgi_id r = id;
  po_apart : ∀ i j ti tj id, ts !! i = Some ti → ts !! j = Some tj →
    task_region ti = Some id → task_region tj = Some id → i = j;
  po_old : ∀ t r old, ts !! t = Some (PutUnindex r old) → old = get_region (rgi_id r) c;
  po_regions : agrees (λ r s, s ∈ stores_of r) (bc_store_regions c) (bc_regions c) ts;
  po_leaders : agrees (λ r s, get_leader_store_id r = Some s) (bc_store_leaders c) (bc_regions c) ts;
}.

Lemma unindexed_insert (ts : gmap nat PutTask) t x id :
  unindexed (<[t := x]> ts) id ↔
    (∃ r, x = PutIndex r ∧ rgi_id r = id) ∨ ∃ t' r, t' ≠ t ∧ ts !! t' = Some (PutIndex r) ∧ rgi_id r = id.
Proof.
  unfold unindexed. split.
  - intros (t' & r & H & Hr). apply lookup_insert_Some in H as [[_ ->]|[Hne Ht]]; [left; by exists r|].
    right. exists t', r. split; [done|]. by split.
  - intros [(r & -> & Hr)|(t' & r & Hne & Ht & Hr)].
    + exists t, r. by rewrite lookup_insert_eq.
    + exists t', r. by rewrite lookup_insert_ne.
Qed.

(** A step of a task that neither takes a region out nor enters one. *)
Lemma unindexed_frame (ts : gmap nat PutTask) t old x id :
  ts !! t = Some old → (∀ r, old ≠ PutIndex r) → (∀ r, x ≠ PutIndex r) →
  unindexed (<[t := x]> ts) id ↔ unindexed ts id.
Proof.
  intros Ht Hold Hx. rewrite unindexed_insert. split.
  - intros [(r & -> & _)|(t' & r & _ & Ht' & Hr)]; [by destruct (Hx r)|by exists t', r].
  - intros (t' & r & Ht' & Hr). right. exists t', r. split; [|done]. intros ->. rewrite Ht in Ht'.
    injection Ht' as ->. by destruct (Hold r).
Qed.

Lemma apart_insert (ts : gmap nat PutTask) t old x :
  (∀ i j ti tj id, ts !! i = Some ti → ts !! j = Some tj → task_region ti = Some id → task_region tj = Some id → i = j) →
  ts !! t = Some old → task_region x = task_region old ∨ task_region x = None →
  ∀ i j ti tj id, <[t := x]> ts !! i = Some ti → <[t := x]> ts !! j = Some tj →
    task_region ti = Some id → task_region tj = Some id → i = j.
Proof.
  intros H Ht Hx i j ti tj id [[<- <-]|[Hi Hti]]%lookup_insert_Some [[<- <-]|[Hj Htj]]%lookup_insert_Some Ri Rj; try done.
  - destruct Hx as [Hx|Hx]; [|congruence]. eapply H; [exact Ht|exact Htj| |done]. congruence.
  - destruct Hx as [Hx|Hx]; [|congruence]. eapply H; [exact Hti|exact Ht|done|]. congruence.
  - by eapply H.
Qed.

Lemma old_insert (c c' : BasicCluster) (ts : gmap nat PutTask) t x :
  (∀ t r old, ts !! t = Some (PutUnindex r old) → old = get_region (rgi_id r) c) →
  (∀ r old, x = PutUnindex r old → old = get_region (rgi_id r) c') →
  (∀ t' r old, t' ≠ t → ts !! t' = Some (PutUnindex r old) → get_region (rgi_id r) c' = get_region (rgi_id r) c) →
  ∀ t' r old, <[t := x]> ts !! t' = Some (PutUnindex r old) → old = get_region (rgi_id r) c'.
Proof.
  intros H Hx Hc t' r old [[<- ->]|[Hne Ht]]%lookup_insert_Some; [by apply Hx|].
  rewrite (Hc t' r old) by done. by apply (H t').
Qed.

Lemma puts_ok_step c ts c' ts' : cluster_step (c, ts) (c', ts') → puts_ok c ts → puts_ok c' ts'.
Proof.
  intros Hstep [Hid Hap Hold Hr Hl]. inversion Hstep as
    [c0 ts0 t r Ht|c0 ts0 t r old Ht|c0 ts0 t r Ht|c0 ts0 t c1 Ht Hu]; subst; clear Hstep.
  - assert (∀ on m, agrees on m (bc_regions c') ts → agrees on m (bc_regions c') (<[t := PutUnindex r (get_region (rgi_id r) c')]> ts)) as Hag.
    { intros on m H s id. by rewrite (unindexed_frame ts t (PutRead r)). }
    split; [done|by apply (apart_insert ts t (PutRead r)); [|done|left]| |by apply Hag..].
    apply (old_insert c'); [done|by intros ? ? [= -> ->]|done].
  - assert (old = bc_regions c !! rgi_id r) as Eold by (by apply (Hold t)).
    assert (bc_regions (put_unindex old (rgi_id r) c) = bc_regions c) as Ereg by (by destruct old).
    assert (∀ on m m', agrees on m (bc_regions c) ts →
      (∀ s id, indexed m' s id ↔ indexed m s id ∧ ¬ ((∃ o, old = Some o ∧ on o s) ∧ id = rgi_id r)) →
      agrees on m' (bc_regions c) (<[t := PutIndex r]> ts)) as Hag.
    { intros on m m' H Hm' s id. rewrite Hm', (H s id), unindexed_insert, Eold. split.
      - intros [[(r0 & H0 & Hon) Hno] Hnot]. split; [by exists r0|]. intros [(r1 & [= <-] & <-)|(t' & r1 & _ & Ht' & Hid')].
        + apply Hnot. split; [|done]. by exists r0.
        + apply Hno. by exists t', r1.
      - intros [(r0 & H0 & Hon) Hno]. split.
        + split; [by exists r0|]. intros (t' & r1 & Ht' & Hid'). apply Hno. right. exists t', r1. split; [|done].
          intros ->. congruence.
        + intros [_ ->]. apply Hno. left. by exists r. }
    split; [by rewrite Ereg|by apply (apart_insert ts t (PutUnindex r old)); [|done|left]| | |]; rewrite ?Ereg.
    + apply (old_insert c); [done|done|]. intros. unfold get_region. by rewrite Ereg.
    + eapply Hag; [done|]. intros s id. clear -Eold. destruct old as [o|]; cbn.
      * rewrite indexed_remove_all. naive_solver.
      * naive_solver.
    + eapply Hag; [done|]. intros s id. clear -Eold. destruct old as [o|]; cbn.
      * rewrite (indexed_remove_all (λ s, s)), elem_of_leader_stores. naive_solver.
      * naive_solver.
  - assert (∀ t' x, t' ≠ t → ts !! t' = Some x → task_region x ≠ Some (rgi_id r)) as Hother.
    { intros t' x Hne Ht' Hx. apply Hne. eapply Hap; [exact Ht'|exact Ht|exact Hx|done]. }
    assert (∀ on m m', agrees on m (bc_regions c) ts →
      (∀ s id, indexed m' s id ↔ indexed m s id ∨ (on r s ∧ id = rgi_id r)) →
      agrees on m' (<[rgi_id r := r]> (bc_regions c)) (<[t := PutStats]> ts)) as Hag.
    { intros on m m' H Hm' s id. rewrite Hm', (H s id), unindexed_insert.
      destruct (decide (id = rgi_id r)) as [->|Hne].
      - rewrite lookup_insert_eq. split.
        + intros [[_ Hno]|[Hon _]]; [destruct Hno; by exists t, r|]. split; [by exists r|].
          intros [(? & ? & _)|(t' & r1 & Hne & Ht' & Hid')]; [done|].
          apply (Hother t' (PutIndex r1)); [done|done|]. cbn. by rewrite Hid'.
        + intros [(r0 & [= <-] & Hon) _]. by right.
      - rewrite lookup_insert_ne by done. split.
        + intros [[He Hno]|[_ ?]]; [|done]. split; [done|]. intros [(? & ? & _)|(t' & r1 & _ & Ht' & Hid')]; [done|].
          apply Hno. by exists t', r1.
        + intros [He Hno]. left. split; [done|]. intros (t' & r1 & Ht' & Hid'). apply Hno. right. exists t', r1.
          split; [|done]. intros ->. rewrite Ht in Ht'. injection Ht' as ->. done. }
    split; cbn [put_index bc_regions bc_store_regions bc_store_leaders].
    + intros id r0 [[<- <-]|[_ H]]%lookup_insert_Some; [done|by apply Hid].
    + apply (apart_insert ts t (PutIndex r)); [done|done|by right].
    + apply (old_insert c); [done|done|]. intros t' r1 old Hne Ht'. unfold get_region, put_index. cbn.
      apply lookup_insert_ne. intros Heq. apply (Hother t' _ Hne Ht'). cbn. by rewrite Heq.
    + eapply Hag; [done|]. intros s id. by rewrite indexed_add_all.
    + eapply Hag; [done|]. intros s id. by rewrite (indexed_add_all (λ s, s)), elem_of_leader_stores.
  - destruct (update_store_stats_frame c) as (E1 & E2 & E3). rewrite Hu in E1, E2, E3. cbn in E1, E2, E3.
    split; rewrite ?E1, ?E2, ?E3.
    + done.
    + apply (apart_insert ts t PutStats); [done|done|by left].
    + apply (old_insert c); [done|done|]. intros. unfold get_region. by rewrite E1.
    + intros s id. by rewrite (unindexed_frame ts t PutStats).
    + intros s id. by rewrite (unindexed_frame ts t PutStats).
Qed.

(** Any number of tasks put regions at the same time, each a region of its own:
    once they are done the indices agree with the regions. *)
Lemma apart_puts_ok c ts c' ts' :
  cluster_ok c →
  (∀ t x, ts !! t = Some x → ∃ r, x = PutRead r) →
  (∀ i j r r', ts !! i = Some (PutRead r) → ts !! j = Some (PutRead r') → rgi_id r = rgi_id r' → i = j) →
  rtc cluster_step (c, ts) (c', ts') → (∀ t x, ts' !! t = Some x → x = PutDone) → cluster_ok c'.
Proof.
  intros [H1 H2 H3] Hread Hap Hrun Hdone.
  assert (∀ id, ¬ unindexed ts id) as Hno.
  { intros id (t & r & (? & ?)%Hread & _). done. }
  assert (puts_ok c ts) as Hok.
  { split; [done| | | |].
    - intros i j ti tj id Hi Hj. destruct (Hread i ti Hi) as [r ->], (Hread j tj Hj) as [r' ->]. cbn.
      intros [= E] [= E']. by apply (Hap i j r r'); [..|congruence].
    - by intros t r old (? & ?)%Hread.
    - intros s id. rewrite H2. naive_solver.
    - intros s id. rewrite H3. naive_solver. }
  assert (puts_ok c' ts') as [G1 _ _ G2 G3].
  { clear Hread Hap Hdone Hno H1 H2 H3. remember (c, ts) as st eqn:E. remember (c', ts') as st' eqn:E'.
    revert c ts E Hok. induction Hrun as [st|st [c1 ts1] st' Hstep _ IH]; intros c ts -> Hok.
    - by injection E' as <- <-.
    - apply (IH E' c1 ts1 eq_refl). by eapply puts_ok_step. }
  assert (∀ id, ¬ unindexed ts' id) as Hno'. { by intros id (t & r & ?%Hdone & _). }
  split; [done| |]; intros s id; [rewrite (G2 s id)|rewrite (G3 s id)]; naive_solver.
Qed.
End indices.

(** ** The load counts are a recount of the regions *)

Section stats.
Context `{prof : BuildProfile} `{order : HashOrder} `{rand : RandomSource}.

Definition count {A} (g : A → Z) (s : Z) (l : list A) : Z :=
  Z.of_nat (length (base.filter (λ x, g x = s) l)).

Lemma count_cons {A} (g : A → Z) s x l :
  count g s (x :: l) = (if decide (g x = s) then 1 else 0) + count g s l.
Proof. unfold count. rewrite filter_cons. case_decide; cbn [length]; lia. Qed.

Lemma count_nonneg {A} (g : A → Z) s l : 0 ≤ count g s l.
Proof. unfold count. lia. Qed.

Lemma with_store_run s f h (stores : gmap Z StoreInfo) :
  (∀ st, stores !! s = Some st → f st = Ok (h st)) →
  with_store s f stores = (Ok tt, alter h s stores).
Proof.
  intros Hf. unfold with_store. destruct (stores !! s) as [st|] eqn:E.
  - rewrite (M_bind_run _ _ _ (h st) stores) by (by unfold lift; rewrite (Hf st)).
    unfold modify. f_equal. apply map_eq. intros k. destruct (decide (k = s)) as [->|].
    + by rewrite lookup_insert_eq, lookup_alter_eq, E.
    + by rewrite lookup_insert_ne, lookup_alter_ne.
  - by rewrite alter_id by (intros ? ?; congruence).
Qed.

(** A loop that changes the store of each of its elements in the same way:
    [h k] is the effect of [k] changes. *)
Lemma bump_loop {A} (g : A → Z) f (h : Z → StoreInfo → StoreInfo) l (stores : gmap Z StoreInfo) :
  (∀ st, h 0 st = st) → (∀ i j st, h i (h j st) = h (i + j) st) →
  (∀ s st k, stores !! s = Some st → 0 ≤ k < count g s l → f (h k st) = Ok (h (k + 1) st)) →
  ∃ stores', for_each l (λ x, with_store (g x) f) stores = (Ok tt, stores') ∧
    ∀ s, stores' !! s = h (count g s l) <$> stores !! s.
Proof.
  intros H0 Hadd. revert stores. induction l as [|x l IH]; intros stores Hf.
  - exists stores. split; [done|]. intros s. destruct (stores !! s); cbn; by rewrite ?H0.
  - assert (with_store (g x) f stores = (Ok tt, alter (h 1) (g x) stores)) as E.
    { apply with_store_run. intros st Hst. pose proof (count_nonneg g (g x) l) as Hn.
      rewrite <- (H0 st) at 1. apply (Hf (g x)); [done|]. rewrite count_cons, decide_True; [lia|done]. }
    destruct (IH (alter (h 1) (g x) stores)) as (stores' & E' & Hs).
    + intros s st k. destruct (decide (g x = s)) as [<-|Hne].
      * rewrite lookup_alter_eq. intros (st0 & Hst & ->)%fmap_Some Hk. rewrite !Hadd.
        replace (k + 1 + 1) with ((k + 1) + 1) by lia. apply (Hf (g x)); [done|].
        rewrite count_cons, decide_True; [lia|done].
      * rewrite lookup_alter_ne by done. intros Hst Hk. apply (Hf s); [done|].
        rewrite count_cons, decide_False; [lia|done].
    + exists stores'. split; [cbn; by rewrite (M_bind_run _ _ _ _ _ E)|].
      intros s. rewrite Hs, count_cons. destruct (decide (g x = s)) as [<-|Hne].
      * rewrite lookup_alter_eq. destruct (stores !! g x); cbn; [|done]. by rewrite Hadd, Z.add_comm.
      * by rewrite lookup_alter_ne.
Qed.

(** How many peers of a region a store holds, and whether it leads it. *)
Definition peers_on (s : Z) (r : RegionInfo) : Z := count pr_store_id s (rgi_peers r).
Definition leads (s : Z) (r : RegionInfo) : Z := if decide (get_leader_store_id r = Some s) then 1 else 0.

(** The statistics of store [s] after the regions of [l] are counted. *)
Definition add_stats (l : list RegionInfo) (s : Z) (st : StoreInfo) : StoreInfo :=
  set_stats (si_region_count st + zsum (peers_on s) l) (si_leader_count st + zsum (leads s) l)
    (si_region_size st + zsum (λ r, peers_on s r * rgi_approximate_size r) l)
    (si_leader_size st + zsum (λ r, leads s r * rgi_approximate_size r) l) st.

Definition stats_fit (st : StoreInfo) : Prop :=
  is_u64 (si_region_count st) ∧ is_u64 (si_leader_count st) ∧
  is_u64 (si_region_size st) ∧ is_u64 (si_leader_size st).

#[export] Instance stats_fit_dec st : Decision (stats_fit st).
Proof. unfold stats_fit. apply _. Defined.

Lemma leads_count s r : leads s r = count (λ x, x) s (leader_stores r).
Proof.
  unfold leads, leader_stores. destruct (get_leader_store_id r) as [s'|]; cbn; [|done].
  rewrite count_cons. unfold count. cbn. repeat case_decide; try lia; congruence.
Qed.

Lemma peers_on_nonneg s r : 0 ≤ peers_on s r.
Proof. apply count_nonneg. Qed.
Lemma leads_nonneg s r : 0 ≤ leads s r.
Proof. unfold leads. case_decide; lia. Qed.
#[local] Hint Resolve peers_on_nonneg leads_nonneg : aegis.

Definition bump_region (size k : Z) (st : StoreInfo) : StoreInfo :=
  set_stats (si_region_count st + k) (si_leader_count st) (si_region_size st + k * size) (si_leader_size st) st.
Definition bump_leader (size k : Z) (st : StoreInfo) : StoreInfo :=
  set_stats (si_region_count st) (si_leader_count st + k) (si_region_size st) (si_leader_size st + k * size) st.

Ltac stats_eq :=
  unfold bump_region, bump_leader, add_stats, update_region_size, update_region_count,
    update_leader_size, update_leader_count, set_stats; cbn -[peers_on leads];
  repeat lazymatch goal with |- @eq Z _ _ => fail | |- _ => progress f_equal end; ring.

Lemma bump_step (a k n size : Z) :
  0 ≤ a → 0 ≤ size → 0 ≤ k < n → is_u64 (a + n * size) → is_u64 (a + k * size + size).
Proof.
  unfold is_u64. intros Ha Hs Hk Hn. assert ((k + 1) * size ≤ n * size)
    by (apply Z.mul_le_mono_nonneg_r; lia). assert (0 ≤ k * size) by nia. lia.
Qed.

Lemma add_stats_cons r l s st : add_stats (r :: l) s st = add_stats l s (add_stats [r] s st).
Proof. destruct st. stats_eq. Qed.

Lemma count_region_run r (stores : gmap Z StoreInfo) :
  0 ≤ rgi_approximate_size r →
  (∀ s st, stores !! s = Some st → stats_fit st ∧ stats_fit (add_stats [r] s st)) →
  ∃ stores', count_region r stores = (Ok tt, stores') ∧
    ∀ s, stores' !! s = add_stats [r] s <$> stores !! s.
Proof.
  intros Hz Hfit. set (size := rgi_approximate_size r) in *.
  destruct (bump_loop pr_store_id
    (λ st, n ← u64_add (si_region_count st) 1; z ← u64_add (si_region_size st) size;
           Ok (update_region_size z (update_region_count n st)))
    (bump_region size) (rgi_peers r) stores) as (stores1 & E1 & H1).
  { intros []. stats_eq. }
  { intros i j []. stats_eq. }
  { intros s st k Hst Hk. destruct (Hfit s st Hst) as [(F1 & F2 & F3 & F4) (G1 & G2 & G3 & G4)].
    cbn -[peers_on] in G1, G3. fold (peers_on s r) in Hk. cbn.
    rewrite (u64_add_ok (si_region_count st + k)) by (unfold is_u64 in *; lia). cbn.
    rewrite u64_add_ok by (apply bump_step with (n := peers_on s r); unfold is_u64 in *; fold size in G3;
      rewrite ?Z.add_0_r in G3; lia).
    stats_eq. }
  destruct (bump_loop (λ x, x)
    (λ st, n ← u64_add (si_leader_count st) 1; z ← u64_add (si_leader_size st) size;
           Ok (update_leader_size z (update_leader_count n st)))
    (bump_leader size) (leader_stores r) stores1) as (stores2 & E2 & H2).
  { intros []. stats_eq. }
  { intros i j []. stats_eq. }
  { intros s st1 k. rewrite H1. intros (st & Hst & ->)%fmap_Some Hk.
    destruct (Hfit s st Hst) as [(F1 & F2 & F3 & F4) (G1 & G2 & G3 & G4)].
    cbn -[leads] in G2, G4. rewrite <- leads_count in Hk. cbn.
    rewrite (u64_add_ok (si_leader_count st + k)) by (unfold is_u64 in *; lia). cbn.
    rewrite u64_add_ok by (apply bump_step with (n := leads s r); unfold is_u64 in *; fold size in G4;
      rewrite ?Z.add_0_r in G4; lia).
    stats_eq. }
  exists stores2. split.
  - unfold count_region. fold size. by rewrite (M_bind_run _ _ _ _ _ E1).
  - intros s. rewrite H2, H1, <- leads_count. destruct (stores !! s) as [[]|]; [|done].
    unfold count. fold (count pr_store_id s (rgi_peers r)) (peers_on s r). subst size. cbn [fmap option_fmap]. stats_eq.
Qed.

Lemma add_stats_nonneg_fit l s st :
  (∀ r, r ∈ l → 0 ≤ rgi_approximate_size r) → stats_fit st → stats_fit (add_stats l s st) →
  ∀ r l', l = r :: l' → stats_fit (add_stats [r] s st).
Proof.
  intros Hz (F1 & F2 & F3 & F4) (G1 & G2 & G3 & G4) r l' ->.
  assert (0 ≤ rgi_approximate_size r) by (apply Hz; left).
  assert (Hz' : ∀ r, r ∈ l' → 0 ≤ rgi_approximate_size r) by (intros; apply Hz; by right).
  pose proof (zsum_nonneg (peers_on s) l' (λ r _, peers_on_nonneg s r)).
  pose proof (zsum_nonneg (leads s) l' (λ r _, leads_nonneg s r)).
  pose proof (zsum_nonneg (λ r, peers_on s r * rgi_approximate_size r) l'
    (λ r Hr, Z.mul_nonneg_nonneg _ _ (peers_on_nonneg s r) (Hz' r Hr))).
  pose proof (zsum_nonneg (λ r, leads s r * rgi_approximate_size r) l'
    (λ r Hr, Z.mul_nonneg_nonneg _ _ (leads_nonneg s r) (Hz' r Hr))).
  pose proof (peers_on_nonneg s r). pose proof (leads_nonneg s r).
  assert (0 ≤ peers_on s r * rgi_approximate_size r) by nia.
  assert (0 ≤ leads s r * rgi_approximate_size r) by nia.
  unfold stats_fit, is_u64 in *. cbn -[peers_on leads] in *. lia.
Qed.

Lemma count_regions_run l (stores : gmap Z StoreInfo) :
  (∀ r, r ∈ l → 0 ≤ rgi_approximate_size r) →
  (∀ s st, stores !! s = Some st → stats_fit st ∧ stats_fit (add_stats l s st)) →
  ∃ stores', for_each l count_region stores = (Ok tt, stores') ∧
    ∀ s, stores' !! s = add_stats l s <$> stores !! s.
Proof.
  revert stores. induction l as [|r l IH]; intros stores Hz Hfit.
  - exists stores. split; [done|]. intros s. destruct (stores !! s) as [[]|]; [|done].
    cbn [fmap option_fmap option_map]. stats_eq.
  - destruct (count_region_run r stores) as (stores1 & E1 & H1).
    { apply Hz. left. }
    { intros s st Hst. destruct (Hfit s st Hst) as [F1 F2]. split; [done|].
      by eapply add_stats_nonneg_fit. }
    destruct (IH stores1) as (stores2 & E2 & H2).
    { intros r' Hr'. apply Hz. by right. }
    { intros s st1. rewrite H1. intros (st & Hst & ->)%fmap_Some. destruct (Hfit s st Hst) as [F1 F2].
      rewrite <- add_stats_cons. split; [|done]. by eapply add_stats_nonneg_fit. }
    exists stores2. split; [cbn; by rewrite (M_bind_run _ _ _ _ _ E1)|].
    intros s. rewrite H2, H1. destruct (stores !! s) as [st|]; cbn; [|done]. by rewrite <- add_stats_cons.
Qed.

(** The statistics of [add_stats] do not depend on the order of the regions. *)
Lemma add_stats_perm l l' s st : l ≡ₚ l' → add_stats l s st = add_stats l' s st.
Proof. intros H. unfold add_stats. by rewrite !H. Qed.

Lemma hash_values_perm (m : gmap Z RegionInfo) : hash_values m ≡ₚ (map_to_list m).*2.
Proof. unfold hash_values. by rewrite hash_iter_perm. Qed.

Lemma elem_of_map_values (m : gmap Z RegionInfo) r : r ∈ (map_to_list m).*2 ↔ ∃ id, m !! id = Some r.
Proof.
  rewrite list_elem_of_fmap. split.
  - intros ([id r'] & -> & H%elem_of_map_to_list). eauto.
  - intros [id H]. exists (id, r). by rewrite elem_of_map_to_list.
Qed.

(** A sum of zeros and ones over the regions is the size of the set of the
    regions that count. *)
Lemma zsum_set (f : RegionInfo → Z) (m : gmap Z RegionInfo) (ids : gset Z) :
  (∀ id r, m !! id = Some r → f r = if decide (id ∈ ids) then 1 else 0) →
  (∀ id, id ∈ ids → is_Some (m !! id)) →
  zsum f (map_to_list m).*2 = Z.of_nat (size ids).
Proof.
  revert ids. induction m as [|id r m Hid IH] using map_ind; intros ids Hf Hin.
  - rewrite map_to_list_empty. cbn. replace ids with (∅ : gset Z); [done|].
    apply set_eq. intros id. split; [set_solver|]. intros [? H]%Hin. by rewrite lookup_empty in H.
  - rewrite map_to_list_insert by done. cbn. rewrite (Hf id r) by by rewrite lookup_insert_eq.
    rewrite (IH (ids ∖ {[id]})).
    + case_decide as Hd.
      * rewrite size_difference by set_solver. rewrite size_singleton.
        assert (size ids ≠ 0%nat) by (intros Hz%size_empty_inv; set_solver). lia.
      * replace (ids ∖ {[id]}) with ids by set_solver. lia.
    + intros id' r' Hr'. assert (id' ≠ id) by congruence. rewrite (Hf id' r') by by rewrite lookup_insert_ne.
      repeat case_decide; set_solver.
    + intros id' [Hi Hne]%elem_of_difference. destruct (Hin id' Hi) as [r' Hr'].
      rewrite lookup_insert_ne in Hr' by set_solver. eauto.
Qed.

Lemma indexed_default (m : gmap Z (gset Z)) s :
  default 0 ((λ ids : gset Z, Z.of_nat (size ids)) <$> m !! s) = Z.of_nat (size (default ∅ (m !! s))).
Proof. by destruct (m !! s). Qed.

Lemma peers_on_nodup s r : NoDup (stores_of r) → peers_on s r = if decide (s ∈ stores_of r) then 1 else 0.
Proof.
  unfold peers_on, stores_of. induction (rgi_peers r) as [|p l IH]; [done|].
  rewrite fmap_cons, NoDup_cons, count_cons. intros [Hp Hl]. rewrite IH by done.
  repeat case_decide; set_solver.
Qed.

Lemma region_count_spec c s :
  cluster_ok c → (∀ id r, bc_regions c !! id = Some r → NoDup (stores_of r)) →
  zsum (peers_on s) (map_to_list (bc_regions c)).*2 = get_store_region_count s c.
Proof.
  intros [_ Hr _] Hn. unfold get_store_region_count. rewrite indexed_default. apply zsum_set.
  - intros id r Hid. rewrite peers_on_nodup by eauto. specialize (Hr s id). unfold indexed in Hr.
    repeat case_decide; naive_solver.
  - intros id Hi. apply Hr in Hi as (r & Hi & _). eauto.
Qed.

Lemma leader_count_spec c s :
  cluster_ok c → zsum (leads s) (map_to_list (bc_regions c)).*2 = get_store_leader_count s c.
Proof.
  intros [_ _ Hl]. unfold get_store_leader_count. rewrite indexed_default. apply zsum_set.
  - intros id r Hid. unfold leads. specialize (Hl s id). unfold indexed in Hl.
    repeat case_decide; naive_solver.
  - intros id Hi. apply Hl in Hi as (r & Hi & _). eauto.
Qed.

Lemma update_store_stats_run c :
  (∀ id r, bc_regions c !! id = Some r → 0 ≤ rgi_approximate_size r) →
  (∀ s st, bc_stores c !! s = Some st →
     stats_fit (add_stats (map_to_list (bc_regions c)).*2 s (set_stats 0 0 0 0 st))) →
  ∃ c', update_store_stats c = (Ok tt, c') ∧
    ∀ s, bc_stores c' !! s =
      (λ st, add_stats (map_to_list (bc_regions c)).*2 s (set_stats 0 0 0 0 st)) <$> bc_stores c !! s.
Proof.
  intros Hz Hfit. pose proof (hash_values_perm (bc_regions c)) as Hp.
  destruct (count_regions_run (hash_values (bc_regions c)) (set_stats 0 0 0 0 <$> bc_stores c))
    as (stores' & E & H).
  { intros r. rewrite Hp, elem_of_map_values. intros [id Hid]. eauto. }
  { intros s st0. rewrite lookup_fmap. intros (st & Hst & ->)%fmap_Some.
    rewrite (add_stats_perm _ _ _ _ Hp). split; [|by apply Hfit].
    unfold stats_fit, is_u64, u64_max. cbn. lia. }
  unfold update_store_stats. rewrite E. eexists. split; [done|]. intros s. cbn.
  rewrite H, lookup_fmap. destruct (bc_stores c !! s); cbn; [|done]. by rewrite (add_stats_perm _ _ _ _ Hp).
Qed.

Lemma cluster_new_ok : cluster_ok BasicCluster_new.
Proof.
  split; cbn; [done| |]; intros s id; unfold indexed; rewrite lookup_empty; cbn;
    (split; [set_solver|]); intros (r0 & H & _); by rewrite lookup_empty in H.
Qed.

(** C25: Whatever the cluster held before and whatever happens while the load is
    counted, after [put_region] the region is the one found under its id, the
    other regions are as before, and the two indices agree with the regions:
    a store is listed with exactly the regions it has a peer of, and with
    exactly those it leads.  [put_store] keeps that, and an empty cluster has
    it. *)
Theorem put_region_keeps_indices (c : BasicCluster) (r : RegionInfo) (st : StoreInfo) :
  cluster_ok c →
  cluster_ok (put_region r c).2 ∧ cluster_ok (put_store st c) ∧ cluster_ok BasicCluster_new ∧
  (∀ id, get_region id (put_region r c).2 = if decide (id = rgi_id r) then Some r else get_region id c) ∧
  (∀ id, get_store id (put_store st c) = if decide (id = si_id st) then Some st else get_store id c).
Proof.
  intros Hc. split_and!.
  - by apply put_region_ok_run.
  - by destruct Hc.
  - apply cluster_new_ok.
  - intros id. unfold get_region. rewrite put_region_regions. case_decide as H.
    + subst. apply lookup_insert_eq.
    + by apply lookup_insert_ne.
  - intros id. unfold get_store, put_store. cbn. case_decide as H.
    + subst. apply lookup_insert_eq.
    + by apply lookup_insert_ne.
Qed.

Lemma for_each_dom r (stores : gmap Z StoreInfo) : dom (count_region r stores).2 = dom stores.
Proof.
  assert (Hw : ∀ s f (m : gmap Z StoreInfo), dom m = dom stores → dom (with_store s f m).2 = dom stores).
  { intros s f m Hm. unfold with_store. destruct (m !! s) as [st|] eqn:E; [|done].
    unfold mbind, M_bind, lift, modify. destruct (f st); cbn; try done.
    rewrite dom_insert_lookup_L by eauto. done. }
  unfold count_region. apply M_bind_inv with (P := λ m : gmap Z StoreInfo, dom m = dom stores).
  - apply for_each_inv; [|done]. intros; by apply Hw.
  - intros [] m _ Hm. apply for_each_inv; [|done]. intros; by apply Hw.
Qed.

Lemma put_region_dom r c c' o : put_region r c = (o, c') → dom (bc_stores c') = dom (bc_stores c).
Proof.
  rewrite put_region_eq. unfold update_store_stats. intros H.
  set (c1 := put_index r _) in H. assert (bc_stores c1 = bc_stores c) as E
    by (by subst c1; destruct (get_region (rgi_id r) c)).
  pose proof (for_each_inv (λ m : gmap Z StoreInfo, dom m = dom (bc_stores c)) (hash_values (bc_regions c1))
    count_region (set_stats 0 0 0 0 <$> bc_stores c1)) as Hd.
  destruct (for_each _ _ _) as [o' stores]. injection H as <- <-. apply Hd.
  - intros r0 m _ Hm. by rewrite for_each_dom.
  - by rewrite dom_fmap_L, E.
Qed.

(** Unless a count overflows, [put_region] returns, keeps the stores
    registered and leaves each of them with a recount: the number of its peers
    and of the regions it leads, and their sizes, over the regions held then.
    Where no region has two peers on one store, the counts of a store are
    the sizes of its two indices. *)
Theorem put_region_counts (c : BasicCluster) (r : RegionInfo) :
  let regions := <[rgi_id r := r]> (bc_regions c) in
  cluster_ok c →
  (∀ id r0, regions !! id = Some r0 → 0 ≤ rgi_approximate_size r0) →
  (∀ s st, get_store s c = Some st →
     stats_fit (add_stats (map_to_list regions).*2 s (set_stats 0 0 0 0 st))) →
  ∃ c', put_region r c = (Ok tt, c') ∧
    (∀ s, get_store s c' =
       (λ st, add_stats (map_to_list regions).*2 s (set_stats 0 0 0 0 st)) <$> get_store s c) ∧
    (∀ s st, get_store s c' = Some st → si_leader_count st = get_store_leader_count s c') ∧
    ((∀ id r0, regions !! id = Some r0 → NoDup (stores_of r0)) →
     ∀ s st, get_store s c' = Some st → si_region_count st = get_store_region_count s c').
Proof.
  cbv zeta. intros Hc Hz Hfit.
  set (c1 := put_index r (put_unindex (get_region (rgi_id r) c) (rgi_id r) c)).
  assert (bc_regions c1 = <[rgi_id r := r]> (bc_regions c)) as E1
    by (by subst c1; destruct (get_region (rgi_id r) c)).
  assert (bc_stores c1 = bc_stores c) as E2 by (by subst c1; destruct (get_region (rgi_id r) c)).
  pose proof (put_region_ok_run r c Hc) as Hok. pose proof (put_region_regions r c) as Hreg.
  rewrite <- E1 in Hz, Hfit |- *. unfold get_store in *. rewrite <- E2 in Hfit |- *.
  destruct (update_store_stats_run c1 Hz Hfit) as (c' & E & Hs).
  exists c'. rewrite put_region_eq in *. fold c1 in Hok, Hreg |- *. rewrite E in Hok, Hreg |- *. cbn in Hok, Hreg.
  rewrite <- E1 in Hreg. split_and!; [done|done| |].
  - intros s st. rewrite Hs. intros (st0 & _ & ->)%fmap_Some.
    rewrite <- leader_count_spec, Hreg by done. cbn. lia.
  - intros Hn s st. rewrite Hs. intros (st0 & _ & ->)%fmap_Some.
    rewrite <- region_count_spec, Hreg by (rewrite ?Hreg; done). cbn. lia.
Qed.

(** What [rand_region] answers is one of the indexed regions that satisfy the
    condition, and it answers nothing only when there is none. *)
Lemma rand_region_sound ids keep c g r :
  (rand_region (Some ids) keep c g).1 = Some r →
  ∃ id, id ∈ ids ∧ bc_regions c !! id = Some r ∧ keep r = true.
Proof.
  cbn. unfold pick. destruct (regions_of ids keep c) as [|r0 l] eqn:E; [done|].
  destruct (gen_range _ _ _) as [i g']. cbn [fst]. intros H%list_elem_of_lookup_2.
  rewrite <- E in H. unfold regions_of in H. apply list_elem_of_filter in H as [Hk H].
  apply list_elem_of_omap in H as (id & Hid & Hr). apply elem_of_hash_keys in Hid as [u Hu].
  apply lookup_gset_to_gmap_Some in Hu as [Hi _]. eauto.
Qed.

Lemma pick_none {A} (l : list A) g : (pick l g).1 = None → l = [].
Proof.
  unfold pick. destruct l as [|x l]; [done|].
  pose proof (gen_range_bounds g 0 (Z.of_nat (length (x :: l)) - 1)) as Hb.
  destruct (gen_range _ _ _) as [i g']. cbn [fst] in *. intros H%lookup_ge_None_1. cbn [length] in *. lia.
Qed.

Lemma indexed_default_some (m : gmap Z (gset Z)) s ids id :
  m !! s = Some ids → id ∈ ids → indexed m s id.
Proof. unfold indexed. by intros ->. Qed.

(** In a cluster whose indices agree with its regions the three random
    choices are sound. *)
Lemma rand_sound c s g r :
  cluster_ok c →
  ((rand_pending_region s c g).1 = Some r → s ∈ stores_of r ∧ get_region (rgi_id r) c = Some r) ∧
  ((rand_follower_region s c g).1 = Some r →
     s ∈ stores_of r ∧ get_leader_store_id r ≠ Some s ∧ rgi_pending_peers r = [] ∧
     get_region (rgi_id r) c = Some r) ∧
  ((rand_leader_region s c g).1 = Some r →
     get_leader_store_id r = Some s ∧ rgi_pending_peers r = [] ∧ get_region (rgi_id r) c = Some r).
Proof.
  intros [Hid Hr Hl]. unfold rand_pending_region, rand_follower_region, rand_leader_region.
  assert (Hh : ∀ r0, is_healthy r0 = true → rgi_pending_peers r0 = [])
    by (intros r0; unfold is_healthy; by destruct (rgi_pending_peers r0)).
  split_and!.
  - destruct (bc_store_regions c !! s) as [ids|] eqn:E; [|done].
    intros (id & Hi & Hc & _)%rand_region_sound. unfold get_region. rewrite (Hid _ _ Hc).
    apply (indexed_default_some _ _ _ _ E), Hr in Hi. naive_solver.
  - destruct (bc_store_regions c !! s) as [ids|] eqn:E; [|done].
    intros (id & Hi & Hc & Hk)%rand_region_sound. unfold get_region. rewrite (Hid _ _ Hc).
    apply andb_true_iff in Hk as [Hk%bool_decide_eq_true Hh'].
    apply (indexed_default_some _ _ _ _ E), Hr in Hi. naive_solver.
  - destruct (bc_store_leaders c !! s) as [ids|] eqn:E; [|done].
    intros (id & Hi & Hc & Hk)%rand_region_sound. unfold get_region. rewrite (Hid _ _ Hc).
    apply (indexed_default_some _ _ _ _ E), Hl in Hi. naive_solver.
Qed.

(** The state filter lets through exactly the stores that are up, not blocked
    and heard of within [max_down_time]; it does not tell sources from
    targets. *)
Lemma state_filter_exact now stores d st :
  st ∈ select_target_stores now stores [StoreStateFilter d] ↔
  st ∈ stores ∧ si_state st = Up ∧ si_blocked st = false ∧ down_time (now (si_id st)) st ≤ d.
Proof.
  unfold select_target_stores. rewrite list_elem_of_filter. cbn. unfold down_too_long, is_up.
  rewrite andb_true_r, negb_true_iff, !orb_false_iff, negb_false_iff, bool_decide_eq_true, Z.ltb_ge. tauto.
Qed.
Lemma select_source_target now stores d :
  select_source_stores now stores [StoreStateFilter d] = select_target_stores now stores [StoreStateFilter d].
Proof. done. Qed.
End stats.

(** ** Samples *)

Section samples.
#[local] Existing Instance map_order.
#[local] Existing Instance low_rng.
#[local] Instance checked : BuildProfile := true.

Definition sample_store (id : Z) : StoreInfo := StoreInfo_new 0 (mkStore id [] 0).
Definition sample_region (id : Z) (peers : list Peer) (leader : option Peer) : RegionInfo :=
  RegionInfo_new (mkRegion id [] [] (Some (mkRegionEpoch 1 1)) peers) leader.
Definition three_stores : BasicCluster :=
  foldl (λ c s, put_store (sample_store s) c) BasicCluster_new [1; 2; 3].
Definition on_1_2 : RegionInfo := sample_region 7 [mkPeer 11 1; mkPeer 12 2] (Some (mkPeer 11 1)).

Lemma three_stores_ok : cluster_ok three_stores.
Proof.
  split; [intros id r H|intros s id..]; try (vm_compute in H; done);
    unfold indexed; change (bc_store_regions three_stores) with (∅ : gmap Z (gset Z));
    change (bc_store_leaders three_stores) with (∅ : gmap Z (gset Z));
    change (bc_regions three_stores) with (∅ : gmap Z RegionInfo);
    setoid_rewrite lookup_empty; set_solver.
Qed.

Lemma put_region_keeps_indices_witness : cluster_ok (put_region on_1_2 three_stores).2.
Proof. exact (proj1 (put_region_keeps_indices three_stores on_1_2 (sample_store 1) three_stores_ok)). Defined.

Lemma put_region_counts_witness :
  ∃ c', put_region on_1_2 three_stores = (Ok tt, c') ∧
    ∀ s st, get_store s c' = Some st → si_leader_count st = get_store_leader_count s c'.
Proof.
  destruct (put_region_counts three_stores on_1_2 three_stores_ok) as (c' & E & _ & H & _).
  - intros id r0 [(_ & <-)|(_ & H)]%lookup_insert_Some; [done|by vm_compute in H].
  - refine (bool_decide_unpack (map_Forall (λ s st, stats_fit (add_stats _ s (set_stats 0 0 0 0 st)))
      (bc_stores three_stores)) _). by vm_compute.
  - exists c'. split; [exact E|exact H].
Defined.

(** Two stores report region 7 at the same time, as the old and the new leader
    do: both tasks read the region of before, so neither removes what the other
    one enters. *)
Definition on_1_3 : RegionInfo := sample_region 7 [mkPeer 11 1; mkPeer 13 3] (Some (mkPeer 13 3)).

(** FINDING: [put_region] reads the old region in one critical section and
    uses it in the next ones.  Two tasks that put the same region can leave
    the indices wrong for good: store 2 is listed with a region that has no
    peer on it. *)
Theorem concurrent_put_region_corrupts :
  ∃ c, rtc cluster_step (three_stores, {[0%nat := PutRead on_1_2; 1%nat := PutRead on_1_3]})
         (c, {[0%nat := PutDone; 1%nat := PutDone]}) ∧
    ¬ cluster_ok c ∧ get_region 7 c = Some on_1_3 ∧ indexed (bc_store_regions c) 2 7.
Proof.
  eexists. split; [|split; [|split]].
  - eapply rtc_l; [eapply (step_read _ _ 0%nat); reflexivity|].
    eapply rtc_l; [eapply (step_read _ _ 1%nat); reflexivity|].
    eapply rtc_l; [eapply (step_unindex _ _ 0%nat); reflexivity|].
    eapply rtc_l; [eapply (step_unindex _ _ 1%nat); reflexivity|].
    eapply rtc_l; [eapply (step_index _ _ 0%nat); reflexivity|].
    eapply rtc_l; [eapply (step_index _ _ 1%nat); reflexivity|].
    eapply rtc_l; [eapply (step_stats _ _ 0%nat); [reflexivity|vm_compute; reflexivity]|].
    eapply rtc_l; [eapply (step_stats _ _ 1%nat); [reflexivity|vm_compute; reflexivity]|].
    vm_compute. apply rtc_refl.
  - intros [_ H _]. destruct (proj1 (H 2 7)) as (r & Hr & Hs); [by vm_compute|].
    vm_compute in Hr. injection Hr as <-. vm_compute in Hs. set_solver.
  - reflexivity.
  - by vm_compute.
Qed.
End samples.
