(* ===== verification/Operator.v ===== *)
(** Scheduling operators: src/scheduler/operator/operator.rs.  An operator is a
    list of steps on one region with the index of the step it is at.  The
    trait object [dyn OpStep] is the inductive type of its three
    implementations, so [Operator::clone], which copies each step by its
    concrete type, is the identity. *)

From S2P Require Import Prelude Bytes Proto Cluster.
From stdpp Require Import pretty.
Open Scope Z_scope.

Inductive OpKind := OkRegion | OkLeader | OkAdmin.
#[export] Instance OpKind_eq_dec : EqDecision OpKind.
Proof. solve_decision. Defined.
#[export] Instance OpKind_countable : Countable OpKind.
Proof.
  refine (inj_countable' (λ k, match k with OkRegion => 0 | OkLeader => 1 | OkAdmin => 2 end)
    (λ z, if z =? 0 then OkRegion else if z =? 1 then OkLeader else OkAdmin) _). by intros [].
Defined.

Inductive OpStep :=
| AddPeer (to_store peer_id : Z)
| RemovePeer (from_store : Z)
| TransferLeader (from_store to_store : Z).
#[export] Instance OpStep_eq_dec : EqDecision OpStep.
Proof. solve_decision. Defined.

Definition has_peer_on (store : Z) (region : RegionInfo) : bool :=
  existsb (λ p, pr_store_id p =? store) (rgi_peers region).
Definition has_peer (peer_id store : Z) (region : RegionInfo) : bool :=
  existsb (λ p, (pr_id p =? peer_id) && (pr_store_id p =? store)) (rgi_peers region).

Definition conf_ver_changed (step : OpStep) (region : RegionInfo) : bool :=
  match step with
  | AddPeer to_store peer_id => has_peer peer_id to_store region
  | RemovePeer from_store => negb (has_peer_on from_store region)
  | TransferLeader _ _ => false
  end.
Definition is_finish (step : OpStep) (region : RegionInfo) : bool :=
  match step with
  | AddPeer to_store peer_id =>
      has_peer peer_id to_store region
      && negb (existsb (λ p, pr_id p =? peer_id) (rgi_pending_peers region))
  | RemovePeer from_store => negb (has_peer_on from_store region)
  | TransferLeader _ to_store => bool_decide (get_leader_store_id region = Some to_store)
  end.

Record Operator := mkOperator {
  op_desc : string;
  op_region_id : Z;
  op_region_epoch : RegionEpoch;
  op_kind : OpKind;
  op_steps : list OpStep;
  op_current_step : nat;
  op_create_time : Z;
  op_start_time : option Z;
}.
#[export] Instance Operator_eq_dec : EqDecision Operator.
Proof. solve_decision. Defined.

(** [Operator::new], called at the time [now]. *)
Definition Operator_new (now : Z) (desc : string) (region_id : Z) (region_epoch : RegionEpoch)
    (kind : OpKind) (steps : list OpStep) : Operator :=
  mkOperator desc region_id region_epoch kind steps 0 now None.

Definition create_move_peer_operator (now : Z) (desc : string) (region : RegionInfo)
    (from_store to_store new_peer_id : Z) : Operator :=
  let steps := [AddPeer to_store new_peer_id] in
  let steps := if decide (get_leader_store_id region = Some from_store)
               then steps ++ [TransferLeader from_store to_store] else steps in
  let steps := steps ++ [RemovePeer from_store] in
  Operator_new now desc (rgi_id region) (rgi_epoch region) OkRegion steps.

Definition create_transfer_leader_operator (now : Z) (desc : string) (region : RegionInfo)
    (from_store to_store : Z) : Operator :=
  Operator_new now desc (rgi_id region) (rgi_epoch region) OkLeader [TransferLeader from_store to_store].
Definition create_add_peer_operator (now : Z) (desc : string) (region : RegionInfo)
    (to_store peer_id : Z) : Operator :=
  Operator_new now desc (rgi_id region) (rgi_epoch region) OkRegion [AddPeer to_store peer_id].
Definition create_remove_peer_operator (now : Z) (desc : string) (region : RegionInfo)
    (from_store : Z) : Operator :=
  Operator_new now desc (rgi_id region) (rgi_epoch region) OkRegion [RemovePeer from_store].

(** The step to do now, unless the region shows that it is done. *)
Definition op_check (region : RegionInfo) (op : Operator) : option OpStep :=
  match op_steps op !! op_current_step op with
  | None => None
  | Some step => if is_finish step region then None else Some step
  end.

Definition secs (n : Z) : Z := n * 10 ^ 9.
Definition op_timeout (kind : OpKind) : Z :=
  match kind with OkLeader => secs 10 | OkRegion => secs 600 | OkAdmin => secs 600 end.
Definition is_timeout (now : Z) (op : Operator) : bool :=
  op_timeout (op_kind op) <? elapsed now (default (op_create_time op) (op_start_time op)).

Definition op_start (now : Z) (op : Operator) : Operator :=
  mkOperator (op_desc op) (op_region_id op) (op_region_epoch op) (op_kind op) (op_steps op)
    (op_current_step op) (op_create_time op) (Some now).
Definition next_step (op : Operator) : Operator :=
  if decide (op_current_step op < length (op_steps op))%nat then
    mkOperator (op_desc op) (op_region_id op) (op_region_epoch op) (op_kind op) (op_steps op)
      (S (op_current_step op)) (op_create_time op) (op_start_time op)
  else op.

(** [op.current_step >= op.steps.len()] *)
Definition op_done (op : Operator) : bool := (length (op_steps op) <=? op_current_step op)%nat.

(** ** Lemmas *)

Lemma has_peer_on_spec s r : has_peer_on s r = true ↔ s ∈ stores_of r.
Proof.
  unfold has_peer_on, stores_of. rewrite existsb_exists, list_elem_of_fmap. setoid_rewrite list_elem_of_In.
  setoid_rewrite Z.eqb_eq. naive_solver.
Qed.

Lemma op_check_done r op step : op_check r op = Some step → op_done op = false.
Proof.
  unfold op_check, op_done. destruct (_ !! _) eqn:E; [|done]. apply lookup_lt_Some in E.
  intros _. apply Nat.leb_gt. lia.
Qed.

Lemma next_step_steps op : op_steps (next_step op) = op_steps op.
Proof. unfold next_step. by case_decide. Qed.

(** Every step an operator of this module is made of concerns one of the
    stores it was made for; a move ends with the removal, after the addition. *)
Lemma move_peer_steps now desc r from to pid :
  op_steps (create_move_peer_operator now desc r from to pid) =
  if decide (get_leader_store_id r = Some from)
  then [AddPeer to pid; TransferLeader from to; RemovePeer from] else [AddPeer to pid; RemovePeer from].
Proof. cbn. by case_decide. Qed.
