(* ===== verification/OperatorController.v ===== *)
(** The operator controller: src/scheduler/operator_controller.rs, which runs
    at most one operator per region and steps it when a region reports, and
    src/scheduler/heartbeat_streams.rs, which carries its commands to the
    stores.

    The trait [HeartbeatStreams] is a class; [SimpleHeartbeatStreams] is its
    instance.  The maps of the controller are behind [parking_lot::RwLock]s,
    which are not reentrant: a method that asks for a lock it holds waits for
    ever, and the model says [Diverge].  Log messages are left out. *)

From S2P Require Import Prelude Bytes RaftTypes Proto Cluster Operator.

(** ** schedulerpb *)

Record RequestHeader := mkRequestHeader { rqh_cluster_id : Z; rqh_sender_id : Z }.
Record ResponseHeader := mkResponseHeader { rsh_cluster_id : Z; rsh_error : option Error }.
(** [ConfChangeType] of src/proto/eraftpb.rs as a [u32]. *)
Definition AddNode : Z := 0.
Definition RemoveNode : Z := 1.
Record ChangePeer := mkChangePeer { cp_peer : option Peer; cp_change_type : Z }.
Record PbTransferLeader := mkPbTransferLeader { tl_peer : option Peer }.
Record RegionHeartbeatResponse := mkRegionHeartbeatResponse {
  hr_header : option ResponseHeader;
  hr_change_peer : option ChangePeer;
  hr_transfer_leader : option PbTransferLeader;
  hr_region_id : Z;
  hr_region_epoch : option RegionEpoch;
  hr_target_peer : option Peer;
}.

Class HeartbeatStreams := {
  hb_streams : Type;
  send_msg : RegionInfo → RegionHeartbeatResponse → hb_streams → hb_streams;
}.

Inductive OperatorStatus := OsRunning | OsSuccess | OsTimeout | OsCancel | OsReplace.
#[export] Instance OperatorStatus_eq_dec : EqDecision OperatorStatus.
Proof. solve_decision. Defined.

Record OperatorWithStatus := mkOperatorWithStatus { ows_operator : Operator; ows_status : OperatorStatus }.

Section controller.
Context `{order : HashOrder} `{hb : HeartbeatStreams}.

(** The cluster, which the controller shares with others, is an argument of
    the methods that read it. *)
Record OperatorController := mkController {
  oc_operators : gmap Z Operator;
  oc_hb_streams : hb_streams;
  oc_counts : gmap OpKind Z;
  oc_op_records : gmap Z OperatorWithStatus;
}.
Definition OperatorController_new (h : hb_streams) : OperatorController := mkController ∅ h ∅ ∅.

Definition running_len (c : OperatorController) : Z := Z.of_nat (size (oc_operators c)).
Definition pending_len (c : OperatorController) : Z := 0.
Definition finished_len (c : OperatorController) : Z := Z.of_nat (size (oc_op_records c)).
Definition get_operator (region_id : Z) (c : OperatorController) : option Operator :=
  oc_operators c !! region_id.
Definition get_operators (c : OperatorController) : list Operator := hash_values (oc_operators c).
Definition operator_count (mask : OpKind) (c : OperatorController) : Z := default 0 (oc_counts c !! mask).
Definition get_operator_status (region_id : Z) (c : OperatorController) : option OperatorWithStatus :=
  match oc_operators c !! region_id with
  | Some op => Some (mkOperatorWithStatus op OsRunning)
  | None => oc_op_records c !! region_id
  end.

Definition set_operators (f : gmap Z Operator → gmap Z Operator) (c : OperatorController) : OperatorController :=
  mkController (f (oc_operators c)) (oc_hb_streams c) (oc_counts c) (oc_op_records c).

(** A count of the entries of a map does not reach [2^64]. *)
Definition count_kinds (operators : gmap Z Operator) : gmap OpKind Z :=
  foldl (λ m op, <[op_kind op := default 0 (m !! op_kind op) + 1]> m) ∅ (hash_values operators).
Definition update_counts (c : OperatorController) : OperatorController :=
  mkController (oc_operators c) (oc_hb_streams c) (count_kinds (oc_operators c)) (oc_op_records c).
Definition put_op_record (op : Operator) (status : OperatorStatus) (c : OperatorController) : OperatorController :=
  mkController (oc_operators c) (oc_hb_streams c) (oc_counts c)
    (<[op_region_id op := mkOperatorWithStatus op status]> (oc_op_records c)).

(** The message [send_schedule_command] builds for a step. *)
Definition schedule_command (region : RegionInfo) (step : OpStep) : RegionHeartbeatResponse :=
  let response change transfer :=
    mkRegionHeartbeatResponse None change transfer (rgi_id region) (Some (rgi_epoch region)) None in
  match step with
  | TransferLeader _ to_store =>
      match get_peer_by_store_id to_store region with
      | Some peer => response None (Some (mkPbTransferLeader (Some peer)))
      | None => response None None
      end
  | AddPeer to_store peer_id =>
      match get_peer_by_store_id to_store region with
      | None => response (Some (mkChangePeer (Some (mkPeer peer_id to_store)) AddNode)) None
      | Some _ => response None None
      end
  | RemovePeer from_store =>
      match get_peer_by_store_id from_store region with
      | Some peer => response (Some (mkChangePeer (Some peer) RemoveNode)) None
      | None => response None None
      end
  end.
Definition send_schedule_command (region : RegionInfo) (step : OpStep) (c : OperatorController) : OperatorController :=
  mkController (oc_operators c) (send_msg region (schedule_command region step) (oc_hb_streams c))
    (oc_counts c) (oc_op_records c).

(** The operator is taken out, the counts are updated, the record is written. *)
Definition end_operator (region_id : Z) (op : Operator) (status : OperatorStatus) (c : OperatorController) :
    OperatorController :=
  put_op_record op status (update_counts (set_operators (delete region_id) c)).

(** A report of the region allows one change of its configuration, if the
    step shows that it made it; more are somebody else's. *)
Definition stale_operator (region : RegionInfo) (op : Operator) (step : OpStep) : bool :=
  let changes := Z.max 0 (re_conf_ver (rgi_epoch region) - re_conf_ver (op_region_epoch op)) in
  (if conf_ver_changed step region then 1 else 0) <? changes.

(** A finished step is left, one per call. *)
Definition leave_finished (region : RegionInfo) (op : Operator) : Operator :=
  match op_steps op !! op_current_step op with
  | Some step => if is_finish step region then next_step op else op
  | None => op
  end.

(** [now] is when the clock is read for the timeout. *)
Definition dispatch (now : Z) (region : RegionInfo) (source : string) (c : OperatorController) : OperatorController :=
  let region_id := rgi_id region in
  match oc_operators c !! region_id with
  | None => c
  | Some op =>
      let timeout := is_timeout now op in
      let op := leave_finished region op in
      let c := set_operators <[region_id := op]> c in
      if op_done op then end_operator region_id op OsSuccess c
      else if timeout then end_operator region_id op OsTimeout c
      else
        match op_check region op with
        | None => c
        | Some step =>
            if bool_decide (source = "heartbeat") && stale_operator region op step
            then end_operator region_id op OsCancel c
            else
              match get_operator region_id c with
              | None => c
              | Some op =>
                  match op_check region op with
                  | None => c
                  | Some step => send_schedule_command region step c
                  end
              end
        end
  end.

Fixpoint check_add_operator (cluster : BasicCluster) (ops : list Operator) (operators : gmap Z Operator) : bool :=
  match ops with
  | [] => true
  | op :: ops' =>
      match get_region (op_region_id op) cluster with
      | None => false
      | Some region =>
          let region_epoch := rgi_epoch region in
          if bool_decide (re_version region_epoch ≠ re_version (op_region_epoch op)
                          ∨ re_conf_ver region_epoch ≠ re_conf_ver (op_region_epoch op)) then false
          else if bool_decide (is_Some (operators !! op_region_id op)) then false
          else check_add_operator cluster ops' operators
      end
  end.

(** Called with [operators] locked.  The branch that replaces an operator asks
    for that lock again. *)
Definition add_operator_locked (now : Z) (op : Operator) : M OperatorController unit :=
  c ← get;
  modify (set_operators (delete (op_region_id op)));;
  match oc_operators c !! op_region_id op with
  | Some old_op =>
      modify (put_op_record old_op OsReplace);;
      lift Diverge
  | None => modify (set_operators <[op_region_id op := op_start now op]>)
  end.

Definition add_operator (now : Z) (cluster : BasicCluster) (ops : list Operator) : M OperatorController bool :=
  c ← get;
  if check_add_operator cluster ops (oc_operators c) then
    for_each ops (add_operator_locked now);;
    mret true
  else
    for_each ops (λ op, modify (put_op_record op OsCancel));;
    mret false.

(** Called and left with [operators] locked, which [update_counts] reads. *)
Definition remove_operator (op : Operator) : M OperatorController bool :=
  c ← get;
  match oc_operators c !! op_region_id op with
  | Some current_op =>
      if decide (op_region_id current_op = op_region_id op ∧ op_create_time current_op = op_create_time op) then
        modify (set_operators (delete (op_region_id op)));;
        (lift Diverge : M OperatorController unit);;
        mret true
      else mret false
  | None => mret false
  end.
End controller.

(** ** src/scheduler/heartbeat_streams.rs *)

(** A stream is a sender of a channel, so the streams of several stores may
    share a channel; a channel whose receiver is gone is not in
    [shs_channels], and sending on it fails, which is only logged. *)
Record SimpleHeartbeatStreams := mkStreams {
  shs_streams : gmap Z Z;
  shs_channels : gmap Z (list RegionHeartbeatResponse);
  shs_sent_messages : list (Z * RegionHeartbeatResponse);
}.
Definition SimpleHeartbeatStreams_new : SimpleHeartbeatStreams := mkStreams ∅ ∅ [].
Definition bind_stream (store_id sender : Z) (h : SimpleHeartbeatStreams) : SimpleHeartbeatStreams :=
  mkStreams (<[store_id := sender]> (shs_streams h)) (shs_channels h) (shs_sent_messages h).
Definition unbind_stream (store_id : Z) (h : SimpleHeartbeatStreams) : SimpleHeartbeatStreams :=
  mkStreams (delete store_id (shs_streams h)) (shs_channels h) (shs_sent_messages h).
Definition clear_sent_messages (h : SimpleHeartbeatStreams) : SimpleHeartbeatStreams :=
  mkStreams (shs_streams h) (shs_channels h) [].
Definition has_stream (store_id : Z) (h : SimpleHeartbeatStreams) : bool :=
  bool_decide (is_Some (shs_streams h !! store_id)).
Definition simple_send_msg (region : RegionInfo) (msg : RegionHeartbeatResponse) (h : SimpleHeartbeatStreams) :
    SimpleHeartbeatStreams :=
  match get_leader_store_id region with
  | None => h
  | Some leader_store_id =>
      mkStreams (shs_streams h)
        (match shs_streams h !! leader_store_id with
         | Some sender => alter (λ q, q ++ [msg]) sender (shs_channels h)
         | None => shs_channels h
         end)
        (shs_sent_messages h ++ [(rgi_id region, msg)])
  end.
#[export] Instance simple_streams : HeartbeatStreams :=
  {| hb_streams := SimpleHeartbeatStreams; send_msg := simple_send_msg |}.

(** ** What one report does *)

Section dispatch.
Context `{order : HashOrder} `{hb : HeartbeatStreams}.

(** How many operators of a kind are running. *)
Definition kind_size (k : OpKind) (operators : gmap Z Operator) : Z :=
  Z.of_nat (size (filter (λ p, op_kind p.2 = k) operators)).

Lemma count_kinds_spec operators k : default 0 (count_kinds operators !! k) = kind_size k operators.
Proof.
  assert (∀ l (m : gmap OpKind Z), default 0 (foldl (λ m op, <[op_kind op := default 0 (m !! op_kind op) + 1]> m) m l !! k)
    = default 0 (m !! k) + zsum (λ op, if decide (op_kind op = k) then 1 else 0) l) as H.
  { induction l as [|op l IH]; intros m; cbn; [lia|]. rewrite IH. case_decide as E.
    - rewrite <- E, lookup_insert_eq. cbn. lia.
    - rewrite lookup_insert_ne by done. lia. }
  unfold count_kinds. rewrite H, lookup_empty. cbn [default]. rewrite Z.add_0_l.
  unfold hash_values. rewrite hash_iter_perm.
  unfold kind_size. induction operators as [|id op m Hid IH] using map_ind; [done|].
  rewrite map_to_list_insert by done. cbn. rewrite IH. case_decide as E.
  - rewrite map_filter_insert_True by done. rewrite map_size_insert_None; [lia|].
    apply map_lookup_filter_None. by left.
  - rewrite map_filter_insert_False by done. by rewrite delete_id.
Qed.

(** The operator [op] of region [id] has left [c] for [c']: it is recorded
    with its status, the counts are those of the operators that go on, and
    nothing is sent. *)
Definition ended (id : Z) (op : Operator) (status : OperatorStatus) (c c' : OperatorController) : Prop :=
  oc_operators c' = delete id (oc_operators c) ∧
  oc_op_records c' = <[id := mkOperatorWithStatus op status]> (oc_op_records c) ∧
  oc_hb_streams c' = oc_hb_streams c ∧
  ∀ k, operator_count k c' = kind_size k (oc_operators c').

(** The operator goes on as [op], in a controller otherwise as before. *)
Definition goes_on (id : Z) (op : Operator) (h : hb_streams) (c c' : OperatorController) : Prop :=
  oc_operators c' = <[id := op]> (oc_operators c) ∧
  oc_op_records c' = oc_op_records c ∧ oc_counts c' = oc_counts c ∧ oc_hb_streams c' = h.

Lemma end_operator_ended id op op0 status c :
  op_region_id op = id → ended id op status c (end_operator id op status (set_operators <[id := op0]> c)).
Proof.
  intros <-. unfold ended, end_operator, operator_count. cbn. rewrite delete_insert_eq.
  split_and!; [done..|]. apply count_kinds_spec.
Qed.

Lemma leave_finished_id r op : op_region_id (leave_finished r op) = op_region_id op.
Proof. unfold leave_finished, next_step. repeat case_match; done. Qed.

Lemma dispatch_run now r source c op :
  get_operator (rgi_id r) c = Some op → op_region_id op = rgi_id r →
  let op' := leave_finished r op in
  let c' := dispatch now r source c in
  (op_done op' = true → ended (rgi_id r) op' OsSuccess c c') ∧
  (op_done op' = false → is_timeout now op = true → ended (rgi_id r) op' OsTimeout c c') ∧
  (op_done op' = false → is_timeout now op = false → op_check r op' = None →
     goes_on (rgi_id r) op' (oc_hb_streams c) c c') ∧
  (∀ step, is_timeout now op = false → op_check r op' = Some step →
     if bool_decide (source = "heartbeat") && stale_operator r op' step
     then ended (rgi_id r) op' OsCancel c c'
     else goes_on (rgi_id r) op' (send_msg r (schedule_command r step) (oc_hb_streams c)) c c').
Proof.
  intros Hop Hid op' c'. assert (op_region_id op' = rgi_id r) as Hid'
    by (subst op'; by rewrite leave_finished_id).
  subst c'. unfold dispatch, get_operator in *. rewrite Hop. fold op'. cbv zeta. split_and!.
  - intros ->. by apply end_operator_ended.
  - intros -> ->. by apply end_operator_ended.
  - intros -> -> ->. done.
  - intros step -> E. rewrite (op_check_done _ _ _ E), E. case_match.
    + by apply end_operator_ended.
    + cbn. rewrite lookup_insert_eq, E. done.
Qed.

(** The operator at its step number [k]. *)
Definition at_step (k : nat) (op : Operator) : Operator :=
  mkOperator (op_desc op) (op_region_id op) (op_region_epoch op) (op_kind op) (op_steps op) k
    (op_create_time op) (op_start_time op).

(** *** What the helpers of [dispatch] decide *)

(** The region has a peer on the store; has this peer there; lacks any. *)
Definition peer_on (store : Z) (r : RegionInfo) (p : Peer) : Prop := p ∈ rgi_peers r ∧ pr_store_id p = store.

(** The report shows that the step is done: the peer to add is there and not
    pending, the store to leave is left, the new leader leads. *)
Definition step_shown (step : OpStep) (r : RegionInfo) : Prop :=
  match step with
  | AddPeer to_store peer_id =>
      (∃ p, peer_on to_store r p ∧ pr_id p = peer_id) ∧ (∀ p, p ∈ rgi_pending_peers r → pr_id p ≠ peer_id)
  | RemovePeer from_store => ∀ p, ¬ peer_on from_store r p
  | TransferLeader _ to_store => ∃ p, rgi_leader r = Some p ∧ pr_store_id p = to_store
  end.
(** The report shows the change of the configuration that the step makes. *)
Definition change_shown (step : OpStep) (r : RegionInfo) : Prop :=
  match step with
  | AddPeer to_store peer_id => ∃ p, peer_on to_store r p ∧ pr_id p = peer_id
  | RemovePeer from_store => ∀ p, ¬ peer_on from_store r p
  | TransferLeader _ _ => False
  end.
(** Besides the change that the step accounts for, if it shows, the region's
    configuration has changed since the operator was made. *)
Definition overtaken (op : Operator) (step : OpStep) (r : RegionInfo) : Prop :=
  let made := re_conf_ver (op_region_epoch op) in
  let now := re_conf_ver (rgi_epoch r) in
  (change_shown step r ∧ made + 1 < now) ∨ (¬ change_shown step r ∧ made < now).
(** Ten seconds for a leader's operator, ten minutes for any other one. *)
Definition late (now : Z) (op : Operator) : Prop :=
  (match op_kind op with OkLeader => secs 10 | OkRegion | OkAdmin => secs 600 end)
    < now - default (op_create_time op) (op_start_time op).

(** The message names the region and its epoch, and asks it to give the
    leadership to its peer on the store, to add the peer of the step (a change
    of type 0) or to remove its peer on the store (a change of type 1); it asks
    for nothing when the peer to lead or to remove is not there, or the store
    of the peer to add has one already. *)
Definition commands (step : OpStep) (r : RegionInfo) (m : RegionHeartbeatResponse) : Prop :=
  hr_header m = None ∧ hr_region_id m = rgi_id r ∧ hr_region_epoch m = Some (rgi_epoch r) ∧ hr_target_peer m = None ∧
  match step with
  | TransferLeader _ to_store =>
      hr_change_peer m = None ∧
      ((∃ p, peer_on to_store r p ∧ hr_transfer_leader m = Some (mkPbTransferLeader (Some p))) ∨
       ((∀ p, ¬ peer_on to_store r p) ∧ hr_transfer_leader m = None))
  | AddPeer to_store peer_id =>
      hr_transfer_leader m = None ∧
      (((∀ p, ¬ peer_on to_store r p) ∧ hr_change_peer m = Some (mkChangePeer (Some (mkPeer peer_id to_store)) 0)) ∨
       ((∃ p, peer_on to_store r p) ∧ hr_change_peer m = None))
  | RemovePeer from_store =>
      hr_transfer_leader m = None ∧
      ((∃ p, peer_on from_store r p ∧ hr_change_peer m = Some (mkChangePeer (Some p) 1)) ∨
       ((∀ p, ¬ peer_on from_store r p) ∧ hr_change_peer m = None))
  end.

Lemma has_peer_on_false store r : has_peer_on store r = false ↔ ∀ p, ¬ peer_on store r p.
Proof.
  rewrite <- not_true_iff_false. unfold has_peer_on, peer_on. rewrite existsb_exists.
  setoid_rewrite <- list_elem_of_In. setoid_rewrite Z.eqb_eq. naive_solver.
Qed.
Lemma has_peer_true id store r : has_peer id store r = true ↔ ∃ p, peer_on store r p ∧ pr_id p = id.
Proof.
  unfold has_peer, peer_on. rewrite existsb_exists. setoid_rewrite <- list_elem_of_In.
  setoid_rewrite andb_true_iff. setoid_rewrite Z.eqb_eq. naive_solver.
Qed.

Lemma is_finish_shown step r : is_finish step r = true ↔ step_shown step r.
Proof.
  destruct step as [to id|from|from to]; cbn [is_finish step_shown].
  - rewrite andb_true_iff, has_peer_true, negb_true_iff, <- not_true_iff_false, existsb_exists.
    setoid_rewrite <- list_elem_of_In. setoid_rewrite Z.eqb_eq. naive_solver.
  - rewrite negb_true_iff. apply has_peer_on_false.
  - rewrite bool_decide_eq_true. unfold get_leader_store_id. rewrite fmap_Some. naive_solver.
Qed.
Lemma conf_ver_changed_shown step r : conf_ver_changed step r = true ↔ change_shown step r.
Proof.
  destruct step as [to id|from|from to]; cbn [conf_ver_changed change_shown].
  - apply has_peer_true.
  - rewrite negb_true_iff. apply has_peer_on_false.
  - done.
Qed.
Lemma stale_overtaken r op step : stale_operator r op step = true ↔ overtaken op step r.
Proof.
  unfold stale_operator, overtaken. rewrite <- conf_ver_changed_shown, Z.ltb_lt.
  destruct (conf_ver_changed step r); [|split; [right|intros [[? ?]|[_ ?]]]; done || lia || (split; [done|lia])].
  split; [intros ?; left; split; [done|lia]|intros [[_ ?]|[[] ?]]; [lia|done]].
Qed.
Lemma is_timeout_late now op : is_timeout now op = true ↔ late now op.
Proof.
  unfold is_timeout, late, elapsed, op_timeout, secs. rewrite Z.ltb_lt. destruct (op_kind op); lia.
Qed.

Lemma peer_by_store store r :
  match get_peer_by_store_id store r with Some p => peer_on store r p | None => ∀ p, ¬ peer_on store r p end.
Proof.
  unfold get_peer_by_store_id, peer_on. destruct (list_find _ _) as [[i p]|] eqn:E; cbn.
  - apply list_find_Some in E as (Hi & Hp & _). split; [by eapply list_elem_of_lookup_2|done].
  - apply list_find_None in E. rewrite Forall_forall in E. intros p [Hp Hs]. by apply (E p).
Qed.
Lemma schedule_command_commands r step : commands step r (schedule_command r step).
Proof.
  unfold commands, schedule_command. destruct step as [to id|from|from to].
  - pose proof (peer_by_store to r) as H. destruct (get_peer_by_store_id to r); cbn; split_and!; try done; eauto.
  - pose proof (peer_by_store from r) as H. destruct (get_peer_by_store_id from r); cbn; split_and!; try done; eauto.
  - pose proof (peer_by_store to r) as H. destruct (get_peer_by_store_id to r); cbn; split_and!; try done; eauto.
Qed.

(** The number of the step at which a report leaves the operator. *)
Definition moves_to (op : Operator) (r : RegionInfo) (k : nat) : Prop :=
  (∃ step, op_steps op !! op_current_step op = Some step ∧ step_shown step r ∧ k = S (op_current_step op)) ∨
  (k = op_current_step op ∧ ∀ step, op_steps op !! op_current_step op = Some step → ¬ step_shown step r).

Lemma leave_finished_moves r op : ∃ k, leave_finished r op = at_step k op ∧ moves_to op r k.
Proof.
  unfold leave_finished, moves_to. destruct (op_steps op !! op_current_step op) as [step|] eqn:E.
  - destruct (is_finish step r) eqn:Ef.
    + exists (S (op_current_step op)). unfold next_step. rewrite decide_True by (by eapply lookup_lt_Some).
      split; [done|]. left. exists step. by rewrite <- is_finish_shown.
    + exists (op_current_step op). split; [by destruct op|]. right. split; [done|]. intros step' [= <-].
      by rewrite <- is_finish_shown, Ef.
  - exists (op_current_step op). split; [by destruct op|]. by right.
Qed.

(** C28: A report of a region without an operator changes nothing.  A report of
    one with an operator moves it over its step, when the report shows that
    step done, and over no other one.  Then an operator without steps left is
    recorded as a success; else one that runs for longer than its kind allows
    is recorded as timed out; else nothing more is done while the report shows
    the next step done too; else a heartbeat that shows the configuration
    changed by more than that step accounts for cancels it; and else the
    command of that step is sent, once.  What each of these conditions is, and
    what the command says, is spelled out above. *)
Theorem dispatch_exact (now : Z) (r : RegionInfo) (source : string) (c : OperatorController) :
  (get_operator (rgi_id r) c = None → dispatch now r source c = c) ∧
  ∀ op, get_operator (rgi_id r) c = Some op → op_region_id op = rgi_id r →
    let c' := dispatch now r source c in
    ∃ k, moves_to op r k ∧
      let op' := at_step k op in
      (op_steps op !! k = None → ended (rgi_id r) op' OsSuccess c c') ∧
      (∀ step, op_steps op !! k = Some step →
         (late now op → ended (rgi_id r) op' OsTimeout c c') ∧
         (¬ late now op →
            (step_shown step r → goes_on (rgi_id r) op' (oc_hb_streams c) c c') ∧
            (¬ step_shown step r →
               (source = "heartbeat" ∧ overtaken op step r → ended (rgi_id r) op' OsCancel c c') ∧
               (¬ (source = "heartbeat" ∧ overtaken op step r) →
                  ∃ m, commands step r m ∧ goes_on (rgi_id r) op' (send_msg r m (oc_hb_streams c)) c c')))).
Proof.
  split.
  { intros H. unfold dispatch, get_operator in *. by rewrite H. }
  intros op Hop Hid. destruct (dispatch_run now r source c op Hop Hid) as (D1 & D2 & D3 & D4).
  destruct (leave_finished_moves r op) as (k & Ek & Hk). exists k. split; [done|]. rewrite Ek in *. cbv zeta in *.
  assert (op_done (at_step k op) = false ↔ is_Some (op_steps op !! k)) as Hdone.
  { unfold op_done. cbn. rewrite Nat.leb_gt. symmetry. apply lookup_lt_is_Some. }
  split.
  { intros Hn. apply D1, not_false_iff_true. rewrite Hdone, Hn. by intros [? ?]. }
  intros step Hs. assert (op_done (at_step k op) = false) as Hd by (apply Hdone; eauto).
  rewrite <- is_timeout_late, <- is_finish_shown, <- stale_overtaken.
  split; [by apply D2|]. intros Ht%not_true_is_false.
  assert (op_check r (at_step k op) = if is_finish step r then None else Some step) as Hcheck
    by (unfold op_check; cbn; by rewrite Hs).
  split.
  { intros Hf. apply D3; [done..|]. by rewrite Hcheck, Hf. }
  intros Hf%not_true_is_false. rewrite Hf in Hcheck. specialize (D4 step Ht Hcheck).
  change (stale_operator r (at_step k op) step) with (stale_operator r op step) in D4. split.
  - intros [-> Hst]. rewrite Hst in D4. exact D4.
  - intros Hno. exists (schedule_command r step). split; [apply schedule_command_commands|].
    replace (bool_decide (source = "heartbeat") && stale_operator r op step) with false in D4; [exact D4|].
    symmetry. apply not_true_iff_false. by rewrite andb_true_iff, bool_decide_eq_true.
Qed.
End dispatch.

(** ** An operator whose steps the region takes comes to its end *)

Section completion.
Context `{order : HashOrder} `{hb : HeartbeatStreams}.

Definition reports (hs : list (Z * RegionInfo)) (c : OperatorController) : OperatorController :=
  foldl (λ c h, dispatch h.1 h.2 "heartbeat" c) c hs.

(** The reports [hs] show the steps of [op] from number [k] on finished, one
    after the other, in time, and without changes of the configuration that the
    step after does not account for. *)
Fixpoint takes_steps (op : Operator) (k : nat) (hs : list (Z * RegionInfo)) : Prop :=
  match hs with
  | [] => k = length (op_steps op)
  | (now, r) :: hs' =>
      rgi_id r = op_region_id op ∧
      (∃ step, op_steps op !! k = Some step ∧ is_finish step r = true) ∧
      (hs' ≠ [] → is_timeout now op = false) ∧
      (∀ step, op_check r (at_step (S k) op) = Some step → stale_operator r op step = false) ∧
      takes_steps op (S k) hs'
  end.

Lemma takes_steps_length op k hs : takes_steps op k hs → (k + length hs)%nat = length (op_steps op).
Proof.
  revert k. induction hs as [|[now r] hs IH]; intros k; cbn; [lia|].
  intros (_ & _ & _ & _ & H%IH). lia.
Qed.

Lemma leave_finished_step k op r step :
  op_steps op !! k = Some step → is_finish step r = true →
  leave_finished r (at_step k op) = at_step (S k) op.
Proof.
  intros Hk Hf. unfold leave_finished. cbn. rewrite Hk, Hf. unfold next_step. cbn.
  apply lookup_lt_Some in Hk. by rewrite decide_True.
Qed.

Lemma completion_run op k hs c :
  get_operator (op_region_id op) c = Some (at_step k op) →
  takes_steps op k hs → hs ≠ [] →
  let c' := reports hs c in
  get_operator (op_region_id op) c' = None ∧
  get_operator_status (op_region_id op) c' =
    Some (mkOperatorWithStatus (at_step (length (op_steps op)) op) OsSuccess).
Proof.
  revert k c. induction hs as [|[now r] hs IH]; intros k c Hop Hs Hne; [done|]. cbn [reports foldl fst snd].
  pose proof (takes_steps_length _ _ _ Hs) as Hlen. cbn in Hlen.
  destruct Hs as (Hr & (step & Hk & Hf) & Hto & Hst & Hs). rewrite <- Hr in Hop |- *.
  destruct (dispatch_run now r "heartbeat" c (at_step k op)) as (D1 & _ & D3 & D4); [done|by cbn|].
  rewrite (leave_finished_step k op r step) in D1, D3, D4 by done.
  destruct hs as [|h hs].
  - destruct D1 as (E1 & E2 & _).
    { unfold op_done. cbn in Hlen |- *. apply Nat.leb_le. lia. }
    unfold get_operator_status, get_operator. cbn [foldl]. rewrite E1, E2, lookup_delete_eq, lookup_insert_eq.
    replace (S k) with (length (op_steps op)) by (cbn in Hlen; lia). done.
  - assert (op_done (at_step (S k) op) = false) as Hd.
    { unfold op_done. cbn in Hlen |- *. apply Nat.leb_gt. lia. }
    assert (is_timeout now (at_step k op) = false) as Ht by (by apply Hto).
    rewrite Hr. apply (IH (S k)); [|done|done]. rewrite <- Hr. unfold get_operator.
    destruct (op_check r (at_step (S k) op)) as [step'|] eqn:Ec.
    + specialize (D4 step' Ht eq_refl). replace (stale_operator r (at_step (S k) op) step')
        with false in D4 by (symmetry; by apply Hst).
      rewrite andb_false_r in D4. destruct D4 as (-> & _). apply lookup_insert_eq.
    + destruct (D3 Hd Ht eq_refl) as (-> & _). apply lookup_insert_eq.
Qed.

(** An operator completes: as many reports as it has steps, each of which
    shows the next step finished, take it out of the controller and leave it
    recorded as a success, provided that no report but the last is late and
    that each shows no more changes of the configuration than the step after
    it accounts for. *)
Theorem operator_completes (op : Operator) (hs : list (Z * RegionInfo)) (c : OperatorController) :
  get_operator (op_region_id op) c = Some (at_step 0 op) → op_steps op ≠ [] →
  takes_steps op 0 hs →
  let c' := reports hs c in
  length hs = length (op_steps op) ∧
  get_operator (op_region_id op) c' = None ∧
  get_operator_status (op_region_id op) c' =
    Some (mkOperatorWithStatus (at_step (length (op_steps op)) op) OsSuccess).
Proof.
  intros Hop Hn Hs. pose proof (takes_steps_length _ _ _ Hs) as Hlen. cbn in Hlen. split; [done|].
  apply completion_run with (k := 0%nat); [done..|]. intros ->. by destruct (op_steps op).
Qed.

(** FINDING: a region that carries out the first step of a move reports one
    more change of its configuration than when the operator was made; the next
    step does not account for it, so the report that should start the second
    step cancels the operator: the new peer stays and the old one is never
    removed. *)
Theorem move_peer_cancelled (created now : Z) (desc : string) (region reported : RegionInfo)
    (from to peer : Z) (c : OperatorController) (start : option Z) :
  let op := create_move_peer_operator created desc region from to peer in
  let op := mkOperator (op_desc op) (op_region_id op) (op_region_epoch op) (op_kind op) (op_steps op) 0 created start in
  get_operator (rgi_id region) c = Some op →
  rgi_id reported = rgi_id region → is_timeout now op = false → from ≠ to →
  is_finish (AddPeer to peer) reported = true → from ∈ stores_of reported →
  (get_leader_store_id region = Some from → get_leader_store_id reported = Some from) →
  re_conf_ver (rgi_epoch region) < re_conf_ver (rgi_epoch reported) →
  let c' := dispatch now reported "heartbeat" c in
  get_operator (rgi_id region) c' = None ∧
  oc_hb_streams c' = oc_hb_streams c ∧
  ows_status <$> get_operator_status (rgi_id region) c' = Some OsCancel.
Proof.
  cbv zeta. set (op := mkOperator _ _ _ _ _ _ _ _). intros Hop Hid Ht Hne Hadd Hin Hlead Hver.
  rewrite <- Hid in Hop |- *.
  destruct (dispatch_run now reported "heartbeat" c (at_step 0 op)) as (_ & _ & _ & D); [done|by cbn|].
  assert (op_steps op = op_steps (create_move_peer_operator created desc region from to peer)) as Es by done.
  rewrite move_peer_steps in Es.
  rewrite (leave_finished_step 0 op reported (AddPeer to peer)) in D;
    [|rewrite Es; by case_decide|done].
  set (step := if decide (get_leader_store_id region = Some from) then TransferLeader from to else RemovePeer from).
  assert (op_steps op !! 1%nat = Some step) as H1 by (rewrite Es; subst step; by case_decide).
  assert (is_finish step reported = false ∧ conf_ver_changed step reported = false) as [Hf Hcv].
  { subst step. apply has_peer_on_spec in Hin. case_decide as Hl; cbn; [|by rewrite Hin].
    split; [|done]. rewrite (Hlead Hl). apply bool_decide_eq_false. congruence. }
  specialize (D step Ht). unfold op_check in D. cbn [op_steps op_current_step at_step] in D.
  rewrite H1, Hf in D. specialize (D eq_refl).
  replace (stale_operator reported (at_step 1 op) step) with true in D.
  - destruct D as (E1 & E2 & E3 & _). unfold get_operator_status, get_operator.
    rewrite E1, E2, lookup_delete_eq, lookup_insert_eq. done.
  - symmetry. unfold stale_operator. rewrite Hcv. apply Z.ltb_lt. cbn. lia.
Qed.
End completion.

(** ** Adding and removing *)

Section adding.
Context `{order : HashOrder} `{hb : HeartbeatStreams}.

(** An operator may be added when its region is known, has the epoch the
    operator was made for, and has no operator. *)
Definition addable (cluster : BasicCluster) (operators : gmap Z Operator) (op : Operator) : Prop :=
  (∃ region, get_region (op_region_id op) cluster = Some region ∧ rgi_epoch region = op_region_epoch op) ∧
  operators !! op_region_id op = None.

Lemma epoch_same (a b : RegionEpoch) :
  ¬ (re_version a ≠ re_version b ∨ re_conf_ver a ≠ re_conf_ver b) ↔ a = b.
Proof.
  destruct a as [c v], b as [c' v']. cbn. split; [|intros [= -> ->]; tauto].
  intros H. f_equal; apply dec_stable; tauto.
Qed.

Lemma check_add_operator_spec cluster ops operators :
  check_add_operator cluster ops operators = true ↔ Forall (addable cluster operators) ops.
Proof.
  induction ops as [|op ops IH]; cbn; [by split; [constructor|]|]. rewrite Forall_cons, <- IH. clear IH.
  unfold addable. destruct (get_region (op_region_id op) cluster) as [r|]; [|naive_solver].
  case_bool_decide as He.
  { split; [done|]. intros [[(r' & [= <-] & E) _] _]. rewrite E in He. tauto. }
  apply epoch_same in He. case_bool_decide as Ho.
  { split; [done|]. intros [[_ H] _]. rewrite H in Ho. by destruct Ho. }
  apply eq_None_not_Some in Ho. split; [|tauto]. intros H. split; [|done]. eauto.
Qed.

Lemma add_fresh now op c :
  oc_operators c !! op_region_id op = None →
  add_operator_locked now op c = (Ok tt, set_operators <[op_region_id op := op_start now op]> c).
Proof.
  intros H. unfold add_operator_locked. rewrite (M_bind_run get _ _ _ _ eq_refl). cbv beta.
  unfold modify at 1. unfold mbind, M_bind. rewrite H. unfold modify, set_operators. cbn.
  by rewrite delete_id.
Qed.

Lemma add_again now op c old :
  oc_operators c !! op_region_id op = Some old → (add_operator_locked now op c).1 = Diverge.
Proof.
  intros H. unfold add_operator_locked. rewrite (M_bind_run get _ _ _ _ eq_refl). cbv beta.
  unfold modify at 1. unfold mbind, M_bind. by rewrite H.
Qed.

Definition insert_started (now : Z) (m : gmap Z Operator) (op : Operator) : gmap Z Operator :=
  <[op_region_id op := op_start now op]> m.

Lemma add_all now ops c :
  (∀ op, op ∈ ops → oc_operators c !! op_region_id op = None) →
  (NoDup (op_region_id <$> ops) →
   for_each ops (add_operator_locked now) c =
     (Ok tt, set_operators (λ m, foldl (insert_started now) m ops) c)) ∧
  (¬ NoDup (op_region_id <$> ops) → (for_each ops (add_operator_locked now) c).1 = Diverge).
Proof.
  revert c. induction ops as [|op ops IH]; intros c Hc.
  - split; [by intros _; destruct c|]. intros []. constructor.
  - cbn [for_each fmap list_fmap foldl]. rewrite NoDup_cons.
    rewrite (M_bind_run _ _ _ _ _ (add_fresh now op c (Hc op (list_elem_of_here _ _)))).
    set (c1 := set_operators _ c).
    destruct (decide (op_region_id op ∈ op_region_id <$> ops)) as [Hin|Hin].
    + split; [tauto|]. intros _. clear IH. revert Hin.
      assert (oc_operators c1 !! op_region_id op = Some (op_start now op)) as H1
        by (subst c1; cbn; by rewrite lookup_insert_eq).
      assert (is_Some (oc_operators c1 !! op_region_id op)) as H2 by eauto. clear H1.
      clearbody c1. revert c1 H2. clear Hc. induction ops as [|op' ops IH]; [set_solver|]. intros c1 H2 Hin.
      cbn. destruct (oc_operators c1 !! op_region_id op') as [old|] eqn:E.
      * unfold mbind, M_bind. pose proof (add_again now op' c1 old E) as Hd.
        destruct (add_operator_locked now op' c1) as [[] ?]; done.
      * rewrite (M_bind_run _ _ _ _ _ (add_fresh now op' c1 E)). apply IH.
        -- cbn. apply lookup_insert_is_Some. destruct (decide (op_region_id op' = op_region_id op)); auto.
        -- rewrite fmap_cons, elem_of_cons in Hin. destruct Hin as [Heq|]; [|done].
           rewrite Heq, E in H2. by destruct H2.
    + destruct (IH c1) as [IH1 IH2].
      { intros op' Hop'. subst c1. cbn. rewrite lookup_insert_ne; [apply Hc; by right|].
        intros Heq. apply Hin. rewrite Heq. by apply list_elem_of_fmap_2. }
      split; [intros [_ Hn]; by rewrite (IH1 Hn)|intros Hn; apply IH2; tauto].
Qed.

Lemma insert_started_lookup now ops m id :
  NoDup (op_region_id <$> ops) →
  (∀ op, op ∈ ops → foldl (insert_started now) m ops !! op_region_id op = Some (op_start now op)) ∧
  (id ∉ op_region_id <$> ops → foldl (insert_started now) m ops !! id = m !! id).
Proof.
  revert m. induction ops as [|op ops IH]; intros m; [split; set_solver|].
  rewrite fmap_cons, NoDup_cons. intros [Hop Hn]. cbn [foldl].
  split.
  - intros op' [->|Hop']%elem_of_cons; [|by apply IH].
    assert (∀ id m, id ∉ op_region_id <$> ops → foldl (insert_started now) m ops !! id = m !! id) as H.
    { clear -Hn. induction ops as [|op ops IH]; intros id m Hid; [done|]. cbn.
      rewrite fmap_cons in Hn, Hid. apply NoDup_cons in Hn as [_ Hn]. apply not_elem_of_cons in Hid as [? ?].
      rewrite IH by done. by apply lookup_insert_ne. }
    rewrite H by done. apply lookup_insert_eq.
  - rewrite not_elem_of_cons. intros [Hne Hid]. destruct (IH (insert_started now m op) Hn) as [_ H].
    rewrite H by done. by apply lookup_insert_ne.
Qed.

Lemma refuse_all ops c :
  for_each ops (λ op, modify (put_op_record op OsCancel)) c =
  (Ok tt, foldl (λ c op, put_op_record op OsCancel c) c ops).
Proof. revert c. induction ops as [|op ops IH]; intros c; [done|]. cbn. apply IH. Qed.

Lemma refuse_frame ops c :
  let c' := foldl (λ c op, put_op_record op OsCancel c) c ops in
  oc_operators c' = oc_operators c ∧ oc_counts c' = oc_counts c ∧ oc_hb_streams c' = oc_hb_streams c.
Proof.
  revert c. induction ops as [|op ops IH]; intros c; [done|]. cbn [foldl].
  destruct (IH (put_op_record op OsCancel c)) as (-> & -> & ->). done.
Qed.

(** C30: Operators are added all together or not at all.  They are refused exactly
    when one of them is for an unknown region, for another epoch of its region,
    or for a region that has an operator; then no operator changes.  Accepted
    operators for different regions are started and run beside those there
    were; nothing is sent to the stores yet, and the counts are left as they
    were.  A batch with two operators for one region never returns: the
    second asks for the lock the method holds. *)
Theorem add_operator_exact (now : Z) (cluster : BasicCluster) (ops : list Operator) (c : OperatorController) :
  let (o, c') := add_operator now cluster ops c in
  (¬ Forall (addable cluster (oc_operators c)) ops →
     o = Ok false ∧ oc_operators c' = oc_operators c ∧ oc_hb_streams c' = oc_hb_streams c) ∧
  (Forall (addable cluster (oc_operators c)) ops → NoDup (op_region_id <$> ops) →
     o = Ok true ∧ oc_hb_streams c' = oc_hb_streams c ∧ oc_counts c' = oc_counts c ∧
     (∀ op, op ∈ ops → get_operator (op_region_id op) c' = Some (op_start now op)) ∧
     (∀ id, id ∉ op_region_id <$> ops → get_operator id c' = get_operator id c)) ∧
  (Forall (addable cluster (oc_operators c)) ops → ¬ NoDup (op_region_id <$> ops) → o = Diverge).
Proof.
  unfold add_operator. rewrite (M_bind_run get _ _ _ _ eq_refl). cbv beta.
  pose proof (check_add_operator_spec cluster ops (oc_operators c)) as Hcheck.
  destruct (check_add_operator _ _ _).
  - assert (Forall (addable cluster (oc_operators c)) ops) as Ha by (by apply Hcheck).
    destruct (add_all now ops c) as [H1 H2].
    { intros op Hop. rewrite Forall_forall in Ha. by apply Ha. }
    destruct (decide (NoDup (op_region_id <$> ops))) as [Hn|Hn].
    + rewrite (M_bind_run _ _ _ _ _ (H1 Hn)). split_and!; [done| |done]. intros _ _.
      split_and!; [done..| |]; intros; unfold get_operator; cbn.
      * by apply (insert_started_lookup now ops (oc_operators c) 0 Hn).
      * by apply (insert_started_lookup now ops (oc_operators c) id Hn).
    + specialize (H2 Hn). unfold mbind, M_bind. destruct (for_each _ _ _) as [o c'].
      cbn in H2. subst o. split_and!; [done|done|done].
  - rewrite (M_bind_run _ _ _ _ _ (refuse_all ops c)). destruct (refuse_frame ops c) as (E1 & _ & E3).
    assert (¬ Forall (addable cluster (oc_operators c)) ops) as Hno by (rewrite <- Hcheck; done).
    split_and!; [done| |]; intros; contradiction.
Qed.

(** FINDING: removing an operator that runs never returns: [update_counts]
    reads the map that the method holds locked for writing. *)
Theorem remove_operator_deadlocks (op : Operator) (c : OperatorController) (current : Operator) :
  get_operator (op_region_id op) c = Some current →
  op_region_id current = op_region_id op → op_create_time current = op_create_time op →
  (remove_operator op c).1 = Diverge.
Proof.
  intros H H1 H2. unfold remove_operator, get_operator in *. rewrite (M_bind_run get _ _ _ _ eq_refl).
  cbv beta. rewrite H, decide_True by done. done.
Qed.

(** Each operator runs under its own region, has been started and has steps
    left; each record is under its region and is not of a running operator. *)
Record controller_ok (c : OperatorController) : Prop := {
  cok_operators : ∀ id op, oc_operators c !! id = Some op →
    op_region_id op = id ∧ op_done op = false ∧ is_Some (op_start_time op);
  cok_records : ∀ id r, oc_op_records c !! id = Some r →
    op_region_id (ows_operator r) = id ∧ ows_status r ≠ OsRunning;
}.

Lemma leave_finished_started r op : op_start_time (leave_finished r op) = op_start_time op.
Proof. unfold leave_finished, next_step. repeat case_match; done. Qed.

Lemma ended_ok id op status c c' :
  op_region_id op = id → status ≠ OsRunning → controller_ok c → ended id op status c c' → controller_ok c'.
Proof.
  intros <- Hs [H1 H2] (E1 & E2 & _ & _). split; rewrite ?E1, ?E2.
  - intros id op0 [_ H]%lookup_delete_Some. by apply H1.
  - intros id r [(<- & <-)|[_ H]]%lookup_insert_Some; [done|by apply H2].
Qed.

Lemma goes_on_ok id op h c c' :
  op_region_id op = id → op_done op = false → is_Some (op_start_time op) →
  controller_ok c → goes_on id op h c c' → controller_ok c'.
Proof.
  intros <- Hd Hst [H1 H2] (E1 & E2 & _ & _). split; rewrite ?E1, ?E2; [|done].
  intros id op0 [(<- & <-)|[_ H]]%lookup_insert_Some; [done|by apply H1].
Qed.

Lemma dispatch_ok now r source c : controller_ok c → controller_ok (dispatch now r source c).
Proof.
  intros Hc.
  destruct (get_operator (rgi_id r) c) as [op|] eqn:Hop; [|unfold dispatch, get_operator in *; by rewrite Hop].
  destruct (cok_operators c Hc _ _ Hop) as (Hid & _ & Hst).
  destruct (dispatch_run now r source c op Hop Hid) as (D1 & D2 & D3 & D4).
  set (op' := leave_finished r op) in *.
  assert (op_region_id op' = rgi_id r) as Hid' by (subst op'; by rewrite leave_finished_id).
  assert (is_Some (op_start_time op')) as Hst' by (subst op'; by rewrite leave_finished_started).
  destruct (op_done op') eqn:Ed; [by eapply ended_ok; [..|by apply D1]|].
  destruct (is_timeout now op) eqn:Et; [by eapply ended_ok; [..|by apply D2]|].
  destruct (op_check r op') as [step|] eqn:Ec; [|by eapply goes_on_ok; [..|by apply D3]].
  specialize (D4 step eq_refl eq_refl). case_match; [by eapply ended_ok; [..|exact D4]|by eapply goes_on_ok; [..|exact D4]].
Qed.

Lemma add_operator_ok now cluster ops c :
  controller_ok c → Forall (λ op, op_done op = false) ops → controller_ok (add_operator now cluster ops c).2.
Proof.
  intros Hc Hops.
  unfold add_operator. rewrite (M_bind_run get _ _ _ _ eq_refl). cbv beta. destruct (check_add_operator _ _ _).
  + apply M_bind_inv; [|done]. apply for_each_inv; [|done]. intros op c1 Hop [K1 K2].
    rewrite Forall_forall in Hops. unfold add_operator_locked.
    rewrite (M_bind_run get _ _ _ _ eq_refl). cbv beta. unfold modify at 1, mbind, M_bind.
    destruct (oc_operators c1 !! op_region_id op) as [old|] eqn:E; split; cbn.
    * intros id op0 [_ Hl]%lookup_delete_Some. by eapply K1.
    * intros id r0 [(<- & <-)|[_ Hl]]%lookup_insert_Some; [|by eapply K2]. cbn. split; [done|done].
    * intros id op0 [(<- & <-)|[_ [_ Hl]%lookup_delete_Some]]%lookup_insert_Some; [|by eapply K1].
      split_and!; [done|exact (Hops op Hop)|by eexists].
    * done.
  + rewrite (M_bind_run _ _ _ _ _ (refuse_all ops c)). cbn. clear -Hc.
    revert c Hc. induction ops as [|op ops IH]; intros c Hc; [done|]. cbn. apply IH.
    destruct Hc as [K1 K2]. split; [done|]. cbn.
    intros id r0 [(<- & <-)|[_ Hl]]%lookup_insert_Some; [done|by eapply K2].
Qed.

(** Reports, and operators that are added with a step to do, keep the
    controller well formed. *)
Theorem controller_ok_preserved (now : Z) (r : RegionInfo) (source : string) (cluster : BasicCluster)
    (ops : list Operator) (c : OperatorController) :
  controller_ok c → Forall (λ op, op_done op = false) ops →
  controller_ok (dispatch now r source c) ∧ controller_ok (add_operator now cluster ops c).2.
Proof.
  intros Hc Hops. split; [by apply dispatch_ok|by apply add_operator_ok].
Qed.
End adding.

(** ** Samples *)

Section samples.
#[local] Existing Instance map_order.
#[local] Existing Instance low_rng.
#[local] Instance checked : BuildProfile := true.

(** Region 7 on stores 1 and 2, led from store 1, and as it reports after a
    peer 13 was added on store 3. *)
Definition after_add : RegionInfo :=
  RegionInfo_new (mkRegion 7 [] [] (Some (mkRegionEpoch 2 1)) [mkPeer 11 1; mkPeer 12 2; mkPeer 13 3])
    (Some (mkPeer 11 1)).
Definition with_on_1_2 : BasicCluster := (put_region on_1_2 three_stores).2.
Definition empty_controller : OperatorController (hb := simple_streams) :=
  OperatorController_new (hb := simple_streams) SimpleHeartbeatStreams_new.
Definition running (op : Operator) : OperatorController (hb := simple_streams) :=
  (add_operator (hb := simple_streams) 5 with_on_1_2 [op] empty_controller).2.

Definition move_op : Operator := create_move_peer_operator 0 "move" on_1_2 1 3 13.
Definition add_op : Operator := create_add_peer_operator 0 "add" on_1_2 3 13.

Lemma move_peer_cancelled_witness :
  get_operator 7 (dispatch 6 after_add "heartbeat" (running move_op)) = None.
Proof.
  refine (proj1 (move_peer_cancelled 0 6 "move" on_1_2 after_add 1 3 13 (running move_op) (Some 5)
    _ _ _ _ _ _ _ _)); try done; by vm_compute; [left|..].
Defined.

Lemma operator_completes_witness :
  get_operator_status 7 (reports [(6, after_add)] (running add_op)) =
    Some (mkOperatorWithStatus (at_step 1 (op_start 5 add_op)) OsSuccess).
Proof.
  refine (proj2 (proj2 (operator_completes (op_start 5 add_op) [(6, after_add)] (running add_op) _ _ _)));
    [by vm_compute|done|].
  split; [done|]. split; [by eexists|]. split; [done|]. split; [|done]. by intros step.
Defined.

(** Region 7 as it reports before the peer is added. *)
Definition on_1_2_report (conf_ver : Z) : RegionInfo :=
  RegionInfo_new (mkRegion 7 [] [] (Some (mkRegionEpoch conf_ver 1)) [mkPeer 11 1; mkPeer 12 2]) (Some (mkPeer 11 1)).

Lemma not_added r : rgi_peers r = [mkPeer 11 1; mkPeer 12 2] → ¬ step_shown (AddPeer 3 13) r.
Proof. unfold step_shown, peer_on. intros ->. intros [(p & [Hp Hs] & _) _]. set_solver. Qed.

(** The addition succeeds once it shows, is sent while it does not, is
    cancelled by a change of somebody else's, and is too late after ten
    minutes. *)
Lemma dispatch_exact_witness :
  let op := op_start 5 add_op in
  ended 7 (at_step 1 op) OsSuccess (running add_op) (dispatch 6 after_add "heartbeat" (running add_op)) ∧
  (∃ m, commands (AddPeer 3 13) (on_1_2_report 1) m ∧
     goes_on 7 (at_step 0 op) (simple_send_msg (on_1_2_report 1) m (oc_hb_streams (running add_op))) (running add_op)
       (dispatch 6 (on_1_2_report 1) "heartbeat" (running add_op))) ∧
  ended 7 (at_step 0 op) OsCancel (running add_op) (dispatch 6 (on_1_2_report 2) "heartbeat" (running add_op)) ∧
  ended 7 (at_step 0 op) OsTimeout (running add_op) (dispatch (secs 700) (on_1_2_report 1) "heartbeat" (running add_op)).
Proof.
  intros op. assert (∀ conf_ver, ¬ step_shown (AddPeer 3 13) (on_1_2_report conf_ver)) as Hno
    by (intros conf_ver; by apply not_added).
  assert (∀ conf_ver k, moves_to op (on_1_2_report conf_ver) k → k = 0%nat) as Hk.
  { intros conf_ver k [(step & [= <-] & Hs & _)|[-> _]]; [by destruct (Hno conf_ver)|reflexivity]. }
  split; [|split; [|split]].
  - destruct (proj2 (dispatch_exact 6 after_add "heartbeat" (running add_op)) op) as (k & Hmove & Hend & _);
      [by vm_compute|reflexivity|].
    assert (k = 1%nat) as ->.
    { destruct Hmove as [(step & [= <-] & _ & ->)|[_ Hn]]; [reflexivity|].
      destruct (Hn (AddPeer 3 13) eq_refl). apply is_finish_shown. by vm_compute. }
    apply Hend. reflexivity.
  - destruct (proj2 (dispatch_exact 6 (on_1_2_report 1) "heartbeat" (running add_op)) op) as (k & Hmove & _ & Hgo);
      [by vm_compute|reflexivity|]. apply Hk in Hmove as ->.
    refine (proj2 (proj2 (proj2 (Hgo (AddPeer 3 13) eq_refl) _) (Hno 1)) _).
    + rewrite <- is_timeout_late. by vm_compute.
    + intros [_ H]. apply stale_overtaken in H. by vm_compute in H.
  - destruct (proj2 (dispatch_exact 6 (on_1_2_report 2) "heartbeat" (running add_op)) op) as (k & Hmove & _ & Hgo);
      [by vm_compute|reflexivity|]. apply Hk in Hmove as ->.
    refine (proj1 (proj2 (proj2 (Hgo (AddPeer 3 13) eq_refl) _) (Hno 2)) _).
    + rewrite <- is_timeout_late. by vm_compute.
    + split; [reflexivity|]. apply stale_overtaken. by vm_compute.
  - destruct (proj2 (dispatch_exact (secs 700) (on_1_2_report 1) "heartbeat" (running add_op)) op) as (k & Hmove & _ & Hgo);
      [by vm_compute|reflexivity|]. apply Hk in Hmove as ->.
    refine (proj1 (Hgo (AddPeer 3 13) eq_refl) _). apply is_timeout_late. by vm_compute.
Defined.

Lemma add_op_addable : Forall (addable with_on_1_2 ∅) [add_op].
Proof. constructor; [|constructor]. split; [|done]. exists on_1_2. split; by vm_compute. Qed.

Lemma add_operator_exact_witness :
  get_operator 7 (running add_op) = Some (op_start 5 add_op) ∧
  (add_operator 5 with_on_1_2 [add_op; add_op] empty_controller).1 = Diverge.
Proof.
  split.
  - pose proof (add_operator_exact 5 with_on_1_2 [add_op] empty_controller) as H.
    unfold running. destruct (add_operator 5 with_on_1_2 [add_op] empty_controller) as [o c'].
    refine (proj1 (proj2 (proj2 (proj2 (proj1 (proj2 H) add_op_addable _)))) add_op _); [|by left].
    apply NoDup_singleton.
  - pose proof (add_operator_exact 5 with_on_1_2 [add_op; add_op] empty_controller) as H.
    destruct (add_operator 5 with_on_1_2 [add_op; add_op] empty_controller) as [o c'].
    apply (proj2 (proj2 H)).
    + constructor; [|exact add_op_addable]. exact (Forall_inv add_op_addable).
    + intros [Hn _]%NoDup_cons. apply Hn. by left.
Defined.

Lemma remove_operator_deadlocks_witness : (remove_operator add_op (running add_op)).1 = Diverge.
Proof.
  by apply (remove_operator_deadlocks add_op (running add_op) (op_start 5 add_op)); vm_compute.
Defined.

Lemma controller_ok_preserved_witness :
  controller_ok (dispatch 5 after_add "heartbeat" empty_controller) ∧ controller_ok (running move_op).
Proof.
  apply (controller_ok_preserved 5 after_add "heartbeat" with_on_1_2 [move_op] empty_controller).
  - split; intros id x H; by vm_compute in H.
  - by constructor.
Defined.
End samples.
