(* ===== verification/Schedulers.v ===== *)
(** The schedulers: src/scheduler/schedulers, which look at the cluster and
    make an operator that balances leaders, balances regions, or brings the
    number of peers of a region into its bounds.

    A scheduling run reads the clock for each store it filters ([now], by the
    id of the store) and when it makes the operator ([created]); it draws
    random numbers, so it is a function in the monad of [rng]. *)

From S2P Require Import Prelude Bytes RaftTypes Proto Cluster Operator.
From stdpp Require Import pretty.
Open Scope Z_scope.

(** [z as i32] of a [usize], and a subtraction of [i32]. *)
Definition as_i32 (z : Z) : Z := (z + 2 ^ 31) mod 2 ^ 32 - 2 ^ 31.
Definition i32_sub `{BuildProfile} (a b : Z) : outcome Z :=
  if decide (- 2 ^ 31 ≤ a - b < 2 ^ 31) then Ok (a - b)
  else if overflow_checks then Panic else Ok (as_i32 (a - b)).

Lemma as_i32_small z : 0 ≤ z < 2 ^ 31 → as_i32 z = z.
Proof. intros. unfold as_i32. rewrite Z.mod_small; lia. Qed.

Definition is_empty {A} (l : list A) : bool := match l with [] => true | _ :: _ => false end.

Section schedulers.
Context `{prof : BuildProfile} `{order : HashOrder} `{rand : RandomSource}.

(** [for _ in 0..n { if let Some(op) = body { return Some(op); } }] and
    [for x in l { ... }] with a body that may return an operator. *)
Fixpoint retry (n : nat) (body : M rng (option Operator)) : M rng (option Operator) :=
  match n with
  | O => mret None
  | S n' => r ← body; match r with Some op => mret (Some op) | None => retry n' body end
  end.
Fixpoint first_of {A} (l : list A) (body : A → M rng (option Operator)) : M rng (option Operator) :=
  match l with
  | [] => mret None
  | x :: l' => r ← body x; match r with Some op => mret (Some op) | None => first_of l' body end
  end.

(** A choice that does not fail, and [rng.gen_range(10000..99999)]. *)
Definition draw {A} (choice : rng → A * rng) : M rng A := λ g, let (a, g') := choice g in (Ok a, g').
Definition new_peer_id_range : M rng Z := draw (λ g, gen_range g 10000 99998).

Definition lexicographic_less (a b : Z * Z) : bool := (a.1 <? b.1) || ((a.1 =? b.1) && (a.2 <? b.2)).
Definition region_load (s : StoreInfo) : Z * Z := (si_region_count s, si_region_size s).

Definition str (n : Z) : string := pretty n.
Definition transfer_desc (source target region : Z) : string :=
  "transfer leader from store " +:+ str source +:+ " to store " +:+ str target +:+ " for region " +:+ str region.
Definition move_desc (source target region : Z) : string :=
  "move peer from store " +:+ str source +:+ " to store " +:+ str target +:+ " for region " +:+ str region.
Definition scale_up_desc (peer store region : Z) : string :=
  "scale up: add peer " +:+ str peer +:+ " on store " +:+ str store +:+ " for region " +:+ str region.
Definition scale_down_desc (peer store region : Z) : string :=
  "scale down: remove peer " +:+ str peer +:+ " on store " +:+ str store +:+ " for region " +:+ str region.

(** ** balance_leader.rs *)

Definition BALANCE_LEADER_RETRY_LIMIT : nat := 10.

(** The loop over [valid_targets]. *)
Fixpoint leader_target (source : StoreInfo) (targets : list StoreInfo) : outcome (option StoreInfo) :=
  match targets with
  | [] => Ok None
  | target :: targets' =>
      diff ← i32_sub (as_i32 (si_leader_count source)) (as_i32 (si_leader_count target));
      if diff <? 2 then leader_target source targets' else Ok (Some target)
  end.

Definition balance_leader_from (created : Z) (cluster : BasicCluster) (sorted_targets : list StoreInfo)
    (source : StoreInfo) : M rng (option Operator) :=
  region ← draw (rand_leader_region (si_id source) cluster);
  match region with
  | None => mret None
  | Some region =>
      let follower_stores := get_follower_store_ids region in
      let valid_targets := base.filter (λ t, si_id t ∈ follower_stores) sorted_targets in
      target ← lift (leader_target source valid_targets);
      match target with
      | None => mret None
      | Some target =>
          mret (Some (create_transfer_leader_operator created
            (transfer_desc (si_id source) (si_id target) (rgi_id region))
            region (si_id source) (si_id target)))
      end
  end.

Definition balance_leader_schedule (now : Z → Z) (created max_down_time : Z) (cluster : BasicCluster) :
    M rng (option Operator) :=
  let filters := [StoreStateFilter max_down_time] in
  let stores := get_stores cluster in
  let sources := select_source_stores now stores filters in
  let targets := select_target_stores now stores filters in
  if is_empty sources || is_empty targets then mret None else
  let sorted_sources := sort_by (λ a b, si_leader_count b <? si_leader_count a) sources in
  let sorted_targets := sort_by (λ a b, si_leader_count a <? si_leader_count b) targets in
  first_of sorted_sources (λ source,
    retry BALANCE_LEADER_RETRY_LIMIT (balance_leader_from created cluster sorted_targets source)).

(** ** balance_region.rs *)

Definition BALANCE_REGION_RETRY_LIMIT : nat := 10.

(** The loop of [try_create_move_peer_operator] that looks for a target. *)
Fixpoint move_target (region : RegionInfo) (source : StoreInfo) (targets : list StoreInfo) :
    outcome (option StoreInfo) :=
  match targets with
  | [] => Ok None
  | target :: targets' =>
      twice ← u64_mul 2 (rgi_approximate_size region);
      limit ← u64_add (si_region_size target) twice;
      if si_region_size source <=? limit then move_target region source targets'
      else if decide (si_id target ∈ get_store_ids region) then move_target region source targets'
      else Ok (Some target)
  end.

Definition try_create_move_peer_operator (created : Z) (region : RegionInfo) (source : StoreInfo)
    (targets : list StoreInfo) : M rng (option Operator) :=
  target ← lift (move_target region source targets);
  match target with
  | None => mret None
  | Some target =>
      new_peer_id ← new_peer_id_range;
      mret (Some (create_move_peer_operator created
        (move_desc (si_id source) (si_id target) (rgi_id region))
        region (si_id source) (si_id target) new_peer_id))
  end.

Definition try_region (created : Z) (source : StoreInfo) (targets : list StoreInfo)
    (choice : rng → option RegionInfo * rng) : M rng (option Operator) :=
  region ← draw choice;
  match region with
  | Some region => try_create_move_peer_operator created region source targets
  | None => mret None
  end.

(** Pending regions are preferred, then followers, then leaders. *)
Definition balance_region_from (created : Z) (cluster : BasicCluster) (sorted_targets : list StoreInfo)
    (source : StoreInfo) : M rng (option Operator) :=
  first_of [rand_pending_region (si_id source) cluster; rand_follower_region (si_id source) cluster;
            rand_leader_region (si_id source) cluster]
    (try_region created source sorted_targets).

Definition balance_region_schedule (now : Z → Z) (created max_down_time : Z) (cluster : BasicCluster) :
    M rng (option Operator) :=
  let filters := [StoreStateFilter max_down_time] in
  let stores := get_stores cluster in
  let sources := select_source_stores now stores filters in
  let targets := select_target_stores now stores filters in
  if is_empty sources || is_empty targets then mret None else
  let sorted_sources := sort_by (λ a b, lexicographic_less (region_load b) (region_load a)) sources in
  let sorted_targets := sort_by (λ a b, lexicographic_less (region_load a) (region_load b)) targets in
  first_of sorted_sources (λ source,
    retry BALANCE_REGION_RETRY_LIMIT (balance_region_from created cluster sorted_targets source)).

(** ** scale.rs *)

Definition MIN_PEER_COUNT : Z := 3.
Definition MAX_PEER_COUNT : Z := 5.
Record ScaleScheduler := mkScale { sc_max_down_time : Z; sc_min_peer_count : Z; sc_max_peer_count : Z }.
Definition ScaleScheduler_new (max_down_time : Z) : ScaleScheduler :=
  mkScale max_down_time MIN_PEER_COUNT MAX_PEER_COUNT.

Definition peer_count (region : RegionInfo) : Z := Z.of_nat (length (rgi_peers region)).
Definition scale_is_schedule_allowed (s : ScaleScheduler) (cluster : BasicCluster) : bool :=
  sc_min_peer_count s <=? Z.of_nat (length (get_stores cluster)).

(** [iter.min_by_key(key)]: the first of the least elements. *)
Fixpoint min_by_key {A} (key : A → Z * Z) (l : list A) : option A :=
  match l with
  | [] => None
  | x :: l' =>
      match min_by_key key l' with
      | Some y => if lexicographic_less (key y) (key x) then Some y else Some x
      | None => Some x
      end
  end.

Definition try_create_add_peer_operator (now : Z → Z) (created : Z) (s : ScaleScheduler)
    (cluster : BasicCluster) (region : RegionInfo) : M rng (option Operator) :=
  let targets := select_target_stores now (get_stores cluster) [StoreStateFilter (sc_max_down_time s)] in
  let available_stores := base.filter (λ t, si_id t ∉ get_store_ids region) targets in
  match min_by_key region_load available_stores with
  | None => mret None
  | Some target_store =>
      new_peer_id ← new_peer_id_range;
      mret (Some (create_add_peer_operator created
        (scale_up_desc new_peer_id (si_id target_store) (rgi_id region))
        region (si_id target_store) new_peer_id))
  end.

(** The comparison of the candidates: the heavier store first; peers of stores
    that are not registered compare as equal. *)
Definition heavier (stores : list StoreInfo) (a b : Peer) : bool :=
  match list_find (λ s, si_id s = pr_store_id a) stores, list_find (λ s, si_id s = pr_store_id b) stores with
  | Some (_, sa), Some (_, sb) => lexicographic_less (region_load sb) (region_load sa)
  | _, _ => false
  end.

Definition try_create_remove_peer_operator (created : Z) (s : ScaleScheduler)
    (cluster : BasicCluster) (region : RegionInfo) : option Operator :=
  if peer_count region <=? sc_min_peer_count s then None
  else
    let leader_store_id := get_leader_store_id region in
    let candidate_peers := base.filter (λ p, leader_store_id ≠ Some (pr_store_id p)) (rgi_peers region) in
    match sort_by (heavier (get_stores cluster)) candidate_peers with
    | [] => None
    | peer_to_remove :: _ =>
        Some (create_remove_peer_operator created
          (scale_down_desc (pr_id peer_to_remove) (pr_store_id peer_to_remove) (rgi_id region))
          region (pr_store_id peer_to_remove))
    end.

Definition scale_schedule (now : Z → Z) (created : Z) (s : ScaleScheduler) (cluster : BasicCluster) :
    M rng (option Operator) :=
  let regions := get_regions cluster in
  up ← first_of regions (λ region,
    if peer_count region <? sc_min_peer_count s
    then try_create_add_peer_operator now created s cluster region else mret None);
  match up with
  | Some op => mret (Some op)
  | None =>
      first_of regions (λ region,
        if sc_max_peer_count s <? peer_count region
        then mret (try_create_remove_peer_operator created s cluster region) else mret None)
  end.
End schedulers.

(** ** Runs of the combinators *)

Section runs.
Context `{prof : BuildProfile} `{order : HashOrder} `{rand : RandomSource}.

(** A run that returns, whatever the random numbers. *)
Definition returns {A} (m : M rng A) : Prop := ∀ g, ∃ a g', m g = (Ok a, g').

Lemma first_of_some {A} (l : list A) body g op g' :
  first_of l body g = (Ok (Some op), g') → ∃ x g1 g2, x ∈ l ∧ body x g1 = (Ok (Some op), g2).
Proof.
  revert g. induction l as [|x l IH]; intros g; cbn; [done|].
  intros ([op1|] & g1 & E & H)%M_bind_ok.
  - injection H as <- <-. exists x, g, g1. split; [left|done].
  - apply IH in H as (y & g2 & g3 & Hy & E'). exists y, g2, g3. split; [by right|done].
Qed.

Lemma retry_some n body g op g' :
  retry n body g = (Ok (Some op), g') → ∃ g1 g2, body g1 = (Ok (Some op), g2).
Proof.
  revert g. induction n as [|n IH]; intros g; cbn; [done|].
  intros ([op1|] & g1 & E & H)%M_bind_ok; [|by eapply IH]. injection H as <- <-. eauto.
Qed.

Lemma returns_ret {A} (a : A) : returns (mret a).
Proof. intros g. by eexists _, _. Qed.
Lemma returns_draw {A} (choice : rng → A * rng) : returns (draw choice).
Proof. intros g. unfold draw. destruct (choice g). by eexists _, _. Qed.
Lemma returns_lift {A} (o : outcome A) a : o = Ok a → returns (lift o).
Proof. intros -> g. by eexists _, _. Qed.
Lemma returns_bind {A B} (m : M rng A) (f : A → M rng B) :
  returns m → (∀ a, returns (f a)) → returns (m ≫= f).
Proof.
  intros Hm Hf g. destruct (Hm g) as (a & g1 & E). destruct (Hf a g1) as (b & g2 & E').
  exists b, g2. by rewrite (M_bind_run _ _ _ _ _ E).
Qed.
Lemma returns_first_of {A} (l : list A) body : (∀ x, x ∈ l → returns (body x)) → returns (first_of l body).
Proof.
  induction l as [|x l IH]; intros H; cbn; [apply returns_ret|]. apply returns_bind; [apply H; left|].
  intros [op|]; [apply returns_ret|]. apply IH. intros y Hy. apply H. by right.
Qed.
Lemma returns_retry n body : returns body → returns (retry n body).
Proof.
  intros H. induction n as [|n IH]; cbn; [apply returns_ret|]. apply returns_bind; [done|].
  intros [op|]; [apply returns_ret|done].
Qed.

Lemma draw_ok {A} (choice : rng → A * rng) g a g' : draw choice g = (Ok a, g') → (choice g).1 = a.
Proof. unfold draw. destruct (choice g) as [a0 g0]. by intros [= -> _]. Qed.

(** The stores a scheduler works with. *)
Definition eligible (now : Z → Z) (max_down_time : Z) (cluster : BasicCluster) (s : StoreInfo) : Prop :=
  get_store (si_id s) cluster = Some s ∧ si_state s = Up ∧ si_blocked s = false ∧
  down_time (now (si_id s)) s ≤ max_down_time.

(** Stores are registered under their own ids. *)
Definition stores_ok (c : BasicCluster) : Prop := ∀ id s, get_store id c = Some s → si_id s = id.

Lemma elem_of_targets now d c s :
  stores_ok c → s ∈ select_target_stores now (get_stores c) [StoreStateFilter d] ↔ eligible now d c s.
Proof.
  intros Hok. rewrite state_filter_exact. unfold eligible, get_stores, hash_values.
  enough (s ∈ (hash_iter (bc_stores c)).*2 ↔ get_store (si_id s) c = Some s) by tauto.
  rewrite list_elem_of_fmap. split.
  - intros ([id s'] & -> & H%elem_of_hash_iter). cbn. by rewrite (Hok _ _ H).
  - intros H. exists (si_id s, s). by rewrite elem_of_hash_iter.
Qed.

Lemma follower_stores s r :
  s ∈ get_follower_store_ids r ↔ s ∈ stores_of r ∧ get_leader_store_id r ≠ Some s.
Proof. unfold get_follower_store_ids. rewrite list_elem_of_filter. naive_solver. Qed.

Lemma elem_of_store_ids s r : s ∈ get_store_ids r ↔ s ∈ stores_of r.
Proof. unfold get_store_ids. by rewrite elem_of_list_to_set. Qed.

(** ** Balancing leaders *)

Definition small_counts (c : BasicCluster) : Prop :=
  ∀ id s, get_store id c = Some s → 0 ≤ si_leader_count s < 2 ^ 31.

Lemma leader_target_run source targets :
  0 ≤ si_leader_count source < 2 ^ 31 → (∀ t, t ∈ targets → 0 ≤ si_leader_count t < 2 ^ 31) →
  ∃ r, leader_target source targets = Ok r ∧
    match r with
    | Some t => t ∈ targets ∧ si_leader_count t + 2 ≤ si_leader_count source
    | None => ∀ t, t ∈ targets → si_leader_count source < si_leader_count t + 2
    end.
Proof.
  intros Hs. induction targets as [|t targets IH]; intros Ht; cbn.
  { exists None. split; [done|]. set_solver. }
  assert (0 ≤ si_leader_count t < 2 ^ 31) as Ht0 by (apply Ht; left).
  rewrite !as_i32_small by done. unfold i32_sub. rewrite decide_True by lia. cbn.
  destruct (Z.ltb_spec (si_leader_count source - si_leader_count t) 2).
  - destruct IH as (r & -> & Hr); [intros; apply Ht; by right|]. exists r. split; [done|].
    destruct r as [t'|]; [destruct Hr; split; [by right|lia]|].
    intros t' [->|Ht']%elem_of_cons; [lia|by apply Hr].
  - exists (Some t). split; [done|]. split; [left|lia].
Qed.

Lemma leader_run created c targets source :
  cluster_ok c → (∀ t, t ∈ source :: targets → 0 ≤ si_leader_count t < 2 ^ 31) →
  returns (balance_leader_from created c targets source) ∧
  ∀ g op g', balance_leader_from created c targets source g = (Ok (Some op), g') →
    ∃ region target, target ∈ targets ∧
      op = create_transfer_leader_operator created
             (transfer_desc (si_id source) (si_id target) (rgi_id region)) region (si_id source) (si_id target) ∧
      get_region (rgi_id region) c = Some region ∧ rgi_pending_peers region = [] ∧
      get_leader_store_id region = Some (si_id source) ∧ si_id target ∈ stores_of region ∧
      si_leader_count target + 2 ≤ si_leader_count source.
Proof.
  intros Hok Hc. unfold balance_leader_from.
  assert (Ht : ∀ region, ∃ r, leader_target source
      (base.filter (λ t, si_id t ∈ get_follower_store_ids region) targets) = Ok r ∧
    match r with
    | Some t => t ∈ base.filter (λ t, si_id t ∈ get_follower_store_ids region) targets ∧
                si_leader_count t + 2 ≤ si_leader_count source
    | None => True
    end).
  { intros region. edestruct leader_target_run as (r & E & H); [apply Hc; left| |exists r; by destruct r].
    intros t [_ H]%list_elem_of_filter. apply Hc. by right. }
  split.
  - apply returns_bind; [apply returns_draw|]. intros [region|]; [|apply returns_ret].
    destruct (Ht region) as (r & E & _). apply returns_bind; [by eapply returns_lift|].
    intros [target|]; apply returns_ret.
  - intros g op g' ([region|] & g1 & Hd%draw_ok & H)%M_bind_ok; [|done].
    destruct (Ht region) as (r & E & Hr). rewrite E in H.
    apply M_bind_ok in H as (r0 & g2 & [= <- <-] & H). destruct r as [target|]; [|done].
    injection H as <- <-. destruct Hr as [[Hf Hin]%list_elem_of_filter Hdiff].
    apply follower_stores in Hf as [Hf _].
    destruct (rand_sound c (si_id source) g region Hok) as (_ & _ & Hl).
    destruct (Hl Hd) as (? & ? & ?). exists region, target. split_and!; done.
Qed.

(** C31: With fewer than 2^31 leaders per store the leader scheduler returns, and
    the operator it makes, if any, moves the leader of a healthy region off the
    store that leads it to a store that holds another peer of it; both stores
    are up, not blocked and heard of in time; and the new leader's store leads
    at least two regions fewer, so that it does not lead more afterwards than
    the old one is left with. *)
Theorem balance_leader_sound (now : Z → Z) (created max_down_time : Z) (c : BasicCluster) :
  cluster_ok c → stores_ok c → small_counts c →
  returns (balance_leader_schedule now created max_down_time c) ∧
  ∀ g op g', balance_leader_schedule now created max_down_time c g = (Ok (Some op), g') →
    ∃ region source target,
      op_steps op = [TransferLeader (si_id source) (si_id target)] ∧
      op_region_id op = rgi_id region ∧ op_region_epoch op = rgi_epoch region ∧ op_kind op = OkLeader ∧
      get_region (rgi_id region) c = Some region ∧ rgi_pending_peers region = [] ∧
      get_leader_store_id region = Some (si_id source) ∧ si_id target ∈ stores_of region ∧
      eligible now max_down_time c source ∧ eligible now max_down_time c target ∧
      si_leader_count target + 1 ≤ si_leader_count source - 1.
Proof.
  intros Hok Hst Hcnt. unfold balance_leader_schedule. rewrite select_source_target.
  set (l := select_target_stores _ _ _).
  assert (Hl : ∀ s, s ∈ l → eligible now max_down_time c s) by (intros s; by apply elem_of_targets).
  assert (Hcnt' : ∀ s, s ∈ l → 0 ≤ si_leader_count s < 2 ^ 31)
    by (intros s Hs; destruct (Hl s Hs) as [Hg _]; by eapply Hcnt).
  rewrite orb_diag. destruct (is_empty l); [split; [apply returns_ret|done]|].
  assert (Hrun : ∀ source, source ∈ sort_by (λ a b, si_leader_count b <? si_leader_count a) l → _)
    by exact (λ source Hs, leader_run created c (sort_by (λ a b, si_leader_count a <? si_leader_count b) l)
      source Hok (λ t Ht, ltac:(apply Hcnt'; revert Ht Hs; rewrite elem_of_cons, !sort_by_perm; naive_solver))).
  split.
  - apply returns_first_of. intros source Hs. apply returns_retry. by apply Hrun.
  - intros g op g' (source & g1 & g2 & Hs & H)%first_of_some. apply retry_some in H as (g3 & g4 & H).
    apply Hrun in H as (region & target & Ht & -> & Hrest); [|done].
    rewrite sort_by_perm in Hs, Ht. exists region, source, target. naive_solver lia.
Qed.

(** ** Balancing regions *)

Definition small_sizes (c : BasicCluster) : Prop := ∀ id s rid r,
  get_store id c = Some s → get_region rid c = Some r →
  0 ≤ si_region_size s ∧ 0 ≤ rgi_approximate_size r ∧
  si_region_size s + 2 * rgi_approximate_size r ≤ u64_max.

(** The store that leads a region has a peer of it. *)
Definition leaders_ok (c : BasicCluster) : Prop := ∀ id r s,
  get_region id c = Some r → get_leader_store_id r = Some s → s ∈ stores_of r.

(** A target a region may move to from [source]. *)
Definition suitable (region : RegionInfo) (source target : StoreInfo) : Prop :=
  si_region_size target + 2 * rgi_approximate_size region < si_region_size source ∧
  si_id target ∉ stores_of region.

Lemma move_target_run region source targets :
  0 ≤ rgi_approximate_size region →
  (∀ t, t ∈ targets → 0 ≤ si_region_size t ∧ si_region_size t + 2 * rgi_approximate_size region ≤ u64_max) →
  ∃ r, move_target region source targets = Ok r ∧
    match r with
    | Some t => suitable region source t ∧
        ∃ l1 l2, targets = l1 ++ t :: l2 ∧ ∀ t', t' ∈ l1 → ¬ suitable region source t'
    | None => ∀ t', t' ∈ targets → ¬ suitable region source t'
    end.
Proof.
  intros Hz. induction targets as [|t targets IH]; intros Ht.
  { exists None. split; [done|]. set_solver. }
  destruct (Ht t (list_elem_of_here _ _)) as [H0 H1]. cbn. unfold u64_mul.
  rewrite u64_norm_ok by (unfold is_u64; lia). cbn. rewrite u64_add_ok by (unfold is_u64; lia). cbn.
  destruct IH as (r & Er & Hr); [intros; apply Ht; by right|].
  assert (Hskip : ¬ suitable region source t → ∃ r0, Ok r = Ok r0 ∧
    match r0 with
    | Some t' => suitable region source t' ∧
        ∃ l1 l2, t :: targets = l1 ++ t' :: l2 ∧ ∀ t0, t0 ∈ l1 → ¬ suitable region source t0
    | None => ∀ t', t' ∈ t :: targets → ¬ suitable region source t'
    end).
  { intros Hno. exists r. split; [done|]. destruct r as [t'|].
    - destruct Hr as (Hs & l1 & l2 & -> & Hl1). split; [done|]. exists (t :: l1), l2. split; [done|].
      intros t0 [->|?]%elem_of_cons; [done|by apply Hl1].
    - intros t' [->|?]%elem_of_cons; [done|by apply Hr]. }
  destruct (Z.leb_spec (si_region_size source) (si_region_size t + 2 * rgi_approximate_size region)).
  - rewrite Er. apply Hskip. unfold suitable. lia.
  - case_decide as Hin; rewrite elem_of_store_ids in Hin.
    + rewrite Er. apply Hskip. unfold suitable. tauto.
    + exists (Some t). split; [done|]. split; [split; [lia|done]|].
      exists [], targets. split; [done|]. set_solver.
Qed.

Lemma lexicographic_asym x y : lexicographic_less x y = true → lexicographic_less y x = false.
Proof. unfold lexicographic_less. lia. Qed.
Lemma lexicographic_ge_trans x y z :
  lexicographic_less x y = false → lexicographic_less y z = false → lexicographic_less x z = false.
Proof. unfold lexicographic_less. lia. Qed.

Lemma move_run created c targets source region :
  small_sizes c → get_region (rgi_id region) c = Some region →
  (∀ t, t ∈ source :: targets → get_store (si_id t) c = Some t) →
  let sorted := sort_by (λ a b, lexicographic_less (region_load a) (region_load b)) targets in
  returns (try_create_move_peer_operator created region source sorted) ∧
  ∀ g op g', try_create_move_peer_operator created region source sorted g = (Ok (Some op), g') →
    ∃ target peer, target ∈ targets ∧ 10000 ≤ peer ≤ 99998 ∧
      op = create_move_peer_operator created
             (move_desc (si_id source) (si_id target) (rgi_id region)) region (si_id source) (si_id target) peer ∧
      suitable region source target ∧
      ∀ t, t ∈ targets → suitable region source t → lexicographic_less (region_load t) (region_load target) = false.
Proof.
  intros Hsz Hreg Hst sorted.
  destruct (Hsz _ _ _ _ (Hst source (list_elem_of_here _ _)) Hreg) as (_ & Hz & _).
  destruct (move_target_run region source sorted) as (r & Er & Hr); [done| |].
  { intros t Ht. unfold sorted in Ht. rewrite sort_by_perm in Ht.
    destruct (Hsz _ _ _ _ (Hst t (list_elem_of_further _ _ _ Ht)) Hreg) as (? & ? & ?). lia. }
  unfold try_create_move_peer_operator. rewrite Er. split.
  - apply returns_bind; [by eapply returns_lift|]. intros [t|]; [|apply returns_ret].
    apply returns_bind; [apply returns_draw|]. intros p. apply returns_ret.
  - intros g op g' (r0 & g1 & [= <- <-] & H)%M_bind_ok. destruct r as [target|]; [|done].
    apply M_bind_ok in H as (peer & g2 & Hd & H). injection H as <- <-.
    pose proof (gen_range_bounds g 10000 99998 ltac:(lia)) as Hb.
    apply (draw_ok (λ g, gen_range g 10000 99998)) in Hd. cbn in Hd. rewrite Hd in Hb.
    destruct Hr as (Hs & l1 & l2 & Hl & Hl1). exists target, peer.
    assert (∀ t, t ∈ targets ↔ t ∈ l1 ∨ t = target ∨ t ∈ l2) as Hin.
    { intros t. rewrite <- (sort_by_perm (λ a b, lexicographic_less (region_load a) (region_load b)) targets).
      fold sorted. rewrite Hl. set_solver. }
    split_and!; [apply Hin; tauto|lia|lia|done|done|].
    intros t [Ht|[->|Ht]]%Hin Hts; [by destruct (Hl1 t Ht)| |].
    + unfold lexicographic_less. lia.
    + pose proof (sort_by_sorted (λ a b, lexicographic_less (region_load a) (region_load b))
        (λ _, True) (λ x y _ _, lexicographic_asym _ _) (λ x y z _ _ _, lexicographic_ge_trans _ _ _) targets
        (Forall_true _ _ (λ _, I))) as Hsorted.
      fold sorted in Hsorted. rewrite Hl in Hsorted. apply StronglySorted_app_1_r in Hsorted.
      apply StronglySorted_cons in Hsorted as [Hall _]. rewrite Forall_forall in Hall. by apply Hall.
Qed.

(** A region the scheduler tries has a peer on the source. *)
Lemma region_run created c targets source :
  cluster_ok c → leaders_ok c → small_sizes c →
  (∀ t, t ∈ source :: targets → get_store (si_id t) c = Some t) →
  let sorted := sort_by (λ a b, lexicographic_less (region_load a) (region_load b)) targets in
  returns (balance_region_from created c sorted source) ∧
  ∀ g op g', balance_region_from created c sorted source g = (Ok (Some op), g') →
    ∃ region target peer, target ∈ targets ∧ 10000 ≤ peer ≤ 99998 ∧
      get_region (rgi_id region) c = Some region ∧ si_id source ∈ stores_of region ∧
      op = create_move_peer_operator created
             (move_desc (si_id source) (si_id target) (rgi_id region)) region (si_id source) (si_id target) peer ∧
      suitable region source target ∧
      ∀ t, t ∈ targets → suitable region source t → lexicographic_less (region_load t) (region_load target) = false.
Proof.
  intros Hok Hlead Hsz Hst sorted. unfold balance_region_from.
  assert (Hchoice : ∀ choice g region,
    choice ∈ [rand_pending_region (si_id source) c; rand_follower_region (si_id source) c;
              rand_leader_region (si_id source) c] →
    (choice g).1 = Some region →
    si_id source ∈ stores_of region ∧ get_region (rgi_id region) c = Some region).
  { intros choice g region Hch Hr. destruct (rand_sound c (si_id source) g region Hok) as (H1 & H2 & H3).
    rewrite !elem_of_cons in Hch. destruct Hch as [->|[->|[->|Hch]]]; [naive_solver..| |by apply not_elem_of_nil in Hch].
    destruct (H3 Hr) as (Hl & _ & Hreg). split; [by eapply Hlead|done]. }
  split.
  - apply returns_first_of. intros choice Hch g. unfold try_region, draw, mbind, M_bind.
    destruct (choice g) as [[region|] g1] eqn:E; [|by eexists _, _].
    assert (get_region (rgi_id region) c = Some region) as Hreg
      by (apply (Hchoice choice g); [done|by rewrite E]).
    by destruct (move_run created c targets source region Hsz Hreg Hst) as [Hret _].
  - intros g op g' (choice & g1 & g2 & Hch & H)%first_of_some. unfold try_region in H.
    apply M_bind_ok in H as ([region|] & g3 & Hd%draw_ok & H); [|done].
    destruct (Hchoice choice g1 region Hch Hd) as [Hin Hreg].
    destruct (move_run created c targets source region Hsz Hreg Hst) as [_ Hrun].
    apply Hrun in H as (target & peer & ? & ? & -> & ? & ?). exists region, target, peer. done.
Qed.

Lemma balance_region_run (now : Z → Z) (created max_down_time : Z) (c : BasicCluster) :
  cluster_ok c → stores_ok c → leaders_ok c → small_sizes c →
  returns (balance_region_schedule now created max_down_time c) ∧
  ∀ g op g', balance_region_schedule now created max_down_time c g = (Ok (Some op), g') →
    ∃ region source target peer,
      op = create_move_peer_operator created
             (move_desc (si_id source) (si_id target) (rgi_id region)) region (si_id source) (si_id target) peer ∧
      10000 ≤ peer ≤ 99998 ∧
      get_region (rgi_id region) c = Some region ∧ si_id source ∈ stores_of region ∧
      eligible now max_down_time c source ∧ eligible now max_down_time c target ∧
      suitable region source target ∧
      ∀ t, eligible now max_down_time c t → suitable region source t →
        lexicographic_less (region_load t) (region_load target) = false.
Proof.
  intros Hok Hst Hlead Hsz. unfold balance_region_schedule. rewrite select_source_target.
  set (l := select_target_stores _ _ _).
  assert (Hl : ∀ s, s ∈ l ↔ eligible now max_down_time c s) by (intros s; by apply elem_of_targets).
  rewrite orb_diag. destruct (is_empty l); [split; [apply returns_ret|done]|].
  assert (Hrun : ∀ source, source ∈ l → _) by exact (λ source Hs, region_run created c l source Hok Hlead Hsz
    (λ t Ht, proj1 (proj1 (Hl t) ltac:(revert Ht; rewrite elem_of_cons; naive_solver)))).
  split.
  - apply returns_first_of. intros source. rewrite sort_by_perm. intros Hs. apply returns_retry. by apply Hrun.
  - intros g op g' (source & g1 & g2 & Hs & H)%first_of_some. rewrite sort_by_perm in Hs.
    apply retry_some in H as (g3 & g4 & H). apply Hrun in H as (region & target & peer & Ht & H); [|done].
    apply Hl in Ht. destruct H as (? & ? & ? & -> & ? & Hleast). apply Hl in Hs as Hs'.
    exists region, source, target, peer. split_and!; try done; try lia. intros t Het. apply Hleast. by apply Hl.
Qed.

(** C32: A balancing move is sound.  In a cluster whose indices agree with its
    regions, and where no sum of two region sizes and a store size overflows,
    the region scheduler returns, and the operator it makes, if any, moves a
    peer of one region from a store that has one to a store that has none; both
    are up, not blocked and heard of in time.  The target is smaller than the
    source by more than twice the region, so it stays the smaller one after the
    move, and no store that would do has fewer regions. *)
Theorem balance_region_sound (now : Z → Z) (created max_down_time : Z) (c : BasicCluster) :
  cluster_ok c → stores_ok c → leaders_ok c → small_sizes c →
  returns (balance_region_schedule now created max_down_time c) ∧
  ∀ g op g', balance_region_schedule now created max_down_time c g = (Ok (Some op), g') →
    ∃ region source target peer,
      op = create_move_peer_operator created
             (move_desc (si_id source) (si_id target) (rgi_id region)) region (si_id source) (si_id target) peer ∧
      10000 ≤ peer ≤ 99998 ∧
      get_region (rgi_id region) c = Some region ∧ si_id source ∈ stores_of region ∧
      eligible now max_down_time c source ∧ eligible now max_down_time c target ∧
      suitable region source target ∧
      ∀ t, eligible now max_down_time c t → suitable region source t →
        lexicographic_less (region_load t) (region_load target) = false.
Proof. apply balance_region_run. Qed.

(** ** Rebalancing comes to an end *)

(** What a region reports after it has carried out a step. *)
Definition apply_step (r : RegionInfo) (step : OpStep) : RegionInfo :=
  let epoch := mkRegionEpoch (re_conf_ver (rgi_epoch r) + 1) (re_version (rgi_epoch r)) in
  let with_peers peers :=
    mkRegionInfo (mkRegion (rgi_id r) (rg_start_key (rgi_region r)) (rg_end_key (rgi_region r)) (Some epoch) peers)
      (rgi_leader r) (rgi_pending_peers r) (rgi_approximate_size r) in
  match step with
  | AddPeer to_store peer_id => with_peers (rgi_peers r ++ [mkPeer peer_id to_store])
  | RemovePeer from_store => with_peers (base.filter (λ p, pr_store_id p ≠ from_store) (rgi_peers r))
  | TransferLeader _ to_store => set_leader (get_peer_by_store_id to_store r) r
  end.

(** The size of the regions a store holds peers of. *)
Definition stored_size (regions : gmap Z RegionInfo) (s : Z) : Z :=
  zsum (λ r, peers_on s r * rgi_approximate_size r) (map_to_list regions).*2.

Record balance_ok (c : BasicCluster) : Prop := {
  bok_cluster : cluster_ok c;
  bok_stores : stores_ok c;
  bok_leaders : leaders_ok c;
  bok_small : small_sizes c;
  bok_current : ∀ s st, get_store s c = Some st → si_region_size st = stored_size (bc_regions c) s;
  bok_peers : ∀ id r, get_region id c = Some r → NoDup (stores_of r) ∧ 0 < rgi_approximate_size r;
}.

(** From [c] the region scheduler makes a move, the region carries it out, and
    its report leads to [c']. *)
Definition rebalanced (now : Z → Z) (created max_down_time : Z) (c' c : BasicCluster) : Prop :=
  balance_ok c ∧ ∃ g g' op r,
    balance_region_schedule now created max_down_time c g = (Ok (Some op), g') ∧
    get_region (op_region_id op) c = Some r ∧
    put_region (foldl apply_step r (op_steps op)) c = (Ok tt, c').

Definition imbalance (c : BasicCluster) : Z :=
  zsum (λ s, stored_size (bc_regions c) s ^ 2) (elements (dom (bc_stores c))).

Lemma zsum_update (f g : Z → Z) (l : list Z) a b :
  NoDup l → a ∈ l → b ∈ l → a ≠ b → (∀ x, x ≠ a → x ≠ b → f x = g x) →
  zsum g l = zsum f l + (g a - f a) + (g b - f b).
Proof.
  intros Hn Ha Hb Hab Hfg.
  apply elem_of_Permutation in Ha as [l1 H1]. rewrite H1 in Hb, Hn |- *.
  apply elem_of_cons in Hb as [|Hb]; [done|].
  apply elem_of_Permutation in Hb as [l2 H2]. rewrite H2 in Hn |- *. cbn.
  rewrite (zsum_ext f g l2); [lia|].
  intros x Hx. rewrite !NoDup_cons, elem_of_cons in Hn. apply Hfg; intros ->; tauto.
Qed.

Lemma stored_size_insert regions id r r' s :
  regions !! id = Some r →
  stored_size (<[id := r']> regions) s =
    stored_size regions s - peers_on s r * rgi_approximate_size r + peers_on s r' * rgi_approximate_size r'.
Proof.
  intros H. unfold stored_size. rewrite <- (insert_delete_id regions id r H) at 2.
  rewrite <- insert_delete_eq. rewrite !map_to_list_insert by apply lookup_delete_eq. cbn. lia.
Qed.

Lemma count_app {A} (g : A → Z) s l1 l2 : count g s (l1 ++ l2) = count g s l1 + count g s l2.
Proof. unfold count. rewrite filter_app, length_app. lia. Qed.

Lemma count_filter_ne s from (l : list Peer) :
  count pr_store_id s (base.filter (λ p, pr_store_id p ≠ from) l) =
  if decide (s = from) then 0 else count pr_store_id s l.
Proof.
  induction l as [|p l IH]; [by case_decide|]. rewrite filter_cons, (count_cons _ _ p l).
  destruct (decide (pr_store_id p ≠ from)); rewrite ?count_cons, IH; repeat case_decide; try lia; congruence.
Qed.

(** A move takes one peer from the source to the target. *)
Lemma moved_region created desc r r0 from to peer :
  NoDup (stores_of r) → from ∈ stores_of r → to ∉ stores_of r →
  let r' := foldl apply_step r (op_steps (create_move_peer_operator created desc r0 from to peer)) in
  rgi_id r' = rgi_id r ∧ rgi_approximate_size r' = rgi_approximate_size r ∧
  ∀ s, peers_on s r' = peers_on s r + (if decide (s = to) then 1 else 0) - (if decide (s = from) then 1 else 0).
Proof.
  intros Hn Hf Ht. rewrite move_peer_steps.
  assert (Hs : ∀ s, peers_on s r = if decide (s ∈ stores_of r) then 1 else 0) by (intros; by apply peers_on_nodup).
  case_decide; cbn; (split_and!; [done|done|]); intros s; unfold peers_on; cbn;
    rewrite count_filter_ne, count_app; cbn; fold (peers_on s r); rewrite (Hs s);
    unfold count; cbn; repeat case_decide; subst; cbn; try lia; congruence.
Qed.

Lemma rebalanced_decreases now created d c c' :
  rebalanced now created d c' c → 0 ≤ imbalance c' < imbalance c.
Proof.
  intros (Hok & g & g' & op & r & Hop & Hr & Hput). split.
  { apply zsum_nonneg. intros s _. nia. }
  destruct (balance_region_run now created d c) as [_ Hrun]; [apply Hok..|].
  apply Hrun in Hop as (region & source & target & peer & -> & _ & Hreg & Hsrc & Hes & Het & [Hsz Htgt] & _).
  cbn [create_move_peer_operator Operator_new op_region_id] in Hr. rewrite Hreg in Hr. injection Hr as ->.
  destruct Hes as (Hs & _), Het as (Ht & _). destruct (bok_peers c Hok _ _ Hreg) as [Hnd Hpos].
  destruct (moved_region created (move_desc (si_id source) (si_id target) (rgi_id r)) r r (si_id source)
    (si_id target) peer Hnd Hsrc Htgt) as (Hid' & Hsize' & Hpeers').
  set (r' := foldl _ _ _) in *.
  assert (bc_regions c' = <[rgi_id r := r']> (bc_regions c)) as Hregions.
  { rewrite <- Hid', <- (put_region_regions r' c). by rewrite Hput. }
  assert (dom (bc_stores c') = dom (bc_stores c)) as Hdom by (by eapply put_region_dom).
  unfold imbalance. rewrite Hdom, Hregions.
  rewrite (zsum_update (λ s, stored_size (bc_regions c) s ^ 2)
    (λ s, stored_size (<[rgi_id r:=r']> (bc_regions c)) s ^ 2) _ (si_id source) (si_id target)).
  - rewrite !(stored_size_insert _ _ r r') by exact Hreg. rewrite Hsize', !Hpeers'.
    rewrite <- (bok_current c Hok _ _ Hs), <- (bok_current c Hok _ _ Ht).
    assert (si_id source ≠ si_id target) by (intros E; apply Htgt; by rewrite <- E).
    repeat case_decide; try congruence.
    set (z := rgi_approximate_size r) in *. set (p := peers_on (si_id source) r). set (q := peers_on _ r).
    replace (si_region_size source - p * z + (p + 0 - 1) * z) with (si_region_size source - z) by ring.
    replace (si_region_size target - q * z + (q + 1 - 0) * z) with (si_region_size target + z) by ring.
    nia.
  - apply NoDup_elements.
  - apply elem_of_elements, elem_of_dom. by eexists.
  - apply elem_of_elements, elem_of_dom. by eexists.
  - intros E. apply Htgt. by rewrite <- E.
  - intros s Hs1 Ht1. rewrite (stored_size_insert _ _ r r') by exact Hreg.
    rewrite Hsize', Hpeers', !decide_False by done. f_equal. lia.
Qed.
(** C33: Rebalancing comes to an end: every move lowers the sum of the squares of
    what the stores hold, so from no cluster there is an endless sequence of
    moves, at whatever times the scheduler runs and whatever it draws. *)
Theorem rebalancing_terminates (max_down_time : Z) :
  let moves := λ c' c, ∃ now created, rebalanced now created max_down_time c' c in
  (∀ c c', moves c' c → 0 ≤ imbalance c' < imbalance c) ∧ well_founded moves.
Proof.
  cbv zeta. assert (Hdec : ∀ c c', (∃ now created, rebalanced now created max_down_time c' c) →
    0 ≤ imbalance c' < imbalance c) by (intros c c' (now & created & H); by eapply rebalanced_decreases).
  split; [done|].
  apply (wf_projected (λ n m : nat, (n < m)%nat) (λ c, Z.to_nat (imbalance c))); [|apply lt_wf].
  intros c' c H%Hdec. lia.
Qed.

(** ** Scaling *)

Lemma first_of_none {A} (l : list A) body g g' :
  first_of l body g = (Ok None, g') → ∀ x, x ∈ l → ∃ g1 g2, body x g1 = (Ok None, g2).
Proof.
  revert g. induction l as [|y l IH]; intros g; cbn; [set_solver|].
  intros ([op1|] & g1 & E & H)%M_bind_ok x; [done|].
  intros [->|Hx]%elem_of_cons; [by eexists _, _|by eapply IH].
Qed.

Lemma min_by_key_spec {A} (key : A → Z * Z) l :
  match min_by_key key l with
  | Some x => x ∈ l ∧ ∀ y, y ∈ l → lexicographic_less (key y) (key x) = false
  | None => l = []
  end.
Proof.
  induction l as [|x l IH]; cbn; [done|]. destruct (min_by_key key l) as [y|].
  - destruct IH as [Hy Hmin]. destruct (lexicographic_less (key y) (key x)) eqn:E.
    + split; [by right|]. intros z [->|Hz]%elem_of_cons; [by apply lexicographic_asym|by apply Hmin].
    + split; [left|]. intros z [->|Hz]%elem_of_cons; [unfold lexicographic_less; lia|].
      eapply lexicographic_ge_trans; [by apply Hmin|done].
  - subst l. split; [left|]. intros z ->%list_elem_of_singleton. unfold lexicographic_less. lia.
Qed.

(** A store that could take a further peer of the region. *)
Definition can_take (now : Z → Z) (s : ScaleScheduler) (c : BasicCluster) (region : RegionInfo) (t : StoreInfo) : Prop :=
  eligible now (sc_max_down_time s) c t ∧ si_id t ∉ stores_of region.

Lemma scale_up_run now created s c region :
  stores_ok c →
  returns (try_create_add_peer_operator now created s c region) ∧
  ∀ g o g', try_create_add_peer_operator now created s c region g = (Ok o, g') →
    match o with
    | Some op => ∃ target peer, can_take now s c region target ∧ 10000 ≤ peer ≤ 99998 ∧
        op = create_add_peer_operator created (scale_up_desc peer (si_id target) (rgi_id region)) region (si_id target) peer ∧
        ∀ t, can_take now s c region t → lexicographic_less (region_load t) (region_load target) = false
    | None => ∀ t, ¬ can_take now s c region t
    end.
Proof.
  intros Hst. unfold try_create_add_peer_operator. set (l := base.filter _ _).
  assert (Hl : ∀ t, t ∈ l ↔ can_take now s c region t).
  { intros t. subst l. rewrite list_elem_of_filter, elem_of_targets, elem_of_store_ids by done.
    unfold can_take. tauto. }
  pose proof (min_by_key_spec region_load l) as Hmin. destruct (min_by_key region_load l) as [target|].
  - split; [apply returns_bind; [apply returns_draw|]; intros p; apply returns_ret|].
    intros g o g' (peer & g2 & Hd & H)%M_bind_ok. injection H as <- <-.
    pose proof (gen_range_bounds g 10000 99998 ltac:(lia)) as Hb.
    apply (draw_ok (λ g, gen_range g 10000 99998)) in Hd. cbn in Hd. rewrite Hd in Hb.
    destruct Hmin as [Hin Hmin]. exists target, peer. split_and!; try done; try lia; [by apply Hl|].
    intros t Ht. by apply Hmin, Hl.
  - split; [apply returns_ret|]. intros g o g' [= <- <-] t Ht%Hl. rewrite Hmin in Ht. by apply not_elem_of_nil in Ht.
Qed.

Lemma scale_down_run created s c region :
  match try_create_remove_peer_operator created s c region with
  | Some op => sc_min_peer_count s < peer_count region ∧ ∃ p, p ∈ rgi_peers region ∧
      get_leader_store_id region ≠ Some (pr_store_id p) ∧
      op = create_remove_peer_operator created
             (scale_down_desc (pr_id p) (pr_store_id p) (rgi_id region)) region (pr_store_id p)
  | None => peer_count region ≤ sc_min_peer_count s ∨
      ∀ p, p ∈ rgi_peers region → get_leader_store_id region = Some (pr_store_id p)
  end.
Proof.
  unfold try_create_remove_peer_operator. destruct (Z.leb_spec (peer_count region) (sc_min_peer_count s)); [by left|].
  pose proof (sort_by_perm (heavier (get_stores c))
    (base.filter (λ p, get_leader_store_id region ≠ Some (pr_store_id p)) (rgi_peers region))) as Hp.
  destruct (sort_by _ _) as [|p l].
  - right. intros p Hin. apply dec_stable. intros Hne. apply Permutation_nil in Hp.
    apply (not_elem_of_nil p). rewrite <- Hp. by apply list_elem_of_filter.
  - split; [done|]. exists p. assert (p ∈ p :: l) as Hin by left. rewrite Hp in Hin.
    apply list_elem_of_filter in Hin as [? ?]. done.
Qed.

Lemma elem_of_regions c r : cluster_ok c → r ∈ get_regions c ↔ get_region (rgi_id r) c = Some r.
Proof.
  intros [Hid _ _]. unfold get_regions. rewrite hash_values_perm, elem_of_map_values. unfold get_region.
  split; [intros [id H]; by rewrite (Hid _ _ H)|eauto].
Qed.

(** The scale scheduler returns whatever the cluster holds.  An operator it
    makes either adds a peer to a region with fewer than the minimum, on a
    store that has none of it and is up, not blocked and heard of in time, with
    the fewest regions of all such stores; or it removes a peer from a region
    with more than the maximum, not from the store that leads it.  It makes
    none only when every region with too few peers has no store to put one on,
    and every region with too many either is at the minimum already or has all
    its peers on the store that leads it. *)
Theorem scale_schedule_exact (now : Z → Z) (created : Z) (s : ScaleScheduler) (c : BasicCluster) :
  cluster_ok c → stores_ok c →
  returns (scale_schedule now created s c) ∧
  ∀ g o g', scale_schedule now created s c g = (Ok o, g') →
    match o with
    | Some op => ∃ region, get_region (rgi_id region) c = Some region ∧
        ((peer_count region < sc_min_peer_count s ∧ ∃ target peer,
            can_take now s c region target ∧ op_steps op = [AddPeer (si_id target) peer] ∧
            ∀ t, can_take now s c region t → lexicographic_less (region_load t) (region_load target) = false) ∨
         (sc_max_peer_count s < peer_count region ∧ sc_min_peer_count s < peer_count region ∧ ∃ p,
            p ∈ rgi_peers region ∧ get_leader_store_id region ≠ Some (pr_store_id p) ∧
            op_steps op = [RemovePeer (pr_store_id p)])) ∧
        op_region_id op = rgi_id region ∧ op_region_epoch op = rgi_epoch region
    | None => ∀ region, get_region (rgi_id region) c = Some region →
        (peer_count region < sc_min_peer_count s → ∀ t, ¬ can_take now s c region t) ∧
        (sc_max_peer_count s < peer_count region → peer_count region ≤ sc_min_peer_count s ∨
           ∀ p, p ∈ rgi_peers region → get_leader_store_id region = Some (pr_store_id p))
    end.
Proof.
  intros Hok Hst. unfold scale_schedule. split.
  - apply returns_bind.
    + apply returns_first_of. intros r _. case_match; [by apply scale_up_run|apply returns_ret].
    + intros [op|]; [apply returns_ret|]. apply returns_first_of. intros r _. case_match; apply returns_ret.
  - intros g o g' ([op|] & g1 & H1 & H2)%M_bind_ok.
    + injection H2 as <- <-. apply first_of_some in H1 as (r & g2 & g3 & Hr & H).
      apply elem_of_regions in Hr; [|done]. destruct (Z.ltb_spec (peer_count r) (sc_min_peer_count s)); [|done].
      apply scale_up_run in H as (target & peer & Ht & _ & -> & Hmin); [|done].
      exists r. split; [done|]. split; [left; eauto 6|done].
    + pose proof (first_of_none _ _ _ _ H1) as Hup. destruct o as [op|].
      * apply first_of_some in H2 as (r & g2 & g3 & Hr & H). apply elem_of_regions in Hr; [|done].
        destruct (Z.ltb_spec (sc_max_peer_count s) (peer_count r)); [|done]. injection H as H _.
        pose proof (scale_down_run created s c r) as Hd. rewrite H in Hd.
        destruct Hd as (Hmin & p & ? & ? & ->). exists r. split; [done|]. split; [right; eauto 6|done].
      * pose proof (first_of_none _ _ _ _ H2) as Hdown. intros r Hr. apply elem_of_regions in Hr; [|done]. split.
        -- intros Hlt. destruct (Hup r Hr) as (g2 & g3 & H). rewrite (proj2 (Z.ltb_lt _ _) Hlt) in H.
           apply (scale_up_run now created s c r Hst) in H. done.
        -- intros Hlt. destruct (Hdown r Hr) as (g2 & g3 & H). rewrite (proj2 (Z.ltb_lt _ _) Hlt) in H.
           injection H as H _. pose proof (scale_down_run created s c r) as Hd. by rewrite H in Hd.
Qed.
End runs.

(** ** Samples *)

Section samples.
#[local] Existing Instance map_order.
#[local] Existing Instance low_rng.
#[local] Instance checked : BuildProfile := true.

(** Three regions of size 10 on store 1, none on stores 2 and 3. *)
Definition crowded_region (id : Z) : RegionInfo :=
  set_approximate_size 10 (sample_region id [mkPeer (10 * id) 1] (Some (mkPeer (10 * id) 1))).
Definition crowded : BasicCluster :=
  foldl (λ c id, (put_region (crowded_region id) c).2) three_stores [1; 2; 3].

Definition at_zero : Z → Z := λ _, 0.

Lemma crowded_cluster_ok : cluster_ok crowded.
Proof. repeat apply put_region_ok_run. apply three_stores_ok. Qed.

Lemma crowded_stores_ok : stores_ok crowded.
Proof.
  intros id s. refine (bool_decide_unpack (map_Forall (λ id s, si_id s = id) (bc_stores crowded)) _ id s).
  by vm_compute.
Qed.

Lemma crowded_leaders_ok : leaders_ok crowded.
Proof.
  intros id r s H Hs. enough (Forall (λ s, s ∈ stores_of r) (leader_stores r)) as Hr.
  { unfold leader_stores in Hr. rewrite Hs in Hr. exact (Forall_inv Hr). }
  clear s Hs. revert id r H. refine (bool_decide_unpack (map_Forall (λ _ r,
    Forall (λ s, s ∈ stores_of r) (leader_stores r)) (bc_regions crowded)) _).
  by vm_compute.
Qed.

Lemma crowded_small : small_sizes crowded.
Proof.
  intros id s rid r Hs Hr. revert rid r Hr. revert id s Hs.
  refine (bool_decide_unpack (map_Forall (λ id s, map_Forall (λ rid r,
    0 ≤ si_region_size s ∧ 0 ≤ rgi_approximate_size r ∧
    si_region_size s + 2 * rgi_approximate_size r ≤ u64_max) (bc_regions crowded)) (bc_stores crowded)) _).
  by vm_compute.
Qed.

Lemma crowded_balance_ok : balance_ok crowded.
Proof.
  split.
  - exact crowded_cluster_ok.
  - exact crowded_stores_ok.
  - exact crowded_leaders_ok.
  - exact crowded_small.
  - refine (bool_decide_unpack (map_Forall (λ s st,
      si_region_size st = stored_size (bc_regions crowded) s) (bc_stores crowded)) _). by vm_compute.
  - refine (bool_decide_unpack (map_Forall (λ _ r,
      NoDup (stores_of r) ∧ 0 < rgi_approximate_size r) (bc_regions crowded)) _). by vm_compute.
Qed.

Lemma balance_region_sound_witness :
  ∃ op, balance_region_schedule at_zero 0 100 crowded tt = (Ok (Some op), tt) ∧
    ∃ region source target peer, op = create_move_peer_operator 0
       (move_desc (si_id source) (si_id target) (rgi_id region)) region (si_id source) (si_id target) peer ∧
    suitable region source target.
Proof.
  eexists. split; [vm_compute; reflexivity|].
  destruct (balance_region_sound at_zero 0 100 crowded crowded_cluster_ok crowded_stores_ok crowded_leaders_ok
    crowded_small) as [_ H].
  destruct (H tt _ tt ltac:(vm_compute; reflexivity)) as (r & s & t & p & E & _ & _ & _ & _ & _ & Hs & _).
  exists r, s, t, p. split; [exact E|exact Hs].
Defined.

Definition first_move : Operator :=
  match (balance_region_schedule at_zero 0 100 crowded tt).1 with
  | Ok (Some op) => op
  | _ => Operator_new 0 "" 0 (mkRegionEpoch 0 0) OkAdmin []
  end.
Definition moving : RegionInfo := crowded_region (op_region_id first_move).
Definition moved : BasicCluster := (put_region (foldl apply_step moving (op_steps first_move)) crowded).2.

(** A move happens in [crowded], so [rebalancing_terminates] is not about an
    empty relation. *)
Lemma rebalancing_terminates_witness :
  ∃ c', (∃ now created, rebalanced now created 100 c' crowded) ∧ imbalance c' < imbalance crowded.
Proof.
  assert (rebalanced at_zero 0 100 moved crowded) as H.
  { split; [exact crowded_balance_ok|]. exists tt, tt, first_move, moving.
    split; [by vm_compute|]. split; by vm_compute. }
  exists moved. split; [by exists at_zero, 0|]. apply (rebalancing_terminates 100). by exists at_zero, 0.
Defined.

(** Store 1 leads three regions; region 4 has a follower on store 2. *)
Definition led_by_1 : BasicCluster :=
  (put_region (sample_region 4 [mkPeer 41 1; mkPeer 42 2] (Some (mkPeer 41 1))) three_stores).2.
Definition leader_heavy : BasicCluster :=
  (put_region (sample_region 5 [mkPeer 51 1; mkPeer 52 2] (Some (mkPeer 51 1))) led_by_1).2.

Lemma leader_heavy_ok : cluster_ok leader_heavy ∧ stores_ok leader_heavy ∧ small_counts leader_heavy.
Proof.
  split; [repeat apply put_region_ok_run; apply three_stores_ok|]. split.
  - refine (bool_decide_unpack (map_Forall (λ id s, si_id s = id) (bc_stores leader_heavy)) _). by vm_compute.
  - refine (bool_decide_unpack (map_Forall (λ _ s, 0 ≤ si_leader_count s < 2 ^ 31) (bc_stores leader_heavy)) _).
    by vm_compute.
Qed.

Lemma balance_leader_sound_witness :
  ∃ op, balance_leader_schedule at_zero 0 100 leader_heavy tt = (Ok (Some op), tt) ∧
    ∃ source target : StoreInfo, op_steps op = [TransferLeader (si_id source) (si_id target)].
Proof.
  eexists. split; [vm_compute; reflexivity|].
  destruct leader_heavy_ok as (H1 & H2 & H3).
  destruct (balance_leader_sound at_zero 0 100 leader_heavy H1 H2 H3) as [_ H].
  destruct (H tt _ tt ltac:(vm_compute; reflexivity)) as (r & s & t & E & _).
  exists s, t. exact E.
Defined.

Lemma scale_schedule_exact_witness :
  ∃ op, scale_schedule at_zero 0 (ScaleScheduler_new 100) crowded tt = (Ok (Some op), tt) ∧
    ∃ region, op_region_id op = rgi_id region ∧ get_region (rgi_id region) crowded = Some region.
Proof.
  eexists. split; [vm_compute; reflexivity|].
  destruct (scale_schedule_exact at_zero 0 (ScaleScheduler_new 100) crowded crowded_cluster_ok crowded_stores_ok)
    as [_ H].
  destruct (H tt (Some _) tt ltac:(vm_compute; reflexivity)) as (r & Hr & _ & E & _).
  exists r. split; [exact E|exact Hr].
Defined.
End samples.
