(* ===== verification/StoreBalancer.v ===== *)
(** Choosing stores for a new region: src/raftstore/store_balancer.rs, which
    ranks the stores by a floating-point load score, and
    src/raftstore/region_allocator.rs, which takes the least loaded ones.

    An [f64] is a binary64 number of the standard library's [SpecFloat], whose
    operations round to nearest even as those of the hardware do.  A definition
    that reads the clock for each store takes [now], by the id of the store. *)

From S2P Require Import Prelude Bytes RaftTypes Proto Cluster.
From Stdlib Require Import SpecFloat.
Open Scope Z_scope.

(** ** f64 *)

Abbreviation f64 := spec_float.
Definition f64_prec : Z := 53.
Definition f64_emax : Z := 1024.
(** [z as f64] of an unsigned integer, [+], [*], [/] and [<]. *)
Definition f64_of (z : Z) : f64 := binary_normalize f64_prec f64_emax z 0 false.
Definition f64_add : f64 → f64 → f64 := SFadd f64_prec f64_emax.
Definition f64_mul : f64 → f64 → f64 := SFmul f64_prec f64_emax.
Definition f64_div : f64 → f64 → f64 := SFdiv f64_prec f64_emax.
Definition f64_lt : f64 → f64 → bool := SFltb.
(** The literals 0.000001 and 1.2: the nearest binary64 numbers. *)
Definition f64_millionth : f64 := S754_finite false 4722366482869645 (-72).
Definition f64_1_2 : f64 := S754_finite false 5404319552844595 (-52).

Lemma f64_millionth_nearest :
  f64_div (f64_of 1) (f64_of 1000000) = f64_millionth.
Proof. by vm_compute. Qed.
Lemma f64_1_2_nearest : f64_div (f64_of 12) (f64_of 10) = f64_1_2.
Proof. by vm_compute. Qed.

(** A number that is positive, zero or infinite. *)
Definition nonneg (x : f64) : Prop :=
  match x with
  | S754_zero false | S754_infinity false | S754_finite false _ _ => True
  | _ => False
  end.
Definition finite_pos (x : f64) : Prop := match x with S754_finite false _ _ => True | _ => False end.

Lemma shr_1_nonneg mrs : 0 ≤ shr_m mrs → 0 ≤ shr_m (shr_1 mrs).
Proof. destruct mrs as [[|[p|p|]|p] r s]; cbn; lia. Qed.

Lemma iter_shr_nonneg n mrs : 0 ≤ shr_m mrs → 0 ≤ shr_m (iter_pos shr_1 n mrs).
Proof. revert mrs. induction n; intros mrs H; cbn; auto using shr_1_nonneg. Qed.

Lemma shr_fexp_nonneg m e l : 0 ≤ m → 0 ≤ shr_m (shr_fexp f64_prec f64_emax m e l).1.
Proof.
  intros Hm. unfold shr_fexp, shr. assert (0 ≤ shr_m (shr_record_of_loc m l)) by (by destruct l as [|[]]).
  case_match; cbn; auto using iter_shr_nonneg.
Qed.

Lemma round_even_nonneg m l : 0 ≤ m → 0 ≤ round_nearest_even m l.
Proof. intros. unfold round_nearest_even. repeat case_match; lia. Qed.

Lemma round_aux_nonneg m e l : 0 ≤ m → nonneg (binary_round_aux f64_prec f64_emax false m e l).
Proof.
  intros Hm. unfold binary_round_aux. pose proof (shr_fexp_nonneg m e l Hm) as H1.
  destruct (shr_fexp _ _ m e l) as [mrs e1]. cbn [fst] in H1.
  pose proof (shr_fexp_nonneg (round_nearest_even (shr_m mrs) (loc_of_shr_record mrs)) e1 loc_Exact
    (round_even_nonneg _ _ H1)) as H2.
  destruct (shr_fexp _ _ (round_nearest_even _ _) _ _) as [mrs' e2]. cbn [fst] in H2.
  destruct (shr_m mrs'); [done| |lia]. by case_match.
Qed.

Lemma normalize_nonneg m e : 0 ≤ m → nonneg (binary_normalize f64_prec f64_emax m e false).
Proof.
  destruct m as [|p|p]; [done| |lia]. intros _. unfold binary_normalize, binary_round.
  destruct (shl_align _ _ _). by apply round_aux_nonneg.
Qed.

Lemma f64_of_nonneg z : 0 ≤ z → nonneg (f64_of z).
Proof. apply normalize_nonneg. Qed.

Lemma f64_add_nonneg x y : nonneg x → nonneg y → nonneg (f64_add x y).
Proof.
  destruct x as [[]|[]| |[] mx ex], y as [[]|[]| |[] my ey]; try done. intros _ _.
  unfold f64_add, SFadd. apply normalize_nonneg. cbn. lia.
Qed.

Lemma f64_mul_nonneg x y : nonneg x → finite_pos y → nonneg (f64_mul x y).
Proof.
  destruct x as [[]|[]| |[] mx ex], y as [[]|[]| |[] my ey]; try done. intros _ _.
  unfold f64_mul, SFmul. by apply round_aux_nonneg.
Qed.

(** The order of such numbers is total. *)
Lemma f64_lt_asym x y : nonneg x → nonneg y → f64_lt x y = true → f64_lt y x = false.
Proof.
  destruct x as [[]|[]| |[] mx ex], y as [[]|[]| |[] my ey]; try done. intros _ _.
  unfold f64_lt, SFltb. cbn. rewrite (Z.compare_antisym ex ey). destruct (ex ?= ey); cbn; try done.
  fold (Pos.compare mx my) (Pos.compare my mx). rewrite (Pos.compare_antisym mx my). by destruct (mx ?= my)%positive.
Qed.

Lemma f64_ge_trans x y z :
  nonneg x → nonneg y → nonneg z → f64_lt x y = false → f64_lt y z = false → f64_lt x z = false.
Proof.
  destruct x as [[]|[]| |[] mx ex], y as [[]|[]| |[] my ey], z as [[]|[]| |[] mz ez]; try done. intros _ _ _.
  unfold f64_lt, SFltb. cbn. fold (Pos.compare mx my) (Pos.compare my mz) (Pos.compare mx mz).
  destruct (Z.compare_spec ex ey), (Z.compare_spec ey ez), (Z.compare_spec ex ez); try done; try lia.
  destruct (Pos.compare_spec mx my), (Pos.compare_spec my mz), (Pos.compare_spec mx mz); try done; lia.
Qed.

(** ** src/raftstore/store_balancer.rs *)

Record StoreLoad := mkStoreLoad {
  sl_store_id : Z;
  sl_region_count : Z;
  sl_leader_count : Z;
  sl_region_size : Z;
  sl_leader_size : Z;
  sl_last_update : Z;
  sl_is_up : bool;
}.
Definition StoreLoad_new (now store_id : Z) : StoreLoad := mkStoreLoad store_id 0 0 0 0 now true.
(** [StoreLoad::update] *)
Definition load_update (now region_count leader_count region_size leader_size : Z) (l : StoreLoad) : StoreLoad :=
  mkStoreLoad (sl_store_id l) region_count leader_count region_size leader_size now (sl_is_up l).
(** [Duration::MAX]: a load from the future is as old as can be. *)
Definition duration_max : Z := u64_max * 10 ^ 9 + 999999999.
Definition is_stale (now max_age : Z) (l : StoreLoad) : bool :=
  max_age <? (if sl_last_update l <=? now then now - sl_last_update l else duration_max).
Definition load_score (l : StoreLoad) : f64 :=
  f64_add (f64_mul (f64_of (sl_region_count l)) (f64_of 1))
          (f64_mul (f64_of (sl_region_size l)) f64_millionth).

Record StoreBalancer := mkBalancer { sb_loads : gmap Z StoreLoad; sb_max_load_age : Z }.

Section balancer.
Context `{prof : BuildProfile} `{order : HashOrder}.

Definition StoreBalancer_new (max_load_age : Z) : StoreBalancer := mkBalancer ∅ max_load_age.
Definition set_loads (f : gmap Z StoreLoad → gmap Z StoreLoad) (b : StoreBalancer) : StoreBalancer :=
  mkBalancer (f (sb_loads b)) (sb_max_load_age b).
Definition update_store_load (now store_id region_count leader_count region_size leader_size : Z)
    (b : StoreBalancer) : StoreBalancer :=
  set_loads (λ m, <[store_id := load_update now region_count leader_count region_size leader_size
                       (default (StoreLoad_new now store_id) (m !! store_id))]> m) b.
Definition update_from_store_heartbeat (now : Z) (store : Store) (region_count leader_count : Z)
    (b : StoreBalancer) : StoreBalancer :=
  update_store_load now (st_id store) region_count leader_count 0 0 b.
Definition set_store_state (store_id : Z) (is_up : bool) (b : StoreBalancer) : StoreBalancer :=
  set_loads (alter (λ l, mkStoreLoad (sl_store_id l) (sl_region_count l) (sl_leader_count l)
    (sl_region_size l) (sl_leader_size l) (sl_last_update l) is_up) store_id) b.

(** [partial_cmp] of two scores, equal when one is not a number. *)
Definition lighter (a b : StoreLoad) : bool := f64_lt (load_score a) (load_score b).
Definition available (now : Z → Z) (b : StoreBalancer) (l : StoreLoad) : bool :=
  sl_is_up l && negb (is_stale (now (sl_store_id l)) (sb_max_load_age b) l).
Definition get_available_stores (now : Z → Z) (b : StoreBalancer) : list StoreLoad :=
  sort_by lighter (filter (λ l, available now b l = true) (hash_values (sb_loads b))).
Definition select_best_store (now : Z → Z) (b : StoreBalancer) : option Z :=
  sl_store_id <$> head (get_available_stores now b).
Definition select_stores (now : Z → Z) (n : nat) (b : StoreBalancer) : list Z :=
  sl_store_id <$> take n (get_available_stores now b).
Definition get_store_load (store_id : Z) (b : StoreBalancer) : option StoreLoad := sb_loads b !! store_id.

(** [stores.iter().map(f).sum()] on [usize]. *)
Definition usize_sum (l : list Z) : outcome Z := foldl (λ acc x, s ← acc; u64_add s x) (Ok 0) l.
Definition get_average_region_count (now : Z → Z) (b : StoreBalancer) : outcome f64 :=
  let stores := get_available_stores now b in
  match stores with
  | [] => Ok (f64_of 0)
  | _ :: _ =>
      total ← usize_sum (sl_region_count <$> stores);
      Ok (f64_div (f64_of total) (f64_of (Z.of_nat (length stores))))
  end.
(** The list of stores is read twice, at [now] and at [now']. *)
Definition needs_balance (now now' : Z → Z) (b : StoreBalancer) : outcome bool :=
  let stores := get_available_stores now b in
  match stores with
  | [] => Ok false
  | _ :: _ =>
      avg ← get_average_region_count now' b;
      if SFeqb avg (f64_of 0) then Ok false
      else
        let threshold := f64_mul avg f64_1_2 in
        Ok (existsb (λ s, f64_lt threshold (f64_of (sl_region_count s))) stores)
  end.
Definition cleanup_stale_loads (now : Z → Z) (b : StoreBalancer) : StoreBalancer :=
  set_loads (filter (λ e, is_stale (now e.1) (sb_max_load_age b) e.2 = false)) b.

(** ** src/raftstore/region_allocator.rs *)

Record RegionAllocator := mkAllocator { ra_balancer : StoreBalancer; ra_replication_factor : Z }.

Definition allocate_stores (now : Z → Z) (a : RegionAllocator) (region : Region) : outcome (list Z) :=
  let stores := select_stores now (Z.to_nat (ra_replication_factor a)) (ra_balancer a) in
  if Z.of_nat (length stores) <? ra_replication_factor a then Err "not enough available stores" else Ok stores.

Fixpoint number_peers (idx : Z) (store_ids : list Z) : outcome (list Peer) :=
  match store_ids with
  | [] => Ok []
  | store_id :: store_ids' =>
      base ← u64_mul store_id 10000;
      peer_id ← u64_add base idx;
      peers ← number_peers (idx + 1) store_ids';
      Ok (mkPeer peer_id store_id :: peers)
  end.
Definition allocate_peers (now : Z → Z) (a : RegionAllocator) (region : Region) (new_region_id : Z) :
    outcome (list Peer) :=
  store_ids ← allocate_stores now a region;
  number_peers 0 store_ids.
Definition select_single_store (now : Z → Z) (a : RegionAllocator) (exclude_stores : list Z) : option Z :=
  (λ e, sl_store_id e.2) <$> list_find (λ l, sl_store_id l ∉ exclude_stores)
                               (get_available_stores now (ra_balancer a)).

(** ** The least loaded stores are chosen *)

(** Loads are kept under the id of their store and hold no negative number. *)
Record balancer_ok (b : StoreBalancer) : Prop := {
  bal_ids : ∀ id l, sb_loads b !! id = Some l → sl_store_id l = id;
  bal_loads : ∀ id l, sb_loads b !! id = Some l → 0 ≤ sl_region_count l ∧ 0 ≤ sl_region_size l;
}.

Lemma load_score_nonneg l : 0 ≤ sl_region_count l → 0 ≤ sl_region_size l → nonneg (load_score l).
Proof.
  intros. unfold load_score. apply f64_add_nonneg; apply f64_mul_nonneg; try done; by apply f64_of_nonneg.
Qed.

Definition is_available (now : Z → Z) (b : StoreBalancer) (l : StoreLoad) : Prop :=
  get_store_load (sl_store_id l) b = Some l ∧ available now b l = true.

Lemma elem_of_available now b l :
  balancer_ok b → l ∈ get_available_stores now b ↔ is_available now b l.
Proof.
  intros [Hid _]. unfold get_available_stores. rewrite sort_by_perm, list_elem_of_filter.
  unfold is_available, get_store_load, hash_values. rewrite list_elem_of_fmap. split.
  - intros (Ha & [id l'] & -> & H%elem_of_hash_iter). cbn in *. by rewrite (Hid _ _ H).
  - intros [H Ha]. split; [done|]. exists (sl_store_id l, l). by rewrite elem_of_hash_iter.
Qed.

Lemma available_sorted now b :
  balancer_ok b → StronglySorted (λ x y, lighter y x = false) (get_available_stores now b).
Proof.
  intros Hok. apply sort_by_sorted with (P := λ l, nonneg (load_score l)).
  - intros x y. apply f64_lt_asym.
  - intros x y z. apply f64_ge_trans.
  - apply Forall_forall. intros l Hl. assert (l ∈ get_available_stores now b) as Hl'
      by (unfold get_available_stores; by rewrite sort_by_perm).
    apply elem_of_available in Hl' as [Hl' _]; [|done].
    destruct (bal_loads b Hok _ _ Hl'). by apply load_score_nonneg.
Qed.

Lemma available_nodup now b : balancer_ok b → NoDup (sl_store_id <$> get_available_stores now b).
Proof.
  intros Hok. unfold get_available_stores. rewrite sort_by_perm.
  assert (NoDup (sl_store_id <$> hash_values (sb_loads b))) as Hn.
  { unfold hash_values. replace (sl_store_id <$> (hash_iter (sb_loads b)).*2) with ((hash_iter (sb_loads b)).*1).
    - apply NoDup_hash_keys.
    - rewrite <- list_fmap_compose. apply list_fmap_ext. intros i [id l] H%list_elem_of_lookup_2.
      apply elem_of_hash_iter in H. cbn. by rewrite (bal_ids b Hok _ _ H). }
  eapply sublist_NoDup; [exact Hn|]. apply fmap_sublist, sublist_filter.
Qed.

(** The [n] stores selected are different available stores, as many as asked
    for if there are so many, in the order of their scores, and no store left
    out is lighter than one of them. *)
Theorem select_stores_exact (now : Z → Z) (n : nat) (b : StoreBalancer) :
  balancer_ok b →
  let chosen := select_stores now n b in
  NoDup chosen ∧ length chosen = Nat.min n (length (get_available_stores now b)) ∧
  (∀ s, s ∈ chosen → ∃ l, sl_store_id l = s ∧ is_available now b l ∧
     ∀ l', is_available now b l' → sl_store_id l' ∉ chosen → lighter l' l = false) ∧
  (∀ i j s t l l', (i < j)%nat → chosen !! i = Some s → chosen !! j = Some t →
     get_store_load s b = Some l → get_store_load t b = Some l' → lighter l' l = false).
Proof.
  intros Hok chosen. subst chosen. unfold select_stores.
  pose proof (available_nodup now b Hok) as Hn. pose proof (available_sorted now b Hok) as Hs.
  pose proof (λ l, elem_of_available now b l Hok) as Hav. set (l := get_available_stores now b) in *. clearbody l.
  rewrite <- (take_drop n l) in Hn, Hs. rewrite fmap_app in Hn.
  apply NoDup_app in Hn as (Hn & _ & _). apply StronglySorted_app in Hs as (Hcross & Hs & _).
  split_and!; [done|by rewrite length_fmap, length_take| |].
  - intros s (x & -> & Hx)%list_elem_of_fmap. exists x. split; [done|].
    assert (x ∈ l) as Hxl by (rewrite <- (take_drop n l); apply elem_of_app; by left).
    split; [by apply Hav|]. intros y Hy%Hav Hout. apply Hcross; [done|].
    rewrite <- (take_drop n l) in Hy. apply elem_of_app in Hy as [Hy|Hy]; [|done].
    destruct Hout. by apply list_elem_of_fmap_2.
  - intros i j s t x y Hij Hi Hj Hx Hy.
    rewrite list_lookup_fmap in Hi, Hj. apply fmap_Some in Hi as (x' & Hi & ->), Hj as (y' & Hj & ->).
    assert (∀ k z, take n l !! k = Some z → get_store_load (sl_store_id z) b = Some z) as Hg.
    { intros k z Hz%list_elem_of_lookup_2. apply Hav. rewrite <- (take_drop n l). apply elem_of_app. by left. }
    rewrite (Hg _ _ Hi) in Hx. rewrite (Hg _ _ Hj) in Hy. injection Hx as <-. injection Hy as <-.
    revert Hs i j Hij Hi Hj. generalize (take n l). clear. intros l Hs.
    induction Hs as [|z l Hs IH Hz]; intros [|i] [|j] Hij Hi Hj; try done; try lia.
    + injection Hi as ->. rewrite Forall_forall in Hz. apply Hz. eapply list_elem_of_lookup_2. exact Hj.
    + apply (IH i j); [lia|done|done].
Qed.

Lemma number_peers_run idx l :
  0 ≤ idx → (∀ s, s ∈ l → 0 ≤ s ∧ s * 10000 + idx + Z.of_nat (length l) ≤ u64_max) →
  number_peers idx l = Ok (imap (λ i s, mkPeer (s * 10000 + idx + Z.of_nat i) s) l).
Proof.
  revert idx. induction l as [|s l IH]; intros idx Hi Hl; [done|].
  destruct (Hl s (list_elem_of_here _ _)) as [H0 H1]. cbn [length] in H1. cbn. unfold u64_mul.
  rewrite u64_norm_ok by (unfold is_u64; lia). cbn. rewrite u64_add_ok by (unfold is_u64; lia). cbn.
  rewrite IH; [|lia|].
  - cbn. f_equal. f_equal; [f_equal; lia|]. apply imap_ext. intros i t _. cbn. f_equal. lia.
  - intros t Ht. destruct (Hl t) as [? Hb]; [by right|]. cbn [length] in Hb. lia.
Qed.

(** The peers of a new region: one on each of as many least loaded stores as
    the replication factor asks for, or an error when so many are not
    available.  Their ids differ from each other, when there are at most 10000
    of them, but depend on nothing else: every region allocated from
    the same loads gets the same peer ids. *)
Theorem allocate_peers_exact (now : Z → Z) (a : RegionAllocator) (region : Region) (new_region_id : Z) :
  balancer_ok (ra_balancer a) → 0 ≤ ra_replication_factor a ≤ 10000 →
  let stores := select_stores now (Z.to_nat (ra_replication_factor a)) (ra_balancer a) in
  (∀ s, s ∈ stores → 0 ≤ s ∧ s * 10000 + 10000 ≤ u64_max) →
  (Z.of_nat (length (get_available_stores now (ra_balancer a))) < ra_replication_factor a →
     allocate_peers now a region new_region_id = Err "not enough available stores") ∧
  (ra_replication_factor a ≤ Z.of_nat (length (get_available_stores now (ra_balancer a))) →
     ∃ peers, allocate_peers now a region new_region_id = Ok peers ∧
       pr_store_id <$> peers = stores ∧ Z.of_nat (length peers) = ra_replication_factor a ∧
       NoDup (pr_id <$> peers)) ∧
  ∀ region' id', allocate_peers now a region' id' = allocate_peers now a region new_region_id.
Proof.
  intros Hok Hrf stores Hs.
  destruct (select_stores_exact now (Z.to_nat (ra_replication_factor a)) (ra_balancer a) Hok) as (Hn & Hlen & _).
  fold stores in Hn, Hlen. unfold allocate_peers, allocate_stores. fold stores. split_and!; [| |done].
  - intros H. destruct (Z.ltb_spec (Z.of_nat (length stores)) (ra_replication_factor a)); [done|lia].
  - intros H. destruct (Z.ltb_spec (Z.of_nat (length stores)) (ra_replication_factor a)); [lia|]. cbn.
    rewrite number_peers_run; [|lia|intros s Hin; specialize (Hs s Hin); lia].
    eexists. split; [done|]. split_and!.
    + rewrite fmap_imap. apply list_eq. intros i. rewrite list_lookup_imap. by destruct (stores !! i).
    + rewrite length_imap. lia.
    + rewrite fmap_imap. apply NoDup_alt. intros i j x. rewrite !list_lookup_imap.
      intros (s & Hi & ->)%fmap_Some (t & Hj & Heq)%fmap_Some. cbn in Heq.
      pose proof (lookup_lt_Some _ _ _ Hi). pose proof (lookup_lt_Some _ _ _ Hj).
      assert (s = t) as -> by lia. eapply NoDup_lookup; [exact Hn|done..].
Qed.
End balancer.

(** ** Samples *)

Section samples.
#[local] Existing Instance map_order.
#[local] Instance checked : BuildProfile := true.

(** Three stores, the second the lightest: its regions are few but large. *)
Definition sample_balancer : StoreBalancer :=
  foldl (λ b '(id, regions, bytes), update_store_load 0 id regions 0 bytes 0 b) (StoreBalancer_new (10 ^ 9))
    [(1, 9, 1000000); (2, 3, 2000000); (3, 4, 3000000)].

Lemma sample_balancer_ok : balancer_ok sample_balancer.
Proof.
  split.
  - refine (bool_decide_unpack (map_Forall (λ id l, sl_store_id l = id) (sb_loads sample_balancer)) _). by vm_compute.
  - refine (bool_decide_unpack (map_Forall (λ _ l, 0 ≤ sl_region_count l ∧ 0 ≤ sl_region_size l)
      (sb_loads sample_balancer)) _). by vm_compute.
Qed.

Lemma select_stores_exact_witness : NoDup [2; 3] ∧ select_stores (λ _, 5) 2 sample_balancer = [2; 3].
Proof.
  split; [|by vm_compute]. change [2; 3] with (id [2; 3]).
  assert (select_stores (λ _, 5) 2 sample_balancer = [2; 3]) as <- by (by vm_compute).
  apply (select_stores_exact (λ _, 5) 2 sample_balancer sample_balancer_ok).
Defined.

Lemma allocate_peers_exact_witness :
  ∃ peers, allocate_peers (λ _, 5) (mkAllocator sample_balancer 3) (mkRegion 7 [] [] None []) 8 = Ok peers ∧
    NoDup (pr_id <$> peers).
Proof.
  destruct (allocate_peers_exact (λ _, 5) (mkAllocator sample_balancer 3) (mkRegion 7 [] [] None []) 8
    sample_balancer_ok ltac:(cbn; lia)) as (_ & H & _).
  - apply Forall_forall. refine (bool_decide_unpack (Forall (λ s, 0 ≤ s ∧ s * 10000 + 10000 ≤ u64_max) _) _).
    by vm_compute.
  - destruct H as (peers & E & _ & _ & Hn); [by vm_compute|]. exists peers. split; [exact E|exact Hn].
Defined.
End samples.
