(* ===== verification/StoreMeta.v ===== *)
(** The regions of a store: src/raftstore/store_meta.rs, which finds the region
    of a key, with the range checks of src/raftstore/util.rs, and
    src/raftstore/admin.rs, which splits a region (src/proto/raft_cmdpb.rs holds
    the requests).

    The abstract view of a [StoreMeta] is the set of its regions; a key belongs
    to the one region whose range holds it. *)

From S2P Require Import Prelude Bytes RaftTypes Engine Proto Cluster StoreBalancer.

(** ** src/raftstore/util.rs, and the private copy in store_meta.rs *)

Definition key_in_region (key : bytes) (region : Region) : bool :=
  let start_key := rg_start_key region in
  let end_key := rg_end_key region in
  if negb (bool_decide (start_key = [])) && bytes_ltb key start_key then false
  else if negb (bool_decide (end_key = [])) && exceed_end_key key end_key then false
  else true.
Definition find_peer (region : Region) (store_id : Z) : option Peer :=
  snd <$> list_find (λ p, pr_store_id p = store_id) (rg_peers region).
(** [is_epoch_stale] of src/raftstore/util.rs: unlike the one of
    src/server/epoch.rs, versions go before configuration versions. *)
Definition util_is_epoch_stale (epoch other : RegionEpoch) : bool :=
  (re_version epoch <? re_version other)
  || ((re_version epoch =? re_version other) && (re_conf_ver epoch <? re_conf_ver other)).

(** ** src/raftstore/store_meta.rs *)

(** A read of [regions] goes in the order of the ids, as a [BTreeMap] does. *)
Record StoreMeta := mkStoreMeta {
  sm_regions : gmap Z Region;
  sm_region_ranges : list (bytes * Z);
}.
Definition StoreMeta_new : StoreMeta := mkStoreMeta ∅ [].

Definition start_less (a b : bytes * Z) : bool := bytes_ltb a.1 b.1.
Definition set_region (region : Region) (m : StoreMeta) : StoreMeta :=
  let ranges := filter (λ e, e.2 ≠ rg_id region) (sm_region_ranges m) in
  mkStoreMeta (<[rg_id region := region]> (sm_regions m))
    (sort_by start_less (ranges ++ [(rg_start_key region, rg_id region)])).
Definition sm_get_region (region_id : Z) (m : StoreMeta) : option Region := sm_regions m !! region_id.
Definition remove_region (region_id : Z) (m : StoreMeta) : StoreMeta :=
  mkStoreMeta (delete region_id (sm_regions m)) (filter (λ e, e.2 ≠ region_id) (sm_region_ranges m)).
Definition find_region_by_key (key : bytes) (m : StoreMeta) : option Region :=
  match list_find (λ e, bytes_leb e.1 key = true) (reverse (sm_region_ranges m)) with
  | Some (_, (_, region_id)) =>
      match sm_regions m !! region_id with
      | Some region => if key_in_region key region then Some region else None
      | None => None
      end
  | None => None
  end.
Definition id_le (a b : Z * Region) : Prop := a.1 ≤ b.1.
#[export] Instance id_le_dec : RelDecision id_le.
Proof. intros a b. unfold id_le. apply _. Defined.
Definition get_all_regions (m : StoreMeta) : list Region :=
  (merge_sort id_le (map_to_list (sm_regions m))).*2.

Definition regions_overlap (r1 r2 : Region) : bool :=
  if key_in_region (rg_start_key r1) r2 then true
  else if key_in_region (rg_start_key r2) r1 then true
  else false.
Definition get_overlap_regions (region : Region) (m : StoreMeta) : list Region :=
  filter (λ r, regions_overlap region r = true)
    (omap (λ e, sm_regions m !! e.2) (sm_region_ranges m)).

(** ** src/proto/raft_cmdpb.rs *)

Inductive AdminCmdType := InvalidAdmin | AdminChangePeer | AdminCompactLog | AdminTransferLeader | AdminSplit.
Definition AdminCmdType_as_i32 (t : AdminCmdType) : Z :=
  match t with
  | InvalidAdmin => 0 | AdminChangePeer => 1 | AdminCompactLog => 3 | AdminTransferLeader => 4 | AdminSplit => 10
  end.
(** [AdminCmdType::from] of src/raftstore/admin.rs. *)
Definition AdminCmdType_from (value : Z) : AdminCmdType :=
  if value =? 1 then AdminChangePeer else if value =? 3 then AdminCompactLog
  else if value =? 4 then AdminTransferLeader else if value =? 10 then AdminSplit else InvalidAdmin.

Record ChangePeerRequest := mkChangePeerRequest { cpq_change_type : Z; cpq_peer : option Peer }.
Record CompactLogRequest := mkCompactLogRequest { clq_compact_index : Z; clq_compact_term : Z }.
Record TransferLeaderRequest := mkTransferLeaderRequest { tlq_peer : option Peer }.
Record SplitRequest := mkSplitRequest {
  sq_split_key : bytes; sq_new_region_id : Z; sq_new_peer_ids : list Z }.
Record AdminRequest := mkAdminRequest {
  aq_cmd_type : Z;
  aq_change_peer : option ChangePeerRequest;
  aq_compact_log : option CompactLogRequest;
  aq_transfer_leader : option TransferLeaderRequest;
  aq_split : option SplitRequest;
}.
Record SplitResponse := mkSplitResponse { sr_regions : list Region }.
(** The responses to the other commands are always absent. *)
Record AdminResponse := mkAdminResponse { ar_cmd_type : Z; ar_split : option SplitResponse }.

(** ** src/raftstore/admin.rs *)

(** The store meta is shared; it is the state of the methods. *)
Record AdminHandler := mkAdminHandler { ah_region_allocator : RegionAllocator; ah_store_id : Z }.

Section admin.
Context `{prof : BuildProfile} `{order : HashOrder}.

Definition is_key_in_range (key : bytes) (region : Region) : bool :=
  if negb (bool_decide (rg_start_key region = [])) && bytes_ltb key (rg_start_key region) then false
  else if negb (bool_decide (rg_end_key region = [])) && bytes_leb (rg_end_key region) key then false
  else true.

Definition create_new_region (now : Z → Z) (h : AdminHandler) (old_region : Region) (request : SplitRequest) :
    outcome Region :=
  peers ← match sq_new_peer_ids request with
          | _ :: _ => Ok ((λ peer_id, mkPeer peer_id (ah_store_id h)) <$> sq_new_peer_ids request)
          | [] => allocate_peers now (ah_region_allocator h) old_region (sq_new_region_id request)
          end;
  version ← u64_add (re_version (region_epoch_or_default old_region)) 1;
  conf_ver ← u64_add (re_conf_ver (region_epoch_or_default old_region)) 1;
  Ok (mkRegion (sq_new_region_id request) (sq_split_key request) (rg_end_key old_region)
        (Some (mkRegionEpoch conf_ver version)) peers).

Definition update_region_range (region : Region) (split_key : bytes) : outcome Region :=
  version ← u64_add (re_version (region_epoch_or_default region)) 1;
  Ok (mkRegion (rg_id region) (rg_start_key region) split_key
        (Some (mkRegionEpoch (re_conf_ver (region_epoch_or_default region)) version)) (rg_peers region)).

Definition execute_split (now : Z → Z) (h : AdminHandler) (region : Region) (request : SplitRequest) :
    M StoreMeta AdminResponse :=
  if bool_decide (sq_split_key request = []) then raise "split key is empty"
  else if negb (is_key_in_range (sq_split_key request) region) then raise "split key is not in region range"
  else
    new_region ← lift (create_new_region now h region request);
    updated_region ← lift (update_region_range region (sq_split_key request));
    modify (set_region updated_region);;
    modify (set_region new_region);;
    mret (mkAdminResponse (AdminCmdType_as_i32 AdminSplit) (Some (mkSplitResponse [updated_region; new_region]))).

Definition execute (now : Z → Z) (h : AdminHandler) (region : Region) (request : AdminRequest) :
    M StoreMeta AdminResponse :=
  match AdminCmdType_from (aq_cmd_type request) with
  | AdminSplit =>
      match aq_split request with
      | Some split_req => execute_split now h region split_req
      | None => raise "split request is missing"
      end
  | AdminChangePeer => raise "ChangePeer not implemented"
  | AdminTransferLeader => raise "TransferLeader not implemented"
  | AdminCompactLog => raise "CompactLog not implemented"
  | InvalidAdmin => raise "invalid admin command"
  end.
End admin.

(** ** Ranges *)

(** The range of a region holds [key]; an empty end key is no bound. *)
Definition holds (region : Region) (key : bytes) : Prop :=
  bytes_leb (rg_start_key region) key = true ∧
  (rg_end_key region = [] ∨ bytes_lt key (rg_end_key region)).

Lemma bytes_leb_nil b : bytes_leb [] b = true.
Proof. by destruct b. Qed.
Lemma bytes_leb_false a b : bytes_leb a b = false ↔ bytes_lt b a.
Proof.
  rewrite <- bytes_ltb_lt. destruct (bytes_ltb b a) eqn:E.
  - apply bytes_ltb_lt in E. split; [done|]. intros _. unfold bytes_leb, bytes_lt in *.
    rewrite (bytes_cmp_antisym b a). by rewrite E.
  - apply bytes_ltb_ge in E. by rewrite E.
Qed.

Lemma key_in_region_spec key r : key_in_region key r = true ↔ holds r key.
Proof.
  unfold key_in_region, holds, exceed_end_key.
  assert (negb (bool_decide (rg_start_key r = [])) && bytes_ltb key (rg_start_key r) = false ↔
    bytes_leb (rg_start_key r) key = true) as Hs.
  { destruct (rg_start_key r) as [|b s]; [cbn; by rewrite bytes_leb_nil|].
    rewrite bool_decide_eq_false_2 by done. cbn [negb andb]. apply bytes_ltb_ge. }
  destruct (negb _ && bytes_ltb _ _); [split; [done|intros [H _]; by apply Hs in H]|].
  assert (bytes_leb (rg_start_key r) key = true) as -> by (by apply Hs).
  destruct (rg_end_key r) as [|b e]; [cbn; tauto|].
  rewrite bool_decide_eq_false_2 by done. cbn [negb andb].
  rewrite <- bytes_leb_false. destruct (bytes_leb (b :: e) key); naive_solver.
Qed.

Lemma is_key_in_range_spec key r : is_key_in_range key r = key_in_region key r.
Proof. unfold is_key_in_range, key_in_region, exceed_end_key. by destruct (rg_end_key r). Qed.

(** ** Finding the region of a key *)

Record meta_ok (m : StoreMeta) : Prop := {
  mo_ids : ∀ id r, sm_regions m !! id = Some r → rg_id r = id;
  mo_ranges : ∀ s id, (s, id) ∈ sm_region_ranges m ↔ ∃ r, sm_regions m !! id = Some r ∧ rg_start_key r = s;
  mo_sorted : StronglySorted (λ x y, start_less y x = false) (sm_region_ranges m);
}.

(** The ranges of the regions are not empty and do not meet. *)
Record ranges_ok (m : StoreMeta) : Prop := {
  rok_nonempty : ∀ id r, sm_regions m !! id = Some r → holds r (rg_start_key r);
  rok_disjoint : ∀ id1 id2 r1 r2 key,
    sm_regions m !! id1 = Some r1 → sm_regions m !! id2 = Some r2 →
    holds r1 key → holds r2 key → id1 = id2;
}.

Lemma bytes_leb_trans a b c : bytes_leb a b = true → bytes_leb b c = true → bytes_leb a c = true.
Proof.
  rewrite !bytes_leb_lt_or_eq. intros [H1|<-] [H2|<-]; auto. left. by eapply bytes_lt_trans.
Qed.
Lemma bytes_leb_lt_trans a b c : bytes_leb a b = true → bytes_lt b c → bytes_lt a c.
Proof. rewrite bytes_leb_lt_or_eq. intros [H1|<-] H2; [|done]. by eapply bytes_lt_trans. Qed.
Lemma bytes_leb_refl a : bytes_leb a a = true.
Proof. apply bytes_leb_lt_or_eq. by right. Qed.
Lemma start_less_false (x y : bytes * Z) : start_less x y = false ↔ bytes_leb y.1 x.1 = true.
Proof. apply bytes_ltb_ge. Qed.

Lemma set_region_ok r m : meta_ok m → meta_ok (set_region r m).
Proof.
  intros [Hid Hr Hs]. split.
  - cbn. intros id r' [(<- & <-)|[_ H]]%lookup_insert_Some; auto.
  - intros s id. cbn. rewrite sort_by_perm, elem_of_app, list_elem_of_filter, Hr, list_elem_of_singleton.
    cbn. destruct (decide (id = rg_id r)) as [->|Hne].
    + rewrite lookup_insert_eq. naive_solver.
    + rewrite lookup_insert_ne by done. naive_solver.
  - cbn. apply sort_by_sorted with (P := λ _, True); [| |by apply Forall_true].
    + intros x y _ _. rewrite start_less_false. unfold start_less. rewrite bytes_ltb_lt, bytes_leb_lt_or_eq. auto.
    + intros x y z _ _ _. rewrite !start_less_false. intros H1 H2. by eapply bytes_leb_trans.
Qed.

Lemma remove_region_ok id m : meta_ok m → meta_ok (remove_region id m).
Proof.
  intros [Hid Hr Hs]. split; cbn.
  - intros id' r [_ H]%lookup_delete_Some. auto.
  - intros s id'. rewrite list_elem_of_filter, Hr. cbn. setoid_rewrite lookup_delete_Some. naive_solver.
  - clear -Hs. induction Hs as [|x l Hl IH Hx]; [constructor|]. rewrite filter_cons. case_decide; [|done].
    constructor; [done|]. apply Forall_forall. intros y [_ Hy]%list_elem_of_filter.
    rewrite Forall_forall in Hx. by apply Hx.
Qed.

(** The entry the reverse search stops at has the last start key that is not
    after the key. *)
Lemma last_start m key :
  meta_ok m →
  match list_find (λ e, bytes_leb e.1 key = true) (reverse (sm_region_ranges m)) with
  | Some (_, (s, id)) => bytes_leb s key = true ∧
      (∃ r, sm_regions m !! id = Some r ∧ rg_start_key r = s) ∧
      ∀ id' r', sm_regions m !! id' = Some r' → bytes_leb (rg_start_key r') key = true →
        bytes_leb (rg_start_key r') s = true
  | None => ∀ id' r', sm_regions m !! id' = Some r' → bytes_leb (rg_start_key r') key = false
  end.
Proof.
  intros [Hid Hr Hs]. destruct (list_find _ _) as [[i [s id]]|] eqn:E.
  - apply list_find_Some in E as (Hi & Hle & Hbefore). split; [done|]. split.
    { apply Hr. rewrite <- elem_of_reverse. by eapply list_elem_of_lookup_2. }
    intros id' r' Hr' Hle'. assert ((rg_start_key r', id') ∈ reverse (sm_region_ranges m)) as Hin
      by (rewrite elem_of_reverse; apply Hr; eauto).
    apply list_elem_of_lookup in Hin as [j Hj]. destruct (Nat.lt_trichotomy j i) as [Hlt|[->|Hlt]].
    + exfalso. by eapply (Hbefore j).
    + rewrite Hi in Hj. injection Hj as <- <-. apply bytes_leb_refl.
    + apply StronglySorted_reverse in Hs.
      assert (flip (λ x y, start_less y x = false) (s, id) (rg_start_key r', id')) as H; [|by apply start_less_false in H].
      clear Hbefore. revert Hs i j Hlt Hi Hj. generalize (reverse (sm_region_ranges m)). clear. intros l Hs.
      induction Hs as [|z l Hs IH Hz]; intros [|i] [|j] Hlt Hi Hj; try done; try lia.
      * injection Hi as ->. rewrite Forall_forall in Hz. apply Hz. eapply list_elem_of_lookup_2. exact Hj.
      * apply (IH i j); [lia|done|done].
  - apply list_find_None in E. intros id' r' Hr'. apply not_true_is_false. intros Hle.
    rewrite Forall_forall in E. apply (E (rg_start_key r', id')); [|done].
    rewrite elem_of_reverse. apply Hr. eauto.
Qed.

Lemma find_region_run m key r :
  meta_ok m → ranges_ok m →
  find_region_by_key key m = Some r ↔ sm_get_region (rg_id r) m = Some r ∧ holds r key.
Proof.
  intros Hok [Hne Hdis]. pose proof (last_start m key Hok) as Hlast. unfold find_region_by_key, sm_get_region.
  destruct (list_find _ _) as [[i [s id]]|].
  - destruct Hlast as (Hle & (r' & Hr' & <-) & Hmax). rewrite Hr'. split.
    + destruct (key_in_region key r') eqn:E; [|done]. intros [= <-].
      rewrite (mo_ids m Hok _ _ Hr'). split; [done|]. by apply key_in_region_spec.
    + intros [Hr [Hstart Hend]]. assert (id = rg_id r) as ->.
      { apply (Hdis _ _ r' r (rg_start_key r')); [done|done|by eapply Hne|].
        split; [by eapply Hmax|]. destruct Hend as [|Hend]; [by left|right]. by eapply bytes_leb_lt_trans. }
      rewrite Hr in Hr'. injection Hr' as ->. assert (key_in_region key r' = true) as ->; [|done].
      by apply key_in_region_spec.
  - split; [done|]. intros [Hr [Hstart _]]. by rewrite (Hlast _ _ Hr) in Hstart.
Qed.

(** C36: While the ranges are not empty and do not meet, the lookup finds the region
    whose range holds the key, and finds nothing when there is none.  Setting
    and removing regions keep the list of start keys in step with the regions;
    the regions that overlap a given one are those with a key in common with
    it. *)
Theorem find_region_by_key_exact (m : StoreMeta) (key : bytes) (r : Region) (id : Z) :
  meta_ok m → ranges_ok m →
  (find_region_by_key key m = Some r ↔ sm_get_region (rg_id r) m = Some r ∧ holds r key) ∧
  meta_ok (set_region r m) ∧ meta_ok (remove_region id m) ∧
  (holds r (rg_start_key r) → ∀ r', r' ∈ get_overlap_regions r m ↔
     sm_get_region (rg_id r') m = Some r' ∧ ∃ k, holds r k ∧ holds r' k).
Proof.
  intros Hok Hr. split_and!; [by apply find_region_run|by apply set_region_ok|by apply remove_region_ok|].
  intros Hne r'. unfold get_overlap_regions, sm_get_region. rewrite list_elem_of_filter, list_elem_of_omap.
  assert (Hov : holds r' (rg_start_key r') → regions_overlap r r' = true ↔ ∃ k, holds r k ∧ holds r' k).
  { intros Hne'. unfold regions_overlap. pose proof (key_in_region_spec (rg_start_key r) r') as E1.
    pose proof (key_in_region_spec (rg_start_key r') r) as E2. split.
    - destruct (key_in_region (rg_start_key r) r'); [exists (rg_start_key r); naive_solver|].
      destruct (key_in_region (rg_start_key r') r); [exists (rg_start_key r'); naive_solver|done].
    - intros (k & [Hs He] & [Hs' He']).
      destruct (bytes_leb (rg_start_key r) (rg_start_key r')) eqn:Hc.
      + assert (key_in_region (rg_start_key r') r = true) as ->; [|by case_match].
        apply E2. split; [done|]. destruct He as [|He]; [by left|right]. by eapply bytes_leb_lt_trans.
      + assert (key_in_region (rg_start_key r) r' = true) as ->; [|done]. apply bytes_leb_false in Hc.
        apply E1. split; [apply bytes_leb_lt_or_eq; by left|].
        destruct He' as [|He']; [by left|right]. by eapply bytes_leb_lt_trans. }
  split.
  - intros (Hk & [s id'] & He & Hg). cbn in Hg. rewrite (mo_ids m Hok _ _ Hg). split; [done|].
    apply Hov; [by eapply rok_nonempty|done].
  - intros (Hg & Hk). split; [apply Hov; [by eapply rok_nonempty|done]|].
    exists (rg_start_key r', rg_id r'). split; [|done]. apply (mo_ranges m Hok). eauto.
Qed.

(** ** Splitting *)

Section split.
Context `{prof : BuildProfile} `{order : HashOrder}.

Definition epoch_plus (r : Region) (conf_ver version : Z) : option RegionEpoch :=
  Some (mkRegionEpoch (re_conf_ver (region_epoch_or_default r) + conf_ver)
                      (re_version (region_epoch_or_default r) + version)).
Definition lower_half (region : Region) (split_key : bytes) : Region :=
  mkRegion (rg_id region) (rg_start_key region) split_key (epoch_plus region 0 1) (rg_peers region).
Definition upper_half (region : Region) (request : SplitRequest) (peers : list Peer) : Region :=
  mkRegion (sq_new_region_id request) (sq_split_key request) (rg_end_key region) (epoch_plus region 1 1) peers.

(** The peers the new region gets. *)
Definition new_peers (now : Z → Z) (h : AdminHandler) (region : Region) (request : SplitRequest) :
    outcome (list Peer) :=
  match sq_new_peer_ids request with
  | _ :: _ => Ok ((λ peer_id, mkPeer peer_id (ah_store_id h)) <$> sq_new_peer_ids request)
  | [] => allocate_peers now (ah_region_allocator h) region (sq_new_region_id request)
  end.

Definition epoch_room (r : Region) : Prop :=
  is_u64 (re_conf_ver (region_epoch_or_default r)) ∧ re_conf_ver (region_epoch_or_default r) < u64_max ∧
  is_u64 (re_version (region_epoch_or_default r)) ∧ re_version (region_epoch_or_default r) < u64_max.

Lemma execute_split_run now h region request m peers :
  epoch_room region → new_peers now h region request = Ok peers →
  sq_split_key request ≠ [] → holds region (sq_split_key request) →
  let lower := lower_half region (sq_split_key request) in
  let upper := upper_half region request peers in
  execute_split now h region request m =
    (Ok (mkAdminResponse 10 (Some (mkSplitResponse [lower; upper]))), set_region upper (set_region lower m)).
Proof.
  intros (Hc1 & Hc2 & Hv1 & Hv2) Hp Hk Hh lower upper. unfold execute_split.
  rewrite bool_decide_eq_false_2 by done. rewrite is_key_in_range_spec.
  apply key_in_region_spec in Hh. rewrite Hh. cbn [negb].
  assert (create_new_region now h region request = Ok upper) as E1.
  { unfold create_new_region, new_peers in *. rewrite Hp. cbn.
    rewrite !u64_add_ok by (unfold is_u64 in *; lia). done. }
  assert (update_region_range region (sq_split_key request) = Ok lower) as E2.
  { unfold update_region_range. rewrite u64_add_ok by (unfold is_u64 in *; lia). cbn.
    unfold lower, lower_half, epoch_plus. by rewrite Z.add_0_r. }
  rewrite E1, E2. done.
Qed.

(** What the two halves hold together is what the region held. *)
Lemma halves_hold region request peers key :
  holds region (sq_split_key request) → bytes_leb (rg_start_key region) (sq_split_key request) = true →
  sq_split_key request ≠ [] →
  (holds (lower_half region (sq_split_key request)) key ↔ holds region key ∧ bytes_lt key (sq_split_key request)) ∧
  (holds (upper_half region request peers) key ↔ holds region key ∧ bytes_leb (sq_split_key request) key = true).
Proof.
  intros [Hs He] _ Hne. unfold holds. cbn. split; split.
  - intros [Hl [?|Hlt]]; [done|]. split; [|done]. split; [done|].
    destruct He as [|He]; [by left|right]. by eapply bytes_lt_trans.
  - naive_solver.
  - intros [Hl He']. split; [|done]. split; [by eapply bytes_leb_trans|done].
  - naive_solver.
Qed.

(** C35: A split of a stored region at a key of it, above its start key, with a new
    id, keeps the ranges apart and no key without a region: a key of the old
    region is found in the new one from the split key on and in the old one
    below it, and every other key where it was.  Both halves get the next
    version. *)
Theorem execute_split_correct (now : Z → Z) (h : AdminHandler) (region : Region) (request : SplitRequest)
    (m : StoreMeta) (peers : list Peer) :
  meta_ok m → ranges_ok m → sm_get_region (rg_id region) m = Some region →
  sm_get_region (sq_new_region_id request) m = None →
  epoch_room region → new_peers now h region request = Ok peers →
  holds region (sq_split_key request) → bytes_lt (rg_start_key region) (sq_split_key request) →
  let lower := lower_half region (sq_split_key request) in
  let upper := upper_half region request peers in
  ∃ m', execute_split now h region request m =
      (Ok (mkAdminResponse 10 (Some (mkSplitResponse [lower; upper]))), m') ∧
    meta_ok m' ∧ ranges_ok m' ∧
    ∀ key r, find_region_by_key key m' = Some r ↔
      (r = lower ∧ holds region key ∧ bytes_lt key (sq_split_key request)) ∨
      (r = upper ∧ holds region key ∧ bytes_leb (sq_split_key request) key = true) ∨
      (find_region_by_key key m = Some r ∧ rg_id r ≠ rg_id region).
Proof.
  intros Hok Hr Hreg Hnew Hroom Hp Hin Hlt lower upper.
  assert (sq_split_key request ≠ []) as Hne by (intros E; rewrite E in Hlt; by destruct (rg_start_key region)).
  pose proof (halves_hold region request peers) as Hhalf.
  set (m' := set_region upper (set_region lower m)).
  assert (Hlow : ∀ key, holds lower key ↔ holds region key ∧ bytes_lt key (sq_split_key request))
    by (intros key; by apply Hhalf; [|apply bytes_leb_lt_or_eq; left|]).
  assert (Hup : ∀ key, holds upper key ↔ holds region key ∧ bytes_leb (sq_split_key request) key = true)
    by (intros key; by apply Hhalf; [|apply bytes_leb_lt_or_eq; left|]).
  assert (rg_id upper ≠ rg_id region) as Hids by (unfold sm_get_region in *; cbn; congruence).
  assert (Hget : ∀ id r, sm_regions m' !! id = Some r ↔
    (id = rg_id upper ∧ r = upper) ∨ (id = rg_id region ∧ r = lower) ∨
    (id ≠ rg_id region ∧ sm_regions m !! id = Some r)).
  { intros id r. cbn. rewrite !lookup_insert_Some. unfold sm_get_region in *. cbn in Hids. naive_solver. }
  assert (ranges_ok m') as Hr'.
  { destruct Hr as [Hn Hd]. split.
    - intros id r [[-> ->]|[[-> ->]|[_ H]]]%Hget; [| |by eapply Hn].
      + apply Hup. split; [done|apply bytes_leb_refl].
      + apply Hlow. split; [exact (Hn _ _ Hreg)|done].
    - assert (Hx : ∀ id r key, id ≠ rg_id region → sm_regions m !! id = Some r → holds r key → ¬ holds region key)
        by (intros id r key Hi H H1 H2; apply Hi; by eapply Hd).
      intros id1 id2 r1 r2 key [[-> ->]|[[-> ->]|[Hi1 H1]]]%Hget [[-> ->]|[[-> ->]|[Hi2 H2]]]%Hget K1 K2;
        try done; rewrite ?Hup, ?Hlow in K1; rewrite ?Hup, ?Hlow in K2;
        try (destruct K1, K2; exfalso; by eapply Hx); try (by eapply Hd);
        destruct K1 as [_ K1], K2 as [_ K2]; apply bytes_leb_false in K1 || apply bytes_leb_false in K2; congruence. }
  exists m'. split; [by apply execute_split_run|]. split; [by do 2 apply set_region_ok|]. split; [done|].
  intros key r. rewrite (find_region_run m') by (try done; by do 2 apply set_region_ok).
  rewrite (find_region_run m) by done. unfold sm_get_region. rewrite Hget, <- Hlow, <- Hup. split.
  - intros [[[_ ->]|[[_ ->]|[Hi H]]] Hk]; auto.
  - intros [[-> Hk]|[[-> Hk]|[[H Hk] Hi]]]; (split; [|done]); auto.
Qed.

(** Every command but a split is refused, and so is a split without a request,
    without a key, with a key outside the region, or with no peers to be had
    for the new region; whatever goes wrong, the regions are left as they
    were. *)
Theorem execute_errors (now : Z → Z) (h : AdminHandler) (region : Region) (request : AdminRequest) (m : StoreMeta) :
  (∀ a, (execute now h region request m).1 ≠ Ok a) → (execute now h region request m).2 = m.
Proof.
  unfold execute, execute_split. destruct (AdminCmdType_from _); try done.
  destruct (aq_split request) as [r|]; [|done]. repeat case_match; try done.
  unfold mbind, M_bind, lift, modify, mret, M_ret.
  destruct (create_new_region now h region r); try done.
  destruct (update_region_range region (sq_split_key r)); try done. cbn. intros Hno.
  by destruct (Hno _ eq_refl).
Qed.

Theorem execute_refuses (now : Z → Z) (h : AdminHandler) (region : Region) (request : AdminRequest) (m : StoreMeta) :
  (AdminCmdType_from (aq_cmd_type request) ≠ AdminSplit →
     ∃ e, execute now h region request m = (Err e, m)) ∧
  (aq_cmd_type request = AdminCmdType_as_i32 AdminSplit →
     (aq_split request = None → execute now h region request m = (Err "split request is missing", m)) ∧
     ∀ r, aq_split request = Some r →
       (sq_split_key r = [] → execute now h region request m = (Err "split key is empty", m)) ∧
       (sq_split_key r ≠ [] → ¬ holds region (sq_split_key r) →
          execute now h region request m = (Err "split key is not in region range", m)) ∧
       (∀ e, sq_split_key r ≠ [] → holds region (sq_split_key r) → new_peers now h region r = Err e →
          execute now h region request m = (Err e, m))).
Proof.
  unfold execute. split; [destruct (AdminCmdType_from _); try done; eauto|].
  intros ->. cbn. split; [by intros ->|]. intros r ->. unfold execute_split. rewrite is_key_in_range_spec.
  split_and!.
  - intros ->. done.
  - intros Hne Hh. rewrite bool_decide_eq_false_2 by done. rewrite <- key_in_region_spec in Hh.
    apply not_true_is_false in Hh. by rewrite Hh.
  - intros e Hne Hh He. rewrite bool_decide_eq_false_2 by done. apply key_in_region_spec in Hh. rewrite Hh. cbn.
    unfold create_new_region. unfold new_peers in He. by rewrite He.
Qed.
End split.

(** ** Samples *)

Section samples.
#[local] Existing Instance map_order.
#[local] Instance checked : BuildProfile := true.

Definition one_byte (z : Z) : bytes := [z2b z].
Definition sample_range (id lo hi : Z) : Region := mkRegion id (one_byte lo) (one_byte hi) (Some (mkRegionEpoch 1 1)) [mkPeer id 1].
Definition two_regions : StoreMeta := set_region (sample_range 2 20 30) (set_region (sample_range 1 10 20) StoreMeta_new).
Definition sample_handler : AdminHandler := mkAdminHandler (mkAllocator sample_balancer 3) 1.
Definition split_at (k : Z) : SplitRequest := mkSplitRequest (one_byte k) 3 [31].

Lemma two_regions_ok : meta_ok two_regions.
Proof. do 2 apply set_region_ok. split; cbn; [done| |constructor]. split; [set_solver|]. by intros (? & ? & _). Qed.

Lemma two_regions_lookup id r :
  sm_regions two_regions !! id = Some r →
  (id = 2 ∧ r = sample_range 2 20 30) ∨ (id = 1 ∧ r = sample_range 1 10 20).
Proof. cbn. rewrite !lookup_insert_Some, lookup_empty. naive_solver. Qed.

Lemma two_regions_ranges_ok : ranges_ok two_regions.
Proof.
  split.
  - intros id r [[-> ->]|[-> ->]]%two_regions_lookup; apply key_in_region_spec; by vm_compute.
  - assert (Hx : ∀ key, holds (sample_range 2 20 30) key → ¬ holds (sample_range 1 10 20) key).
    { intros key [H1 _] [_ [H2|H2]]; [done|]. change (rg_start_key (sample_range 2 20 30)) with (one_byte 20) in H1.
      change (rg_end_key (sample_range 1 10 20)) with (one_byte 20) in H2. apply bytes_leb_false in H2. congruence. }
    intros id1 id2 r1 r2 key [[-> ->]|[-> ->]]%two_regions_lookup [[-> ->]|[-> ->]]%two_regions_lookup H1 H2;
      try done; exfalso; by eapply Hx.
Qed.

Lemma find_region_by_key_exact_witness :
  find_region_by_key (one_byte 15) two_regions = Some (sample_range 1 10 20).
Proof.
  apply (proj2 (proj1 (find_region_by_key_exact two_regions (one_byte 15) (sample_range 1 10 20) 0
    two_regions_ok two_regions_ranges_ok))).
  split; [by vm_compute|apply key_in_region_spec; by vm_compute].
Defined.

Lemma execute_split_correct_witness :
  ∃ m', find_region_by_key (one_byte 15) m' = Some (upper_half (sample_range 1 10 20) (split_at 15) [mkPeer 31 1]).
Proof.
  destruct (execute_split_correct (λ _, 5) sample_handler (sample_range 1 10 20) (split_at 15) two_regions
    [mkPeer 31 1] two_regions_ok two_regions_ranges_ok) as (m' & _ & _ & _ & H); try by vm_compute.
  - apply key_in_region_spec. by vm_compute.
  - exists m'. apply H. right; left. split; [done|]. split; [apply key_in_region_spec|]; by vm_compute.
Defined.

Lemma execute_errors_witness :
  (execute (λ _, 5) sample_handler (sample_range 1 10 20) (mkAdminRequest 10 None None None None) two_regions).2 = two_regions.
Proof. apply execute_errors. by intros a. Defined.

(** FINDING: a region may be split at its own start key.  Its lower half is then
    left without keys but with the same start key as the upper one, and once
    it is set again, as a later change of its peers does, it hides the
    upper half: no key of the old region is found any more. *)
Theorem split_at_start_loses_keys (key : bytes) :
  let region := sample_range 1 10 20 in
  let '(o, m') := execute_split (λ _, 5) sample_handler region (split_at 10) (set_region region StoreMeta_new) in
  ∃ lower upper, o = Ok (mkAdminResponse 10 (Some (mkSplitResponse [lower; upper]))) ∧
    ¬ holds lower key ∧ (holds upper key ↔ holds region key) ∧
    find_region_by_key key (set_region lower m') = None.
Proof.
  vm_compute execute_split. eexists _, _. split; [reflexivity|]. split_and!.
  - intros [H1 [H2|H2]]; [done|]. cbn in H1, H2. apply bytes_leb_false in H2. congruence.
  - done.
  - unfold find_region_by_key. vm_compute set_region. vm_compute reverse.
    cbn [list_find fst snd]. destruct (decide (bytes_leb [Byte.x0a] key = true)) as [Hk|Hk]; [|done].
    match goal with |- context [?m !! 1] => set (o := m !! 1) end. vm_compute in o. subst o. cbn iota.
    unfold key_in_region, exceed_end_key. cbn [rg_start_key rg_end_key]. rewrite Hk. by destruct (_ && _).
Qed.
End samples.
