(* ===== verification/Locks.v ===== *)
(** The locks of the scheduler and of the store's region map:
    src/scheduler/cluster/basic_cluster.rs, src/scheduler/operator_controller.rs,
    src/scheduler/heartbeat_streams.rs and src/raftstore/store_meta.rs.

    Their methods take several read-write locks each.  Here a method is the
    sequence of locks it takes and drops, and threads that call methods
    interleave.  A writer first announces itself, then enters when nobody holds
    the lock any more; from its announcement on no reader gets in.  This is how
    parking_lot's locks work, of which one writer at a time can announce itself
    (the others wait for their turn), and the standard library's, the two of
    [StoreMeta], where any number of writers can wait while readers are kept
    out.  A lock that is handed to a waiting thread when it is dropped is one
    that this thread takes next.  A guard is dropped at the end of its block,
    the last one taken first. *)

From S2P Require Import Prelude.

Inductive LockName :=
| Stores | Regions | StoreRegions | StoreLeaders
| Operators | Counts | OpRecords
| Streams | SentMessages
| MetaRegions | MetaRanges.
#[export] Instance LockName_eq_dec : EqDecision LockName.
Proof. solve_decision. Defined.

Inductive Mode := Shared | Exclusive.
#[export] Instance Mode_eq_dec : EqDecision Mode.
Proof. solve_decision. Defined.

(** [self.l.read()]; the two halves of [self.l.write()]; the end of a guard. *)
Inductive LockOp := Read (l : LockName) | Announce (l : LockName) | Enter (l : LockName) | Drop (l : LockName).

(** [let guard = self.l.read()] (or [write()]) and the rest of its block. *)
Definition reading (l : LockName) (body : list LockOp) : list LockOp := Read l :: body ++ [Drop l].
Definition writing (l : LockName) (body : list LockOp) : list LockOp := Announce l :: Enter l :: body ++ [Drop l].

(** ** BasicCluster *)

Definition get_stores_locks : list LockOp := reading Stores [].
Definition put_store_locks : list LockOp := writing Stores [].
Definition get_regions_locks : list LockOp := reading Regions [].
Definition store_region_count_locks : list LockOp := reading StoreRegions [].
Definition store_leader_count_locks : list LockOp := reading StoreLeaders [].
Definition update_store_stats_locks : list LockOp := reading Regions (writing Stores []).
(** [known] says whether the region was there before. *)
Definition put_region_locks (known : bool) : list LockOp :=
  reading Regions [] ++
  (if known then writing StoreRegions (writing StoreLeaders []) else []) ++
  writing Regions (writing StoreRegions (writing StoreLeaders [])) ++
  update_store_stats_locks.
(** [rand_pending_region] and [rand_follower_region]; [rand_leader_region]. *)
Definition rand_region_locks : list LockOp := reading StoreRegions (reading Regions []).
Definition rand_leader_locks : list LockOp := reading StoreLeaders (reading Regions []).

(** ** SimpleHeartbeatStreams *)

Definition bind_stream_locks : list LockOp := writing Streams [].
Definition has_stream_locks : list LockOp := reading Streams [].
Definition unbind_stream_locks : list LockOp := writing Streams [].
Definition get_sent_locks : list LockOp := reading SentMessages [].
Definition clear_sent_locks : list LockOp := writing SentMessages [].
Definition send_msg_locks (has_leader : bool) : list LockOp :=
  if has_leader then writing SentMessages [] ++ reading Streams [] else [].

(** ** OperatorController *)

Definition get_operator_locks : list LockOp := reading Operators [].
Definition operator_count_locks : list LockOp := reading Counts [].
Definition update_counts_locks : list LockOp := reading Operators (writing Counts []).
Definition put_op_record_locks : list LockOp := writing OpRecords [].
Definition operator_status_locks (running : bool) : list LockOp :=
  reading Operators [] ++ (if running then [] else reading OpRecords []).
(** What a report does with the operator of its region, if there is one. *)
Inductive DispatchCase := DcNothing | DcEnds | DcSends (again has_leader : bool).
Definition dispatch_locks (d : DispatchCase) : list LockOp :=
  match d with
  | DcNothing => writing Operators []
  | DcEnds => writing Operators [] ++ update_counts_locks ++ put_op_record_locks
  | DcSends again has_leader =>
      writing Operators [] ++ get_operator_locks ++ (if again then send_msg_locks has_leader else [])
  end.
Definition finished_len_locks : list LockOp := reading OpRecords [].
(** What becomes of a batch: the [ops] operators are refused and recorded; all
    are for regions without an operator; or one is for a region of an earlier
    one, which it replaces: the map is locked again under the method's own
    guard, and then, where [sends], a command goes out. *)
Inductive AddCase := AcRefused (ops : nat) | AcAccepted | AcReplaces (sends has_leader : bool).
Definition replace_operator_locks (sends has_leader : bool) : list LockOp :=
  put_op_record_locks ++ writing Operators [] ++ update_counts_locks ++ get_regions_locks ++
  get_operator_locks ++ (if sends then send_msg_locks has_leader else []).
(** [looked] regions are looked up. *)
Definition add_operator_locks (looked : nat) (a : AddCase) : list LockOp :=
  writing Operators (mjoin (repeat get_regions_locks looked) ++
    match a with
    | AcRefused ops => mjoin (repeat put_op_record_locks ops)
    | AcAccepted => []
    | AcReplaces sends has_leader => replace_operator_locks sends has_leader
    end).
Definition remove_operator_locks (found : bool) : list LockOp :=
  writing Operators (if found then update_counts_locks else []).

(** ** StoreMeta *)

Definition set_region_locks : list LockOp := writing MetaRegions (writing MetaRanges []).
Definition remove_region_locks : list LockOp := writing MetaRegions (writing MetaRanges []).
Definition sm_get_region_locks : list LockOp := reading MetaRegions [].
(** [candidate] says whether a region starts at or before the key. *)
Definition find_region_locks (candidate : bool) : list LockOp :=
  reading MetaRanges (if candidate then reading MetaRegions [] else []).
Definition overlap_regions_locks : list LockOp := reading MetaRanges (reading MetaRegions []).

(** ** Threads *)

Record Thread := mkThread { th_held : list (LockName * Mode); th_todo : list LockOp }.

Definition holds_lock (l : LockName) (t : Thread) : bool := existsb (λ p, bool_decide (p.1 = l)) (th_held t).
Definition writes_lock (l : LockName) (t : Thread) : bool := bool_decide ((l, Exclusive) ∈ th_held t).
(** [t] has announced that it will write, and waits for [l] to be free. *)
Definition claims_lock (l : LockName) (t : Thread) : bool :=
  match th_todo t with Enter l' :: _ => bool_decide (l' = l) | _ => false end.

(** Nobody writes, and nobody waits to. *)
Definition unclaimed (l : LockName) (ts : list Thread) : bool :=
  forallb (λ t, negb (writes_lock l t || claims_lock l t)) ts.
Definition vacant (l : LockName) (ts : list Thread) : bool := forallb (λ t, negb (holds_lock l t)) ts.
(** The locks of [std::sync]; the others are parking_lot's. *)
Definition std_lock (l : LockName) : bool :=
  match l with MetaRegions | MetaRanges => true | _ => false end.

(** One step of thread [t] among [ts]. *)
Definition thread_step (ts : list Thread) (t : Thread) : option Thread :=
  match th_todo t with
  | [] => None
  | Read l :: rest => if unclaimed l ts then Some (mkThread ((l, Shared) :: th_held t) rest) else None
  | Announce l :: rest => if std_lock l || unclaimed l ts then Some (mkThread (th_held t) rest) else None
  | Enter l :: rest => if vacant l ts then Some (mkThread ((l, Exclusive) :: th_held t) rest) else None
  | Drop l :: rest => Some (mkThread (base.filter (λ p, p.1 ≠ l) (th_held t)) rest)
  end.
Inductive lock_step (ts : list Thread) : list Thread → Prop :=
| lock_step_at i t t' : ts !! i = Some t → thread_step ts t = Some t' → lock_step ts (<[i := t']> ts).

Definition start_threads (programs : list (list LockOp)) : list Thread := mkThread [] <$> programs.
Definition all_finished (ts : list Thread) : Prop := Forall (λ t, th_todo t = []) ts.
(** Some thread has not finished, and none can go on. *)
Definition deadlocked (ts : list Thread) : bool :=
  existsb (λ t, match th_todo t with [] => false | _ => true end) ts &&
  forallb (λ t, match thread_step ts t with Some _ => false | None => true end) ts.

Lemma deadlocked_stuck ts : deadlocked ts = true → ¬ all_finished ts ∧ ∀ ts', ¬ lock_step ts ts'.
Proof.
  unfold deadlocked. intros [H1 H2]%andb_true_iff. rewrite existsb_exists in H1. rewrite forallb_forall in H2.
  setoid_rewrite <- list_elem_of_In in H1. setoid_rewrite <- list_elem_of_In in H2. split.
  - intros H. unfold all_finished in H. rewrite Forall_forall in H. destruct H1 as (t & Ht & E). by rewrite (H t Ht) in E.
  - intros ts' [i t t' Hi E]. specialize (H2 t (list_elem_of_lookup_2 _ _ _ Hi)). by rewrite E in H2.
Qed.

(** ** Taking locks in one order *)

Definition rank (l : LockName) : nat :=
  match l with
  | Operators => 0 | Counts => 1 | OpRecords => 2
  | Regions => 3 | StoreRegions => 4 | StoreLeaders => 5 | Stores => 6
  | SentMessages => 7 | Streams => 8 | MetaRegions => 9 | MetaRanges => 10
  end.

(** [todo] takes only locks above those it holds, drops what it holds, and
    ends with nothing. *)
Fixpoint in_order (held : list LockName) (todo : list LockOp) : bool :=
  match todo with
  | [] => match held with [] => true | _ => false end
  | Announce l :: rest => forallb (λ h, rank h <? rank l)%nat held && in_order held rest
  | Read l :: rest | Enter l :: rest => forallb (λ h, rank h <? rank l)%nat held && in_order (l :: held) rest
  | Drop l :: rest => in_order (base.filter (λ h, h ≠ l) held) rest
  end.

Definition orderly (t : Thread) : Prop := in_order ((th_held t).*1) (th_todo t) = true.

Lemma in_order_app held p q : in_order held p = true → in_order [] q = true → in_order held (p ++ q) = true.
Proof.
  revert held. induction p as [|[l|l|l|l] p IH]; intros held; cbn; [by destruct held|..];
    try by (intros [-> H]%andb_true_iff Hq; rewrite IH).
  intros H Hq. by apply IH.
Qed.

Lemma in_order_join ps : Forall (λ p, in_order [] p = true) ps → in_order [] (mjoin ps) = true.
Proof. induction 1; [done|]. cbn. by apply in_order_app. Qed.

Lemma filter_fst (h : list (LockName * Mode)) l :
  (base.filter (λ p, p.1 ≠ l) h).*1 = base.filter (λ x, x ≠ l) h.*1.
Proof. induction h as [|[x m] h IH]; [done|]. rewrite filter_cons, fmap_cons, filter_cons. cbn. case_decide; cbn; by rewrite IH. Qed.

Lemma thread_step_orderly ts t t' : thread_step ts t = Some t' → orderly t → orderly t'.
Proof.
  unfold thread_step, orderly. destruct (th_todo t) as [|[l|l|l|l] rest]; [done|..];
    try by (case_match; [|done]; intros [= <-]; cbn; intros [_ Ho]%andb_true_iff).
  intros [= <-]. cbn. by rewrite filter_fst.
Qed.

Lemma lock_step_orderly ts ts' : lock_step ts ts' → Forall orderly ts → Forall orderly ts'.
Proof.
  intros [i t t' Hi E] Ho. apply Forall_insert; [done|]. eapply thread_step_orderly; [done|].
  by eapply Forall_lookup_1.
Qed.

(** The lock a thread waits for. *)
Definition waits_for (t : Thread) : option LockName :=
  match th_todo t with Read l :: _ | Announce l :: _ | Enter l :: _ => Some l | _ => None end.

Lemma holds_lock_spec l t : holds_lock l t = true ↔ l ∈ (th_held t).*1.
Proof.
  unfold holds_lock. rewrite existsb_exists, list_elem_of_fmap. setoid_rewrite bool_decide_eq_true.
  setoid_rewrite <- list_elem_of_In. naive_solver.
Qed.

Lemma writes_holds l t : writes_lock l t = true → holds_lock l t = true.
Proof. unfold writes_lock. rewrite bool_decide_eq_true, holds_lock_spec, list_elem_of_fmap. by exists (l, Exclusive). Qed.

Lemma forallb_negb_false {A} (f : A → bool) l : forallb (λ x, negb (f x)) l = false → ∃ x, x ∈ l ∧ f x = true.
Proof.
  induction l as [|x l IH]; [done|]. cbn. destruct (f x) eqn:E; cbn.
  - intros _. exists x. by split; [constructor|].
  - intros (y & Hy & Hf)%IH. exists y. by split; [constructor|].
Qed.

Lemma held_of_vacant l ts : vacant l ts = false → ∃ t, t ∈ ts ∧ l ∈ (th_held t).*1.
Proof. intros (t & Ht & Hl%holds_lock_spec)%forallb_negb_false. eauto. Qed.

(** Where nobody can go on, a lock that is written or claimed is held: the
    thread that waits to enter waits for one that holds it. *)
Lemma held_of_unclaimed l ts :
  (∀ t, t ∈ ts → thread_step ts t = None) → unclaimed l ts = false → ∃ t, t ∈ ts ∧ l ∈ (th_held t).*1.
Proof.
  intros Hnone (t & Ht & [Hw|Hc]%orb_true_iff)%forallb_negb_false.
  - exists t. split; [done|]. by apply holds_lock_spec, writes_holds.
  - apply held_of_vacant. specialize (Hnone t Ht). unfold thread_step in Hnone. unfold claims_lock in Hc.
    destruct (th_todo t) as [|[l'|l'|l'|l'] rest]; try done. apply bool_decide_eq_true in Hc as ->. by case_match.
Qed.

(** Then every thread that has not finished waits for a lock that a thread holds. *)
Lemma blocked_by ts t :
  (∀ t, t ∈ ts → thread_step ts t = None) → t ∈ ts → th_todo t ≠ [] →
  ∃ l t', waits_for t = Some l ∧ t' ∈ ts ∧ l ∈ (th_held t').*1.
Proof.
  intros Hnone Ht Hne. pose proof (Hnone t Ht) as Hb. unfold thread_step in Hb. unfold waits_for.
  destruct (th_todo t) as [|[l|l|l|l] rest]; [done| | | |done]; case_match eqn:E; try done; exists l.
  - apply held_of_unclaimed in E as (t' & ? & ?); eauto.
  - apply orb_false_iff in E as [_ E]. apply held_of_unclaimed in E as (t' & ? & ?); eauto.
  - apply held_of_vacant in E as (t' & ? & ?); eauto.
Qed.

Lemma holder_ranks t l :
  orderly t → l ∈ (th_held t).*1 → th_todo t ≠ [] ∧ ∀ l', waits_for t = Some l' → (rank l < rank l')%nat.
Proof.
  unfold orderly, waits_for. destruct (th_todo t) as [|[l0|l0|l0|l0] rest]; cbn; intros Ho Hl.
  { destruct ((th_held t).*1); [by apply not_elem_of_nil in Hl|done]. }
  all: split; [done|]; intros l' [= <-]; apply andb_true_iff in Ho as [Ho _];
    rewrite forallb_forall in Ho; apply Nat.ltb_lt, Ho; by apply list_elem_of_In.
Qed.

(** Threads that take their locks in order can go on until all are finished:
    a thread that waits for the highest lock anyone waits for would wait for a
    thread that waits for a higher one. *)
Lemma orderly_progress ts : Forall orderly ts → all_finished ts ∨ ∃ ts', lock_step ts ts'.
Proof.
  intros Ho. rewrite Forall_forall in Ho.
  destruct (decide (Exists (λ t, is_Some (thread_step ts t)) ts)) as [He|Hn].
  { right. apply Exists_exists in He as (t & Ht & t' & E). apply list_elem_of_lookup_1 in Ht as [i Hi].
    eexists. by econstructor. }
  left. apply Forall_forall. intros t Ht. apply dec_stable. intros Hne.
  assert (∀ t, t ∈ ts → thread_step ts t = None) as Hnone.
  { intros t1 Ht1. apply eq_None_not_Some. intros Hs. apply Hn, Exists_exists. eauto. }
  assert (∀ n, ∃ t l, t ∈ ts ∧ th_todo t ≠ [] ∧ waits_for t = Some l ∧ (n ≤ rank l)%nat) as Hup.
  { induction n as [|n (t1 & l1 & Ht1 & Hne1 & Hw1 & Hn1)].
    - destruct (blocked_by ts t) as (l & _ & Hw & _); auto. exists t, l. auto with lia.
    - destruct (blocked_by ts t1) as (l & t2 & Hw & Ht2 & Hl); auto.
      destruct (holder_ranks t2 l) as [Hne2 Hr]; auto.
      destruct (blocked_by ts t2) as (l2 & _ & Hw2 & _); auto.
      specialize (Hr l2 Hw2). exists t2, l2. rewrite Hw1 in Hw. injection Hw as <-. split_and!; auto with lia. }
  destruct (Hup 11%nat) as (_ & l & _ & _ & _ & Hl). destruct l; cbn in Hl; lia.
Qed.

(** Each step takes one operation off a thread's list. *)
Definition work_left (ts : list Thread) : nat := sum_list_with (λ t, length (th_todo t)) ts.

Lemma lock_step_work ts ts' : lock_step ts ts' → work_left ts = S (work_left ts').
Proof.
  intros [i t t' Hi E]. assert (length (th_todo t) = S (length (th_todo t'))) as Hlen.
  { unfold thread_step in E. destruct (th_todo t) as [|[l|l|l|l] rest]; [done|..];
      repeat case_match; try done; by injection E as <-. }
  clear E. unfold work_left. revert i Hi. induction ts as [|t0 ts IH]; intros [|i]; cbn; [done..| |].
  - intros [= ->]. rewrite Hlen. done.
  - intros Hi. rewrite (IH i Hi). by rewrite Nat.add_succ_r.
Qed.

Lemma lock_steps_work n ts ts' : nsteps lock_step n ts ts' → (work_left ts = n + work_left ts')%nat.
Proof. induction 1 as [|n ts1 ts2 ts3 H _ IH]; [done|]. apply lock_step_work in H. lia. Qed.

(** A lock that is held for writing is held by one thread only. *)
Definition exclusive (ts : list Thread) : Prop := ∀ i j t t' l,
  ts !! i = Some t → ts !! j = Some t' → i ≠ j → (l, Exclusive) ∈ th_held t → l ∉ (th_held t').*1.

Lemma vacant_spec l ts : vacant l ts = true → ∀ t, t ∈ ts → l ∉ (th_held t).*1.
Proof.
  unfold vacant. rewrite forallb_forall. setoid_rewrite <- list_elem_of_In. intros Hf t Ht.
  specialize (Hf t Ht). rewrite negb_true_iff in Hf. rewrite <- holds_lock_spec. congruence.
Qed.

Lemma unclaimed_spec l ts : unclaimed l ts = true → ∀ t, t ∈ ts → (l, Exclusive) ∉ th_held t.
Proof.
  unfold unclaimed. rewrite forallb_forall. setoid_rewrite <- list_elem_of_In. intros Hf t Ht.
  specialize (Hf t Ht). rewrite negb_true_iff in Hf. apply orb_false_iff in Hf as [Hf _].
  by apply bool_decide_eq_false in Hf.
Qed.

(** What a step does to the locks its thread holds. *)
Inductive held_change (ts : list Thread) (t : Thread) : Thread → Prop :=
| hc_shared l rest : (∀ t', t' ∈ ts → (l, Exclusive) ∉ th_held t') →
    held_change ts t (mkThread ((l, Shared) :: th_held t) rest)
| hc_exclusive l rest : (∀ t', t' ∈ ts → l ∉ (th_held t').*1) →
    held_change ts t (mkThread ((l, Exclusive) :: th_held t) rest)
| hc_fewer h rest : h ⊆ th_held t → held_change ts t (mkThread h rest).

Lemma thread_step_held ts t t' : thread_step ts t = Some t' → held_change ts t t'.
Proof.
  unfold thread_step. destruct (th_todo t) as [|[l|l|l|l] rest]; [done|..].
  - case_match eqn:E; [|done]. intros [= <-]. constructor. by apply unclaimed_spec.
  - case_match; [|done]. intros [= <-]. by constructor.
  - case_match eqn:E; [|done]. intros [= <-]. constructor. by apply vacant_spec.
  - intros [= <-]. constructor. intros p [_ Hp]%list_elem_of_filter. done.
Qed.

Lemma lock_step_exclusive ts ts' : lock_step ts ts' → exclusive ts → exclusive ts'.
Proof.
  intros [i t t' Hi E%thread_step_held] Hx i1 j1 t1 t2 l.
  intros [(<- & <- & _)|[_ H1]]%list_lookup_insert_Some [(<- & <- & _)|[_ H2]]%list_lookup_insert_Some Hne;
    [done| | |by apply (Hx i1 j1 t1 t2 l)].
  - pose proof (list_elem_of_lookup_2 _ _ _ H2) as Hin2. destruct E as [l0 rest Hf|l0 rest Hf|h rest Hf]; cbn.
    + intros [[=]|Hin]%elem_of_cons. by apply (Hx i j1 t t2 l).
    + intros [[= ->]|Hin]%elem_of_cons; [by apply Hf|by apply (Hx i j1 t t2 l)].
    + intros Hin%Hf. by apply (Hx i j1 t t2 l).
  - pose proof (list_elem_of_lookup_2 _ _ _ H1) as Hin1. intros Hin.
    assert (l ∉ (th_held t).*1) as Hold by by apply (Hx i1 i t1 t l).
    destruct E as [l0 rest Hf|l0 rest Hf|h rest Hf]; cbn.
    + intros [->|Hl]%elem_of_cons; [by eapply Hf|done].
    + intros [->|Hl]%elem_of_cons; [|done]. eapply Hf; [done|]. apply list_elem_of_fmap. by exists (l0, Exclusive).
    + intros (p & -> & Hp%Hf)%list_elem_of_fmap. apply Hold. apply list_elem_of_fmap. eauto.
Qed.

(** ** The methods *)

(** [get_store] takes the locks of [get_stores], [get_region] those of
    [get_regions], [rand_pending_region] those of [rand_follower_region],
    [get_operators] and [running_len] those of [get_operator], and the store
    map's [get_all_regions] those of its [get_region]; the other methods of the
    four types take none or are not public. *)
Inductive Call :=
| CGetStores | CPutStore | CGetRegions | CStoreRegionCount | CStoreLeaderCount | CPutRegion (known : bool)
| CRandRegion | CRandLeader
| CBindStream | CUnbindStream | CHasStream | CSendMsg (has_leader : bool) | CGetSent | CClearSent
| CGetOperator | COperatorCount | COperatorStatus (running : bool) | CFinishedLen | CDispatch (d : DispatchCase)
| CAddOperator (looked : nat) (a : AddCase) | CRemoveOperator (found : bool)
| CSetRegion | CRemoveRegion | CGetRegion | CFindRegion (candidate : bool) | COverlapRegions.

Definition locks (c : Call) : list LockOp :=
  match c with
  | CGetStores => get_stores_locks
  | CPutStore => put_store_locks
  | CGetRegions => get_regions_locks
  | CStoreRegionCount => store_region_count_locks
  | CStoreLeaderCount => store_leader_count_locks
  | CPutRegion known => put_region_locks known
  | CRandRegion => rand_region_locks
  | CRandLeader => rand_leader_locks
  | CBindStream => bind_stream_locks
  | CUnbindStream => unbind_stream_locks
  | CHasStream => has_stream_locks
  | CSendMsg has_leader => send_msg_locks has_leader
  | CGetSent => get_sent_locks
  | CClearSent => clear_sent_locks
  | CGetOperator => get_operator_locks
  | COperatorCount => operator_count_locks
  | COperatorStatus running => operator_status_locks running
  | CFinishedLen => finished_len_locks
  | CDispatch d => dispatch_locks d
  | CAddOperator looked a => add_operator_locks looked a
  | CRemoveOperator found => remove_operator_locks found
  | CSetRegion => set_region_locks
  | CRemoveRegion => remove_region_locks
  | CGetRegion => sm_get_region_locks
  | CFindRegion candidate => find_region_locks candidate
  | COverlapRegions => overlap_regions_locks
  end.

(** The calls that take their locks against the order of the others, or one
    that they hold. *)
Definition out_of_order (c : Call) : bool :=
  match c with
  | CRandRegion | CRandLeader | COverlapRegions | CRemoveOperator true | CFindRegion true
  | CAddOperator _ (AcReplaces _ _) => true
  | _ => false
  end.

(** Short sections, one after the other, under the lock [Operators]. *)
Lemma in_order_repeat n p q :
  (∀ q, in_order [Operators] (p ++ q) = in_order [Operators] q) →
  in_order [Operators] (mjoin (repeat p n) ++ q) = in_order [Operators] q.
Proof. intros Hp. induction n as [|n IH]; [done|]. cbn [repeat mjoin list_join]. by rewrite <- app_assoc, Hp. Qed.

Lemma locks_in_order c : in_order [] (locks c) = negb (out_of_order c).
Proof.
  destruct c; try by repeat match goal with b : bool |- _ => destruct b end.
  - destruct d as [| |[] []]; done.
  - cbn -[mjoin repeat get_regions_locks put_op_record_locks]. rewrite <- app_assoc, in_order_repeat by done.
    destruct a as [ops| |[] []]; [by rewrite in_order_repeat|done..].
Qed.

Definition program (calls : list Call) : list LockOp := mjoin (locks <$> calls).

Lemma program_in_order calls :
  Forall (λ c, out_of_order c = false) calls → in_order [] (program calls) = true.
Proof.
  intros H. apply in_order_join, Forall_fmap. eapply Forall_impl; [done|]. intros c Hc. cbn.
  by rewrite locks_in_order, Hc.
Qed.

(** C24: Any number of threads may call the methods of the cluster, of the
    operator controller, of the streams and of the region map, in any order,
    on locks that keep readers out while a writer waits.  Excepted are the
    calls that are out of order: the random choices, finding a region by its
    key, the overlaps of a region, removing an operator that is there and
    adding two for one region.  Then at every moment a lock held for writing
    has one holder, some thread can go on unless all have finished, and every
    run ends: its steps and those still to come are those of the methods. *)
Theorem calls_finish (tasks : list (list Call)) (n : nat) (ts : list Thread) :
  Forall (Forall (λ c, out_of_order c = false)) tasks →
  nsteps lock_step n (start_threads (program <$> tasks)) ts →
  exclusive ts ∧ (all_finished ts ∨ ∃ ts', lock_step ts ts') ∧
  (n + work_left ts = sum_list_with (λ calls, length (program calls)) tasks)%nat.
Proof.
  intros Ht Hn. set (ts0 := start_threads _) in Hn.
  assert (∀ i t, ts0 !! i = Some t → th_held t = []) as Hempty.
  { intros i t. unfold ts0, start_threads. rewrite list_lookup_fmap. intros (p & _ & ->)%fmap_Some. done. }
  assert (Forall orderly ts0) as Ho0.
  { unfold ts0, start_threads. rewrite !Forall_fmap. eapply Forall_impl; [done|]. intros calls Hc.
    by apply program_in_order. }
  assert (exclusive ts0) as Hx0.
  { intros i j t t' l Hi _ _. rewrite (Hempty i t Hi). intros H. by apply not_elem_of_nil in H. }
  assert (work_left ts0 = sum_list_with (λ calls, length (program calls)) tasks) as Hw0.
  { unfold ts0, work_left, start_threads. clear. induction tasks as [|c l IH]; [done|]. cbn. by f_equal. }
  clearbody ts0. rewrite <- Hw0, <- (lock_steps_work _ _ _ Hn).
  assert (Forall orderly ts ∧ exclusive ts) as [Ho Hx].
  { clear Hempty Hw0. induction Hn as [|n ts1 ts2 ts3 Hs _ IH]; [done|].
    apply IH; [by eapply lock_step_orderly|by eapply lock_step_exclusive]. }
  split; [done|]. split; [by apply orderly_progress|done].
Qed.

(** A schedule: which thread goes next. *)
Fixpoint run_schedule (schedule : list nat) (ts : list Thread) : option (list Thread) :=
  match schedule with
  | [] => Some ts
  | i :: rest => t ← ts !! i; t' ← thread_step ts t; run_schedule rest (<[i := t']> ts)
  end.

Lemma run_schedule_steps schedule ts ts' :
  run_schedule schedule ts = Some ts' → nsteps lock_step (length schedule) ts ts'.
Proof.
  revert ts. induction schedule as [|i schedule IH]; intros ts; cbn; [intros [= <-]; constructor|].
  intros (t & Hi & (t' & E & H)%bind_Some)%bind_Some. eapply nsteps_l; [by econstructor|by apply IH].
Qed.

(** [calls], made by one thread each, can run into a deadlock. *)
Definition can_deadlock (calls : list Call) : Prop :=
  ∃ ts, rtc lock_step (start_threads (locks <$> calls)) ts ∧ ¬ all_finished ts ∧ ∀ ts', ¬ lock_step ts ts'.

Lemma deadlock_by schedule calls :
  (deadlocked <$> run_schedule schedule (start_threads (locks <$> calls))) = Some true → can_deadlock calls.
Proof.
  intros (ts & E & H)%fmap_Some. exists ts. split; [by eapply (rtc_nsteps_2 _), run_schedule_steps|].
  by apply deadlocked_stuck.
Qed.

(** FINDING: a scheduler that picks a region of a store while a heartbeat puts
    one can deadlock with it: [put_region] takes the regions before the
    indices, the random choices take the index first.  The same goes for
    setting or removing a region of the store's region map while one is looked
    for.  Removing an operator that is there, or adding two for one region,
    needs no second thread. *)
Theorem lock_order_deadlocks (known sends has_leader : bool) :
  can_deadlock [CPutRegion known; CRandRegion] ∧ can_deadlock [CPutRegion known; CRandLeader] ∧
  can_deadlock [CSetRegion; CFindRegion true] ∧ can_deadlock [CRemoveRegion; CFindRegion true] ∧
  can_deadlock [CSetRegion; COverlapRegions] ∧ can_deadlock [CRemoveOperator true] ∧
  can_deadlock [CAddOperator 2 (AcReplaces sends has_leader)].
Proof.
  set (n := if known then 10%nat else 4%nat). split_and!.
  - apply (deadlock_by (repeat 0%nat n ++ [1; 0]%nat)). by destruct known.
  - apply (deadlock_by (repeat 0%nat (2 + n) ++ [1; 0]%nat)). by destruct known.
  - by apply (deadlock_by [0; 0; 1; 0]%nat).
  - by apply (deadlock_by [0; 0; 1; 0]%nat).
  - by apply (deadlock_by [0; 0; 1; 0]%nat).
  - by apply (deadlock_by [0; 0]%nat).
  - apply (deadlock_by (repeat 0%nat 9)). by destruct sends, has_leader.
Qed.

Definition three_tasks : list (list Call) :=
  [[CGetRegions]; [CPutRegion false]; [CAddOperator 1 AcAccepted; CDispatch DcEnds]].
Definition three_schedule : list nat := [1; 1; 0; 1; 2; 2]%nat.

(** Thread 0 reads the regions, thread 1 waits to write them, and thread 2, that
    writes the operators, waits behind thread 1 to read the regions. *)
Lemma calls_finish_witness :
  ∃ ts, nsteps lock_step 6 (start_threads (program <$> three_tasks)) ts ∧
        (th_held <$> ts) = [[(Regions, Shared)]; []; [(Operators, Exclusive)]] ∧
        (waits_for <$> ts) = [None; Some Regions; Some Regions] ∧
        (thread_step ts <$> ts !! 1%nat) = Some None ∧ (thread_step ts <$> ts !! 2%nat) = Some None ∧
        exclusive ts ∧ (∃ ts', lock_step ts ts') ∧
        (6 + work_left ts = sum_list_with (λ calls, length (program calls)) three_tasks)%nat ∧
        work_left ts = 28%nat.
Proof.
  destruct (run_schedule three_schedule (start_threads (program <$> three_tasks))) as [ts|] eqn:E; [|done].
  pose proof (run_schedule_steps _ _ _ E) as Hn. vm_compute in E. injection E as E.
  destruct (calls_finish three_tasks 6 ts) as (Hx & Hp & Hw); [by repeat constructor|done|].
  exists ts. split; [done|]. split_and!; try done; try by (rewrite <- E; vm_compute).
  destruct Hp as [Hf|]; [|done]. rewrite <- E in Hf. by inversion Hf.
Defined.
