(* ===== verification/PdState.v ===== *)
(** The placement driver: src/pd/state.rs, src/pd/id_allocator.rs and
    src/scheduler/coordinator.rs, which put the cluster, the operator
    controller, the schedulers and the heartbeat streams together.

    The heartbeat streams are shared by [PdState] and its controller; they are
    the [oc_hb_streams] of the controller here.  The conversions between the
    messages of the wire and those of the program ([from_proto_region] and the
    like) copy field by field and are left out.  A method runs without a
    break here; that requests are served at the same time is modelled where
    ids are given out ([ids_step]) and where the cluster takes up reports
    ([putting], with [Cluster.cluster_step]).  The service is in [PdService]. *)

From S2P Require Import Prelude Bytes RaftTypes Engine Proto Cluster Operator OperatorController Schedulers StoreBalancer.

(** ** schedulerpb *)

Record RegionHeartbeatRequest := mkRegionHeartbeatRequest {
  hq_header : option RequestHeader;
  hq_region : option Region;
  hq_leader : option Peer;
  hq_pending_peers : list Peer;
  hq_approximate_size : Z;
}.
Record StoreStats := mkStoreStats {
  ss_store_id : Z;
  ss_capacity : Z;
  ss_available : Z;
  ss_used_size : Z;
  ss_region_count : Z;
  ss_leader_count : Z;
  ss_healthy : bool;
  ss_avg_resp_ms : Z;
  ss_error_count : Z;
  ss_mem_total : Z;
  ss_mem_used : Z;
  ss_disk_total : Z;
  ss_disk_used : Z;
  ss_network_state : string;
}.
Record StoreHeartbeatRequest := mkStoreHeartbeatRequest {
  shq_header : option RequestHeader; shq_stats : option StoreStats }.
Record AskSplitRequest := mkAskSplitRequest { asq_header : option RequestHeader; asq_region : option Region }.
Record AskSplitResponse := mkAskSplitResponse {
  asr_header : option ResponseHeader; asr_new_region_id : Z; asr_new_peer_ids : list Z }.
Record GetStoreResponse := mkGetStoreResponse { gsr_header : option ResponseHeader; gsr_store : option Store }.
Record GetRegionResponse := mkGetRegionResponse {
  grr_header : option ResponseHeader; grr_region : option Region; grr_leader : option Peer }.
Record Member := mkMember { mb_member_id : Z; mb_client_urls : list string; mb_peer_urls : list string }.
Record GetMembersResponse := mkGetMembersResponse {
  gmr_header : option ResponseHeader; gmr_members : list Member; gmr_leader : option Member }.

(** ** src/scheduler/coordinator.rs *)

(** The trait [Scheduler]; a run gets the times at which the clock is read: of
    each store, and of the making of the operator. *)
Record Scheduler `{RandomSource} := mkScheduler {
  scheduler_type : string;
  is_schedule_allowed : BasicCluster → bool;
  schedule : (Z → Z) → Z → BasicCluster → M rng (option Operator);
}.
Arguments mkScheduler {_}.

(** The cluster and the controller of the coordinator are those of [PdState]. *)
Record Coordinator `{RandomSource} := mkCoordinator {
  co_schedulers : gmap string Scheduler; co_running : bool }.
Arguments mkCoordinator {_}.

(** ** src/pd *)

Record PdConfig := mkPdConfig {
  pc_cluster_id : Z; pc_advertise_client_urls : list string; pc_advertise_peer_urls : list string }.

Section pd.
Context `{prof : BuildProfile} `{order : HashOrder} `{rand : RandomSource}.

Definition BalanceLeaderScheduler (max_down_time : Z) : Scheduler :=
  mkScheduler "balance-leader" (λ _, true) (λ now created, balance_leader_schedule now created max_down_time).
Definition BalanceRegionScheduler (max_down_time : Z) : Scheduler :=
  mkScheduler "balance-region" (λ _, true) (λ now created, balance_region_schedule now created max_down_time).
Definition ScaleScheduler_sched (s : ScaleScheduler) : Scheduler :=
  mkScheduler "scale" (scale_is_schedule_allowed s) (λ now created, scale_schedule now created s).

Definition Coordinator_new : Coordinator := mkCoordinator ∅ false.
Definition register_scheduler (s : Scheduler) (co : Coordinator) : Coordinator :=
  mkCoordinator (<[scheduler_type s := s]> (co_schedulers co)) (co_running co).
Definition co_set_running (b : bool) (co : Coordinator) : Coordinator := mkCoordinator (co_schedulers co) b.

Record PdState := mkPdState {
  pd_config : PdConfig;
  pd_cluster : BasicCluster;
  pd_operator_controller : OperatorController (hb := simple_streams);
  pd_coordinator : Coordinator;
  pd_counter : Z;
  pd_is_bootstrapped : bool;
  pd_store_loads : gmap Z StoreLoad;
}.

Definition PdState_new (config : PdConfig) : PdState :=
  mkPdState config BasicCluster_new (OperatorController_new (hb := simple_streams) SimpleHeartbeatStreams_new)
    Coordinator_new 1000 false ∅.

Definition set_cluster (c : BasicCluster) (s : PdState) : PdState :=
  mkPdState (pd_config s) c (pd_operator_controller s) (pd_coordinator s) (pd_counter s) (pd_is_bootstrapped s) (pd_store_loads s).
Definition set_controller (c : OperatorController (hb := simple_streams)) (s : PdState) : PdState :=
  mkPdState (pd_config s) (pd_cluster s) c (pd_coordinator s) (pd_counter s) (pd_is_bootstrapped s) (pd_store_loads s).
Definition set_counter (n : Z) (s : PdState) : PdState :=
  mkPdState (pd_config s) (pd_cluster s) (pd_operator_controller s) (pd_coordinator s) n (pd_is_bootstrapped s) (pd_store_loads s).
Definition set_coordinator (co : Coordinator) (s : PdState) : PdState :=
  mkPdState (pd_config s) (pd_cluster s) (pd_operator_controller s) co (pd_counter s) (pd_is_bootstrapped s)
    (pd_store_loads s).
Definition set_store_loads (m : gmap Z StoreLoad) (s : PdState) : PdState :=
  mkPdState (pd_config s) (pd_cluster s) (pd_operator_controller s) (pd_coordinator s) (pd_counter s) (pd_is_bootstrapped s) m.
Definition set_streams (f : SimpleHeartbeatStreams → SimpleHeartbeatStreams) (s : PdState) : PdState :=
  let c := pd_operator_controller s in
  set_controller (mkController (hb := simple_streams) (oc_operators c) (f (oc_hb_streams c))
                    (oc_counts c) (oc_op_records c)) s.

(** A method of the cluster, run on the one of the state. *)
Definition on_cluster {A} (m : M BasicCluster A) : M PdState A := λ s,
  let '(o, c) := m (pd_cluster s) in (o, set_cluster c s).

Definition response_ok (s : PdState) : ResponseHeader := mkResponseHeader (pc_cluster_id (pd_config s)) None.

(** [IdAllocator::alloc]: the counter wraps around by itself, the addition of
    the result is checked in a debug build. *)
Definition alloc : M PdState Z :=
  s ← get;
  modify (set_counter ((pd_counter s + 1) mod 2 ^ 64));;
  lift (u64_add (pd_counter s) 1).

Definition bind_region_stream (store_id sender : Z) : PdState → PdState := set_streams (bind_stream store_id sender).
Definition unbind_region_stream (store_id : Z) : PdState → PdState := set_streams (unbind_stream store_id).

Definition pd_put_store (now : Z) (store : Store) : M PdState ResponseHeader :=
  modify (λ s, set_cluster (put_store (StoreInfo_new now store) (pd_cluster s)) s);;
  gets response_ok.
Definition bootstrap (now : Z) (store : Store) : M PdState ResponseHeader :=
  s ← get;
  modify (λ s, mkPdState (pd_config s) (pd_cluster s) (pd_operator_controller s) (pd_coordinator s) (pd_counter s) true (pd_store_loads s));;
  (if pd_is_bootstrapped s then mret tt
   else modify (λ s, set_cluster (put_store (StoreInfo_new now store) (pd_cluster s)) s));;
  gets response_ok.

Definition pd_get_store (store_id : Z) : M PdState GetStoreResponse :=
  s ← get;
  info ← lift (ok_or "store not found" (get_store store_id (pd_cluster s)));
  mret (mkGetStoreResponse (Some (response_ok s)) (Some (si_meta info))).

(** [leader_size] is set to the leader count, for want of a leader size. *)
Definition heartbeat_info (now : Z) (stats : StoreStats) (info : StoreInfo) : StoreInfo :=
  update_metrics (ss_healthy stats) (ss_avg_resp_ms stats) (ss_error_count stats)
    (ss_mem_total stats, ss_mem_used stats) (ss_disk_total stats, ss_disk_used stats) (ss_network_state stats)
    (update_leader_size (ss_leader_count stats)
      (update_region_size (ss_used_size stats)
        (update_leader_count (ss_leader_count stats)
          (update_region_count (ss_region_count stats)
            (update_heartbeat now info))))).

(** [now] is read for the store, [now'] for its load. *)
Definition handle_store_heartbeat (now now' : Z) (request : StoreHeartbeatRequest) : M PdState ResponseHeader :=
  stats ← lift (ok_or "store heartbeat missing stats" (shq_stats request));
  s ← get;
  (match get_store (ss_store_id stats) (pd_cluster s) with
   | Some info => modify (λ s, set_cluster (put_store (heartbeat_info now stats info) (pd_cluster s)) s)
   | None => mret tt
   end);;
  modify (λ s, set_store_loads
    (<[ss_store_id stats := load_update now' (ss_region_count stats) (ss_leader_count stats)
         (ss_used_size stats) (ss_leader_count stats)
         (default (StoreLoad_new now' (ss_store_id stats)) (pd_store_loads s !! ss_store_id stats))]>
       (pd_store_loads s)) s);;
  gets response_ok.

(** [Coordinator::dispatch] *)
Definition pd_dispatch (now : Z) (region : RegionInfo) (source : string) (s : PdState) : PdState :=
  set_controller (dispatch (hb := simple_streams) now region source (pd_operator_controller s)) s.

Definition reported_region (request : RegionHeartbeatRequest) (region : Region) (leader : Peer) : RegionInfo :=
  set_approximate_size (hq_approximate_size request)
    (foldl (λ r p, add_pending_peer p r) (RegionInfo_new region (Some leader)) (hq_pending_peers request)).

Definition handle_region_heartbeat (now : Z) (request : RegionHeartbeatRequest) : M PdState unit :=
  header ← lift (ok_or "region heartbeat missing header" (hq_header request));
  let store_id := rqh_sender_id header in
  region ← lift (ok_or "region heartbeat missing region" (hq_region request));
  leader ← lift (ok_or "region heartbeat missing leader" (hq_leader request));
  let region_info := reported_region request region leader in
  on_cluster (put_region region_info);;
  modify (pd_dispatch now region_info "heartbeat");;
  s ← get;
  if negb (has_stream store_id (oc_hb_streams (pd_operator_controller s)))
  then raise "heartbeat stream for store missing"
  else mret tt.

Definition ask_split (request : AskSplitRequest) : M PdState AskSplitResponse :=
  _ ← lift (ok_or "ask split missing region" (asq_region request));
  new_region_id ← alloc;
  new_peer_id ← alloc;
  s ← get;
  mret (mkAskSplitResponse (Some (response_ok s)) new_region_id [new_peer_id]).

(** The condition of [get_region]. *)
Definition pd_key_in (key : bytes) (r : RegionInfo) : bool :=
  let start := rg_start_key (rgi_region r) in
  let end_ := rg_end_key (rgi_region r) in
  (bool_decide (start = []) || bytes_leb start key) && (bool_decide (end_ = []) || bytes_ltb key end_).
Definition region_response (s : PdState) (r : RegionInfo) : GetRegionResponse :=
  mkGetRegionResponse (Some (response_ok s)) (Some (rgi_region r)) (rgi_leader r).
Definition pd_get_region (key : bytes) : M PdState GetRegionResponse :=
  s ← get;
  region ← lift (ok_or "region not found for key"
                  (snd <$> list_find (λ r, pd_key_in key r = true) (get_regions (pd_cluster s))));
  mret (region_response s region).
Definition get_region_by_id (region_id : Z) : M PdState GetRegionResponse :=
  s ← get;
  region ← lift (ok_or "region not found" (get_region region_id (pd_cluster s)));
  mret (region_response s region).

Definition get_members : M PdState GetMembersResponse :=
  s ← get;
  let leader := mkMember (pc_cluster_id (pd_config s)) (pc_advertise_client_urls (pd_config s))
                  (pc_advertise_peer_urls (pd_config s)) in
  mret (mkGetMembersResponse (Some (response_ok s)) [leader] (Some leader)).
Definition store_loads_snapshot (s : PdState) : list StoreLoad := hash_values (pd_store_loads s).

(** [Coordinator::start] and [stop]. *)
Definition pd_start : PdState → PdState := λ s, set_coordinator (co_set_running true (pd_coordinator s)) s.
Definition pd_stop : PdState → PdState := λ s, set_coordinator (co_set_running false (pd_coordinator s)) s.
Definition pd_register (sch : Scheduler) : PdState → PdState := λ s,
  set_coordinator (register_scheduler sch (pd_coordinator s)) s.

(** The body of the loop that [Coordinator::start] spawns, after its sleep:
    [None] when it breaks.  Every scheduler that may run is run once, in the
    order of the map, and the operator it makes is added.  [clock] gives, for
    each scheduler, the times its run reads and the time of the addition; the
    cluster does not change while the body runs. *)
Record RunTimes := mkTimes { rt_now : Z → Z; rt_created : Z; rt_added : Z }.
Definition run_scheduler (times : RunTimes) (sch : Scheduler) : M (PdState * rng) unit := λ st,
  let cluster := pd_cluster st.1 in
  if is_schedule_allowed sch cluster then
    let '(o, g) := schedule sch (rt_now times) (rt_created times) cluster st.2 in
    match o with
    | Ok (Some op) =>
        let '(o, c) := add_operator (hb := simple_streams) (rt_added times) cluster [op]
                         (pd_operator_controller st.1) in
        (_ ← o; Ok tt, (set_controller c st.1, g))
    | _ => (_ ← o; Ok tt, (st.1, g))
    end
  else (Ok tt, st).
Definition coordinator_tick (clock : string → RunTimes) : M (PdState * rng) (option ()) :=
  st ← get;
  if negb (co_running (pd_coordinator st.1)) then mret None
  else
    for_each (hash_values (co_schedulers (pd_coordinator st.1)))
      (λ sch, run_scheduler (clock (scheduler_type sch)) sch);;
    mret (Some ()).
End pd.

(** ** What the requests do *)

Section requests.
Context `{prof : BuildProfile} `{order : HashOrder} `{rand : RandomSource}.

(** The region a heartbeat reports has the peers, the range, the epoch and the
    leader of the request. *)
Lemma add_pending_peers l r :
  let r' := foldl (λ r p, add_pending_peer p r) r l in
  rgi_region r' = rgi_region r ∧ rgi_leader r' = rgi_leader r ∧
  rgi_pending_peers r' = rgi_pending_peers r ++ l ∧ rgi_approximate_size r' = rgi_approximate_size r.
Proof.
  revert r. induction l as [|p l IH]; intros r; cbn [foldl]; [by rewrite app_nil_r|].
  destruct (IH (add_pending_peer p r)) as (-> & -> & -> & ->). cbn. by rewrite <- app_assoc.
Qed.

Lemma reported_region_eq request region leader :
  reported_region request region leader =
  mkRegionInfo region (Some leader) (hq_pending_peers request) (hq_approximate_size request).
Proof.
  unfold reported_region, set_approximate_size.
  destruct (add_pending_peers (hq_pending_peers request) (RegionInfo_new region (Some leader)))
    as (-> & -> & -> & _). done.
Qed.

(** The recount leaves what a store says of itself. *)
Lemma with_store_ids s f (m : gmap Z StoreInfo) :
  (∀ st st', f st = Ok st' → si_id st' = si_id st) →
  (∀ id st, m !! id = Some st → si_id st = id) →
  ∀ id st, (with_store s f m).2 !! id = Some st → si_id st = id.
Proof.
  intros Hf Hm id st. unfold with_store. destruct (m !! s) as [st0|] eqn:E; [|apply Hm].
  unfold mbind, M_bind, lift, modify. destruct (f st0) as [st1| | |] eqn:Ef; cbn; try apply Hm.
  intros [(<- & <-)|[_ H]]%lookup_insert_Some; [|by apply Hm].
  rewrite (Hf _ _ Ef). by apply Hm.
Qed.

Lemma put_region_stores_ok r c : stores_ok c → stores_ok (put_region r c).2.
Proof.
  intros Hc. rewrite put_region_eq. set (c1 := put_index _ _).
  assert (bc_stores c1 = bc_stores c) as E by (by subst c1; destruct (get_region (rgi_id r) c)).
  unfold update_store_stats.
  pose proof (for_each_inv (λ m : gmap Z StoreInfo, ∀ id st, m !! id = Some st → si_id st = id)
    (hash_values (bc_regions c1)) count_region (set_stats 0 0 0 0 <$> bc_stores c1)) as H.
  destruct (for_each _ _ _) as [o stores]. unfold stores_ok, get_store. cbn [snd bc_stores]. apply H.
  - intros r0 m _ Hm. unfold count_region. apply M_bind_inv.
    + apply for_each_inv; [|done]. intros p m0 _ Hm0. apply with_store_ids; [|done].
      intros st st' (n & _ & (z & _ & [= <-])%outcome_bind_ok)%outcome_bind_ok. done.
    + intros [] m0 _ Hm0. apply for_each_inv; [|done]. intros p m1 _ Hm1. apply with_store_ids; [|done].
      intros st st' (n & _ & (z & _ & [= <-])%outcome_bind_ok)%outcome_bind_ok. done.
  - intros id st. rewrite E, lookup_fmap. intros (st0 & H0 & ->)%fmap_Some. by apply (Hc id st0).
Qed.

Lemma put_store_stores_ok st c : stores_ok c → stores_ok (put_store st c).
Proof. intros Hc id st0. unfold get_store, put_store. cbn. intros [(<- & <-)|[_ H]]%lookup_insert_Some; [done|by apply Hc]. Qed.

Lemma put_store_ok st c : cluster_ok c → cluster_ok (put_store st c).
Proof. by destruct 1. Qed.

(** The parts of the state a region heartbeat leaves alone. *)
Definition same_rest (s s' : PdState) : Prop :=
  pd_config s' = pd_config s ∧ pd_coordinator s' = pd_coordinator s ∧ pd_counter s' = pd_counter s ∧
  pd_is_bootstrapped s' = pd_is_bootstrapped s ∧ pd_store_loads s' = pd_store_loads s.

Lemma dispatch_streams now r source (c : OperatorController (hb := simple_streams)) id :
  has_stream id (oc_hb_streams (dispatch (hb := simple_streams) now r source c)) = has_stream id (oc_hb_streams c).
Proof.
  unfold dispatch. repeat case_match; cbn; try done.
  all: unfold simple_send_msg; repeat case_match; done.
Qed.

(** C26: A region heartbeat without its header, its region or its leader is refused
    and changes nothing.  Otherwise, unless a count of the stores overflows,
    the reported region (with the peers, range, epoch, leader, pending
    peers and size of the report) becomes the one held under its id, whatever
    epoch was held before; the other regions stay, the indices agree with the
    regions, and then the operator of the region is stepped.  The request
    fails after all that when no stream is bound for the store that sent it. *)
Theorem handle_region_heartbeat_exact (now : Z) (request : RegionHeartbeatRequest) (s : PdState) :
  cluster_ok (pd_cluster s) →
  let (o, s') := handle_region_heartbeat now request s in
  ((hq_header request = None ∨ hq_region request = None ∨ hq_leader request = None) →
     (∃ e, o = Err e) ∧ s' = s) ∧
  (∀ header region leader,
     hq_header request = Some header → hq_region request = Some region → hq_leader request = Some leader →
     let r := mkRegionInfo region (Some leader) (hq_pending_peers request) (hq_approximate_size request) in
     let regions := <[rg_id region := r]> (bc_regions (pd_cluster s)) in
     (∀ id r0, regions !! id = Some r0 → 0 ≤ rgi_approximate_size r0) →
     (∀ id st, get_store id (pd_cluster s) = Some st →
        stats_fit (add_stats (map_to_list regions).*2 id (set_stats 0 0 0 0 st))) →
     cluster_ok (pd_cluster s') ∧
     get_region (rg_id region) (pd_cluster s') = Some r ∧
     (∀ id, id ≠ rg_id region → get_region id (pd_cluster s') = get_region id (pd_cluster s)) ∧
     pd_operator_controller s' = dispatch now r "heartbeat" (pd_operator_controller s) ∧ same_rest s s' ∧
     (o = Ok tt ↔ has_stream (rqh_sender_id header) (oc_hb_streams (pd_operator_controller s)) = true) ∧
     (∀ e, o = Err e → e = "heartbeat stream for store missing")).
Proof.
  intros Hok. destruct (handle_region_heartbeat now request s) as [o s'] eqn:Erun. unfold handle_region_heartbeat in Erun.
  destruct (hq_header request) as [h|] eqn:Eh; [|injection Erun as <- <-; split; [eauto|done]]. cbn [ok_or] in Erun.
  rewrite (M_bind_run (lift (Ok h)) _ _ _ _ eq_refl) in Erun. cbv beta zeta in Erun.
  destruct (hq_region request) as [rg|] eqn:Er; [|injection Erun as <- <-; split; [eauto|done]]. cbn [ok_or] in Erun.
  rewrite (M_bind_run (lift (Ok rg)) _ _ _ _ eq_refl) in Erun. cbv beta zeta in Erun.
  destruct (hq_leader request) as [ld|] eqn:El; [|injection Erun as <- <-; split; [eauto|done]]. cbn [ok_or] in Erun.
  rewrite (M_bind_run (lift (Ok ld)) _ _ _ _ eq_refl) in Erun. cbv beta zeta in Erun.
  rewrite reported_region_eq in Erun. set (r := mkRegionInfo _ _ _ _) in Erun.
  split; [naive_solver|].
  intros header region leader [= <-] [= <-] [= <-] r' regions Hz Hfit. fold r in r'. subst r'.
  assert (∃ c', put_region r (pd_cluster s) = (Ok tt, c')) as [c' Hput].
  { unfold put_region. unfold get at 1, mbind at 1, M_bind at 1.
    destruct (update_store_stats_run
      (put_index r (put_unindex (get_region (rgi_id r) (pd_cluster s)) (rgi_id r) (pd_cluster s))))
      as (c' & E & _).
    - destruct (get_region (rgi_id r) (pd_cluster s)); exact Hz.
    - destruct (get_region (rgi_id r) (pd_cluster s)); exact Hfit.
    - exists c'. exact E. }
  assert (on_cluster (put_region r) s = (Ok tt, set_cluster c' s)) as Hon by (unfold on_cluster; by rewrite Hput).
  rewrite (M_bind_run _ _ _ _ _ Hon) in Erun.
  pose proof (put_region_ok_run r _ Hok) as Hok'. pose proof (put_region_regions r (pd_cluster s)) as Hreg.
  rewrite Hput in Hok', Hreg. cbn [snd] in Hok', Hreg.
  unfold modify at 1, get at 1, mbind at 1 2, M_bind at 1 2 in Erun.
  cbn [pd_operator_controller pd_dispatch set_controller set_cluster] in Erun.
  rewrite dispatch_streams in Erun.
  assert (o = (if has_stream (rqh_sender_id h) (oc_hb_streams (pd_operator_controller s)) then Ok tt
               else Err "heartbeat stream for store missing") ∧
          s' = pd_dispatch now r "heartbeat" (set_cluster c' s)) as [-> ->]
    by (destruct (has_stream _ _); by injection Erun as <- <-).
  clear Erun. cbn. unfold get_region. rewrite Hreg. split_and!; try done.
  - by apply lookup_insert_eq.
  - intros id Hid. by apply lookup_insert_ne.
  - by destruct (has_stream _ _).
  - destruct (has_stream _ _); [done|]. by intros e [= <-].
Qed.
End requests.

(** ** Runs of the placement driver *)

Section runs.
Context `{prof : BuildProfile} `{order : HashOrder} `{rand : RandomSource}.

(** The operators a scheduler makes have something to do. *)
Definition makes_work (sch : Scheduler) : Prop := ∀ now created c g op g',
  schedule sch now created c g = (Ok (Some op), g') → op_done op = false.

(** The requests of src/pd/service.rs that change the state, each handled alone:
    the state it leaves, also when it fails, is the next state.  [ps_alloc_id]
    is the service's [alloc_id], which calls the allocator and nothing else;
    [ps_tick] is one run of the coordinator's loop. *)
Inductive pd_step (s : PdState) : PdState → Prop :=
| ps_bootstrap now store : pd_step s (bootstrap now store s).2
| ps_put_store now store : pd_step s (pd_put_store now store s).2
| ps_store_heartbeat now now' request : pd_step s (handle_store_heartbeat now now' request s).2
| ps_region_heartbeat now request : pd_step s (handle_region_heartbeat now request s).2
| ps_ask_split request : pd_step s (ask_split request s).2
| ps_alloc_id : pd_step s (alloc s).2
| ps_bind store_id sender : pd_step s (bind_region_stream store_id sender s)
| ps_unbind store_id : pd_step s (unbind_region_stream store_id s)
| ps_register sch : makes_work sch → pd_step s (pd_register sch s)
| ps_start : pd_step s (pd_start s)
| ps_stop : pd_step s (pd_stop s)
| ps_tick clock g : pd_step s (coordinator_tick clock (s, g)).2.1.

(** What holds of every state of the placement driver. *)
Record pd_ok (s : PdState) : Prop := {
  pok_cluster : cluster_ok (pd_cluster s);
  pok_stores : stores_ok (pd_cluster s);
  pok_controller : controller_ok (hb := simple_streams) (pd_operator_controller s);
  pok_schedulers : ∀ name sch, co_schedulers (pd_coordinator s) !! name = Some sch →
    scheduler_type sch = name ∧ makes_work sch;
  pok_loads : ∀ id l, pd_store_loads s !! id = Some l → sl_store_id l = id;
  pok_counter : is_u64 (pd_counter s);
}.

Lemma controller_frame (c c' : OperatorController (hb := simple_streams)) :
  oc_operators c' = oc_operators c → oc_op_records c' = oc_op_records c → controller_ok c → controller_ok c'.
Proof. intros E1 E2 [H1 H2]. split; [by rewrite E1|by rewrite E2]. Qed.

Lemma on_cluster_ok {A} (m : M BasicCluster A) s :
  cluster_ok (m (pd_cluster s)).2 → stores_ok (m (pd_cluster s)).2 → pd_ok s → pd_ok (on_cluster m s).2.
Proof. intros H1 H2 [? ? ? ? ? ?]. unfold on_cluster. destruct (m (pd_cluster s)). by split. Qed.

Lemma put_store_pd_ok st s : pd_ok s → pd_ok (set_cluster (put_store st (pd_cluster s)) s).
Proof.
  intros [? ? ? ? ? ?]. split; try done; cbn; [by apply put_store_ok|by apply put_store_stores_ok].
Qed.

Lemma set_streams_ok f s : pd_ok s → pd_ok (set_streams f s).
Proof. intros [? ? ? ? ? ?]. split; try done. by apply (controller_frame (pd_operator_controller s)). Qed.

Lemma alloc_ok s : pd_ok s → pd_ok (alloc s).2.
Proof.
  intros [? ? ? ? ? ?]. split; try done.
  change (is_u64 ((pd_counter s + 1) mod 2 ^ 64)). unfold is_u64, u64_max.
  pose proof (Z.mod_pos_bound (pd_counter s + 1) (2 ^ 64) ltac:(lia)). lia.
Qed.

Lemma load_update_id now a b c d l : sl_store_id (load_update now a b c d l) = sl_store_id l.
Proof. done. Qed.

Lemma store_heartbeat_ok now now' request s : pd_ok s → pd_ok (handle_store_heartbeat now now' request s).2.
Proof.
  intros Hs. unfold handle_store_heartbeat. apply M_bind_inv; [done|].
  intros stats s0 [= _ <-] _. rewrite (M_bind_run get _ _ _ _ eq_refl). cbv beta.
  apply M_bind_inv.
  - destruct (get_store _ _); [by apply put_store_pd_ok|done].
  - intros [] s1 _ [? ? ? ? Hl ?]. split; try done.
    unfold mbind, M_bind, modify, gets. cbn [snd pd_store_loads set_store_loads].
    intros id l [(<- & <-)|[_ H]]%lookup_insert_Some; [|by apply Hl]. rewrite load_update_id.
    destruct (pd_store_loads s1 !! ss_store_id stats) eqn:E; [by apply Hl|done].
Qed.

Lemma dispatch_pd_ok now r source s : pd_ok s → pd_ok (pd_dispatch now r source s).
Proof.
  intros [? ? Hc ? ? ?]. split; try done. cbn.
  by apply dispatch_ok.
Qed.

Lemma region_heartbeat_ok now request s : pd_ok s → pd_ok (handle_region_heartbeat now request s).2.
Proof.
  intros Hs. unfold handle_region_heartbeat.
  apply M_bind_inv; [done|]. intros h s0 [= _ <-] _.
  apply M_bind_inv; [done|]. intros rg s0 [= _ <-] _.
  apply M_bind_inv; [done|]. intros ld s0 [= _ <-] _. cbv zeta. apply M_bind_inv.
  { apply on_cluster_ok; [by apply put_region_ok_run, pok_cluster|by apply put_region_stores_ok, pok_stores|done]. }
  intros [] s1 _ Hs1. apply M_bind_inv; [by apply dispatch_pd_ok|].
  intros [] s2 _ Hs2. rewrite (M_bind_run get _ _ _ _ eq_refl). by case_match.
Qed.

Lemma run_scheduler_ok times sch st : makes_work sch → pd_ok st.1 → pd_ok (run_scheduler times sch st).2.1.
Proof.
  intros Hw Hs. unfold run_scheduler. destruct (is_schedule_allowed _ _); [|done].
  destruct (schedule _ _ _ _ _) as [o g] eqn:E. destruct o as [[op|]| | |]; try done.
  assert (controller_ok (add_operator (hb := simple_streams) (rt_added times) (pd_cluster st.1) [op]
    (pd_operator_controller st.1)).2) as Hc.
  { apply add_operator_ok; [apply Hs|]. constructor; [by eapply Hw|done]. }
  destruct (add_operator _ _ _ _) as [o c]. cbn in *. by destruct Hs.
Qed.

Lemma tick_ok clock st : pd_ok st.1 → pd_ok (coordinator_tick clock st).2.1.
Proof.
  intros Hs. unfold coordinator_tick. rewrite (M_bind_run get _ _ _ _ eq_refl). cbv beta.
  case_match; [done|].
  apply (M_bind_inv (λ st : PdState * rng, pd_ok st.1)); [|done].
  apply (for_each_inv (λ st : PdState * rng, pd_ok st.1)); [|done].
  intros sch st' Hin Hs'. apply run_scheduler_ok; [|done].
  unfold hash_values in Hin. apply list_elem_of_fmap in Hin as ([name sch'] & -> & Hl%elem_of_hash_iter).
  by apply (pok_schedulers _ Hs name).
Qed.

Lemma ask_split_ok request s : pd_ok s → pd_ok (ask_split request s).2.
Proof.
  intros Hs. unfold ask_split. apply M_bind_inv; [done|]. intros rg s0 [= _ <-] _.
  apply M_bind_inv; [by apply alloc_ok|]. intros a s1 _ Hs1.
  by apply M_bind_inv; [apply alloc_ok|].
Qed.

Lemma pd_step_ok s s' : pd_step s s' → pd_ok s → pd_ok s'.
Proof.
  intros [] Hs.
  - unfold bootstrap. rewrite (M_bind_run get _ _ _ _ eq_refl). cbv beta.
    assert (∀ b, pd_ok (mkPdState (pd_config s) (pd_cluster s) (pd_operator_controller s) (pd_coordinator s)
      (pd_counter s) b (pd_store_loads s))) as Hb by (intros b; by destruct Hs).
    apply M_bind_inv; [apply Hb|]. intros [] s1 _ Hs1.
    apply M_bind_inv; [|done]. destruct (pd_is_bootstrapped s); [done|]. by apply put_store_pd_ok.
  - by apply (put_store_pd_ok _ _ Hs).
  - by apply store_heartbeat_ok.
  - by apply region_heartbeat_ok.
  - by apply ask_split_ok.
  - by apply alloc_ok.
  - by apply set_streams_ok.
  - by apply set_streams_ok.
  - destruct Hs as [? ? ? Hsch ? ?]. split; try done. cbn.
    intros name sch' [(<- & <-)|[_ H']]%lookup_insert_Some; [done|by apply Hsch].
  - by destruct Hs.
  - by destruct Hs.
  - by apply tick_ok.
Qed.

Lemma PdState_new_ok config : pd_ok (PdState_new config).
Proof.
  split; cbn.
  - apply cluster_new_ok.
  - intros id s H. done.
  - split; intros id x H; by vm_compute in H.
  - intros name sch H. by vm_compute in H.
  - intros id l H. by vm_compute in H.
  - by vm_compute.
Qed.

Lemma rtc_pd_ok s s' : rtc pd_step s s' → pd_ok s → pd_ok s'.
Proof. induction 1; [done|]. eauto using pd_step_ok. Qed.

(** Tasks that put one region each. *)
Definition putting (reports : list RegionInfo) : gmap nat PutTask := map_seq 0 (PutRead <$> reports).

Lemma putting_lookup reports t x : putting reports !! t = Some x ↔ ∃ r, reports !! t = Some r ∧ x = PutRead r.
Proof.
  unfold putting. rewrite lookup_map_seq_0, list_lookup_fmap, fmap_Some. naive_solver.
Qed.

(** C23: Whatever requests the placement driver has served, one after the other,
    and whatever they reported, its parts fit together: the indices of the
    cluster agree with its regions, every store, region, operator, record, load
    and scheduler is found under its own id, the operators that run have been
    started and have steps left, and so the scheduler's choices are of
    registered, eligible stores.  Reports that come at the same time may
    interleave: as long as no two of them are of one region, the indices agree
    with the regions again once they are done.  (Two reports of one region can
    corrupt them: Cluster.concurrent_put_region_corrupts.) *)
Theorem pd_invariant (config : PdConfig) (s : PdState) :
  rtc pd_step (PdState_new config) s →
  pd_ok s ∧
  (∀ now max_down_time st,
     st ∈ select_target_stores now (get_stores (pd_cluster s)) [StoreStateFilter max_down_time] ↔
     eligible now max_down_time (pd_cluster s) st) ∧
  (∀ reports c ts, NoDup (rgi_id <$> reports) →
     rtc cluster_step (pd_cluster s, putting reports) (c, ts) → (∀ t x, ts !! t = Some x → x = PutDone) →
     cluster_ok c).
Proof.
  intros Hr. assert (pd_ok s) as Hs by (by eapply rtc_pd_ok, PdState_new_ok).
  split; [done|]. split; [intros now d st; by apply elem_of_targets, pok_stores|].
  intros reports c ts Hnd Hrun Hdone. apply (apart_puts_ok (pd_cluster s) (putting reports) c ts); [apply Hs| | |done..].
  - intros t x (r & _ & ->)%putting_lookup. eauto.
  - intros i j r r' (r1 & Hi & [= ->])%putting_lookup (r2 & Hj & [= ->])%putting_lookup E.
    eapply NoDup_lookup; [exact Hnd| |]; rewrite list_lookup_fmap; [by rewrite Hi|]. by rewrite Hj, E.
Qed.

(** *** Ids *)

Lemma alloc_run s :
  0 ≤ pd_counter s → pd_counter s + 1 < 2 ^ 64 →
  alloc s = (Ok (pd_counter s + 1), set_counter (pd_counter s + 1) s).
Proof.
  intros H0 H1. unfold alloc. rewrite (M_bind_run get _ _ _ _ eq_refl). cbv beta.
  rewrite (M_bind_run (modify _) _ _ _ _ eq_refl). cbv beta. rewrite Z.mod_small by lia.
  unfold lift. rewrite u64_add_ok; [done|]. unfold is_u64, u64_max. lia.
Qed.

Lemma ask_split_run request s :
  asq_region request ≠ None → 0 ≤ pd_counter s → pd_counter s + 2 < 2 ^ 64 →
  ask_split request s =
    (Ok (mkAskSplitResponse (Some (response_ok s)) (pd_counter s + 1) [pd_counter s + 2]),
     set_counter (pd_counter s + 2) s).
Proof.
  intros Hr H0 H2. unfold ask_split. destruct (asq_region request) as [rg|]; [|done]. cbn [ok_or].
  rewrite (M_bind_run _ _ _ _ _ (eq_refl : lift (Ok rg) s = (Ok rg, s))). cbv beta.
  rewrite (M_bind_run _ _ _ _ _ (alloc_run s ltac:(lia) ltac:(lia))).
  rewrite (M_bind_run _ _ _ _ _ (alloc_run (set_counter (pd_counter s + 1) s) ltac:(cbn; lia) ltac:(cbn; lia))).
  unfold get, mbind, M_bind, mret, M_ret. cbn. by rewrite <- Z.add_assoc.
Qed.

Lemma ask_split_refused request s : asq_region request = None → ask_split request s = (Err "ask split missing region", s).
Proof. intros E. unfold ask_split. by rewrite E. Qed.

(** Only [ask_split] and [alloc_id] move the counter. *)
Lemma pd_step_counter s s' :
  pd_step s s' → pd_counter s' = pd_counter s ∨ (∃ request, s' = (ask_split request s).2) ∨ s' = (alloc s).2.
Proof.
  intros Hstep. assert (∀ {A B} (m : M PdState A) (f : A → M PdState B) s0 n,
    pd_counter (m s0).2 = n → (∀ a s1, pd_counter s1 = n → pd_counter (f a s1).2 = n) →
    pd_counter ((m ≫= f) s0).2 = n) as Hb.
  { intros A B m f s0 n Hm Hf. apply M_bind_inv; [done|]. intros a s1 _ H1. by apply Hf. }
  destruct Hstep; try (left; done); try (right; eauto; done); left.
  - unfold bootstrap. apply Hb; [done|]. intros s1 s2 H2. apply Hb; [done|]. intros [] s3 H3.
    apply Hb; [by case_match|]. intros [] s4 H4. done.
  - unfold handle_store_heartbeat. apply Hb; [done|]. intros stats s1 H1. apply Hb; [done|]. intros s2 s3 H3.
    apply Hb; [by case_match|]. intros [] s4 H4. done.
  - unfold handle_region_heartbeat. apply Hb; [done|]. intros h s1 H1. apply Hb; [done|]. intros rg s2 H2.
    apply Hb; [done|]. intros ld s3 H3. cbv zeta. apply Hb; [unfold on_cluster; by destruct (put_region _ _)|].
    intros [] s4 H4. apply Hb; [done|]. intros [] s5 H5. apply Hb; [done|]. intros s6 s7 H7. by case_match.
  - unfold coordinator_tick. rewrite (M_bind_run get _ _ _ _ eq_refl). cbv beta. case_match; [done|].
    apply (M_bind_inv (λ st : PdState * rng, pd_counter st.1 = pd_counter s)); [|done].
    apply (for_each_inv (λ st : PdState * rng, pd_counter st.1 = pd_counter s)); [|done].
    intros sch st _ Hst. unfold run_scheduler. repeat case_match; done.
Qed.

Lemma pd_step_counter_bound s s' :
  pd_step s s' → 0 ≤ pd_counter s → pd_counter s + 2 < 2 ^ 64 → pd_counter s ≤ pd_counter s' ≤ pd_counter s + 2.
Proof.
  intros [->|[[request ->]| ->]]%pd_step_counter H0 H2; [lia| |].
  - destruct (decide (asq_region request = None)) as [E|E]; [rewrite ask_split_refused by done; cbn; lia|].
    rewrite ask_split_run by done. cbn. lia.
  - rewrite alloc_run by lia. cbn. lia.
Qed.

(** *** Requests for ids that are served at the same time *)

(** What a task that serves [alloc_id] or [ask_split] has done: the two calls of
    the allocator that [ask_split] makes are two steps. *)
Inductive IdTask :=
| AllocAsked
| AllocAnswered (answer : outcome Z)
| SplitAsked (request : AskSplitRequest)
| SplitHalf (new_region_id : Z)
| SplitAnswered (answer : outcome AskSplitResponse).
Definition id_task_step (t : IdTask) (s : PdState) : IdTask * PdState :=
  match t with
  | AllocAsked => let '(answer, s) := alloc s in (AllocAnswered answer, s)
  | SplitAsked request =>
      let '(o, s) := (_ ← lift (ok_or "ask split missing region" (asq_region request)); alloc) s in
      (match o with Ok new_region_id => SplitHalf new_region_id | o => SplitAnswered (_ ← o; Panic) end, s)
  | SplitHalf new_region_id =>
      let '(o, s) := alloc s in
      (SplitAnswered (new_peer_id ← o; Ok (mkAskSplitResponse (Some (response_ok s)) new_region_id [new_peer_id])), s)
  | AllocAnswered _ | SplitAnswered _ => (t, s)
  end.
(** The ids a task has been given. *)
Definition given (t : IdTask) : list Z :=
  match t with
  | AllocAnswered (Ok id) => [id]
  | SplitHalf new_region_id => [new_region_id]
  | SplitAnswered (Ok r) => asr_new_region_id r :: asr_new_peer_ids r
  | _ => []
  end.

(** A task starts, a task goes on, or another request is served. *)
Inductive ids_step : PdState * gmap nat IdTask → PdState * gmap nat IdTask → Prop :=
| ids_start s ts i t : ts !! i = None → given t = [] → ids_step (s, ts) (s, <[i := t]> ts)
| ids_task s ts i t : ts !! i = Some t → ids_step (s, ts) ((id_task_step t s).2, <[i := (id_task_step t s).1]> ts)
| ids_other s s' ts : pd_step s s' → ids_step (s, ts) (s', ts).

(** A split that is served alone is [ask_split]. *)
Lemma split_alone request s :
  let '(t, s1) := id_task_step (SplitAsked request) s in
  let '(t, s2) := id_task_step t s1 in
  (t, s2) = (SplitAnswered (ask_split request s).1, (ask_split request s).2).
Proof.
  unfold ask_split, id_task_step. destruct (asq_region request) as [rg|]; [|done]. cbn [ok_or].
  rewrite !(M_bind_run (lift (Ok rg)) _ _ _ _ eq_refl). cbv beta.
  unfold mbind, M_bind. destruct (alloc s) as [[a|e| |] s1]; [|done..].
  by destruct (alloc s1) as [[b|e| |] s2].
Qed.

(** [c0] is where the counter started. *)
Record ids_ok (c0 : Z) (s : PdState) (ts : gmap nat IdTask) : Prop := {
  io_task : ∀ i t, ts !! i = Some t → NoDup (given t) ∧ Forall (λ id, c0 < id ≤ pd_counter s) (given t);
  io_apart : ∀ i j t t' id, i ≠ j → ts !! i = Some t → ts !! j = Some t' → id ∈ given t → id ∉ given t';
}.

Lemma ids_ok_frame c0 s s' ts : pd_counter s ≤ pd_counter s' → ids_ok c0 s ts → ids_ok c0 s' ts.
Proof.
  intros Hc [H1 H2]. split; [|done]. intros i t Hi. destruct (H1 i t Hi) as [Hn Hf]. split; [done|].
  eapply Forall_impl; [exact Hf|]. cbn. lia.
Qed.

Lemma ids_ok_insert c0 s s' ts i t t' :
  ids_ok c0 s ts → c0 ≤ pd_counter s ≤ pd_counter s' → given t = [] ∨ ts !! i = Some t →
  (∃ new, given t' = given t ++ new ∧ NoDup new ∧ Forall (λ id, pd_counter s < id ≤ pd_counter s') new) →
  ids_ok c0 s' (<[i := t']> ts).
Proof.
  intros [H1 H2] Hc Ht (new & E & Hnd & Hnew). rewrite Forall_forall in Hnew.
  assert (NoDup (given t) ∧ Forall (λ id, c0 < id ≤ pd_counter s) (given t)) as [Hn Hf].
  { destruct Ht as [Ht|Ht]; [rewrite Ht; split; constructor|by eapply H1]. }
  rewrite Forall_forall in Hf.
  assert (∀ j tj id, i ≠ j → ts !! j = Some tj → id ∈ given t' → id ∉ given tj) as Hap.
  { intros j tj id Hne Hj. rewrite E, elem_of_app. intros [Hin|Hin] Hin'.
    - destruct Ht as [Ht|Ht]; [rewrite Ht in Hin; by apply not_elem_of_nil in Hin|]. by apply (H2 i j t tj id).
    - destruct (H1 j tj Hj) as [_ Hfj]. rewrite Forall_forall in Hfj. apply Hfj in Hin'. apply Hnew in Hin. lia. }
  split.
  - intros j tj [[<- <-]|[Hne Hj]]%lookup_insert_Some.
    + rewrite E. split.
      * apply NoDup_app. split_and!; [done| |done]. intros id ?%Hf ?%Hnew. lia.
      * apply Forall_forall. intros id [?%Hf|?%Hnew]%elem_of_app; lia.
    + destruct (H1 j tj Hj) as [Hnj Hfj]. split; [done|]. eapply Forall_impl; [exact Hfj|]. cbn. lia.
  - intros j1 j2 t1 t2 id Hne [[<- <-]|[Hne1 Hj1]]%lookup_insert_Some [[<- <-]|[Hne2 Hj2]]%lookup_insert_Some Hin.
    + done.
    + by apply (Hap j2).
    + intros Hin2. by apply (Hap j1 t1 id).
    + by apply (H2 j1 j2 t1 t2 id).
Qed.

Lemma ids_ok_step c0 s ts s' ts' :
  ids_step (s, ts) (s', ts') → 0 ≤ c0 ≤ pd_counter s → pd_counter s + 2 < 2 ^ 64 → ids_ok c0 s ts →
  ids_ok c0 s' ts' ∧ pd_counter s ≤ pd_counter s' ≤ pd_counter s + 2.
Proof.
  intros Hstep Hc Hb Hok. inversion Hstep as [s0 ts0 i t Hi Hg|s0 ts0 i t Hi|s0 s1 ts0 Hs]; subst; clear Hstep.
  - split; [|lia]. apply (ids_ok_insert c0 s' s' ts i t t); [done|lia|by left|].
    exists []. rewrite app_nil_r. by repeat constructor.
  - assert (pd_counter s ≤ pd_counter (id_task_step t s).2 ≤ pd_counter s + 1 ∧
      ∃ new, given (id_task_step t s).1 = given t ++ new ∧ NoDup new ∧
        Forall (λ id, pd_counter s < id ≤ pd_counter (id_task_step t s).2) new) as [Hcount Hnew].
    { unfold id_task_step. destruct t as [|answer|request|a|answer].
      - rewrite alloc_run by lia. cbn. split; [lia|]. exists [pd_counter s + 1].
        split; [done|]. split; [apply NoDup_singleton|]. repeat constructor; lia.
      - cbn. split; [lia|]. exists []. rewrite app_nil_r. by repeat constructor.
      - destruct (asq_region request) as [rg|]; cbn [ok_or].
        + rewrite (M_bind_run (lift (Ok rg)) _ _ _ _ eq_refl), alloc_run by lia. cbn. split; [lia|].
          exists [pd_counter s + 1]. split; [done|]. split; [apply NoDup_singleton|]. repeat constructor; lia.
        + change ((lift (Err "ask split missing region") ≫= λ _ : Region, alloc) s) with (@Err Z "ask split missing region", s).
          cbn. split; [lia|]. exists []. by repeat constructor.
      - rewrite alloc_run by lia. cbn. split; [lia|]. exists [pd_counter s + 1].
        split; [done|]. split; [apply NoDup_singleton|]. repeat constructor; lia.
      - cbn. split; [lia|]. exists []. rewrite app_nil_r. by repeat constructor. }
    split; [|lia]. by apply (ids_ok_insert c0 s _ ts i t); [|lia|right|].
  - apply pd_step_counter_bound in Hs as Hs'; [|lia..]. split; [|lia]. by apply (ids_ok_frame c0 s); [lia|].
Qed.

(** C27: No id is given twice.  Any number of tasks may ask for a split or for an
    id at the same time, their calls of the allocator may interleave in any
    order with each other and with all the other requests of the driver: while
    the counter does not reach 2^64, every id given is larger than the counter
    was at the start and no two ids are equal, within the answer of one split
    or between any two answers.  A split that is served alone is [ask_split]. *)
Theorem ask_split_ids_fresh (n : nat) (s0 s : PdState) (ts : gmap nat IdTask) :
  0 ≤ pd_counter s0 → pd_counter s0 + 2 * Z.of_nat n < 2 ^ 64 →
  nsteps ids_step n (s0, ∅) (s, ts) →
  (∀ i t, ts !! i = Some t →
     NoDup (given t) ∧ Forall (λ id, pd_counter s0 < id ≤ pd_counter s) (given t)) ∧
  (∀ i j t t' id, i ≠ j → ts !! i = Some t → ts !! j = Some t' → id ∈ given t → id ∉ given t') ∧
  (∀ request s1,
     let '(t, s2) := id_task_step (SplitAsked request) s1 in
     let '(t, s3) := id_task_step t s2 in
     (t, s3) = (SplitAnswered (ask_split request s1).1, (ask_split request s1).2)).
Proof.
  intros H0 Hn Hrun. enough (ids_ok (pd_counter s0) s ts) as [H1 H2].
  { split; [done|]. split; [done|]. intros request s1. apply split_alone. }
  assert (ids_ok (pd_counter s0) s0 ∅) as Hok by (by split; intros i; rewrite lookup_empty).
  set (c0 := pd_counter s0) in *. assert (c0 ≤ pd_counter s0) as Hc by lia.
  assert (pd_counter s0 + 2 * Z.of_nat n < 2 ^ 64) as Hb by lia. clearbody c0. clear Hn.
  remember (s0, (∅ : gmap nat IdTask)) as st eqn:E. remember (s, ts) as st' eqn:E'.
  revert Hok E. generalize (∅ : gmap nat IdTask). intros ts0 Hok E.
  revert s0 ts0 E Hok Hc Hb. induction Hrun as [st|n st [s1 ts1] st' Hstep _ IH]; intros s0 ts0 -> Hok Hc Hb.
  - by injection E' as -> ->.
  - destruct (ids_ok_step c0 s0 ts0 s1 ts1 Hstep) as [Hok' Hc']; [lia|lia|done|].
    apply (IH E' s1 ts1 eq_refl); [done|lia..].
Qed.

(** *** Lookups *)

Definition holds_key (key : bytes) (r : RegionInfo) : Prop := pd_key_in key r = true.

(** A key is looked up in the regions that hold it: the answer is one of them
    with its leader, there is one exactly when a region holds the key, and it
    does not depend on the order of the map when the regions do not overlap at
    the key.  Nothing changes. *)
Theorem pd_get_region_exact (key : bytes) (s : PdState) :
  let (o, s') := pd_get_region key s in
  s' = s ∧
  (∀ resp, o = Ok resp → ∃ id r, get_region id (pd_cluster s) = Some r ∧ holds_key key r ∧
     grr_region resp = Some (rgi_region r) ∧ grr_leader resp = rgi_leader r) ∧
  ((∃ resp, o = Ok resp) ↔ ∃ id r, get_region id (pd_cluster s) = Some r ∧ holds_key key r) ∧
  (∀ id r, get_region id (pd_cluster s) = Some r → holds_key key r →
     (∀ id' r', get_region id' (pd_cluster s) = Some r' → holds_key key r' → id' = id) →
     o = Ok (region_response s r)).
Proof.
  unfold pd_get_region. rewrite (M_bind_run get _ _ _ _ eq_refl). cbv beta.
  assert (∀ r, r ∈ get_regions (pd_cluster s) ↔ ∃ id, get_region id (pd_cluster s) = Some r) as Hin.
  { intros r. unfold get_regions, hash_values. rewrite list_elem_of_fmap. split.
    - intros ([id r'] & -> & H%elem_of_hash_iter). eauto.
    - intros [id H]. exists (id, r). by rewrite elem_of_hash_iter. }
  destruct (list_find _ _) as [[i r]|] eqn:E; cbn.
  - apply list_find_Some in E as (Hi & Hk & _). apply list_elem_of_lookup_2, Hin in Hi as [id Hid].
    split; [done|]. split; [intros resp [= <-]; by exists id, r|]. split; [split; eauto|].
    intros id' r' Hid' Hk' Huniq. assert (id = id') as -> by (by eapply Huniq). congruence.
  - apply list_find_None in E. rewrite Forall_forall in E.
    assert (¬ ∃ id r, get_region id (pd_cluster s) = Some r ∧ holds_key key r) as Hno.
    { intros (id & r & Hid & Hk). apply (E r); [apply Hin; eauto|done]. }
    split; [done|]. split; [done|]. split; [split; [by intros [? ?]|tauto]|].
    intros id r Hid Hk _. destruct Hno. eauto.
Qed.

(** *** The coordinator *)

(** An operator with at least one step, none done. *)
Lemma new_op_works now desc id epoch kind step steps :
  op_done (Operator_new now desc id epoch kind (step :: steps)) = false.
Proof. done. Qed.

Lemma balance_leader_works d : makes_work (BalanceLeaderScheduler d).
Proof.
  intros now created c g op g'. cbn. unfold balance_leader_schedule. destruct (is_empty _ || _); [done|].
  intros (s & g1 & g2 & _ & H)%first_of_some. apply retry_some in H as (g3 & g4 & H).
  apply M_bind_ok in H as ([region|] & g5 & _ & H); [|done].
  apply M_bind_ok in H as ([target|] & g6 & _ & H); [|done]. by injection H as <- <-.
Qed.

Lemma balance_region_works d : makes_work (BalanceRegionScheduler d).
Proof.
  intros now created c g op g'. cbn. unfold balance_region_schedule. destruct (is_empty _ || _); [done|].
  intros (s & g1 & g2 & _ & H)%first_of_some. apply retry_some in H as (g3 & g4 & H).
  apply first_of_some in H as (choice & g5 & g6 & _ & H).
  apply M_bind_ok in H as ([region|] & g7 & _ & H); [|done].
  apply M_bind_ok in H as ([target|] & g8 & _ & H); [|done].
  apply M_bind_ok in H as (peer & g9 & _ & H). injection H as <- <-.
  unfold op_done. rewrite move_peer_steps. by case_decide.
Qed.

Lemma scale_works s : makes_work (ScaleScheduler_sched s).
Proof.
  intros now created c g op g' ([op'|] & g1 & E & H)%M_bind_ok.
  - injection H as -> <-. apply first_of_some in E as (r & g2 & g3 & _ & H).
    destruct (_ <? _); [|done].
    unfold try_create_add_peer_operator in H. destruct (min_by_key _ _) as [t|]; [|done].
    apply M_bind_ok in H as (peer & g4 & _ & H). by injection H as <- <-.
  - apply first_of_some in H as (r & g2 & g3 & _ & H).
    destruct (_ <? _); [|done]. injection H as H <-.
    unfold try_create_remove_peer_operator in H. destruct (_ <=? _); [done|].
    destruct (sort_by _ _) as [|p l]; [done|]. by injection H as <-.
Qed.

(** What a tick may do to the operators: none is lost or changed, and a new
    one is for a region of the cluster, at its epoch, that had none, and
    has been started. *)
Definition only_adds (cluster : BasicCluster) (s s' : PdState) : Prop :=
  pd_cluster s' = pd_cluster s ∧ pd_coordinator s' = pd_coordinator s ∧
  oc_hb_streams (pd_operator_controller s') = oc_hb_streams (pd_operator_controller s) ∧
  (∀ id op, get_operator (hb := simple_streams) id (pd_operator_controller s) = Some op →
     get_operator (hb := simple_streams) id (pd_operator_controller s') = Some op) ∧
  (∀ id op, get_operator (hb := simple_streams) id (pd_operator_controller s') = Some op →
     get_operator (hb := simple_streams) id (pd_operator_controller s) = Some op ∨
     (op_region_id op = id ∧ is_Some (op_start_time op) ∧
      ∃ region, get_region id cluster = Some region ∧ op_region_epoch op = rgi_epoch region)).

Lemma only_adds_refl s : only_adds (pd_cluster s) s s.
Proof. split_and!; auto. Qed.

Lemma only_adds_trans cluster s1 s2 s3 : only_adds cluster s1 s2 → only_adds cluster s2 s3 → only_adds cluster s1 s3.
Proof.
  intros (C1 & D1 & E1 & F1 & G1) (C2 & D2 & E2 & F2 & G2). split_and!; [congruence..| |].
  - intros id op H. by apply F2, F1.
  - intros id op [H|H]%G2; [by apply G1|by right].
Qed.

Lemma add_one_run now cluster op (c : OperatorController (hb := simple_streams)) :
  ∃ b : bool, add_operator (hb := simple_streams) now cluster [op] c =
    (Ok b, if b then set_operators <[op_region_id op := op_start now op]> c else put_op_record op OsCancel c) ∧
    (b = true ↔ addable cluster (oc_operators c) op).
Proof.
  unfold add_operator. rewrite (M_bind_run get _ _ _ _ eq_refl). cbv beta.
  pose proof (check_add_operator_spec cluster [op] (oc_operators c)) as Hcheck.
  rewrite Forall_singleton in Hcheck. destruct (check_add_operator _ _ _).
  - exists true. split; [|done]. cbn [for_each]. unfold mbind, M_bind.
    by rewrite (add_fresh now op c (proj2 (proj1 Hcheck eq_refl))).
  - exists false. done.
Qed.

Lemma run_scheduler_adds times sch st :
  (∀ now created, is_schedule_allowed sch (pd_cluster st.1) = true → returns (schedule sch now created (pd_cluster st.1))) →
  ∃ st', run_scheduler times sch st = (Ok tt, st') ∧ only_adds (pd_cluster st.1) st.1 st'.1.
Proof.
  intros Hret. unfold run_scheduler. destruct (is_schedule_allowed _ _); [|eexists; split; [done|apply only_adds_refl]].
  destruct (Hret (rt_now times) (rt_created times) eq_refl st.2) as ([op|] & g & ->);
    [|eexists; split; [done|apply only_adds_refl]].
  destruct (add_one_run (rt_added times) (pd_cluster st.1) op (pd_operator_controller st.1)) as (b & -> & Hb).
  eexists. split; [done|]. cbn [fst]. destruct b.
  - destruct (proj1 Hb eq_refl) as [(region & Hr & He) Hno]. split_and!; try done.
    + intros id op0 H. unfold get_operator in *. cbn. rewrite lookup_insert_ne; [done|congruence].
    + intros id op0. unfold get_operator. cbn. intros [(<- & <-)|[_ H]]%lookup_insert_Some; [|by left].
      right. split; [done|]. split; [by eexists|]. exists region. by rewrite He.
  - split_and!; auto.
Qed.

(** A tick of the coordinator does nothing and ends the loop once the
    coordinator is stopped.  Otherwise it returns when the schedulers do,
    never waits for a lock, and leaves the cluster and the operators there
    are alone: it may add operators, each for a region of the cluster that
    had none. *)
Theorem coordinator_tick_exact (clock : string → RunTimes) (s : PdState) (g : rng) :
  (co_running (pd_coordinator s) = false → coordinator_tick clock (s, g) = (Ok None, (s, g))) ∧
  (co_running (pd_coordinator s) = true →
   (∀ name sch now created, co_schedulers (pd_coordinator s) !! name = Some sch →
      is_schedule_allowed sch (pd_cluster s) = true → returns (schedule sch now created (pd_cluster s))) →
   ∃ s' g', coordinator_tick clock (s, g) = (Ok (Some ()), (s', g')) ∧ only_adds (pd_cluster s) s s').
Proof.
  unfold coordinator_tick. rewrite (M_bind_run get _ _ _ _ eq_refl). cbn [fst].
  split; intros ->; [done|]. intros Hret. cbn [negb].
  set (l := hash_values _).
  assert (∀ sch, sch ∈ l → ∃ name, co_schedulers (pd_coordinator s) !! name = Some sch) as Hl.
  { intros sch ([name sch'] & -> & H%elem_of_hash_iter)%list_elem_of_fmap. eauto. }
  clearbody l.
  enough (∀ s0 g0, pd_cluster s0 = pd_cluster s → ∃ s' g',
    for_each l (λ sch, run_scheduler (clock (scheduler_type sch)) sch) (s0, g0) = (Ok tt, (s', g')) ∧
    only_adds (pd_cluster s) s0 s') as Hrun.
  { destruct (Hrun s g eq_refl) as (s' & g' & E & Ha). exists s', g'.
    by rewrite (M_bind_run _ _ _ _ _ E). }
  induction l as [|sch l IH]; intros s0 g0 Hs0.
  { exists s0, g0. split; [done|]. rewrite <- Hs0. apply only_adds_refl. }
  cbn [for_each]. destruct (Hl sch (list_elem_of_here _ _)) as [name Hname].
  destruct (run_scheduler_adds (clock (scheduler_type sch)) sch (s0, g0)) as ([s1 g1] & E & Ha).
  { intros now created. cbn [fst]. rewrite Hs0. by eapply Hret. }
  rewrite (M_bind_run _ _ _ _ _ E). cbn [fst] in Ha. rewrite Hs0 in Ha.
  destruct (IH (λ sch H, Hl sch (list_elem_of_further _ _ _ H)) s1 g1) as (s' & g' & E' & Ha').
  { destruct Ha as (-> & _). done. }
  exists s', g'. split; [done|]. by eapply only_adds_trans.
Qed.
End runs.

(** ** Samples *)

Section samples.
#[local] Existing Instance map_order.
#[local] Existing Instance low_rng.
#[local] Instance checked : BuildProfile := true.

Definition sample_pd : PdState := PdState_new (mkPdConfig 1 ["http://pd"] ["http://pd"]).
Definition with_stores : PdState :=
  foldl (λ s id, (pd_put_store 0 (mkStore id [] 0) s).2) sample_pd [1; 2; 3].
Definition bound_pd : PdState := bind_region_stream 1 50 with_stores.
Definition sample_report : RegionHeartbeatRequest :=
  mkRegionHeartbeatRequest (Some (mkRequestHeader 1 1))
    (Some (mkRegion 7 [] [] (Some (mkRegionEpoch 1 1)) [mkPeer 11 1])) (Some (mkPeer 11 1)) [] 4.
Definition sample_split : AskSplitRequest := mkAskSplitRequest None (hq_region sample_report).
Definition sample_clock (_ : string) : RunTimes := mkTimes (λ _, 5) 5 5.

Lemma bound_pd_reached : rtc pd_step sample_pd bound_pd.
Proof.
  eapply rtc_l; [exact (ps_put_store _ 0 (mkStore 1 [] 0))|].
  eapply rtc_l; [exact (ps_put_store _ 0 (mkStore 2 [] 0))|].
  eapply rtc_l; [exact (ps_put_store _ 0 (mkStore 3 [] 0))|].
  eapply rtc_l; [exact (ps_bind _ 1 50)|]. apply rtc_refl.
Qed.

(** One report of a region with one peer, a scheduler that wants three, one
    tick, and the next report: the leader's store is told to add a peer. *)
Example scale_up_end_to_end :
  let s1 := (handle_region_heartbeat 1 sample_report bound_pd).2 in
  let s2 := pd_start (pd_register (ScaleScheduler_sched (ScaleScheduler_new (secs 600))) s1) in
  let s3 := (coordinator_tick sample_clock (s2, tt)).2.1 in
  let s4 := (handle_region_heartbeat 6 sample_report s3).2 in
  snd <$> shs_sent_messages (oc_hb_streams (pd_operator_controller s4)) =
    [mkRegionHeartbeatResponse None (Some (mkChangePeer (Some (mkPeer 10000 3)) AddNode)) None 7
       (Some (mkRegionEpoch 1 1)) None].
Proof. by vm_compute. Qed.

Lemma handle_region_heartbeat_exact_witness :
  let (o, s') := handle_region_heartbeat 1 sample_report bound_pd in
  o = Ok tt ∧ cluster_ok (pd_cluster s') ∧
  get_region 7 (pd_cluster s') =
    Some (mkRegionInfo (mkRegion 7 [] [] (Some (mkRegionEpoch 1 1)) [mkPeer 11 1]) (Some (mkPeer 11 1)) [] 4).
Proof.
  pose proof (handle_region_heartbeat_exact 1 sample_report bound_pd) as H.
  destruct (handle_region_heartbeat 1 sample_report bound_pd) as [o s'].
  destruct H as [_ H].
  { exact (pok_cluster _ (rtc_pd_ok _ _ bound_pd_reached (PdState_new_ok _))). }
  destruct (H _ _ _ eq_refl eq_refl eq_refl) as (H1 & H2 & _ & _ & _ & H3 & _).
  - intros id r0 [(_ & <-)|(_ & H0)]%lookup_insert_Some; [done|by vm_compute in H0].
  - refine (bool_decide_unpack (map_Forall (λ s st, stats_fit (add_stats _ s (set_stats 0 0 0 0 st)))
      (bc_stores (pd_cluster bound_pd))) _). by vm_compute.
  - split; [apply H3; by vm_compute|]. split; [exact H1|exact H2].
Defined.

(** Two stores report a region each at the same time, and then both are done. *)
Definition region_8 : RegionInfo :=
  mkRegionInfo (mkRegion 8 [] [] (Some (mkRegionEpoch 1 1)) [mkPeer 12 2]) (Some (mkPeer 12 2)) [] 4.
Definition region_9 : RegionInfo :=
  mkRegionInfo (mkRegion 9 [] [] (Some (mkRegionEpoch 1 1)) [mkPeer 13 3]) (Some (mkPeer 13 3)) [] 4.

Lemma two_reports_at_once :
  ∃ c, rtc cluster_step (pd_cluster bound_pd, putting [region_8; region_9])
         (c, <[0%nat := PutDone]> (<[1%nat := PutDone]> (putting [region_8; region_9]))) ∧
    get_region 8 c = Some region_8 ∧ get_region 9 c = Some region_9.
Proof.
  eexists. split.
  - eapply rtc_l; [eapply (step_read _ _ 0%nat); reflexivity|].
    eapply rtc_l; [eapply (step_read _ _ 1%nat); reflexivity|].
    eapply rtc_l; [eapply (step_unindex _ _ 0%nat); reflexivity|].
    eapply rtc_l; [eapply (step_unindex _ _ 1%nat); reflexivity|].
    eapply rtc_l; [eapply (step_index _ _ 1%nat); reflexivity|].
    eapply rtc_l; [eapply (step_index _ _ 0%nat); reflexivity|].
    eapply rtc_l; [eapply (step_stats _ _ 0%nat); [reflexivity|vm_compute; reflexivity]|].
    eapply rtc_l; [eapply (step_stats _ _ 1%nat); [reflexivity|vm_compute; reflexivity]|].
    vm_compute. apply rtc_refl.
  - split; vm_compute; reflexivity.
Qed.

Lemma pd_invariant_witness :
  pd_ok (alloc bound_pd).2 ∧
  ∃ c, cluster_ok c ∧ get_region 8 c = Some region_8 ∧ get_region 9 c = Some region_9.
Proof.
  assert (rtc pd_step sample_pd (alloc bound_pd).2) as Hr.
  { eapply rtc_r; [exact bound_pd_reached|]. apply ps_alloc_id. }
  destruct (pd_invariant (mkPdConfig 1 ["http://pd"] ["http://pd"]) (alloc bound_pd).2 Hr) as (H1 & _ & H3).
  split; [exact H1|]. destruct two_reports_at_once as (c & Hrun & H8 & H9). exists c. split; [|by split].
  refine (H3 [region_8; region_9] c _ _ Hrun _).
  - refine (bool_decide_unpack _ _). by vm_compute.
  - intros t x [[_ <-]|[Hne0 [[_ <-]|[Hne1 Hx]]%lookup_insert_Some]]%lookup_insert_Some; [done..|].
    apply putting_lookup in Hx as (r & Hr' & _). destruct t as [|[|t]]; done.
Defined.

(** Two splits and a request for an id, interleaved. *)
Lemma ask_split_ids_fresh_witness :
  ∃ s (ts : gmap nat IdTask), (given <$> ts !! 0%nat) = Some [1001; 1005] ∧ (given <$> ts !! 1%nat) = Some [1002; 1004] ∧
    (given <$> ts !! 2%nat) = Some [1003] ∧
    (∀ i j t t' id, i ≠ j → ts !! i = Some t → ts !! j = Some t' → id ∈ given t → id ∉ given t') ∧
    ∀ i t, ts !! i = Some t → Forall (λ id, 1000 < id ≤ pd_counter s) (given t).
Proof.
  assert (∃ s (ts : gmap nat IdTask), nsteps ids_step 8 (bound_pd, ∅) (s, ts) ∧
    (given <$> ts !! 0%nat) = Some [1001; 1005] ∧ (given <$> ts !! 1%nat) = Some [1002; 1004] ∧
    (given <$> ts !! 2%nat) = Some [1003]) as (s & ts & Hrun & G0 & G1 & G2).
  { eexists _, _. split.
    - eapply nsteps_l; [apply (ids_start _ _ 0%nat (SplitAsked sample_split)); reflexivity|].
      eapply nsteps_l; [apply (ids_start _ _ 1%nat (SplitAsked sample_split)); reflexivity|].
      eapply nsteps_l; [apply (ids_start _ _ 2%nat AllocAsked); reflexivity|].
      eapply nsteps_l; [apply (ids_task _ _ 0%nat (SplitAsked sample_split)); reflexivity|].
      eapply nsteps_l; [apply (ids_task _ _ 1%nat (SplitAsked sample_split)); reflexivity|].
      eapply nsteps_l; [apply (ids_task _ _ 2%nat AllocAsked); reflexivity|].
      eapply nsteps_l; [apply (ids_task _ _ 1%nat (SplitHalf 1002)); reflexivity|].
      eapply nsteps_l; [apply (ids_task _ _ 0%nat (SplitHalf 1001)); reflexivity|]. apply nsteps_O.
    - split_and!; vm_compute; reflexivity. }
  destruct (ask_split_ids_fresh 8 bound_pd s ts ltac:(by vm_compute) ltac:(by vm_compute) Hrun) as (H1 & H2 & _).
  exists s, ts. split; [exact G0|]. split; [exact G1|]. split; [exact G2|]. split; [exact H2|].
  intros i t Hi. exact (proj2 (H1 i t Hi)).
Defined.

Lemma pd_get_region_exact_witness :
  let s := (handle_region_heartbeat 1 sample_report bound_pd).2 in
  ∃ resp, (pd_get_region [] s).1 = Ok resp.
Proof.
  pose proof (pd_get_region_exact [] (handle_region_heartbeat 1 sample_report bound_pd).2) as H. cbv zeta.
  destruct (pd_get_region _ _) as [o s']. apply H.
  exists 7. eexists. split; by vm_compute.
Defined.
End samples.
