(* ===== verification/Views.v ===== *)
(** The read-only views of the state that two HTTP services serve as JSON:
    src/pd/http.rs on the placement driver and src/server/admin_http.rs on the
    cluster of a store.

    A record is modelled by its fields; routing, JSON and sockets are
    libraries.  The counters of the machine come from the library sysinfo, and
    the views of them take what it answers. *)

From S2P Require Import Prelude Bytes Engine RaftTypes Proto Cluster Operator StoreBalancer OperatorController PdState.

(** ** The records *)

Record ClusterSummary := mkClusterSummary {
  cs_cluster_id : Z; cs_store_count : Z; cs_region_count : Z; cs_leader_count : Z; cs_total_region_size : Z }.

(** The store of the placement driver's view; the one of the store's view stops
    at the sizes. *)
Record ApiStore := mkApiStore {
  av_id : Z; av_address : bytes; av_state : string;
  av_region_count : Z; av_leader_count : Z; av_region_size : Z; av_leader_size : Z }.
Record ApiStoreMetrics := mkApiStoreMetrics {
  am_healthy : bool; am_avg_resp_ms : Z; am_error_count : Z; am_mem_total : Z; am_mem_used : Z;
  am_disk_total : Z; am_disk_used : Z; am_network_state : string }.

Record ApiRegion := mkApiRegion {
  ar_id : Z; ar_start_key : bytes; ar_end_key : bytes; ar_leader_store_id : option Z;
  ar_approximate_size : Z; ar_peer_store_ids : list Z }.

Record OperatorSummary := mkOperatorSummary { os_running : Z; os_pending : Z; os_finished : Z }.

Record StoreLoadView := mkStoreLoadView {
  lv_store_id : Z; lv_region_count : Z; lv_leader_count : Z; lv_region_size : Z; lv_leader_size : Z }.

Record SystemDisk := mkSystemDisk { sd_name : bytes; sd_total : Z; sd_used : Z }.
Record SystemNet := mkSystemNet { sn_rx_bytes : Z; sn_tx_bytes : Z }.

(** ** The views *)

Section views.
Context `{prof : BuildProfile} `{order : HashOrder} `{rand : RandomSource}.

(** [.sum()] of unsigned numbers of 64 bits. *)
Definition sum_u64 {A} (f : A → Z) (l : list A) : outcome Z :=
  foldl (λ acc x, acc ← acc; u64_add acc (f x)) (Ok 0) l.

Definition cluster_summary (cluster_id : Z) (cluster : BasicCluster) : outcome ClusterSummary :=
  let stores := get_stores cluster in
  let regions := get_regions cluster in
  leader_count ← sum_u64 si_leader_count stores;
  total_region_size ← sum_u64 rgi_approximate_size regions;
  Ok (mkClusterSummary cluster_id (Z.of_nat (length stores)) (Z.of_nat (length regions)) leader_count total_region_size).

(** [format!("{:?}", state)] *)
Definition state_name (s : StoreState) : string :=
  match s with Up => "Up" | Offline => "Offline" | Tombstone => "Tombstone" end.
Definition to_store_view (s : StoreInfo) : ApiStore :=
  mkApiStore (si_id s) (st_address (si_meta s)) (state_name (si_state s)) (si_region_count s) (si_leader_count s)
    (si_region_size s) (si_leader_size s).
Definition store_metrics (s : StoreInfo) : ApiStoreMetrics :=
  mkApiStoreMetrics (si_healthy s) (si_avg_resp_ms s) (si_error_count s) (si_mem s).1 (si_mem s).2
    (si_disk s).1 (si_disk s).2 (si_network_state s).
Definition to_region_view (r : RegionInfo) : ApiRegion :=
  mkApiRegion (rgi_id r) (from_utf8_lossy (rg_start_key (rgi_region r))) (from_utf8_lossy (rg_end_key (rgi_region r)))
    (get_leader_store_id r) (rgi_approximate_size r) (pr_store_id <$> rgi_peers r).
Definition to_load_view (l : StoreLoad) : StoreLoadView :=
  mkStoreLoadView (sl_store_id l) (sl_region_count l) (sl_leader_count l) (sl_region_size l) (sl_leader_size l).

Definition admin_list_stores (cluster : BasicCluster) : list ApiStore := to_store_view <$> get_stores cluster.
Definition pd_list_stores (s : PdState) : list (ApiStore * ApiStoreMetrics) :=
  (λ st, (to_store_view st, store_metrics st)) <$> get_stores (pd_cluster s).
Definition list_regions (cluster : BasicCluster) : list ApiRegion := to_region_view <$> get_regions cluster.
Definition list_operators (c : OperatorController (hb := simple_streams)) : OperatorSummary :=
  mkOperatorSummary (running_len c) (pending_len c) (finished_len c).
Definition list_store_loads (loads : list StoreLoad) : list StoreLoadView := to_load_view <$> loads.

Definition pd_cluster_summary (s : PdState) : outcome ClusterSummary :=
  cluster_summary (pc_cluster_id (pd_config s)) (pd_cluster s).
Definition pd_list_operators (s : PdState) : OperatorSummary := list_operators (pd_operator_controller s).
Definition pd_list_store_loads (s : PdState) : list StoreLoadView := list_store_loads (store_loads_snapshot s).

(** The disks, each with its mount point, its size and the space left, and what
    each network has received and sent. *)
Definition saturating_sub (a b : Z) : Z := Z.max 0 (a - b).
Definition saturating_add (a b : Z) : Z := Z.min u64_max (a + b).
Definition disks_view (disks : list (bytes * Z * Z)) : list SystemDisk :=
  omap (λ '(mount_point, total, available),
          if total =? 0 then None
          else Some (mkSystemDisk (from_utf8_lossy mount_point) total (saturating_sub total available))) disks.
Definition net_view (nets : list (Z * Z)) : SystemNet :=
  foldl (λ n '(received, transmitted),
           mkSystemNet (saturating_add (sn_rx_bytes n) received) (saturating_add (sn_tx_bytes n) transmitted))
    (mkSystemNet 0 0) nets.
End views.

(** ** What the summary counts *)

Section facts.
Context `{prof : BuildProfile} `{order : HashOrder} `{rand : RandomSource}.
Implicit Types (c : BasicCluster) (r : RegionInfo).

Lemma u64_add_norm (a x : Z) : 0 ≤ a → 0 ≤ x → (a' ← u64_norm a; u64_add a' x) = u64_norm (a + x).
Proof.
  intros Ha Hx. unfold u64_add, u64_norm, is_u64. destruct (decide (0 ≤ a ≤ u64_max)); [done|].
  rewrite (decide_False (P := 0 ≤ a + x ≤ u64_max)) by lia. destruct overflow_checks; [done|]. cbn.
  case_decide as Hd; f_equal.
  - rewrite <- (Z.mod_small (a mod 2 ^ 64 + x) (2 ^ 64)) by (unfold u64_max in Hd; lia). by rewrite Zplus_mod_idemp_l.
  - by rewrite Zplus_mod_idemp_l.
Qed.

(** A sum ends as its exact value would as a single number: in a build that
    checks, the first addition that overflows panics. *)
Lemma sum_u64_run {A} (f : A → Z) (l : list A) : (∀ x, x ∈ l → 0 ≤ f x) → sum_u64 f l = u64_norm (zsum f l).
Proof.
  intros Hf. unfold sum_u64.
  assert (∀ a, 0 ≤ a → foldl (λ acc x, acc ← acc; u64_add acc (f x)) (u64_norm a) l = u64_norm (a + zsum f l)) as H.
  { induction l as [|x l IH]; intros a Ha; cbn [foldl zsum]; [by rewrite Z.add_0_r|].
    assert (0 ≤ f x) by (apply Hf; left). rewrite u64_add_norm, IH; [by rewrite Z.add_assoc|..]; try lia.
    intros y Hy. apply Hf. by right. }
  specialize (H 0). rewrite Z.add_0_l in H. rewrite <- H by done. done.
Qed.

Lemma zsum_fmap {A B} (g : A → B) (f : B → Z) (l : list A) : zsum f (g <$> l) = zsum (λ x, f (g x)) l.
Proof. induction l; cbn; [done|lia]. Qed.
Lemma zsum_add {A} (f g : A → Z) (l : list A) : zsum (λ x, f x + g x) l = zsum f l + zsum g l.
Proof. induction l; cbn; [done|lia]. Qed.
Lemma zsum_swap {A B} (f : A → B → Z) (l : list A) (l' : list B) :
  zsum (λ x, zsum (f x) l') l = zsum (λ y, zsum (λ x, f x y) l) l'.
Proof.
  induction l as [|x l IH]; cbn; [by induction l'|]. by rewrite IH, <- zsum_add.
Qed.
Lemma zsum_filter {A} (P : A → Prop) `{∀ x, Decision (P x)} (l : list A) :
  zsum (λ x, if decide (P x) then 1 else 0) l = Z.of_nat (length (filter P l)).
Proof. induction l as [|x l IH]; [done|]. cbn [zsum]. rewrite IH, filter_cons. case_decide; cbn [length]; lia. Qed.

Lemma leads_nodup r s (L : list (Z * StoreInfo)) :
  get_leader_store_id r = Some s → NoDup L.*1 →
  zsum (λ p, leads p.1 r) L = if decide (s ∈ L.*1) then 1 else 0.
Proof.
  intros Hl. induction L as [|[k st] L IH]; [done|]. rewrite fmap_cons, NoDup_cons. intros [Hk Hnd].
  cbn [zsum]. rewrite IH by done. unfold leads. rewrite Hl. cbn.
  destruct (decide (s ∈ L.*1)) as [H1|H1], (decide (Some s = Some k)) as [[= ->]|H2].
  - done.
  - rewrite decide_True by (by right). lia.
  - rewrite decide_True by left. lia.
  - rewrite decide_False; [lia|]. intros [->|?]%elem_of_cons; done.
Qed.

(** The region's leader is on a store that is registered. *)
Definition led_by_known c r : Prop :=
  match get_leader_store_id r with Some s => is_Some (bc_stores c !! s) | None => False end.
#[export] Instance led_by_known_dec c r : Decision (led_by_known c r).
Proof. unfold led_by_known. destruct (get_leader_store_id r); apply _. Defined.

Lemma leads_once c r : zsum (λ p, leads p.1 r) (map_to_list (bc_stores c)) = if decide (led_by_known c r) then 1 else 0.
Proof.
  destruct (get_leader_store_id r) as [s|] eqn:E.
  - rewrite (leads_nodup _ s _ E (NoDup_fst_map_to_list _)). apply decide_ext. unfold led_by_known. rewrite E.
    rewrite list_elem_of_fmap. split.
    + intros ([k st] & -> & H%elem_of_map_to_list). cbn. eauto.
    + intros [st H]. exists (s, st). split; [done|]. by apply elem_of_map_to_list.
  - rewrite decide_False by (unfold led_by_known; rewrite E; tauto). induction (map_to_list _) as [|p L IH]; [done|].
    cbn [zsum]. rewrite IH. unfold leads. by rewrite E.
Qed.

(** What the summary says of a cluster whose stores are counted, as every
    completed [put_region] leaves it: the numbers of stores and regions, how
    many of the regions have their leader on a registered store, and the sum
    of the sizes, as a number of 64 bits: FINDING: in a build that checks, a
    request for the summary panics when the sizes add up to more. *)
Theorem cluster_summary_exact id c :
  cluster_ok c → (∀ s st, bc_stores c !! s = Some st → si_leader_count st = get_store_leader_count s c) →
  (∀ i r, bc_regions c !! i = Some r → 0 ≤ rgi_approximate_size r) →
  Z.of_nat (size (bc_regions c)) ≤ u64_max →
  cluster_summary id c =
    (total ← u64_norm (zsum rgi_approximate_size (get_regions c));
     Ok (mkClusterSummary id (Z.of_nat (size (bc_stores c))) (Z.of_nat (size (bc_regions c)))
           (Z.of_nat (length (filter (led_by_known c) (get_regions c)))) total)).
Proof.
  intros Hok Hst Hsz Hfit. unfold cluster_summary.
  assert (length (get_regions c) = size (bc_regions c)) as Hlen.
  { unfold get_regions. by rewrite hash_values_perm, length_fmap, length_map_to_list. }
  assert (length (get_stores c) = size (bc_stores c)) as Hlens.
  { unfold get_stores, hash_values. by rewrite length_fmap, (hash_iter_perm (bc_stores c)), length_map_to_list. }
  assert (zsum si_leader_count (get_stores c) = Z.of_nat (length (filter (led_by_known c) (get_regions c)))) as Hlead.
  { unfold get_stores, hash_values. rewrite (hash_iter_perm (bc_stores c)), zsum_fmap.
    rewrite (zsum_ext _ (λ p, zsum (leads p.1) (map_to_list (bc_regions c)).*2)).
    - rewrite zsum_swap, (zsum_ext _ (λ r, if decide (led_by_known c r) then 1 else 0)) by (intros; apply leads_once).
      unfold get_regions. by rewrite zsum_filter, hash_values_perm.
    - intros [s st] H%elem_of_map_to_list. cbn. by rewrite leader_count_spec, (Hst _ _ H). }
  assert (length (filter (led_by_known c) (get_regions c)) ≤ length (get_regions c))%nat as Hle by apply length_filter.
  rewrite !sum_u64_run, Hlead.
  - rewrite (u64_norm_ok (Z.of_nat _)) by (unfold is_u64; lia). cbn [mbind outcome_bind]. by rewrite Hlen, Hlens.
  - intros st. unfold get_stores, hash_values. rewrite (hash_iter_perm (bc_stores c)).
    intros ([s st'] & -> & H%elem_of_map_to_list)%list_elem_of_fmap. cbn.
    rewrite (Hst _ _ H), <- leader_count_spec by done. apply zsum_nonneg. intros. apply leads_nonneg.
  - intros r. unfold get_regions. rewrite hash_values_perm, elem_of_map_values. intros [i Hi]. by eapply Hsz.
Qed.
End facts.

(** ** A cluster to look at *)

Section samples.
#[local] Existing Instance map_order.
#[local] Existing Instance low_rng.
#[local] Existing Instance checked.

Lemma cluster_summary_exact_witness :
  cluster_summary 9 (put_region on_1_2 three_stores).2 = Ok (mkClusterSummary 9 3 1 1 1).
Proof.
  rewrite cluster_summary_exact.
  - by vm_compute.
  - apply put_region_ok_run, three_stores_ok.
  - refine (bool_decide_unpack (map_Forall (λ s st, si_leader_count st = get_store_leader_count s _)
      (bc_stores (put_region on_1_2 three_stores).2)) _). by vm_compute.
  - refine (bool_decide_unpack (map_Forall (λ _ r, 0 ≤ rgi_approximate_size r)
      (bc_regions (put_region on_1_2 three_stores).2)) _). by vm_compute.
  - by vm_compute.
Defined.
End samples.
