(* ===== verification/FailureDetector.v ===== *)
(** The failure detector: src/raftstore/failure_detector.rs, the health of the
    nodes and the leaders of the regions.

    A definition that reads the clock takes what it read, in nanoseconds.  The
    two loops that tokio runs are modelled by their bodies; what the callbacks
    do is not.  [check_and_switch_leader] awaits several locks one after the
    other: its critical sections are the steps of [switch_step]. *)

From S2P Require Import Prelude RaftTypes.

Inductive NodeStatus := Healthy | Suspect | Failed.
#[export] Instance NodeStatus_eq_dec : EqDecision NodeStatus.
Proof. solve_decision. Defined.

Record NodeHealth := mkHealth {
  nh_status : NodeStatus;
  nh_last_heartbeat : option Z;
  nh_consecutive_failures : Z;
  nh_last_check : Z;
}.

(** [now.duration_since(t)] of [Instant]: zero for a later [t]. *)
Definition duration_since (now t : Z) : Z := Z.max 0 (now - t).
Definition an_hour : Z := 3600 * 10 ^ 9.

Section health.
Context `{prof : BuildProfile}.

Definition NodeHealth_new (now : Z) : NodeHealth := mkHealth Healthy None 0 now.
Definition nh_update_heartbeat (now : Z) (h : NodeHealth) : NodeHealth :=
  mkHealth Healthy (Some now) 0 (nh_last_check h).
Definition u32_add (a b : Z) : outcome Z :=
  if decide (is_u32 (a + b)) then Ok (a + b) else if overflow_checks then Panic else Ok ((a + b) mod 2 ^ 32).
Definition nh_record_failure (now : Z) (h : NodeHealth) : outcome NodeHealth :=
  n ← u32_add (nh_consecutive_failures h) 1;
  Ok (mkHealth (nh_status h) (nh_last_heartbeat h) n now).

Definition time_since_heartbeat (now : Z) (h : NodeHealth) : Z :=
  match nh_last_heartbeat h with Some t => duration_since now t | None => an_hour end.
Definition set_status (s : NodeStatus) (h : NodeHealth) : NodeHealth :=
  mkHealth s (nh_last_heartbeat h) (nh_consecutive_failures h) (nh_last_check h).
(** Whether the node has become [Failed], and its health afterwards. *)
Definition check_health (now heartbeat_timeout failure_threshold : Z) (h : NodeHealth) : bool * NodeHealth :=
  if heartbeat_timeout <? time_since_heartbeat now h then
    let h := if decide (nh_status h = Healthy) then set_status Suspect h else h in
    if failure_threshold <=? nh_consecutive_failures h then
      if decide (nh_status h ≠ Failed) then (true, set_status Failed h) else (false, h)
    else (false, h)
  else (false, h).
End health.

Record FailureDetector := mkDetector {
  fd_nodes : gmap Z NodeHealth;
  fd_heartbeat_timeout : Z;
  fd_failure_threshold : Z;
  fd_check_interval : Z;
}.

Section detector.
Context `{prof : BuildProfile} `{order : HashOrder}.

Definition FailureDetector_new (heartbeat_timeout failure_threshold check_interval : Z) : FailureDetector :=
  mkDetector ∅ heartbeat_timeout failure_threshold check_interval.
Definition set_nodes (nodes : gmap Z NodeHealth) (d : FailureDetector) : FailureDetector :=
  mkDetector nodes (fd_heartbeat_timeout d) (fd_failure_threshold d) (fd_check_interval d).

Definition register_node (now node_id : Z) (d : FailureDetector) : FailureDetector :=
  set_nodes (<[node_id := NodeHealth_new now]> (fd_nodes d)) d.
(** [now] is read for a new entry, [now'] for the heartbeat. *)
Definition fd_update_heartbeat (now now' node_id : Z) (d : FailureDetector) : FailureDetector :=
  set_nodes (<[node_id := nh_update_heartbeat now' (default (NodeHealth_new now) (fd_nodes d !! node_id))]>
    (fd_nodes d)) d.
Definition record_failure (now node_id : Z) : M FailureDetector unit :=
  d ← get;
  match fd_nodes d !! node_id with
  | Some health =>
      health ← lift (nh_record_failure now health);
      modify (λ d, set_nodes (<[node_id := health]> (fd_nodes d)) d)
  | None => mret tt
  end.
Definition get_status (node_id : Z) (d : FailureDetector) : option NodeStatus :=
  nh_status <$> fd_nodes d !! node_id.
(** Also the body of [start_detection_loop]; [now] gives the time at which each
    node is checked. *)
Definition check_all_nodes (now : Z → Z) (d : FailureDetector) : list Z * FailureDetector :=
  let step '(failed, nodes) '(node_id, health) :=
    let '(b, health') := check_health (now node_id) (fd_heartbeat_timeout d) (fd_failure_threshold d) health in
    (if b : bool then failed ++ [node_id] else failed, <[node_id := health']> nodes) in
  let '(failed, nodes) := foldl step ([], fd_nodes d) (hash_iter (fd_nodes d)) in
  (failed, set_nodes nodes d).
Definition remove_node (node_id : Z) (d : FailureDetector) : FailureDetector :=
  set_nodes (delete node_id (fd_nodes d)) d.
Definition nodes_with (s : NodeStatus) (d : FailureDetector) : list Z :=
  fst <$> base.filter (λ p, nh_status p.2 = s) (hash_iter (fd_nodes d)).
Definition get_failed_nodes : FailureDetector → list Z := nodes_with Failed.
Definition get_suspect_nodes : FailureDetector → list Z := nodes_with Suspect.

(** ** LeaderSwitchManager *)

(** Its state besides the detector. *)
Definition LeaderSwitchManager := gmap Z Z.
Definition LeaderSwitchManager_new : LeaderSwitchManager := ∅.
Definition sw_set_leader (region_id leader_id : Z) (m : LeaderSwitchManager) : LeaderSwitchManager :=
  <[region_id := leader_id]> m.
Definition sw_get_leader (region_id : Z) (m : LeaderSwitchManager) : option Z := m !! region_id.

(** What [check_and_switch_leader] has left to do. *)
Inductive SwitchTask :=
| SwGet
| SwStatus (leader_id : Z)
| SwRemove
| SwGetAgain
| SwDone (answer : option Z).
Definition switch_step (d : FailureDetector) (region_id : Z) (t : SwitchTask) (m : LeaderSwitchManager) :
    SwitchTask * LeaderSwitchManager :=
  match t with
  | SwGet => (match sw_get_leader region_id m with Some leader_id => SwStatus leader_id | None => SwGetAgain end, m)
  | SwStatus leader_id => (if decide (get_status leader_id d = Some Failed) then SwRemove else SwGetAgain, m)
  | SwRemove => (SwDone None, delete region_id m)
  | SwGetAgain => (SwDone (sw_get_leader region_id m), m)
  | SwDone answer => (SwDone answer, m)
  end.
(** Alone, it takes three steps. *)
Definition check_and_switch_leader (d : FailureDetector) (region_id : Z) (m : LeaderSwitchManager) :
    SwitchTask * LeaderSwitchManager :=
  let '(t, m) := switch_step d region_id SwGet m in
  let '(t, m) := switch_step d region_id t m in
  switch_step d region_id t m.

(** The body of [start_monitoring]: the calls of [on_leader_failure]. *)
Definition leader_failures (d : FailureDetector) (m : LeaderSwitchManager) : list (Z * Z) :=
  let failed_nodes := get_failed_nodes d in
  base.filter (λ p, p.2 ∈ failed_nodes) (hash_iter m).
End detector.

(** ** What the health of a node says *)

Section history.
Context `{prof : BuildProfile} `{order : HashOrder} (timeout threshold : Z).

(** What happens to a registered node, with the time. *)
Inductive NodeEvent := EvHeartbeat (now : Z) | EvFailure (now : Z) | EvCheck (now : Z).

(** The health after an event, and whether the failure of the node is
    announced. *)
Definition node_event (h : NodeHealth) (e : NodeEvent) : outcome (bool * NodeHealth) :=
  match e with
  | EvHeartbeat now => Ok (false, nh_update_heartbeat now h)
  | EvFailure now => h ← nh_record_failure now h; Ok (false, h)
  | EvCheck now => Ok (check_health now timeout threshold h)
  end.
(** The health after a history, newest event first, and how often the failure
    of the node was announced. *)
Fixpoint node_run (t0 : Z) (history : list NodeEvent) : outcome (nat * NodeHealth) :=
  match history with
  | [] => Ok (O, NodeHealth_new t0)
  | e :: history =>
      '(n, h) ← node_run t0 history;
      '(b, h) ← node_event h e;
      Ok (if b : bool then S n else n, h)
  end.

(** Read off the history: when the last heartbeat was, the failures since,
    whether a check since then was late, and whether one was late with enough
    failures; and how many periods between heartbeats had such a check. *)
Fixpoint last_heartbeat (history : list NodeEvent) : option Z :=
  match history with
  | [] => None
  | EvHeartbeat now :: _ => Some now
  | _ :: history => last_heartbeat history
  end.
Fixpoint failures (history : list NodeEvent) : Z :=
  match history with
  | [] | EvHeartbeat _ :: _ => 0
  | EvFailure _ :: history => failures history + 1
  | EvCheck _ :: history => failures history
  end.
Definition late (now : Z) (history : list NodeEvent) : bool :=
  timeout <? match last_heartbeat history with Some t => duration_since now t | None => an_hour end.
Fixpoint late_check (history : list NodeEvent) : bool :=
  match history with
  | [] | EvHeartbeat _ :: _ => false
  | EvFailure _ :: history => late_check history
  | EvCheck now :: history => late now history || late_check history
  end.
Fixpoint fatal_check (history : list NodeEvent) : bool :=
  match history with
  | [] | EvHeartbeat _ :: _ => false
  | EvFailure _ :: history => fatal_check history
  | EvCheck now :: history => (late now history && (threshold <=? failures history)) || fatal_check history
  end.
Fixpoint fatal_periods (history : list NodeEvent) : nat :=
  match history with
  | [] => 0
  | EvHeartbeat _ :: history | EvFailure _ :: history => fatal_periods history
  | EvCheck now :: history =>
      (if late now history && (threshold <=? failures history) && negb (fatal_check history) then 1 else 0)
      + fatal_periods history
  end.

(** What the health of a node is, by its history. *)
Definition status_of (history : list NodeEvent) : NodeStatus :=
  if fatal_check history then Failed else if late_check history then Suspect else Healthy.

Lemma fatal_late history : fatal_check history = true → late_check history = true.
Proof. induction history as [|[] ? IH]; cbn; [done..|]. rewrite !orb_true_iff, !andb_true_iff. tauto. Qed.

Lemma failures_nonneg history : 0 ≤ failures history.
Proof. induction history as [|[] ? IH]; cbn; lia. Qed.

(** C40: The status of a node is what its history says.  As long as its failures
    are fewer than 2^32 no event panics, and then: it is failed exactly when,
    since its last heartbeat, a check came later than the timeout with as many
    failures as the threshold before it; else it is suspect exactly when a
    check since the last heartbeat came later than the timeout; else it is
    healthy.  Its failure is announced once in each period between heartbeats
    in which it fails.  A node without a heartbeat counts as silent for an
    hour. *)
Theorem node_status_exact (t0 : Z) (history : list NodeEvent) :
  Z.of_nat (length history) < 2 ^ 32 →
  ∃ h, node_run t0 history = Ok (fatal_periods history, h) ∧
    nh_status h = status_of history ∧ nh_last_heartbeat h = last_heartbeat history ∧
    nh_consecutive_failures h = failures history.
Proof.
  induction history as [|e history IH]; intros Hlen; cbn [node_run].
  { by eexists. }
  cbn [length] in Hlen. destruct IH as (h & -> & Hs & Hl & Hf); [lia|]. cbn [mbind outcome_bind].
  assert (failures history ≤ Z.of_nat (length history)) as Hb
    by (clear; induction history as [|[] ? IH]; cbn [failures length]; lia).
  pose proof (failures_nonneg history) as H0.
  destruct e as [now|now|now]; cbn [node_event].
  - by eexists.
  - unfold nh_record_failure, u32_add. rewrite Hf, decide_True by (unfold is_u32, u32_max; lia). by eexists.
  - unfold check_health, time_since_heartbeat. rewrite Hl. fold (late now history). unfold status_of in *.
    cbn [fatal_check late_check fatal_periods last_heartbeat failures]. pose proof (fatal_late history) as Hfl.
    destruct (late now history); cbn [andb orb]; [|by eexists].
    destruct (decide (nh_status h = Healthy)) as [Eh|Eh]; cbn [set_status nh_consecutive_failures nh_status]; rewrite Hf.
    + assert (fatal_check history = false) as -> by (destruct (fatal_check history); [congruence|done]).
      destruct (threshold <=? failures history); cbn; by eexists.
    + destruct (threshold <=? failures history); cbn.
      * destruct (decide (nh_status h ≠ Failed)) as [En|En].
        -- assert (fatal_check history = false) as -> by (destruct (fatal_check history); [congruence|done]).
           cbn. by eexists.
        -- apply dec_stable in En. destruct (fatal_check history); [by eexists|].
           destruct (late_check history); congruence.
      * eexists. split; [done|]. split; [|done]. rewrite Hs. destruct (fatal_check history); [done|].
        destruct (late_check history); [done|congruence].
Qed.
End history.

(** ** The detector and the leaders *)

Section detector_facts.
Context `{prof : BuildProfile} `{order : HashOrder}.

Definition checked_health (now : Z → Z) (d : FailureDetector) (id : Z) (h : NodeHealth) : bool * NodeHealth :=
  check_health (now id) (fd_heartbeat_timeout d) (fd_failure_threshold d) h.

Definition check_node (now : Z → Z) (d : FailureDetector) (acc : list Z * gmap Z NodeHealth) (p : Z * NodeHealth) :
    list Z * gmap Z NodeHealth :=
  (if (checked_health now d p.1 p.2).1 then acc.1 ++ [p.1] else acc.1,
   <[p.1 := (checked_health now d p.1 p.2).2]> acc.2).

Lemma check_all_nodes_fold now d :
  check_all_nodes now d =
  ((foldl (check_node now d) ([], fd_nodes d) (hash_iter (fd_nodes d))).1,
   set_nodes (foldl (check_node now d) ([], fd_nodes d) (hash_iter (fd_nodes d))).2 d).
Proof.
  unfold check_all_nodes. generalize (hash_iter (fd_nodes d)) as l. generalize ([] : list Z, fd_nodes d) as acc.
  intros acc l. assert (∀ acc, foldl (λ '(failed, nodes) '(node_id, health),
    let '(b, health') := check_health (now node_id) (fd_heartbeat_timeout d) (fd_failure_threshold d) health in
    (if b : bool then failed ++ [node_id] else failed, <[node_id := health']> nodes)) acc l =
    foldl (check_node now d) acc l) as ->.
  { induction l as [|[id h] l IH]; intros [failed nodes]; [done|]. cbn [foldl]. rewrite <- IH. f_equal.
    unfold check_node, checked_health. cbn. by destruct (check_health _ _ _ h). }
  by destruct (foldl _ _ _).
Qed.

Lemma check_nodes_run now d l acc :
  NoDup l.*1 →
  (foldl (check_node now d) acc l).1 =
    acc.1 ++ (fst <$> base.filter (λ p, (checked_health now d p.1 p.2).1 = true) l) ∧
  ∀ id, (foldl (check_node now d) acc l).2 !! id =
    match list_find (λ p, p.1 = id) l with
    | Some (_, p) => Some (checked_health now d id p.2).2
    | None => acc.2 !! id
    end.
Proof.
  revert acc. induction l as [|[i h] l IH]; intros acc; cbn [foldl fmap list_fmap fst].
  { intros _. by rewrite app_nil_r. }
  rewrite NoDup_cons. intros [Hi Hn]. destruct (IH (check_node now d acc (i, h)) Hn) as [-> H2]. split.
  - unfold check_node. rewrite filter_cons. cbn [fst snd].
    destruct (checked_health now d i h) as [[] h']; cbn [fst]; [|done].
    by rewrite decide_True, fmap_cons, <- app_assoc by done.
  - intros id. rewrite H2. cbn [list_find fst]. destruct (decide (i = id)) as [->|Hne].
    + destruct (list_find _ l) as [[j p]|] eqn:E.
      * apply list_find_Some in E as (Hj & Hp & _). destruct Hi. rewrite <- Hp.
        apply list_elem_of_fmap_2. by eapply list_elem_of_lookup_2.
      * unfold check_node. cbn. apply lookup_insert_eq.
    + destruct (list_find _ l) as [[j p]|]; [done|]. unfold check_node. cbn. by apply lookup_insert_ne.
Qed.

(** A check of all nodes checks each of them once, whatever the order of the
    map, and leaves no node out; it answers, once each, the nodes whose failure
    it announces. *)
Theorem check_all_nodes_exact (now : Z → Z) (d : FailureDetector) :
  let (failed, d') := check_all_nodes now d in
  (∀ id, fd_nodes d' !! id = (λ h, (checked_health now d id h).2) <$> fd_nodes d !! id) ∧
  (∀ id, id ∈ failed ↔ ∃ h, fd_nodes d !! id = Some h ∧ (checked_health now d id h).1 = true) ∧ NoDup failed.
Proof.
  rewrite check_all_nodes_fold.
  assert (NoDup (hash_iter (fd_nodes d)).*1) as Hn by exact (NoDup_hash_keys (fd_nodes d)).
  destruct (check_nodes_run now d (hash_iter (fd_nodes d)) ([], fd_nodes d) Hn) as [-> H2]. split_and!.
  - intros id. cbn [fd_nodes set_nodes]. rewrite H2. destruct (list_find _ _) as [[j p]|] eqn:E.
    + apply list_find_Some in E as (Hj & <- & _). apply list_elem_of_lookup_2 in Hj.
      destruct p as [id h]. apply elem_of_hash_iter in Hj. cbn. by rewrite Hj.
    + apply list_find_None in E. cbn. destruct (fd_nodes d !! id) as [h|] eqn:Eh; [|done].
      apply elem_of_hash_iter in Eh. rewrite Forall_forall in E. by destruct (E (id, h) Eh).
  - intros id. cbn. rewrite list_elem_of_fmap. setoid_rewrite list_elem_of_filter. split.
    + intros ([i h] & -> & Hb & Hin%elem_of_hash_iter). by exists h.
    + intros (h & Hin & Hb). exists (id, h). by rewrite elem_of_hash_iter.
  - cbn. eapply sublist_NoDup; [exact Hn|]. apply fmap_sublist, sublist_filter.
Qed.

(** Run alone, the switch answers nothing and forgets the leader exactly when
    the leader it knows is failed, and otherwise answers the leader it
    knows. *)
Theorem check_and_switch_leader_exact (d : FailureDetector) (region_id : Z) (m : LeaderSwitchManager) :
  let failed := ∃ leader_id, sw_get_leader region_id m = Some leader_id ∧ get_status leader_id d = Some Failed in
  (failed → check_and_switch_leader d region_id m = (SwDone None, delete region_id m)) ∧
  (¬ failed → check_and_switch_leader d region_id m = (SwDone (sw_get_leader region_id m), m)).
Proof.
  cbv zeta. unfold check_and_switch_leader, switch_step. split.
  - intros (leader_id & -> & Hf). by rewrite decide_True.
  - intros Hno. destruct (sw_get_leader region_id m) as [leader_id|] eqn:E; [|by rewrite ?E].
    rewrite decide_False; [by rewrite ?E|]. intros Hf. apply Hno. eauto.
Qed.

(** FINDING: a leader that is set while a failed one is being replaced is
    forgotten: the entry is removed without looking at it again. *)
Theorem new_leader_forgotten (d : FailureDetector) (region_id old new : Z) (m : LeaderSwitchManager) :
  sw_get_leader region_id m = Some old → get_status old d = Some Failed →
  let '(t, m) := switch_step d region_id SwGet m in
  let '(t, m) := switch_step d region_id t m in
  let m := sw_set_leader region_id new m in
  let '(t, m) := switch_step d region_id t m in
  t = SwDone None ∧ sw_get_leader region_id m = None.
Proof.
  intros Ho Hf. unfold switch_step. rewrite Ho, decide_True by done. split; [done|].
  unfold sw_get_leader, sw_set_leader. apply lookup_delete_eq.
Qed.
End detector_facts.

(** ** Samples *)

Section samples.
#[local] Existing Instance map_order.
#[local] Instance checked : BuildProfile := true.

(** A timeout of 100 and a threshold of 2; newest event first. *)
Definition sample_history : list NodeEvent :=
  [EvCheck 400; EvCheck 350; EvFailure 300; EvFailure 250; EvCheck 200; EvHeartbeat 50].

Lemma node_status_exact_witness :
  ∃ h, node_run 100 2 0 sample_history = Ok (1%nat, h) ∧ nh_status h = Failed.
Proof.
  destruct (node_status_exact 100 2 0 sample_history) as (h & E & Hs & _); [done|].
  exists h. split; [exact E|exact Hs].
Defined.

Definition one_failed : FailureDetector :=
  mkDetector {[7 := mkHealth Failed None 2 0]} 100 2 10.

Lemma new_leader_forgotten_witness : get_status 7 one_failed = Some Failed ∧
  let '(t, m) := switch_step one_failed 1 SwGet {[1 := 7]} in
  let '(t, m) := switch_step one_failed 1 t m in
  let '(t, m) := switch_step one_failed 1 t (sw_set_leader 1 8 m) in
  t = SwDone None ∧ sw_get_leader 1 m = None.
Proof. split; [done|]. exact (new_leader_forgotten one_failed 1 7 8 {[1 := 7]} eq_refl eq_refl). Defined.
End samples.
