(* ===== verification/PeerStorage.v ===== *)
(** What a region keeps on disk: the keys and records of
    src/raftstore/meta/keys.rs and values.rs, the two databases of
    src/engine_util/engines.rs, and src/raftstore/peer_storage.rs, which the
    Raft state machine reads its log from.

    The records are serialised by bincode, the region in one of them by prost:
    a class of functions with the law that a value read back is the one
    written.  The hard state of a record is copied field by field from that
    of src/raft/types.rs and is the same record here. *)

From S2P Require Import Prelude Bytes Records Engine RaftTypes RaftLog Proto.

(** ** src/raftstore/meta/keys.rs *)

Definition REGION_META_PREFIX : byte := Byte.x01.
Definition RAFT_STATE_PREFIX : byte := Byte.x02.
Definition RAFT_LOG_PREFIX : byte := Byte.x03.
Definition APPLY_STATE_PREFIX : byte := Byte.x04.
Definition REGION_STATE_SUFFIX : byte := Byte.x01.

Definition region_state_key (region_id : Z) : bytes :=
  REGION_META_PREFIX :: u64_to_be_bytes region_id ++ [REGION_STATE_SUFFIX].
Definition decode_region_meta_key (key : bytes) : outcome (Z * byte) :=
  match key with
  | p :: rest =>
      if decide ((length key < 10)%nat ∨ p ≠ REGION_META_PREFIX) then Err "invalid region meta key"
      else match rest !! 8%nat with
           | Some suffix => Ok (from_be (take 8 rest), suffix)
           | None => Panic
           end
  | [] => Err "invalid region meta key"
  end.
Definition raft_state_key (region_id : Z) : bytes := RAFT_STATE_PREFIX :: u64_to_be_bytes region_id.
Definition raft_log_key (region_id index : Z) : bytes :=
  RAFT_LOG_PREFIX :: u64_to_be_bytes region_id ++ u64_to_be_bytes index.
Definition apply_state_key (region_id : Z) : bytes := APPLY_STATE_PREFIX :: u64_to_be_bytes region_id.

(** ** src/raftstore/meta/values.rs *)

Inductive PeerState := PsNormal | PsTombstone.
#[export] Instance PeerState_eq_dec : EqDecision PeerState.
Proof. solve_decision. Defined.
Record RegionLocalState := mkRegionLocalState { rls_state : PeerState; rls_region_bytes : bytes }.
Record RaftLocalState := mkRaftLocalState {
  rfs_hard_state : HardState; rfs_last_index : Z; rfs_last_term : Z }.
Record RaftTruncatedState := mkTruncated { ts_index : Z; ts_term : Z }.
Record RaftApplyState := mkApplyState { as_applied_index : Z; as_truncated_state : RaftTruncatedState }.

(** [bincode::serialize] and [deserialize], [prost]'s [encode] and [decode]. *)
Class Serde (T : Type) := {
  serialize : T → outcome bytes;
  deserialize : bytes → outcome T;
}.
Class SerdeLaws `(serde : Serde T) := {
  serialize_ok x : ∃ b, serialize x = Ok b ∧ deserialize b = Ok x;
}.

(** The device does not fail. *)
Class RocksDBReliable `(laws : RocksDBLaws) := {
  db_get_ok d k : db_get d k = Ok (db_view d !! k);
  db_write_ok d ops : ∃ d', db_write d ops = Ok d';
}.

Section values.
Context `{rocks : RocksDB} `{region_serde : Serde Region} `{region_state_serde : Serde RegionLocalState}
  `{raft_state_serde : Serde RaftLocalState} `{apply_state_serde : Serde RaftApplyState}
  `{entry_serde : Serde Entry}.

(** *** src/engine_util/engines.rs: the databases; files and options left out *)

Record Engines := mkEngines { en_kv : db; en_raft : option db }.
Definition write_kv (wb : WriteBatch) : M Engines unit :=
  e ← get;
  d ← lift (write_to_db wb (en_kv e));
  modify (λ e, mkEngines d (en_raft e)).
Definition write_raft (wb : WriteBatch) : M Engines unit :=
  e ← get;
  match en_raft e with
  | Some raft => d ← lift (write_to_db wb raft); modify (λ e, mkEngines (en_kv e) (Some d))
  | None => mret tt
  end.
Definition raft_write (ops : list BatchOp) : M Engines unit :=
  e ← get;
  match en_raft e with
  | Some raft => d ← lift (db_write raft ops); modify (λ e, mkEngines (en_kv e) (Some d))
  | None => mret tt
  end.

(** The value under a key, parsed. *)
Definition read_value {T} `{Serde T} (value : outcome (option bytes)) : outcome (option T) :=
  v ← value;
  match v with Some v => x ← deserialize v; Ok (Some x) | None => Ok None end.
Definition read_raft_value {T} `{Serde T} (e : Engines) (key : bytes) : outcome (option T) :=
  match en_raft e with Some raft => read_value (db_get raft key) | None => Ok None end.

Definition write_region_state (region : Region) (state : PeerState) (wb : WriteBatch) : outcome WriteBatch :=
  buf ← serialize region;
  value ← serialize (mkRegionLocalState state buf);
  Ok (set_cf "" (region_state_key (rg_id region)) value wb).
Definition get_region_local_state (region_id : Z) (e : Engines) : outcome (option RegionLocalState) :=
  read_value (get_cf (en_kv e) "" (region_state_key region_id)).
Definition get_raft_local_state (region_id : Z) (e : Engines) : outcome (option RaftLocalState) :=
  read_raft_value e (raft_state_key region_id).
Definition get_apply_state (region_id : Z) (e : Engines) : outcome (option RaftApplyState) :=
  read_value (get_cf (en_kv e) "" (apply_state_key region_id)).
Definition write_raft_state (region_id : Z) (state : RaftLocalState) : M Engines unit :=
  value ← lift (serialize state);
  raft_write [BPut (raft_state_key region_id) value].
Definition write_apply_state (region_id : Z) (state : RaftApplyState) (wb : WriteBatch) : outcome WriteBatch :=
  value ← serialize state;
  Ok (set_cf "" (apply_state_key region_id) value wb).

Definition write_raft_log (region_id : Z) (entries : list Entry) : M Engines unit :=
  e ← get;
  match en_raft e with
  | Some _ =>
      for_each entries (λ entry,
        value ← lift (serialize entry);
        raft_write [BPut (raft_log_key region_id (e_index entry)) value])
  | None => mret tt
  end.
(** The loop over [lo..hi], which has [n] indices left. *)
Fixpoint read_log_loop (raft : db) (region_id : Z) (n : nat) (index : Z) : outcome (list Entry) :=
  match n with
  | O => Ok []
  | S n' =>
      entry ← read_value (db_get raft (raft_log_key region_id index));
      match entry with
      | Some entry => rest ← read_log_loop raft region_id n' (index + 1); Ok (entry :: rest)
      | None => Ok []
      end
  end.
Definition read_raft_log (region_id lo hi : Z) (e : Engines) : outcome (list Entry) :=
  if hi <=? lo then Ok []
  else match en_raft e with
       | Some raft => read_log_loop raft region_id (Z.to_nat (hi - lo)) lo
       | None => Ok []
       end.
Definition read_raft_log_entry (region_id index : Z) (e : Engines) : outcome (option Entry) :=
  read_raft_value e (raft_log_key region_id index).
Definition delete_raft_log (region_id lo hi : Z) : M Engines unit :=
  if hi <=? lo then mret tt
  else raft_write ((λ i, BDelete (raft_log_key region_id i)) <$> seqZ lo (hi - lo)).

(** ** src/raftstore/peer_storage.rs *)

Context `{prof : BuildProfile}.

(** The region is behind a lock of its own, the engines are shared. *)
Record PeerStorage := mkPeerStorage { ps_engines : Engines; ps_region : Region }.
Definition ps_set_region (region : Region) (s : PeerStorage) : PeerStorage := mkPeerStorage (ps_engines s) region.

Definition ps_apply_state (s : PeerStorage) : outcome (option RaftApplyState) :=
  get_apply_state (rg_id (ps_region s)) (ps_engines s).
(** [if let Ok(Some(state)) = get_apply_state(..) { f(state) } else { 0 }] *)
Definition from_apply_state (f : RaftApplyState → Z) (s : PeerStorage) : Z :=
  match ps_apply_state s with Ok (Some state) => f state | _ => 0 end.
Definition applied_index : PeerStorage → Z := from_apply_state as_applied_index.
Definition truncated_index : PeerStorage → Z := from_apply_state (λ a, ts_index (as_truncated_state a)).
Definition truncated_term : PeerStorage → Z := from_apply_state (λ a, ts_term (as_truncated_state a)).
Definition is_initialized (s : PeerStorage) : bool := 0 <? applied_index s.

Definition ps_conf_state (s : PeerStorage) : ConfState := mkConfState (pr_id <$> rg_peers (ps_region s)).
Definition ps_raft_state (s : PeerStorage) : outcome (option RaftLocalState) :=
  get_raft_local_state (rg_id (ps_region s)) (ps_engines s).
Definition ps_initial_state (s : PeerStorage) : outcome (HardState * ConfState) :=
  raft_state ← ps_raft_state s;
  Ok (match raft_state with Some r => rfs_hard_state r | None => mkHardState 0 0 0 end, ps_conf_state s).
Definition ps_entries (lo hi : Z) (s : PeerStorage) : outcome (list Entry) :=
  read_raft_log (rg_id (ps_region s)) lo hi (ps_engines s).

Definition term_from_log (index : Z) (s : PeerStorage) : outcome Z :=
  entry ← read_raft_log_entry (rg_id (ps_region s)) index (ps_engines s);
  match entry with
  | Some entry => Ok (e_term entry)
  | None =>
      raft_state ← ps_raft_state s;
      match raft_state with
      | Some r => if index =? rfs_last_index r then Ok (rfs_last_term r) else Err "entry not found"
      | None => Err "entry not found"
      end
  end.
Definition ps_term (index : Z) (s : PeerStorage) : outcome Z :=
  if index =? 0 then Ok 0
  else match ps_apply_state s with
       | Ok (Some a) =>
           if index <? ts_index (as_truncated_state a) then Err "entry before truncated index"
           else if index =? ts_index (as_truncated_state a) then Ok (ts_term (as_truncated_state a))
           else term_from_log index s
       | Ok None | Err _ => term_from_log index s
       | Panic => Panic
       | Diverge => Diverge
       end.
Definition ps_last_index (s : PeerStorage) : outcome Z :=
  raft_state ← ps_raft_state s;
  match raft_state with Some r => Ok (rfs_last_index r) | None => Ok (applied_index s) end.
Definition ps_first_index (s : PeerStorage) : outcome Z := u64_add (truncated_index s) 1.
Definition ps_snapshot (s : PeerStorage) : outcome Snapshot :=
  Ok (mkSnapshot [] (mkSnapshotMetadata (ps_conf_state s) (applied_index s) (truncated_term s))).

(** The storage the state machine gets. *)
Definition ps_storage (s : PeerStorage) : RStorage :=
  mkRStorage (ps_initial_state s) (λ lo hi, ps_entries lo hi s) (λ i, ps_term i s)
    (ps_last_index s) (ps_first_index s) (ps_snapshot s).
End values.

(** ** Keys *)

Lemma u64_bytes_inj a b : is_u64 a → is_u64 b → u64_to_be_bytes a = u64_to_be_bytes b → a = b.
Proof. intros Ha Hb E. by rewrite <- (from_be_u64 a), <- (from_be_u64 b), E. Qed.

(** The key of a region's state is decoded to its id, and no other key of nine
    or more bytes behind the prefix is decoded to something else. *)
Lemma decode_region_state_key id : is_u64 id → decode_region_meta_key (region_state_key id) = Ok (id, REGION_STATE_SUFFIX).
Proof.
  intros Hid. unfold decode_region_meta_key, region_state_key.
  rewrite decide_False by (cbn [length]; rewrite length_app, length_u64_bytes; cbn; intros [?|?]; [lia|done]).
  rewrite lookup_app_r by (rewrite length_u64_bytes; lia). rewrite length_u64_bytes. cbn [lookup list_lookup Nat.sub].
  rewrite take_app_le, take_ge by (rewrite length_u64_bytes; lia). by rewrite from_be_u64.
Qed.

Lemma raft_log_key_inj id i id' i' :
  is_u64 id → is_u64 i → is_u64 id' → is_u64 i' → raft_log_key id i = raft_log_key id' i' → id = id' ∧ i = i'.
Proof.
  intros ???? E. apply (f_equal tail) in E. unfold raft_log_key in E. cbn [tail] in E. apply app_inj_1 in E as [E1 E2]; [|by rewrite !length_u64_bytes].
  split; by apply u64_bytes_inj.
Qed.

Lemma region_state_key_inj id id' : is_u64 id → is_u64 id' → region_state_key id = region_state_key id' → id = id'.
Proof.
  intros ?? E. apply (f_equal tail) in E. unfold region_state_key in E. cbn [tail] in E.
  apply app_inj_1 in E as [E _]; [by apply u64_bytes_inj|by rewrite !length_u64_bytes].
Qed.

Lemma foldl_delete_lookup (m : gmap bytes bytes) ks k :
  foldl apply_op m (BDelete <$> ks) !! k = if decide (k ∈ ks) then None else m !! k.
Proof.
  revert m. induction ks as [|k0 ks IH]; intros m; cbn; [done|]. rewrite IH.
  destruct (decide (k = k0)) as [->|Hne].
  - rewrite lookup_delete_eq. repeat case_decide; set_solver.
  - rewrite lookup_delete_ne by done. repeat case_decide; set_solver.
Qed.

(** ** The log on disk is a map *)

Section log.
Context `{prof : BuildProfile} `{reliable : RocksDBReliable} `{region_serde : Serde Region}
  `{region_state_serde : Serde RegionLocalState} `{raft_state_serde : Serde RaftLocalState}
  `{apply_state_serde : Serde RaftApplyState} `{entry_serde : Serde Entry} `{entry_laws : !SerdeLaws entry_serde}.

(** The entry of region [id] at index [i]. *)
Definition log_at (d : db) (id i : Z) : option Entry :=
  v ← db_view d !! raft_log_key id i;
  match deserialize v with Ok e => Some e | _ => None end.
(** What is stored under a log key is an entry. *)
Definition log_ok (d : db) : Prop := ∀ id i v,
  db_view d !! raft_log_key id i = Some v → ∃ e : Entry, deserialize v = Ok e.

(** The entries of a log from index [i] on, [n] at most, up to the first that
    is missing. *)
Fixpoint entries_from (log : Z → option Entry) (n : nat) (i : Z) : list Entry :=
  match n with
  | O => []
  | S n' => match log i with Some e => e :: entries_from log n' (i + 1) | None => [] end
  end.
(** The entry an append of [entries] leaves at [i]: the last one with that
    index, else the one there was. *)
Definition appended (entries : list Entry) (log : Z → option Entry) (i : Z) : option Entry :=
  foldl (λ r e, if decide (e_index e = i) then Some e else r) (log i) entries.

Lemma raft_write_run ops e raft :
  en_raft e = Some raft →
  ∃ raft', raft_write ops e = (Ok tt, mkEngines (en_kv e) (Some raft')) ∧
    db_view raft' = foldl apply_op (db_view raft) ops.
Proof.
  intros Hr. destruct (db_write_ok raft ops) as [raft' E]. exists raft'. split.
  - unfold raft_write. rewrite (M_bind_run get _ _ _ _ eq_refl). cbv beta. rewrite Hr.
    unfold lift, modify, mbind, M_bind. by rewrite E.
  - by apply db_write_view.
Qed.

(** Only log keys of [id] differ. *)
Definition same_but_log (id : Z) (d d' : db) : Prop :=
  ∀ k, (∀ i, k ≠ raft_log_key id i) → db_view d' !! k = db_view d !! k.

Lemma write_raft_log_run id entries e raft :
  is_u64 id → Forall (λ en, is_u64 (e_index en)) entries → en_raft e = Some raft → log_ok raft →
  ∃ raft', write_raft_log id entries e = (Ok tt, mkEngines (en_kv e) (Some raft')) ∧
    log_ok raft' ∧ same_but_log id raft raft' ∧
    (∀ i, is_u64 i → log_at raft' id i = appended entries (log_at raft id) i).
Proof.
  intros Hid Hu Hr Hok. unfold write_raft_log. rewrite (M_bind_run get _ _ _ _ eq_refl). cbv beta. rewrite Hr.
  revert e raft Hr Hok. induction Hu as [|en entries Hen Hu IH]; intros e raft Hr Hok; cbn [for_each].
  - exists raft. destruct e; cbn in *; subst. done.
  - destruct (serialize_ok en) as (v & Hv & Hd).
    destruct (raft_write_run [BPut (raft_log_key id (e_index en)) v] e raft Hr) as (raft1 & E1 & V1). cbn in V1.
    destruct (IH (mkEngines (en_kv e) (Some raft1)) raft1 eq_refl) as (raft' & E' & Hok' & Hs' & Hl').
    { intros id0 i0 v0. rewrite V1. intros [(_ & <-)|[_ Hv0]]%lookup_insert_Some; [eauto|by eapply Hok]. }
    exists raft'. split_and!.
    + assert ((lift (serialize en) ≫= λ value, raft_write [BPut (raft_log_key id (e_index en)) value]) e
        = (Ok tt, mkEngines (en_kv e) (Some raft1))) as E.
      { unfold lift, mbind, M_bind. by rewrite Hv. }
      by rewrite (M_bind_run _ _ _ _ _ E).
    + done.
    + intros k Hk. rewrite (Hs' k Hk), V1. by apply lookup_insert_ne.
    + intros i Hi. rewrite (Hl' i Hi). unfold appended. cbn [foldl]. f_equal. unfold log_at at 1. rewrite V1.
      case_decide as Ei.
      * rewrite <- Ei, lookup_insert_eq. cbn. by rewrite Hd.
      * rewrite lookup_insert_ne; [done|]. intros [_ ?]%raft_log_key_inj; done.
Qed.

Lemma read_log_loop_run raft id n i :
  log_ok raft → read_log_loop raft id n i = Ok (entries_from (log_at raft id) n i).
Proof.
  intros Hok. revert i. induction n as [|n IH]; intros i; [done|]. cbn [read_log_loop entries_from].
  unfold read_value. rewrite db_get_ok. cbn. unfold log_at.
  destruct (db_view raft !! raft_log_key id i) as [v|] eqn:E; [|done].
  destruct (Hok _ _ _ E) as [en Hen]. cbn. rewrite Hen. cbn. by rewrite IH.
Qed.

Lemma delete_raft_log_run id lo hi e raft :
  is_u64 id → is_u64 lo → is_u64 hi → en_raft e = Some raft → log_ok raft →
  ∃ raft', delete_raft_log id lo hi e = (Ok tt, mkEngines (en_kv e) (Some raft')) ∧
    log_ok raft' ∧ same_but_log id raft raft' ∧
    (∀ i, is_u64 i → log_at raft' id i = if decide (lo ≤ i < hi) then None else log_at raft id i).
Proof.
  intros Hid Hlo Hhi Hr Hok. unfold delete_raft_log. destruct (Z.leb_spec hi lo) as [Hle|Hlt].
  { exists raft. destruct e; cbn in *; subst. split_and!; try done. intros i Hi. rewrite decide_False by lia. done. }
  destruct (raft_write_run ((λ i, BDelete (raft_log_key id i)) <$> seqZ lo (hi - lo)) e raft Hr) as (raft' & E & V).
  rewrite (list_fmap_compose (raft_log_key id) BDelete) in V.
  exists raft'. rewrite E. split_and!; [done| | |].
  - intros id0 i0 v0. rewrite V, foldl_delete_lookup. case_decide; [done|]. apply Hok.
  - intros k Hk. rewrite V, foldl_delete_lookup. rewrite decide_False; [done|].
    intros (i & Hi & _)%list_elem_of_fmap. by apply (Hk i).
  - intros i Hi. unfold log_at. rewrite V, foldl_delete_lookup.
    assert (raft_log_key id i ∈ raft_log_key id <$> seqZ lo (hi - lo) ↔ lo ≤ i < hi) as Hin.
    { rewrite list_elem_of_fmap. split.
      - intros (j & Hj & Hs%elem_of_seqZ). apply raft_log_key_inj in Hj as [_ ->]; [lia|done..|].
        unfold is_u64, u64_max in *. lia.
      - intros Hi'. exists i. split; [done|]. apply elem_of_seqZ. lia. }
    repeat case_decide; tauto.
Qed.

(** An append of contiguous entries leaves the entry of each index. *)
Lemma appended_below entries log i :
  Forall (λ en, e_index en ≠ i) entries → appended entries log i = log i.
Proof.
  unfold appended. generalize (log i) as o. induction entries as [|en es IH]; intros o; [done|].
  intros [Hne Hes]%Forall_cons. cbn [foldl]. rewrite decide_False by done. by apply IH.
Qed.

Lemma appended_contiguous lo entries log k en :
  contiguous lo entries → entries !! k = Some en → appended entries log (lo + Z.of_nat k) = Some en.
Proof.
  revert lo k log. induction entries as [|e0 es IH]; intros lo k log Hc; [done|].
  assert (contiguous (lo + 1) es) as Hc'.
  { intros j e Hj. specialize (Hc (S j) e Hj). lia. }
  destruct k as [|k]; cbn [lookup list_lookup].
  - intros [= ->]. pose proof (Hc 0%nat en eq_refl) as He. unfold appended. cbn [foldl].
    rewrite decide_True by lia. apply (appended_below es (λ _, Some en) (lo + Z.of_nat 0)).
    apply Forall_lookup. intros j e Hj. specialize (Hc' j e Hj). lia.
  - intros Hk. replace (lo + Z.of_nat (S k)) with (lo + 1 + Z.of_nat k) by lia.
    unfold appended. cbn [foldl].
    rewrite <- (IH (lo + 1) k (λ i, if decide (e_index e0 = i) then Some e0 else log i) Hc' Hk). done.
Qed.

Lemma entries_from_list log lo entries :
  (∀ k en, entries !! k = Some en → log (lo + Z.of_nat k) = Some en) →
  entries_from log (length entries) lo = entries.
Proof.
  revert lo. induction entries as [|e0 es IH]; intros lo Hl; [done|]. cbn [length entries_from].
  pose proof (Hl 0%nat e0 eq_refl) as Hfst. rewrite Z.add_0_r in Hfst. rewrite Hfst. f_equal. apply IH.
  intros k en Hk. rewrite <- (Hl (S k) en Hk). f_equal. lia.
Qed.

Lemma contiguous_u64 lo entries :
  contiguous lo entries → is_u64 lo → lo + Z.of_nat (length entries) ≤ 2 ^ 64 → Forall (λ en, is_u64 (e_index en)) entries.
Proof.
  intros Hc Hlo Hhi. apply Forall_lookup. intros k en Hk. rewrite (Hc k en Hk).
  apply lookup_lt_Some in Hk. unfold is_u64, u64_max in *. lia.
Qed.

Lemma read_raft_log_run id lo hi e raft :
  en_raft e = Some raft → log_ok raft →
  read_raft_log id lo hi e = Ok (entries_from (log_at raft id) (Z.to_nat (hi - lo)) lo).
Proof.
  intros Hr Hok. unfold read_raft_log. rewrite Hr. destruct (Z.leb_spec hi lo) as [Hle|Hlt].
  - by replace (Z.to_nat (hi - lo)) with 0%nat by lia.
  - by apply read_log_loop_run.
Qed.

(** C37: The log of a region on disk is a map from indices to entries.  On a device
    that does not fail: writing entries with consecutive indices replaces the
    entries at these indices and nothing else of any region, and reading the
    same range back gives exactly them; deleting a range removes exactly its
    entries; and a read answers the entries from its start up to the first
    that is missing. *)
Theorem raft_log_refines_map (id lo hi : Z) (entries : list Entry) (e : Engines) (raft : db) :
  is_u64 id → is_u64 lo → is_u64 hi → contiguous lo entries → lo + Z.of_nat (length entries) ≤ 2 ^ 64 →
  en_raft e = Some raft → log_ok raft →
  (∃ raft', write_raft_log id entries e = (Ok tt, mkEngines (en_kv e) (Some raft')) ∧
     log_ok raft' ∧ same_but_log id raft raft' ∧
     (∀ i, is_u64 i → log_at raft' id i =
        if decide (lo ≤ i < lo + Z.of_nat (length entries)) then entries !! Z.to_nat (i - lo) else log_at raft id i) ∧
     read_raft_log id lo (lo + Z.of_nat (length entries)) (mkEngines (en_kv e) (Some raft')) = Ok entries) ∧
  (∃ raft', delete_raft_log id lo hi e = (Ok tt, mkEngines (en_kv e) (Some raft')) ∧
     log_ok raft' ∧ same_but_log id raft raft' ∧
     (∀ i, is_u64 i → log_at raft' id i = if decide (lo ≤ i < hi) then None else log_at raft id i)) ∧
  read_raft_log id lo hi e = Ok (entries_from (log_at raft id) (Z.to_nat (hi - lo)) lo).
Proof.
  intros Hid Hlo Hhi Hc Hlen Hr Hok. split_and!; [|by apply delete_raft_log_run|by apply read_raft_log_run].
  destruct (write_raft_log_run id entries e raft Hid (contiguous_u64 lo entries Hc Hlo Hlen) Hr Hok)
    as (raft' & E & Hok' & Hs & Hl).
  exists raft'. split_and!; try done.
  - intros i Hi. rewrite Hl by done. case_decide as Hin.
    + destruct (lookup_lt_is_Some_2 entries (Z.to_nat (i - lo))) as [en Hen]; [lia|]. rewrite Hen.
      replace i with (lo + Z.of_nat (Z.to_nat (i - lo))) at 1 by lia. by apply appended_contiguous.
    + apply appended_below, Forall_lookup. intros k en Hk. rewrite (Hc k en Hk).
      apply lookup_lt_Some in Hk. lia.
  - rewrite (read_raft_log_run id _ _ (mkEngines (en_kv e) (Some raft')) raft' eq_refl Hok').
    replace (Z.to_nat (lo + Z.of_nat (length entries) - lo)) with (length entries) by lia. f_equal.
    apply entries_from_list. intros k en Hk. rewrite Hl.
    + by apply appended_contiguous.
    + apply lookup_lt_Some in Hk. unfold is_u64, u64_max in *. lia.
Qed.

(** ** The storage of a peer *)

(** On disk are the apply state [a], the Raft state [r] and, behind the
    truncated index, the entries [log]. *)
Record ps_holds (s : PeerStorage) (a : RaftApplyState) (r : RaftLocalState) (log : list Entry) : Prop := {
  ph_apply : ps_apply_state s = Ok (Some a);
  ph_raft : ps_raft_state s = Ok (Some r);
  ph_log : ∃ raft, en_raft (ps_engines s) = Some raft ∧ log_ok raft ∧
    ∀ k, 0 ≤ k < 2 ^ 64 - 1 - ts_index (as_truncated_state a) →
      log_at raft (rg_id (ps_region s)) (ts_index (as_truncated_state a) + 1 + k) = log !! Z.to_nat k;
  ph_truncated : 0 ≤ ts_index (as_truncated_state a);
  ph_last : rfs_last_index r = ts_index (as_truncated_state a) + Z.of_nat (length log);
  ph_bound : rfs_last_index r < u64_max;
}.

Lemma ps_first_index_holds s a r log : ps_holds s a r log → ps_first_index s = Ok (ts_index (as_truncated_state a) + 1).
Proof.
  intros [Ha _ _ Ht Hlast Hb]. unfold ps_first_index, truncated_index, from_apply_state. rewrite Ha. apply u64_add_ok.
  unfold is_u64. lia.
Qed.
Lemma ps_last_index_holds s a r log : ps_holds s a r log → ps_last_index s = Ok (rfs_last_index r).
Proof. intros [_ Hr _ _ _ _]. unfold ps_last_index. by rewrite Hr. Qed.
Lemma ps_initial_state_holds s a r log :
  ps_holds s a r log → ps_initial_state s = Ok (rfs_hard_state r, mkConfState (pr_id <$> rg_peers (ps_region s))).
Proof. intros [_ Hr _ _ _ _]. unfold ps_initial_state. by rewrite Hr. Qed.
Lemma ps_entries_holds s a r log lo hi :
  ps_holds s a r log → let first := ts_index (as_truncated_state a) + 1 in
  first ≤ lo → lo ≤ hi ≤ first + Z.of_nat (length log) →
  ps_entries lo hi s = Ok (take (Z.to_nat (hi - lo)) (drop (Z.to_nat (lo - first)) log)).
Proof.
  intros [_ _ (raft & Hraft & Hok & Hlog) Ht Hlast Hb] first Hlo Hhi.
  unfold ps_entries. rewrite (read_raft_log_run _ _ _ _ _ Hraft Hok). f_equal.
  set (l := take _ (drop _ log)).
  assert (length l = Z.to_nat (hi - lo)) as Hl by (subst l; rewrite length_take, length_drop; lia).
  rewrite <- Hl. apply entries_from_list. intros k en Hk.
  pose proof (lookup_lt_Some _ _ _ Hk) as Hlt. subst l.
  rewrite lookup_take_lt, lookup_drop in Hk by lia. rewrite <- Hk.
  replace (lo + Z.of_nat k) with (first + (lo - first + Z.of_nat k)) by lia. subst first.
  rewrite Hlog by (unfold u64_max in *; lia). f_equal. lia.
Qed.

(** The storage answers the state machine what is on disk: the first index is
    the one behind the truncated one; the terms are those of the entries and,
    at the truncated index, the one recorded for it; an index below the
    truncated one or behind the last entry is an error; the entries of a range
    are those of the log; the hard state and the members are those recorded. *)
Theorem peer_storage_answers (s : PeerStorage) (a : RaftApplyState) (r : RaftLocalState) (log : list Entry) :
  ps_holds s a r log →
  let first := ts_index (as_truncated_state a) + 1 in
  st_first_index (ps_storage s) = Ok first ∧
  st_last_index (ps_storage s) = Ok (first + Z.of_nat (length log) - 1) ∧
  st_initial_state (ps_storage s) = Ok (rfs_hard_state r, mkConfState (pr_id <$> rg_peers (ps_region s))) ∧
  st_term (ps_storage s) 0 = Ok 0 ∧
  (first ≠ 1 → st_term (ps_storage s) (first - 1) = Ok (ts_term (as_truncated_state a))) ∧
  (∀ k en, log !! k = Some en → st_term (ps_storage s) (first + Z.of_nat k) = Ok (e_term en)) ∧
  (∀ i, 0 < i < first - 1 → ∃ err, st_term (ps_storage s) i = Err err) ∧
  (∀ i, first + Z.of_nat (length log) ≤ i ≤ u64_max → ∃ err, st_term (ps_storage s) i = Err err) ∧
  (∀ lo hi, first ≤ lo → lo ≤ hi ≤ first + Z.of_nat (length log) →
     st_entries (ps_storage s) lo hi = Ok (take (Z.to_nat (hi - lo)) (drop (Z.to_nat (lo - first)) log))).
Proof.
  intros Hs first. pose proof Hs as [Ha Hr (raft & Hraft & Hok & Hlog) Ht Hlast Hb].
  set (t := ts_index (as_truncated_state a)) in *.
  assert (∀ i, t < i ≤ u64_max → read_raft_log_entry (rg_id (ps_region s)) i (ps_engines s)
      = Ok (log !! Z.to_nat (i - t - 1))) as Hread.
  { intros i Hi. unfold read_raft_log_entry, read_raft_value. rewrite Hraft. unfold read_value.
    rewrite db_get_ok. cbn. rewrite <- Hlog by (unfold u64_max in *; lia). unfold log_at.
    replace (t + 1 + (i - t - 1)) with i by lia.
    destruct (db_view raft !! raft_log_key _ i) as [v|] eqn:E; cbn; [|done].
    destruct (Hok _ _ _ E) as [en ->]. done. }
  assert (∀ i, t < i ≤ u64_max → i ≠ 0 → ps_term i s = term_from_log i s) as Hterm.
  { intros i Hi Hne. unfold ps_term. rewrite Ha. fold t.
    rewrite (proj2 (Z.eqb_neq i 0) Hne), (proj2 (Z.ltb_ge i t)), (proj2 (Z.eqb_neq i t)) by lia. done. }
  cbn [st_first_index st_last_index st_initial_state st_term st_entries ps_storage]. split_and!.
  - by eapply ps_first_index_holds.
  - rewrite (ps_last_index_holds _ _ _ _ Hs). f_equal. lia.
  - by eapply ps_initial_state_holds.
  - done.
  - intros Hne. unfold ps_term. rewrite Ha. fold t. unfold first.
    replace (t + 1 - 1) with t by lia.
    rewrite (proj2 (Z.eqb_neq t 0)), Z.ltb_irrefl, Z.eqb_refl by lia. done.
  - intros k en Hk. pose proof (lookup_lt_Some _ _ _ Hk). rewrite Hterm by lia.
    unfold term_from_log. rewrite Hread by lia.
    replace (Z.to_nat (first + Z.of_nat k - t - 1)) with k by lia. by rewrite Hk.
  - intros i Hi. unfold ps_term. rewrite Ha. fold t.
    rewrite (proj2 (Z.eqb_neq i 0)), (proj2 (Z.ltb_lt i t)) by lia. eauto.
  - intros i Hi. rewrite Hterm by lia. unfold term_from_log. rewrite Hread by lia.
    rewrite lookup_ge_None_2 by lia. cbn. rewrite Hr. cbn.
    rewrite (proj2 (Z.eqb_neq i (rfs_last_index r))) by lia. eauto.
  - intros lo hi. by apply ps_entries_holds with (r := r).
Qed.

(** FINDING: the snapshot's metadata pairs the applied index with the term of
    the truncated index: they disagree as soon as an entry of a later term is
    applied. *)
Theorem snapshot_term_wrong (s : PeerStorage) (a : RaftApplyState) (r : RaftLocalState) (log : list Entry)
    (k : nat) (en : Entry) :
  ps_holds s a r log → as_applied_index a = ts_index (as_truncated_state a) + 1 + Z.of_nat k →
  log !! k = Some en → e_term en ≠ ts_term (as_truncated_state a) →
  ∃ snap, st_snapshot (ps_storage s) = Ok snap ∧
    snap_index snap = ts_index (as_truncated_state a) + 1 + Z.of_nat k ∧ snap_term snap ≠ e_term en.
Proof.
  intros Hs Ha Hk Hne. eexists. split; [done|]. cbn.
  unfold snap_index, snap_term, applied_index, truncated_term, from_apply_state. cbn.
  rewrite (ph_apply _ _ _ _ Hs). split; [done|]. congruence.
Qed.
End log.

(** ** A serialisation to evaluate with: the bits of the code of a value *)

Fixpoint pos_bytes (p : positive) : bytes :=
  match p with xI p' => Byte.x01 :: pos_bytes p' | xO p' => Byte.x00 :: pos_bytes p' | xH => [] end.
Fixpoint bytes_pos (b : bytes) : positive :=
  match b with
  | [] => xH
  | x :: b' => if decide (x = Byte.x01) then xI (bytes_pos b') else xO (bytes_pos b')
  end.
Lemma bytes_pos_bytes p : bytes_pos (pos_bytes p) = p.
Proof. induction p as [p IH|p IH|]; cbn; rewrite ?IH; done. Qed.

Definition countable_serde `{Countable T} : Serde T := {|
  serialize x := Ok (pos_bytes (encode x));
  deserialize b := match decode (bytes_pos b) with Some x => Ok x | None => Err "malformed" end |}.
Definition countable_serde_laws `{Countable T} : SerdeLaws (countable_serde (T := T)).
Proof. split. intros x. eexists. split; [done|]. cbn. by rewrite bytes_pos_bytes, decode_encode. Defined.

Definition map_db_reliable : RocksDBReliable map_db_laws.
Proof. split; [done|]. intros d ops. by eexists. Defined.

#[export] Instance EntryType_countable : Countable EntryType.
Proof.
  apply (inj_countable' (λ t, match t with Normal => false | EntryConfChange => true end)
    (λ b : bool, if b then EntryConfChange else Normal)). by intros [].
Defined.
#[export] Instance Entry_countable : Countable Entry.
Proof.
  apply (inj_countable' (λ e, (e_type e, e_term e, e_index e, e_data e))
    (λ '(t, n, i, d), mkEntry t n i d)). by intros [].
Defined.
#[export] Instance RegionEpoch_countable : Countable RegionEpoch.
Proof.
  apply (inj_countable' (λ e, (re_conf_ver e, re_version e)) (λ '(c, v), mkRegionEpoch c v)). by intros [].
Defined.
#[export] Instance Peer_countable : Countable Peer.
Proof. apply (inj_countable' (λ p, (pr_id p, pr_store_id p)) (λ '(i, s), mkPeer i s)). by intros []. Defined.
#[export] Instance Region_countable : Countable Region.
Proof.
  apply (inj_countable' (λ r, (rg_id r, rg_start_key r, rg_end_key r, rg_region_epoch r, rg_peers r))
    (λ '(i, s, e, ep, p), mkRegion i s e ep p)). by intros [].
Defined.
#[export] Instance RegionLocalState_eq_dec : EqDecision RegionLocalState.
Proof. solve_decision. Defined.
#[export] Instance RegionLocalState_countable : Countable RegionLocalState.
Proof.
  apply (inj_countable' (λ s, (bool_decide (rls_state s = PsNormal), rls_region_bytes s))
    (λ '(n, b), mkRegionLocalState (if n : bool then PsNormal else PsTombstone) b)). by intros [[] ?].
Defined.
#[export] Instance RaftLocalState_eq_dec : EqDecision RaftLocalState.
Proof. solve_decision. Defined.
#[export] Instance RaftLocalState_countable : Countable RaftLocalState.
Proof.
  apply (inj_countable' (λ s, (hs_term (rfs_hard_state s), hs_vote (rfs_hard_state s), hs_commit (rfs_hard_state s),
      rfs_last_index s, rfs_last_term s))
    (λ '(t, v, c, i, lt), mkRaftLocalState (mkHardState t v c) i lt)). by intros [[] ? ?].
Defined.
#[export] Instance RaftApplyState_eq_dec : EqDecision RaftApplyState.
Proof. intros [? [? ?]] [? [? ?]]. unfold Decision. repeat decide equality. Defined.
#[export] Instance RaftApplyState_countable : Countable RaftApplyState.
Proof.
  apply (inj_countable' (λ s, (as_applied_index s, ts_index (as_truncated_state s), ts_term (as_truncated_state s)))
    (λ '(a, i, t), mkApplyState a (mkTruncated i t))). by intros [? []].
Defined.

(** ** Samples *)

Section samples.
#[local] Existing Instance map_db.
#[local] Existing Instance map_db_laws.
#[local] Existing Instance map_db_reliable.
#[local] Existing Instance countable_serde.
#[local] Existing Instance countable_serde_laws.
#[local] Instance checked : BuildProfile := true.

Definition sample_entry : Entry := mkEntry Normal 3 1 [Byte.x2a].
Definition no_engines : Engines := mkEngines (∅ : db (RocksDB := map_db)) (Some (∅ : db (RocksDB := map_db))).

Lemma raft_log_refines_map_witness :
  ∃ raft', write_raft_log 7 [sample_entry] no_engines = (Ok tt, mkEngines (en_kv no_engines) (Some raft')) ∧
    read_raft_log 7 1 2 (mkEngines (en_kv no_engines) (Some raft')) = Ok [sample_entry].
Proof.
  destruct (raft_log_refines_map 7 1 2 [sample_entry] no_engines (∅ : db (RocksDB := map_db)))
    as ((raft' & E & _ & _ & _ & H) & _); [by vm_compute..| |by vm_compute|done| |].
  - intros [|k] en; [by intros [= <-]|done].
  - intros id i v H. by vm_compute in H.
  - exists raft'. split; [exact E|exact H].
Defined.

Definition bits {T} `{Countable T} (x : T) : bytes := pos_bytes (encode x).
Definition sample_raft_state : RaftLocalState := mkRaftLocalState (mkHardState 3 1 1) 1 3.
Definition sample_apply_state : RaftApplyState := mkApplyState 1 (mkTruncated 0 0).
Definition sample_raft_db : gmap bytes bytes :=
  <[raft_log_key 7 1 := bits sample_entry]> {[raft_state_key 7 := bits sample_raft_state]}.
Definition sample_storage : PeerStorage :=
  mkPeerStorage (mkEngines ({[key_with_cf "" (apply_state_key 7) := bits sample_apply_state]} : db (RocksDB := map_db))
                   (Some (sample_raft_db : db (RocksDB := map_db))))
    (mkRegion 7 [] [] None [mkPeer 11 1]).

Lemma sample_storage_holds : ps_holds sample_storage sample_apply_state sample_raft_state [sample_entry].
Proof.
  split; [by vm_compute|by vm_compute| |by vm_compute..]. exists (sample_raft_db : db (RocksDB := map_db)). split; [done|]. split.
  - intros id i v. unfold db_view. cbn [map_db_laws]. unfold sample_raft_db.
    intros [(_ & <-)|[_ [Hk _]%lookup_singleton_Some]]%lookup_insert_Some; [|done].
    exists sample_entry. by vm_compute.
  - intros k Hk. destruct (decide (k = 0)) as [->|Hne]; [by vm_compute|].
    rewrite lookup_ge_None_2 by (cbn; lia). unfold log_at, db_view. cbn [map_db_laws]. unfold sample_raft_db.
    rewrite lookup_insert_ne.
    + by rewrite lookup_singleton_ne.
    + intros [_ Hi]%raft_log_key_inj; cbn in *; unfold is_u64, u64_max in *; lia.
Qed.

Lemma peer_storage_answers_witness :
  st_first_index (ps_storage sample_storage) = Ok 1 ∧ st_term (ps_storage sample_storage) 1 = Ok 3.
Proof.
  destruct (peer_storage_answers _ _ _ _ sample_storage_holds) as (H1 & _ & _ & _ & _ & H2 & _).
  split; [exact H1|exact (H2 0%nat sample_entry eq_refl)].
Defined.

Lemma snapshot_term_wrong_witness :
  ∃ snap, st_snapshot (ps_storage sample_storage) = Ok snap ∧ snap_index snap = 1 ∧ snap_term snap ≠ 3.
Proof.
  exact (snapshot_term_wrong sample_storage sample_apply_state sample_raft_state [sample_entry] 0%nat sample_entry
    sample_storage_holds eq_refl eq_refl ltac:(done)).
Defined.
End samples.
