(* ===== verification/RegionTasks.v ===== *)
(** What is done with the data of a whole region: src/raftstore/region_task.rs
    (generating and applying a snapshot, destroying a range),
    src/raftstore/recovery.rs (finding the regions of a store at its start) and
    src/raftstore/split_checker.rs (whether and where a region is split).

    A raw iterator created now ranges over [db_items]; it is not moved by
    writes.  The sizes of what is in a database do not add up to 2^64. *)

From S2P Require Import Prelude Bytes Records Engine RaftTypes Proto PeerStorage.

Definition CFS : list string := [CF_DEFAULT; CF_WRITE; CF_LOCK].

(** [iter.seek(key)], or [seek_to_first] for an empty start key. *)
Definition raw_seek (start_key : bytes) (items : list (bytes * bytes)) : list (bytes * bytes) :=
  match start_key with [] => items | _ :: _ => drop_while (λ e, bytes_ltb e.1 start_key) items end.

(** ** src/raftstore/region_task.rs *)

(** [key_bytes.len() > 0 && key_bytes[0] < 0x10] *)
Definition is_meta_key (key : bytes) : bool := match key with b :: _ => b2z b <? 16 | [] => false end.
(** The loop that both scans share. *)
Fixpoint scan_range (end_key : bytes) (items : list (bytes * bytes)) : list (bytes * bytes) :=
  match items with
  | [] => []
  | (k, v) :: items' =>
      if negb (bool_decide (end_key = [])) && exceed_end_key k end_key then []
      else if is_meta_key k then scan_range end_key items'
      else (k, v) :: scan_range end_key items'
  end.

Record SnapshotData := mkSnapshotData { sd_region_bytes : bytes; sd_kvs : list (bytes * bytes) }.

Section region_task.
Context `{rocks : RocksDB} `{region_serde : Serde Region} `{region_state_serde : Serde RegionLocalState}
  `{apply_state_serde : Serde RaftApplyState} `{snapshot_serde : Serde SnapshotData}.

Definition gen_snapshot (region_id : Z) (e : Engines) : outcome bytes :=
  region_state ← get_region_local_state region_id e;
  region_state ← ok_or "region not found" region_state;
  region ← deserialize (rls_region_bytes region_state);
  let kvs := scan_range (rg_end_key region) (raw_seek (rg_start_key region) (db_items (en_kv e))) in
  region_buf ← serialize (region : Region);
  serialize (mkSnapshotData region_buf kvs).

Definition destroy_range (start_key end_key : bytes) : M Engines unit :=
  e ← get;
  match (scan_range end_key (raw_seek start_key (db_items (en_kv e)))).*1 with
  | [] => mret tt
  | keys => d ← lift (db_write (en_kv e) (BDelete <$> keys)); modify (λ e, mkEngines d (en_raft e))
  end.

Definition apply_snapshot (region_id : Z) (snapshot_data : bytes) : M Engines bool :=
  snapshot ← lift (deserialize snapshot_data);
  region ← lift (deserialize (sd_region_bytes snapshot));
  destroy_range (rg_start_key region) (rg_end_key region);;
  let wb := foldl (λ wb kv, set_cf CF_DEFAULT kv.1 kv.2 wb) WriteBatch_new (sd_kvs snapshot) in
  wb ← lift (write_region_state (region : Region) PsNormal wb);
  e ← get;
  apply_state ← lift (get_apply_state region_id e);
  wb ← lift (match apply_state with Some s => write_apply_state region_id s wb | None => Ok wb end);
  write_kv wb;;
  mret true.

(** What the notifier of a task is sent. *)
Inductive RegionTask :=
| GenSnapshot (region_id : Z)
| ApplySnapshot (region_id : Z) (snapshot_data : bytes)
| Destroy (region_id : Z) (start_key end_key : bytes).
Inductive TaskAnswer := GotSnapshot (data : bytes) | Applied (success : bool) | NoAnswer.
Definition handle (task : RegionTask) : M Engines TaskAnswer :=
  match task with
  | GenSnapshot region_id => e ← get; snapshot ← lift (gen_snapshot region_id e); mret (GotSnapshot snapshot)
  | ApplySnapshot region_id data => success ← apply_snapshot region_id data; mret (Applied success)
  | Destroy _ start_key end_key => destroy_range start_key end_key;; mret NoAnswer
  end.

(** ** src/raftstore/recovery.rs *)

(** [get_region_local_state] does not change while the loop runs. *)
Fixpoint recover_loop (store_id : Z) (e : Engines) (items : list (bytes * bytes)) : outcome (list Region) :=
  match items with
  | [] => Ok []
  | (key, _) :: items' =>
      match key with
      | b0 :: ((b1 :: _) as actual_key) =>
          if decide (b0 ≠ Byte.x5f) then Ok []
          else if decide (b1 ≠ REGION_META_PREFIX) then recover_loop store_id e items'
          else
            match decode_region_meta_key actual_key with
            | Ok (region_id, _) =>
                match get_region_local_state region_id e with
                | Ok (Some region_state) =>
                    if decide (rls_state region_state = PsTombstone) then recover_loop store_id e items'
                    else
                      region ← deserialize (rls_region_bytes region_state);
                      rest ← recover_loop store_id e items';
                      Ok (if existsb (λ p, pr_store_id p =? store_id) (rg_peers (region : Region))
                          then region :: rest else rest)
                | _ => recover_loop store_id e items'
                end
            | _ => recover_loop store_id e items'
            end
      | [b0] => if decide (b0 ≠ Byte.x5f) then Ok [] else recover_loop store_id e items'
      | [] => recover_loop store_id e items'
      end
  end.
Definition recover_regions (store_id : Z) (e : Engines) : outcome (list Region) :=
  recover_loop store_id e (raw_seek [Byte.x5f; REGION_META_PREFIX] (db_items (en_kv e))).
Definition validate_region (region_id : Z) (e : Engines) : outcome bool :=
  region_state ← get_region_local_state region_id e;
  Ok (bool_decide (is_Some region_state)).
End region_task.

(** ** src/raftstore/split_checker.rs *)

Record SplitChecker := mkSplitChecker { sc_max_size : Z; sc_split_size : Z }.

Section split_checker.
Context `{rocks : RocksDB}.

(** The loop of [scan_cf]: the size and the split key so far. *)
Fixpoint scan_cf_loop (c : SplitChecker) (prefix end_key : bytes) (size : Z) (split_key : option bytes)
    (items : list (bytes * bytes)) : Z * option bytes :=
  match items with
  | [] => (size, split_key)
  | (k, v) :: items' =>
      if negb (starts_with prefix k) then (size, split_key)
      else
        let actual_key := drop (length prefix) k in
        if negb (bool_decide (end_key = [])) && exceed_end_key actual_key end_key then (size, split_key)
        else
          let size := size + (Z.of_nat (length actual_key) + Z.of_nat (length v)) in
          let split_key :=
            if (sc_split_size c <? size) && bool_decide (split_key = None) then Some actual_key else split_key in
          if sc_max_size c <? size then (size, split_key)
          else scan_cf_loop c prefix end_key size split_key items'
  end.
(** The start key goes through [String::from_utf8_lossy]. *)
Definition scan_cf (c : SplitChecker) (d : db) (cf : string) (start_key end_key : bytes) : option (Z * bytes) :=
  let prefix := str_bytes cf ++ [Byte.x5f] in
  let seek_key := match start_key with [] => prefix | _ :: _ => prefix ++ from_utf8_lossy start_key end in
  let '(size, key) := scan_cf_loop c prefix end_key 0 None (raw_seek seek_key (db_items d)) in
  if 0 <? size then Some (size, default [] key) else None.

(** The loop over the column families. *)
Fixpoint check_loop (c : SplitChecker) (d : db) (region : Region) (cfs : list string) (total : Z)
    (split_key : option bytes) : Z * option bytes :=
  match cfs with
  | [] => (total, split_key)
  | cf :: cfs' =>
      match scan_cf c d cf (rg_start_key region) (rg_end_key region) with
      | None => check_loop c d region cfs' total split_key
      | Some (size, key) =>
          let total := total + size in
          let split_key :=
            if (sc_split_size c <? total) && bool_decide (split_key = None) then Some key else split_key in
          if sc_max_size c <? total then (total, split_key) else check_loop c d region cfs' total split_key
      end
  end.
(** The size that is sent to the peer of the region, and the split key. *)
Definition check (c : SplitChecker) (d : db) (region : Region) : Z * option bytes :=
  let '(total, split_key) := check_loop c d region CFS 0 None in
  (total, if total <? sc_max_size c then None else split_key).
End split_checker.

(** ** Ranges of raw keys *)

(** What both scans of a region pick: the raw keys of the range but for those
    below 0x10. *)
Definition in_scan (start_key end_key k : bytes) : Prop :=
  bytes_leb start_key k = true ∧ (end_key = [] ∨ bytes_lt k end_key) ∧ is_meta_key k = false.
#[export] Instance in_scan_dec start_key end_key k : Decision (in_scan start_key end_key k).
Proof. unfold in_scan, bytes_lt. apply _. Defined.

Lemma past_end_spec end_key k :
  negb (bool_decide (end_key = [])) && exceed_end_key k end_key = false ↔ end_key = [] ∨ bytes_lt k end_key.
Proof.
  unfold exceed_end_key. destruct end_key as [|b end_key]; [cbn; tauto|].
  rewrite bool_decide_eq_false_2 by done. cbn [negb andb].
  rewrite <- bytes_ltb_lt. split; [intros H; right|intros [?|H]; [done|]].
  - apply not_false_is_true. intros Hn%bytes_ltb_ge. congruence.
  - apply not_true_iff_false. intros Hn%bytes_ltb_ge. congruence.
Qed.

Lemma scan_range_elem end_key items :
  StronglySorted key_lt items →
  ∀ k v, (k, v) ∈ scan_range end_key items ↔
    (k, v) ∈ items ∧ (end_key = [] ∨ bytes_lt k end_key) ∧ is_meta_key k = false.
Proof.
  induction items as [|[k0 v0] items IH]; intros Hs k v; cbn [scan_range]; [set_solver|].
  apply StronglySorted_cons in Hs as [Hall Hs]. specialize (IH Hs k v).
  destruct (negb _ && _) eqn:He.
  - split; [by intros ?%not_elem_of_nil|]. intros (Hin & Hend & _).
    assert (negb (bool_decide (end_key = [])) && exceed_end_key k0 end_key = false); [|congruence].
    apply past_end_spec. apply elem_of_cons in Hin as [[= -> ->]|Hin]; [done|].
    rewrite Forall_forall in Hall. specialize (Hall _ Hin). destruct Hend as [->|Hend]; [by left|right].
    eapply bytes_lt_trans; [exact Hall|done].
  - apply past_end_spec in He. destruct (is_meta_key k0) eqn:Hm; rewrite ?elem_of_cons, IH.
    + split; [tauto|]. intros ([[= -> ->]|Hin] & ? & ?); [congruence|tauto].
    + split; [intros [[= -> ->]|?]; tauto|]. tauto.
Qed.

Lemma bytes_leb_nil_l k : bytes_leb [] k = true.
Proof. by destruct k. Qed.

Lemma raw_seek_sorted start_key items : StronglySorted key_lt items → StronglySorted key_lt (raw_seek start_key items).
Proof.
  intros Hs. destruct start_key as [|b s]; [done|]. cbn [raw_seek].
  induction Hs as [|e l Hl IH He]; cbn; [constructor|]. case_match; [done|]. by constructor.
Qed.

Lemma raw_seek_elem start_key items :
  StronglySorted key_lt items →
  ∀ k v, (k, v) ∈ raw_seek start_key items ↔ (k, v) ∈ items ∧ bytes_leb start_key k = true.
Proof.
  intros Hs k v. destruct start_key as [|b s]; [cbn [raw_seek]; rewrite bytes_leb_nil_l; tauto|].
  cbn [raw_seek]. set (sk := b :: s). induction Hs as [|[k0 v0] l Hl IH He]; cbn [drop_while fst]; [set_solver|].
  destruct (bytes_ltb k0 sk) eqn:E.
  - rewrite IH, elem_of_cons. split; [tauto|]. intros [[[= -> ->]|?] Hb]; [|tauto].
    apply bytes_ltb_lt in E. apply bytes_leb_lt_or_eq in Hb as [Hb| ->].
    + by destruct (bytes_lt_asym _ _ E Hb).
    + by destruct (bytes_lt_irrefl _ E).
  - apply bytes_ltb_ge in E. split; [|tauto]. intros Hin. split; [done|].
    apply elem_of_cons in Hin as [[= -> ->]|Hin]; [done|]. rewrite Forall_forall in He. specialize (He _ Hin).
    apply bytes_leb_lt_or_eq. left. apply bytes_leb_lt_or_eq in E as [E| ->]; [|done].
    eapply bytes_lt_trans; [exact E|exact He].
Qed.

Section scans.
Context `{laws : RocksDBLaws}.

Lemma scan_spec d start_key end_key k v :
  (k, v) ∈ scan_range end_key (raw_seek start_key (db_items d)) ↔
  db_view d !! k = Some v ∧ in_scan start_key end_key k.
Proof.
  rewrite scan_range_elem by (apply raw_seek_sorted, db_items_sorted).
  rewrite raw_seek_elem by apply db_items_sorted. rewrite db_items_view. unfold in_scan. tauto.
Qed.

Lemma scan_sorted end_key items : StronglySorted key_lt items → StronglySorted key_lt (scan_range end_key items).
Proof.
  induction items as [|[k0 v0] items IH]; intros Hs; [constructor|]. cbn [scan_range].
  pose proof Hs as [Hall Hs']%StronglySorted_cons. case_match; [constructor|]. case_match; [by apply IH|].
  apply StronglySorted_cons. split; [|by apply IH]. rewrite Forall_forall in Hall |- *.
  intros [k v] Hin. apply Hall. by apply scan_range_elem in Hin as [? _].
Qed.

Lemma sorted_keys_nodup (l : list (bytes * bytes)) : StronglySorted key_lt l → NoDup l.*1.
Proof.
  induction l as [|e l IH]; [constructor|]. intros [Hall Hs]%StronglySorted_cons. rewrite fmap_cons, NoDup_cons.
  split; [|by apply IH]. intros (e' & He & Hin)%list_elem_of_fmap. rewrite Forall_forall in Hall.
  specialize (Hall _ Hin). unfold key_lt in Hall. rewrite He in Hall. by apply bytes_lt_irrefl in Hall.
Qed.
End scans.

Section snapshots.
Context `{reliable : RocksDBReliable} `{region_serde : Serde Region} `{region_laws : !SerdeLaws region_serde}
  `{region_state_serde : Serde RegionLocalState} `{region_state_laws : !SerdeLaws region_state_serde}
  `{apply_state_serde : Serde RaftApplyState} `{apply_state_laws : !SerdeLaws apply_state_serde}
  `{snapshot_serde : Serde SnapshotData} `{snapshot_laws : !SerdeLaws snapshot_serde}.

(** Destroying a range deletes exactly the raw keys the scan picks, of
    whatever column family or region they are. *)
Lemma destroy_range_run start_key end_key e :
  ∃ d, destroy_range start_key end_key e = (Ok tt, mkEngines d (en_raft e)) ∧
    ∀ k, db_view d !! k = if decide (in_scan start_key end_key k) then None else db_view (en_kv e) !! k.
Proof.
  unfold destroy_range. rewrite (M_bind_run get _ _ _ _ eq_refl). cbv beta.
  set (keys := (scan_range _ _).*1).
  assert (∀ k, k ∈ keys ↔ is_Some (db_view (en_kv e) !! k) ∧ in_scan start_key end_key k) as Hk.
  { intros k. unfold keys. rewrite list_elem_of_fmap. split.
    - intros ([k' v] & -> & [Hv Hs]%scan_spec). eauto.
    - intros [[v Hv] Hs]. exists (k, v). split; [done|]. by apply scan_spec. }
  destruct keys as [|k0 ks] eqn:E.
  - exists (en_kv e). destruct e as [kv raft]. split; [done|]. intros k. cbn in *. case_decide as Hs; [|done].
    apply eq_None_not_Some. intros Hv. by apply (not_elem_of_nil k), Hk.
  - destruct (db_write_ok (en_kv e) (BDelete <$> (k0 :: ks))) as [d Ed]. exists d. split.
    + unfold lift, modify, mbind, M_bind. by rewrite Ed.
    + intros k. rewrite (db_write_view _ _ _ Ed), foldl_delete_lookup.
      destruct (decide (k ∈ k0 :: ks)) as [Hin|Hin]; rewrite Hk in Hin.
      * by rewrite decide_True by tauto.
      * case_decide; [|done]. apply eq_None_not_Some. tauto.
Qed.

Lemma puts_lookup (f : bytes → bytes) (kvs : list (bytes * bytes)) (m : gmap bytes bytes) K :
  Inj (=) (=) f → NoDup kvs.*1 →
  (∀ k v, (k, v) ∈ kvs → foldl apply_op m ((λ kv, BPut (f kv.1) kv.2) <$> kvs) !! f k = Some v) ∧
  ((∀ kv, kv ∈ kvs → f kv.1 ≠ K) → foldl apply_op m ((λ kv, BPut (f kv.1) kv.2) <$> kvs) !! K = m !! K).
Proof.
  intros Hf. revert m. induction kvs as [|[k0 v0] kvs IH]; intros m; cbn [fmap list_fmap foldl apply_op fst snd].
  { intros _. split; [by intros k v ?%not_elem_of_nil|done]. }
  rewrite NoDup_cons. intros [Hk0 Hn]. split.
  - intros k v [[= -> ->]|Hin]%elem_of_cons; [|by apply IH].
    clear IH. revert Hk0. generalize m. clear m Hn. induction kvs as [|[k1 v1] kvs IH]; intros m Hk0; cbn.
    + apply lookup_insert_eq.
    + cbn in Hk0. apply not_elem_of_cons in Hk0 as [Hne Hk0].
      rewrite insert_insert_ne by (intros ?%Hf; congruence). by apply IH.
  - intros HK. destruct (IH (<[f k0 := v0]> m) Hn) as [_ H2]. rewrite H2.
    + apply lookup_insert_ne. exact (HK (k0, v0) (list_elem_of_here _ _)).
    + intros kv Hkv. apply HK. by right.
Qed.

#[local] Instance key_with_cf_inj cf : Inj (=) (=) (key_with_cf cf).
Proof. intros a b H. unfold key_with_cf in H. apply app_inv_head in H. by injection H. Qed.

Lemma set_cf_all kvs wb :
  wb_entries (foldl (λ wb kv, set_cf CF_DEFAULT kv.1 kv.2 wb) wb kvs) =
  wb_entries wb ++ ((λ kv : bytes * bytes, BPut (key_with_cf CF_DEFAULT kv.1) kv.2) <$> kvs).
Proof.
  revert wb. induction kvs as [|kv kvs IH]; intros wb; cbn; [by rewrite app_nil_r|].
  rewrite IH. cbn. by rewrite <- app_assoc.
Qed.

(** A snapshot of region [r] of the source, applied to the target: the raw
    keys of the scan are deleted from the target; then every raw key of the
    source's scan is written again, as a key of the default column family;
    then the region's state.  The rest of the target, but for the apply state,
    which is written back when it is still there, is as before. *)
Lemma snapshot_run id source target st r :
  get_region_local_state id source = Ok (Some st) → deserialize (rls_region_bytes st) = Ok r → rg_id r = id →
  (∀ v, db_view (en_kv target) !! key_with_cf "" (apply_state_key id) = Some v → ∃ s : RaftApplyState, deserialize v = Ok s) →
  ∃ data d,
    gen_snapshot id source = Ok data ∧ apply_snapshot id data target = (Ok true, mkEngines d (en_raft target)) ∧
    (∀ k v, db_view (en_kv source) !! k = Some v → in_scan (rg_start_key r) (rg_end_key r) k →
       db_view d !! key_with_cf CF_DEFAULT k = Some v) ∧
    (∀ K, K ≠ key_with_cf "" (region_state_key id) → K ≠ key_with_cf "" (apply_state_key id) →
       (∀ k, in_scan (rg_start_key r) (rg_end_key r) k → is_Some (db_view (en_kv source) !! k) → K ≠ key_with_cf CF_DEFAULT k) →
       db_view d !! K = if decide (in_scan (rg_start_key r) (rg_end_key r) K) then None else db_view (en_kv target) !! K) ∧
    (∃ st' , get_region_local_state id (mkEngines d (en_raft target)) = Ok (Some st') ∧
       rls_state st' = PsNormal ∧ deserialize (rls_region_bytes st') = Ok r).
Proof.
  intros Hst Hr Hid Happ. destruct (serialize_ok r) as (buf & Hbuf & Hbuf').
  set (kvs := scan_range (rg_end_key r) (raw_seek (rg_start_key r) (db_items (en_kv source)))).
  destruct (serialize_ok (mkSnapshotData buf kvs)) as (data & Hdata & Hdata').
  destruct (serialize_ok (mkRegionLocalState PsNormal buf)) as (sv & Hsv & Hsv').
  destruct (destroy_range_run (rg_start_key r) (rg_end_key r) target) as (d1 & Hd1 & V1).
  set (wb1 := foldl (λ wb kv, set_cf CF_DEFAULT kv.1 kv.2 wb) WriteBatch_new kvs).
  set (wb2 := set_cf "" (region_state_key id) sv wb1).
  assert (write_region_state r PsNormal wb1 = Ok wb2) as Hwb2.
  { unfold write_region_state. rewrite Hbuf. cbn. rewrite Hsv. cbn. by rewrite Hid. }
  assert (∃ oa, get_apply_state id (mkEngines d1 (en_raft target)) = Ok oa) as [oa Hoa].
  { unfold get_apply_state, read_value, get_cf. rewrite db_get_ok, V1. cbn. case_decide; [by eexists|].
    destruct (db_view (en_kv target) !! _) as [v|] eqn:Ev; [|by eexists].
    destruct (Happ v eq_refl) as [s ->]. by eexists. }
  assert (∃ wb3 extra, (match oa with Some s => write_apply_state id s wb2 | None => Ok wb2 end) = Ok wb3 ∧
    wb_entries wb3 = wb_entries wb2 ++ extra ∧
    ∀ (m : gmap bytes bytes) K, K ≠ key_with_cf "" (apply_state_key id) → foldl apply_op m extra !! K = m !! K)
    as (wb3 & extra & Hwb3 & Hent & Hextra).
  { destruct oa as [s|].
    - destruct (serialize_ok s) as (v & Hv & _). eexists _, [BPut (key_with_cf "" (apply_state_key id)) v].
      unfold write_apply_state. rewrite Hv. split; [done|]. split; [done|]. intros m K HK. cbn. by apply lookup_insert_ne.
    - exists wb2, []. by rewrite app_nil_r. }
  assert (∃ d, write_to_db wb3 d1 = Ok d ∧ db_view d = foldl apply_op (db_view d1) (wb_entries wb3)) as (d & Hd & V).
  { unfold write_to_db. destruct (wb_entries wb3) as [|o os] eqn:E; [by exists d1|].
    destruct (db_write_ok d1 (o :: os)) as [d Hd]. exists d. split; [done|]. by apply db_write_view. }
  assert (wb_entries wb3 = ((λ kv : bytes * bytes, BPut (key_with_cf CF_DEFAULT kv.1) kv.2) <$> kvs) ++
      [BPut (key_with_cf "" (region_state_key id)) sv] ++ extra) as Hent3.
  { rewrite Hent. unfold wb2. cbn [wb_entries set_cf]. unfold wb1. rewrite set_cf_all. by rewrite <- app_assoc. }
  rewrite Hent3, !foldl_app in V. cbn [foldl apply_op] in V.
  assert (NoDup kvs.*1) as Hn by (apply sorted_keys_nodup, scan_sorted, raw_seek_sorted, db_items_sorted).
  pose proof (puts_lookup (key_with_cf CF_DEFAULT) kvs (db_view d1)) as Hputs.
  set (m1 := foldl apply_op (db_view d1) _) in V, Hputs.
  assert (∀ id k, key_with_cf "" (apply_state_key id) ≠ key_with_cf CF_DEFAULT k) as Hne1 by (by intros ?? [=]).
  assert (∀ id k, key_with_cf "" (region_state_key id) ≠ key_with_cf CF_DEFAULT k) as Hne2 by (by intros ?? [=]).
  assert (key_with_cf "" (region_state_key id) ≠ key_with_cf "" (apply_state_key id)) as Hne3 by (by intros [=]).
  exists data, d. split_and!.
  - unfold gen_snapshot. rewrite Hst. cbn. rewrite Hr. cbn. fold kvs. rewrite Hbuf. cbn. exact Hdata.
  - assert (write_kv wb3 (mkEngines d1 (en_raft target)) = (Ok tt, mkEngines d (en_raft target))) as Hw.
    { unfold write_kv. rewrite (M_bind_run get _ _ _ _ eq_refl). cbv beta. by rewrite (M_bind_lift _ _ _ _ Hd). }
    unfold apply_snapshot. rewrite (M_bind_lift _ _ _ _ Hdata'). cbn [sd_region_bytes sd_kvs].
    rewrite (M_bind_lift _ _ _ _ Hbuf'), (M_bind_run _ _ _ _ _ Hd1). cbv zeta. fold wb1.
    rewrite (M_bind_lift _ _ _ _ Hwb2), (M_bind_run get _ _ _ _ eq_refl). cbv beta.
    rewrite (M_bind_lift _ _ _ _ Hoa), (M_bind_lift _ _ _ _ Hwb3).
    by rewrite (M_bind_run _ _ _ _ _ Hw).
  - intros k v Hv Hin. rewrite V, Hextra by done. rewrite lookup_insert_ne by done.
    destruct (Hputs k _ Hn) as [H1 _]. apply H1. apply scan_spec. done.
  - intros K HK1 HK2 HK3. rewrite V, Hextra by done. rewrite lookup_insert_ne by done.
    destruct (Hputs K _ Hn) as [_ H2]. rewrite H2; [apply V1|].
    intros [k v] [Hkv Hin]%scan_spec. cbn. intros HK. by apply (HK3 k Hin).
  - exists (mkRegionLocalState PsNormal buf). split; [|done].
    unfold get_region_local_state, read_value, get_cf. rewrite db_get_ok. cbn. rewrite V, Hextra by done.
    rewrite lookup_insert_eq. cbn. by rewrite Hsv'.
Qed.

(** FINDING: a snapshot of a region whose range is not bounded, applied to a
    store, does not restore the region and wipes the store.  The scans compare
    the bounds of the region with raw keys, which start with the name of their
    column family, and the keys of the metadata start with an underscore: so
    everything is deleted, of every region; what is written back is the
    snapshot's raw keys once more under the default column family, where no
    reader looks. *)
Theorem snapshot_wipes_store (id : Z) (source target : Engines) (st : RegionLocalState) (r : Region) :
  is_u64 id →
  get_region_local_state id source = Ok (Some st) → deserialize (rls_region_bytes st) = Ok r → rg_id r = id →
  rg_start_key r = [] → rg_end_key r = [] →
  (∀ v, db_view (en_kv target) !! key_with_cf "" (apply_state_key id) = Some v → ∃ s : RaftApplyState, deserialize v = Ok s) →
  ∃ data target', gen_snapshot id source = Ok data ∧ apply_snapshot id data target = (Ok true, target') ∧
    (∀ k v, get_cf (en_kv source) CF_DEFAULT k = Ok (Some v) →
       db_view (en_kv source) !! k = None →
       get_cf (en_kv target') CF_DEFAULT k = Ok None ∧
       get_cf (en_kv target') CF_DEFAULT (key_with_cf CF_DEFAULT k) = Ok (Some v)) ∧
    (∀ id', is_u64 id' → id' ≠ id → get_region_local_state id' target' = Ok None).
Proof.
  intros Hu Hst Hr Hid Hs He Happ. destruct (snapshot_run id source target st r Hst Hr Hid Happ)
    as (data & d & Hgen & Hap & Hput & Hrest & _).
  rewrite Hs, He in Hput, Hrest.
  assert (∀ b k, 16 ≤ b2z b → in_scan [] [] (b :: k)) as Hscan.
  { intros b k Hb. split; [apply bytes_leb_nil_l|]. split; [by left|]. cbn. by apply Z.ltb_ge. }
  exists data, (mkEngines d (en_raft target)). split; [done|]. split; [done|]. cbn [en_kv]. split.
  - intros k v Hk Hnone. unfold get_cf in *. rewrite db_get_ok in Hk. injection Hk as Hk. rewrite !db_get_ok. split.
    + rewrite Hrest; [by rewrite decide_True by (apply Hscan; by vm_compute)|by intros [=]|by intros [=]|].
      intros k' _ Hk' <-%(inj (key_with_cf CF_DEFAULT)). rewrite Hnone in Hk'. by destruct Hk'.
    + f_equal. apply Hput; [done|]. apply Hscan. by vm_compute.
  - intros id' Hu' Hne. unfold get_region_local_state, get_cf. rewrite db_get_ok. cbn [en_kv].
    rewrite Hrest; [by rewrite decide_True by (apply Hscan; by vm_compute)| |by intros [=]|by intros ? _ _ [=]].
    intros ?%(inj (key_with_cf ""))%region_state_key_inj; done.
Qed.
End snapshots.

(** ** Recovery *)

Section recovery.
Context `{reliable : RocksDBReliable} `{region_serde : Serde Region}
  `{region_state_serde : Serde RegionLocalState}.

Definition region_key (id : Z) : bytes := key_with_cf "" (region_state_key id).

(** What is under a key of the region metadata is the state of the region
    with the id of the key. *)
Definition meta_ok (e : Engines) : Prop := ∀ k v,
  db_view (en_kv e) !! k = Some v → [Byte.x5f; REGION_META_PREFIX] `prefix_of` k →
  ∃ id st r, is_u64 id ∧ k = region_key id ∧ deserialize v = Ok st ∧
    deserialize (rls_region_bytes st) = Ok r ∧ rg_id r = id.

(** [r] is a region the store takes part in. *)
Definition recoverable (store_id : Z) (e : Engines) (r : Region) : Prop :=
  is_u64 (rg_id r) ∧
  ∃ st, get_region_local_state (rg_id r) e = Ok (Some st) ∧ rls_state st = PsNormal ∧
    deserialize (rls_region_bytes st) = Ok r ∧ ∃ p, p ∈ rg_peers r ∧ pr_store_id p = store_id.

Lemma region_key_lt id id' : is_u64 id → is_u64 id' → bytes_lt (region_key id) (region_key id') → id < id'.
Proof.
  intros Hid Hid'. unfold bytes_lt.
  assert (∀ i, region_key i = [Byte.x5f; REGION_META_PREFIX] ++ u64_to_be_bytes i ++ [REGION_STATE_SUFFIX]) as Hk by done.
  rewrite !Hk, bytes_cmp_app_same.
  intros H. destruct (decide (id = id')) as [->|Hne]; [by rewrite bytes_cmp_refl in H|].
  rewrite bytes_cmp_app_ne in H.
  - rewrite from_be_cmp, !from_be_u64 in H by (rewrite ?length_u64_bytes; done). exact H.
  - by rewrite !length_u64_bytes.
  - intros E. by apply Hne, u64_bytes_inj.
Qed.

Lemma bytes_leb_head a x b y : bytes_leb (a :: x) (b :: y) = true → b2z a ≤ b2z b.
Proof. unfold bytes_leb. cbn. destruct (Z.compare_spec (b2z a) (b2z b)); [lia|lia|done]. Qed.

(** No region key comes at or after a key that starts behind the underscore. *)
Lemma behind_regions b k id k' :
  b ≠ Byte.x5f → bytes_leb [Byte.x5f; REGION_META_PREFIX] (b :: k) = true → bytes_leb (b :: k) k' = true →
  k' ≠ region_key id.
Proof.
  intros Hb Hge%bytes_leb_head Hk' ->. apply bytes_leb_head in Hk'. apply Hb, (inj b2z).
  change (str_bytes "") with (@nil byte) in *. lia.
Qed.

Lemma region_key_head id b0 b1 k : region_key id = b0 :: b1 :: k → b0 = Byte.x5f ∧ b1 = REGION_META_PREFIX.
Proof. by intros [= <- <- _]. Qed.

Lemma recover_break store_id e k v items :
  StronglySorted key_lt ((k, v) :: items) → (∀ id, k ≠ region_key id) →
  (∀ id k', bytes_leb k k' = true → k' ≠ region_key id) →
  ∃ l, Ok [] = Ok l ∧ StronglySorted Z.lt (rg_id <$> l) ∧
    ∀ r, r ∈ l ↔ recoverable store_id e r ∧ ∃ v0, (region_key (rg_id r), v0) ∈ (k, v) :: items.
Proof.
  intros [Hall _]%StronglySorted_cons Hk Hno. exists []. split; [done|]. split; [constructor|]. intros r.
  split; [by intros ?%not_elem_of_nil|]. intros (_ & v0 & [[= Heq _]|Hin]%elem_of_cons).
  - by destruct (Hk (rg_id r)).
  - rewrite Forall_forall in Hall. specialize (Hall _ Hin). exfalso. eapply Hno; [|done].
    apply bytes_leb_lt_or_eq. left. exact Hall.
Qed.

(** The loop over some of the keys, in order: it returns the regions of these
    keys that the store takes part in, with increasing ids. *)
Lemma recover_loop_run store_id e items :
  meta_ok e → StronglySorted key_lt items →
  (∀ k v, (k, v) ∈ items → db_view (en_kv e) !! k = Some v ∧ bytes_leb [Byte.x5f; REGION_META_PREFIX] k = true) →
  ∃ l, recover_loop store_id e items = Ok l ∧
    StronglySorted Z.lt (rg_id <$> l) ∧
    ∀ r, r ∈ l ↔ recoverable store_id e r ∧ ∃ v, (region_key (rg_id r), v) ∈ items.
Proof.
  intros Hm. induction items as [|[k v] items IH]; intros Hs Hin.
  { exists []. split; [done|]. split; [constructor|]. set_solver. }
  pose proof Hs as [Hall Hs']%StronglySorted_cons.
  destruct IH as (l & El & Hsl & Hl); [done|intros; apply Hin; by right|].
  destruct (Hin k v (list_elem_of_here _ _)) as [Hv Hge].
  assert ((∀ r, recoverable store_id e r → k ≠ region_key (rg_id r)) → ∃ l, recover_loop store_id e items = Ok l ∧
    StronglySorted Z.lt (rg_id <$> l) ∧
    ∀ r, r ∈ l ↔ recoverable store_id e r ∧ ∃ v0, (region_key (rg_id r), v0) ∈ (k, v) :: items) as Hskip.
  { intros Hk. exists l. split; [done|]. split; [done|]. intros r. rewrite Hl. setoid_rewrite elem_of_cons.
    split; [naive_solver|]. intros (Hr & v0 & [[= Heq _]|?]); [|eauto]. by destruct (Hk r Hr). }
  cbn [recover_loop]. destruct k as [|b0 [|b1 k]]; [done| |].
  - destruct (decide (b0 ≠ Byte.x5f)) as [Hb|Hb]; [|apply dec_stable in Hb; by subst].
    apply recover_break; [done|by intros id [=]|]. intros id k' Hk'. by eapply behind_regions.
  - destruct (decide (b0 ≠ Byte.x5f)) as [Hb|Hb].
    { apply recover_break; [done|intros id H; by symmetry in H; apply region_key_head in H as [? _]|].
      intros id k' Hk'. by eapply behind_regions. }
    apply dec_stable in Hb as ->.
    destruct (decide (b1 ≠ REGION_META_PREFIX)) as [Hb1|Hb1].
    { apply Hskip. intros r _ H. symmetry in H. by apply region_key_head in H as [_ ?]. }
    apply dec_stable in Hb1 as ->.
    destruct (Hm _ _ Hv) as (id & st & r & Hu & Hk & Hd & Hr & Hid); [by exists k|].
    assert (get_region_local_state id e = Ok (Some st)) as Hst.
    { unfold get_region_local_state, get_cf, read_value. fold (region_key id). rewrite db_get_ok, <- Hk, Hv. cbn.
      by rewrite Hd. }
    assert (decode_region_meta_key (REGION_META_PREFIX :: k) = Ok (id, REGION_STATE_SUFFIX)) as ->.
    { assert (REGION_META_PREFIX :: k = region_state_key id) as -> by exact (f_equal tail Hk).
      by apply decode_region_state_key. }
    rewrite Hst.
    assert (∀ r', recoverable store_id e r' → region_key (rg_id r') = region_key id → r' = r ∧ rls_state st = PsNormal) as Hsame.
    { intros r' (Hu' & st' & Hst' & Hn' & Hd' & _) Heq.
      assert (rg_id r' = id) as E by (by apply (inj (key_with_cf "")), region_state_key_inj in Heq).
      rewrite E, Hst in Hst'. injection Hst' as <-. rewrite Hr in Hd'. by injection Hd' as ->. }
    destruct (decide (rls_state st = PsTombstone)) as [Ht|Ht].
    { apply Hskip. intros r' Hr' Heq. rewrite Hk in Heq. destruct (Hsame r' Hr') as [_ ?]; [done|congruence]. }
    rewrite Hr. cbn. rewrite El. cbn.
    destruct (existsb _ _) eqn:Hb.
    + apply existsb_exists in Hb as (p & Hp%list_elem_of_In & Hps%Z.eqb_eq). exists (r :: l).
      assert (recoverable store_id e r) as Hrr.
      { split; [by rewrite Hid|]. exists st. rewrite Hid. split_and!; try done; [by destruct (rls_state st)|eauto]. }
      split; [done|]. split.
      * rewrite fmap_cons. apply StronglySorted_cons. split; [|done]. rewrite Forall_fmap. apply Forall_forall.
        intros r' Hr'%Hl. destruct Hr' as ((Hu' & _) & v' & Hv'). rewrite Forall_forall in Hall. specialize (Hall _ Hv').
        cbn. rewrite Hid. apply region_key_lt; [done..|]. unfold key_lt in Hall. cbn [fst] in Hall. by rewrite <- Hk.
      * intros r'. rewrite elem_of_cons, Hl. setoid_rewrite elem_of_cons. split.
        -- intros [->|(? & v' & ?)]; [|eauto]. split; [done|]. exists v. left. by rewrite Hid, Hk.
        -- intros (Hr' & v' & [Heq%(f_equal fst)|?]); [|eauto]. left. apply (Hsame r' Hr'). cbn [fst] in Heq. by rewrite <- Hk.
    + destruct Hskip as (l' & El' & H1 & H2).
      * intros r' Hr' Heq. destruct (Hsame r' Hr') as [-> _]; [by rewrite <- Hk|].
        destruct Hr' as (_ & st' & _ & _ & _ & p & Hp & Hps).
        apply not_true_iff_false in Hb. apply Hb, existsb_exists. exists p. split; [by apply list_elem_of_In|]. by apply Z.eqb_eq.
      * exists l'. rewrite El in El'. injection El' as <-. done.
Qed.

(** C39: A store finds at its start exactly the regions it takes part in: those
    whose state is recorded, not as a tombstone, with a peer on the store; each
    once, by increasing id, whatever else the database holds. *)
Theorem recover_regions_exact (store_id : Z) (e : Engines) :
  meta_ok e →
  ∃ l, recover_regions store_id e = Ok l ∧ StronglySorted Z.lt (rg_id <$> l) ∧
    ∀ r, r ∈ l ↔ recoverable store_id e r.
Proof.
  intros Hm. unfold recover_regions.
  destruct (recover_loop_run store_id e (raw_seek [Byte.x5f; REGION_META_PREFIX] (db_items (en_kv e))) Hm)
    as (l & E & Hs & Hl).
  - apply raw_seek_sorted, db_items_sorted.
  - intros k v. rewrite raw_seek_elem by apply db_items_sorted. by rewrite db_items_view.
  - exists l. split; [done|]. split; [done|]. intros r. rewrite Hl. split; [tauto|]. intros Hr. split; [done|].
    destruct Hr as (Hu & st & Hst & _). unfold get_region_local_state, get_cf, read_value in Hst.
    rewrite db_get_ok in Hst. destruct (db_view (en_kv e) !! key_with_cf "" _) as [v|] eqn:Ev; [|done].
    exists v. apply raw_seek_elem; [apply db_items_sorted|]. split; [by apply db_items_view|].
    done.
Qed.
End recovery.

(** ** The split key *)

Section splitting.
Context `{laws : RocksDBLaws}.

Lemma key_with_cf_prefix cf key : key_with_cf cf key = (str_bytes cf ++ [Byte.x5f]) ++ key.
Proof. unfold key_with_cf. by rewrite <- app_assoc. Qed.

Lemma scan_cf_loop_key c prefix end_key items size o key :
  (scan_cf_loop c prefix end_key size o items).2 = Some key →
  o = Some key ∨ ∃ v, (prefix ++ key, v) ∈ items ∧ (end_key = [] ∨ bytes_lt key end_key).
Proof.
  revert size o. induction items as [|[k v] items IH]; intros size o; cbn [scan_cf_loop]; [by left|].
  destruct (starts_with prefix k) eqn:Hp; cbn [negb]; [|by left].
  apply starts_with_spec in Hp as [x ->]. rewrite drop_app_length.
  destruct (negb (bool_decide (end_key = [])) && exceed_end_key x end_key) eqn:He; [by left|].
  apply past_end_spec in He. set (size' := size + _).
  set (o' := if (sc_split_size c <? size') && bool_decide (o = None) then Some x else o).
  assert (o' = Some key → o = Some key ∨ ∃ v0, (prefix ++ key, v0) ∈ (prefix ++ x, v) :: items ∧ (end_key = [] ∨ bytes_lt key end_key)) as Ho.
  { subst o'. destruct (_ && _); [|by left]. intros [= ->]. right. exists v. split; [left|done]. }
  case_match; [exact Ho|]. intros [H'|(v0 & Hin & Hlt)]%IH; [by apply Ho|]. right. exists v0. split; [by right|done].
Qed.

Lemma scan_cf_key c d cf start_key end_key size key :
  from_utf8_lossy start_key = start_key →
  scan_cf c d cf start_key end_key = Some (size, key) →
  0 < size ∧ (key = [] ∨ (∃ v, db_view d !! key_with_cf cf key = Some v) ∧
    bytes_leb start_key key = true ∧ (end_key = [] ∨ bytes_lt key end_key)).
Proof.
  intros Hl. unfold scan_cf. rewrite Hl. set (prefix := str_bytes cf ++ _).
  assert ((match start_key with [] => prefix | _ :: _ => prefix ++ start_key end) = prefix ++ start_key) as ->
    by (destruct start_key; [by rewrite app_nil_r|done]).
  pose proof (scan_cf_loop_key c prefix end_key (raw_seek (prefix ++ start_key) (db_items d)) 0 None) as Hkey.
  destruct (scan_cf_loop _ _ _ _ _ _) as [size0 [key0|]]; cbn in Hkey; destruct (Z.ltb_spec 0 size0) as [H0|]; try done;
    intros [= <- <-]; (split; [done|]); [|by left].
  destruct (Hkey key0 eq_refl) as [|(v & Hin & Hend)]; [done|]. right.
  rewrite raw_seek_elem, db_items_view in Hin by apply db_items_sorted. destruct Hin as [Hv Hge].
  split_and!; [exists v; by rewrite key_with_cf_prefix| |done].
  unfold bytes_leb in *. by rewrite bytes_cmp_app_same in Hge.
Qed.

(** A usable split key, of some column family. *)
Definition split_key_in (d : db) (region : Region) (key : bytes) : Prop :=
  (∃ cf v, cf ∈ CFS ∧ db_view d !! key_with_cf cf key = Some v) ∧
  bytes_leb (rg_start_key region) key = true ∧ (rg_end_key region = [] ∨ bytes_lt key (rg_end_key region)).

Lemma check_loop_run c d region cfs total o :
  from_utf8_lossy (rg_start_key region) = rg_start_key region →
  cfs ⊆ CFS →
  (∀ key, o = Some key → key = [] ∨ split_key_in d region key) →
  (total ≤ sc_split_size c ∨ is_Some o) →
  let '(total', o') := check_loop c d region cfs total o in
  (∀ key, o' = Some key → key = [] ∨ split_key_in d region key) ∧ (total' ≤ sc_split_size c ∨ is_Some o').
Proof.
  intros Hl. revert total o. induction cfs as [|cf cfs IH]; intros total o Hsub Ho Ht; cbn [check_loop]; [done|].
  destruct (scan_cf _ _ _ _ _) as [[size key0]|] eqn:E; [|apply IH; [set_solver|done|done]].
  apply scan_cf_key in E as [H0 Hk0]; [|done]. set (o' := if (sc_split_size c <? total + size) && bool_decide (o = None) then Some key0 else o).
  assert (∀ key, o' = Some key → key = [] ∨ split_key_in d region key) as Ho'.
  { subst o'. intros key. destruct (_ && _); [|apply Ho]. intros [= ->].
    destruct Hk0 as [|((v & Hv) & ? & ?)]; [by left|right]. split; [|done]. exists cf, v. split; [set_solver|done]. }
  assert (total + size ≤ sc_split_size c ∨ is_Some o') as Ht'.
  { subst o'. destruct (Z.ltb_spec (sc_split_size c) (total + size)); [|by left]. right. cbn [andb].
    destruct o as [k|]; [by rewrite bool_decide_eq_false_2|by rewrite bool_decide_eq_true_2]. }
  clearbody o'. clear Ho Ht. destruct (sc_max_size c <? total + size); [done|]. apply IH; [set_solver|done|done].
Qed.

(** The split check of a region asks for a split exactly when the region has
    reached its maximal size.  Where the start key is valid UTF-8, the key it
    proposes is either empty or lies in the region and is a key of one of the
    column families. *)
Theorem split_check_sound (c : SplitChecker) (d : db) (region : Region) :
  from_utf8_lossy (rg_start_key region) = rg_start_key region →
  0 ≤ sc_split_size c < sc_max_size c →
  let (total, o) := check c d region in
  (is_Some o ↔ sc_max_size c ≤ total) ∧ (∀ key, o = Some key → key = [] ∨ split_key_in d region key).
Proof.
  intros Hl [H0 Hs]. pose proof (check_loop_run c d region CFS 0 None Hl) as Hrun. unfold check.
  destruct (check_loop _ _ _ _ _ _) as [total o]. destruct Hrun as [Hk Ht]; [done|done|by left|].
  destruct (Z.ltb_spec total (sc_max_size c)) as [Hlt|Hge]; (split; [|done]).
  - split; [by intros []|lia].
  - split; [done|]. intros _. destruct Ht; [lia|done].
Qed.
End splitting.

(** ** At a concrete database *)

#[export] Instance SnapshotData_eq_dec : EqDecision SnapshotData.
Proof. solve_decision. Defined.
#[export] Instance SnapshotData_countable : Countable SnapshotData.
Proof.
  refine (inj_countable' (λ s, (sd_region_bytes s, sd_kvs s)) (λ '(r, kvs), mkSnapshotData r kvs) _). by intros [].
Defined.

Section samples.
#[local] Existing Instance map_db.
#[local] Existing Instance map_db_laws.
#[local] Existing Instance map_db_reliable.
#[local] Existing Instance countable_serde.
#[local] Existing Instance countable_serde_laws.

Definition sample_region : Region := mkRegion 7 [] [] None [mkPeer 11 1].
Definition sample_state : RegionLocalState := mkRegionLocalState PsNormal (bits sample_region).
Definition kv_db (d : gmap bytes bytes) : Engines := mkEngines (d : db (RocksDB := map_db)) None.
Definition sample_source : Engines :=
  kv_db (<[key_with_cf CF_DEFAULT [Byte.x61] := [Byte.x2a]]> {[region_key 7 := bits sample_state]}).

Lemma snapshot_wipes_store_witness :
  ∃ data target', gen_snapshot 7 sample_source = Ok data ∧ apply_snapshot 7 data (kv_db ∅) = (Ok true, target') ∧
    get_cf (en_kv target') CF_DEFAULT [Byte.x61] = Ok None.
Proof.
  destruct (snapshot_wipes_store 7 sample_source (kv_db ∅) sample_state sample_region)
    as (data & target' & H1 & H2 & H3 & _); [by vm_compute..| |].
  - by intros v.
  - exists data, target'. split; [exact H1|]. split; [exact H2|].
    refine (proj1 (H3 [Byte.x61] [Byte.x2a] _ _)); by vm_compute.
Defined.

Lemma sample_recoverable : recoverable 1 sample_source sample_region.
Proof.
  unfold recoverable. split; [by vm_compute|]. exists sample_state. split; [by vm_compute|]. split; [done|].
  split; [by vm_compute|]. exists (mkPeer 11 1). split; [by left|done].
Qed.
Lemma recover_regions_exact_witness :
  ∃ l, recover_regions 1 sample_source = Ok l ∧ sample_region ∈ l.
Proof.
  destruct (recover_regions_exact 1 sample_source) as (l & E & _ & Hl).
  - intros k v. unfold db_view. cbn [map_db_laws]. unfold sample_source, kv_db. cbn [en_kv].
    intros [[<- _]|[_ [<- <-]%lookup_singleton_Some]]%lookup_insert_Some.
    + intros [x [=]].
    + intros _. exists 7, sample_state, sample_region. by vm_compute.
  - exists l. split; [exact E|]. apply Hl, sample_recoverable.
Defined.

Definition sample_checker : SplitChecker := mkSplitChecker 10 6.
Definition two_keys : db (RocksDB := map_db) :=
  <[key_with_cf CF_DEFAULT [Byte.x61] := repeat Byte.x00 4]> {[key_with_cf CF_DEFAULT [Byte.x62] := repeat Byte.x00 4]}.
Lemma split_check_sound_witness :
  check sample_checker two_keys sample_region = (10, Some [Byte.x62]) ∧
  split_key_in two_keys sample_region [Byte.x62].
Proof.
  pose proof (split_check_sound sample_checker two_keys sample_region eq_refl ltac:(by vm_compute)) as H.
  assert (E : check sample_checker two_keys sample_region = (10, Some [Byte.x62])) by (clear H; by vm_compute).
  split; [exact E|]. rewrite E in H. destruct H as [_ H]. clear E.
  destruct (H [Byte.x62] eq_refl) as [|H']; [discriminate|exact H'].
Defined.

(** FINDING: the split key can be useless.  When the size is reached with a
    second column family, though no family reaches the split size by itself,
    the empty key is proposed; and where the start key is not valid UTF-8, the
    scan starts at another key than it, so a key below the region is
    proposed. *)
Theorem split_key_unusable :
  check sample_checker
    (<[key_with_cf CF_DEFAULT [Byte.x61] := repeat Byte.x00 4]>
       ({[key_with_cf CF_WRITE [Byte.x61] := repeat Byte.x00 4]} : gmap bytes bytes) : db (RocksDB := map_db))
    sample_region = (10, Some []) ∧
  (let region := mkRegion 7 [Byte.xff] [] None [mkPeer 11 1] in
   let d : db (RocksDB := map_db) :=
     ({[key_with_cf CF_DEFAULT [Byte.xf0] := repeat Byte.x00 9]} : gmap bytes bytes) in
   check sample_checker d region = (10, Some [Byte.xf0]) ∧ bytes_lt [Byte.xf0] (rg_start_key region)).
Proof. by vm_compute. Qed.
End samples.
