(* ===== verification/Config.v ===== *)
(** The configuration of a store: src/config.rs.  Durations are numbers of
    nanoseconds; the value of the environment variable LOG_LEVEL, if it is set
    and valid, is an argument. *)

From S2P Require Import Prelude RaftTypes.

Record Config := mkConfig {
  cf_store_addr : string;
  cf_raft : bool;
  cf_scheduler_addr : string;
  cf_log_level : string;
  cf_db_path : string;
  cf_pd_endpoints : list string;
  cf_raft_base_tick_interval : Z;
  cf_raft_heartbeat_ticks : Z;
  cf_raft_election_timeout_ticks : Z;
  cf_raft_log_gc_tick_interval : Z;
  cf_raft_log_gc_count_limit : Z;
  cf_split_region_check_tick_interval : Z;
  cf_scheduler_heartbeat_tick_interval : Z;
  cf_scheduler_store_heartbeat_tick_interval : Z;
  cf_region_max_size : Z;
  cf_region_split_size : Z;
  cf_hot_path : option string;
  cf_warm_path : option string;
  cf_cold_path : option string;
  cf_promote_threshold : Z;
  cf_demote_threshold : Z;
  cf_hysteresis : Z;
  cf_rebalance_interval : Z;
}.

Definition from_secs (s : Z) : Z := s * 10 ^ 9.
Definition from_millis (ms : Z) : Z := ms * 10 ^ 6.
Definition KB : Z := 1024.
Definition MB : Z := 1024 * 1024.

Definition validate (c : Config) : outcome unit :=
  if cf_raft_heartbeat_ticks c =? 0 then Err "heartbeat tick must greater than 0"
  else if cf_raft_election_timeout_ticks c <=? cf_raft_heartbeat_ticks c
       then Err "election tick must be greater than heartbeat tick"
  else Ok tt.

Definition get_log_level (env : option string) : string := default "info" env.

Definition new_default (env : option string) : Config := {|
  cf_store_addr := "127.0.0.1:20160";
  cf_raft := true;
  cf_scheduler_addr := "127.0.0.1:2379";
  cf_log_level := get_log_level env;
  cf_db_path := "/tmp/aegisdb";
  cf_pd_endpoints := ["http://127.0.0.1:2379"];
  cf_raft_base_tick_interval := from_secs 1;
  cf_raft_heartbeat_ticks := 2;
  cf_raft_election_timeout_ticks := 10;
  cf_raft_log_gc_tick_interval := from_secs 10;
  cf_raft_log_gc_count_limit := 128000;
  cf_split_region_check_tick_interval := from_secs 10;
  cf_scheduler_heartbeat_tick_interval := from_secs 10;
  cf_scheduler_store_heartbeat_tick_interval := from_secs 10;
  cf_region_max_size := 144 * 1024 * 1024;
  cf_region_split_size := 96 * 1024 * 1024;
  cf_hot_path := None;
  cf_warm_path := None;
  cf_cold_path := None;
  cf_promote_threshold := 3;
  cf_demote_threshold := 1;
  cf_hysteresis := 1;
  cf_rebalance_interval := from_secs 30;
|}.

Definition new_test (env : option string) : Config := {|
  cf_store_addr := "127.0.0.1:20160";
  cf_raft := true;
  cf_scheduler_addr := "127.0.0.1:2379";
  cf_log_level := get_log_level env;
  cf_db_path := "/tmp/aegisdb_test";
  cf_pd_endpoints := ["http://127.0.0.1:2379"];
  cf_raft_base_tick_interval := from_millis 50;
  cf_raft_heartbeat_ticks := 2;
  cf_raft_election_timeout_ticks := 10;
  cf_raft_log_gc_tick_interval := from_millis 50;
  cf_raft_log_gc_count_limit := 128000;
  cf_split_region_check_tick_interval := from_millis 100;
  cf_scheduler_heartbeat_tick_interval := from_millis 100;
  cf_scheduler_store_heartbeat_tick_interval := from_millis 500;
  cf_region_max_size := 144 * 1024 * 1024;
  cf_region_split_size := 96 * 1024 * 1024;
  cf_hot_path := None;
  cf_warm_path := None;
  cf_cold_path := None;
  cf_promote_threshold := 3;
  cf_demote_threshold := 1;
  cf_hysteresis := 1;
  cf_rebalance_interval := from_millis 500;
|}.

(** [as usize] of an [i32], on a 64-bit machine. *)
Definition i32_as_usize (z : Z) : Z := z mod 2 ^ 64.
Definition is_i32 (z : Z) : Prop := - 2 ^ 31 ≤ z < 2 ^ 31.

(** The configuration of Raft that src/raftstore/peer.rs makes of it. *)
Definition raft_config_of (c : Config) (id : Z) (peers : list Z) (storage : RStorage) (applied : Z) : RaftConfig :=
  mkRaftConfig id peers (i32_as_usize (cf_raft_election_timeout_ticks c))
    (i32_as_usize (cf_raft_heartbeat_ticks c)) storage applied.

Lemma i32_as_usize_spec z : is_i32 z → i32_as_usize z = if decide (z < 0) then z + 2 ^ 64 else z.
Proof.
  unfold is_i32, i32_as_usize. intros Hz. case_decide.
  - rewrite <- (Z.mod_unique z (2 ^ 64) (-1) (z + 2 ^ 64)); lia.
  - by rewrite Z.mod_small by lia.
Qed.

Lemma validate_ok c :
  validate c = Ok tt ↔
    cf_raft_heartbeat_ticks c ≠ 0 ∧ cf_raft_heartbeat_ticks c < cf_raft_election_timeout_ticks c.
Proof.
  unfold validate. destruct (Z.eqb_spec (cf_raft_heartbeat_ticks c) 0); [by split; [|intros []]|].
  destruct (Z.leb_spec (cf_raft_election_timeout_ticks c) (cf_raft_heartbeat_ticks c)); split; try done; lia.
Qed.

(** What a validated configuration is worth to Raft.  A positive number of
    heartbeat ticks is accepted by Raft as well, and the election timeout can
    be doubled.  FINDING: a negative one passes the validation too (only zero
    is refused): it becomes a huge timeout, with which Raft refuses to start, or,
    if both numbers are negative, starts with an overflow. *)
Theorem validate_exact (c : Config) (id : Z) (peers : list Z) (storage : RStorage) (applied : Z) :
  is_i32 (cf_raft_heartbeat_ticks c) → is_i32 (cf_raft_election_timeout_ticks c) → id ≠ NONE →
  validate c = Ok tt →
  let rc := raft_config_of c id peers storage applied in
  (0 < cf_raft_heartbeat_ticks c → RaftConfig_validate rc = Ok tt ∧ is_u64 (cfg_election_tick rc * 2)) ∧
  (cf_raft_heartbeat_ticks c < 0 ≤ cf_raft_election_timeout_ticks c →
     RaftConfig_validate rc = Err "election tick must be greater than heartbeat tick") ∧
  (cf_raft_election_timeout_ticks c < 0 →
     RaftConfig_validate rc = Ok tt ∧ ¬ is_u64 (cfg_election_tick rc * 2)).
Proof.
  intros Hh He Hid [Hne Hlt]%validate_ok. cbn zeta.
  unfold raft_config_of, RaftConfig_validate. cbn [cfg_id cfg_heartbeat_tick cfg_election_tick].
  rewrite !i32_as_usize_spec by done. rewrite (proj2 (Z.eqb_neq _ _) Hid).
  unfold is_i32 in *. unfold is_u64, u64_max in *. repeat case_decide;
    (split; [|split]; intros; try lia;
     repeat match goal with |- context [?a <=? ?b] => destruct (Z.leb_spec a b); try lia end;
     try (split; [done|]); lia || done).
Qed.

Lemma validate_exact_witness :
  validate (new_default None) = Ok tt ∧
  RaftConfig_validate (raft_config_of (new_default None) 1 [] (mkRStorage Panic (λ _ _, Panic) (λ _, Panic) Panic Panic Panic) 0)
  = Ok tt.
Proof.
  split; [done|]. refine (proj1 (proj1 (validate_exact (new_default None) 1 [] _ 0 _ _ _ eq_refl) _)); by vm_compute.
Defined.
