(* ===== verification/Peers.v ===== *)
(** The peers of a store: src/raftstore/message.rs, router.rs, peer.rs and
    peer_msg_handler.rs.

    A boxed Raft message and a callback are known by a number.  The peers of a
    store share the router; a channel of tokio is a queue that accepts messages
    as long as its receiver is there.  The state machine of a peer reads its
    log from the storage of the peer as it was when the peer was made: nothing
    in src/raftstore writes these databases in between. *)

From S2P Require Import Prelude Bytes Records Engine RaftTypes RaftLog Raft RaftReplication RawNode Proto PeerStorage RegionTasks Config.

(** ** src/raftstore/message.rs *)

Inductive MsgType := MtRaftMessage | MtRaftCmd | MtTick | MtSplitRegion | MtRegionApproximateSize | MtStart | MtStop.
Inductive MsgData :=
| MdRaftMessage (message : Z)
| MdRaftCmd (request : bytes) (callback : option Z)
| MdSplitRegion (region_epoch : RegionEpoch) (split_key : bytes) (callback : option Z)
| MdApproximateSize (size : Z)
| MdEmpty.
Record Msg := mkMsg { mg_msg_type : MsgType; mg_region_id : Z; mg_data : MsgData }.

(** ** src/raftstore/router.rs *)

(** A channel: whether its receiver is there, and what it has not taken yet. *)
Record Channel := mkChannel { ch_open : bool; ch_queue : list Msg }.
Record Router := mkRouter { rt_peers : gmap Z Z; rt_channels : gmap Z Channel }.
Definition Router_new : Router := mkRouter ∅ ∅.
Definition register (region_id sender : Z) (r : Router) : Router :=
  mkRouter (<[region_id := sender]> (rt_peers r)) (rt_channels r).
Definition unregister (region_id : Z) (r : Router) : Router :=
  mkRouter (delete region_id (rt_peers r)) (rt_channels r).
Definition channel_of (region_id : Z) (r : Router) : option Channel :=
  sender ← rt_peers r !! region_id; rt_channels r !! sender.
Definition push (sender : Z) (msg : Msg) (r : Router) : Router :=
  mkRouter (rt_peers r) (alter (λ c, mkChannel (ch_open c) (ch_queue c ++ [msg])) sender (rt_channels r)).
Definition router_send (region_id : Z) (msg : Msg) : M Router unit :=
  r ← get;
  match rt_peers r !! region_id with
  | Some sender =>
      if decide ((ch_open <$> rt_channels r !! sender) = Some true) then modify (push sender msg)
      else raise "failed to send message"
  | None => raise "region not found"
  end.
Definition get_all_region_ids `{HashOrder} (r : Router) : list Z := fst <$> hash_iter (rt_peers r).

(** ** src/raftstore/peer.rs *)

Abbreviation MetaPeer := Proto.Peer.

Section peer.
Context `{prof : BuildProfile} `{order : HashOrder} `{rand : RandomSource}.
Context `{rocks : RocksDB} `{region_serde : Serde Region} `{region_state_serde : Serde RegionLocalState}
  `{raft_state_serde : Serde RaftLocalState} `{apply_state_serde : Serde RaftApplyState}
  `{entry_serde : Serde Entry}.

(** The tag of a peer is for the log only. *)
Record Peer := mkStorePeer {
  pe_meta : MetaPeer;
  pe_region_id : Z;
  pe_raft_group : RawNode;
  pe_peer_storage : PeerStorage;
  pe_size_diff_hint : Z;
  pe_approximate_size : option Z;
  pe_stopped : bool;
}.

Definition Peer_new (store_id : Z) (cfg : Config) (engines : Engines) (region : Region) (meta_peer : MetaPeer) (g : rng) :
    outcome Peer :=
  let peer_storage := mkPeerStorage engines region in
  let raft_config := mkRaftConfig (pr_id meta_peer) (pr_id <$> rg_peers region)
    (i32_as_usize (cf_raft_election_timeout_ticks cfg)) (i32_as_usize (cf_raft_heartbeat_ticks cfg))
    (ps_storage peer_storage) (applied_index peer_storage) in
  raw_node ← RawNode_new raft_config g;
  raw_node ←
    match rg_peers region with
    | [p] => if pr_store_id p =? store_id then let '(o, raw_node) := rn_campaign raw_node in _ ← o; Ok raw_node
             else Ok raw_node
    | _ => Ok raw_node
    end;
  Ok (mkStorePeer meta_peer (rg_id region) raw_node peer_storage 0 None false).

Definition pe_region (p : Peer) : Region := ps_region (pe_peer_storage p).
Definition pe_set_region (region : Region) (p : Peer) : Peer :=
  mkStorePeer (pe_meta p) (pe_region_id p) (pe_raft_group p) (ps_set_region region (pe_peer_storage p))
    (pe_size_diff_hint p) (pe_approximate_size p) (pe_stopped p).
Definition pe_is_leader (p : Peer) : bool := bool_decide (r_state (rn_raft (pe_raft_group p)) = Leader).
Definition pe_leader_id (p : Peer) : Z := r_lead (rn_raft (pe_raft_group p)).
Definition pe_term (p : Peer) : Z := r_term (rn_raft (pe_raft_group p)).

(** ** src/raftstore/peer_msg_handler.rs *)

(** The handler's map of regions is never used.  Its split checker and itself
    send through the same router; the checker scans the database [d]. *)
Record PeerMsgHandler := mkHandler { hd_peer : Peer; hd_split_checker : option SplitChecker }.

(** [SplitChecker::check] with the message it sends. *)
Definition checker_check (c : SplitChecker) (d : db) (region : Region) : M Router (option bytes) :=
  let '(total, split_key) := check c d region in
  ignore_err (router_send (rg_id region) (mkMsg MtRegionApproximateSize (rg_id region) (MdApproximateSize total)));;
  mret split_key.

Definition on_split_region_check_tick (h : PeerMsgHandler) (d : db) : M Router unit :=
  let p := hd_peer h in
  if negb (pe_is_leader p) then mret tt
  else if match pe_approximate_size p with
          | Some approx_size => pe_size_diff_hint p <? approx_size / 8
          | None => false
          end then mret tt
  else match hd_split_checker h with
       | None => mret tt
       | Some checker =>
           let region := pe_region p in
           split_key ← checker_check checker d region;
           match split_key with
           | None => mret tt
           | Some split_key =>
               ignore_err (router_send (rg_id region)
                 (mkMsg MtSplitRegion (rg_id region)
                    (MdSplitRegion (default (mkRegionEpoch 0 0) (rg_region_epoch region)) split_key None)))
           end
       end.
Definition on_tick (h : PeerMsgHandler) (d : db) : M Router unit :=
  if pe_stopped (hd_peer h) then mret tt else on_split_region_check_tick h d.

Definition validate_split_region (h : PeerMsgHandler) (epoch : RegionEpoch) (split_key : bytes) : outcome unit :=
  if decide (split_key = []) then Err "split key should not be empty"
  else if negb (pe_is_leader (hd_peer h)) then Err "not leader"
  else
    let latest_epoch := default (mkRegionEpoch 0 0) (rg_region_epoch (pe_region (hd_peer h))) in
    if decide (re_version latest_epoch ≠ re_version epoch) then Err "epoch changed" else Ok tt.
(** Behind the validation there are only lines of the log. *)
Definition on_prepare_split_region (h : PeerMsgHandler) (region_epoch : RegionEpoch) (split_key : bytes) :
    M Router unit :=
  lift (validate_split_region h region_epoch split_key).
Definition on_approximate_region_size (h : PeerMsgHandler) (size : Z) : M Router unit := mret tt.

Definition handle_msg (h : PeerMsgHandler) (d : db) (msg : Msg) : M Router unit :=
  match mg_msg_type msg, mg_data msg with
  | MtTick, _ => on_tick h d
  | MtSplitRegion, MdSplitRegion region_epoch split_key _ => on_prepare_split_region h region_epoch split_key
  | MtRegionApproximateSize, MdApproximateSize size => on_approximate_region_size h size
  | _, _ => mret tt
  end.
End peer.

(** ** A peer takes up what is on disk *)

Section restart.
Context `{prof : BuildProfile} `{order : HashOrder} `{rand : RandomSource}.
Context `{reliable : RocksDBReliable} `{region_serde : Serde Region}
  `{region_state_serde : Serde RegionLocalState} `{raft_state_serde : Serde RaftLocalState}
  `{apply_state_serde : Serde RaftApplyState} `{entry_serde : Serde Entry} `{entry_laws : !SerdeLaws entry_serde}.

Lemma insert_peers_run id last peers prs :
  is_u64 (last + 1) →
  ∃ prs', insert_peers id last peers prs = Ok prs' ∧
    ∀ p, prs' !! p = if decide (p ≠ id ∧ p ∈ peers) then Some (Progress_new (last + 1)) else prs !! p.
Proof.
  intros Hu. revert prs. induction peers as [|q peers IH]; intros prs; cbn [insert_peers].
  { exists prs. split; [done|]. intros p. rewrite decide_False; [done|]. intros [_ ?%not_elem_of_nil]. done. }
  case_decide as Hq.
  - rewrite u64_add_ok by done. cbn. destruct (IH (<[q := Progress_new (last + 1)]> prs)) as (prs' & -> & Hp).
    exists prs'. split; [done|]. intros p. rewrite Hp. destruct (decide (p = q)) as [->|Hne].
    + rewrite lookup_insert_eq. rewrite (decide_True (P := q ≠ id ∧ q ∈ q :: peers)) by (split; [done|left]).
      by case_decide.
    + rewrite lookup_insert_ne by done. repeat case_decide; set_solver.
  - destruct (IH prs) as (prs' & -> & Hp). exists prs'. split; [done|]. intros p. rewrite Hp.
    repeat case_decide; set_solver.
Qed.

(** The log a peer starts with. *)
Definition restored_log (s : PeerStorage) (a : RaftApplyState) (r : RaftLocalState) (log : list Entry) : RaftLog :=
  mkRaftLog (ps_storage s) (hs_commit (rfs_hard_state r)) (as_applied_index a) (rfs_last_index r) log None.

(** What is on disk is in order. *)
Record restart_ok (s : PeerStorage) (a : RaftApplyState) (r : RaftLocalState) (log : list Entry) : Prop := {
  ro_holds : ps_holds s a r log;
  ro_entries : contiguous (ts_index (as_truncated_state a) + 1) log;
  ro_applied : ts_index (as_truncated_state a) ≤ as_applied_index a ≤ hs_commit (rfs_hard_state r);
  ro_commit : hs_commit (rfs_hard_state r) ≤ rfs_last_index r;
}.

Lemma restored_log_wf s a r log : restart_ok s a r log → log_wf (restored_log s a r log).
Proof.
  intros [Hs Hc Ha Hm]. pose proof (ph_truncated _ _ _ _ Hs). pose proof (ph_last _ _ _ _ Hs). pose proof (ph_bound _ _ _ _ Hs).
  assert (first_of (restored_log s a r log) = ts_index (as_truncated_state a) + 1) as Hf.
  { unfold first_of. cbn. destruct log as [|e log]; [cbn in *; lia|]. exact (contiguous_cons _ _ _ Hc). }
  assert (last_index (restored_log s a r log) = rfs_last_index r) as Hl.
  { rewrite last_index_wf; [rewrite Hf; cbn; lia|done|by rewrite Hf]. }
  split; rewrite ?Hf, ?Hl; try done; cbn; lia.
Qed.
Lemma restored_last_index s a r log : restart_ok s a r log → last_index (restored_log s a r log) = rfs_last_index r.
Proof.
  intros Ho. pose proof (restored_log_wf _ _ _ _ Ho) as Hw. destruct Ho as [Hs Hc Ha Hm].
  pose proof (ph_last _ _ _ _ Hs). rewrite last_index_wf by apply Hw. unfold first_of. cbn.
  destruct log as [|e log]; cbn [length] in *; [lia|]. pose proof (contiguous_cons _ _ _ Hc). lia.
Qed.

Lemma RaftLog_new_restored s a r log :
  restart_ok s a r log →
  RaftLog_new (ps_storage s) = Ok (set_applied 0 (restored_log s a r log)).
Proof.
  intros [Hs Hc Ha Hm]. unfold RaftLog_new. cbn [st_first_index st_last_index st_initial_state st_entries ps_storage].
  rewrite (ps_initial_state_holds _ _ _ _ Hs), (ps_last_index_holds _ _ _ _ Hs), (ps_first_index_holds _ _ _ _ Hs).
  cbn [mbind outcome_bind]. pose proof (ph_truncated _ _ _ _ Hs). pose proof (ph_last _ _ _ _ Hs). pose proof (ph_bound _ _ _ _ Hs).
  destruct (Z.leb_spec (ts_index (as_truncated_state a) + 1) (rfs_last_index r)) as [Hle|Hgt].
  - rewrite u64_add_ok by (unfold is_u64 in *; lia). cbn [mbind outcome_bind].
    rewrite (ps_entries_holds _ _ _ _ _ _ Hs) by lia. rewrite Z.sub_diag, drop_0, take_ge by lia. done.
  - cbn [mbind outcome_bind]. destruct log; [done|]. cbn [length] in *. lia.
Qed.

(** The state machine of a peer that starts. *)
Definition restored_raft (s : PeerStorage) (a : RaftApplyState) (r : RaftLocalState) (log : list Entry)
    (id et ht t : Z) (prs : gmap Z Progress) (g : rng) : Raft :=
  {| r_id := id; r_term := hs_term (rfs_hard_state r); r_vote := hs_vote (rfs_hard_state r);
     r_log := restored_log s a r log; r_prs := prs; r_state := Follower; r_votes := ∅; r_msgs := [];
     r_lead := NONE; r_heartbeat_timeout := ht; r_election_timeout := et; r_heartbeat_elapsed := 0;
     r_election_elapsed := 0; r_random_election_timeout := t; r_rng := g |}.
Definition members_of (id : Z) (ids : list Z) (prs : gmap Z Progress) : Prop :=
  ∀ p, is_Some (prs !! p) ↔ p ≠ id ∧ p ∈ ids.

Lemma Raft_new_restored s a r log id et ht g :
  restart_ok s a r log → id ≠ NONE → 0 < ht < et → is_u64 (et * 2) →
  let ids := pr_id <$> rg_peers (ps_region s) in
  ∃ prs t g', Raft_new (mkRaftConfig id ids et ht (ps_storage s) (as_applied_index a)) g =
    Ok (restored_raft s a r log id et ht t prs g') ∧ members_of id ids prs.
Proof.
  intros Ho Hid Hht Het ids. unfold Raft_new, RaftConfig_validate.
  cbn [cfg_id cfg_heartbeat_tick cfg_election_tick cfg_storage cfg_applied cfg_peers].
  rewrite (proj2 (Z.eqb_neq _ _) Hid), (proj2 (Z.leb_gt ht 0)), (proj2 (Z.leb_gt et ht)) by lia.
  cbn [mbind outcome_bind]. rewrite (RaftLog_new_restored _ _ _ _ Ho).
  cbn [st_initial_state ps_storage]. rewrite (ps_initial_state_holds _ _ _ _ (ro_holds _ _ _ _ Ho)).
  cbn [mbind outcome_bind cs_nodes].
  change (set_applied (as_applied_index a) (set_applied 0 (restored_log s a r log))) with (restored_log s a r log).
  rewrite (restored_last_index _ _ _ _ Ho). fold ids.
  assert (is_u64 (rfs_last_index r + 1)) as Hu.
  { destruct Ho as [Hs _ _ _]. pose proof (ph_truncated _ _ _ _ Hs). pose proof (ph_last _ _ _ _ Hs).
    pose proof (ph_bound _ _ _ _ Hs). unfold is_u64, u64_max in *. lia. }
  destruct (insert_peers_run id (rfs_last_index r) ids ∅ Hu) as (prs & -> & Hp). cbn [mbind outcome_bind].
  assert (∃ prs', (if decide (prs = ∅ ∧ ids ≠ []) then insert_peers id (rfs_last_index r) ids prs else Ok prs) = Ok prs'
    ∧ members_of id ids prs') as (prs' & -> & Hm).
  { assert (members_of id ids prs) as Hm.
    { intros p. rewrite Hp. case_decide; [split; [done|eauto]|]. rewrite lookup_empty. split; [by intros []|done]. }
    case_decide as Hd; [|eauto]. destruct Hd as [-> _]. destruct (insert_peers_run id (rfs_last_index r) ids ∅ Hu) as (prs' & -> & Hp').
    exists prs'. split; [done|]. intros p. rewrite Hp'. rewrite <- Hp. apply Hm. }
  cbn [mbind outcome_bind]. unfold u64_mul. rewrite u64_norm_ok by done. cbn [mbind outcome_bind].
  destruct (gen_range g et (et * 2)) as [t g']. by exists prs', t, g'.
Qed.

Lemma hash_keys_empty {A} : hash_keys (∅ : gmap Z A) = [].
Proof. apply length_zero_iff_nil. unfold hash_keys. by rewrite length_fmap, length_hash_iter, map_size_empty. Qed.

(** A campaign of a node without other members makes it the leader. *)
Lemma campaign_alone_run rf :
  log_wf (r_log rf) → r_prs rf = ∅ → is_u64 (r_term rf + 1) → last_index (r_log rf) + 1 < u64_max →
  0 ≤ r_election_timeout rf → is_u64 (r_election_timeout rf * 2) →
  ∃ rf' l, campaign rf = (Ok tt, rf') ∧
    append (r_log rf) [Entry_new_normal (r_term rf + 1) (last_index (r_log rf) + 1) []] = Ok l ∧
    r_log rf' = l ∧ r_id rf' = r_id rf ∧ r_prs rf' = ∅ ∧ r_state rf' = Leader ∧ r_term rf' = r_term rf + 1 ∧
    r_vote rf' = r_id rf ∧ r_lead rf' = r_id rf ∧ r_msgs rf' = r_msgs rf.
Proof.
  intros Hw Hp Ht Hl H0 Hto. unfold campaign, campaign_in.
  destruct (become_candidate_run rf Ht H0 Hto) as (t & g & _ & Hrun).
  rewrite (M_bind_run _ _ _ _ _ Hrun), (M_bind_run get _ _ _ _ eq_refl).
  set (c := candidate_of rf t g).
  assert (quorum c = 1%nat) as Hq by (unfold quorum, c; cbn; by rewrite Hp, map_size_empty).
  rewrite (decide_True _ _ Hq). unfold become_leader. rewrite (M_bind_run (modify _) _ _ _ _ eq_refl), (M_bind_run get _ _ _ _ eq_refl).
  set (c1 := set_heartbeat_elapsed _ _).
  assert (r_prs c1 = ∅) as Hp1 by done. cbv zeta. rewrite (decide_True _ _ Hp1).
  rewrite (M_bind_run (mret _) _ _ _ _ eq_refl), (M_bind_run (modify _) _ _ _ _ eq_refl).
  pose proof (last_index_nonneg _ Hw) as Hnn.
  assert (r_log c1 = r_log rf) as Elog by done. rewrite Elog.
  rewrite u64_add_ok by (unfold is_u64; lia). rewrite (M_bind_run (lift _) _ _ _ _ eq_refl).
  assert (r_term c1 = r_term rf + 1) as Eterm by done. rewrite Eterm.
  set (noop := Entry_new_normal _ _ _). destruct (append_at_end (r_log rf) [noop] Hw) as (l & El & _).
  { intros [|k] e; [|done]. intros [= <-]. cbn. lia. }
  { cbn. lia. }
  erewrite (M_bind_run (log_update _)) by (apply log_update_run; exact El).
  eexists _, l. split; [|split; [exact El|]].
  - unfold ignore_err, bcast_append, for_each_peer. rewrite (M_bind_run get _ _ _ _ eq_refl).
    assert (r_prs c1 = ∅) as -> by done.
    cbn [r_prs set_log set_prs]. rewrite fmap_empty, hash_keys_empty. cbn [for_each]. reflexivity.
  - clear El. cbn. rewrite ?fmap_empty. split_and!; reflexivity || (rewrite Hp; by rewrite ?fmap_empty).
Qed.

(** The message that starts a campaign. *)
Lemma step_hup_run rf : 0 ≤ r_term rf → r_state rf ≠ Leader → step (local_message MsgHup (r_id rf) []) rf = campaign rf.
Proof.
  intros Ht Hs. unfold step, step_in. rewrite (M_bind_run get _ _ _ _ eq_refl). cbn [msg_term local_message].
  rewrite (proj2 (Z.ltb_ge _ _)) by exact Ht. rewrite (M_bind_run (mret _) _ _ _ _ eq_refl).
  rewrite (M_bind_run get _ _ _ _ eq_refl). by destruct (r_state rf).
Qed.

(** The only peer of its region is on the store. *)
Definition alone (store_id : Z) (region : Region) : bool :=
  match rg_peers region with [p] => pr_store_id p =? store_id | _ => false end.

(** What a started peer has of the log on disk. *)
Record log_taken_up (a : RaftApplyState) (r : RaftLocalState) (log : list Entry) (l : RaftLog) : Prop := {
  lt_wf : log_wf l;
  lt_committed : committed l = hs_commit (rfs_hard_state r);
  lt_applied : applied l = as_applied_index a;
  lt_entries k e : log !! k = Some e → entry_at l (ts_index (as_truncated_state a) + 1 + Z.of_nat k) = Some e;
}.

Lemma restored_taken_up s a r log : restart_ok s a r log → log_taken_up a r log (restored_log s a r log).
Proof.
  intros Ho. split; [by eapply restored_log_wf|done..|]. intros k e Hk. destruct Ho as [Hs Hc _ _].
  unfold entry_at. assert (first_of (restored_log s a r log) = ts_index (as_truncated_state a) + 1) as ->.
  { unfold first_of. cbn. destruct log as [|e0 log]; [done|]. exact (contiguous_cons _ _ _ Hc). }
  rewrite decide_True by lia. cbn [entries restored_log]. rewrite <- Hk. f_equal. lia.
Qed.

Lemma taken_up_noop s a r log l :
  restart_ok s a r log → rfs_last_index r + 1 < u64_max →
  append (restored_log s a r log) [Entry_new_normal (hs_term (rfs_hard_state r) + 1) (rfs_last_index r + 1) []] = Ok l →
  log_taken_up a r log l ∧ last_index l = rfs_last_index r + 1 ∧
  entry_at l (rfs_last_index r + 1) = Some (Entry_new_normal (hs_term (rfs_hard_state r) + 1) (rfs_last_index r + 1) []).
Proof.
  intros Ho Hb El. pose proof (restored_taken_up _ _ _ _ Ho) as Hold. pose proof (restored_last_index _ _ _ _ Ho) as Hlast.
  pose proof (restored_log_wf _ _ _ _ Ho) as Hw. set (noop := Entry_new_normal _ _ _) in *.
  assert (contiguous (rfs_last_index r + 1) [noop]) as Hc.
  { intros [|k] e; [|done]. intros [= <-]. cbn. lia. }
  pose proof (wf_committed _ Hw). rewrite Hlast in *.
  pose proof (ph_last _ _ _ _ (ro_holds _ _ _ _ Ho)) as Hlen.
  destruct (append_wf (restored_log s a r log) noop [] Hw Hc) as (l' & El' & Hw' & Hf & Ec & Ea & Elast & Eold & Enew).
  { cbn [e_index noop Entry_new_normal]. rewrite Hlast. lia. }
  { rewrite last_index_wf in Hlast by apply Hw. cbn [entries restored_log] in *. cbn [e_index noop Entry_new_normal].
    destruct log; [by right|left; cbn [length] in *; lia]. }
  { cbn. lia. }
  rewrite El in El'. injection El' as <-. cbn [e_index noop Entry_new_normal length] in *. split_and!.
  - split; [done|rewrite Ec; apply Hold|rewrite Ea; apply Hold|].
    intros k e Hk. pose proof (lookup_lt_Some _ _ _ Hk). rewrite Eold by lia. by apply Hold.
  - lia.
  - rewrite <- (Enew 0%nat noop eq_refl). f_equal. lia.
Qed.

(** C8: A peer that starts takes up what its region has on disk: its log holds the
    entries behind the truncated index and nothing else, committed and applied
    up to what was recorded; it is a follower in the recorded term, bound by the
    recorded vote, among the other members of the region.  The only peer of a
    region, on its own store, is the leader of the next term at once, by its own
    vote and with an empty entry of that term behind the log; but FINDING: it
    never commits that entry nor any other. *)
Theorem Peer_new_restores (store_id : Z) (cfg : Config) (engines : Engines) (region : Region) (meta : MetaPeer) (g : rng)
    (a : RaftApplyState) (r : RaftLocalState) (log : list Entry) :
  restart_ok (mkPeerStorage engines region) a r log →
  validate cfg = Ok tt → is_i32 (cf_raft_election_timeout_ticks cfg) → 0 < cf_raft_heartbeat_ticks cfg →
  pr_id meta ≠ NONE → pr_id meta ∈ (pr_id <$> rg_peers region) →
  is_u64 (hs_term (rfs_hard_state r) + 1) → rfs_last_index r + 1 < u64_max → 0 ≤ hs_term (rfs_hard_state r) →
  ∃ p, Peer_new store_id cfg engines region meta g = Ok p ∧
    pe_meta p = meta ∧ pe_region_id p = rg_id region ∧ pe_peer_storage p = mkPeerStorage engines region ∧
    let rf := rn_raft (pe_raft_group p) in
    r_id rf = pr_id meta ∧ members_of (pr_id meta) (pr_id <$> rg_peers region) (r_prs rf) ∧
    log_taken_up a r log (r_log rf) ∧
    if alone store_id region then
      pe_is_leader p = true ∧ pe_leader_id p = pr_id meta ∧ pe_term p = hs_term (rfs_hard_state r) + 1 ∧
      r_vote rf = pr_id meta ∧ last_index (r_log rf) = rfs_last_index r + 1 ∧
      entry_at (r_log rf) (rfs_last_index r + 1) = Some (Entry_new_normal (pe_term p) (rfs_last_index r + 1) []) ∧
      maybe_commit rf = (Ok tt, rf)
    else
      pe_is_leader p = false ∧ pe_leader_id p = NONE ∧ pe_term p = hs_term (rfs_hard_state r) ∧
      r_vote rf = hs_vote (rfs_hard_state r) ∧ last_index (r_log rf) = rfs_last_index r.
Proof.
  intros Ho Hv Hi32 Hhb Hid Hin Ht Hlast Ht0. apply validate_ok in Hv as [_ Hlt].
  unfold Peer_new. unfold is_i32 in Hi32.
  rewrite !i32_as_usize_spec, !decide_False by (unfold is_i32; lia).
  set (hb := cf_raft_heartbeat_ticks cfg) in *. set (et := cf_raft_election_timeout_ticks cfg) in *.
  assert (applied_index (mkPeerStorage engines region) = as_applied_index a) as ->.
  { unfold applied_index, from_apply_state. by rewrite (ph_apply _ _ _ _ (ro_holds _ _ _ _ Ho)). }
  destruct (Raft_new_restored _ _ _ _ (pr_id meta) et hb g Ho Hid) as (prs & t & g' & Hnew & Hmem);
    [lia|unfold is_u64, u64_max; lia|].
  cbn [ps_region] in *. unfold RawNode_new. rewrite Hnew. cbn [mbind outcome_bind].
  set (rf := restored_raft _ _ _ _ _ _ _ _ _ _) in *.
  set (n := {| rn_raft := rf |}).
  assert (∀ (x y : outcome RawNode), match rg_peers region with [p] => if pr_store_id p =? store_id then x else y | _ => y end
    = if alone store_id region then x else y) as -> by (intros; unfold alone; by destruct (rg_peers region) as [|? []]).
  destruct (alone store_id region) eqn:Halone.
  - assert (prs = ∅) as ->.
    { unfold alone in Halone. destruct (rg_peers region) as [|q []]; try done. apply map_empty. intros p.
      apply eq_None_not_Some. intros [Hne Hp]%Hmem. set_solver. }
    destruct (campaign_alone_run rf) as (rf' & l & Hrun & El & Elog & Eid & Eprs & Est & Eterm & Evote & Elead & _).
    { by eapply restored_log_wf. }
    { done. }
    { done. }
    { cbn [r_log rf restored_raft]. by rewrite (restored_last_index _ _ _ _ Ho). }
    { cbn. lia. }
    { cbn. unfold is_u64, u64_max. lia. }
    assert (rn_campaign n = (Ok tt, set_raft rf' n)) as ->.
    { unfold rn_campaign. rewrite (M_bind_run get _ _ _ _ eq_refl). unfold on_raft. cbn [rn_raft n]. rewrite step_hup_run by done.
      by rewrite Hrun. }
    cbn [mbind outcome_bind]. eexists. split; [done|]. split; [done|]. split; [done|]. split; [done|].
    cbn [pe_raft_group rn_raft set_raft r_log rf restored_raft] in *. cbn zeta.
    rewrite (restored_last_index _ _ _ _ Ho) in El. destruct (taken_up_noop _ _ _ _ _ Ho Hlast El) as (Htu & Hl & Hno).
    unfold pe_is_leader, pe_leader_id, pe_term. cbn [pe_raft_group rn_raft set_raft].
    rewrite Est, Elead, Eterm, Eid, Elog, Evote, Eprs. split_and!; try done.
    apply small_cluster_never_commits. rewrite Eprs, map_size_empty. lia.
  - eexists. split; [done|]. split; [done|]. split; [done|]. split; [done|].
    cbn [pe_raft_group rn_raft n]. cbn zeta. split; [done|]. split; [done|].
    split; [by eapply restored_taken_up|]. split_and!; try done. by eapply restored_last_index.
Qed.
End restart.

(** ** What a message does *)

Section messages.
Context `{prof : BuildProfile} `{order : HashOrder} `{rand : RandomSource}.
Context `{rocks : RocksDB} `{region_serde : Serde Region} `{region_state_serde : Serde RegionLocalState}
  `{raft_state_serde : Serde RaftLocalState} `{apply_state_serde : Serde RaftApplyState}
  `{entry_serde : Serde Entry}.
Implicit Types (h : PeerMsgHandler) (d : db) (r : Router) (msg : Msg).

(** Whether a tick looks at the size of the region. *)
Definition looks_at_size h : bool :=
  negb (pe_stopped (hd_peer h)) && pe_is_leader (hd_peer h) &&
  match pe_approximate_size (hd_peer h) with Some size => negb (pe_size_diff_hint (hd_peer h) <? size / 8) | None => true end.

Definition size_msg (region : Region) (total : Z) : Msg :=
  mkMsg MtRegionApproximateSize (rg_id region) (MdApproximateSize total).
Definition split_msg (region : Region) (key : bytes) : Msg :=
  mkMsg MtSplitRegion (rg_id region) (MdSplitRegion (default (mkRegionEpoch 0 0) (rg_region_epoch region)) key None).

(** What the handler sends to the channel of its region. *)
Definition sent h d msg : list Msg :=
  match mg_msg_type msg, hd_split_checker h with
  | MtTick, Some c =>
      if looks_at_size h then
        let region := pe_region (hd_peer h) in
        let (total, key) := check c d region in
        size_msg region total :: match key with Some key => [split_msg region key] | None => [] end
      else []
  | _, _ => []
  end.

(** A channel without a receiver, and a region without a channel, lose what
    is sent. *)
Definition deliver (region_id : Z) (msgs : list Msg) r : Router :=
  match rt_peers r !! region_id with
  | Some sender =>
      mkRouter (rt_peers r)
        (alter (λ c, if ch_open c then mkChannel true (ch_queue c ++ msgs) else c) sender (rt_channels r))
  | None => r
  end.

Lemma deliver_nil region_id r : deliver region_id [] r = r.
Proof.
  unfold deliver. destruct r as [peers channels]. cbn. destruct (peers !! region_id) as [s|]; [|done]. f_equal.
  apply map_eq. intros k. destruct (decide (s = k)) as [->|Hne]; [|by rewrite lookup_alter_ne].
  rewrite lookup_alter_eq. destruct (channels !! k) as [[[] q]|]; cbn; [by rewrite app_nil_r|done|done].
Qed.
Lemma deliver_cons region_id msg msgs r :
  deliver region_id (msg :: msgs) r = deliver region_id msgs (deliver region_id [msg] r).
Proof.
  unfold deliver. destruct r as [peers channels]. cbn. destruct (peers !! region_id) as [s|] eqn:E; cbn; rewrite E; [|done].
  f_equal. apply map_eq. intros k. destruct (decide (s = k)) as [->|Hne]; [|by rewrite !lookup_alter_ne].
  rewrite !lookup_alter_eq. destruct (channels !! k) as [[[] q]|]; cbn; [by rewrite <- app_assoc|done|done].
Qed.

Lemma router_send_run region_id msg r :
  router_send region_id msg r =
    match channel_of region_id r with
    | Some (mkChannel true _) => (Ok tt, deliver region_id [msg] r)
    | _ => (Err (match rt_peers r !! region_id with Some _ => "failed to send message" | None => "region not found" end), r)
    end.
Proof.
  unfold router_send, deliver, channel_of. rewrite (M_bind_run get _ _ _ _ eq_refl).
  destruct r as [peers channels]. cbn. destruct (peers !! region_id) as [s|] eqn:E; [|done]. cbn.
  destruct (channels !! s) as [[[] q]|] eqn:Ec; cbn; try done.
  rewrite decide_True by done. unfold push, modify. cbn. do 2 f_equal. apply alter_ext. intros c Hc. rewrite Ec in Hc. by injection Hc as <-.
Qed.
Lemma deliver_closed region_id msgs r :
  match channel_of region_id r with Some (mkChannel true _) => False | _ => True end → deliver region_id msgs r = r.
Proof.
  unfold deliver, channel_of. destruct r as [peers channels]. cbn. destruct (peers !! region_id) as [s|]; [|done]. cbn.
  intros H. f_equal. apply alter_id. intros [[] q] Hc; [by rewrite Hc in H|done].
Qed.
Lemma send_deliver region_id msg r : ignore_err (router_send region_id msg) r = (Ok tt, deliver region_id [msg] r).
Proof.
  unfold ignore_err. rewrite router_send_run. pose proof (deliver_closed region_id [msg] r) as H.
  destruct (channel_of region_id r) as [[[] q]|]; [done|by rewrite H..].
Qed.

Lemma checker_check_run c d region r :
  checker_check c d region r =
    (Ok (check c d region).2, deliver (rg_id region) [size_msg region (check c d region).1] r).
Proof.
  unfold checker_check. destruct (check c d region) as [total key].
  by rewrite (M_bind_run _ _ _ _ _ (send_deliver _ _ _)).
Qed.
Lemma on_tick_run h d r :
  on_tick h d r = (Ok tt, deliver (rg_id (pe_region (hd_peer h)))
    (match hd_split_checker h with
     | Some c =>
         if looks_at_size h then
           let region := pe_region (hd_peer h) in
           let (total, key) := check c d region in
           size_msg region total :: match key with Some key => [split_msg region key] | None => [] end
         else []
     | None => []
     end) r).
Proof.
  unfold on_tick, on_split_region_check_tick, looks_at_size.
  assert (deliver (rg_id (pe_region (hd_peer h))) (match hd_split_checker h with Some _ => [] | None => [] end) r = r) as Hnil
    by (destruct (hd_split_checker h); apply deliver_nil).
  destruct (pe_stopped (hd_peer h)), (pe_is_leader (hd_peer h)); cbn [negb andb]; try by rewrite Hnil.
  destruct (pe_approximate_size (hd_peer h)) as [size|];
    [destruct (pe_size_diff_hint (hd_peer h) <? size / 8); cbn [negb]; [by rewrite Hnil|]|];
    (destruct (hd_split_checker h) as [c|]; [|by rewrite deliver_nil];
     rewrite (M_bind_run _ _ _ _ _ (checker_check_run _ _ _ _)); destruct (check c d _) as [total [key|]]; [|done];
     cbn [fst snd]; rewrite send_deliver; by rewrite (deliver_cons _ (size_msg _ _) [_])).
Qed.

(** The answer to a request for a split. *)
Definition split_answer h (epoch : RegionEpoch) (key : bytes) : outcome unit :=
  if decide (key = []) then Err "split key should not be empty"
  else if decide (pe_is_leader (hd_peer h) = false) then Err "not leader"
  else if decide (re_version (default (mkRegionEpoch 0 0) (rg_region_epoch (pe_region (hd_peer h)))) = re_version epoch)
       then Ok tt else Err "epoch changed".

(** A handler answers a message and sends at most two messages, to itself: the
    size of the region and, where it has reached its maximal size, a request to
    split it.  It does so only on a tick of a leader that is not stopped and
    whose size may have changed.  A request to split is refused for an empty
    key, by a peer that is not the leader, and for an epoch that is not the
    region's; FINDING: one that is not refused has no effect either, and
    neither has the size. *)
Theorem handle_msg_exact h d msg r :
  handle_msg h d msg r =
    (match mg_msg_type msg, mg_data msg with
     | MtSplitRegion, MdSplitRegion epoch key _ => split_answer h epoch key
     | _, _ => Ok tt
     end,
     deliver (rg_id (pe_region (hd_peer h))) (sent h d msg) r).
Proof.
  unfold handle_msg, sent. destruct (mg_msg_type msg); try by rewrite deliver_nil.
  - rewrite on_tick_run. by destruct (mg_data msg).
  - rewrite deliver_nil. destruct (mg_data msg); try done. unfold on_prepare_split_region, validate_split_region, split_answer.
    unfold lift. destruct (pe_is_leader (hd_peer h)); repeat case_decide; done.
  - rewrite deliver_nil. by destruct (mg_data msg).
Qed.
End messages.

(** ** At a concrete store *)

Section samples.
#[local] Existing Instance map_db.
#[local] Existing Instance map_db_laws.
#[local] Existing Instance map_db_reliable.
#[local] Existing Instance countable_serde.
#[local] Existing Instance countable_serde_laws.
#[local] Existing Instance map_order.
#[local] Existing Instance low_rng.
#[local] Instance checked : BuildProfile := true.

Lemma sample_restart_ok :
  restart_ok (mkPeerStorage (ps_engines sample_storage) (ps_region sample_storage)) sample_apply_state sample_raft_state [sample_entry].
Proof.
  split; [exact sample_storage_holds| |by vm_compute|by vm_compute]. intros [|k] e; [|done]. by intros [= <-].
Qed.

Lemma Peer_new_restores_witness :
  ∃ p, Peer_new (rand := low_rng) 1 (new_default None) (ps_engines sample_storage) (ps_region sample_storage) (mkPeer 11 1) tt = Ok p ∧
    pe_is_leader p = true ∧ pe_term p = 4.
Proof.
  destruct (Peer_new_restores (rand := low_rng) 1 (new_default None) (ps_engines sample_storage) (ps_region sample_storage) (mkPeer 11 1) tt
    sample_apply_state sample_raft_state [sample_entry] sample_restart_ok) as (p & E & _ & _ & _ & _ & _ & _ & H);
    [by vm_compute..| | | | |].
  - by left.
  - by vm_compute.
  - by vm_compute.
  - by vm_compute.
  - exists p. split; [exact E|]. destruct H as (H1 & _ & H2 & _). split; [exact H1|exact H2].
Defined.
End samples.
