(* ===== verification/PdService.v ===== *)
(** The placement driver as a service: src/pd/service.rs, and its client
    src/raftstore/scheduler_client/client.rs.

    The generated trait [Pd] is a class, whose instance is the service over
    [PdState]; the client works with any instance, that is, over any network
    that delivers its calls.  A call answers a response or a status, of which
    the client's error keeps the message; a panic of a handler stays one.
    A stream of region heartbeats is a task that
    takes messages one by one; its channel is known by a number. *)

From S2P Require Import Prelude Bytes RaftTypes Proto Cluster OperatorController StoreBalancer PdState.

(** ** schedulerpb *)

Record BootstrapRequest := mkBootstrapRequest { btq_header : option RequestHeader; btq_store : option Store }.
Record BootstrapResponse := mkBootstrapResponse { btr_header : option ResponseHeader }.
Record IsBootstrappedResponse := mkIsBootstrappedResponse { ibr_header : option ResponseHeader; ibr_bootstrapped : bool }.
Record AllocIdResponse := mkAllocIdResponse { air_header : option ResponseHeader; air_id : Z }.
Record PutStoreRequest := mkPutStoreRequest { psq_header : option RequestHeader; psq_store : option Store }.
Record PutStoreResponse := mkPutStoreResponse { psr_header : option ResponseHeader }.
Record GetStoreRequest := mkGetStoreRequest { gsq_header : option RequestHeader; gsq_store_id : Z }.
Record GetRegionRequest := mkGetRegionRequest { grq_header : option RequestHeader; grq_region_key : bytes }.
Record GetRegionByIdRequest := mkGetRegionByIdRequest { gbq_header : option RequestHeader; gbq_region_id : Z }.
Record StoreHeartbeatResponse := mkStoreHeartbeatResponse { shr_header : option ResponseHeader }.

(** The trait [Pd], but for the stream of region heartbeats; requests that hold
    only a header are their header. *)
Class Pd := {
  pd_world : Type;
  pd_alloc_id : option RequestHeader → M pd_world (Status + AllocIdResponse);
  pd_bootstrap : BootstrapRequest → M pd_world (Status + BootstrapResponse);
  pd_is_bootstrapped_ : option RequestHeader → M pd_world (Status + IsBootstrappedResponse);
  pd_put_store_ : PutStoreRequest → M pd_world (Status + PutStoreResponse);
  pd_get_store_ : GetStoreRequest → M pd_world (Status + GetStoreResponse);
  pd_get_region_ : GetRegionRequest → M pd_world (Status + GetRegionResponse);
  pd_get_region_by_id : GetRegionByIdRequest → M pd_world (Status + GetRegionResponse);
  pd_ask_split : AskSplitRequest → M pd_world (Status + AskSplitResponse);
  pd_store_heartbeat : StoreHeartbeatRequest → M pd_world (Status + StoreHeartbeatResponse);
  pd_get_members : option RequestHeader → M pd_world (Status + GetMembersResponse);
}.

(** The conversions of src/pd/state.rs and of the client. *)
Definition copy_peer (peer : Peer) : Peer := mkPeer (pr_id peer) (pr_store_id peer).
Definition copy_region (region : Region) : Region :=
  mkRegion (rg_id region) (rg_start_key region) (rg_end_key region) (rg_region_epoch region) (copy_peer <$> rg_peers region).
Definition copy_store (store : Store) : Store := mkStore (st_id store) (st_address store) (st_state store).

(** ** src/pd/service.rs *)

Section service.
Context `{prof : BuildProfile} `{order : HashOrder} `{rand : RandomSource}.

Definition sv_bootstrap (now : Z) (req : BootstrapRequest) : M PdState (Status + BootstrapResponse) :=
  match btq_store req with
  | None => mret (inl (mkStatus InvalidArgument "store missing"))
  | Some store =>
      or_status Internal (header ← bootstrap now (copy_store store); mret (mkBootstrapResponse (Some header)))
  end.
Definition sv_is_bootstrapped : M PdState (Status + IsBootstrappedResponse) :=
  s ← get; answer (mkIsBootstrappedResponse (Some (response_ok s)) (pd_is_bootstrapped s)).
Definition sv_alloc_id : M PdState (Status + AllocIdResponse) :=
  id ← alloc; s ← get; answer (mkAllocIdResponse (Some (response_ok s)) id).
Definition sv_put_store (now : Z) (req : PutStoreRequest) : M PdState (Status + PutStoreResponse) :=
  match psq_store req with
  | None => mret (inl (mkStatus InvalidArgument "store missing"))
  | Some store =>
      or_status Internal (header ← pd_put_store now (copy_store store); mret (mkPutStoreResponse (Some header)))
  end.
Definition sv_get_store (req : GetStoreRequest) : M PdState (Status + GetStoreResponse) :=
  or_status NotFound (pd_get_store (gsq_store_id req)).
Definition sv_get_region (req : GetRegionRequest) : M PdState (Status + GetRegionResponse) :=
  or_status NotFound (pd_get_region (grq_region_key req)).
Definition sv_get_region_by_id (req : GetRegionByIdRequest) : M PdState (Status + GetRegionResponse) :=
  or_status NotFound (get_region_by_id (gbq_region_id req)).
Definition sv_ask_split (req : AskSplitRequest) : M PdState (Status + AskSplitResponse) :=
  or_status Internal (ask_split req).
Definition sv_store_heartbeat (now now' : Z) (req : StoreHeartbeatRequest) : M PdState (Status + StoreHeartbeatResponse) :=
  or_status Internal (header ← handle_store_heartbeat now now' req; mret (mkStoreHeartbeatResponse (Some header))).
Definition sv_get_members : M PdState (Status + GetMembersResponse) := r ← get_members; answer r.

(** The service whose clock stands at [now]. *)
Definition PdService (now : Z) : Pd := {|
  pd_world := PdState;
  pd_alloc_id _ := sv_alloc_id;
  pd_bootstrap := sv_bootstrap now;
  pd_is_bootstrapped_ _ := sv_is_bootstrapped;
  pd_put_store_ := sv_put_store now;
  pd_get_store_ := sv_get_store;
  pd_get_region_ := sv_get_region;
  pd_get_region_by_id := sv_get_region_by_id;
  pd_ask_split := sv_ask_split;
  pd_store_heartbeat := sv_store_heartbeat now now;
  pd_get_members _ := sv_get_members;
|}.

(** The task of a stream of region heartbeats: its channel to the store, and
    the store it has bound. *)
Record StreamTask := mkStreamTask { stk_sender : Z; stk_bound_store : option Z }.
Definition stream_message (now : Z) (task : StreamTask) (msg : RegionHeartbeatRequest) : M PdState StreamTask :=
  match stk_bound_store task, hq_header msg with
  | None, None => mret task
  | None, Some header =>
      modify (bind_region_stream (rqh_sender_id header) (stk_sender task));;
      ignore_err (handle_region_heartbeat now msg);;
      mret (mkStreamTask (stk_sender task) (Some (rqh_sender_id header)))
  | Some _, _ => ignore_err (handle_region_heartbeat now msg);; mret task
  end.
Fixpoint stream_messages (task : StreamTask) (msgs : list (Z * RegionHeartbeatRequest)) : M PdState StreamTask :=
  match msgs with
  | [] => mret task
  | (now, msg) :: msgs' => task ← stream_message now task msg; stream_messages task msgs'
  end.
Definition stream_end (task : StreamTask) : M PdState unit :=
  match stk_bound_store task with Some store_id => modify (unbind_region_stream store_id) | None => mret tt end.
End service.

(** ** src/raftstore/scheduler_client/client.rs *)

(** What the client shares: the cluster id is an atomic, the region heartbeats
    wait in a channel for the stream to take them. *)
Record Client := mkClient {
  cl_cluster_id : Z;
  cl_store_id : Z;
  cl_region_tx : list RegionHeartbeatRequest;
  cl_region_rx_open : bool;
}.

Section client.
Context {pd : Pd}.
Implicit Types A B : Type.

Definition CM (A : Type) : Type := M (Client * pd_world) A.

Definition update_cluster_id (header : option ResponseHeader) : CM unit :=
  match header with
  | Some h => modify (λ '(c, w), (mkClient (rsh_cluster_id h) (cl_store_id c) (cl_region_tx c) (cl_region_rx_open c), w))
  | None => mret tt
  end.
Definition cl_request_header (c : Client) : RequestHeader := mkRequestHeader (cl_cluster_id c) (cl_store_id c).
Definition header_now : CM (option RequestHeader) := gets (λ st, Some (cl_request_header st.1)).
(** [client.call(request).await?], and the cluster id of the answer's header. *)
Definition call {A} (header_of : A → option ResponseHeader) (m : M pd_world (Status + A)) : CM A :=
  resp ← (λ '(c, w), let '(o, w') := m w in (o, (c, w')));
  match resp with
  | inr a => update_cluster_id (header_of a);; mret a
  | inl status => raise (status_message status)
  end.

Definition cl_alloc_id : CM Z :=
  h ← header_now; inner ← call air_header (pd_alloc_id h); mret (air_id inner).
Definition cl_bootstrap (store : Store) : CM BootstrapResponse :=
  h ← header_now; call btr_header (pd_bootstrap (mkBootstrapRequest h (Some (copy_store store)))).
Definition cl_is_bootstrapped : CM bool :=
  h ← header_now; inner ← call ibr_header (pd_is_bootstrapped_ h); mret (ibr_bootstrapped inner).
Definition cl_put_store (store : Store) : CM unit :=
  h ← header_now; _ ← call psr_header (pd_put_store_ (mkPutStoreRequest h (Some (copy_store store)))); mret tt.
Definition cl_get_store (store_id : Z) : CM Store :=
  h ← header_now;
  inner ← call gsr_header (pd_get_store_ (mkGetStoreRequest h store_id));
  lift (ok_or "store not found" (copy_store <$> gsr_store inner)).
Definition region_and_leader (inner : GetRegionResponse) : CM (Region * option Peer) :=
  region ← lift (ok_or "region not found" (copy_region <$> grr_region inner));
  mret (region, copy_peer <$> grr_leader inner).
Definition cl_get_region (key : bytes) : CM (Region * option Peer) :=
  h ← header_now;
  inner ← call grr_header (pd_get_region_ (mkGetRegionRequest h key)); region_and_leader inner.
Definition cl_get_region_by_id (region_id : Z) : CM (Region * option Peer) :=
  h ← header_now;
  inner ← call grr_header (pd_get_region_by_id (mkGetRegionByIdRequest h region_id)); region_and_leader inner.
Definition cl_ask_split (region : Region) : CM AskSplitResponse :=
  h ← header_now; call asr_header (pd_ask_split (mkAskSplitRequest h (Some (copy_region region)))).
Definition cl_store_heartbeat (stats : StoreStats) : CM unit :=
  h ← header_now; _ ← call shr_header (pd_store_heartbeat (mkStoreHeartbeatRequest h (Some stats))); mret tt.
Definition cl_region_heartbeat (request : RegionHeartbeatRequest) : CM unit :=
  st ← get;
  if cl_region_rx_open st.1 then
    modify (λ '(c, w), (mkClient (cl_cluster_id c) (cl_store_id c) (cl_region_tx c ++ [request]) (cl_region_rx_open c), w))
  else raise "send region heartbeat failed".

(** [Client::connect] to a driver that can be reached: the address it takes,
    and what it learns. *)
Definition normalize (url : string) : string :=
  if String.prefix "http://" url || String.prefix "https://" url then url else "http://" +:+ url.
Definition endpoint_of (endpoints : list string) : outcome string :=
  ok_or "empty pd endpoints" (head (normalize <$> endpoints)).
Definition connect (store_id : Z) : M pd_world Client :=
  resp ← pd_get_members (Some (mkRequestHeader 0 store_id));
  match resp with
  | inr inner =>
      mret (mkClient (match gmr_header inner with Some h => rsh_cluster_id h | None => 0 end) store_id [] true)
  | inl status => raise (status_message status)
  end.
End client.

(** ** The client sees the driver *)

(** Run a call of the client on the service. *)
Ltac unfold_client :=
  unfold cl_alloc_id, cl_bootstrap, cl_is_bootstrapped, cl_put_store, cl_get_store, cl_get_region, cl_get_region_by_id,
    cl_ask_split, cl_store_heartbeat, header_now, call;
  unfold_M; cbn [pd_alloc_id pd_bootstrap pd_put_store_ pd_get_store_ pd_get_region_ pd_get_region_by_id pd_ask_split
    pd_store_heartbeat PdService fst snd];
  unfold sv_alloc_id, sv_bootstrap, sv_put_store, sv_get_store, sv_get_region, sv_get_region_by_id, sv_ask_split,
    sv_store_heartbeat, or_status, answer; unfold_M; cbn [btq_store psq_store gsq_store_id grq_region_key gbq_region_id].

Section refinement.
Context `{prof : BuildProfile} `{order : HashOrder} `{rand : RandomSource}.
Implicit Types (s : PdState) (c : Client).

Lemma copy_peer_eq peer : copy_peer peer = peer.
Proof. by destruct peer. Qed.
Lemma copy_region_eq region : copy_region region = region.
Proof.
  destruct region as [id start end_ epoch peers]. unfold copy_region. cbn. f_equal.
  induction peers as [|p peers IH]; cbn; [done|]. by rewrite copy_peer_eq, IH.
Qed.
Lemma copy_store_eq store : copy_store store = store.
Proof. by destruct store. Qed.
Lemma copy_peer_option (o : option Peer) : copy_peer <$> o = o.
Proof. destruct o; cbn; [by rewrite copy_peer_eq|done]. Qed.

(** A client that knows the cluster. *)
Definition learned s c : Client :=
  mkClient (pc_cluster_id (pd_config s)) (cl_store_id c) (cl_region_tx c) (cl_region_rx_open c).
(** A method of the driver, called in place: the client learns the cluster
    from a call that succeeds. *)
Definition through {A B} (m : M PdState A) (f : A → B) : M (Client * PdState) B := λ '(c, s),
  match m s with
  | (Ok a, s') => (Ok (f a), (learned s' c, s'))
  | (Err e, s') => (Err e, (c, s'))
  | (Panic, s') => (Panic, (c, s'))
  | (Diverge, s') => (Diverge, (c, s'))
  end.

(** C9: A call of the client answers what the driver's method answers, with its
    effect on the driver, and the client learns the id of the cluster: between
    them, the client and the service neither lose nor change anything. *)
Theorem client_refines_pd (now : Z) c s (store : Store) (store_id region_id : Z) (key : bytes) (region : Region)
    (stats : StoreStats) :
  let pd := PdService now in
  cl_alloc_id (c, s) = through alloc id (c, s) ∧
  cl_bootstrap store (c, s) = through (bootstrap now store) (λ h, mkBootstrapResponse (Some h)) (c, s) ∧
  cl_is_bootstrapped (c, s) = through (gets pd_is_bootstrapped) id (c, s) ∧
  cl_put_store store (c, s) = through (pd_put_store now store) (λ _, tt) (c, s) ∧
  cl_get_store store_id (c, s) =
    through (st ← get; lift (ok_or "store not found" (get_store store_id (pd_cluster st)))) si_meta (c, s) ∧
  cl_get_region key (c, s) =
    through (st ← get; lift (ok_or "region not found for key"
               (snd <$> list_find (λ r, pd_key_in key r = true) (get_regions (pd_cluster st)))))
            (λ r, (rgi_region r, rgi_leader r)) (c, s) ∧
  cl_get_region_by_id region_id (c, s) =
    through (st ← get; lift (ok_or "region not found" (get_region region_id (pd_cluster st))))
            (λ r, (rgi_region r, rgi_leader r)) (c, s) ∧
  cl_ask_split region (c, s) =
    through (ask_split (mkAskSplitRequest (Some (cl_request_header c)) (Some region))) id (c, s) ∧
  cl_store_heartbeat stats (c, s) =
    through (handle_store_heartbeat now now (mkStoreHeartbeatRequest (Some (cl_request_header c)) (Some stats)))
            (λ _, tt) (c, s).
Proof.
  cbn zeta. split_and!.
  - unfold through. unfold_client. destruct (alloc s) as [[]]; done.
  - unfold through. unfold_client. rewrite !copy_store_eq. unfold bootstrap. unfold_M. destruct (pd_is_bootstrapped s); done.
  - done.
  - unfold through. unfold_client. by rewrite !copy_store_eq.
  - unfold through. unfold_client. unfold pd_get_store. unfold_M. destruct (get_store store_id (pd_cluster s)); cbn; [|done]. by rewrite copy_store_eq.
  - unfold through. unfold_client. unfold pd_get_region, region_and_leader. unfold_M. destruct (snd <$> list_find _ _) as [r|]; cbn; [|done].
    by rewrite copy_region_eq, copy_peer_option.
  - unfold through. unfold_client. unfold get_region_by_id, region_and_leader. unfold_M. destruct (get_region region_id _) as [r|]; cbn; [|done].
    by rewrite copy_region_eq, copy_peer_option.
  - unfold through. unfold_client. rewrite copy_region_eq. 
    unfold ask_split. unfold_M. cbn. destruct (alloc s) as [[] s1]; try done. destruct (alloc s1) as [[] s2]; done.
  - unfold through. unfold_client. unfold handle_store_heartbeat. unfold_M. cbn. destruct (get_store _ _); done.
Qed.
End refinement.

(** ** Streams of heartbeats *)

Section streams.
Context `{prof : BuildProfile} `{order : HashOrder} `{rand : RandomSource}.
Implicit Types (s : PdState) (task : StreamTask) (msg : RegionHeartbeatRequest).

Definition streams_of s : SimpleHeartbeatStreams := oc_hb_streams (pd_operator_controller s).

Lemma region_heartbeat_streams now msg s id :
  has_stream id (streams_of (handle_region_heartbeat now msg s).2) = has_stream id (streams_of s).
Proof.
  unfold handle_region_heartbeat. unfold_M.
  destruct (hq_header msg) as [header|]; [|done]. destruct (hq_region msg) as [region|]; [|done].
  destruct (hq_leader msg) as [leader|]; [|done]. cbn. unfold on_cluster. destruct (put_region _ _) as [[] c]; cbn; try done.
  assert (has_stream id (streams_of (pd_dispatch now (reported_region msg region leader) "heartbeat" (set_cluster c s))) = has_stream id (streams_of s)) as H
    by (unfold streams_of, pd_dispatch; apply dispatch_streams).
  by destruct (negb _).
Qed.

Lemma ignore_err_state {S A} (m : M S A) (s : S) : (ignore_err m s).2 = (m s).2.
Proof. unfold ignore_err. by destruct (m s) as [[] ?]. Qed.

Lemma bound_message now task msg store_id s :
  stk_bound_store task = Some store_id →
  stream_message now task msg s = (ignore_err (handle_region_heartbeat now msg);; mret task) s.
Proof. intros H. unfold stream_message. by rewrite H. Qed.

Lemma bound_messages_streams task msgs store_id s id :
  stk_bound_store task = Some store_id →
  has_stream id (streams_of (stream_messages task msgs s).2) = has_stream id (streams_of s).
Proof.
  intros Hb. revert s. induction msgs as [|[now msg] msgs IH]; intros s; cbn [stream_messages]; [done|].
  pose proof (region_heartbeat_streams now msg s id) as Hs. rewrite <- ignore_err_state in Hs.
  unfold mbind, M_bind. rewrite (bound_message _ _ _ _ _ Hb). unfold mbind, M_bind.
  destruct (ignore_err (handle_region_heartbeat now msg) s) as [[] s1]; cbn in *; rewrite <- Hs; done.
Qed.

Definition no_header (m : Z * RegionHeartbeatRequest) : bool :=
  match hq_header m.2 with Some _ => false | None => true end.
Definition heartbeats (msgs : list (Z * RegionHeartbeatRequest)) : M PdState unit :=
  for_each msgs (λ m, ignore_err (handle_region_heartbeat m.1 m.2)).

Lemma bound_messages_run task msgs store_id s :
  stk_bound_store task = Some store_id →
  stream_messages task msgs s = (_ ← (heartbeats msgs s).1; Ok task, (heartbeats msgs s).2).
Proof.
  intros Hb. revert s. induction msgs as [|[now msg] msgs IH]; intros s; cbn [stream_messages]; [done|].
  unfold heartbeats in *. cbn [for_each fst snd]. unfold mbind, M_bind in *. rewrite (bound_message _ _ _ _ _ Hb).
  unfold mbind, M_bind. destruct (ignore_err (handle_region_heartbeat now msg) s) as [[] s1]; try done.
  cbn. apply IH.
Qed.

(** C11: A store is served from the first message of its stream that has a header:
    what comes before is dropped, that message and all that follow are handled
    one after the other, whatever store they name and whether they are refused,
    with commands for the store going to this stream; when it ends, the store
    has no stream. *)
Theorem stream_exact task msgs s :
  stk_bound_store task = None →
  match drop_while no_header msgs with
  | [] => stream_messages task msgs s = (Ok task, s) ∧ stream_end task s = (Ok tt, s)
  | (now, msg) :: rest =>
      ∃ header, hq_header msg = Some header ∧
      let store_id := rqh_sender_id header in
      let run := heartbeats ((now, msg) :: rest) (bind_region_stream store_id (stk_sender task) s) in
      stream_messages task msgs s =
        (_ ← run.1; Ok (mkStreamTask (stk_sender task) (Some store_id)), run.2) ∧
      has_stream store_id (streams_of run.2) = true ∧
      has_stream store_id (streams_of (stream_end (mkStreamTask (stk_sender task) (Some store_id)) run.2).2) = false
  end.
Proof.
  intros Hb. induction msgs as [|[now msg] msgs IH]; cbn [drop_while stream_messages].
  { split; [done|]. unfold stream_end. by rewrite Hb. }
  unfold no_header at 1. cbn [snd]. destruct (hq_header msg) as [header|] eqn:Hh.
  - exists header. split; [done|]. cbn zeta. set (s1 := bind_region_stream _ _ s).
    set (task' := mkStreamTask (stk_sender task) (Some (rqh_sender_id header))).
    assert ((stream_message now task msg ≫= λ task0, stream_messages task0 msgs) s = stream_messages task' ((now, msg) :: msgs) s1) as ->.
    { cbn [stream_messages]. unfold stream_message. rewrite Hb, Hh. unfold_M. fold s1.
      change (stk_bound_store task') with (Some (rqh_sender_id header)). cbn iota. destruct (ignore_err _ s1) as [[] s2] eqn:E; by rewrite ?E. }
    rewrite (bound_messages_run task' _ (rqh_sender_id header)) by done. split; [done|].
    pose proof (bound_messages_streams task' ((now, msg) :: msgs) (rqh_sender_id header) s1 (rqh_sender_id header) eq_refl) as Hs.
    rewrite (bound_messages_run task' _ (rqh_sender_id header)) in Hs by done. cbn [snd] in Hs. rewrite Hs. split.
    + unfold s1, bind_region_stream, set_streams, streams_of, has_stream, bind_stream. cbn.
      apply bool_decide_eq_true_2. rewrite lookup_insert_eq. eauto.
    + unfold stream_end, unbind_region_stream, set_streams, streams_of, has_stream, unbind_stream. cbn.
      apply bool_decide_eq_false_2. rewrite lookup_delete_eq. by intros [].
  - unfold stream_message. rewrite Hb, Hh. exact IH.
Qed.

(** FINDING: a store that connects again before the driver has noticed the end
    of its first stream loses its commands for good.  The end of the first
    stream unbinds the store, whichever stream is bound; the second one binds
    only once; so whatever it reports from then on, every command for the store
    is thrown away. *)
Theorem reconnect_loses_commands (store_id a b : Z) (later : list (Z * RegionHeartbeatRequest)) s1 :
  let first := mkStreamTask a (Some store_id) in
  let second := mkStreamTask b (Some store_id) in
  let s := (stream_messages second later (stream_end first s1).2).2 in
  has_stream store_id (streams_of s) = false ∧
  ∀ region response, get_leader_store_id region = Some store_id →
    shs_channels (simple_send_msg region response (streams_of s)) = shs_channels (streams_of s).
Proof.
  cbn zeta. match goal with |- ?P ∧ _ => assert P as Hno end.
  { rewrite (bound_messages_streams _ _ store_id) by done.
    unfold stream_end, unbind_region_stream, set_streams, streams_of, has_stream, unbind_stream. cbn.
    apply bool_decide_eq_false_2. rewrite lookup_delete_eq. by intros []. }
  split; [done|]. intros region response Hl. revert Hno. generalize (streams_of (stream_messages (mkStreamTask b (Some store_id)) later
    (stream_end (mkStreamTask a (Some store_id)) s1).2).2). intros h Hno.
  unfold simple_send_msg. rewrite Hl. cbn. apply bool_decide_eq_false, eq_None_not_Some in Hno. by rewrite Hno.
Qed.
End streams.

Section samples.
#[local] Existing Instance map_order.
#[local] Existing Instance low_rng.
#[local] Instance checked : BuildProfile := true.

Definition headerless : RegionHeartbeatRequest :=
  mkRegionHeartbeatRequest None (hq_region sample_report) (hq_leader sample_report) [] 4.

(** A report without a header is dropped, the next one is handled: the region
    is known and its store is bound to the stream. *)
Lemma stream_exact_witness :
  let s' := (stream_messages (mkStreamTask 50 None) [(1, headerless); (2, sample_report)] with_stores).2 in
  has_stream 1 (streams_of s') = true ∧ is_Some (get_region 7 (pd_cluster s')).
Proof.
  destruct (stream_exact (mkStreamTask 50 None) [(1, headerless); (2, sample_report)] with_stores eq_refl)
    as (header & Hh & H1 & H2 & _).
  injection Hh as <-. cbv zeta. rewrite H1. split; [exact H2|]. eexists. vm_compute. reflexivity.
Defined.
End samples.
