(* ===== verification/SchedulerTask.v ===== *)
(** The reports and requests a store sends to the placement driver:
    src/raftstore/runner/scheduler_task.rs.

    The trait [SchedulerClient] is a class, with the methods that the tasks
    use; its instance is the client of [PdService].  Lines of the log are left
    out. *)

From stdpp Require Import pretty.
From S2P Require Import Prelude Bytes Records Engine RaftTypes Proto Cluster OperatorController StoreMeta PdState PdService Peers.

Class SchedulerClient := {
  sclient : Type;
  sc_request_header : sclient → RequestHeader;
  sc_ask_split : Region → M sclient AskSplitResponse;
  sc_region_heartbeat : RegionHeartbeatRequest → M sclient unit;
  sc_store_heartbeat : StoreStats → M sclient unit;
}.
#[export] Instance Client_scheduler {pd : Pd} : SchedulerClient := {|
  sclient := Client * pd_world;
  sc_request_header st := cl_request_header st.1;
  sc_ask_split := cl_ask_split;
  sc_region_heartbeat := cl_region_heartbeat;
  sc_store_heartbeat := cl_store_heartbeat;
|}.

(** ** Tasks *)

Record SchedulerAskSplitTask := mkAskSplitTask {
  at_region : Region; at_split_key : bytes; at_peer : MetaPeer; at_callback : option Z }.
Record SchedulerRegionHeartbeatTask := mkRegionHeartbeatTask {
  rt_region : Region; rt_peer : MetaPeer; rt_pending_peers : list MetaPeer; rt_approximate_size : option Z }.
Record SchedulerStoreHeartbeatTask := mkStoreHeartbeatTask { sht_stats : StoreStats }.
Inductive SchedulerTask :=
| TaskAskSplit (t : SchedulerAskSplitTask)
| TaskRegionHeartbeat (t : SchedulerRegionHeartbeatTask)
| TaskStoreHeartbeat (t : SchedulerStoreHeartbeatTask).

(** The request of a Raft command; the lists of other requests are empty. *)
Record RaftRequestHeader := mkRaftRequestHeader {
  rrh_region_id : Z; rrh_peer : option MetaPeer; rrh_region_epoch : option RegionEpoch; rrh_term : Z }.
Record RaftCmdRequest := mkRaftCmdRequest {
  rcq_header : option RaftRequestHeader; rcq_admin_request : option AdminRequest }.

Section tasks.
Context `{client : SchedulerClient}.

(** The handler's state is that of its client and of its router. *)
Definition on_client {A} (m : M sclient A) : M (sclient * Router) A := λ '(c, r), let '(o, c') := m c in (o, (c', r)).
Definition on_router {A} (m : M Router A) : M (sclient * Router) A := λ '(c, r), let '(o, r') := m r in (o, (c, r')).

(** A command of the driver is only written to the log. *)
Definition on_region_heartbeat_response (resp : RegionHeartbeatResponse) : M (sclient * Router) unit :=
  match hr_change_peer resp, hr_transfer_leader resp with
  | Some _, _ => mret tt
  | None, Some _ => mret tt
  | None, None => mret tt
  end.

(** The command the comments describe, which is built and dropped. *)
Definition raft_cmd_request (region_id : Z) (epoch : RegionEpoch) (peer : MetaPeer) (req : AdminRequest) : RaftCmdRequest :=
  mkRaftCmdRequest (Some (mkRaftRequestHeader region_id (Some peer) (Some epoch) 0)) (Some req).
Definition request_data (region_id : Z) : bytes := str_bytes ("ADMIN_REQUEST:" +:+ pretty region_id).
Definition send_admin_request (region_id : Z) (epoch : RegionEpoch) (peer : MetaPeer) (req : AdminRequest)
    (callback : option Z) : M (sclient * Router) unit :=
  let _raft_cmd_request := raft_cmd_request region_id epoch peer req in
  on_router (router_send region_id (mkMsg MtRaftCmd region_id (MdRaftCmd (request_data region_id) callback))).

Definition split_request (task : SchedulerAskSplitTask) (resp : AskSplitResponse) : SplitRequest :=
  mkSplitRequest (at_split_key task) (asr_new_region_id resp) (asr_new_peer_ids resp).
Definition on_ask_split (task : SchedulerAskSplitTask) : M (sclient * Router) unit :=
  resp ← on_client (sc_ask_split (at_region task));
  (match asr_header resp with
   | Some header => match rsh_error header with Some err => raise "scheduler error" | None => mret tt end
   | None => mret tt
   end);;
  send_admin_request (rg_id (at_region task)) (region_epoch_or_default (at_region task)) (at_peer task)
    (mkAdminRequest (AdminCmdType_as_i32 AdminSplit) None None None (Some (split_request task resp)))
    (at_callback task).

Definition on_heartbeat (task : SchedulerRegionHeartbeatTask) : M (sclient * Router) unit :=
  st ← get;
  on_client (sc_region_heartbeat
    (mkRegionHeartbeatRequest (Some (sc_request_header st.1)) (Some (rt_region task)) (Some (rt_peer task))
       (rt_pending_peers task) (default 0 (rt_approximate_size task)))).
Definition on_store_heartbeat (task : SchedulerStoreHeartbeatTask) : M (sclient * Router) unit :=
  on_client (sc_store_heartbeat (sht_stats task)).

Definition handle_task (task : SchedulerTask) : M (sclient * Router) unit :=
  match task with
  | TaskAskSplit t => on_ask_split t
  | TaskRegionHeartbeat t => on_heartbeat t
  | TaskStoreHeartbeat t => on_store_heartbeat t
  end.
End tasks.

(** ** The way of a split *)

Section splits.
Context `{prof : BuildProfile} `{order : HashOrder} `{rand : RandomSource}.
Implicit Types (c : Client) (s : PdState) (r : Router).

Lemma on_client_run {A} `{client : SchedulerClient} (m : M sclient A) (st : sclient) r a st' :
  m st = (Ok a, st') → on_client m (st, r) = (Ok a, (st', r)).
Proof. intros H. unfold on_client. by rewrite H. Qed.
Lemma cl_ask_split_run now region c s :
  0 ≤ pd_counter s → pd_counter s + 2 < 2 ^ 64 →
  cl_ask_split (pd := PdService now) region (c, s) =
    (Ok (mkAskSplitResponse (Some (response_ok s)) (pd_counter s + 1) [pd_counter s + 2]),
     (learned s c, set_counter (pd_counter s + 2) s)).
Proof.
  intros H0 H2. unfold_client. rewrite ask_split_run by done. done.
Qed.

(** The command that an [AskSplit] task sends. *)
Definition split_cmd (task : SchedulerAskSplitTask) : Msg :=
  mkMsg MtRaftCmd (rg_id (at_region task)) (MdRaftCmd (request_data (rg_id (at_region task))) (at_callback task)).

(** C17: The way of a split through the store, the driver and the region map.
    The client's call returns an answer of the driver with the next two
    numbers of the driver's counter, which moves past them: the first is the
    new region's, the second, and no other, is for a peer.  The task makes
    this call, and then the region's channel, if it is open, gets one command.
    FINDING: that command names the region only: the split key and the ids of
    the answer, which a split needs, are lost.  Carried out with the answer,
    the split would divide the region at the key; but FINDING: the driver
    gives out one peer id whatever number of peers the region has, so the new
    region has its only replica, of the id given, on the store that splits. *)
Theorem ask_split_end_to_end (now : Z) (task : SchedulerAskSplitTask) c s r (clock : Z → Z) (h : AdminHandler) (m : StoreMeta) :
  0 ≤ pd_counter s → pd_counter s + 2 < 2 ^ 64 →
  let region := at_region task in
  ∃ resp st,
    cl_ask_split (pd := PdService now) region (c, s) = (Ok resp, st) ∧
    asr_new_region_id resp = pd_counter s + 1 ∧ asr_new_peer_ids resp = [pd_counter s + 2] ∧
    st = (learned s c, set_counter (pd_counter s + 2) s) ∧
    handle_task (client := Client_scheduler (pd := PdService now)) (TaskAskSplit task) ((c, s), r) =
      (match channel_of (rg_id region) r with
       | Some (mkChannel true _) => (Ok tt, (st, deliver (rg_id region) [split_cmd task] r))
       | _ => (Err (match rt_peers r !! rg_id region with Some _ => "failed to send message" | None => "region not found" end), (st, r))
       end) ∧
    (epoch_room region → at_split_key task ≠ [] → holds region (at_split_key task) →
     let req := mkSplitRequest (at_split_key task) (asr_new_region_id resp) (asr_new_peer_ids resp) in
     let lower := lower_half region (at_split_key task) in
     let upper := upper_half region req [mkPeer (pd_counter s + 2) (ah_store_id h)] in
     split_request task resp = req ∧ rg_id upper = pd_counter s + 1 ∧
     execute_split clock h region req m =
       (Ok (mkAdminResponse 10 (Some (mkSplitResponse [lower; upper]))), set_region upper (set_region lower m))).
Proof.
  intros H0 H2. cbn zeta. eexists _, _. split; [exact (cl_ask_split_run now _ c s H0 H2)|]. split_and!; [done..| |].
  - cbn [handle_task]. unfold on_ask_split. erewrite M_bind_run by (apply (on_client_run (client := Client_scheduler (pd := PdService now))); exact (cl_ask_split_run now _ c s H0 H2)).
    cbn [asr_header response_ok rsh_error]. rewrite (M_bind_run (mret _) _ _ _ _ eq_refl).
    unfold send_admin_request, on_router. fold (split_cmd task). rewrite router_send_run.
    by destruct (channel_of _ r) as [[[] q]|].
  - intros Hroom Hk Hh. split_and!; [done..|]. by apply execute_split_run.
Qed.
End splits.

(** ** Samples *)

Section samples.
#[local] Existing Instance map_order.
#[local] Existing Instance low_rng.
#[local] Instance checked : BuildProfile := true.

Definition sample_task : SchedulerAskSplitTask :=
  mkAskSplitTask (mkRegion 7 [] [] (Some (mkRegionEpoch 1 1)) [mkPeer 11 1; mkPeer 12 2; mkPeer 13 3]) [Byte.x62] (mkPeer 11 1) None.
Definition sample_client : Client := mkClient 1 1 [] true.
Definition sample_router : Router := mkRouter {[ 7 := 70 ]} {[ 70 := mkChannel true [] ]}.

(** The driver's counter is at 1000.  Three replicas become one. *)
Lemma ask_split_end_to_end_witness :
  let s' := (handle_task (client := Client_scheduler (pd := PdService 0)) (TaskAskSplit sample_task)
               ((sample_client, sample_pd), sample_router)).2 in
  (ch_queue <$> channel_of 7 s'.2) = Some [split_cmd sample_task] ∧ pd_counter s'.1.2 = 1002 ∧
  ∃ resp m', (cl_ask_split (pd := PdService 0) (at_region sample_task) (sample_client, sample_pd)).1 = Ok resp ∧
    execute_split (λ _, 5) sample_handler (at_region sample_task)
      (mkSplitRequest [Byte.x62] (asr_new_region_id resp) (asr_new_peer_ids resp)) StoreMeta_new =
    (Ok (mkAdminResponse 10 (Some (mkSplitResponse
          [mkRegion 7 [] [Byte.x62] (Some (mkRegionEpoch 1 2)) [mkPeer 11 1; mkPeer 12 2; mkPeer 13 3];
           mkRegion 1001 [Byte.x62] [] (Some (mkRegionEpoch 2 2)) [mkPeer 1002 1]]))), m').
Proof.
  destruct (ask_split_end_to_end 0 sample_task sample_client sample_pd sample_router (λ _, 5) sample_handler StoreMeta_new)
    as (resp & st & Hc & Hr & Hp & -> & H1 & H2); [by vm_compute..|].
  cbv zeta. rewrite H1, Hc. split; [by vm_compute|]. split; [by vm_compute|].
  destruct H2 as (_ & _ & H2); [by vm_compute|done|split; [by vm_compute|by left]|].
  eexists resp, _. split; [done|]. etrans; [exact H2|]. destruct resp as [hd rid pids]. cbn in Hr, Hp. subst. by vm_compute.
Defined.
End samples.
