(* ===== verification/Programs.v ===== *)
(** The programs that start stores and report to the scheduler:
    [run_server] of src/bin/aegisdb.rs, whose store registers with the
    scheduler of its own process, src/bin/pd_server.rs, and
    src/bin/launch_10stores.rs and launch_local_store.rs, whose stores report to
    a placement driver.

    Command lines, logs, listening sockets and sleeping are left out; a point
    of time that is read and what sysinfo measures are inputs. *)

From stdpp Require Import pretty.
From Stdlib Require Import SpecFloat.
From S2P Require Import Prelude Bytes RaftTypes Engine Proto Cluster Operator Schedulers StoreBalancer OperatorController PdState Views PdService.
Open Scope Z_scope.

(** ** Clusters in which every store leads a region of its own *)

Section solo.
Context `{prof : BuildProfile} `{order : HashOrder} `{rand : RandomSource}.
Implicit Types (c : BasicCluster) (r : RegionInfo).

(** Store [i] leads [r] and holds its only peer. *)
Definition own (i : Z) r : Prop := get_leader_store_id r = Some i ∧ stores_of r = [i].

(** The stores [ids], whose region, when it is known, is number [rid i] and not
    larger than [zmax]. *)
Context (ids : list Z) (rid : Z → Z) (zmax : Z).
Definition solo_regions (regions : gmap Z RegionInfo) : Prop := ∀ id r, regions !! id = Some r →
  ∃ i, i ∈ ids ∧ id = rid i ∧ own i r ∧ 0 ≤ rgi_approximate_size r ≤ zmax.
Record solo c : Prop := {
  solo_ok : cluster_ok c;
  solo_stores : dom (bc_stores c) = list_to_set ids;
  solo_known : solo_regions (bc_regions c);
  solo_counts : ∀ i st, bc_stores c !! i = Some st →
    0 ≤ si_leader_count st ≤ 1 ∧ (is_Some (bc_regions c !! rid i) → si_leader_count st = 1);
}.
Record numbered : Prop := {
  nb_nodup : NoDup ids;
  nb_inj : ∀ i j, i ∈ ids → j ∈ ids → rid i = rid j → i = j;
  nb_max : 1 ≤ zmax;
  nb_fit : Z.of_nat (length ids) * zmax ≤ u64_max;
}.
Hypothesis numbers : numbered.

Lemma zsum_bound {A} (f : A → Z) (l : list A) k : (∀ x, x ∈ l → 0 ≤ f x ≤ k) → 0 ≤ zsum f l ≤ Z.of_nat (length l) * k.
Proof.
  induction l as [|x l IH]; intros H; cbn [zsum length]; [lia|].
  pose proof (H x ltac:(left)). specialize (IH (λ y Hy, H y (list_elem_of_further _ _ _ Hy))). lia.
Qed.
Lemma zsum_const {A} (f : A → Z) (l : list A) k : (∀ x, x ∈ l → f x = k) → zsum f l = Z.of_nat (length l) * k.
Proof.
  induction l as [|x l IH]; intros H; cbn [zsum length]; [lia|].
  rewrite (H x) by left. rewrite IH; [lia|]. intros y Hy. apply H. by right.
Qed.

Lemma numbers_size : size (list_to_set (rid <$> ids) : gset Z) = length ids.
Proof.
  rewrite size_list_to_set, length_fmap; [done|].
  apply NoDup_fmap_2_strong; [intros; by apply (nb_inj numbers)|apply numbers].
Qed.
Lemma solo_dom m : solo_regions m → dom m ⊆ list_to_set (rid <$> ids).
Proof.
  intros H id (r & Hr)%elem_of_dom. destruct (H id r Hr) as (i & Hi & -> & _).
  apply elem_of_list_to_set, list_elem_of_fmap. by exists i.
Qed.
Lemma solo_number m : solo_regions m → (length (map_to_list m).*2 ≤ length ids)%nat.
Proof.
  intros H. rewrite length_fmap, length_map_to_list, <- size_dom, <- numbers_size. by apply subseteq_size, solo_dom.
Qed.

Lemma own_counts i s r : own i r → 0 ≤ peers_on s r ≤ 1 ∧ 0 ≤ leads s r ≤ 1.
Proof.
  intros [Hl Hs]. rewrite peers_on_nodup by (rewrite Hs; apply NoDup_singleton). unfold leads.
  repeat case_decide; lia.
Qed.

(** A recount cannot overflow. *)
Lemma solo_fit m s st : solo_regions m → stats_fit (add_stats (map_to_list m).*2 s (set_stats 0 0 0 0 st)).
Proof.
  intros Hm. pose proof (solo_number m Hm) as Hn. set (l := (map_to_list _).*2) in *.
  assert (∀ r, r ∈ l → 0 ≤ peers_on s r ≤ 1 ∧ 0 ≤ leads s r ≤ 1 ∧ 0 ≤ rgi_approximate_size r ≤ zmax) as Hr.
  { intros r [id Hid]%elem_of_map_values. destruct (Hm id r Hid) as (i & _ & _ & Ho & Hz).
    by destruct (own_counts i s r Ho). }
  assert (∀ f : RegionInfo → Z, (∀ r, r ∈ l → 0 ≤ f r ≤ zmax) → is_u64 (0 + zsum f l)) as H.
  { intros f Hf. pose proof (zsum_bound f l zmax Hf). destruct numbers as [_ _ ? ?]. unfold is_u64. nia. }
  destruct numbers as [_ _ Hmax _].
  unfold stats_fit, add_stats. cbn [si_region_count si_leader_count si_region_size si_leader_size set_stats].
  split_and!; apply H; intros r Hin; specialize (Hr r Hin); nia.
Qed.

Lemma solo_leaders c i :
  cluster_ok c → solo_regions (bc_regions c) → i ∈ ids →
  get_store_leader_count i c = if decide (is_Some (bc_regions c !! rid i)) then 1 else 0.
Proof.
  intros [_ _ Hl] Hreg Hi. unfold get_store_leader_count. rewrite indexed_default.
  enough (default ∅ (bc_store_leaders c !! i) = if decide (is_Some (bc_regions c !! rid i)) then {[rid i]} else ∅) as ->
    by (case_decide; by rewrite ?size_singleton, ?size_empty).
  apply set_eq. intros id. change (id ∈ default ∅ _) with (indexed (bc_store_leaders c) i id). rewrite Hl. split.
  - intros (r & Hr & Hlead). destruct (Hreg id r Hr) as (j & Hj & -> & [Ho _] & _).
    assert (j = i) as -> by congruence. rewrite decide_True by eauto. set_solver.
  - case_decide as Hk; [|set_solver]. intros ->%elem_of_singleton. destruct Hk as [r Hr]. exists r. split; [done|].
    destruct (Hreg _ r Hr) as (j & Hj & E & [Ho _] & _). by rewrite (nb_inj numbers i j Hi Hj E).
Qed.

(** A store reports its region. *)
Lemma solo_put_region c i r :
  solo c → i ∈ ids → rgi_id r = rid i → own i r → 0 ≤ rgi_approximate_size r ≤ zmax →
  ∃ c', put_region r c = (Ok tt, c') ∧ solo c' ∧ bc_regions c' = <[rid i := r]> (bc_regions c) ∧
    (∀ s, get_store s c' =
       (λ st, add_stats (map_to_list (bc_regions c')).*2 s (set_stats 0 0 0 0 st)) <$> get_store s c).
Proof.
  intros [Hc Hst Hreg _] Hi Hid Ho Hz.
  assert (solo_regions (<[rid i := r]> (bc_regions c))) as Hreg'.
  { intros id r0 [[<- <-]|[_ H]]%lookup_insert_Some; [by exists i|by apply Hreg]. }
  pose proof (put_region_ok_run r c Hc) as Hok. pose proof (put_region_regions r c) as Hrs.
  destruct (put_region_counts c r Hc) as (c' & E & Hs & Hlead & _); rewrite ?Hid in *.
  - intros id r0 H. destruct (Hreg' id r0 H) as (? & _ & _ & _ & ?). lia.
  - intros s st _. by apply solo_fit.
  - pose proof (put_region_dom _ _ _ _ E) as Hd. rewrite E in Hok, Hrs. cbn [snd] in Hok, Hrs.
    exists c'. rewrite Hrs. split_and!; try done. split; [done|by rewrite Hd|by rewrite Hrs|].
    intros j st Hj. rewrite (Hlead j st Hj). assert (j ∈ ids) as Hjin.
    { apply (elem_of_list_to_set (C := gset Z)). rewrite <- Hst, <- Hd. by apply elem_of_dom. }
    rewrite solo_leaders by (rewrite ?Hrs; done). case_decide; [done|]. split; [lia|done].
Qed.

(** A store reports for itself that it leads one region. *)
Lemma solo_put_store c st : solo c → si_id st ∈ ids → si_leader_count st = 1 → solo (put_store st c).
Proof.
  clear numbers. intros [Hc Hst Hreg Hcount] Hi Hl. split; cbn; [by apply put_store_ok|rewrite dom_insert_L; set_solver|done|].
  intros i st0 [[<- <-]|[_ H]]%lookup_insert_Some; [lia|by apply Hcount].
Qed.

(** What the summary says when every store has reported. *)
Lemma solo_summary id c :
  solo c → (∀ i, i ∈ ids → is_Some (bc_regions c !! rid i)) →
  cluster_summary id c =
    Ok (mkClusterSummary id (Z.of_nat (length ids)) (Z.of_nat (length ids)) (Z.of_nat (length ids))
          (zsum rgi_approximate_size (map_to_list (bc_regions c)).*2)).
Proof.
  intros [Hc Hst Hreg Hcount] Hall. destruct numbers as [Hnd Hinj Hmax Hfit].
  assert (dom (bc_regions c) = list_to_set (rid <$> ids)) as Hdom.
  { apply (anti_symm (⊆)); [by apply solo_dom|]. intros x (i & -> & Hi)%elem_of_list_to_set%list_elem_of_fmap.
    by apply elem_of_dom, Hall. }
  assert (length (map_to_list (bc_regions c)).*2 = length ids) as Hlen.
  { by rewrite length_fmap, length_map_to_list, <- size_dom, Hdom, numbers_size. }
  assert (get_stores c ≡ₚ (map_to_list (bc_stores c)).*2) as Hp.
  { unfold get_stores, hash_values. by rewrite (hash_iter_perm (bc_stores c)). }
  assert (length (map_to_list (bc_stores c)).*2 = length ids) as Hlens.
  { rewrite length_fmap, length_map_to_list, <- size_dom, Hst. by apply size_list_to_set. }
  assert (∀ st, st ∈ get_stores c → si_leader_count st = 1) as Hone.
  { intros st. rewrite Hp. intros ([i st'] & -> & H%elem_of_map_to_list)%list_elem_of_fmap. cbn.
    apply (Hcount i st' H), Hall. apply (elem_of_list_to_set (C := gset Z)). rewrite <- Hst. by apply elem_of_dom. }
  assert (∀ r, r ∈ get_regions c → 0 ≤ rgi_approximate_size r ≤ zmax) as Hz.
  { intros r. unfold get_regions. rewrite hash_values_perm. intros [x Hx]%elem_of_map_values.
    by destruct (Hreg x r Hx) as (_ & _ & _ & _ & ?). }
  unfold cluster_summary. rewrite !sum_u64_run; [|intros x Hx; by rewrite Hone|intros x Hx; by destruct (Hz x Hx)].
  rewrite (zsum_const si_leader_count _ 1 Hone).
  assert (length (get_regions c) = length ids) as -> by (unfold get_regions; by rewrite hash_values_perm).
  assert (length (get_stores c) = length ids) as -> by by rewrite Hp.
  assert (zsum rgi_approximate_size (get_regions c) = zsum rgi_approximate_size (map_to_list (bc_regions c)).*2) as ->
    by (unfold get_regions; by rewrite hash_values_perm).
  assert (0 ≤ zsum rgi_approximate_size (map_to_list (bc_regions c)).*2 ≤ Z.of_nat (length ids) * zmax) as Hb.
  { rewrite <- Hlen. apply zsum_bound. intros r Hr. apply Hz. unfold get_regions. by rewrite hash_values_perm. }
  rewrite !u64_norm_ok; [by rewrite Z.mul_1_r|unfold is_u64; nia..].
Qed.
End solo.

(** ** The node of src/bin/aegisdb.rs *)

(** [addr.split(':').last()] *)
Fixpoint last_part (cur s : bytes) : bytes :=
  match s with
  | [] => cur
  | Byte.x3a :: s => last_part [] s
  | b :: s => last_part (cur ++ [b]) s
  end.
(** The id of the store is its port. *)
Definition store_id_of (addr : bytes) : Z := default 20160 (parse_u64 (last_part [] addr)).

(** [as i64], [+] on [i64], [clamp] and [as u64]. *)
Definition as_i64 (z : Z) : Z := if z <? 2 ^ 63 then z else z - 2 ^ 64.
Definition i64_add `{BuildProfile} (a b : Z) : outcome Z :=
  let z := a + b in
  if (- 2 ^ 63 <=? z) && (z <? 2 ^ 63) then Ok z
  else if overflow_checks then Panic else Ok (as_i64 (z mod 2 ^ 64)).
Definition clamp (lo hi z : Z) : Z := if z <? lo then lo else if hi <? z then hi else z.
Definition as_u64 (z : Z) : Z := z mod 2 ^ 64.
Definition MIB : Z := 1024 * 1024.

(** The size of the region, made up anew with every tick. *)
Definition size_delta (size : Z) : Z := if (size / MIB) mod 2 =? 0 then 1024 * 512 else - 1024 * 256.
Definition next_size `{BuildProfile} (size : Z) : outcome Z :=
  new_size ← i64_add (as_i64 size) (size_delta size);
  Ok (as_u64 (clamp (6 * 1024 * 1024) (14 * 1024 * 1024) new_size)).

Section node.
Context `{prof : BuildProfile} `{order : HashOrder} `{rand : RandomSource}.

(** The region every node starts with: its leader and only peer are here. *)
Definition make_base_region (store_id : Z) : outcome RegionInfo :=
  id ← u64_mul store_id 10; id ← u64_add id 1;
  peer_id ← u64_mul store_id 100; peer_id ← u64_add peer_id 1;
  let peer := mkPeer peer_id store_id in
  Ok (set_approximate_size (8 * 1024 * 1024)
        (RegionInfo_new (mkRegion id [Byte.x61] [] (Some (mkRegionEpoch 1 1)) [peer]) (Some peer))).
Definition register_own_store (now : Z) (addr : bytes) : M BasicCluster RegionInfo :=
  let store_id := store_id_of addr in
  modify (put_store (StoreInfo_new now (mkStore store_id addr 0)));;
  base_region ← lift (make_base_region store_id);
  put_region base_region;;
  mret base_region.

(** What the task of the heartbeats changes: the cluster, the loads that are
    shown, and its own [size].  [now] is read twice for each store. *)
Record Node := mkNode { nd_cluster : BasicCluster; nd_store_loads : list StoreLoad; nd_size : Z }.
Definition node_load (now : Z → Z * Z) (s : StoreInfo) : StoreLoad :=
  let load := load_update (now (si_id s)).2 (si_region_count s) (si_leader_count s) (si_region_size s) (si_leader_size s)
                (StoreLoad_new (now (si_id s)).1 (si_id s)) in
  mkStoreLoad (sl_store_id load) (sl_region_count load) (sl_leader_count load) (sl_region_size load) (sl_leader_size load)
    (sl_last_update load) (is_up s).
Definition heartbeat_tick (base_region : RegionInfo) (now : Z → Z * Z) : M Node unit :=
  n ← get;
  size ← lift (next_size (nd_size n));
  modify (λ n, mkNode (nd_cluster n) (nd_store_loads n) size);;
  (λ n, let '(o, c) := put_region (set_approximate_size size base_region) (nd_cluster n) in (o, mkNode c (nd_store_loads n) (nd_size n)));;
  modify (λ n, mkNode (nd_cluster n) (node_load now <$> get_stores (nd_cluster n)) (nd_size n)).

(** From an empty cluster, over the given ticks. *)
Definition run_node (now : Z) (addr : bytes) (ticks : list (Z → Z * Z)) : outcome unit * Node :=
  match register_own_store now addr BasicCluster_new with
  | (Ok base_region, c) => for_each ticks (heartbeat_tick base_region) (mkNode c [] (8 * 1024 * 1024))
  | (o, c) => (_ ← o; Ok tt, mkNode c [] (8 * 1024 * 1024))
  end.
End node.

(** ** What the panel of a node shows *)

(** The size after [n] ticks, in quarters of a MiB. *)
Definition quarters (n : nat) : Z :=
  match n with
  | O => 32
  | 1%nat => 34
  | _ => match ((n - 2) mod 3)%nat with O => 36 | 1%nat => 35 | _ => 37 end
  end.
Lemma quarters_bound n : 32 ≤ quarters n ≤ 37.
Proof. unfold quarters. repeat case_match; lia. Qed.
Lemma next_quarters `{BuildProfile} n : next_size (quarters n * 262144) = Ok (quarters (S n) * 262144).
Proof.
  destruct n as [|[|n]]; [done..|].
  change (quarters (S (S n))) with (match ((S (S n) - 2) mod 3)%nat with O => 36 | 1%nat => 35 | _ => 37 end).
  change (quarters (S (S (S n)))) with (match ((S (S (S n)) - 2) mod 3)%nat with O => 36 | 1%nat => 35 | _ => 37 end).
  replace (S (S n) - 2)%nat with n by lia. replace (S (S (S n)) - 2)%nat with (S n) by lia.
  assert ((S n) mod 3 = match (n mod 3)%nat with O => 1 | 1 => 2 | _ => 0 end)%nat as ->.
  { rewrite <- Nat.add_1_l, <- Nat.Div0.add_mod_idemp_r. assert (n mod 3 < 3)%nat by (apply Nat.mod_upper_bound; lia).
    by destruct (n mod 3)%nat as [|[|[|]]]; [..|lia]. }
  assert (n mod 3 < 3)%nat by (apply Nat.mod_upper_bound; lia). by destruct (n mod 3)%nat as [|[|[|]]]; [..|lia].
Qed.

Section node_facts.
Context `{prof : BuildProfile} `{order : HashOrder} `{rand : RandomSource}.
Implicit Types (c : BasicCluster) (r : RegionInfo) (n : Node).

Definition node_region (s size : Z) : RegionInfo :=
  mkRegionInfo (mkRegion (s * 10 + 1) [Byte.x61] [] (Some (mkRegionEpoch 1 1)) [mkPeer (s * 100 + 1) s])
    (Some (mkPeer (s * 100 + 1) s)) [] size.
Lemma make_base_region_run s : 0 ≤ s → s * 100 + 1 ≤ u64_max → make_base_region s = Ok (node_region s (8 * MIB)).
Proof.
  intros H0 H1. unfold make_base_region, u64_mul, u64_add.
  do 4 (rewrite u64_norm_ok by (unfold is_u64, u64_max in *; lia); cbn [mbind outcome_bind]). done.
Qed.

Definition node_rid (s : Z) : Z := s * 10 + 1.
Lemma node_numbers s : numbered [s] node_rid (14 * MIB).
Proof. split; [apply NoDup_singleton|set_solver|done|done]. Qed.

(** The cluster of a node: its store, what it is known for, and its region. *)
Definition node_store (s : Z) (addr : bytes) c (P : StoreInfo → Prop) : Prop :=
  solo [s] node_rid (14 * MIB) c ∧ ∃ st, bc_stores c = {[s := st]} ∧ si_meta st = mkStore s addr 0 ∧ P st.
Definition node_at (s : Z) (addr : bytes) (size : Z) c : Prop :=
  bc_regions c = {[node_rid s := node_region s size]} ∧
  node_store s addr c (λ st, si_region_count st = 1 ∧ si_leader_count st = 1 ∧ si_region_size st = size ∧ si_leader_size st = size).

Lemma node_own s size : own s (node_region s size).
Proof. done. Qed.

Lemma node_put_region s addr size c :
  0 ≤ size ≤ 14 * MIB → node_store s addr c (λ _, True) →
  ∃ c', put_region (node_region s size) c = (Ok tt, c') ∧ node_at s addr size c'.
Proof.
  intros Hz (Hc & st & Est & Hm & _).
  destruct (solo_put_region [s] node_rid (14 * MIB) (node_numbers s) c s (node_region s size) Hc) as (c' & E & Hc' & Hr & Hst);
    [by left|done|done|done|].
  assert (bc_regions c' = {[node_rid s := node_region s size]}) as Hone.
  { rewrite Hr. apply map_eq. intros id. destruct (decide (id = node_rid s)) as [->|Hne].
    - by rewrite lookup_insert_eq, lookup_singleton_eq.
    - rewrite lookup_insert_ne, lookup_singleton_ne by done. apply eq_None_not_Some. intros [r H].
      destruct (solo_known _ _ _ _ Hc id r H) as (i & Hi & -> & _). by apply list_elem_of_singleton in Hi as ->. }
  rewrite Hone, map_to_list_singleton in Hst. cbn [fmap list_fmap snd] in Hst.
  exists c'. split; [done|]. split; [done|]. split; [done|]. exists (add_stats [node_region s size] s (set_stats 0 0 0 0 st)). split; [|split; [exact Hm|]].
  - apply map_eq. intros i. specialize (Hst i). unfold get_store in Hst. rewrite Hst, Est. destruct (decide (i = s)) as [->|Hne].
    + by rewrite !lookup_singleton_eq.
    + by rewrite !lookup_singleton_ne.
  - unfold add_stats, peers_on, leads. cbn. rewrite count_cons, !decide_True by done.
    change (count pr_store_id s []) with 0. cbn. lia.
Qed.

Lemma singleton_list {A} (s : Z) (st : A) (m : gmap Z A) : m = {[s := st]} → hash_values m = [st].
Proof.
  intros ->. unfold hash_values. apply Permutation_singleton_r. by rewrite (hash_iter_perm {[s := st]}), map_to_list_singleton.
Qed.

Lemma node_tick s addr size size' now c loads :
  node_store s addr c (λ _, True) → next_size size = Ok size' → 0 ≤ size' ≤ 14 * MIB →
  ∃ c' loads', heartbeat_tick (node_region s (8 * MIB)) now (mkNode c loads size) = (Ok tt, mkNode c' loads' size') ∧
    node_at s addr size' c' ∧ list_store_loads loads' = [mkStoreLoadView s 1 1 size' size'].
Proof.
  intros Hc Es Hz. destruct (node_put_region s addr size' c Hz Hc) as (c' & E & Hc').
  pose proof Hc' as (_ & _ & st & Est & Hm & H1 & H2 & H3 & H4).
  unfold heartbeat_tick. unfold_M. cbn [nd_size]. rewrite Es. cbn [nd_cluster nd_store_loads].
  change (set_approximate_size size' (node_region s (8 * MIB))) with (node_region s size'). rewrite E.
  do 2 eexists. split; [done|]. split; [done|]. unfold get_stores. rewrite (singleton_list s st) by done.
  unfold list_store_loads, to_load_view. cbn [fmap list_fmap node_load sl_store_id sl_region_count sl_leader_count sl_region_size
    sl_leader_size load_update StoreLoad_new]. unfold si_id. by rewrite Hm, H1, H2, H3, H4.
Qed.

Lemma node_ticks s addr ticks k c loads :
  node_at s addr (quarters k * 262144) c →
  ∃ c' loads', for_each ticks (heartbeat_tick (node_region s (8 * MIB))) (mkNode c loads (quarters k * 262144)) =
      (Ok tt, mkNode c' loads' (quarters (k + length ticks) * 262144)) ∧
    node_at s addr (quarters (k + length ticks) * 262144) c' ∧
    match ticks with
    | [] => loads' = loads
    | _ => let size := quarters (k + length ticks) * 262144 in list_store_loads loads' = [mkStoreLoadView s 1 1 size size]
    end.
Proof.
  revert k c loads. induction ticks as [|now ticks IH]; intros k c loads Hc; cbn [for_each length].
  { rewrite Nat.add_0_r. by exists c, loads. }
  pose proof (quarters_bound (S k)).
  destruct (node_tick s addr _ _ now c loads ltac:(by destruct Hc as (_ & ? & ? & ? & ? & _); split; eauto) (next_quarters k))
    as (c1 & loads1 & E & Hc1 & Hl1); [unfold MIB; lia|].
  destruct (IH (S k) c1 loads1 Hc1) as (c' & loads' & E' & Hc' & Hl').
  exists c', loads'. rewrite (M_bind_run _ _ _ _ _ E). replace (k + S (length ticks))%nat with (S k + length ticks)%nat by lia.
  split; [done|]. split; [done|]. destruct ticks; [|done]. rewrite Hl'. cbn [length]. by rewrite Nat.add_0_r.
Qed.

Lemma parse_digits_bound limit acc s z : 0 ≤ acc → parse_digits limit acc s = Some z → 0 ≤ z.
Proof.
  revert acc. induction s as [|b s IH]; intros acc Ha; cbn [parse_digits]; [by intros [= <-]|].
  unfold digit. destruct (_ && _) eqn:Hd; [|done]. apply andb_true_iff in Hd as [Hd _]. apply Z.leb_le in Hd.
  cbn [mbind option_bind]. destruct (_ <=? limit); [|done]. apply IH. lia.
Qed.
Lemma store_id_nonneg addr : 0 ≤ store_id_of addr.
Proof.
  unfold store_id_of, parse_u64, parse_uint. destruct (last_part [] addr) as [|b s]; [done|].
  destruct (match b with Byte.x2b => _ | _ => _ end) as [z|] eqn:E; [|done]. cbn.
  assert (∃ s', parse_digits u64_max 0 s' = Some z) as [s' Hs] by (destruct b, s; by eauto). by apply (parse_digits_bound _ _ _ _ ltac:(done) Hs).
Qed.
End node_facts.

Section panel.
Context `{prof : BuildProfile} `{order : HashOrder} `{rand : RandomSource}.

(** The panel of a node, after any number of ticks: one store, up, with the
    node's address and its port for an id, and one region that it leads; every
    tick returns.  The size that is shown for both does not move between 6 and
    14 MiB, as the comment in the code has it, but goes round in three steps
    between 8.75 and 9.25 MiB, so that the bounds never act. *)
Theorem node_panel cluster_id now addr ticks :
  let s := store_id_of addr in
  s * 100 + 1 ≤ u64_max →
  let size := quarters (length ticks) * 262144 in
  ∃ c loads, run_node now addr ticks = (Ok tt, mkNode c loads size) ∧
    cluster_summary cluster_id c = Ok (mkClusterSummary cluster_id 1 1 1 size) ∧
    admin_list_stores c = [mkApiStore s addr "Up" 1 1 size size] ∧
    list_regions c = [mkApiRegion (s * 10 + 1) [Byte.x61] [] (Some s) size [s]] ∧
    list_store_loads loads = match ticks with [] => [] | _ => [mkStoreLoadView s 1 1 size size] end.
Proof.
  cbn zeta. set (s := store_id_of addr). intros Hs.
  assert (0 ≤ s) as H0 by apply store_id_nonneg.
  set (c0 := put_store (StoreInfo_new now (mkStore s addr 0)) BasicCluster_new).
  assert (node_store s addr c0 (λ _, True)) as Hc0.
  { split; [|eexists; by split_and!].
    split; [apply put_store_ok, cluster_new_ok|by cbn; rewrite dom_insert_L, dom_empty_L|done|].
    cbn. intros i st [[<- <-]|[_ H]]%lookup_insert_Some; [|by rewrite lookup_empty in H]. split; [by cbn; lia|]. intros [? H]. done. }
  destruct (node_put_region s addr (8 * MIB) c0 ltac:(unfold MIB; lia) Hc0) as (c1 & E1 & Hc1).
  destruct (node_ticks s addr ticks 0 c1 [] Hc1) as (c & loads & E & Hc & Hl).
  exists c, loads. cbn [Nat.add] in *. split_and!.
  - unfold run_node, register_own_store. fold s. unfold_M. fold c0. rewrite make_base_region_run by done. rewrite E1. exact E.
  - rewrite (solo_summary [s] node_rid (14 * MIB) (node_numbers s)); [|by destruct Hc as (_ & ? & _)|].
    + destruct Hc as (-> & _). rewrite map_to_list_singleton. cbn. by rewrite Z.add_0_r.
    + intros i ->%list_elem_of_singleton. destruct Hc as (-> & _). rewrite lookup_singleton_eq. eauto.
  - destruct Hc as (_ & _ & st & Est & Hm & H1 & H2 & H3 & H4). unfold admin_list_stores, get_stores.
    rewrite (singleton_list s st) by done. cbn [fmap list_fmap]. unfold to_store_view, si_id, si_state. by rewrite Hm, H1, H2, H3, H4.
  - destruct Hc as (Hr & _). unfold list_regions, get_regions. by rewrite (singleton_list _ _ _ Hr).
  - destruct ticks; [by rewrite Hl|done].
Qed.
End panel.

(** ** Stores that report to a placement driver *)

(** src/bin/pd_server.rs: the state the service starts with. *)
Definition pd_server `{RandomSource} (config : PdConfig) : PdState := pd_start (PdState_new config).

(** [format!("127.0.0.1:20{:03}", n)] *)
Definition pad3 (n : Z) : string :=
  let s := pretty n in String.append (match String.length s with 1%nat => "00" | 2%nat => "0" | _ => "" end) s.

(** A launched store: its client, the task of its stream on the driver's side,
    and whether the report on the store of this round is sent. *)
Record LaunchedStore := mkLaunched { la_client : Client; la_task : StreamTask; la_reported : bool }.
Record World `{RandomSource} := mkWorld { w_pd : PdState; w_stores : gmap Z LaunchedStore }.
#[global] Arguments mkWorld {_} _ _.

Section launch.
Context `{prof : BuildProfile} `{order : HashOrder} `{rand : RandomSource}.

(** src/bin/launch_10stores.rs *)
Definition ten_store (store_id : Z) : Store := mkStore store_id (str_bytes ("127.0.0.1:20" +:+ pad3 (160 + store_id))) 0.
Definition ten_leader (store_id : Z) : Peer := mkPeer (1000000 + store_id) store_id.
Definition ten_region (store_id : Z) : Region :=
  mkRegion (10000 + store_id) (str_bytes ("store" +:+ pretty store_id +:+ "_start")) (str_bytes ("store" +:+ pretty store_id +:+ "_end"))
    (Some (mkRegionEpoch 1 1)) [ten_leader store_id].
Definition GIB : Z := 1024 * 1024 * 1024.
Definition ten_stats (store_id : Z) : StoreStats :=
  mkStoreStats store_id (100 * MIB) (80 * MIB) ((20 + store_id) * MIB) 1 1 true (5 + store_id mod 5) (store_id mod 3)
    (16 * GIB) ((4 + store_id) * GIB) (256 * GIB) ((20 + store_id) * GIB) (if store_id mod 4 =? 0 then "congested" else "normal").
Definition ten_heartbeat (c : Client) (store_id : Z) : RegionHeartbeatRequest :=
  mkRegionHeartbeatRequest (Some (cl_request_header c)) (Some (ten_region store_id)) (Some (ten_leader store_id)) [] 1024.

(** A call of the client of store [i], which shares the driver. *)
Definition on_launched {A} (now i : Z) (m : CM (pd := PdService now) A) (l : LaunchedStore) : M World A := λ w,
  let '(o, (c, pd)) := m (la_client l, w_pd w) in
  (o, mkWorld pd (<[i := mkLaunched c (la_task l) (la_reported l)]> (w_stores w))).
Definition with_launched {A} (d : A) (i : Z) (f : LaunchedStore → M World A) : M World A := λ w,
  match w_stores w !! i with Some l => f l w | None => (Ok d, w) end.

(** The clients connect one after the other; [senders] are the channels that
    the driver opens for them. *)
Definition connect_store (now sender i : Z) : M World unit := λ w,
  match connect (pd := PdService now) i (w_pd w) with
  | (Ok c, pd) => (Ok tt, mkWorld pd (<[i := mkLaunched c (mkStreamTask sender None) false]> (w_stores w)))
  | (o, pd) => (_ ← o; Ok tt, mkWorld pd (w_stores w))
  end.
Definition register_ten (now i : Z) : M World unit :=
  with_launched tt i (λ l,
    if i =? 1 then (_ ← on_launched now i (cl_bootstrap (pd := PdService now) (ten_store i)) l; mret tt)
    else on_launched now i (cl_put_store (pd := PdService now) (ten_store i)) l).
Definition ten_ids : list Z := [1; 2; 3; 4; 5; 6; 7; 8; 9; 10].
Definition launch_ten (now : Z → Z) (sender : Z → Z) : M World unit :=
  for_each ten_ids (λ i, connect_store (now i) (sender i) i);;
  for_each ten_ids (λ i, register_ten (now i) i).

(** The driver takes the next message of a client's stream. *)
Definition take_message (now : Z) (c : Client) (task : StreamTask) : M PdState (Client * StreamTask) :=
  match cl_region_tx c with
  | [] => mret (c, task)
  | msg :: queue =>
      task ← stream_message now task msg;
      mret (mkClient (cl_cluster_id c) (cl_store_id c) queue (cl_region_rx_open c), task)
  end.

(** What can happen next: the loop of a store goes on, with its report on the
    store or with the one on its region, which it puts into the channel of its
    stream; or the driver takes the next message of a stream. *)
Inductive LaunchAct := Turn (i now : Z) | Deliver (i now : Z).
Definition set_reported (b : bool) (l : LaunchedStore) : LaunchedStore := mkLaunched (la_client l) (la_task l) b.
Definition set_launched (i : Z) (f : LaunchedStore → LaunchedStore) (w : World) : World := mkWorld (w_pd w) (alter f i (w_stores w)).
Definition turn (now i : Z) : M World unit :=
  with_launched tt i (λ l,
    if la_reported l then
      ignore_err (on_launched now i (cl_region_heartbeat (pd := PdService now) (ten_heartbeat (la_client l) i)) l);;
      modify (set_launched i (set_reported false))
    else
      ignore_err (on_launched now i (cl_store_heartbeat (pd := PdService now) (ten_stats i)) l);;
      modify (set_launched i (set_reported true))).
Definition deliver_next (now i : Z) : M World unit :=
  with_launched tt i (λ l w,
    match take_message now (la_client l) (la_task l) (w_pd w) with
    | (Ok (c, task), pd) => (Ok tt, mkWorld pd (<[i := mkLaunched c task (la_reported l)]> (w_stores w)))
    | (o, pd) => (_ ← o; Ok tt, mkWorld pd (w_stores w))
    end).
Definition launch_act (a : LaunchAct) : M World unit :=
  match a with Turn i now => turn now i | Deliver i now => deliver_next now i end.
End launch.

Section launch_facts.
Context `{prof : BuildProfile} `{order : HashOrder} `{rand : RandomSource}.
Implicit Types (s : PdState) (w : World) (i now : Z).

Definition ten_rid (i : Z) : Z := 10000 + i.
Lemma ten_numbers : numbered ten_ids ten_rid 1024.
Proof.
  split; [apply (bool_decide_unpack _); by vm_compute|unfold ten_rid; lia|lia|by vm_compute].
Qed.
Definition ten_info (i : Z) : RegionInfo := mkRegionInfo (ten_region i) (Some (ten_leader i)) [] 1024.
Lemma ten_own i : own i (ten_info i).
Proof. done. Qed.

(** The driver and its registered stores; what waits in a stream. *)
Record ten_pd (config : PdConfig) s : Prop := {
  tp_config : pd_config s = config;
  tp_solo : solo ten_ids ten_rid 1024 (pd_cluster s);
  tp_sizes : ∀ id r, get_region id (pd_cluster s) = Some r → rgi_approximate_size r = 1024;
  tp_metas : ∀ i st, get_store i (pd_cluster s) = Some st → si_meta st = ten_store i;
}.
Definition ten_message (i : Z) (msg : RegionHeartbeatRequest) : Prop := ∃ c, msg = ten_heartbeat c i.
Record ten_world (config : PdConfig) w : Prop := {
  tw_pd : ten_pd config (w_pd w);
  tw_dom : ∀ i, i ∈ ten_ids → is_Some (w_stores w !! i);
  tw_queues : ∀ i l, w_stores w !! i = Some l → i ∈ ten_ids ∧ cl_region_rx_open (la_client l) = true ∧ Forall (ten_message i) (cl_region_tx (la_client l));
}.

(** A report on a region that is put without overflow is dispatched, and fails
    at most for the want of a stream. *)
Lemma region_heartbeat_run now msg h region leader s c' :
  hq_header msg = Some h → hq_region msg = Some region → hq_leader msg = Some leader →
  put_region (reported_region msg region leader) (pd_cluster s) = (Ok tt, c') →
  ∃ s', ignore_err (handle_region_heartbeat now msg) s = (Ok tt, s') ∧ pd_cluster s' = c' ∧ pd_config s' = pd_config s.
Proof.
  intros Hh Hr Hl Hput. unfold handle_region_heartbeat, ignore_err. rewrite Hh, Hr, Hl. cbn [ok_or]. unfold_M.
  unfold on_cluster. rewrite Hput. destruct (negb _); eexists; by split_and!.
Qed.

Lemma ten_put_region config i s :
  ten_pd config s → i ∈ ten_ids →
  ∃ c', put_region (ten_info i) (pd_cluster s) = (Ok tt, c') ∧ bc_regions c' = <[ten_rid i := ten_info i]> (bc_regions (pd_cluster s)) ∧
    ∀ s', pd_cluster s' = c' → pd_config s' = pd_config s → ten_pd config s'.
Proof.
  intros [Hcfg Hs Hz Hm] Hi.
  destruct (solo_put_region ten_ids ten_rid 1024 ten_numbers _ i (ten_info i) Hs Hi eq_refl (ten_own i)) as (c' & E & Hs' & Hr & Hst); [done|].
  exists c'. split; [done|]. split; [done|]. intros s' E1 E2. split; [by rewrite E2|by rewrite E1| |].
  { intros id r. unfold get_region. rewrite E1, Hr. intros [[_ <-]|[_ H]]%lookup_insert_Some; [done|by apply (Hz id)]. }
  intros j st. rewrite E1, Hst. intros (st0 & H0 & ->)%fmap_Some. by apply (Hm j st0).
Qed.

Lemma ten_message_run config now i task msg s :
  ten_pd config s → i ∈ ten_ids → ten_message i msg →
  ∃ task' s', stream_message now task msg s = (Ok task', s') ∧ ten_pd config s' ∧
    bc_regions (pd_cluster s') = <[ten_rid i := ten_info i]> (bc_regions (pd_cluster s)).
Proof.
  intros Hs Hi [c ->].
  assert (∀ s0, pd_cluster s0 = pd_cluster s → pd_config s0 = pd_config s → ∃ s', ignore_err (handle_region_heartbeat now (ten_heartbeat c i)) s0 = (Ok tt, s') ∧
            ten_pd config s' ∧ bc_regions (pd_cluster s') = <[ten_rid i := ten_info i]> (bc_regions (pd_cluster s))) as H.
  { intros s0 E1 E2. destruct (ten_put_region config i s Hs Hi) as (c' & E & Hr & Hs').
    destruct (region_heartbeat_run now (ten_heartbeat c i) (cl_request_header c) (ten_region i) (ten_leader i) s0 c') as (s' & E' & Ec & Ecf);
      [done..|by rewrite E1|]. exists s'. rewrite Ec. split; [done|]. split; [|done]. apply Hs'; [done|by rewrite Ecf]. }
  unfold stream_message. destruct (stk_bound_store task) as [b|].
  - destruct (H s eq_refl eq_refl) as (s' & E & H'). exists task, s'. by rewrite (M_bind_run _ _ _ _ _ E).
  - cbn [hq_header ten_heartbeat].
    destruct (H (bind_region_stream (rqh_sender_id (cl_request_header c)) (stk_sender task) s) eq_refl eq_refl) as (s' & E & H').
    do 2 eexists. rewrite (M_bind_run (modify _) _ _ _ _ eq_refl). rewrite (M_bind_run _ _ _ _ _ E). done.
Qed.

Lemma ten_report_run config now i c s :
  ten_pd config s → i ∈ ten_ids →
  ∃ c' s', cl_store_heartbeat (pd := PdService now) (ten_stats i) (c, s) = (Ok tt, (c', s')) ∧ ten_pd config s' ∧
    bc_regions (pd_cluster s') = bc_regions (pd_cluster s) ∧ cl_region_tx c' = cl_region_tx c ∧ cl_region_rx_open c' = cl_region_rx_open c.
Proof.
  intros [Hcfg Hs Hz Hm] Hi.
  assert (is_Some (get_store i (pd_cluster s))) as [st Hst].
  { apply elem_of_dom. rewrite (solo_stores _ _ _ _ Hs). by apply elem_of_list_to_set. }
  assert (si_meta st = ten_store i) as Hmeta by by apply Hm.
  unfold cl_store_heartbeat, header_now, call. unfold_M. cbn [pd_store_heartbeat PdService fst snd].
  unfold sv_store_heartbeat, or_status, handle_store_heartbeat. unfold_M. cbn [shq_stats ok_or ss_store_id ten_stats].
  rewrite Hst. cbn. do 2 eexists. split; [done|]. split; [|done]. split; [done| |done|].
  - cbn. apply solo_put_store; [done| |done]. unfold si_id. cbn. by rewrite Hmeta.
  - cbn. intros j st0. unfold get_store, put_store. cbn. intros [[<- <-]|[_ H]]%lookup_insert_Some; [|by apply Hm].
    cbn. unfold si_id. cbn. rewrite Hmeta. done.
Qed.
(** How far a store has come: its report is sent, its heartbeat waits, its region
    is known. *)
Definition level (i : Z) (k : nat) w : Prop :=
  let known := is_Some (bc_regions (pd_cluster (w_pd w)) !! ten_rid i) in
  ∃ l, w_stores w !! i = Some l ∧
  match k with
  | O => True
  | 1%nat => known ∨ cl_region_tx (la_client l) ≠ [] ∨ la_reported l = true
  | 2%nat => known ∨ cl_region_tx (la_client l) ≠ []
  | _ => known
  end.
Definition next_level (i : Z) (k : nat) (a : LaunchAct) : nat :=
  match a with
  | Turn j _ => if decide (j = i) then (if decide (k < 2)%nat then S k else k) else k
  | Deliver j _ => if decide (j = i) then (if decide (k = 2)%nat then 3%nat else k) else k
  end.
Lemma next_level_le i k a : (k ≤ next_level i k a)%nat.
Proof. destruct a; cbn; repeat case_decide; lia. Qed.
Lemma next_levels_le i acts k : (k ≤ foldl (next_level i) k acts)%nat.
Proof.
  revert k. induction acts as [|a acts IH]; intros k; cbn [foldl]; [lia|]. pose proof (next_level_le i k a). specialize (IH (next_level i k a)). lia.
Qed.
Lemma next_level_mono i k k' a : (k ≤ k' → next_level i k a ≤ next_level i k' a)%nat.
Proof. destruct a; cbn; repeat case_decide; lia. Qed.
Lemma next_levels_mono i acts k k' : (k ≤ k' → foldl (next_level i) k acts ≤ foldl (next_level i) k' acts)%nat.
Proof. revert k k'. induction acts as [|a acts IH]; intros k k' H; cbn [foldl]; [done|]. apply IH. by apply next_level_mono. Qed.

(** A store whose loop went round once and whose stream was then read. *)
Definition served (i : Z) (acts : list LaunchAct) : Prop :=
  ∃ n1 n2 n3, [Turn i n1; Turn i n2; Deliver i n3] `sublist_of` acts.
Lemma served_level i acts : served i acts → (3 ≤ foldl (next_level i) 0 acts)%nat.
Proof.
  intros (n1 & n2 & n3 & H).
  assert (∀ (steps acts : list LaunchAct) k, steps `sublist_of` acts → (foldl (next_level i) k steps ≤ foldl (next_level i) k acts)%nat) as Hsub.
  { clear. intros steps acts k H. revert k. induction H as [|a l1 l2 H IH|a l1 l2 H IH]; intros k; cbn [foldl]; [done|apply IH|].
    etrans; [apply IH|]. apply next_levels_mono, next_level_le. }
  etrans; [|apply (Hsub _ _ 0%nat H)]. cbn [foldl next_level]. rewrite !(decide_True (P := i = i)) by done. vm_compute. lia.
Qed.

(** A store that goes on leaves the others as they are. *)
Lemma with_launched_run {A} (d : A) i (f : LaunchedStore → M World A) w l : w_stores w !! i = Some l → with_launched d i f w = f l w.
Proof. intros H. unfold with_launched. by rewrite H. Qed.
Definition one_store_step config i (la : LaunchedStore) (w : World) (pd' : PdState) : Prop :=
  ten_pd config pd' ∧ Forall (ten_message i) (cl_region_tx (la_client la)) ∧ cl_region_rx_open (la_client la) = true ∧
  (∀ id, is_Some (bc_regions (pd_cluster (w_pd w)) !! id) → is_Some (bc_regions (pd_cluster pd') !! id)).
Lemma step_world config i (l l' : LaunchedStore) w pd' :
  ten_world config w → w_stores w !! i = Some l → one_store_step config i l' w pd' →
  ten_world config (mkWorld pd' (<[i := l']> (w_stores w))).
Proof.
  intros [Hpd Hdom Hq] Hl (Hpd' & Hm & Ho & _). split; [done| |]; cbn.
  - intros j Hj. destruct (decide (i = j)) as [->|]; [rewrite lookup_insert_eq; eauto|rewrite lookup_insert_ne by done; by apply Hdom].
  - intros j lj [[<- <-]|[_ H]]%lookup_insert_Some; [by destruct (Hq i l Hl)|by apply Hq].
Qed.
Lemma step_level config i (l l' : LaunchedStore) w pd' j k k' :
  w_stores w !! i = Some l → one_store_step config i l' w pd' →
  (j ≠ i → k' = k) → (j = i → level i k w → level i k' (mkWorld pd' (<[i := l']> (w_stores w)))) →
  level j k w → level j k' (mkWorld pd' (<[i := l']> (w_stores w))).
Proof.
  intros Hl (_ & _ & _ & Hk) Hne Heq H. destruct (decide (j = i)) as [->|Hji]; [by apply Heq|].
  rewrite Hne by done. destruct H as (lj & Hj & H). exists lj. cbn. rewrite lookup_insert_ne by done. split; [done|].
  destruct k as [|[|[|k]]]; naive_solver.
Qed.

Lemma turn_run config i now w l :
  ten_world config w → w_stores w !! i = Some l →
  ∃ pd' l', launch_act (Turn i now) w = (Ok tt, mkWorld pd' (<[i := l']> (w_stores w))) ∧ one_store_step config i l' w pd' ∧
    la_reported l' = negb (la_reported l) ∧ (la_reported l = true → cl_region_tx (la_client l') ≠ []) ∧
    (cl_region_tx (la_client l) ≠ [] → cl_region_tx (la_client l') ≠ []).
Proof.
  intros Hw Hl. destruct (tw_queues _ _ Hw i l Hl) as (Hi & Ho & Hq). cbn [launch_act]. unfold turn.
  rewrite (with_launched_run tt i _ w l Hl). destruct (la_reported l) eqn:Er.
  - unfold ignore_err, on_launched, cl_region_heartbeat. unfold_M. cbn [fst]. rewrite Ho. cbn.
    exists (w_pd w). eexists. split; [unfold set_launched; cbn; by rewrite alter_insert_eq|].
    split; [|split; [done|cbn; split; intros _ H; by apply app_nil in H as [_ ?]]].
    split; [apply Hw|]. split; [|done]. cbn. apply Forall_app. split; [done|]. apply Forall_singleton. by eexists.
  - destruct (ten_report_run config now i (la_client l) (w_pd w) (tw_pd _ _ Hw) Hi) as (c' & s' & E & Hs' & Hr & Htx & Hrx).
    unfold ignore_err, on_launched. unfold_M. rewrite E. cbn.
    exists s'. eexists. split; [unfold set_launched; cbn; by rewrite alter_insert_eq|].
    cbn. rewrite Htx. split; [|done]. split; [done|]. cbn. rewrite Htx, Hrx, Hr. done.
Qed.

Lemma deliver_run config i now w l :
  ten_world config w → w_stores w !! i = Some l →
  ∃ pd' l', launch_act (Deliver i now) w = (Ok tt, mkWorld pd' (<[i := l']> (w_stores w))) ∧ one_store_step config i l' w pd' ∧
    la_reported l' = la_reported l ∧
    (cl_region_tx (la_client l) ≠ [] → is_Some (bc_regions (pd_cluster pd') !! ten_rid i)) ∧
    (cl_region_tx (la_client l) = [] → cl_region_tx (la_client l') = []).
Proof.
  intros Hw Hl. destruct (tw_queues _ _ Hw i l Hl) as (Hi & Ho & Hq). cbn [launch_act]. unfold deliver_next.
  rewrite (with_launched_run tt i _ w l Hl). unfold take_message. destruct (cl_region_tx (la_client l)) as [|msg queue] eqn:Eq.
  - exists (w_pd w). eexists. split; [done|]. cbn. rewrite Eq. split; [|done]. split; [apply Hw|]. cbn. by rewrite Eq.
  - apply Forall_cons in Hq as [Hm Hq].
    destruct (ten_message_run config now i (la_task l) msg (w_pd w) (tw_pd _ _ Hw) Hi Hm) as (task' & s' & E & Hs' & Hr).
    rewrite (M_bind_run _ _ _ _ _ E). exists s'. eexists. split; [done|]. cbn. split; [|split; [done|split; [|done]]].
    + split; [done|]. split; [done|]. split; [done|]. intros id Hid. rewrite Hr. destruct (decide (id = ten_rid i)) as [->|]; [rewrite lookup_insert_eq; eauto|by rewrite lookup_insert_ne].
    + intros _. rewrite Hr, lookup_insert_eq. eauto.
Qed.

Lemma act_run config a w :
  ten_world config w →
  ∃ w', launch_act a w = (Ok tt, w') ∧ ten_world config w' ∧ ∀ i k, level i k w → level i (next_level i k a) w'.
Proof.
  intros Hw. set (i := match a with Turn i _ | Deliver i _ => i end).
  destruct (w_stores w !! i) as [l|] eqn:Hl.
  2: { exists w. split; [|split; [done|]].
    - destruct a; cbn; unfold turn, deliver_next, with_launched; subst i; by rewrite Hl.
    - intros j k (lj & Hj & H). destruct a as [i' now|i' now]; cbn in *; subst i; (case_decide as Hd; [subst; congruence|by exists lj]). }
  destruct a as [i' now|i' now]; subst i.
  - destruct (turn_run config i' now w l Hw Hl) as (pd' & l' & E & Hs & Hrep & Hq1 & Hq2).
    eexists. split; [exact E|]. split; [by apply (step_world _ _ l)|]. intros j k.
    apply (step_level config i' l); [done..| |]; cbn [next_level].
    + intros Hne. by rewrite decide_False by done.
    + intros ->. rewrite decide_True by done. intros (l0 & Hl0 & H). simplify_eq. destruct Hs as (_ & _ & _ & Hk). eexists. cbn.
      rewrite lookup_insert_eq. split; [done|]. rewrite Hrep. destruct (la_reported l) eqn:Er, k as [|[|[|k]]]; cbn in *; naive_solver.
  - destruct (deliver_run config i' now w l Hw Hl) as (pd' & l' & E & Hs & Hrep & Hk1 & Hq).
    eexists. split; [exact E|]. split; [by apply (step_world _ _ l)|]. intros j k.
    apply (step_level config i' l); [done..| |]; cbn [next_level].
    + intros Hne. by rewrite decide_False by done.
    + intros ->. rewrite decide_True by done. intros (l0 & Hl0 & H). simplify_eq. destruct Hs as (_ & _ & _ & Hk). eexists. cbn.
      rewrite lookup_insert_eq. split; [done|]. rewrite Hrep. destruct k as [|[|[|k]]]; cbn in *; naive_solver.
Qed.

Lemma acts_run config acts w :
  ten_world config w →
  ∃ w', for_each acts launch_act w = (Ok tt, w') ∧ ten_world config w' ∧
    ∀ i k, level i k w → level i (foldl (next_level i) k acts) w'.
Proof.
  revert w. induction acts as [|a acts IH]; intros w Hw; cbn [for_each foldl]; [by exists w|].
  destruct (act_run config a w Hw) as (w1 & E & Hw1 & Hl1). destruct (IH w1 Hw1) as (w' & E' & Hw' & Hl').
  exists w'. rewrite (M_bind_run _ _ _ _ _ E). split; [done|]. split; [done|]. intros i k Hk. by apply Hl', Hl1.
Qed.
(** Connecting changes nothing on the driver's side. *)
Definition fresh_client (l : LaunchedStore) : Prop := cl_region_tx (la_client l) = [] ∧ cl_region_rx_open (la_client l) = true.
Lemma connect_store_run now sender i w :
  ∃ l, connect_store now sender i w = (Ok tt, mkWorld (w_pd w) (<[i := l]> (w_stores w))) ∧ fresh_client l.
Proof. by eexists. Qed.
Lemma connect_all_run (now sender : Z → Z) ids w :
  ∃ ws, for_each ids (λ i, connect_store (now i) (sender i) i) w = (Ok tt, mkWorld (w_pd w) ws) ∧
    (∀ i, is_Some (w_stores w !! i) ∨ i ∈ ids → is_Some (ws !! i)) ∧
    ∀ i l, ws !! i = Some l → w_stores w !! i = Some l ∨ (i ∈ ids ∧ fresh_client l).
Proof.
  revert w. induction ids as [|i ids IH]; intros w; cbn [for_each].
  - exists (w_stores w). destruct w. split; [done|]. split; [intros i [H|H]; [done|by apply not_elem_of_nil in H]|naive_solver].
  - destruct (connect_store_run (now i) (sender i) i w) as (l1 & E1 & Hl1). rewrite (M_bind_run _ _ _ _ _ E1).
    set (w1 := mkWorld _ _).
    destruct (IH w1) as (ws & E & Hd & Hw). exists ws. split; [exact E|]. split.
    + intros j Hj. apply Hd. cbn. destruct (decide (i = j)) as [->|Hne]; [left; rewrite lookup_insert_eq; eauto|].
      rewrite lookup_insert_ne by done. destruct Hj as [Hj|[->|Hj]%elem_of_cons]; [by left|done|by right].
    + intros j l Hj. destruct (Hw j l Hj) as [H|[H1 H2]]; [|right; split; [by right|done]].
      cbn in H. apply lookup_insert_Some in H as [[<- <-]|[_ H]]; [right; split; [by left|done]|by left].
Qed.

(** The driver while the stores of [ids] are registered. *)
Record registering (config : PdConfig) (ids : list Z) w : Prop := {
  rg_config : pd_config (w_pd w) = config;
  rg_cluster : cluster_ok (pd_cluster (w_pd w));
  rg_regions : bc_regions (pd_cluster (w_pd w)) = ∅;
  rg_stores : dom (bc_stores (pd_cluster (w_pd w))) = list_to_set ids;
  rg_metas : ∀ i st, get_store i (pd_cluster (w_pd w)) = Some st → si_meta st = ten_store i ∧ si_leader_count st = 0;
  rg_first : ids = [] → pd_is_bootstrapped (w_pd w) = false;
  rg_clients : ∀ i, i ∈ ten_ids → is_Some (w_stores w !! i);
  rg_fresh : ∀ i l, w_stores w !! i = Some l → i ∈ ten_ids ∧ fresh_client l;
}.
Lemma register_run config ids now i w :
  registering config ids w → i ∈ ten_ids → (i = 1 → ids = []) →
  ∃ w', register_ten now i w = (Ok tt, w') ∧ registering config (i :: ids) w'.
Proof.
  intros [Hcfg Hok Hr Hst Hm Hf Hd Hq] Hi H1. destruct (Hd i Hi) as [l Hl]. destruct (Hq i l Hl) as [_ [Htx Hrx]].
  unfold register_ten. rewrite (with_launched_run tt i _ w l Hl).
  assert (∀ s', pd_config s' = config → pd_cluster s' = put_store (StoreInfo_new now (ten_store i)) (pd_cluster (w_pd w)) →
    registering config (i :: ids) (mkWorld s' (<[i := mkLaunched (learned s' (la_client l)) (la_task l) (la_reported l)]> (w_stores w)))) as Hw'.
  { intros s' E1 E2. split; cbn [w_pd w_stores].
    - done.
    - rewrite E2. by apply put_store_ok.
    - by rewrite E2.
    - rewrite E2. cbn. by rewrite dom_insert_L, Hst.
    - intros j st. rewrite E2. unfold get_store. cbn. intros [[<- <-]|[_ H]]%lookup_insert_Some; [done|by apply Hm].
    - done.
    - intros j Hj. destruct (decide (i = j)) as [->|]; [rewrite lookup_insert_eq; eauto|rewrite lookup_insert_ne by done; by apply Hd].
    - intros j l' [[<- <-]|[_ H]]%lookup_insert_Some; [by split; [|split]|by apply Hq]. }
  destruct (Z.eqb_spec i 1) as [E1|Hne].
  - unfold on_launched, cl_bootstrap, header_now, call. unfold_M. cbn [pd_bootstrap PdService fst snd].
    unfold sv_bootstrap, or_status, bootstrap. unfold_M. cbn [btq_store]. rewrite copy_store_eq, Hf by by apply H1. cbn.
    eexists. split; [done|]. rewrite copy_store_eq. by refine (Hw' _ _ _).
  - unfold on_launched, cl_put_store, header_now, call. unfold_M. cbn [pd_put_store_ PdService fst snd].
    unfold sv_put_store, or_status, pd_put_store. unfold_M. cbn. eexists. split; [done|]. rewrite !copy_store_eq. by refine (Hw' _ _ _).
Qed.
Lemma register_all_run config (now : Z → Z) l ids w :
  registering config ids w → (∀ i, i ∈ l → i ∈ ten_ids ∧ i ≠ 1) →
  ∃ w', for_each l (λ i, register_ten (now i) i) w = (Ok tt, w') ∧ registering config (reverse l ++ ids) w'.
Proof.
  revert ids w. induction l as [|i l IH]; intros ids w Hw Hl; cbn [for_each]; [by exists w|].
  destruct (Hl i ltac:(left)) as [Hi Hne]. destruct (register_run config ids (now i) i w Hw Hi) as (w1 & E1 & Hw1); [done|].
  rewrite (M_bind_run _ _ _ _ _ E1). destruct (IH (i :: ids) w1 Hw1) as (w' & E & Hw'); [intros j Hj; apply Hl; by right|].
  exists w'. split; [done|]. by rewrite reverse_cons, <- app_assoc.
Qed.

Lemma launch_run config (now sender : Z → Z) :
  ∃ w, launch_ten now sender (mkWorld (pd_server config) ∅) = (Ok tt, w) ∧ ten_world config w.
Proof.
  unfold launch_ten. destruct (connect_all_run now sender ten_ids (mkWorld (pd_server config) ∅)) as (ws & E & Hd & Hq).
  rewrite (M_bind_run _ _ _ _ _ E). cbn [w_pd].
  assert (registering config [] (mkWorld (pd_server config) ws)) as Hw0.
  { split; cbn [w_pd w_stores].
    - reflexivity.
    - apply cluster_new_ok.
    - reflexivity.
    - apply dom_empty_L.
    - intros i st H. unfold get_store in H. change (bc_stores _) with (∅ : gmap Z StoreInfo) in H. by rewrite lookup_empty in H.
    - reflexivity.
    - intros i Hi. apply Hd. by right.
    - intros i l Hi. destruct (Hq i l Hi) as [H|H]; [|exact H]. cbn in H. by rewrite lookup_empty in H. }
  change ten_ids with (1 :: [2; 3; 4; 5; 6; 7; 8; 9; 10]). cbn [for_each].
  destruct (register_run config [] (now 1) 1 _ Hw0) as (w1 & E1 & Hw1); [by left|done|]. rewrite (M_bind_run _ _ _ _ _ E1).
  destruct (register_all_run config now [2; 3; 4; 5; 6; 7; 8; 9; 10] [1] w1 Hw1) as (w & E2 & Hw).
  { intros i Hi. split; [by right|]. intros ->. revert Hi. rewrite !elem_of_cons, elem_of_nil. lia. }
  exists w. split; [exact E2|]. clear E E1 E2. destruct Hw as [Hcfg Hok Hr Hst Hm _ Hcl Hf]. split; [|done|].
  - split; [done| |intros id r H; unfold get_region in H; rewrite Hr in H; by rewrite lookup_empty in H|intros i st Hi; by apply Hm]. split; [done| |by rewrite Hr|].
    + rewrite Hst. apply list_to_set_perm_L. rewrite reverse_Permutation. exact (Permutation_app_comm _ [1]).
    + intros i st Hi. destruct (Hm i st Hi) as [_ ->]. rewrite Hr, lookup_empty. split; [lia|by intros []].
  - intros i l Hi. destruct (Hf i l Hi) as (Hin & Htx & Hrx). split; [exact Hin|]. split; [exact Hrx|]. rewrite Htx. constructor.
Qed.
End launch_facts.

Section launch_theorem.
Context `{prof : BuildProfile} `{order : HashOrder} `{rand : RandomSource}.

(** C29: Ten stores launched on a fresh placement driver, through their clients,
    the service and the streams: whatever order their loops and their streams
    then run in, no call fails for good, and when every store has gone round
    once and its heartbeat has been read, the driver's summary shows ten
    stores, ten regions with a leader each, and the sum of their sizes; every
    store has the address it registered with and leads one region. *)
Theorem ten_stores_shown config (now sender : Z → Z) acts :
  (∀ i, i ∈ ten_ids → served i acts) →
  ∃ w, (launch_ten now sender;; for_each acts launch_act) (mkWorld (pd_server config) ∅) = (Ok tt, w) ∧
    pd_cluster_summary (w_pd w) = Ok (mkClusterSummary (pc_cluster_id config) 10 10 10 10240) ∧
    ∀ i, i ∈ ten_ids → ∃ st, get_store i (pd_cluster (w_pd w)) = Some st ∧
      si_meta st = ten_store i ∧ si_leader_count st = 1.
Proof.
  intros Hs. destruct (launch_run config now sender) as (w0 & E0 & Hw0). rewrite (M_bind_run _ _ _ _ _ E0). clear E0.
  destruct (acts_run config acts w0 Hw0) as (w & E & Hw & Hl). exists w. split; [exact E|]. clear E.
  destruct Hw as [[Hcfg Hsolo Hz Hm] Hd Hq].
  assert (∀ i, i ∈ ten_ids → is_Some (bc_regions (pd_cluster (w_pd w)) !! ten_rid i)) as Hk.
  { intros i Hi. destruct (tw_dom _ _ Hw0 i Hi) as [l Hi0].
    destruct (Hl i 0%nat) as (l' & _ & H); [by exists l|]. pose proof (served_level i acts (Hs i Hi)) as H3.
    destruct (foldl (next_level i) 0 acts)%nat as [|[|[|k]]]; [lia..|exact H]. }
  split.
  - unfold pd_cluster_summary. rewrite Hcfg, (solo_summary ten_ids ten_rid 1024 ten_numbers) by done. do 2 f_equal.
    rewrite (zsum_const _ _ 1024).
    + assert (length (map_to_list (bc_regions (pd_cluster (w_pd w)))).*2 = length ten_ids) as ->; [|done].
      rewrite length_fmap, length_map_to_list, <- size_dom. rewrite <- (numbers_size ten_ids ten_rid 1024 ten_numbers). f_equal.
      apply (anti_symm (⊆)); [apply (solo_dom ten_ids ten_rid 1024), Hsolo|].
      intros x (i & -> & Hi)%elem_of_list_to_set%list_elem_of_fmap. by apply elem_of_dom, Hk.
    + intros r [id Hid]%elem_of_map_values. by apply (Hz id).
  - intros i Hi. assert (is_Some (get_store i (pd_cluster (w_pd w)))) as [st Hst].
    { apply elem_of_dom. rewrite (solo_stores _ _ _ _ Hsolo). by apply elem_of_list_to_set. }
    exists st. split; [done|]. split; [by apply Hm|]. by apply (solo_counts _ _ _ _ Hsolo i st Hst), Hk.
Qed.
End launch_theorem.

(** ** src/bin/launch_local_store.rs *)

(** The literals 0.2, 1.0, 80.0 and 200.0; [-] and [as u64] of an [f64]. *)
Definition f64_alpha : f64 := S754_finite false 7205759403792794 (-55).
Definition f64_sub : f64 → f64 → f64 := SFsub f64_prec f64_emax.
Definition f64_as_u64 (x : f64) : Z :=
  match x with
  | S754_finite false m e => Z.min u64_max (if 0 <=? e then Z.pos m * 2 ^ e else Z.pos m / 2 ^ (- e))
  | S754_infinity false => u64_max
  | _ => 0
  end.
Lemma f64_alpha_nearest : f64_div (f64_of 2) (f64_of 10) = f64_alpha.
Proof. by vm_compute. Qed.

(** What sysinfo answers; of each disk its size and the space left. *)
Record SystemInfo := mkSystemInfo { sy_total_memory : Z; sy_used_memory : Z; sy_disks : list (Z * Z) }.
(** What the loop keeps: the failures and the moving average of the latency. *)
Record LocalStore := mkLocal { lo_error_count : Z; lo_avg_ms : f64 }.

Definition disk_totals (disks : list (Z * Z)) : Z * Z :=
  foldl (λ t d, (saturating_add t.1 d.1, saturating_add t.2 (saturating_sub d.1 d.2))) (0, 0) disks.
Definition local_store (id : Z) (addr : bytes) : Store := mkStore id addr 0.
Definition local_leader (id : Z) : Peer := mkPeer 1000001 id.
Definition local_region (id : Z) : Region :=
  mkRegion 10001 (str_bytes "local_start") (str_bytes "local_end") (Some (mkRegionEpoch 1 1)) [local_leader id].
Definition local_stats (id : Z) (sys : SystemInfo) (l : LocalStore) : StoreStats :=
  let '(disk_total, disk_used) := disk_totals (sy_disks sys) in
  mkStoreStats id disk_total (saturating_sub disk_total disk_used) disk_used 1 1 true (f64_as_u64 (lo_avg_ms l)) (lo_error_count l)
    (sy_total_memory sys) (sy_used_memory sys) disk_total disk_used "normal".
Definition local_heartbeat (c : Client) (id : Z) : RegionHeartbeatRequest :=
  mkRegionHeartbeatRequest (Some (cl_request_header c)) (Some (local_region id)) (Some (local_leader id)) [] (4 * 1024 * 1024).
Definition next_avg (avg_ms : f64) (elapsed_ms : Z) : f64 :=
  let this_ms := f64_of elapsed_ms in
  if SFeqb avg_ms (f64_of 0) then this_ms
  else f64_add (f64_mul f64_alpha this_ms) (f64_mul (f64_sub (f64_of 1) f64_alpha) avg_ms).
(** Only for the log. *)
Definition network_state (avg_ms : f64) : string :=
  if f64_lt (f64_of 200) avg_ms then "degraded" else if f64_lt (f64_of 80) avg_ms then "congested" else "normal".

Section local.
Context `{prof : BuildProfile} `{order : HashOrder} `{rand : RandomSource}.

Definition local_register (now : Z) (store : Store) : CM (pd := PdService now) unit :=
  resp ← try_ok (cl_bootstrap (pd := PdService now) store);
  match resp with Some _ => mret tt | None => cl_put_store (pd := PdService now) store end.

Record LocalWorld := mkLocalWorld { lw_pd : PdState; lw_client : Client; lw_task : StreamTask; lw_local : LocalStore }.
Definition on_local {A} (now : Z) (m : CM (pd := PdService now) A) : M LocalWorld A := λ w,
  let '(o, (c, pd)) := m (lw_client w, lw_pd w) in (o, mkLocalWorld pd c (lw_task w) (lw_local w)).
(** One round of the loop. *)
Definition local_round (id now elapsed_ms : Z) (sys : SystemInfo) : M LocalWorld unit :=
  w ← get;
  res ← try_ok (on_local now (cl_store_heartbeat (pd := PdService now) (local_stats id sys (lw_local w))));
  modify (λ w', mkLocalWorld (lw_pd w') (lw_client w') (lw_task w')
    (mkLocal (match res with Some _ => lo_error_count (lw_local w) | None => saturating_add (lo_error_count (lw_local w)) 1 end)
       (next_avg (lo_avg_ms (lw_local w)) elapsed_ms)));;
  w ← get;
  ignore_err (on_local now (cl_region_heartbeat (pd := PdService now) (local_heartbeat (lw_client w) id))).
Definition local_deliver (now : Z) : M LocalWorld unit := λ w,
  match take_message now (lw_client w) (lw_task w) (lw_pd w) with
  | (Ok (c, task), pd) => (Ok tt, mkLocalWorld pd c task (lw_local w))
  | (o, pd) => (_ ← o; Ok tt, mkLocalWorld pd (lw_client w) (lw_task w) (lw_local w))
  end.
Inductive LocalAct := Round (now elapsed_ms : Z) (sys : SystemInfo) | Take (now : Z).
Definition local_act (id : Z) (a : LocalAct) : M LocalWorld unit :=
  match a with Round now ms sys => local_round id now ms sys | Take now => local_deliver now end.

(** ** Who is registered *)

(** The stores that are registered, each under its id. *)
Definition registered (D : gset Z) (s : PdState) : Prop := stores_ok (pd_cluster s) ∧ dom (bc_stores (pd_cluster s)) = D.

Lemma registered_store_heartbeat D now now' req s : registered D s → registered D (handle_store_heartbeat now now' req s).2.
Proof.
  intros Hs. unfold handle_store_heartbeat. apply M_bind_inv; [done|]. intros stats s0 [= _ <-] _.
  rewrite (M_bind_run get _ _ _ _ eq_refl). cbv beta. apply M_bind_inv.
  - destruct (get_store (ss_store_id stats) (pd_cluster s)) as [info|] eqn:E; [|done]. destruct Hs as [Hok Hd]. split; cbn.
    + by apply put_store_stores_ok.
    + rewrite dom_insert_L, Hd. pose proof (Hok _ _ E) as Hid. change (si_id (heartbeat_info now stats info)) with (si_id info).
      rewrite Hid. assert (ss_store_id stats ∈ D) by (rewrite <- Hd; by apply elem_of_dom). set_solver.
  - intros [] s1 _ Hs1. by apply (M_bind_inv (registered D)).
Qed.
Lemma registered_region_heartbeat D now msg s : registered D s → registered D (handle_region_heartbeat now msg s).2.
Proof.
  intros Hs. unfold handle_region_heartbeat.
  apply M_bind_inv; [done|]. intros h s0 [= _ <-] _. apply M_bind_inv; [done|]. intros rg s0 [= _ <-] _.
  apply M_bind_inv; [done|]. intros ld s0 [= _ <-] _. cbv zeta. apply M_bind_inv.
  - destruct Hs as [Hok Hd]. unfold on_cluster. pose proof (put_region_stores_ok (reported_region msg rg ld) _ Hok) as Hok'.
    destruct (put_region _ (pd_cluster s)) as [o c] eqn:E. apply put_region_dom in E. split; [done|]. cbn. by rewrite E.
  - intros [] s1 _ Hs1. apply M_bind_inv; [done|]. intros [] s2 _ Hs2. rewrite (M_bind_run get _ _ _ _ eq_refl). by case_match.
Qed.
Lemma registered_message D now task msg s : registered D s → registered D (stream_message now task msg s).2.
Proof.
  intros Hs. unfold stream_message. assert (∀ s task', registered D s → registered D ((ignore_err (handle_region_heartbeat now msg) ≫= λ _, (mret task' : M PdState StreamTask)) s).2) as H.
  { intros s1 task' H1. apply (M_bind_inv (registered D)); [|done]. rewrite ignore_err_state. by apply registered_region_heartbeat. }
  destruct (stk_bound_store task); [by apply H|]. destruct (hq_header msg); [|done]. by apply H.
Qed.

Definition registered_in (D : gset Z) (w : LocalWorld) : Prop := registered D (lw_pd w).
Lemma registered_report D now stats w :
  registered_in D w → registered_in D (on_local now (cl_store_heartbeat (pd := PdService now) stats) w).2.
Proof.
  intros Hw. unfold on_local, cl_store_heartbeat, header_now, call. unfold_M. cbn [pd_store_heartbeat PdService fst snd].
  unfold sv_store_heartbeat, or_status. unfold_M.
  set (req := mkStoreHeartbeatRequest _ _). pose proof (registered_store_heartbeat D now now req (lw_pd w) Hw) as H.
  by destruct (handle_store_heartbeat now now req (lw_pd w)) as [[] s'].
Qed.
Lemma registered_act D id a w : registered_in D w → registered_in D (local_act id a w).2.
Proof.
  intros Hw. destruct a as [now ms sys|now]; cbn [local_act].
  - unfold local_round. rewrite (M_bind_run get _ _ _ _ eq_refl). cbv beta. apply M_bind_inv.
    { pose proof (registered_report D now (local_stats id sys (lw_local w)) w Hw) as H. unfold try_ok.
      by destruct (on_local _ _ w) as [[] ?]. }
    intros r w1 _ H1. apply M_bind_inv; [done|]. intros [] w2 _ H2. rewrite (M_bind_run get _ _ _ _ eq_refl). cbv beta.
    unfold ignore_err, on_local, cl_region_heartbeat. unfold_M. cbn [fst]. by destruct (cl_region_rx_open _).
  - unfold local_deliver, take_message. destruct (cl_region_tx (lw_client w)) as [|msg queue]; [done|].
    pose proof (registered_message D now (lw_task w) msg (lw_pd w) Hw) as H. unfold_M. by destruct (stream_message _ _ _ _) as [[] ?].
Qed.

Lemma local_register_run now id addr c s :
  ∃ c' s', local_register now (local_store id addr) (c, s) = (Ok tt, (c', s')) ∧
    pd_cluster s' = (if pd_is_bootstrapped s then pd_cluster s else put_store (StoreInfo_new now (local_store id addr)) (pd_cluster s)) ∧
    cl_region_tx c' = cl_region_tx c ∧ cl_region_rx_open c' = cl_region_rx_open c.
Proof.
  unfold local_register, try_ok, cl_bootstrap, header_now, call. unfold_M. cbn [pd_bootstrap PdService fst snd].
  unfold sv_bootstrap, or_status, bootstrap. unfold_M. cbn [btq_store]. destruct (pd_is_bootstrapped s) eqn:Eb; cbn.
  - do 2 eexists. split; [done|]. by split.
  - do 2 eexists. split; [done|]. by rewrite copy_store_eq.
Qed.
End local.

Section local_theorems.
Context `{prof : BuildProfile} `{order : HashOrder} `{rand : RandomSource}.

(** FINDING: [launch_local_store] registers its store only when the cluster is
    new.  A driver that is bootstrapped answers a bootstrap with success and
    does not take the store, so the program never comes to the [put_store] that
    is meant for that case: it goes on to report, and whatever it and its
    stream then do, it is registered exactly if it was before. *)
Theorem local_store_not_registered now id addr c s acts task local :
  stores_ok (pd_cluster s) → pd_is_bootstrapped s = true →
  ∃ c' s', local_register now (local_store id addr) (c, s) = (Ok tt, (c', s')) ∧
    let w := (for_each acts (local_act id) (mkLocalWorld s' c' task local)).2 in
    is_Some (get_store id (pd_cluster (lw_pd w))) ↔ is_Some (get_store id (pd_cluster s)).
Proof.
  intros Hok Hb. destruct (local_register_run now id addr c s) as (c' & s' & E & Hc & _). rewrite Hb in Hc.
  exists c', s'. split; [done|]. cbn zeta. set (D := dom (bc_stores (pd_cluster s))).
  assert (registered_in D (for_each acts (local_act id) (mkLocalWorld s' c' task local)).2) as [_ Hd].
  { apply for_each_inv; [intros a w _; apply registered_act|]. split; cbn; by rewrite Hc. }
  unfold get_store. rewrite <- !elem_of_dom, Hd. done.
Qed.
(** FINDING: what the driver shows of a registered local store after a round:
    the memory and the disks as they were measured, the average latency of the
    rounds before; but the state of the network is always normal: the one that
    the round works out from the latency goes to the log and into no report,
    though the comments have it take effect in the next round. *)
Theorem local_round_shown id now elapsed_ms sys w st0 :
  get_store id (pd_cluster (lw_pd w)) = Some st0 → si_id st0 = id → cl_region_rx_open (lw_client w) = true →
  let '(disk_total, disk_used) := disk_totals (sy_disks sys) in
  ∃ w' st, local_round id now elapsed_ms sys w = (Ok tt, w') ∧ get_store id (pd_cluster (lw_pd w')) = Some st ∧
    store_metrics st = mkApiStoreMetrics true (f64_as_u64 (lo_avg_ms (lw_local w))) (lo_error_count (lw_local w))
      (sy_total_memory sys) (sy_used_memory sys) disk_total disk_used "normal" ∧
    lw_local w' = mkLocal (lo_error_count (lw_local w)) (next_avg (lo_avg_ms (lw_local w)) elapsed_ms).
Proof.
  intros Hst Hid Ho. destruct (disk_totals (sy_disks sys)) as [disk_total disk_used] eqn:Ed.
  unfold local_round, try_ok, ignore_err, on_local, cl_store_heartbeat, cl_region_heartbeat, header_now, call.
  unfold_M. cbn [pd_store_heartbeat PdService fst snd]. unfold sv_store_heartbeat, or_status, handle_store_heartbeat. unfold_M.
  unfold local_stats. rewrite Ed. cbn [shq_stats ok_or ss_store_id]. rewrite Hst. cbn. rewrite Ho. cbn.
  do 2 eexists. split; [done|]. cbn. unfold get_store, put_store. cbn. unfold si_id in *. cbn. rewrite Hid, lookup_insert_eq.
  split; [done|]. by split.
Qed.
End local_theorems.

(** ** Samples *)

Section samples.
#[local] Existing Instance map_order.
#[local] Existing Instance low_rng.
#[local] Existing Instance checked.

Lemma node_panel_witness :
  ∃ c loads, run_node 0 (str_bytes "127.0.0.1:20161") [λ _, (1, 1); λ _, (2, 2)] = (Ok tt, mkNode c loads (9 * MIB)) ∧
    cluster_summary 7 c = Ok (mkClusterSummary 7 1 1 1 (9 * MIB)) ∧
    list_store_loads loads = [mkStoreLoadView 20161 1 1 (9 * MIB) (9 * MIB)].
Proof.
  destruct (node_panel 7 0 (str_bytes "127.0.0.1:20161") [λ _, (1, 1); λ _, (2, 2)]) as (c & loads & E & H1 & _ & _ & H2); [by vm_compute|].
  exists c, loads. split; [exact E|]. split; [exact H1|exact H2].
Defined.

(** Each store goes round once, one after the other. *)
Definition one_round : list LaunchAct := concat ((λ i, [Turn i 1; Turn i 2; Deliver i 3]) <$> ten_ids).
Lemma one_round_served i : i ∈ ten_ids → served i one_round.
Proof.
  intros Hi. exists 1, 2, 3. unfold one_round. apply list_elem_of_split in Hi as (l1 & l2 & ->).
  rewrite fmap_app, concat_app, fmap_cons. cbn [concat]. apply sublist_inserts_l, sublist_inserts_r. done.
Qed.
Lemma ten_stores_shown_witness :
  ∃ w, (launch_ten (λ _, 0) (λ i, i);; for_each one_round launch_act) (mkWorld (pd_server (mkPdConfig 7 [] [])) ∅) = (Ok tt, w) ∧
    pd_cluster_summary (w_pd w) = Ok (mkClusterSummary 7 10 10 10 10240).
Proof.
  destruct (ten_stores_shown (mkPdConfig 7 [] []) (λ _, 0) (λ i, i) one_round) as (w & E & H & _); [exact one_round_served|].
  exists w. split; [exact E|exact H].
Defined.

Lemma local_store_not_registered_witness :
  let s := (bootstrap 0 (local_store 1 (str_bytes "127.0.0.1:20160")) (pd_server (mkPdConfig 7 [] []))).2 in
  ∃ c' s', local_register 5 (local_store 2 (str_bytes "127.0.0.1:20161")) (mkClient 7 2 [] true, s) = (Ok tt, (c', s')) ∧
    get_store 2 (pd_cluster (lw_pd (for_each [Round 6 1 (mkSystemInfo 0 0 []); Take 7] (local_act 2)
      (mkLocalWorld s' c' (mkStreamTask 9 None) (mkLocal 0 (f64_of 0)))).2)) = None.
Proof.
  cbv zeta. set (s := (bootstrap _ _ _).2).
  destruct (local_store_not_registered 5 2 (str_bytes "127.0.0.1:20161") (mkClient 7 2 [] true) s
    [Round 6 1 (mkSystemInfo 0 0 []); Take 7] (mkStreamTask 9 None) (mkLocal 0 (f64_of 0))) as (c' & s' & E & H).
  - refine (bool_decide_unpack (map_Forall (λ id st, si_id st = id) (bc_stores (pd_cluster s))) _). by vm_compute.
  - done.
  - exists c', s'. split; [exact E|]. apply eq_None_not_Some. intros Hs. apply H in Hs. vm_compute in Hs. by destruct Hs.
Defined.
End samples.
