(* ===== verification/MockScheduler.v ===== *)
(** The stand-in for the placement driver that src/main.rs makes its
    demonstrations with: a second implementation of the trait
    [SchedulerClient].

    Its maps and counters are behind locks and atomics; a method is one step.
    The handler of region heartbeats is a closure, known here by what it was
    called with. *)

From S2P Require Import Prelude Bytes Records Engine RaftTypes Proto Cluster OperatorController StoreMeta PdState PdService Peers SchedulerTask.

Definition make_epoch (conf_ver version : Z) : RegionEpoch := mkRegionEpoch conf_ver version.
Definition set_epoch_version (version : Z) (region : Region) : Region :=
  let epoch := match rg_region_epoch region with
               | Some epoch => mkRegionEpoch (re_conf_ver epoch) version
               | None => make_epoch 0 version
               end in
  mkRegion (rg_id region) (rg_start_key region) (rg_end_key region) (Some epoch) (rg_peers region).
Definition epoch_version (region : Region) : Z := default 0 (re_version <$> rg_region_epoch region).

(** [None]: no handler is set. *)
Record MockScheduler := mkMock {
  mo_store_id : Z;
  mo_cluster_id : Z;
  mo_next_id : Z;
  mo_bootstrapped : bool;
  mo_stores : gmap Z Store;
  mo_regions : gmap Z Region;
  mo_region_handler : option (list RegionHeartbeatResponse);
  mo_region_requests : list RegionHeartbeatRequest;
  mo_store_stats : list StoreStats;
}.
Definition Mock_new (store_id : Z) : MockScheduler := mkMock store_id 1 1000 false ∅ ∅ None [] [].

Section mock.
Context `{order : HashOrder}.

Definition mo_header (m : MockScheduler) : ResponseHeader := mkResponseHeader (mo_cluster_id m) None.
Definition mo_set_next_id (n : Z) (m : MockScheduler) : MockScheduler :=
  mkMock (mo_store_id m) (mo_cluster_id m) n (mo_bootstrapped m) (mo_stores m) (mo_regions m) (mo_region_handler m)
    (mo_region_requests m) (mo_store_stats m).
Definition mo_insert_store (store : Store) (m : MockScheduler) : MockScheduler :=
  mkMock (mo_store_id m) (mo_cluster_id m) (mo_next_id m) (mo_bootstrapped m) (<[st_id store := store]> (mo_stores m)) (mo_regions m)
    (mo_region_handler m) (mo_region_requests m) (mo_store_stats m).
Definition mo_set_handler (h : option (list RegionHeartbeatResponse)) (m : MockScheduler) : MockScheduler :=
  mkMock (mo_store_id m) (mo_cluster_id m) (mo_next_id m) (mo_bootstrapped m) (mo_stores m) (mo_regions m) h
    (mo_region_requests m) (mo_store_stats m).

Definition handle_region_response (request : RegionHeartbeatRequest) (m : MockScheduler) : MockScheduler :=
  match hq_region request, mo_region_handler m with
  | Some region, Some called =>
      mo_set_handler (Some (called ++ [mkRegionHeartbeatResponse (Some (mo_header m)) None None (rg_id region)
                                         (rg_region_epoch region) (hq_leader request)])) m
  | _, _ => m
  end.

Definition mo_request_header (m : MockScheduler) : RequestHeader := mkRequestHeader (mo_cluster_id m) (mo_store_id m).
(** [fetch_add] wraps around. *)
Definition mo_alloc_id : M MockScheduler Z :=
  m ← get; modify (mo_set_next_id ((mo_next_id m + 1) mod 2 ^ 64));; mret (mo_next_id m).
Definition mo_bootstrap (store : Store) : M MockScheduler BootstrapResponse :=
  modify (mo_insert_store store);;
  modify (λ m, mkMock (mo_store_id m) (mo_cluster_id m) (mo_next_id m) true (mo_stores m) (mo_regions m) (mo_region_handler m)
                 (mo_region_requests m) (mo_store_stats m));;
  gets (λ m, mkBootstrapResponse (Some (mo_header m))).
Definition mo_is_bootstrapped : M MockScheduler bool := gets mo_bootstrapped.
Definition mo_put_store (store : Store) : M MockScheduler unit := modify (mo_insert_store store).
Definition mo_get_store (store_id : Z) : M MockScheduler Store := m ← get; lift (ok_or "store not found" (mo_stores m !! store_id)).
Definition empty_region (id : Z) : Region := mkRegion id [] [] (Some (make_epoch 0 0)) [].
Definition mo_key_in (key : bytes) (region : Region) : bool :=
  bytes_leb (rg_start_key region) key && (bool_decide (rg_end_key region = []) || bytes_ltb key (rg_end_key region)).
Definition mo_get_region (key : bytes) : M MockScheduler (Region * option MetaPeer) :=
  m ← get;
  let region := default (empty_region 0) (snd <$> list_find (λ r, mo_key_in key r = true) (hash_values (mo_regions m))) in
  mret (region, head (rg_peers region)).
Definition mo_get_region_by_id (region_id : Z) : M MockScheduler (Region * option MetaPeer) :=
  m ← get;
  let region := default (empty_region region_id) (mo_regions m !! region_id) in
  mret (region, head (rg_peers region)).
Fixpoint alloc_ids (peers : list MetaPeer) : M MockScheduler (list Z) :=
  match peers with
  | [] => mret []
  | _ :: peers => id ← mo_alloc_id; ids ← alloc_ids peers; mret (id :: ids)
  end.
Definition mo_ask_split (region : Region) : M MockScheduler AskSplitResponse :=
  new_region_id ← mo_alloc_id;
  new_peer_ids ← alloc_ids (rg_peers region);
  m ← get;
  mret (mkAskSplitResponse (Some (mo_header m)) new_region_id new_peer_ids).
Definition mo_store_heartbeat (stats : StoreStats) : M MockScheduler unit :=
  modify (λ m, mkMock (mo_store_id m) (mo_cluster_id m) (mo_next_id m) (mo_bootstrapped m) (mo_stores m) (mo_regions m)
                 (mo_region_handler m) (mo_region_requests m) (mo_store_stats m ++ [stats])).
Definition mo_region_heartbeat (request : RegionHeartbeatRequest) : M MockScheduler unit :=
  modify (λ m, mkMock (mo_store_id m) (mo_cluster_id m) (mo_next_id m) (mo_bootstrapped m) (mo_stores m) (mo_regions m)
                 (mo_region_handler m) (mo_region_requests m ++ [request]) (mo_store_stats m));;
  modify (handle_region_response request).
Definition set_region_heartbeat_response_handler : M MockScheduler unit := modify (mo_set_handler (Some [])).
End mock.

#[export] Instance Mock_scheduler `{HashOrder} : SchedulerClient := {|
  sclient := MockScheduler;
  sc_request_header := mo_request_header;
  sc_ask_split := mo_ask_split;
  sc_region_heartbeat := mo_region_heartbeat;
  sc_store_heartbeat := mo_store_heartbeat;
|}.

(** ** A split over the stand-in *)

Section splits.
Context `{prof : BuildProfile} `{order : HashOrder}.
Implicit Types (m : MockScheduler) (r : Router).

Lemma alloc_ids_run peers m :
  0 ≤ mo_next_id m → mo_next_id m + Z.of_nat (length peers) < 2 ^ 64 →
  alloc_ids peers m = (Ok (seqZ (mo_next_id m) (Z.of_nat (length peers))), mo_set_next_id (mo_next_id m + Z.of_nat (length peers)) m).
Proof.
  revert m. induction peers as [|p peers IH]; intros m H0 H; cbn [alloc_ids length] in *.
  - unfold mret, M_ret. rewrite Z.add_0_r. by destruct m.
  - unfold mo_alloc_id. unfold_M. rewrite Z.mod_small by lia. rewrite IH by (cbn; lia). cbn [mo_next_id mo_set_next_id].
    rewrite (seqZ_cons (mo_next_id m)) by lia. rewrite <- Z.add_1_r. replace (Z.pred (Z.of_nat (S (length peers)))) with (Z.of_nat (length peers)) by lia.
    replace (mo_next_id m + Z.of_nat (S (length peers))) with (mo_next_id m + 1 + Z.of_nat (length peers)) by lia. done.
Qed.

Lemma mo_ask_split_run region m :
  0 ≤ mo_next_id m → mo_next_id m + 1 + Z.of_nat (length (rg_peers region)) < 2 ^ 64 →
  mo_ask_split region m =
    (Ok (mkAskSplitResponse (Some (mo_header m)) (mo_next_id m) (seqZ (mo_next_id m + 1) (Z.of_nat (length (rg_peers region))))),
     mo_set_next_id (mo_next_id m + 1 + Z.of_nat (length (rg_peers region))) m).
Proof.
  intros H0 H. unfold mo_ask_split, mo_alloc_id. unfold_M. rewrite Z.mod_small by lia. rewrite alloc_ids_run by (cbn; lia). done.
Qed.
(** A split asked for through the stand-in: unlike the placement driver it
    gives one new id for each peer of the region, all of them new.  FINDING: the
    split then places every one of these peers on the store that splits, so the
    new region has as many replicas as the old one, all on one store. *)
Theorem split_over_mock (task : SchedulerAskSplitTask) m r (clock : Z → Z) (h : AdminHandler) (sm : StoreMeta) :
  let region := at_region task in
  let n := Z.of_nat (length (rg_peers region)) in
  0 ≤ mo_next_id m → mo_next_id m + 1 + n < 2 ^ 64 → rg_peers region ≠ [] →
  let ids := seqZ (mo_next_id m + 1) n in
  let resp := mkAskSplitResponse (Some (mo_header m)) (mo_next_id m) ids in
  let m' := mo_set_next_id (mo_next_id m + 1 + n) m in
  NoDup (mo_next_id m :: ids) ∧
  handle_task (TaskAskSplit task) (m, r) =
    (match channel_of (rg_id region) r with
     | Some (mkChannel true _) => (Ok tt, (m', deliver (rg_id region) [split_cmd task] r))
     | _ => (Err (match rt_peers r !! rg_id region with Some _ => "failed to send message" | None => "region not found" end), (m', r))
     end) ∧
  (epoch_room region → at_split_key task ≠ [] → holds region (at_split_key task) →
   ∃ lower upper, execute_split clock h region (split_request task resp) sm =
       (Ok (mkAdminResponse 10 (Some (mkSplitResponse [lower; upper]))), set_region upper (set_region lower sm)) ∧
     length (rg_peers upper) = length (rg_peers region) ∧ ∀ p, p ∈ rg_peers upper → pr_store_id p = ah_store_id h).
Proof.
  cbn zeta. intros H0 H2 Hne. split_and!.
  - apply NoDup_cons. split; [rewrite elem_of_seqZ; lia|apply NoDup_seqZ].
  - cbn [handle_task]. unfold on_ask_split.
    erewrite M_bind_run by (apply on_client_run; exact (mo_ask_split_run (at_region task) m H0 H2)).
    cbn [asr_header mo_header rsh_error]. rewrite (M_bind_run (mret _) _ _ _ _ eq_refl).
    unfold send_admin_request, on_router. fold (split_cmd task). rewrite router_send_run.
    by destruct (channel_of _ r) as [[[] q]|].
  - intros Hroom Hk Hh. do 2 eexists. split; [apply execute_split_run; [done| |done|done]|].
    + unfold new_peers, split_request. cbn [sq_new_peer_ids asr_new_peer_ids].
      rewrite (seqZ_cons (mo_next_id m + 1)) by (destruct (rg_peers (at_region task)); [done|cbn; lia]). reflexivity.
    + cbn. split.
      * rewrite !length_fmap, length_seqZ. destruct (rg_peers (at_region task)); [done|cbn; lia].
      * intros p [->|(id & -> & _)%list_elem_of_fmap]%elem_of_cons; done.
Qed.
End splits.

(** ** Samples *)

Section samples.
#[local] Existing Instance map_order.
#[local] Instance mock_profile : BuildProfile := true.

Lemma split_over_mock_witness :
  let s' := (handle_task (client := Mock_scheduler) (TaskAskSplit sample_task) (Mock_new 1, sample_router)).2 in
  (ch_queue <$> channel_of 7 s'.2) = Some [split_cmd sample_task] ∧ mo_next_id s'.1 = 1004.
Proof.
  destruct (split_over_mock sample_task (Mock_new 1) sample_router (λ _, 5) sample_handler StoreMeta_new) as (_ & E & _);
    [by vm_compute..|by vm_compute|].
  cbv zeta. rewrite E. split; by vm_compute.
Defined.
End samples.
