(* ===== verification/RawNodeTests.v ===== *)
(** The tests of tests/rawnode_test.rs, run on the model of the driver
    interface: each test is a program that panics where an assertion fails.

    They check the model against what the authors of the code expect of it,
    and the code against its own tests: some of them cannot pass. *)

From S2P Require Import Prelude Bytes RaftTypes RaftLog Raft RawNode Engine.

(** [assert!] *)
Definition assert_ (b : bool) : outcome unit := if b then Ok tt else Panic.
(** [unwrap()] of a result *)
Definition unwrap_ok {A} (o : outcome A) : outcome A := match o with Err _ => Panic | _ => o end.
Definition unwrapped {S A} (m : M S A) : M S A := λ s, let '(o, s') := m s in (unwrap_ok o, s').

(** ** The storage of the tests *)

Record MemoryStorage := mkMemory {
  ms_hard_state : HardState; ms_conf_state : ConfState; ms_entries : list Entry; ms_snapshot : option Snapshot }.
Definition MemoryStorage_new : MemoryStorage := mkMemory (mkHardState 0 0 0) (mkConfState []) [] None.
Definition with_peers (peers : list Z) : MemoryStorage := mkMemory (mkHardState 0 0 0) (mkConfState peers) [] None.
Definition memory_storage (m : MemoryStorage) : RStorage := {|
  st_initial_state := Ok (ms_hard_state m, ms_conf_state m);
  st_entries lo hi := Ok (filter (λ e, lo ≤ e_index e ∧ e_index e < hi) (ms_entries m));
  st_term index := ok_or "entry not found" (e_term <$> (snd <$> list_find (λ e, e_index e = index) (ms_entries m)));
  st_last_index := Ok (default 0 (e_index <$> last (ms_entries m)));
  st_first_index := Ok (default 1 (e_index <$> head (ms_entries m)));
  st_snapshot := Ok (default (mkSnapshot [] (mkSnapshotMetadata (mkConfState []) 0 0)) (ms_snapshot m));
|}.

Section tests.
Context `{prof : BuildProfile} `{order : HashOrder} `{rand : RandomSource}.

Definition test_config (id : Z) (peers : list Z) (election_tick heartbeat_tick : Z) (storage : MemoryStorage) : RaftConfig :=
  mkRaftConfig id peers election_tick heartbeat_tick (memory_storage storage) 0.
Definition new_raw_node (id : Z) (peers : list Z) (election_tick heartbeat_tick : Z) (g : rng) : outcome RawNode :=
  unwrap_ok (RawNode_new (test_config id peers election_tick heartbeat_tick (with_peers peers)) g).

(** A test on one node. *)
Definition run_test (n : outcome RawNode) (test : M RawNode unit) : outcome unit := n ← n; (test n).1.
Definition holds (f : RawNode → bool) : M RawNode unit := n ← get; lift (assert_ (f n)).
Definition in_state (s : StateType) (n : RawNode) : bool := bool_decide (r_state (rn_raft n) = s).

Fixpoint tick_times (n : nat) : M RawNode unit :=
  match n with O => mret tt | S n => rn_tick;; tick_times n end.
(** [for _ in 0..20 { tick(); if it leads { break; } }] *)
Fixpoint tick_until_leader (n : nat) : M RawNode unit :=
  match n with
  | O => mret tt
  | S n => rn_tick;; node ← get; if in_state Leader node then mret tt else tick_until_leader n
  end.
Definition elect : M RawNode unit := unwrapped rn_campaign;; tick_until_leader 20.

Definition test_raw_node_new (g : rng) : outcome unit :=
  run_test (unwrap_ok (RawNode_new (test_config 1 [1; 2; 3] 10 3 MemoryStorage_new) g))
    (holds (λ n, r_id (rn_raft n) =? 1);; holds (in_state Follower);; holds (λ n, r_lead (rn_raft n) =? NONE)).
Definition test_raw_node_tick (g : rng) : outcome unit :=
  run_test (new_raw_node 1 [1; 2; 3] 10 3 g) (rn_tick;; tick_times 15;; holds has_ready).
Definition test_raw_node_campaign (g : rng) : outcome unit :=
  run_test (new_raw_node 1 [1; 2; 3] 10 3 g)
    (holds (in_state Follower);; unwrapped rn_campaign;; holds (in_state Candidate);; holds (λ n, r_term (rn_raft n) =? 1)).
Definition test_raw_node_propose (g : rng) : outcome unit :=
  run_test (new_raw_node 1 [1] 10 3 g)
    (elect;; unwrapped (propose (str_bytes "test data"));;
     rd ← ready;
     lift (assert_ (negb (is_nil (rd_entries rd)));;
           e ← index (rd_entries rd) 0; assert_ (bool_decide (e_data e = str_bytes "test data")))).
Definition test_raw_node_ready_and_advance (g : rng) : outcome unit :=
  run_test (new_raw_node 1 [1] 10 3 g)
    (holds (λ n, negb (has_ready n));; unwrapped rn_campaign;; holds has_ready;;
     rd ← ready;
     lift (assert_ (is_some (rd_soft_state rd)));;
     s ← lift (unwrap (rd_soft_state rd));
     lift (assert_ (bool_decide (ss_raft_state s = Candidate)));;
     modify (advance rd)).
(** A vote request crosses from node 1 to node 2. *)
Definition test_raw_node_step (g1 g2 : rng) : outcome unit :=
  n1 ← new_raw_node 1 [1; 2] 10 3 g1;
  n2 ← new_raw_node 2 [1; 2] 10 3 g2;
  let '(o, _) := (unwrapped rn_campaign;; ready) n1 in
  rd ← o;
  assert_ (negb (is_nil (rd_messages rd)));;
  vote_msg ← unwrap (snd <$> list_find (λ m, msg_to m = 2 ∧ msg_type m = MsgRequestVote) (rd_messages rd));
  run_test (Ok n2) (modify (advance rd);; unwrapped (rn_step vote_msg);; holds (λ n, r_vote (rn_raft n) =? 1)).
Definition test_raw_node_propose_conf_change (serialize : ConfChange → outcome bytes) (g : rng) : outcome unit :=
  run_test (new_raw_node 1 [1] 10 3 g)
    (elect;; unwrapped (propose_conf_change serialize (mkConfChange AddNode 2 []));;
     rd ← ready;
     lift (assert_ (negb (is_nil (rd_entries rd)));;
           e ← index (rd_entries rd) 0; assert_ (bool_decide (e_type e = EntryConfChange)))).
Definition test_raw_node_apply_conf_change (g : rng) : outcome unit :=
  run_test (new_raw_node 1 [1] 10 3 g)
    (holds (λ n, bool_decide (size (r_prs (rn_raft n)) = 0%nat));;
     cs ← apply_conf_change (mkConfChange AddNode 2 []);
     lift (assert_ (bool_decide (1 ∈ cs_nodes cs)));; lift (assert_ (bool_decide (2 ∈ cs_nodes cs)));;
     holds (λ n, is_some (r_prs (rn_raft n) !! 2));;
     apply_conf_change (mkConfChange RemoveNode 2 []);;
     holds (λ n, negb (is_some (r_prs (rn_raft n) !! 2)))).
(** The other node only ticks, which changes nothing here. *)
Definition test_raw_node_transfer_leader (g : rng) : outcome unit :=
  run_test (new_raw_node 1 [1; 2] 10 3 g)
    (elect;; on_raft (add_node 2);; unwrapped (transfer_leader 2);;
     rd ← ready;
     lift (assert_ (is_some (list_find (λ m, msg_type m = MsgTransferLeader) (rd_messages rd))))).
Definition test_raw_node_get_progress (g : rng) : outcome unit :=
  run_test (new_raw_node 1 [1; 2] 10 3 g)
    (holds (λ n, negb (is_some (get_progress n)));; elect;; on_raft (add_node 2);;
     n ← get;
     lift (assert_ (is_some (get_progress n));;
           progress ← unwrap (get_progress n); assert_ (is_some (progress !! 2)))).
Definition test_raw_node_ready_entries (g : rng) : outcome unit :=
  run_test (new_raw_node 1 [1] 10 3 g)
    (elect;;
     unwrapped (propose (str_bytes "entry1"));; unwrapped (propose (str_bytes "entry2"));; unwrapped (propose (str_bytes "entry3"));;
     rd ← ready; lift (assert_ (negb (is_nil (rd_entries rd))));;
     modify (advance rd);;
     unwrapped (propose (str_bytes "entry4"));;
     rd ← ready;
     lift (assert_ (bool_decide (length (rd_entries rd) = 1%nat));;
           e ← index (rd_entries rd) 0; assert_ (bool_decide (e_data e = str_bytes "entry4")))).
Definition test_raw_node_committed_entries (g : rng) : outcome unit :=
  run_test (new_raw_node 1 [1] 10 3 g)
    (elect;; unwrapped (propose (str_bytes "test"));;
     rd ← ready; lift (assert_ (negb (is_nil (rd_entries rd))));;
     modify (advance (mkReady (rd_soft_state rd) (rd_hard_state rd) (rd_entries rd) (rd_snapshot rd) [] (rd_messages rd) (rd_must_sync rd)));;
     rd ← ready;
     match rd_committed_entries rd with
     | [] => mret tt
     | e :: _ => lift (assert_ (bool_decide (e_data e = str_bytes "test")))
     end).
Definition test_raw_node_hard_state (g : rng) : outcome unit :=
  run_test (new_raw_node 1 [1; 2; 3] 10 3 g)
    (rd ← ready; lift (assert_ (HardState_is_empty (rd_hard_state rd)));;
     unwrapped rn_campaign;;
     rd ← ready;
     lift (assert_ (negb (HardState_is_empty (rd_hard_state rd)));; assert_ (hs_term (rd_hard_state rd) =? 1);;
           assert_ (hs_vote (rd_hard_state rd) =? 1);; assert_ (rd_must_sync rd))).
End tests.

(** ** What the tests find *)

Section results.
#[local] Existing Instance map_order.
#[local] Existing Instance low_rng.
#[local] Instance tested_profile : BuildProfile := true.

(** These pass. *)
Theorem tests_that_pass :
  Forall (λ test, test tt = Ok tt)
    [test_raw_node_new; test_raw_node_tick; test_raw_node_campaign; (λ g, test_raw_node_step g g);
     test_raw_node_apply_conf_change; test_raw_node_ready_entries; test_raw_node_committed_entries;
     test_raw_node_hard_state].
Proof. repeat constructor. Qed.

(** The first entry of a node's first term as leader is the empty one that it
    appends when it is elected, so [entries[0]] is never the one a test has
    proposed. *)
Theorem tests_of_the_first_entry_fail :
  test_raw_node_propose tt = Panic ∧ test_raw_node_propose_conf_change (λ _, Ok []) tt = Panic.
Proof. split; reflexivity. Qed.

(** A node that is alone leads as soon as it campaigns. *)
Theorem test_of_a_lone_candidate_fails : test_raw_node_ready_and_advance tt = Panic.
Proof. reflexivity. Qed.

(** One node of two never leads where no message is carried. *)
Theorem tests_without_messages_fail :
  test_raw_node_transfer_leader tt = Panic ∧ test_raw_node_get_progress tt = Panic.
Proof. split; reflexivity. Qed.
End results.
