(* ===== verification/UnitTests.v ===== *)
(** The unit tests inside the files of src/, run on the models of the parts
    they test: each test is a program that panics where an assertion fails,
    and the development proves which of them pass.

    A test opens a database of its own, empty, in a directory of its own; the
    temporary directories are left out.  The tests of the storage and of the
    transaction run on [StandaloneStorage] itself, as the [Storage] instance
    given here, and the tests that sleep are given what the clock reads. *)

From stdpp Require Import pretty.
From S2P Require Import Prelude Bytes Codec Records RaftTypes MultiLevelKey Engine Storage Latches Proto MvccTxn Wal FailureDetector PeerStorage RegionTasks RawNodeTests.

Definition assert_eq {A} `{EqDecision A} (x y : A) : outcome unit := assert_ (bool_decide (x = y)).
Definition run_on {S} (s : S) (test : M S unit) : outcome unit := (test s).1.
Definition unwrap_some {A} (r : outcome (option A)) : outcome A := o ← unwrap_ok r; unwrap o.

(** ** src/transaction/mvcc/codec.rs *)

Definition test_encode_decode_bytes : outcome unit :=
  let data := str_bytes "hello" in
  d ← unwrap_ok (decode_bytes (encode_bytes data));
  assert_eq d.1 data.
Definition test_encode_decode_key : outcome unit :=
  let user_key := str_bytes "test_key" in
  let encoded := encode_key user_key 1234567890 in
  decoded_key ← unwrap_ok (decode_user_key encoded);
  decoded_ts ← unwrap_ok (decode_timestamp encoded);
  assert_eq decoded_key user_key;; assert_eq decoded_ts 1234567890.
Definition test_encoded_key_ordering : outcome unit :=
  let key1 := encode_key (str_bytes "key") 100 in
  let key2 := encode_key (str_bytes "key") 200 in
  assert_ (bytes_ltb key2 key1);;
  let key3 := encode_key (str_bytes "key1") 100 in
  let key4 := encode_key (str_bytes "key2") 100 in
  assert_ (bytes_ltb key3 key4).

(** ** src/transaction/mvcc/write.rs, src/transaction/mvcc/lock.rs *)

Definition test_write_serialization : outcome unit :=
  let write := mkWrite 1234567890 WkPut in
  parsed ← unwrap_some (Write_parse (Write_to_bytes write));
  assert_eq write parsed.
#[export] Instance Op_eq_dec : EqDecision Op.
Proof. solve_decision. Defined.
Definition test_write_kinds : outcome unit :=
  let kinds := write_kind <$> [mkWrite 100 WkPut; mkWrite 100 WkDelete; mkWrite 100 WkRollback] in
  assert_eq (WriteKind_to_proto <$> kinds) [OpPut; OpDel; OpRollback].
Definition test_lock_serialization : outcome unit :=
  let lock := mkLock (str_bytes "primary_key") 1234567890 3000 WkPut in
  parsed ← unwrap_ok (Lock_parse (Lock_to_bytes lock));
  assert_eq lock parsed.
Definition test_lock_is_locked_for : outcome unit :=
  let lock := mkLock (str_bytes "primary") 100 3000 WkPut in
  assert_ (is_locked_for lock (str_bytes "key") 200);;
  assert_ (negb (is_locked_for lock (str_bytes "key") 50)).

(** ** src/util/multi_level_key.rs *)

Definition test_encode_decode : outcome unit :=
  let primary := str_bytes "region_1" in
  let secondary := str_bytes "key1" in
  d ← unwrap_ok (decode_multi_level_key (encode_multi_level_key primary secondary));
  assert_eq d.1 primary;; assert_eq d.2 secondary.
(** The test is written for any region here. *)
Definition test_region_id_encoding (region_id : Z) : outcome unit :=
  let primary := primary_key_from_region_id region_id in
  let secondary := str_bytes "user:1" in
  d ← unwrap_ok (decode_multi_level_key (encode_multi_level_key primary secondary));
  decoded_region_id ← unwrap_ok (region_id_from_primary_key d.1);
  assert_eq decoded_region_id region_id.
Definition test_key_ordering : outcome unit :=
  let primary := str_bytes "region_1" in
  assert_ (bytes_ltb (encode_multi_level_key primary (str_bytes "key1"))
                     (encode_multi_level_key primary (str_bytes "key2"))).

(** ** src/transaction/latches/latches.rs *)

(** Nobody waits while the test sleeps. *)
Definition test_latches : outcome unit :=
  let keys1 := [str_bytes "key1"; str_bytes "key2"] in
  let keys2 := [str_bytes "key2"; str_bytes "key3"] in
  let '(notify1, latches) := acquire_latches keys1 Latches_new in
  assert_eq notify1 None;;
  let '(notify2, latches) := acquire_latches keys2 latches in
  assert_ (bool_decide (is_Some notify2));;
  let '(_, latches) := release_latches keys1 latches in
  let '(notify3, _) := acquire_latches keys2 latches in
  assert_eq notify3 None.

(** ** src/engine_util: util.rs, iterator.rs, write_batch.rs *)

Section engine_tests.
Context `{rocks : RocksDB}.

Definition test_key_with_cf : outcome unit :=
  assert_eq (key_with_cf "default" (str_bytes "key1")) (str_bytes "default_key1");;
  assert_eq (key_with_cf "write" (str_bytes "test")) (str_bytes "write_test").
Definition test_get_cf (d : db) : outcome unit :=
  d ← unwrap_ok (put_cf d "default" (str_bytes "key1") (str_bytes "value1"));
  value ← unwrap_ok (get_cf d "default" (str_bytes "key1"));
  assert_eq value (Some (str_bytes "value1"));;
  value2 ← unwrap_ok (get_cf d "default" (str_bytes "key2"));
  assert_eq value2 None.
(** [assert_eq!(db.get(key).unwrap(), value)] *)
Definition stored (d : db) (key : string) (value : option bytes) : outcome unit :=
  v ← unwrap_ok (db_get d (str_bytes key)); assert_eq v value.
Definition test_put_cf (d : db) : outcome unit :=
  d ← unwrap_ok (put_cf d "default" (str_bytes "key1") (str_bytes "value1"));
  stored d "default_key1" (Some (str_bytes "value1")).
Definition test_delete_cf (d : db) : outcome unit :=
  d ← unwrap_ok (put_cf d "default" (str_bytes "key1") (str_bytes "value1"));
  d ← unwrap_ok (delete_cf d "default" (str_bytes "key1"));
  stored d "default_key1" None.
Definition test_exceed_end_key : outcome unit :=
  let a := str_bytes "a" in
  let b := str_bytes "b" in
  assert_ (negb (exceed_end_key a b));; assert_ (exceed_end_key b a);;
  assert_ (exceed_end_key a a);; assert_ (negb (exceed_end_key a [])).

(** The keys of [while iter.valid() { .. iter.next() }]. *)
Fixpoint iterated_keys (fuel : nat) (it : RocksDBIterator) : outcome (list bytes) :=
  match fuel with
  | O => Diverge
  | S fuel =>
      if it_valid it then keys ← iterated_keys fuel (it_next it); Ok ((it_item it).1 :: keys) else Ok []
  end.
(** [put_cf] of a list of keys, each with its value. *)
Fixpoint put_all (cf : string) (kvs : list (string * string)) (d : db) : outcome db :=
  match kvs with
  | [] => Ok d
  | (k, v) :: kvs => d ← unwrap_ok (put_cf d cf (str_bytes k) (str_bytes v)); put_all cf kvs d
  end.
Definition three_entries : list (string * string) := [("key1", "value1"); ("key2", "value2"); ("key3", "value3")]%string.
Definition test_iterator (d : db) : outcome unit :=
  d ← put_all "default" three_entries d;
  d ← put_all "write" [("key1", "value1")]%string d;
  keys ← iterated_keys 5 (RocksDBIterator_new d "default_");
  assert_eq (length keys) 3%nat;; assert_eq keys (str_bytes <$> ["key1"; "key2"; "key3"]%string).
Definition test_iterator_seek (d : db) : outcome unit :=
  d ← put_all "default" three_entries d;
  let it := it_seek (str_bytes "key2") (RocksDBIterator_new d "default_") in
  assert_ (it_valid it);; assert_eq (it_item it).1 (str_bytes "key2").

Definition set_default (k v : string) : WriteBatch → WriteBatch := set_cf "default" (str_bytes k) (str_bytes v).
Definition test_write_batch_put_and_delete (d : db) : outcome unit :=
  let wb := set_default "key2" "value2" (set_default "key1" "value1" WriteBatch_new) in
  d ← unwrap_ok (write_to_db wb d);
  stored d "default_key1" (Some (str_bytes "value1"));; stored d "default_key2" (Some (str_bytes "value2"));;
  let wb2 := batch_delete_cf "default" (str_bytes "key1") WriteBatch_new in
  d ← unwrap_ok (write_to_db wb2 d);
  stored d "default_key1" None;; stored d "default_key2" (Some (str_bytes "value2")).
Definition test_write_batch_safe_point (d : db) : outcome unit :=
  let wb := set_safe_point (set_default "key1" "value1" WriteBatch_new) in
  let wb := rollback_to_safe_point (set_default "key3" "value3" (set_default "key2" "value2" wb)) in
  assert_eq (WriteBatch_len wb) 1;;
  d ← unwrap_ok (write_to_db wb d);
  stored d "default_key1" (Some (str_bytes "value1"));;
  stored d "default_key2" None;; stored d "default_key3" None.
Definition test_write_batch_reset : outcome unit :=
  let wb := set_default "key1" "value1" WriteBatch_new in
  assert_eq (WriteBatch_len wb) 1;; assert_eq (WriteBatch_len (batch_reset wb)) 0.
End engine_tests.

(** ** src/storage/mod.rs *)

Section storage_tests.
Context `{rocks : RocksDB} `{cache : !LruCache bytes bytes}.

(** [impl Storage for StandaloneStorage], with its reader and its iterator. *)
Definition standalone_storage : Storage := {|
  sto := StandaloneStorage;
  iter := RocksDBIterator;
  sto_write := standalone_write;
  sto_get_cf := standalone_get_cf;
  sto_iter_cf := standalone_iter_cf;
  iter_valid := it_valid;
  iter_item := it_item;
  iter_next := it_next;
  iter_seek := it_seek;
|}.

(** It runs on a fresh storage: [start] and [stop] do nothing to it. *)
Definition test_program : Type := M StandaloneStorage unit.
(** [storage.write(batch).await.unwrap()], and a read that is asserted. *)
Definition writes (batch : list Modify) : test_program := unwrapped (standalone_write batch).
Definition reads (cf key : string) (value : option bytes) : test_program :=
  v ← unwrapped (standalone_get_cf cf (str_bytes key)); lift (assert_eq v value).
Definition put_of (cf key value : string) : Modify := MPut (str_bytes key) (str_bytes value) cf.

Definition test_storage_write_and_read : test_program :=
  writes [put_of "default" "key1" "value1"; put_of "default" "key2" "value2"];;
  reads "default" "key1" (Some (str_bytes "value1"));; reads "default" "key2" (Some (str_bytes "value2"));;
  reads "default" "key3" None.
Definition test_storage_delete : test_program :=
  writes [put_of "default" "key1" "value1"];;
  reads "default" "key1" (Some (str_bytes "value1"));;
  writes [MDelete (str_bytes "key1") "default"];;
  reads "default" "key1" None.
Definition test_storage_column_families : test_program :=
  writes [put_of "default" "key1" "value1"; put_of "write" "key1" "value2"; put_of "lock" "key1" "value3"];;
  reads "default" "key1" (Some (str_bytes "value1"));; reads "write" "key1" (Some (str_bytes "value2"));;
  reads "lock" "key1" (Some (str_bytes "value3")).
(** [format!("{}{}", s, i)] *)
Definition numbered_string (s : string) (i : Z) : string := s +:+ pretty i.
Definition test_storage_batch_write : test_program :=
  let numbers := seqZ 0 100 in
  writes ((λ i, put_of "default" (numbered_string "key" i) (numbered_string "value" i)) <$> numbers);;
  for_each numbers (λ i, reads "default" (numbered_string "key" i) (Some (str_bytes (numbered_string "value" i)))).
Definition test_storage_cache : test_program :=
  writes [put_of "default" "key1" "value1"];;
  reads "default" "key1" (Some (str_bytes "value1"));; reads "default" "key1" (Some (str_bytes "value1")).

(** ** src/transaction/mvcc/transaction.rs *)

#[local] Existing Instance standalone_storage.
Context `{bound : LoopBound}.

Definition test_mvcc_txn_put_and_get : test_program :=
  let key := str_bytes "key1" in
  let txn := put_write key 100 (mkWrite 100 WkPut) (put_value key (str_bytes "value1") (MvccTxn_new 100)) in
  writes (txn_writes txn);;
  value ← unwrapped (get_value key (MvccTxn_new 200) : M StandaloneStorage _);
  lift (assert_eq value (Some (str_bytes "value1"))).
Definition test_mvcc_txn_lock : test_program :=
  let key := str_bytes "key1" in
  let txn := put_lock key (mkLock (str_bytes "primary") 100 3000 WkPut) (MvccTxn_new 100) in
  writes (txn_writes txn);;
  read_lock ← unwrapped (get_lock key : M StandaloneStorage _);
  lock ← lift (unwrap read_lock);
  lift (assert_eq (lock_ts lock) 100).
End storage_tests.

(** ** src/engine_util/wal.rs, src/raftstore/recovery.rs *)

Section engines_tests.
Context `{prof : BuildProfile} `{rocks : RocksDB} `{region_serde : Serde Region} `{region_state_serde : Serde RegionLocalState}.

(** [now]: what the clock reads, in seconds. *)
Definition two_entries (now : Z) : M WalManager (Z * Z) :=
  seq1 ← add_entry (Some now) KvWrite (str_bytes "data1");
  seq2 ← add_entry (Some now) RaftLog (str_bytes "data2");
  mret (seq1, seq2).
Definition counts (n : nat) : M WalManager unit := wal ← get; lift (assert_eq (pending_count wal) n).
Definition test_wal_manager (now : Z) : outcome unit :=
  run_on WalManager_new (seqs ← two_entries now; lift (assert_eq seqs.1 0;; assert_eq seqs.2 1);; counts 2).
(** [kv] and [raft]: what the databases answer to a flush. *)
Definition test_wal_flush (now : Z) (kv raft : outcome unit) : outcome unit :=
  run_on WalManager_new (two_entries now;; unwrapped (flush kv (Some raft));; counts 0).

(** [create_test_engines]: both databases are empty. *)
Definition create_test_engines (kv raft : db) : Engines := mkEngines kv (Some raft).
Definition write_something : M Engines unit :=
  unwrapped (write_kv (set_cf "default" (str_bytes "key1") (str_bytes "value1") WriteBatch_new)).
Definition test_verify_data_consistency : M Engines unit :=
  write_something;; lift (b ← unwrap_ok verify_data_consistency; assert_ b).
Definition test_check_wal_integrity (kv raft : outcome unit) : M Engines unit :=
  write_something;; lift (b ← unwrap_ok (check_wal_integrity kv (Some raft)); assert_ b).

Definition region1 : Region := mkRegion 1 (str_bytes "a") (str_bytes "m") (Some (mkRegionEpoch 1 1)) [mkPeer 1 1].
Definition region2 : Region := mkRegion 2 (str_bytes "m") [] (Some (mkRegionEpoch 1 1)) [mkPeer 2 1].
(** The states of regions, written as one batch. *)
Fixpoint region_states (l : list (Region * PeerState)) (wb : WriteBatch) : outcome WriteBatch :=
  match l with
  | [] => Ok wb
  | (region, state) :: l => wb ← unwrap_ok (write_region_state region state wb); region_states l wb
  end.
Definition write_regions (l : list (Region * PeerState)) : M Engines unit :=
  wb ← lift (region_states l WriteBatch_new); unwrapped (write_kv wb).
(** [recovered.len()] and the ids of [recovered]. *)
Definition recovers (ids : list Z) : M Engines unit :=
  e ← get; recovered ← lift (unwrap_ok (recover_regions 1 e)); lift (assert_eq (rg_id <$> recovered) ids).
Definition test_recover_regions : M Engines unit :=
  write_regions [(region1, PsNormal); (region2, PsNormal)];; recovers [1; 2].
Definition test_recover_regions_with_tombstone : M Engines unit :=
  write_regions [(region1, PsNormal); (region2, PsTombstone)];; recovers [1].
Definition test_validate_region : M Engines unit :=
  write_regions [(region1, PsNormal)];;
  e ← get;
  lift (b ← unwrap_ok (validate_region 1 e); assert_ b;;
        b ← unwrap_ok (validate_region 999 e); assert_ (negb b)).
End engines_tests.

(** ** src/raftstore/failure_detector.rs *)

Section detector_tests.
Context `{prof : BuildProfile} `{order : HashOrder}.

Definition seconds (n : Z) : Z := n * 10 ^ 9.
Definition millis (n : Z) : Z := n * 10 ^ 6.
Definition short_detector : FailureDetector := FailureDetector_new (millis 500) 2 (millis 100).
(** [register_node] and [update_heartbeat] of nodes, when the clock reads [t]. *)
Definition alive (t : Z) (nodes : list Z) (d : FailureDetector) : FailureDetector :=
  foldl (λ d n, fd_update_heartbeat t t n d) (foldl (λ d n, register_node t n d) d nodes) nodes.
Fixpoint failures_of (node t : Z) (times : nat) : M FailureDetector unit :=
  match times with O => mret tt | S times => record_failure t node;; failures_of node t times end.
Definition asserts_status (node : Z) (p : option NodeStatus → bool) : M FailureDetector unit :=
  d ← get; lift (assert_ (p (get_status node d))).
Definition is_status (s : NodeStatus) (o : option NodeStatus) : bool := bool_decide (o = Some s).

(** [t]: the clock before the sleep; [late]: after it. *)
Definition test_failure_detector_basic (t : Z) : outcome unit :=
  run_on (alive t [1; 2] (FailureDetector_new (seconds 2) 3 (millis 100)))
    (asserts_status 1 (is_status Healthy);; asserts_status 2 (is_status Healthy)).
Definition test_failure_detector_timeout (t late : Z) : outcome unit :=
  run_on (alive t [1] short_detector)
    (failures_of 1 late 2;;
     modify (λ d, (check_all_nodes (λ _, late) d).2);;
     asserts_status 1 (λ s, is_status Suspect s || is_status Failed s)).
Definition test_failure_detector_recovery (t late : Z) : outcome unit :=
  run_on (alive t [1] short_detector)
    (record_failure late 1;; modify (fd_update_heartbeat late late 1);; asserts_status 1 (is_status Healthy)).
(** The three failures of node 100 are recorded late, and the leader of the
    first region is dropped. *)
Definition test_leader_switch_manager (t late : Z) : outcome unit :=
  let manager := sw_set_leader 2 200 (sw_set_leader 1 100 LeaderSwitchManager_new) in
  assert_eq (sw_get_leader 1 manager) (Some 100);; assert_eq (sw_get_leader 2 manager) (Some 200);;
  run_on (alive t [100; 200] short_detector)
    (failures_of 100 late 3;;
     modify (λ d, (check_all_nodes (λ _, late) d).2);;
     d ← get;
     lift (match (check_and_switch_leader d 1 manager).1 with
           | SwDone leader => assert_eq leader None
           | _ => Panic
           end)).
End detector_tests.

(** ** What the tests find *)

Theorem record_and_key_tests_pass :
  Forall (.= Ok tt)
    [test_encode_decode_bytes; test_encode_decode_key; test_encoded_key_ordering; test_write_serialization;
     test_write_kinds; test_lock_serialization; test_lock_is_locked_for; test_encode_decode;
     test_region_id_encoding 12345; test_key_ordering; test_latches; test_key_with_cf; test_exceed_end_key;
     test_write_batch_reset].
Proof. repeat constructor. Qed.

(** The test of the region ids passes for every id. *)
Theorem region_id_test_passes region_id : is_u64 region_id → test_region_id_encoding region_id = Ok tt.
Proof.
  intros H. unfold test_region_id_encoding, primary_key_from_region_id.
  rewrite decode_encode by (by rewrite length_u64_bytes). cbn [decide]. rewrite decide_False by done.
  cbn [unwrap_ok mbind outcome_bind fst]. unfold region_id_from_primary_key.
  rewrite decide_False by (rewrite length_u64_bytes; lia). cbn [unwrap_ok mbind outcome_bind].
  unfold assert_eq. by rewrite from_be_u64, bool_decide_true by done.
Qed.

(** *** Any database that obeys the laws of RocksDB and does not fail *)

Section on_any_database.
Context `{reliable : RocksDBReliable}.

Lemma db_items_determined d : db_items d = sorted_entries (db_view d).
Proof.
  assert (∀ l, StronglySorted key_lt l → NoDup l) as Hnd.
  { intros l Hl. induction Hl as [|x l Hl IH Hx]; constructor; [|done].
    intros Hin. rewrite Forall_forall in Hx. by apply (bytes_lt_irrefl x.1), (Hx x). }
  pose proof (db_items_sorted d) as H1. pose proof (sorted_entries_sorted (db_view d)) as H2.
  eapply (StronglySorted_unique_strong key_lt); [|done..|].
  - intros x y _ _ Hxy Hyx. unfold key_lt in *. by destruct (bytes_lt_asym x.1 y.1).
  - apply NoDup_Permutation; [by apply Hnd..|]. intros [k v]. by rewrite db_items_view, elem_of_sorted_entries.
Qed.

Lemma db_write_run d ops : ∃ d', db_write d ops = Ok d' ∧ db_view d' = foldl apply_op (db_view d) ops.
Proof. destruct (db_write_ok d ops) as [d' H]. exists d'. split; [done|by apply db_write_view]. Qed.

Lemma write_to_db_run wb d : ∃ d', write_to_db wb d = Ok d' ∧ db_view d' = foldl apply_op (db_view d) (wb_entries wb).
Proof. unfold write_to_db. destruct (wb_entries wb) as [|o ops]; [by exists d|apply db_write_run]. Qed.

(** Runs a test whose first step is a write, from what the database holds. *)
Ltac db_writes :=
  repeat match goal with
  | H : db_view ?d = _ |- context [db_write ?d ?ops] =>
      let d' := fresh "d" in let E := fresh "E" in
      destruct (db_write_run d ops) as (d' & -> & E); rewrite H in E; cbn [unwrap_ok mbind outcome_bind]
  | H : db_view ?d = _ |- context [write_to_db ?wb ?d] =>
      let d' := fresh "d" in let E := fresh "E" in
      destruct (write_to_db_run wb d) as (d' & -> & E); rewrite H in E; cbn [unwrap_ok mbind outcome_bind]
  end.
Ltac db_test :=
  cbn [put_all three_entries]; unfold put_cf, delete_cf, get_cf, stored;
  db_writes; unfold RocksDBIterator_new; rewrite ?db_get_ok, ?db_items_determined; repeat match goal with E : db_view _ = _ |- _ => rewrite E end;
  vm_compute; reflexivity.

(** In particular every run of the prefix iterator ends within its fuel. *)
Theorem engine_tests_pass d :
  db_view d = ∅ →
  Forall (λ test, test d = Ok tt)
    [test_get_cf; test_put_cf; test_delete_cf; test_iterator; test_iterator_seek;
     test_write_batch_put_and_delete; test_write_batch_safe_point].
Proof.
  intros H. repeat constructor.
  - unfold test_get_cf. db_test.
  - unfold test_put_cf. db_test.
  - unfold test_delete_cf. db_test.
  - unfold test_iterator. db_test.
  - unfold test_iterator_seek. db_test.
  - unfold test_write_batch_put_and_delete. db_test.
  - unfold test_write_batch_safe_point. db_test.
Qed.
End on_any_database.

(** *** A database that is a map *)

(** A cache that keeps nothing: the other extreme of [map_cache]. *)
Definition no_cache (V : Type) : LruCache bytes V :=
  {| lru := unit; lru_peek := λ _ _, None; lru_put := λ _ _ c, c; lru_pop := λ _ c, c; lru_clear := λ c, c |}.

Section on_a_map.
#[local] Existing Instance map_db.
#[local] Existing Instance map_db_laws.
#[local] Existing Instance countable_serde.
#[local] Existing Instance map_order.
#[local] Instance tested_build : BuildProfile := true.
#[local] Instance tested_bound : LoopBound := 5%nat.

Definition fresh_storage (cache : LruCache bytes bytes) (empty : lru (LruCache := cache)) : StandaloneStorage :=
  mkStandalone (∅ : gmap bytes bytes) empty.
Definition storage_tests (cache : LruCache bytes bytes) : list test_program :=
  [test_storage_write_and_read; test_storage_delete; test_storage_column_families; test_storage_batch_write;
   test_storage_cache; test_mvcc_txn_put_and_get; test_mvcc_txn_lock].

(** Whether the cache keeps everything or nothing. *)
Theorem storage_tests_pass :
  Forall (λ test, run_on (fresh_storage (map_cache bytes) (∅ : gmap bytes bytes)) test = Ok tt) (storage_tests (map_cache bytes)) ∧
  Forall (λ test, run_on (fresh_storage (no_cache bytes) tt) test = Ok tt) (storage_tests (no_cache bytes)).
Proof. split; repeat constructor; vm_compute; reflexivity. Qed.

Theorem wal_and_recovery_tests_pass :
  test_wal_manager 0 = Ok tt ∧ test_wal_flush 0 (Ok tt) (Ok tt) = Ok tt ∧
  Forall (λ test, run_on (create_test_engines ∅ ∅) test = Ok tt)
    [test_verify_data_consistency; test_check_wal_integrity (Ok tt) (Ok tt); test_recover_regions;
     test_recover_regions_with_tombstone; test_validate_region].
Proof. split_and!; repeat constructor; vm_compute; reflexivity. Qed.
End on_a_map.

(** *** Any order of the hash map, and any clock that sleeps long enough *)

Section in_time.
Context `{prof : BuildProfile} `{order : HashOrder}.

Lemma checked_status now id h d :
  fd_nodes d !! id = Some h →
  get_status id (check_all_nodes now d).2 = Some (nh_status (checked_health now d id h).2).
Proof.
  intros Hh. rewrite check_all_nodes_fold. unfold get_status. cbn [snd set_nodes fd_nodes].
  destruct (check_nodes_run now d (hash_iter (fd_nodes d)) ([], fd_nodes d) (NoDup_hash_keys (fd_nodes d))) as [_ ->].
  destruct (list_find _ _) as [[j p]|] eqn:E.
  - apply list_find_Some in E as (Hj & <- & _). apply list_elem_of_lookup_2 in Hj.
    destruct p as [i h']. apply elem_of_hash_iter in Hj. cbn in *. congruence.
  - apply list_find_None in E. apply elem_of_hash_iter in Hh. rewrite Forall_forall in E. by destruct (E (id, h) Hh).
Qed.

(** A node that has been silent for longer than the timeout and has failed
    often enough is failed once it is checked. *)
Lemma silent_node_fails t late n c id d :
  t + millis 600 ≤ late → 2 ≤ n → fd_heartbeat_timeout d = millis 500 → fd_failure_threshold d = 2 →
  fd_nodes d !! id = Some (mkHealth Healthy (Some t) n c) →
  get_status id (check_all_nodes (λ _, late) d).2 = Some Failed.
Proof.
  intros H Hn Ht Hf Hh. erewrite checked_status by exact Hh. unfold checked_health. rewrite Ht, Hf.
  unfold check_health, time_since_heartbeat, duration_since, millis in *. cbn [nh_last_heartbeat].
  rewrite (proj2 (Z.ltb_lt _ _)) by lia. cbn. by rewrite (proj2 (Z.leb_le _ _)) by done.
Qed.

(** The tests of the detector pass however late the sleep of 600 milliseconds
    ends; the first and the third do not depend on the time at all. *)
Theorem detector_tests_pass t late :
  t + millis 600 ≤ late →
  test_failure_detector_basic t = Ok tt ∧ test_failure_detector_timeout t late = Ok tt ∧
  test_failure_detector_recovery t late = Ok tt ∧ test_leader_switch_manager t late = Ok tt.
Proof.
  intros H. split_and!; [reflexivity| |reflexivity|].
  - unfold test_failure_detector_timeout, run_on.
    erewrite !M_bind_run by reflexivity. unfold asserts_status. erewrite M_bind_run by reflexivity.
    by rewrite (silent_node_fails t late 2 late) by done.
  - unfold test_leader_switch_manager, run_on. cbn [mbind outcome_bind].
    erewrite !M_bind_run by reflexivity.
    unfold check_and_switch_leader, switch_step.
    assert (sw_get_leader 1 (sw_set_leader 2 200 (sw_set_leader 1 100 LeaderSwitchManager_new)) = Some 100) as -> by done.
    cbv iota.
    by rewrite decide_True by (by apply (silent_node_fails t late 3 late)).
Qed.
End in_time.
